(* ===== verification/_CoqProject ===== *)
-Q . S2P
Prelude.v
Types.v
Proto.v
State.v
Actuator.v
Transfer.v
Stake.v
StakeV1.v
Delegate.v
Accounts.v
Governance.v
Assets.v
F64.v
Exchanges.v
OrderBook.v
Market.v
Chain.v
Consensus.v
Maintenance.v
Tvm.v
Frame.v
Engine.v
EngineSafe.v
Contracts.v
Executor.v
Ledger.v
Mempool.v
Intake.v
Node.v
Wire.v
Peers.v
Gossip.v
Reader.v
Sync.v
Storage.v
Kv.v
Text.v
Rpc.v
Server.v
Api.v
Process.v
Fixture.v
Capture.v
