(* ===== verification/Prelude.v ===== *)
(** * tron-rs: a verification development

    tron-rs is a Rust node for the Tron network.  A block carries transactions, a
    transaction one contract message; the executor unpacks the message and hands it to the
    actuator of its type, which validates it against the world state and then executes it,
    reading and writing the column families of a key-value store; two of the actuators run
    contract code on a virtual machine.  Around this core, the consensus rules decide which
    witness may produce a block, which blocks are accepted and which are final, the mempool
    collects transactions for the next block, the node's channel handler feeds the blocks,
    transactions and commits it receives to these parts, an HTTP API reports the state and
    takes transactions, and one process runs all of it over shared state.  This library models
    them as executable functions and proves what makes them correct.

    ** Conventions of the model

    - A Rust [Result] computation over [&mut WorldState] is [M A = world → R A * world]: the
      state after an error is the state the code leaves, since nothing is rolled back.  [R]
      has three outcomes: [Ok], [Err] (an [ActuatorError] with its message) and [Panic], for
      unchecked arithmetic that overflows (debug builds panic; a theorem that excludes
      [Panic] shows that release builds do not wrap either), division by zero and slices out
      of range.
    - [i64] and [u64] are [Z]; checked, saturating, wrapping and unchecked operations are
      separate functions ([checked_add], [saturating_add], [wrap_i64], [add_i64], ...).
      Floats are binary64 through the Standard Library's [SpecFloat]; [powf] of the C library
      is the class [Libm].  [U256] words are [Z] reduced modulo 2^256.
    - Bytes are lists of [Z]; big-endian encodings are computed, with their round trips.
    - The prost codec, SHA-256, Keccak and secp256k1 are generated or third-party code: they
      are the classes [Encode], [Decode], [Hashes], [HashLaws], [Secp], [SecpLaws]; the hex
      and Base58Check codecs and JSON values are [TextCodec], [TextLaws], [Json], [JsonLaws],
      and the iteration order of hash maps is [MapIter].
    - Error strings are part of the model: every early return of [validate] and [execute] is
      a branch with the source's message.

    ** Files (sources under src/crates unless said otherwise)

    - [Prelude]: integers, bytes, the result and state monads, record update, sums over lists
      and maps, and the tactics and hint databases of the development.
    - [Types] (types/src/lib.rs): addresses, H256, hexadecimal and decimal text.
    - [Proto] (proto): the protobuf messages as records with their defaults.
    - [State] (state/src/lib.rs, features.rs, genesis.rs): [world], one finite map per column
      family, its accessors, and genesis.
    - [Actuator] (actuators/src/lib.rs): the class [Actuator] (validate, execute), the TRX
      supply [total_trx], the invariant [trx_inv], and the classes [ActuatorSafe] (success
      keeps supply and invariant, an error changes nothing) and [ActuatorConserves] (the same
      without atomicity of errors), which every actuator file instantiates.
    - [Transfer] (transfer.rs), [Stake] (freeze_v2.rs, withdraw_unfreeze.rs,
      cancel_unfreeze.rs), [StakeV1] (freeze_v1.rs), [Delegate] (delegate.rs), [Accounts]
      (account.rs, permission.rs, vote.rs, withdraw.rs, brokerage.rs), [Governance]
      (witness.rs, proposal.rs, clear_abi.rs, update_setting.rs, update_energy_limit.rs),
      [Assets] (asset_issue.rs, asset_transfer.rs, participate_asset_issue.rs,
      unfreeze_asset.rs, update_asset.rs), [F64] and [Exchanges] (exchange.rs), [OrderBook]
      (market/price.rs, market/order_book.rs), [Market] (market/mod.rs, sell.rs, cancel.rs):
      one Module per actuator with its [validate] and [execute].
    - [Chain] (chain/src/lib.rs, crypto/src/lib.rs, state/src/blocks.rs): transaction and
      block ids, the Merkle root, signer recovery, the block and transaction store.
    - [Consensus] (consensus/src/lib.rs, election.rs, fork.rs, pbft.rs, reward.rs): slots and
      schedule, witness ranking, fork choice, PBFT commits and finality, rewards.
    - [Maintenance] (actuators/src/maintenance.rs): vote tally, election of the active set.
    - [Tvm] (vm/src/opcode.rs, energy.rs, memory.rs, precompile.rs, lib.rs): opcodes, prices,
      the meter, memory and precompiles; [Frame] (vm/src/frame.rs): the journaled world with
      checkpoint, commit and revert; [Engine] (vm/src/engine.rs, interp.rs, call.rs): the
      execution loop with nested calls; [EngineSafe]: its program logic and theorems.
    - [Contracts] (actuators/src/vm_host.rs, smart_contract.rs): the read-through backend, the
      flush of the dirty writes, and the two actuators that run the machine.
    - [Executor] (actuators/src/executor.rs): dispatch over the contract types, transactions
      and blocks, proved against the actuator classes.
    - [Ledger]: genesis, and the chains of accepted blocks reachable from it.
    - [Mempool] (consensus/src/mempool.rs): the pool and transaction admission.
    - [Intake] (consensus/src/lib.rs, producer.rs, node/src/production.rs, sync.rs): block
      validation, the intake gate, sync batches, block production.
    - [Node] (node/src/net.rs): the channel handler as transitions of its state.
    - [Wire] (p2p/src/message.rs, channel.rs, sync.rs): frames, stream programs, the two sides
      of the block-sync protocol, and a connection that interleaves them in any order.
    - [Peers] (p2p/src/lib.rs, peer.rs, discovery.rs, discovery_codec.rs,
      discovery_service.rs): the peer set, the routing table, discovery datagrams and service.
    - [Gossip] (p2p/src/service.rs): handshake, peer tasks, broadcast channel; [Node] is an
      instance of its handler interface.  [Reader]: the read task of a connection and its
      bounded channel to the peer task.
    - [Sync] (node/src/sync.rs, lib.rs): seeds, the discovery id, one round of peer sync.
    - [Storage] (storage/src/lib.rs, rocks.rs): the key-value interface and its two backends.
    - [Kv] (state/src/lib.rs, blocks.rs, genesis.rs, features.rs): the state's operations as
      programs over any store, and the typed [world] they represent.
    - [Text] (types/src/lib.rs, rpc/src/http/mod.rs): addresses as text, JSON accessors.
    - [Rpc] (rpc/src/http/*.rs): the HTTP handlers, one Module per source file; [Server]
      (rpc/src/server.rs): the shared node state with its lock, the routes and the dispatch;
      [Api]: what the replies say of the actuators and the stores.
    - [Process] (node/src/lib.rs, main.rs, production.rs): configuration, start-up, and a step
      relation whose steps are the turns of the services [Node::run] spawns.
    - [Fixture] (src/verify/src/lib.rs, bin/capture_contract_case.rs): the pre-state files of
      the differential tests; [Capture] (src/verify/src/lib.rs and bin/*.rs): the fixture
      loaders and the four capture programs over a map of files.

    ** What the theorems show

    - The ledger: genesis establishes the invariant with exactly the configured supply, a
      block of regular transactions preserves both, hence every state reachable by such blocks
      does ([Ledger], [Executor]).  Regular excludes what is listed under defects below: self
      trades and quotients over 64 bits on the market, swaps the pool does not cover, contract
      calls on the caller's own account or beyond its balance.
    - Each actuator: its effect on success, no effect on refusal, no panic where the
      invariant excludes it; staking refines an abstract ledger and is reversible, delegation
      moves stake only, tokens are conserved, votes and permissions are bounded, committee
      records stay consistent, pools conserve both traded tokens, and a sell order changes
      what every account owns exactly by its trades at the makers' prices and the fee.
    - Contract calls: a frame ends within its energy limit and uses at most that much, a
      revert restores what the journaled world showed before the writes since its checkpoint,
      a flush leaves the state reading exactly as the world did, and a call settles its value
      and its fee.
    - Consensus: two quorums share a witness outside any third of the active set, the elected
      set does not depend on the order of its input, the schedule is fair, a reorganisation
      goes through the common prefix, and rewards are shared in proportion to the votes.
    - The node: a produced block passes the intake gate of every peer, a synced batch is
      stored exactly up to its first fault whether or not there is an active set to check
      signatures against, a transaction is admitted to the mempool exactly when it passes the
      listed checks and there is room, and a height becomes solid only with a quorum of
      commits for it.
    - The API: it changes nothing but the pool, an address in a request is well formed and
      renderings are read back, amounts it quotes are the ones the actuators accept and pay,
      pages tile the listings, the market endpoints show every resting order, a broadcast is
      answered as its transaction's structure says, and requests do not panic within stated
      number ranges.
    - The process: whatever its services do in whatever order, every block above the starting
      head passes the intake gate of the active set the node has, and the ledger is the one it
      started with; after a panic under the pool's lock nothing is admitted or produced any
      more.
    - The network: a sync session ends the same way in every interleaving and catches up with
      an honest peer, the frames of a connection are handled whole and in order however its
      bytes arrive, nothing is announced twice, the routing table keeps the most recently
      seen nodes, discovery datagrams have one encoding each.
    - Storage: both backends refine one abstract map on the families the node declares; on
      either of them every program of state operations gives the results of the typed world,
      and a block whose writes fail half-way leaves a chain whose head is stored.
    - Fixtures: the pre-state files decode to what was encoded, and what a capture records is
      listed in order and loads as the node answered it.
    - Data structures: price lists stay sorted under binary-search insertion, the Merkle root
      is the root of the tree over its leaves and two lists of leaves with one root give a
      collision among the inputs their two trees hash, blocks are found by number and id.
    - Defects: concrete inputs on which the code loses or creates value or stops making
      progress (a swap that pays more than the pool holds, self trades, equal-ratio orders, a
      quotient cut to 64 bits, finality that stalls after pruning, a contract call on one's
      own account, an account created by an undone transfer, a sync client the channel service
      turns away, a transaction whose owner field poisons the pool's lock, a broadcast reported
      as a success that the pool refused, page numbers that overflow, a fresh node without a
      genesis that stores anyone's block).

    ** Fuel

    Every VM instruction that continues costs at least one unit of energy, so a frame with
    limit [n] runs at most [n] rounds and fuel [n + 1] is enough, nested calls included
    ([run_frame_ends]).  The order-matching loop removes a listed price per round, so one more
    round than there are listed prices suffices, and at most twenty-one fills happen before
    the code reports an error; the theorem on [match_order] shows that more fuel changes
    nothing.  The Merkle loop halves its level, so the number of leaves suffices.  Binary
    search halves its range.  The server of a sync session waits for one request more than it
    offers blocks.

    ** Not modelled

    The actuators, the node and the API are proved on the typed [world]; [Kv] relates it to the
    bytes for the operations of the state crate, with the codec of the messages a parameter
    (generated code), not for the direct store accesses of single actuators.  Writes fail in
    [Kv] only; elsewhere the store is taken to work.  Sockets, timers and task scheduling are
    events of the models.  A request to the API is a path and a JSON value or none: axum's
    parsing and its refusals of other methods are not modelled.  Of the node process, the
    parsing of the TOML file and of socket addresses are parameters; the binding of ports, the
    shutdown token with the draining of the services, and logging are left out.  Steps of the
    process are atomic except the producer's tick; handlers that read the store several times
    see one state.  The programs under src/verify/src/bin talk to a record of the node's
    answers, without their console output.
    The build script of the protocol crate runs the protobuf compiler.  The witness writer of
    vote.rs, which only its tests call, is left out. *)

From Stdlib Require Import ZArith Lia.
From stdpp Require Import gmap strings pretty numbers fin_maps prelude.

Open Scope Z_scope.

(** ** Bytes

    A byte is its unsigned value; a Rust [Vec<u8>], [&[u8]] or [[u8; N]] is
    the list of those values. *)

Abbreviation bytes := (list Z).

Definition is_byte (b : Z) : Prop := 0 ≤ b < 256.

(** ** Machine integers

    A Rust [i64] is the [Z] it denotes.  [checked_*] returns [None] out of
    range, [saturating_*] clamps, and the plain operators are modelled in the
    error monad below ([add_i64] and friends): they answer [Panic] when the
    exact result does not fit, which is what a build with overflow checks does;
    a computation that never answers [Panic] therefore behaves the same in a
    build without the checks. *)

Definition I64_MIN : Z := - 2 ^ 63.
Definition I64_MAX : Z := 2 ^ 63 - 1.
Definition U64_MAX : Z := 2 ^ 64 - 1.

Definition is_i64 (z : Z) : Prop := I64_MIN ≤ z ≤ I64_MAX.
Definition is_u64 (z : Z) : Prop := 0 ≤ z ≤ U64_MAX.

#[export] Instance is_i64_dec z : Decision (is_i64 z).
Proof. unfold is_i64; apply _. Defined.
#[export] Instance is_u64_dec z : Decision (is_u64 z).
Proof. unfold is_u64; apply _. Defined.

(** [as i64]: two's complement reinterpretation. *)
Definition wrap_i64 (z : Z) : Z := (z + 2 ^ 63) mod 2 ^ 64 - 2 ^ 63.
(** [as u64] *)
Definition wrap_u64 (z : Z) : Z := z mod 2 ^ 64.

Definition checked_i64 (z : Z) : option Z :=
  if bool_decide (is_i64 z) then Some z else None.
Definition checked_add (a b : Z) : option Z := checked_i64 (a + b).
Definition checked_sub (a b : Z) : option Z := checked_i64 (a - b).
Definition checked_mul (a b : Z) : option Z := checked_i64 (a * b).
Definition sat_i64 (z : Z) : Z := Z.max I64_MIN (Z.min I64_MAX z).
Definition saturating_add (a b : Z) : Z := sat_i64 (a + b).
Definition saturating_mul (a b : Z) : Z := sat_i64 (a * b).
(** [i64] division truncates toward zero. *)
Definition div_i64 (a b : Z) : Z := Z.quot a b.
(** [Option::filter]. *)
Definition opt_filter {A} (p : A → bool) (o : option A) : option A :=
  match o with
  | Some a => if p a then Some a else None
  | None => None
  end.

Ltac unfold_i64 :=
  unfold saturating_add, saturating_mul, sat_i64, wrap_i64, wrap_u64, is_i64, is_u64,
    I64_MIN, I64_MAX, U64_MAX in *.
(** [lia] after exposing the 64-bit bounds. *)
Ltac i64_lia := unfold_i64; lia.

Lemma wrap_i64_is_i64 z : is_i64 (wrap_i64 z).
Proof.
  unfold wrap_i64. pose proof (Z.mod_pos_bound (z + 2^63) (2^64)). i64_lia.
Qed.

Lemma wrap_i64_id z : is_i64 z → wrap_i64 z = z.
Proof. intros H. unfold wrap_i64. rewrite Z.mod_small; i64_lia. Qed.

Lemma checked_i64_Some z r : checked_i64 z = Some r ↔ r = z ∧ is_i64 z.
Proof. unfold checked_i64. case_bool_decide; split; [by intros [= <-]|by intros [-> _]|done|by intros [_ ?]]. Qed.

Lemma checked_add_Some a b r : checked_add a b = Some r ↔ r = a + b ∧ is_i64 (a + b).
Proof. apply checked_i64_Some. Qed.
Lemma checked_sub_Some a b r : checked_sub a b = Some r ↔ r = a - b ∧ is_i64 (a - b).
Proof. apply checked_i64_Some. Qed.
Lemma checked_mul_Some a b r : checked_mul a b = Some r ↔ r = a * b ∧ is_i64 (a * b).
Proof. apply checked_i64_Some. Qed.

Lemma checked_add_ok a b : is_i64 (a + b) → checked_add a b = Some (a + b).
Proof. intros. by apply checked_add_Some. Qed.
Lemma checked_sub_ok a b : is_i64 (a - b) → checked_sub a b = Some (a - b).
Proof. intros. by apply checked_sub_Some. Qed.
Lemma checked_mul_ok a b : is_i64 (a * b) → checked_mul a b = Some (a * b).
Proof. intros. by apply checked_mul_Some. Qed.

Lemma opt_filter_Some {A} (p : A → bool) o a :
  opt_filter p o = Some a ↔ o = Some a ∧ p a = true.
Proof.
  destruct o as [x|]; simpl; [|split; [|intros []]; done].
  destruct (p x) eqn:E; split.
  - by intros [= <-].
  - by intros [? _].
  - done.
  - intros [[= <-] Hp]. congruence.
Qed.

(** The checked, non-negative subtraction used to debit a balance:
    [checked_sub(..).filter(|b| *b >= 0)]. *)
Lemma debit_Some a b r :
  opt_filter (λ x, 0 <=? x) (checked_sub a b) = Some r ↔
  r = a - b ∧ 0 ≤ a - b ∧ is_i64 (a - b).
Proof.
  rewrite opt_filter_Some, checked_sub_Some, Z.leb_le. split; [intros [[-> ?] ?]|intros (-> & ? & ?)]; done.
Qed.
Lemma debit_ok a b :
  0 ≤ a - b → is_i64 (a - b) →
  opt_filter (λ x, 0 <=? x) (checked_sub a b) = Some (a - b).
Proof. intros. by apply debit_Some. Qed.

Lemma sat_i64_id z : is_i64 z → sat_i64 z = z.
Proof. intros. i64_lia. Qed.
Lemma sat_i64_is_i64 z : is_i64 (sat_i64 z).
Proof. i64_lia. Qed.

(** ** Big-endian byte strings ([to_be_bytes], [from_be_bytes]) *)

Fixpoint be_combine (acc : Z) (bs : bytes) : Z :=
  match bs with
  | [] => acc
  | b :: bs => be_combine (acc * 256 + b) bs
  end.

Fixpoint be_split (n : nat) (z : Z) : bytes :=
  match n with
  | O => []
  | S n => be_split n (z / 256) ++ [z mod 256]
  end.

Definition to_be_bytes (n : nat) (z : Z) : bytes := be_split n (z mod 2 ^ (8 * Z.of_nat n)).
Definition from_be_unsigned (bs : bytes) : Z := be_combine 0 bs.

Definition i64_to_be_bytes (z : Z) : bytes := to_be_bytes 8 z.
Definition i64_from_be_bytes (bs : bytes) : Z := wrap_i64 (from_be_unsigned bs).

Lemma be_split_length n z : length (be_split n z) = n.
Proof.
  revert z; induction n as [|n IH]; intros z; simpl; [done|].
  rewrite length_app, IH. simpl. lia.
Qed.

Lemma be_split_is_byte n z : Forall is_byte (be_split n z).
Proof.
  revert z; induction n as [|n IH]; intros z; simpl; [done|].
  apply Forall_app; split; [apply IH|]. repeat constructor; apply Z.mod_pos_bound; lia.
Qed.

Lemma be_combine_app acc xs ys :
  be_combine acc (xs ++ ys) = be_combine (be_combine acc xs) ys.
Proof. revert acc; induction xs as [|x xs IH]; intros acc; simpl; auto. Qed.

Lemma be_combine_split n z acc :
  0 ≤ z < 256 ^ Z.of_nat n →
  be_combine acc (be_split n z) = acc * 256 ^ Z.of_nat n + z.
Proof.
  revert z acc; induction n as [|n IH]; intros z acc Hz.
  { change (256 ^ Z.of_nat 0) with 1 in *. simpl. lia. }
  rewrite Nat2Z.inj_succ, Z.pow_succ_r in * by lia.
  simpl. rewrite be_combine_app, IH; simpl.
  - pose proof (Z_div_mod_eq_full z 256). lia.
  - split; [apply Z.div_pos; lia|]. apply Z.div_lt_upper_bound; lia.
Qed.

Lemma pow_256 n : 256 ^ Z.of_nat n = 2 ^ (8 * Z.of_nat n).
Proof. rewrite Z.pow_mul_r by lia. done. Qed.

Lemma from_to_be_bytes n z : from_be_unsigned (to_be_bytes n z) = z mod 2 ^ (8 * Z.of_nat n).
Proof.
  unfold from_be_unsigned, to_be_bytes. rewrite be_combine_split; [lia|].
  rewrite pow_256. apply Z.mod_pos_bound. apply Z.pow_pos_nonneg; lia.
Qed.

Lemma i64_be_roundtrip_wrap z : i64_from_be_bytes (i64_to_be_bytes z) = wrap_i64 z.
Proof.
  unfold i64_from_be_bytes, i64_to_be_bytes. rewrite from_to_be_bytes.
  change (8 * Z.of_nat 8) with 64. unfold wrap_i64. by rewrite Zplus_mod_idemp_l.
Qed.

Lemma i64_be_roundtrip z : is_i64 z → i64_from_be_bytes (i64_to_be_bytes z) = z.
Proof. intros. by rewrite i64_be_roundtrip_wrap, wrap_i64_id. Qed.

Lemma to_be_bytes_length n z : length (to_be_bytes n z) = n.
Proof. apply be_split_length. Qed.
Lemma i64_to_be_bytes_length z : length (i64_to_be_bytes z) = 8%nat.
Proof. apply be_split_length. Qed.

Lemma i64_to_be_bytes_inj a b :
  is_i64 a → is_i64 b → i64_to_be_bytes a = i64_to_be_bytes b → a = b.
Proof.
  intros Ha Hb H. rewrite <-(i64_be_roundtrip a), <-(i64_be_roundtrip b) by done.
  by rewrite H.
Qed.

(** A byte string that is well-formed round-trips the other way. *)
Lemma be_split_combine bs :
  Forall is_byte bs → be_split (length bs) (be_combine 0 bs) = bs.
Proof.
  induction bs as [|b bs IH] using rev_ind; [done|].
  rewrite Forall_app, Forall_singleton. intros [Hbs Hb].
  rewrite length_app, Nat.add_1_r, be_combine_app. simpl.
  unfold is_byte in Hb.
  rewrite Z.div_add_l, (Z.div_small b), Z.add_0_r by lia.
  rewrite (Z.add_comm _ b), Z.mod_add, (Z.mod_small b) by lia.
  by rewrite IH.
Qed.

Lemma be_combine_bound bs :
  Forall is_byte bs → 0 ≤ be_combine 0 bs < 256 ^ Z.of_nat (length bs).
Proof.
  induction bs as [|b bs IH] using rev_ind; [simpl; lia|].
  rewrite Forall_app, Forall_singleton. intros [Hbs Hb]. specialize (IH Hbs).
  rewrite length_app, be_combine_app. simpl. rewrite Nat.add_1_r.
  rewrite Nat2Z.inj_succ, Z.pow_succ_r by lia. unfold is_byte in Hb. lia.
Qed.

Lemma to_from_be_bytes n bs :
  Forall is_byte bs → length bs = n → to_be_bytes n (from_be_unsigned bs) = bs.
Proof.
  intros Hb <-. unfold to_be_bytes, from_be_unsigned.
  rewrite <-pow_256, Z.mod_small by by apply be_combine_bound.
  by apply be_split_combine.
Qed.

Lemma i64_to_from_be_bytes bs :
  Forall is_byte bs → length bs = 8%nat → i64_to_be_bytes (i64_from_be_bytes bs) = bs.
Proof.
  intros Hb Hl. unfold i64_to_be_bytes, i64_from_be_bytes, to_be_bytes, wrap_i64.
  change (8 * Z.of_nat 8) with 64.
  rewrite Zminus_mod_idemp_l.
  replace (from_be_unsigned bs + 2 ^ 63 - 2 ^ 63) with (from_be_unsigned bs) by lia.
  pose proof (to_from_be_bytes 8 bs Hb Hl) as H. unfold to_be_bytes in H. exact H.
Qed.

(** ** Results and the state-and-error monad

    [res E A] is Rust's [Result<A, E>] with one more outcome, [Panic], for an
    operation that aborts the thread (an unchecked overflow, an out-of-range
    index, a failing [copy_from_slice]). *)

Inductive res (E A : Type) : Type :=
| Ok (a : A)
| Err (e : E)
| Panic.
Arguments Ok {E A} a.
Arguments Err {E A} e.
Arguments Panic {E A}.

Definition is_Ok {E A} (r : res E A) : bool :=
  match r with Ok _ => true | _ => false end.

#[export] Instance res_ret E : MRet (res E) := λ A a, Ok a.
#[export] Instance res_bind E : MBind (res E) := λ A B f m,
  match m with
  | Ok a => f a
  | Err e => Err e
  | Panic => Panic
  end.

(** [Option::ok_or]. *)
Definition ok_or {E A} (e : E) (o : option A) : res E A :=
  match o with Some a => Ok a | None => Err e end.

(** [if c { return Err(e) }] *)
Definition guard_or {E} (e : E) (c : bool) : res E () :=
  if c then Ok () else Err e.

(** A function over [&mut S] that returns a [Result]: the state it leaves is
    kept on every outcome, errors included, because nothing rolls back the
    writes done before a [?]. *)
Definition ST (S E A : Type) : Type := S → res E A * S.

#[export] Instance ST_ret S E : MRet (ST S E) := λ A a s, (Ok a, s).
#[export] Instance ST_bind S E : MBind (ST S E) := λ A B f m s,
  match m s with
  | (Ok a, s') => f a s'
  | (Err e, s') => (Err e, s')
  | (Panic, s') => (Panic, s')
  end.

(** A [Result]-valued expression that does not touch the state. *)
Definition lift {S E A} (r : res E A) : ST S E A := λ s, (r, s).
(** A read of the state. *)
Definition reads {S E A} (f : S → res E A) : ST S E A := λ s, (f s, s).
Definition gets {S E A} (f : S → A) : ST S E A := λ s, (Ok (f s), s).
Definition modify {S E} (f : S → S) : ST S E () := λ s, (Ok (), f s).

Section MonadLaws.
Context {S E A B : Type}.

Lemma ST_bind_Ok (m : ST S E A) (f : A → ST S E B) s b s' :
  (m ≫= f) s = (Ok b, s') ↔ ∃ a s1, m s = (Ok a, s1) ∧ f a s1 = (Ok b, s').
Proof.
  unfold mbind, ST_bind. destruct (m s) as [[a|e|] s1]; split;
    try (intros H; eauto; done); intros (?&?&[=]&?); congruence.
Qed.

Lemma res_bind_Ok (m : res E A) (f : A → res E B) b :
  m ≫= f = Ok b ↔ ∃ a, m = Ok a ∧ f a = Ok b.
Proof.
  unfold mbind, res_bind. destruct m; split;
    try (intros H; eauto; done); intros (?&[=]&?); congruence.
Qed.

Lemma ST_bind_Err (m : ST S E A) (f : A → ST S E B) s e s' :
  (m ≫= f) s = (Err e, s') ↔
  m s = (Err e, s') ∨ ∃ a s1, m s = (Ok a, s1) ∧ f a s1 = (Err e, s').
Proof.
  unfold mbind, ST_bind. destruct (m s) as [[a|e'|] s1]; split; intros H;
    repeat match goal with H : _ ∨ _ |- _ => destruct H | H : ∃ _, _ |- _ => destruct H end;
    destruct_and?; simplify_eq; eauto 6.
Qed.

Lemma ST_bind_Panic (m : ST S E A) (f : A → ST S E B) s s' :
  (m ≫= f) s = (Panic, s') ↔
  m s = (Panic, s') ∨ ∃ a s1, m s = (Ok a, s1) ∧ f a s1 = (Panic, s').
Proof.
  unfold mbind, ST_bind. destruct (m s) as [[a|e'|] s1]; split; intros H;
    repeat match goal with H : _ ∨ _ |- _ => destruct H | H : ∃ _, _ |- _ => destruct H end;
    destruct_and?; simplify_eq; eauto 6.
Qed.

Lemma res_bind_Err (m : res E A) (f : A → res E B) e :
  m ≫= f = Err e ↔ m = Err e ∨ ∃ a, m = Ok a ∧ f a = Err e.
Proof.
  unfold mbind, res_bind. destruct m; split; intros H;
    repeat match goal with H : _ ∨ _ |- _ => destruct H | H : ∃ _, _ |- _ => destruct H end;
    destruct_and?; simplify_eq; eauto 6.
Qed.

Lemma res_bind_Panic (m : res E A) (f : A → res E B) :
  m ≫= f = Panic ↔ m = Panic ∨ ∃ a, m = Ok a ∧ f a = Panic.
Proof.
  unfold mbind, res_bind. destruct m; split; intros H;
    repeat match goal with H : _ ∨ _ |- _ => destruct H | H : ∃ _, _ |- _ => destruct H end;
    destruct_and?; simplify_eq; eauto 6.
Qed.

Lemma lift_Err (r : res E A) (s s' : S) e : lift r s = (Err e, s') ↔ r = Err e ∧ s' = s.
Proof. unfold lift. split; [by intros [= -> ->]|by intros [-> ->]]. Qed.
Lemma reads_Err (f : S → res E A) s s' e : reads f s = (Err e, s') ↔ f s = Err e ∧ s' = s.
Proof. unfold reads. split; [by intros [= -> ->]|by intros [-> ->]]. Qed.
Lemma lift_Panic (r : res E A) (s s' : S) : lift r s = (Panic, s') ↔ r = Panic ∧ s' = s.
Proof. unfold lift. split; [by intros [= -> ->]|by intros [-> ->]]. Qed.
Lemma reads_Panic (f : S → res E A) s s' : reads f s = (Panic, s') ↔ f s = Panic ∧ s' = s.
Proof. unfold reads. split; [by intros [= -> ->]|by intros [-> ->]]. Qed.
Lemma ok_or_Panic (e : E) (o : option A) : ok_or e o = Panic ↔ False.
Proof. by destruct o. Qed.
Lemma ok_or_Err (e e' : E) (o : option A) : ok_or e o = Err e' ↔ o = None ∧ e' = e.
Proof. destruct o; simpl; split; first [done|by intros [? ?]|by intros [= ->]|by intros [_ ->]]. Qed.

Lemma ST_bind_run (m : ST S E A) (f : A → ST S E B) s a s1 :
  m s = (Ok a, s1) → (m ≫= f) s = f a s1.
Proof. intros H. unfold mbind, ST_bind. by rewrite H. Qed.

Lemma ST_bind_ext (m : ST S E A) (f g : A → ST S E B) s :
  (∀ a s', m s = (Ok a, s') → f a s' = g a s') → (m ≫= f) s = (m ≫= g) s.
Proof. intros H. unfold mbind, ST_bind. destruct (m s) as [[a|e|] s']; auto. Qed.
Lemma run_lift (a : A) (f : A → ST S E B) s : (lift (Ok a) ≫= f) s = f a s.
Proof. done. Qed.
Lemma run_lift_some e (a : A) (f : A → ST S E B) s : (lift (ok_or e (Some a)) ≫= f) s = f a s.
Proof. done. Qed.
Lemma run_reads_some e (g : S → option A) (f : A → ST S E B) s a :
  g s = Some a → (reads (λ s, ok_or e (g s)) ≫= f) s = f a s.
Proof. intros H. unfold mbind, ST_bind, reads. by rewrite H. Qed.
Lemma run_gets (g : S → A) (f : A → ST S E B) s : (gets g ≫= f) s = f (g s) s.
Proof. done. Qed.
Lemma run_reads (g : S → res E A) (f : A → ST S E B) s a :
  g s = Ok a → (reads g ≫= f) s = f a s.
Proof. intros H. unfold mbind, ST_bind, reads. by rewrite H. Qed.
Lemma run_ret (a : A) (f : A → ST S E B) s : (mret a ≫= f) s = f a s.
Proof. done. Qed.
Lemma run_modify (g : S → S) (f : () → ST S E B) s : (modify g ≫= f) s = f () (g s).
Proof. done. Qed.

Lemma ok_or_Ok (e : E) (o : option A) a : ok_or e o = Ok a ↔ o = Some a.
Proof. destruct o; simpl; split; congruence. Qed.
Lemma guard_or_Ok (e : E) c u : guard_or e c = Ok u ↔ c = true.
Proof. destruct u, c; simpl; split; congruence. Qed.
Lemma lift_Ok (r : res E A) (s s' : S) a : lift r s = (Ok a, s') ↔ r = Ok a ∧ s' = s.
Proof. unfold lift. split; [by intros [= -> ->]|by intros [-> ->]]. Qed.
Lemma reads_Ok (f : S → res E A) s s' a : reads f s = (Ok a, s') ↔ f s = Ok a ∧ s' = s.
Proof. unfold reads. split; [by intros [= -> ->]|by intros [-> ->]]. Qed.
Lemma gets_Ok (f : S → A) s s' a :
  @gets S E A f s = (Ok a, s') ↔ a = f s ∧ s' = s.
Proof. unfold gets. split; [by intros [= -> ->]|by intros [-> ->]]. Qed.
Lemma modify_Ok (f : S → S) s s' u : @modify S E f s = (Ok u, s') ↔ s' = f s.
Proof. destruct u. unfold modify. split; [by intros [= ->]|by intros ->]. Qed.
Lemma ret_Ok (a b : A) (s s' : S) :
  (mret a : ST S E A) s = (Ok b, s') ↔ b = a ∧ s' = s.
Proof. unfold mret, ST_ret. split; [by intros [= -> ->]|by intros [-> ->]]. Qed.
End MonadLaws.

(** Boolean tests in hypotheses and goals as propositions [lia] reads. *)
Ltac bool_prop :=
  repeat match goal with
  | H : _ && _ = true |- _ => apply andb_prop in H as [? ?]
  | H : _ || _ = false |- _ => apply orb_false_elim in H as [? ?]
  | H : negb _ = true |- _ => apply negb_true_iff in H
  | H : negb _ = false |- _ => apply negb_false_iff in H
  | H : bool_decide _ = true |- _ => apply bool_decide_eq_true_1 in H
  | H : bool_decide _ = false |- _ => apply bool_decide_eq_false_1 in H
  | H : (_ <=? _) = true |- _ => apply Z.leb_le in H
  | H : (_ <=? _) = false |- _ => apply Z.leb_gt in H
  | H : (_ <? _) = true |- _ => apply Z.ltb_lt in H
  | H : (_ <? _) = false |- _ => apply Z.ltb_ge in H
  | H : (_ =? _) = true |- _ => apply Z.eqb_eq in H
  | H : (_ =? _) = false |- _ => apply Z.eqb_neq in H
  end.

(** ** Unchecked [i64] and [u64] arithmetic *)

Section Unchecked.
Context {E : Type}.
Definition exact_i64 (z : Z) : res E Z := if bool_decide (is_i64 z) then Ok z else Panic.
Definition add_i64 (a b : Z) : res E Z := exact_i64 (a + b).
Definition sub_i64 (a b : Z) : res E Z := exact_i64 (a - b).
Definition mul_i64 (a b : Z) : res E Z := exact_i64 (a * b).
Definition neg_i64 (a : Z) : res E Z := exact_i64 (- a).

Definition exact_u64 (z : Z) : res E Z := if bool_decide (is_u64 z) then Ok z else Panic.
Definition add_u64 (a b : Z) : res E Z := exact_u64 (a + b).
Definition sub_u64 (a b : Z) : res E Z := exact_u64 (a - b).
Definition mul_u64 (a b : Z) : res E Z := exact_u64 (a * b).

(** [Iterator::sum::<i64>]. *)
Fixpoint sum_i64_from (acc : Z) (l : list Z) : res E Z :=
  match l with
  | [] => Ok acc
  | x :: l => acc' ← add_i64 acc x; sum_i64_from acc' l
  end.
Definition sum_i64 (l : list Z) : res E Z := sum_i64_from 0 l.

Lemma exact_i64_Ok z r : exact_i64 z = Ok r ↔ r = z ∧ is_i64 z.
Proof. unfold exact_i64. case_bool_decide; split; [by intros [= <-]|by intros [-> _]|done|by intros [_ ?]]. Qed.
Lemma exact_i64_Err z e : exact_i64 z ≠ Err e.
Proof. unfold exact_i64. by case_bool_decide. Qed.
Lemma exact_i64_ok z : is_i64 z → exact_i64 z = Ok z.
Proof. intros. by apply exact_i64_Ok. Qed.
Lemma exact_u64_Ok z r : exact_u64 z = Ok r ↔ r = z ∧ is_u64 z.
Proof. unfold exact_u64. case_bool_decide; split; [by intros [= <-]|by intros [-> _]|done|by intros [_ ?]]. Qed.
Lemma exact_u64_ok z : is_u64 z → exact_u64 z = Ok z.
Proof. intros. by apply exact_u64_Ok. Qed.
Lemma add_i64_Ok a b r : add_i64 a b = Ok r ↔ r = a + b ∧ is_i64 (a + b).
Proof. apply exact_i64_Ok. Qed.
Lemma sub_i64_Ok a b r : sub_i64 a b = Ok r ↔ r = a - b ∧ is_i64 (a - b).
Proof. apply exact_i64_Ok. Qed.
Lemma mul_i64_Ok a b r : mul_i64 a b = Ok r ↔ r = a * b ∧ is_i64 (a * b).
Proof. apply exact_i64_Ok. Qed.
Lemma neg_i64_Ok a r : neg_i64 a = Ok r ↔ r = - a ∧ is_i64 (- a).
Proof. apply exact_i64_Ok. Qed.

Lemma sum_i64_from_Ok acc l r : sum_i64_from acc l = Ok r → r = acc + foldr Z.add 0 l.
Proof.
  revert acc; induction l as [|x l IH]; intros acc; simpl.
  - intros [= <-]. lia.
  - intros (y & Hy & H)%res_bind_Ok. apply add_i64_Ok in Hy as [-> _].
    rewrite (IH _ H). lia.
Qed.
Lemma sum_i64_Ok l r : sum_i64 l = Ok r → r = foldr Z.add 0 l.
Proof. intros H. apply sum_i64_from_Ok in H. lia. Qed.

Lemma sum_i64_from_ok acc l :
  0 ≤ acc → Forall (λ x, 0 ≤ x) l → acc + foldr Z.add 0 l ≤ I64_MAX →
  sum_i64_from acc l = Ok (acc + foldr Z.add 0 l).
Proof.
  revert acc; induction l as [|x l IH]; intros acc Hacc Hl Hb; simpl in *.
  - f_equal; lia.
  - apply Forall_cons_1 in Hl as [Hx Hl].
    assert (0 ≤ foldr Z.add 0 l).
    { clear -Hl. induction Hl; simpl; lia. }
    unfold mbind, res_bind, add_i64. rewrite exact_i64_ok by i64_lia.
    rewrite IH by (done || lia). f_equal; lia.
Qed.
Lemma sum_i64_ok l :
  Forall (λ x, 0 ≤ x) l → foldr Z.add 0 l ≤ I64_MAX → sum_i64 l = Ok (foldr Z.add 0 l).
Proof. intros. apply (sum_i64_from_ok 0); lia || done. Qed.
End Unchecked.

(** [inv_ok] turns a successful run of a monadic program into the equations
    of its successful steps. *)
Ltac inv_ok_step :=
  match goal with
  | H : (_ ≫= _) _ = (Ok _, _) |- _ =>
      apply ST_bind_Ok in H; destruct H as (? & ? & ? & H)
  | H : _ ≫= _ = Ok _ |- _ =>
      apply res_bind_Ok in H; destruct H as (? & ? & H)
  | H : lift _ _ = (Ok _, _) |- _ => apply lift_Ok in H; destruct H as [H ?]
  | H : reads _ _ = (Ok _, _) |- _ => apply reads_Ok in H; destruct H as [H ?]
  | H : gets _ _ = (Ok _, _) |- _ => apply gets_Ok in H; destruct H as [H ?]
  | H : modify _ _ = (Ok _, _) |- _ => apply modify_Ok in H
  | H : mret _ _ = (Ok _, _) |- _ => apply ret_Ok in H; destruct H as [H ?]
  | H : ok_or _ _ = Ok _ |- _ => apply ok_or_Ok in H
  | H : guard_or _ _ = Ok _ |- _ => apply guard_or_Ok in H
  | H : mret _ = Ok _ |- _ => injection H as H
  | H : Ok _ = Ok _ |- _ => injection H as H
  | H : (Ok _, _) = (Ok _, _) |- _ => injection H as H
  | H : Some _ = Some _ |- _ => injection H as H
  | H : Err _ = Ok _ |- _ => discriminate H
  | H : Panic = Ok _ |- _ => discriminate H
  | H : (Err _, _) = (Ok _, _) |- _ => discriminate H
  | H : (Panic, _) = (Ok _, _) |- _ => discriminate H
  | H : checked_add _ _ = Some _ |- _ => apply checked_add_Some in H; destruct H as [H ?]
  | H : checked_mul _ _ = Some _ |- _ => apply checked_mul_Some in H; destruct H as [H ?]
  | H : opt_filter (λ x, 0 <=? x) (checked_sub _ _) = Some _ |- _ =>
      apply debit_Some in H; destruct H as (H & ? & ?)
  | H : checked_sub _ _ = Some _ |- _ => apply checked_sub_Some in H; destruct H as [H ?]
  | H : add_i64 _ _ = Ok _ |- _ => apply add_i64_Ok in H; destruct H as [H ?]
  | H : sub_i64 _ _ = Ok _ |- _ => apply sub_i64_Ok in H; destruct H as [H ?]
  | H : mul_i64 _ _ = Ok _ |- _ => apply mul_i64_Ok in H; destruct H as [H ?]
  | H : neg_i64 _ = Ok _ |- _ => apply neg_i64_Ok in H; destruct H as [H ?]
  | H : exact_i64 _ = Ok _ |- _ => apply exact_i64_Ok in H; destruct H as [H ?]
  end.
Ltac inv_ok := repeat (inv_ok_step; subst; cbv beta in *).

(** [inv_bad] splits a run that ends in an error or a panic into the places
    where it can have ended, with the equations of the steps before. *)
Ltac inv_bad_step :=
  match goal with
  | H : (_ ≫= _) _ = (Err _, _) |- _ =>
      apply ST_bind_Err in H; destruct H as [H|(? & ? & ? & H)]
  | H : (_ ≫= _) _ = (Panic, _) |- _ =>
      apply ST_bind_Panic in H; destruct H as [H|(? & ? & ? & H)]
  | H : _ ≫= _ = Err _ |- _ => apply res_bind_Err in H; destruct H as [H|(? & ? & H)]
  | H : _ ≫= _ = Panic |- _ => apply res_bind_Panic in H; destruct H as [H|(? & ? & H)]
  | H : lift _ _ = (Err _, _) |- _ => apply lift_Err in H; destruct H as [H ?]
  | H : reads _ _ = (Err _, _) |- _ => apply reads_Err in H; destruct H as [H ?]
  | H : lift _ _ = (Panic, _) |- _ => apply lift_Panic in H; destruct H as [H ?]
  | H : reads _ _ = (Panic, _) |- _ => apply reads_Panic in H; destruct H as [H ?]
  | H : ok_or _ _ = Panic |- _ => apply ok_or_Panic in H; destruct H
  | H : ok_or _ _ = Err _ |- _ => apply ok_or_Err in H; destruct H as [H ?]
  | H : add_i64 _ _ = Err _ |- _ => destruct (exact_i64_Err _ _ H)
  | H : sub_i64 _ _ = Err _ |- _ => destruct (exact_i64_Err _ _ H)
  | H : mul_i64 _ _ = Err _ |- _ => destruct (exact_i64_Err _ _ H)
  | H : neg_i64 _ = Err _ |- _ => destruct (exact_i64_Err _ _ H)
  | H : gets _ _ = (Err _, _) |- _ => discriminate H
  | H : gets _ _ = (Panic, _) |- _ => discriminate H
  | H : modify _ _ = (Err _, _) |- _ => discriminate H
  | H : modify _ _ = (Panic, _) |- _ => discriminate H
  | H : mret _ _ = (Err _, _) |- _ => discriminate H
  | H : mret _ _ = (Panic, _) |- _ => discriminate H
  | H : Ok _ = Err _ |- _ => discriminate H
  | H : Ok _ = Panic |- _ => discriminate H
  | H : Err _ = Panic |- _ => discriminate H
  | H : (Ok _, _) = (Err _, _) |- _ => discriminate H
  | H : (Ok _, _) = (Panic, _) |- _ => discriminate H
  | H : Panic = Err _ |- _ => discriminate H
  end.
Ltac inv_bad := repeat ((inv_bad_step || inv_ok_step); subst; cbv beta in *).

(** [inv_run] inverts a run with a known outcome, splitting on the conditions
    that decide it. *)
Ltac inv_run :=
  cbv zeta in *;
  repeat ((inv_bad_step || inv_ok_step ||
    match goal with
    | H : (if ?b then _ else _) = Ok _ |- _ => destruct b eqn:?
    | H : (if ?b then _ else _) = Err _ |- _ => destruct b eqn:?
    | H : (if ?b then _ else _) = Panic |- _ => destruct b eqn:?
    | H : (if ?b then _ else _) _ = (Ok _, _) |- _ => destruct b eqn:?
    | H : (if ?b then _ else _) _ = (Err _, _) |- _ => destruct b eqn:?
    | H : (if ?b then _ else _) _ = (Panic, _) |- _ => destruct b eqn:?
    | H : match ?o with Some _ => _ | None => _ end = Ok _ |- _ => destruct o eqn:?
    | H : match ?o with Some _ => _ | None => _ end = Err _ |- _ => destruct o eqn:?
    | H : match ?o with Some _ => _ | None => _ end = Panic |- _ => destruct o eqn:?
    | H : match ?o with Some _ => _ | None => _ end _ = (_, _) |- _ => destruct o eqn:?
    | H : guard_or _ ?b = Err _ |- _ => destruct b eqn:?; simpl in H
    | H : guard_or _ ?b = Panic |- _ => destruct b; discriminate H
    end); subst; cbv beta zeta in *).

(** [run] steps a monadic program through the actions whose outcome is known;
    [run H] steps it through an action known to succeed by [H]. *)
Tactic Notation "run" :=
  cbv zeta; repeat (first [rewrite run_lift | rewrite run_lift_some | rewrite run_gets | rewrite run_ret | rewrite run_modify];
    cbv beta zeta iota).
Tactic Notation "run" constr(H) :=
  first [rewrite (run_reads_some _ _ _ _ _ H) | rewrite (run_reads _ _ _ _ H) | rewrite (ST_bind_run _ _ _ _ _ H)]; cbv beta; run.

(** ** Record update: [r <| field := v |>]

    A record type declares once how it is rebuilt from its fields ([Eta]); the
    update of any field is then derived. *)

Class Eta (R : Type) := eta : R → R.
Class Settable {R T : Type} (get : R → T) := upd : (T → T) → R → R.
Arguments upd {R T} get {_} f r.

Ltac solve_settable :=
  match goal with
  | |- @Settable ?R ?T ?get =>
      let f := fresh "f" in
      let r := fresh "r" in
      unfold Settable; intros f r;
      let t := eval hnf in (@eta R _ r) in
      let p := eval pattern (get r) in t in
      match p with
      | ?g _ => let u := eval cbv beta in (g (f (get r))) in exact u
      end
  end.
#[export] Hint Extern 0 (Settable _) => solve_settable : typeclass_instances.

Declare Scope tron_scope.
Delimit Scope tron_scope with tron.
Notation "r <| p := v |>" := (upd p (λ _, v) r)
  (at level 1, left associativity, p constr at level 9, format "r  <| p  :=  v |>") : tron_scope.
Notation "r <| p ::= f |>" := (upd p f r)
  (at level 1, left associativity, p constr at level 9, format "r  <| p  ::=  f |>") : tron_scope.
Open Scope tron_scope.

(** ** Sums over lists and finite maps *)

Fixpoint sum_list {A} (f : A → Z) (l : list A) : Z :=
  match l with [] => 0 | x :: l => f x + sum_list f l end.

Lemma Forall_filter {A} (Q P : A → Prop) `{!∀ x, Decision (P x)} (l : list A) :
  Forall Q l → Forall Q (filter P l).
Proof.
  induction 1 as [|x l Hx Hl IH]; [constructor|]. rewrite filter_cons.
  case_decide; [by constructor|done].
Qed.

Section SumList.
Context {A : Type} (f : A → Z).
Lemma sum_list_app l k : sum_list f (l ++ k) = sum_list f l + sum_list f k.
Proof. induction l as [|x l IH]; simpl; lia. Qed.
Lemma sum_list_nonneg l : Forall (λ x, 0 ≤ f x) l → 0 ≤ sum_list f l.
Proof. induction 1; simpl; lia. Qed.
Lemma sum_list_permutation l k : l ≡ₚ k → sum_list f l = sum_list f k.
Proof. induction 1; simpl; lia. Qed.
Lemma sum_list_map l : foldr Z.add 0 (f <$> l) = sum_list f l.
Proof. induction l as [|x l IH]; simpl; [done|]. rewrite <-IH. done. Qed.
Lemma sum_list_filter (P : A → Prop) `{!∀ x, Decision (P x)} l :
  sum_list f (filter P l) + sum_list f (filter (λ x, ¬ P x) l) = sum_list f l.
Proof.
  induction l as [|x l IH]; simpl; [done|].
  rewrite !filter_cons. repeat case_decide; simpl; try done; lia.
Qed.
Lemma sum_list_elem x l : Forall (λ x, 0 ≤ f x) l → x ∈ l → f x ≤ sum_list f l.
Proof.
  intros Hl Hx. induction Hx as [|y x l Hx IH] using list_elem_of_ind.
  all: apply Forall_cons_1 in Hl as [? Hl]; simpl;
    pose proof (sum_list_nonneg _ Hl); try specialize (IH Hl); lia.
Qed.
End SumList.

(** ** The first element that satisfies a test ([iter().find], [iter_mut().find]) *)

Section Find.
Context {A : Type} (p : A → bool).
Fixpoint find_first (l : list A) : option A :=
  match l with
  | [] => None
  | x :: l => if p x then Some x else find_first l
  end.
(** The list with the first element that satisfies the test replaced. *)
Fixpoint replace_first (y : A) (l : list A) : list A :=
  match l with
  | [] => []
  | x :: l => if p x then y :: l else x :: replace_first y l
  end.

Lemma find_first_Some l x : find_first l = Some x → p x = true ∧ x ∈ l.
Proof.
  induction l as [|y l IH]; simpl; [done|]. destruct (p y) eqn:E.
  - intros [= <-]. split; [done|left].
  - intros H. apply IH in H as [? ?]. split; [done|by right].
Qed.
Lemma find_first_None l : find_first l = None ↔ Forall (λ x, p x = false) l.
Proof.
  induction l as [|y l [IH1 IH2]]; simpl; [by split|]. split.
  - destruct (p y) eqn:E; [done|]. intros H. constructor; auto.
  - intros [E H]%Forall_cons_1. rewrite E. auto.
Qed.
Lemma find_first_app l k :
  find_first (l ++ k) = match find_first l with Some x => Some x | None => find_first k end.
Proof. induction l as [|x l IH]; simpl; [done|]. by destruct (p x). Qed.
Lemma sum_replace_first f l x y :
  find_first l = Some x → sum_list f (replace_first y l) = sum_list f l - f x + f y.
Proof.
  induction l as [|z l IH]; simpl; [done|]. destruct (p z).
  - intros [= <-]. simpl. lia.
  - intros H. simpl. rewrite IH by done. lia.
Qed.
Lemma Forall_replace_first (P : A → Prop) l y :
  Forall P l → P y → Forall P (replace_first y l).
Proof.
  intros Hl Hy. induction Hl as [|x l Hx Hl IH]; simpl; [done|].
  destruct (p x); by constructor.
Qed.
Lemma map_replace_first {B} (g : A → B) l x y :
  find_first l = Some x → g y = g x → g <$> replace_first y l = g <$> l.
Proof.
  intros Hf Hg. induction l as [|z l IH]; simpl in Hf; [done|].
  cbn [replace_first]. destruct (p z); rewrite !fmap_cons; f_equal; auto.
  by injection Hf as ->.
Qed.
End Find.

Definition map_sum {K V} `{Countable K} (f : V → Z) (m : gmap K V) : Z :=
  map_fold (λ _ v acc, f v + acc) 0 m.

Section MapSum.
Context {K V : Type} `{Countable K} (f : V → Z).
Implicit Types m : gmap K V.

Lemma map_sum_empty : map_sum f (∅ : gmap K V) = 0.
Proof. apply map_fold_empty. Qed.

Lemma map_sum_insert_None m k v : m !! k = None → map_sum f (<[k:=v]> m) = f v + map_sum f m.
Proof.
  intros Hk. unfold map_sum. rewrite map_fold_insert_L; [done| |done]. intros; lia.
Qed.

(** The value a key contributes to the sum. *)
Definition contrib m k : Z := match m !! k with Some v => f v | None => 0 end.

Lemma map_sum_delete m k : map_sum f (delete k m) = map_sum f m - contrib m k.
Proof.
  unfold contrib. destruct (m !! k) as [v|] eqn:E.
  - rewrite <-(insert_delete_id m k v E) at 2.
    rewrite map_sum_insert_None; [lia|apply lookup_delete_eq].
  - rewrite delete_id by done. lia.
Qed.

Lemma map_sum_insert m k v :
  map_sum f (<[k:=v]> m) = map_sum f m - contrib m k + f v.
Proof.
  rewrite <-insert_delete_eq, map_sum_insert_None, map_sum_delete;
    [lia|apply lookup_delete_eq].
Qed.

Lemma map_sum_insert_Some m k v v' :
  m !! k = Some v' → map_sum f (<[k:=v]> m) = map_sum f m - f v' + f v.
Proof. intros E. rewrite map_sum_insert. unfold contrib. by rewrite E. Qed.

Lemma map_sum_nonneg m : map_Forall (λ _ v, 0 ≤ f v) m → 0 ≤ map_sum f m.
Proof.
  induction m as [|k v m Hk IH] using map_ind; intros HF; [by rewrite map_sum_empty|].
  rewrite map_sum_insert_None by done.
  apply map_Forall_insert in HF as [? HF]; [|done]. specialize (IH HF). lia.
Qed.
End MapSum.

Lemma map_sum_ext {K V} `{Countable K} (f g : V → Z) (m : gmap K V) :
  (∀ k v, m !! k = Some v → f v = g v) → map_sum f m = map_sum g m.
Proof.
  induction m as [|k v m Hk IH] using map_ind; intros Hfg; [by rewrite !map_sum_empty|].
  rewrite !map_sum_insert_None by done. f_equal.
  - apply (Hfg k). apply lookup_insert_eq.
  - apply IH. intros k' v' E. apply (Hfg k'). rewrite lookup_insert_ne; congruence.
Qed.
