(* ===== verification/Types.v ===== *)
(** * Primitive types (crates/types) and the text formatting the node uses

    [Address], [H256] and their constructors from [crates/types/src/lib.rs];
    hexadecimal and decimal rendering, and [String::from_utf8_lossy], which the
    actuators use to key the TRC10 balances of an account. *)

From Stdlib Require Import Ascii.
From stdpp Require Import gmap strings pretty numbers fin_maps prelude.
From S2P Require Import Prelude.
Open Scope Z_scope.

(** ** Strings and bytes *)

Definition byte_to_ascii (b : Z) : ascii := Ascii.ascii_of_N (Z.to_N b).
Definition ascii_to_byte (a : ascii) : Z := Z.of_N (Ascii.N_of_ascii a).

Fixpoint string_of_bytes (bs : bytes) : string :=
  match bs with
  | [] => EmptyString
  | b :: bs => String (byte_to_ascii b) (string_of_bytes bs)
  end.

(** [str::as_bytes] *)
Fixpoint bytes_of_string (s : string) : bytes :=
  match s with
  | EmptyString => []
  | String a s => ascii_to_byte a :: bytes_of_string s
  end.

(** [format!("{n}")], [i64::to_string]. *)
Definition dec (z : Z) : string := pretty z.

Definition hex_digit (n : Z) : ascii :=
  byte_to_ascii (if n <? 10 then 48 + n else 87 + n).

(** [hex::encode]; the actuators' local [hex] helpers compute the same string
    with [format!("{b:02x}")]. *)
Fixpoint hex (bs : bytes) : string :=
  match bs with
  | [] => EmptyString
  | b :: bs => String (hex_digit (b / 16)) (String (hex_digit (b mod 16)) (hex bs))
  end.

(** ** [String::from_utf8_lossy]

    Valid UTF-8 is copied; every maximal invalid prefix of a sequence becomes
    U+FFFD (EF BF BD). *)

Definition utf8_replacement : bytes := [239; 191; 189].
Definition in_range (lo hi b : Z) : bool := (lo <=? b) && (b <=? hi).
Definition is_cont (b : Z) : bool := in_range 128 191 b.
(** Range of the second byte after the lead [b]. *)
Definition utf8_second3 (b0 b1 : Z) : bool :=
  if b0 =? 224 then in_range 160 191 b1
  else if b0 =? 237 then in_range 128 159 b1
  else is_cont b1.
Definition utf8_second4 (b0 b1 : Z) : bool :=
  if b0 =? 240 then in_range 144 191 b1
  else if b0 =? 244 then in_range 128 143 b1
  else is_cont b1.

Fixpoint from_utf8_lossy (bs : bytes) : bytes :=
  match bs with
  | [] => []
  | b0 :: r0 =>
      if b0 <? 128 then b0 :: from_utf8_lossy r0
      else if in_range 194 223 b0 then
        match r0 with
        | b1 :: r1 =>
            if is_cont b1 then b0 :: b1 :: from_utf8_lossy r1
            else utf8_replacement ++ from_utf8_lossy r0
        | [] => utf8_replacement
        end
      else if in_range 224 239 b0 then
        match r0 with
        | b1 :: r1 =>
            if utf8_second3 b0 b1 then
              match r1 with
              | b2 :: r2 =>
                  if is_cont b2 then b0 :: b1 :: b2 :: from_utf8_lossy r2
                  else utf8_replacement ++ from_utf8_lossy r1
              | [] => utf8_replacement
              end
            else utf8_replacement ++ from_utf8_lossy r0
        | [] => utf8_replacement
        end
      else if in_range 240 244 b0 then
        match r0 with
        | b1 :: r1 =>
            if utf8_second4 b0 b1 then
              match r1 with
              | b2 :: r2 =>
                  if is_cont b2 then
                    match r2 with
                    | b3 :: r3 =>
                        if is_cont b3 then b0 :: b1 :: b2 :: b3 :: from_utf8_lossy r3
                        else utf8_replacement ++ from_utf8_lossy r2
                    | [] => utf8_replacement
                    end
                  else utf8_replacement ++ from_utf8_lossy r1
              | [] => utf8_replacement
              end
            else utf8_replacement ++ from_utf8_lossy r0
        | [] => utf8_replacement
        end
      else utf8_replacement ++ from_utf8_lossy r0
  end.

Lemma from_utf8_lossy_ascii bs :
  Forall (λ b, 0 ≤ b < 128) bs → from_utf8_lossy bs = bs.
Proof.
  induction 1 as [|b bs Hb _ IH]; [done|].
  simpl. destruct (Z.ltb_spec b 128); [|lia]. by rewrite IH.
Qed.

Lemma ascii_of_byte_inj b c :
  0 ≤ b < 256 → 0 ≤ c < 256 → byte_to_ascii b = byte_to_ascii c → b = c.
Proof.
  unfold byte_to_ascii. intros Hb Hc H. apply (f_equal Ascii.N_of_ascii) in H.
  rewrite !Ascii.N_ascii_embedding in H by lia. lia.
Qed.

Lemma string_of_bytes_inj bs cs :
  Forall is_byte bs → Forall is_byte cs → string_of_bytes bs = string_of_bytes cs → bs = cs.
Proof.
  intros Hbs. revert cs. induction Hbs as [|b bs Hb _ IH]; intros cs Hcs H.
  - by destruct cs.
  - destruct cs as [|c cs]; [done|]. apply Forall_cons_1 in Hcs as [Hc Hcs].
    simpl in H. injection H as Hbc H. f_equal; [by apply ascii_of_byte_inj|by apply IH].
Qed.

(** ** [Address] *)

Definition ADDRESS_PREFIX : Z := 65.
Definition ADDRESS_LEN : nat := 21.

Inductive TypeError : Type :=
| InvalidLength (expected got : nat)
| InvalidPrefix (b : Z).

(** A 21-byte address with the 0x41 prefix; [as_bytes] is the value itself. *)
Abbreviation Address := bytes.

Definition is_address (a : bytes) : bool :=
  bool_decide (length a = ADDRESS_LEN) && bool_decide (hd 0 a = ADDRESS_PREFIX).

Module Addr.
Definition from_body (body : bytes) : Address := ADDRESS_PREFIX :: body.

Definition from_bytes (bs : bytes) : res TypeError Address :=
  if negb (hd 0 bs =? ADDRESS_PREFIX) then Err (InvalidPrefix (hd 0 bs)) else Ok bs.

Definition body (a : Address) : bytes := tl a.

Definition to_hex (a : Address) : string := hex a.
End Addr.

(** [<[u8; N]>::try_from(&[u8])]. *)
Definition try_into (n : nat) (bs : bytes) : option bytes :=
  if bool_decide (length bs = n) then Some bs else None.

(** The parsing step every actuator starts with: 21 bytes, then the prefix. *)
Definition parse_address_opt (bs : bytes) : option Address :=
  match try_into ADDRESS_LEN bs with
  | None => None
  | Some arr => match Addr.from_bytes arr with Ok a => Some a | _ => None end
  end.

Lemma parse_address_opt_Some bs a :
  parse_address_opt bs = Some a ↔ a = bs ∧ is_address bs = true.
Proof.
  unfold parse_address_opt, try_into, is_address, Addr.from_bytes.
  destruct (decide (length bs = ADDRESS_LEN)) as [Hl|Hl];
    [rewrite !bool_decide_eq_true_2 by done|rewrite !bool_decide_eq_false_2 by done];
    simpl; [|split; [done|by intros [_ ?]]].
  destruct (Z.eqb_spec (hd 0 bs) ADDRESS_PREFIX) as [E|E]; simpl.
  - rewrite bool_decide_eq_true_2 by done. split; [by intros [= ->]|by intros [-> _]].
  - rewrite bool_decide_eq_false_2 by done. split; [done|by intros [_ ?]].
Qed.

Lemma is_address_from_body body : length body = 20%nat → is_address (Addr.from_body body) = true.
Proof. intros H. unfold is_address, Addr.from_body. simpl. by rewrite H. Qed.

(** ** [H256] *)

Definition H256_ZERO : bytes := replicate 32 0.
Definition h256_from_slice (s : bytes) : res TypeError bytes :=
  match try_into 32 s with
  | Some a => Ok a
  | None => Err (InvalidLength 32 (length s))
  end.

(** ** [str::parse::<i64>]

    An optional sign and at least one decimal digit; anything else, and a value
    out of range, is an error.  [std::str::from_utf8(bytes).ok()] before it adds
    nothing: a byte of an invalid sequence is not a digit. *)

Fixpoint digits_value (acc : Z) (bs : bytes) : option Z :=
  match bs with
  | [] => Some acc
  | b :: bs => if in_range 48 57 b then digits_value (acc * 10 + (b - 48)) bs else None
  end.

Definition parse_i64 (bs : bytes) : option Z :=
  match bs with
  | [] => None
  | b :: r =>
      if (b =? 43) || (b =? 45) then
        match r with
        | [] => None
        | _ => v ← digits_value 0 r; checked_i64 (if b =? 45 then - v else v)
        end
      else v ← digits_value 0 bs; checked_i64 v
  end.

(** The decimal rendering of an [i64] parses back to it. *)
Section ParseDec.

Lemma bytes_of_pretty_char n :
  (n < 10)%N → ascii_to_byte (pretty_N_char n) = 48 + Z.of_N n.
Proof.
  intros Hn.
  assert (n = 0 ∨ n = 1 ∨ n = 2 ∨ n = 3 ∨ n = 4 ∨ n = 5 ∨ n = 6 ∨ n = 7 ∨ n = 8 ∨ n = 9)%N as H by lia.
  by repeat destruct H as [->|H]; subst.
Qed.

Lemma in_range_digit n : (n < 10)%N → in_range 48 57 (48 + Z.of_N n) = true.
Proof. intros. unfold in_range. apply andb_true_intro. split; apply Z.leb_le; lia. Qed.

Lemma digits_value_go x s :
  digits_value 0 (bytes_of_string (pretty_N_go x s)) = digits_value (Z.of_N x) (bytes_of_string s).
Proof.
  revert s. induction (N.lt_wf_0 x) as [x _ IH]; intros s.
  assert (x = 0 ∨ 0 < x)%N as [->|Hx] by lia; [done|].
  rewrite pretty_N_go_step, IH by (done || by apply N.div_lt). simpl.
  assert (x `mod` 10 < 10)%N by (apply N.mod_lt; lia).
  rewrite bytes_of_pretty_char, in_range_digit by done. f_equal.
  rewrite N2Z.inj_div, N2Z.inj_mod. pose proof (Z_div_mod_eq_full (Z.of_N x) 10). lia.
Qed.

Lemma parse_i64_digits bs v :
  digits_value 0 bs = Some v → bs ≠ [] → parse_i64 bs = checked_i64 v.
Proof.
  intros H Hne. destruct bs as [|b r]; [done|]. unfold parse_i64.
  destruct ((b =? 43) || (b =? 45)) eqn:E; [|by rewrite H].
  exfalso. simpl in H. unfold in_range in H.
  apply orb_prop in E as [E|E]; apply Z.eqb_eq in E as ->; done.
Qed.

Lemma digits_value_pretty n : digits_value 0 (bytes_of_string (pretty n)) = Some (Z.of_N n).
Proof.
  unfold pretty, pretty_N. case_decide; [by subst|]. by rewrite digits_value_go.
Qed.
Lemma bytes_of_pretty_ne n : bytes_of_string (pretty (n : N)) ≠ [].
Proof.
  intros H. pose proof (digits_value_pretty n) as Hd. rewrite H in Hd. simpl in Hd.
  assert (n = 0%N) as -> by (injection Hd; lia). done.
Qed.

Lemma parse_i64_dec z : is_i64 z → parse_i64 (bytes_of_string (dec z)) = Some z.
Proof.
  intros Hz. unfold dec, pretty, pretty_Z. destruct z as [|p|p].
  - done.
  - rewrite (parse_i64_digits _ (Z.of_N (N.pos p)));
      [by apply checked_i64_Some|apply digits_value_pretty|apply bytes_of_pretty_ne].
  - change (bytes_of_string ("-" +:+ pretty p)) with (45 :: bytes_of_string (pretty (N.pos p))).
    unfold parse_i64. change (45 =? 43) with false. change (45 =? 45) with true. cbn [orb].
    pose proof (digits_value_pretty (N.pos p)) as Hd.
    pose proof (bytes_of_pretty_ne (N.pos p)) as Hne.
    destruct (bytes_of_string (pretty (N.pos p))) as [|b r] eqn:E; [done|].
    rewrite Hd. cbn [mbind option_bind]. by apply checked_i64_Some.
Qed.
End ParseDec.
