(* ===== verification/Proto.v ===== *)
(** * Protocol messages (crates/proto)

    The records prost generates from the [.proto] files: one module per message,
    with the fields in declaration order under prost's snake-case names.  A
    [bytes] or [string] field is its value, an integer or enum field a [Z] (prost
    stores an open enum as an [i32]), a repeated field a list, a singular message
    field an option, a [map] field a finite map, and [google.protobuf.Any] the
    packed bytes of its [value]. [default] is the message with every field at its
    proto3 default. *)

From stdpp Require Import gmap strings pretty numbers fin_maps prelude.
From S2P Require Import Prelude.
Open Scope Z_scope.
Local Open Scope string_scope.

Module Vote.
Record t := mk {
  vote_address : bytes;
  vote_count : Z
}.
#[global] Instance eta_t : Eta t := λ r, mk
  (vote_address r) (vote_count r).
Definition default : t := mk [] 0.
End Vote.

Module Proposal.
Record t := mk {
  proposal_id : Z;
  proposer_address : bytes;
  parameters : gmap Z Z;
  expiration_time : Z;
  create_time : Z;
  approvals : list bytes;
  state : Z
}.
#[global] Instance eta_t : Eta t := λ r, mk
  (proposal_id r) (proposer_address r) (parameters r) (expiration_time r) (create_time r)
  (approvals r) (state r).
Definition default : t := mk 0 [] ∅ 0 0 [] 0.
End Proposal.

Module Exchange.
Record t := mk {
  exchange_id : Z;
  creator_address : bytes;
  create_time : Z;
  first_token_id : bytes;
  first_token_balance : Z;
  second_token_id : bytes;
  second_token_balance : Z
}.
#[global] Instance eta_t : Eta t := λ r, mk
  (exchange_id r) (creator_address r) (create_time r) (first_token_id r)
  (first_token_balance r) (second_token_id r) (second_token_balance r).
Definition default : t := mk 0 [] 0 [] 0 [] 0.
End Exchange.

Module MarketOrder.
Record t := mk {
  order_id : bytes;
  owner_address : bytes;
  create_time : Z;
  sell_token_id : bytes;
  sell_token_quantity : Z;
  buy_token_id : bytes;
  buy_token_quantity : Z;
  sell_token_quantity_remain : Z;
  sell_token_quantity_return : Z;
  state : Z;
  prev : bytes;
  next : bytes
}.
#[global] Instance eta_t : Eta t := λ r, mk
  (order_id r) (owner_address r) (create_time r) (sell_token_id r) (sell_token_quantity r)
  (buy_token_id r) (buy_token_quantity r) (sell_token_quantity_remain r)
  (sell_token_quantity_return r) (state r) (prev r) (next r).
Definition default : t := mk [] [] 0 [] 0 [] 0 0 0 0 [] [].
End MarketOrder.

Module Frozen.
Record t := mk {
  frozen_balance : Z;
  expire_time : Z
}.
#[global] Instance eta_t : Eta t := λ r, mk
  (frozen_balance r) (expire_time r).
Definition default : t := mk 0 0.
End Frozen.

Module AccountResource.
Record t := mk {
  energy_usage : Z;
  frozen_balance_for_energy : option Frozen.t;
  latest_consume_time_for_energy : Z;
  acquired_delegated_frozen_balance_for_energy : Z;
  delegated_frozen_balance_for_energy : Z;
  storage_limit : Z;
  storage_usage : Z;
  latest_exchange_storage_time : Z;
  energy_window_size : Z;
  delegated_frozen_v2_balance_for_energy : Z;
  acquired_delegated_frozen_v2_balance_for_energy : Z;
  energy_window_optimized : bool
}.
#[global] Instance eta_t : Eta t := λ r, mk
  (energy_usage r) (frozen_balance_for_energy r) (latest_consume_time_for_energy r)
  (acquired_delegated_frozen_balance_for_energy r) (delegated_frozen_balance_for_energy r)
  (storage_limit r) (storage_usage r) (latest_exchange_storage_time r) (energy_window_size r)
  (delegated_frozen_v2_balance_for_energy r)
  (acquired_delegated_frozen_v2_balance_for_energy r) (energy_window_optimized r).
Definition default : t := mk 0 None 0 0 0 0 0 0 0 0 0 false.
End AccountResource.

Module FreezeV2.
Record t := mk {
  type : Z;
  amount : Z
}.
#[global] Instance eta_t : Eta t := λ r, mk
  (type r) (amount r).
Definition default : t := mk 0 0.
End FreezeV2.

Module UnFreezeV2.
Record t := mk {
  type : Z;
  unfreeze_amount : Z;
  unfreeze_expire_time : Z
}.
#[global] Instance eta_t : Eta t := λ r, mk
  (type r) (unfreeze_amount r) (unfreeze_expire_time r).
Definition default : t := mk 0 0 0.
End UnFreezeV2.

Module Key.
Record t := mk {
  address : bytes;
  weight : Z
}.
#[global] Instance eta_t : Eta t := λ r, mk
  (address r) (weight r).
Definition default : t := mk [] 0.
End Key.

Module Permission.
Record t := mk {
  type : Z;
  id : Z;
  permission_name : string;
  threshold : Z;
  parent_id : Z;
  operations : bytes;
  keys : list Key.t
}.
#[global] Instance eta_t : Eta t := λ r, mk
  (type r) (id r) (permission_name r) (threshold r) (parent_id r) (operations r) (keys r).
Definition default : t := mk 0 0 "" 0 0 [] [].
End Permission.

Module Account.
Record t := mk {
  account_name : bytes;
  type : Z;
  address : bytes;
  balance : Z;
  votes : list Vote.t;
  asset : gmap string Z;
  asset_v2 : gmap string Z;
  frozen : list Frozen.t;
  net_usage : Z;
  acquired_delegated_frozen_balance_for_bandwidth : Z;
  delegated_frozen_balance_for_bandwidth : Z;
  old_tron_power : Z;
  tron_power : option Frozen.t;
  asset_optimized : bool;
  create_time : Z;
  latest_opration_time : Z;
  allowance : Z;
  latest_withdraw_time : Z;
  code : bytes;
  is_witness : bool;
  is_committee : bool;
  frozen_supply : list Frozen.t;
  asset_issued_name : bytes;
  asset_issued_id : bytes;
  latest_asset_operation_time : gmap string Z;
  latest_asset_operation_time_v2 : gmap string Z;
  free_net_usage : Z;
  free_asset_net_usage : gmap string Z;
  free_asset_net_usage_v2 : gmap string Z;
  latest_consume_time : Z;
  latest_consume_free_time : Z;
  account_id : bytes;
  net_window_size : Z;
  net_window_optimized : bool;
  account_resource : option AccountResource.t;
  code_hash : bytes;
  owner_permission : option Permission.t;
  witness_permission : option Permission.t;
  active_permission : list Permission.t;
  frozen_v2 : list FreezeV2.t;
  unfrozen_v2 : list UnFreezeV2.t;
  delegated_frozen_v2_balance_for_bandwidth : Z;
  acquired_delegated_frozen_v2_balance_for_bandwidth : Z
}.
#[global] Instance eta_t : Eta t := λ r, mk
  (account_name r) (type r) (address r) (balance r) (votes r) (asset r) (asset_v2 r)
  (frozen r) (net_usage r) (acquired_delegated_frozen_balance_for_bandwidth r)
  (delegated_frozen_balance_for_bandwidth r) (old_tron_power r) (tron_power r)
  (asset_optimized r) (create_time r) (latest_opration_time r) (allowance r)
  (latest_withdraw_time r) (code r) (is_witness r) (is_committee r) (frozen_supply r)
  (asset_issued_name r) (asset_issued_id r) (latest_asset_operation_time r)
  (latest_asset_operation_time_v2 r) (free_net_usage r) (free_asset_net_usage r)
  (free_asset_net_usage_v2 r) (latest_consume_time r) (latest_consume_free_time r)
  (account_id r) (net_window_size r) (net_window_optimized r) (account_resource r)
  (code_hash r) (owner_permission r) (witness_permission r) (active_permission r)
  (frozen_v2 r) (unfrozen_v2 r) (delegated_frozen_v2_balance_for_bandwidth r)
  (acquired_delegated_frozen_v2_balance_for_bandwidth r).
Definition default : t := mk [] 0 [] 0 [] ∅ ∅ [] 0 0 0 0 None false 0 0 0 0 [] false false [] [] [] ∅ ∅ 0 ∅ ∅ 0 0 [] 0 false None [] None None [] [] [] 0 0.
End Account.

Module DelegatedResource.
Record t := mk {
  from : bytes;
  to : bytes;
  frozen_balance_for_bandwidth : Z;
  frozen_balance_for_energy : Z;
  expire_time_for_bandwidth : Z;
  expire_time_for_energy : Z
}.
#[global] Instance eta_t : Eta t := λ r, mk
  (from r) (to r) (frozen_balance_for_bandwidth r) (frozen_balance_for_energy r)
  (expire_time_for_bandwidth r) (expire_time_for_energy r).
Definition default : t := mk [] [] 0 0 0 0.
End DelegatedResource.

Module Witness.
Record t := mk {
  address : bytes;
  vote_count : Z;
  pub_key : bytes;
  url : string;
  total_produced : Z;
  total_missed : Z;
  latest_block_num : Z;
  latest_slot_num : Z;
  is_jobs : bool
}.
#[global] Instance eta_t : Eta t := λ r, mk
  (address r) (vote_count r) (pub_key r) (url r) (total_produced r) (total_missed r)
  (latest_block_num r) (latest_slot_num r) (is_jobs r).
Definition default : t := mk [] 0 [] "" 0 0 0 0 false.
End Witness.

Module FrozenSupply.
Record t := mk {
  frozen_amount : Z;
  frozen_days : Z
}.
#[global] Instance eta_t : Eta t := λ r, mk
  (frozen_amount r) (frozen_days r).
Definition default : t := mk 0 0.
End FrozenSupply.

Module AssetIssueContract.
Record t := mk {
  id : string;
  owner_address : bytes;
  name : bytes;
  abbr : bytes;
  total_supply : Z;
  frozen_supply : list FrozenSupply.t;
  trx_num : Z;
  precision : Z;
  num : Z;
  start_time : Z;
  end_time : Z;
  order : Z;
  vote_score : Z;
  description : bytes;
  url : bytes;
  free_asset_net_limit : Z;
  public_free_asset_net_limit : Z;
  public_free_asset_net_usage : Z;
  public_latest_free_net_time : Z
}.
#[global] Instance eta_t : Eta t := λ r, mk
  (id r) (owner_address r) (name r) (abbr r) (total_supply r) (frozen_supply r) (trx_num r)
  (precision r) (num r) (start_time r) (end_time r) (order r) (vote_score r) (description r)
  (url r) (free_asset_net_limit r) (public_free_asset_net_limit r)
  (public_free_asset_net_usage r) (public_latest_free_net_time r).
Definition default : t := mk "" [] [] [] 0 [] 0 0 0 0 0 0 0 [] [] 0 0 0 0.
End AssetIssueContract.

Module Param.
Record t := mk {
  indexed : bool;
  name : string;
  type : string
}.
#[global] Instance eta_t : Eta t := λ r, mk
  (indexed r) (name r) (type r).
Definition default : t := mk false "" "".
End Param.

Module Entry.
Record t := mk {
  anonymous : bool;
  constant : bool;
  name : string;
  inputs : list Param.t;
  outputs : list Param.t;
  type : Z;
  payable : bool;
  state_mutability : Z
}.
#[global] Instance eta_t : Eta t := λ r, mk
  (anonymous r) (constant r) (name r) (inputs r) (outputs r) (type r) (payable r)
  (state_mutability r).
Definition default : t := mk false false "" [] [] 0 false 0.
End Entry.

Module ABI.
Record t := mk {
  entrys : list Entry.t
}.
#[global] Instance eta_t : Eta t := λ r, mk
  (entrys r).
Definition default : t := mk [].
End ABI.

Module SmartContract.
Record t := mk {
  origin_address : bytes;
  contract_address : bytes;
  abi : option ABI.t;
  bytecode : bytes;
  call_value : Z;
  consume_user_resource_percent : Z;
  name : string;
  origin_energy_limit : Z;
  code_hash : bytes;
  trx_hash : bytes;
  version : Z
}.
#[global] Instance eta_t : Eta t := λ r, mk
  (origin_address r) (contract_address r) (abi r) (bytecode r) (call_value r)
  (consume_user_resource_percent r) (name r) (origin_energy_limit r) (code_hash r)
  (trx_hash r) (version r).
Definition default : t := mk [] [] None [] 0 0 "" 0 [] [] 0.
End SmartContract.

Module TransferContract.
Record t := mk {
  owner_address : bytes;
  to_address : bytes;
  amount : Z
}.
#[global] Instance eta_t : Eta t := λ r, mk
  (owner_address r) (to_address r) (amount r).
Definition default : t := mk [] [] 0.
End TransferContract.

Module FreezeBalanceContract.
Record t := mk {
  owner_address : bytes;
  frozen_balance : Z;
  frozen_duration : Z;
  resource : Z;
  receiver_address : bytes
}.
#[global] Instance eta_t : Eta t := λ r, mk
  (owner_address r) (frozen_balance r) (frozen_duration r) (resource r) (receiver_address r).
Definition default : t := mk [] 0 0 0 [].
End FreezeBalanceContract.

Module UnfreezeBalanceContract.
Record t := mk {
  owner_address : bytes;
  resource : Z;
  receiver_address : bytes
}.
#[global] Instance eta_t : Eta t := λ r, mk
  (owner_address r) (resource r) (receiver_address r).
Definition default : t := mk [] 0 [].
End UnfreezeBalanceContract.

Module WithdrawBalanceContract.
Record t := mk {
  owner_address : bytes
}.
#[global] Instance eta_t : Eta t := λ r, mk
  (owner_address r).
Definition default : t := mk [].
End WithdrawBalanceContract.

Module FreezeBalanceV2Contract.
Record t := mk {
  owner_address : bytes;
  frozen_balance : Z;
  resource : Z
}.
#[global] Instance eta_t : Eta t := λ r, mk
  (owner_address r) (frozen_balance r) (resource r).
Definition default : t := mk [] 0 0.
End FreezeBalanceV2Contract.

Module UnfreezeBalanceV2Contract.
Record t := mk {
  owner_address : bytes;
  unfreeze_balance : Z;
  resource : Z
}.
#[global] Instance eta_t : Eta t := λ r, mk
  (owner_address r) (unfreeze_balance r) (resource r).
Definition default : t := mk [] 0 0.
End UnfreezeBalanceV2Contract.

Module WithdrawExpireUnfreezeContract.
Record t := mk {
  owner_address : bytes
}.
#[global] Instance eta_t : Eta t := λ r, mk
  (owner_address r).
Definition default : t := mk [].
End WithdrawExpireUnfreezeContract.

Module DelegateResourceContract.
Record t := mk {
  owner_address : bytes;
  resource : Z;
  balance : Z;
  receiver_address : bytes;
  lock : bool;
  lock_period : Z
}.
#[global] Instance eta_t : Eta t := λ r, mk
  (owner_address r) (resource r) (balance r) (receiver_address r) (lock r) (lock_period r).
Definition default : t := mk [] 0 0 [] false 0.
End DelegateResourceContract.

Module UnDelegateResourceContract.
Record t := mk {
  owner_address : bytes;
  resource : Z;
  balance : Z;
  receiver_address : bytes
}.
#[global] Instance eta_t : Eta t := λ r, mk
  (owner_address r) (resource r) (balance r) (receiver_address r).
Definition default : t := mk [] 0 0 [].
End UnDelegateResourceContract.

Module CancelAllUnfreezeV2Contract.
Record t := mk {
  owner_address : bytes
}.
#[global] Instance eta_t : Eta t := λ r, mk
  (owner_address r).
Definition default : t := mk [].
End CancelAllUnfreezeV2Contract.

Module TransferAssetContract.
Record t := mk {
  asset_name : bytes;
  owner_address : bytes;
  to_address : bytes;
  amount : Z
}.
#[global] Instance eta_t : Eta t := λ r, mk
  (asset_name r) (owner_address r) (to_address r) (amount r).
Definition default : t := mk [] [] [] 0.
End TransferAssetContract.

Module UnfreezeAssetContract.
Record t := mk {
  owner_address : bytes
}.
#[global] Instance eta_t : Eta t := λ r, mk
  (owner_address r).
Definition default : t := mk [].
End UnfreezeAssetContract.

Module UpdateAssetContract.
Record t := mk {
  owner_address : bytes;
  description : bytes;
  url : bytes;
  new_limit : Z;
  new_public_limit : Z
}.
#[global] Instance eta_t : Eta t := λ r, mk
  (owner_address r) (description r) (url r) (new_limit r) (new_public_limit r).
Definition default : t := mk [] [] [] 0 0.
End UpdateAssetContract.

Module ParticipateAssetIssueContract.
Record t := mk {
  owner_address : bytes;
  to_address : bytes;
  asset_name : bytes;
  amount : Z
}.
#[global] Instance eta_t : Eta t := λ r, mk
  (owner_address r) (to_address r) (asset_name r) (amount r).
Definition default : t := mk [] [] [] 0.
End ParticipateAssetIssueContract.

Module ExchangeCreateContract.
Record t := mk {
  owner_address : bytes;
  first_token_id : bytes;
  first_token_balance : Z;
  second_token_id : bytes;
  second_token_balance : Z
}.
#[global] Instance eta_t : Eta t := λ r, mk
  (owner_address r) (first_token_id r) (first_token_balance r) (second_token_id r)
  (second_token_balance r).
Definition default : t := mk [] [] 0 [] 0.
End ExchangeCreateContract.

Module ExchangeInjectContract.
Record t := mk {
  owner_address : bytes;
  exchange_id : Z;
  token_id : bytes;
  quant : Z
}.
#[global] Instance eta_t : Eta t := λ r, mk
  (owner_address r) (exchange_id r) (token_id r) (quant r).
Definition default : t := mk [] 0 [] 0.
End ExchangeInjectContract.

Module ExchangeWithdrawContract.
Record t := mk {
  owner_address : bytes;
  exchange_id : Z;
  token_id : bytes;
  quant : Z
}.
#[global] Instance eta_t : Eta t := λ r, mk
  (owner_address r) (exchange_id r) (token_id r) (quant r).
Definition default : t := mk [] 0 [] 0.
End ExchangeWithdrawContract.

Module ExchangeTransactionContract.
Record t := mk {
  owner_address : bytes;
  exchange_id : Z;
  token_id : bytes;
  quant : Z;
  expected : Z
}.
#[global] Instance eta_t : Eta t := λ r, mk
  (owner_address r) (exchange_id r) (token_id r) (quant r) (expected r).
Definition default : t := mk [] 0 [] 0 0.
End ExchangeTransactionContract.

Module MarketSellAssetContract.
Record t := mk {
  owner_address : bytes;
  sell_token_id : bytes;
  sell_token_quantity : Z;
  buy_token_id : bytes;
  buy_token_quantity : Z
}.
#[global] Instance eta_t : Eta t := λ r, mk
  (owner_address r) (sell_token_id r) (sell_token_quantity r) (buy_token_id r)
  (buy_token_quantity r).
Definition default : t := mk [] [] 0 [] 0.
End MarketSellAssetContract.

Module MarketCancelOrderContract.
Record t := mk {
  owner_address : bytes;
  order_id : bytes
}.
#[global] Instance eta_t : Eta t := λ r, mk
  (owner_address r) (order_id r).
Definition default : t := mk [] [].
End MarketCancelOrderContract.

Module ProposalApproveContract.
Record t := mk {
  owner_address : bytes;
  proposal_id : Z;
  is_add_approval : bool
}.
#[global] Instance eta_t : Eta t := λ r, mk
  (owner_address r) (proposal_id r) (is_add_approval r).
Definition default : t := mk [] 0 false.
End ProposalApproveContract.

Module ProposalCreateContract.
Record t := mk {
  owner_address : bytes;
  parameters : gmap Z Z
}.
#[global] Instance eta_t : Eta t := λ r, mk
  (owner_address r) (parameters r).
Definition default : t := mk [] ∅.
End ProposalCreateContract.

Module ProposalDeleteContract.
Record t := mk {
  owner_address : bytes;
  proposal_id : Z
}.
#[global] Instance eta_t : Eta t := λ r, mk
  (owner_address r) (proposal_id r).
Definition default : t := mk [] 0.
End ProposalDeleteContract.

Module WitnessCreateContract.
Record t := mk {
  owner_address : bytes;
  url : bytes
}.
#[global] Instance eta_t : Eta t := λ r, mk
  (owner_address r) (url r).
Definition default : t := mk [] [].
End WitnessCreateContract.

Module WitnessUpdateContract.
Record t := mk {
  owner_address : bytes;
  update_url : bytes
}.
#[global] Instance eta_t : Eta t := λ r, mk
  (owner_address r) (update_url r).
Definition default : t := mk [] [].
End WitnessUpdateContract.

Module VoteWitnessVote.
Record t := mk {
  vote_address : bytes;
  vote_count : Z
}.
#[global] Instance eta_t : Eta t := λ r, mk
  (vote_address r) (vote_count r).
Definition default : t := mk [] 0.
End VoteWitnessVote.

Module VoteWitnessContract.
Record t := mk {
  owner_address : bytes;
  votes : list VoteWitnessVote.t;
  support : bool
}.
#[global] Instance eta_t : Eta t := λ r, mk
  (owner_address r) (votes r) (support r).
Definition default : t := mk [] [] false.
End VoteWitnessContract.

Module AccountCreateContract.
Record t := mk {
  owner_address : bytes;
  account_address : bytes;
  type : Z
}.
#[global] Instance eta_t : Eta t := λ r, mk
  (owner_address r) (account_address r) (type r).
Definition default : t := mk [] [] 0.
End AccountCreateContract.

Module AccountUpdateContract.
Record t := mk {
  account_name : bytes;
  owner_address : bytes
}.
#[global] Instance eta_t : Eta t := λ r, mk
  (account_name r) (owner_address r).
Definition default : t := mk [] [].
End AccountUpdateContract.

Module SetAccountIdContract.
Record t := mk {
  account_id : bytes;
  owner_address : bytes
}.
#[global] Instance eta_t : Eta t := λ r, mk
  (account_id r) (owner_address r).
Definition default : t := mk [] [].
End SetAccountIdContract.

Module AccountPermissionUpdateContract.
Record t := mk {
  owner_address : bytes;
  owner : option Permission.t;
  witness : option Permission.t;
  actives : list Permission.t
}.
#[global] Instance eta_t : Eta t := λ r, mk
  (owner_address r) (owner r) (witness r) (actives r).
Definition default : t := mk [] None None [].
End AccountPermissionUpdateContract.

Module CreateSmartContract.
Record t := mk {
  owner_address : bytes;
  new_contract : option SmartContract.t;
  call_token_value : Z;
  token_id : Z
}.
#[global] Instance eta_t : Eta t := λ r, mk
  (owner_address r) (new_contract r) (call_token_value r) (token_id r).
Definition default : t := mk [] None 0 0.
End CreateSmartContract.

Module TriggerSmartContract.
Record t := mk {
  owner_address : bytes;
  contract_address : bytes;
  call_value : Z;
  data : bytes;
  call_token_value : Z;
  token_id : Z
}.
#[global] Instance eta_t : Eta t := λ r, mk
  (owner_address r) (contract_address r) (call_value r) (data r) (call_token_value r)
  (token_id r).
Definition default : t := mk [] [] 0 [] 0 0.
End TriggerSmartContract.

Module ClearAbiContract.
Record t := mk {
  owner_address : bytes;
  contract_address : bytes
}.
#[global] Instance eta_t : Eta t := λ r, mk
  (owner_address r) (contract_address r).
Definition default : t := mk [] [].
End ClearAbiContract.

Module UpdateSettingContract.
Record t := mk {
  owner_address : bytes;
  contract_address : bytes;
  consume_user_resource_percent : Z
}.
#[global] Instance eta_t : Eta t := λ r, mk
  (owner_address r) (contract_address r) (consume_user_resource_percent r).
Definition default : t := mk [] [] 0.
End UpdateSettingContract.

Module UpdateEnergyLimitContract.
Record t := mk {
  owner_address : bytes;
  contract_address : bytes;
  origin_energy_limit : Z
}.
#[global] Instance eta_t : Eta t := λ r, mk
  (owner_address r) (contract_address r) (origin_energy_limit r).
Definition default : t := mk [] [] 0.
End UpdateEnergyLimitContract.

Module UpdateBrokerageContract.
Record t := mk {
  owner_address : bytes;
  brokerage : Z
}.
#[global] Instance eta_t : Eta t := λ r, mk
  (owner_address r) (brokerage r).
Definition default : t := mk [] 0.
End UpdateBrokerageContract.

Module AccountId.
Record t := mk {
  name : bytes;
  address : bytes
}.
#[global] Instance eta_t : Eta t := λ r, mk
  (name r) (address r).
Definition default : t := mk [] [].
End AccountId.

Module authority.
Record t := mk {
  account : option AccountId.t;
  permission_name : bytes
}.
#[global] Instance eta_t : Eta t := λ r, mk
  (account r) (permission_name r).
Definition default : t := mk None [].
End authority.

Module MarketOrderDetail.
Record t := mk {
  maker_order_id : bytes;
  taker_order_id : bytes;
  fill_sell_quantity : Z;
  fill_buy_quantity : Z
}.
#[global] Instance eta_t : Eta t := λ r, mk
  (maker_order_id r) (taker_order_id r) (fill_sell_quantity r) (fill_buy_quantity r).
Definition default : t := mk [] [] 0 0.
End MarketOrderDetail.

Module TxResult.
Record t := mk {
  fee : Z;
  ret : Z;
  contract_ret : Z;
  asset_issue_id : string;
  withdraw_amount : Z;
  unfreeze_amount : Z;
  exchange_received_amount : Z;
  exchange_inject_another_amount : Z;
  exchange_withdraw_another_amount : Z;
  exchange_id : Z;
  shielded_transaction_fee : Z;
  order_id : bytes;
  order_details : list MarketOrderDetail.t;
  withdraw_expire_amount : Z;
  cancel_unfreeze_v2_amount : gmap string Z
}.
#[global] Instance eta_t : Eta t := λ r, mk
  (fee r) (ret r) (contract_ret r) (asset_issue_id r) (withdraw_amount r) (unfreeze_amount r)
  (exchange_received_amount r) (exchange_inject_another_amount r)
  (exchange_withdraw_another_amount r) (exchange_id r) (shielded_transaction_fee r)
  (order_id r) (order_details r) (withdraw_expire_amount r) (cancel_unfreeze_v2_amount r).
Definition default : t := mk 0 0 0 "" 0 0 0 0 0 0 0 [] [] 0 ∅.
End TxResult.

Module Contract.
Record t := mk {
  type : Z;
  parameter : option bytes;
  provider : bytes;
  contract_name : bytes;
  permission_id : Z
}.
#[global] Instance eta_t : Eta t := λ r, mk
  (type r) (parameter r) (provider r) (contract_name r) (permission_id r).
Definition default : t := mk 0 None [] [] 0.
End Contract.

Module TxRaw.
Record t := mk {
  ref_block_bytes : bytes;
  ref_block_num : Z;
  ref_block_hash : bytes;
  expiration : Z;
  auths : list authority.t;
  data : bytes;
  contract : list Contract.t;
  scripts : bytes;
  timestamp : Z;
  fee_limit : Z
}.
#[global] Instance eta_t : Eta t := λ r, mk
  (ref_block_bytes r) (ref_block_num r) (ref_block_hash r) (expiration r) (auths r) (data r)
  (contract r) (scripts r) (timestamp r) (fee_limit r).
Definition default : t := mk [] 0 [] 0 [] [] [] [] 0 0.
End TxRaw.

Module Transaction.
Record t := mk {
  raw_data : option TxRaw.t;
  signature : list bytes;
  ret : list TxResult.t
}.
#[global] Instance eta_t : Eta t := λ r, mk
  (raw_data r) (signature r) (ret r).
Definition default : t := mk None [] [].
End Transaction.

Module HeaderRaw.
Record t := mk {
  timestamp : Z;
  tx_trie_root : bytes;
  parent_hash : bytes;
  number : Z;
  witness_id : Z;
  witness_address : bytes;
  version : Z;
  account_state_root : bytes
}.
#[global] Instance eta_t : Eta t := λ r, mk
  (timestamp r) (tx_trie_root r) (parent_hash r) (number r) (witness_id r)
  (witness_address r) (version r) (account_state_root r).
Definition default : t := mk 0 [] [] 0 0 [] 0 [].
End HeaderRaw.

Module BlockHeader.
Record t := mk {
  raw_data : option HeaderRaw.t;
  witness_signature : bytes
}.
#[global] Instance eta_t : Eta t := λ r, mk
  (raw_data r) (witness_signature r).
Definition default : t := mk None [].
End BlockHeader.

Module Block.
Record t := mk {
  transactions : list Transaction.t;
  block_header : option BlockHeader.t
}.
#[global] Instance eta_t : Eta t := λ r, mk
  (transactions r) (block_header r).
Definition default : t := mk [] None.
End Block.
