(* ===== verification/State.v ===== *)
(** * World state (crates/state/src/lib.rs, features.rs, genesis.rs)

    [world] is the content of the node's column families, each a finite map
    from the key bytes the code uses to the value it stores.  A column family
    whose values are prost messages holds the messages; one whose values are raw
    bytes ([properties], [brokerage], the order-book indexes, ...) holds the
    bytes, so the big-endian encodings the code writes there are computed.
    Deleting a missing key is a no-op, as in the [KvStore] the code runs on. *)

From stdpp Require Import gmap strings pretty numbers fin_maps prelude.
From S2P Require Import Prelude Types Proto.
Open Scope Z_scope.

(** ** Dynamic-property keys ([props], [features::flags], [blocks]) *)

Module props.
Definition CREATE_NEW_ACCOUNT_FEE_IN_SYSTEM_CONTRACT : string :=
  "CREATE_NEW_ACCOUNT_FEE_IN_SYSTEM_CONTRACT".
Definition BURN_TRX_AMOUNT : string := "BURN_TRX_AMOUNT".
Definition LATEST_BLOCK_HEADER_TIMESTAMP : string := "LATEST_BLOCK_HEADER_TIMESTAMP".
Definition TOTAL_NET_WEIGHT : string := "TOTAL_NET_WEIGHT".
Definition TOTAL_ENERGY_WEIGHT : string := "TOTAL_ENERGY_WEIGHT".
Definition TOTAL_TRON_POWER_WEIGHT : string := "TOTAL_TRON_POWER_WEIGHT".
Definition TOKEN_ID_NUM : string := "TOKEN_ID_NUM".
Definition ACTIVE_WITNESSES : string := "ACTIVE_WITNESSES".
Definition LATEST_SOLIDIFIED_BLOCK : string := "LATEST_SOLIDIFIED_BLOCK".
Definition ALLOW_PBFT : string := "ALLOW_PBFT".
End props.

Module flags.
Definition ALLOW_TVM_CONSTANTINOPLE : string := "ALLOW_TVM_CONSTANTINOPLE".
Definition ALLOW_MARKET_TRANSACTION : string := "ALLOW_MARKET_TRANSACTION".
Definition ALLOW_CANCEL_ALL_UNFREEZE_V2 : string := "ALLOW_CANCEL_ALL_UNFREEZE_V2".
Definition CHANGE_DELEGATION : string := "CHANGE_DELEGATION".
Definition ALLOW_NEW_RESOURCE_MODEL : string := "ALLOW_NEW_RESOURCE_MODEL".
Definition ALLOW_SAME_TOKEN_NAME : string := "ALLOW_SAME_TOKEN_NAME".
End flags.

Definition LATEST_BLOCK_NUMBER : string := "LATEST_BLOCK_HEADER_NUMBER".
Definition TOKEN_ID_BASE : Z := 1000000.

(** ** The state *)

Record world := mk_world {
  w_account : gmap bytes Account.t;
  w_contract : gmap bytes SmartContract.t;
  w_contract_code : gmap bytes bytes;
  w_contract_storage : gmap bytes bytes;
  w_witness : gmap bytes Witness.t;
  w_asset : gmap string AssetIssueContract.t;
  w_proposal : gmap bytes Proposal.t;
  w_exchange : gmap bytes Exchange.t;
  w_block : gmap bytes Block.t;
  w_transaction : gmap bytes Transaction.t;
  w_block_index : gmap bytes bytes;
  w_brokerage : gmap bytes bytes;
  w_delegation : gmap bytes DelegatedResource.t;
  w_market_order : gmap bytes MarketOrder.t;
  w_market_pair_price : gmap bytes bytes;
  w_market_pair : gmap bytes bytes;
  w_market_account_order : gmap bytes bytes;
  w_market_pairs : gmap bytes bytes;
  w_properties : gmap string bytes
}.
#[export] Instance eta_world : Eta world := λ w, mk_world
  (w_account w) (w_contract w) (w_contract_code w) (w_contract_storage w) (w_witness w)
  (w_asset w) (w_proposal w) (w_exchange w) (w_block w) (w_transaction w) (w_block_index w)
  (w_brokerage w) (w_delegation w) (w_market_order w) (w_market_pair_price w)
  (w_market_pair w) (w_market_account_order w) (w_market_pairs w) (w_properties w).

(** A fresh store. *)
Definition empty_world : world := mk_world ∅ ∅ ∅ ∅ ∅ ∅ ∅ ∅ ∅ ∅ ∅ ∅ ∅ ∅ ∅ ∅ ∅ ∅ ∅.

Implicit Types w : world.

(** ** Dynamic properties *)

Definition get_prop_i64 (key : string) w : Z :=
  match w_properties w !! key with
  | Some bs => if bool_decide (length bs = 8%nat) then i64_from_be_bytes bs else 0
  | None => 0
  end.

Definition put_prop_i64 (key : string) (value : Z) w : world :=
  w <| w_properties ::= insert key (i64_to_be_bytes value) |>.

Definition add_prop_i64 (key : string) (delta : Z) w : world :=
  put_prop_i64 key (saturating_add (get_prop_i64 key w) delta) w.

Definition burn_trx (amount : Z) w : world :=
  put_prop_i64 props.BURN_TRX_AMOUNT
    (saturating_add (get_prop_i64 props.BURN_TRX_AMOUNT w) amount) w.

Definition feature_enabled (key : string) w : bool := get_prop_i64 key w =? 1.

(** ** Accounts *)

Definition get_account (addr : Address) w : option Account.t := w_account w !! addr.
Definition put_account (addr : Address) (account : Account.t) w : world :=
  w <| w_account ::= insert addr account |>.
Definition account_exists (addr : Address) w : bool := bool_decide (is_Some (w_account w !! addr)).

Definition fresh_account (addr : Address) w : Account.t :=
  Account.default <| Account.address := addr |> <| Account.type := 0 |>
    <| Account.create_time := get_prop_i64 props.LATEST_BLOCK_HEADER_TIMESTAMP w |>.
Definition create_account (addr : Address) w : world :=
  put_account addr (fresh_account addr w) w.

(** ** Brokerage, contract code, contract records *)

Definition put_brokerage (addr : Address) (pct : Z) w : world :=
  w <| w_brokerage ::= insert addr (i64_to_be_bytes pct) |>.
Definition get_brokerage (addr : Address) w : Z :=
  match w_brokerage w !! addr with
  | Some b => if bool_decide (length b = 8%nat) then i64_from_be_bytes b else 20
  | None => 20
  end.

Definition put_code (addr : Address) (code : bytes) w : world :=
  w <| w_contract_code ::= insert addr code |>.
Definition get_code (addr : Address) w : bytes := default [] (w_contract_code w !! addr).

Definition put_contract (addr : Address) (c : SmartContract.t) w : world :=
  w <| w_contract ::= insert addr c |>.
Definition get_contract (addr : Address) w : option SmartContract.t := w_contract w !! addr.

(** ** TRC10 asset issues *)

Definition put_asset_issue (id : Z) (asset : AssetIssueContract.t) w : world :=
  w <| w_asset ::= insert (dec id) asset |>.
Definition get_asset_issue (id : Z) w : option AssetIssueContract.t := w_asset w !! dec id.

Definition get_token_id_num w : Z :=
  let v := get_prop_i64 props.TOKEN_ID_NUM w in
  if v =? 0 then TOKEN_ID_BASE else v.
Definition save_token_id_num (num : Z) w : world := put_prop_i64 props.TOKEN_ID_NUM num w.
Definition allocate_token_id {E} : ST world E Z :=
  cur ← gets get_token_id_num;
  next ← lift (add_i64 cur 1);
  _ ← modify (save_token_id_num next);
  mret next.

Definition asset_v2_balance (account : Account.t) (id : Z) : Z :=
  default 0 (Account.asset_v2 account !! dec id).
Definition set_asset_v2_balance (account : Account.t) (id amount : Z) : Account.t :=
  account <| Account.asset_v2 ::= insert (dec id) amount |>.

(** ** Active witnesses and the solidified block *)

(** [slice::chunks_exact]: the trailing remainder is dropped. *)
Fixpoint chunks_exact_fuel (fuel n : nat) (bs : bytes) : list bytes :=
  match fuel with
  | O => []
  | S fuel =>
      if bool_decide (length bs < n)%nat then []
      else take n bs :: chunks_exact_fuel fuel n (drop n bs)
  end.
Definition chunks_exact (n : nat) (bs : bytes) : list bytes :=
  chunks_exact_fuel (length bs) n bs.

Definition get_active_witnesses w : list bytes :=
  chunks_exact ADDRESS_LEN (default [] (w_properties w !! props.ACTIVE_WITNESSES)).
Definition put_active_witnesses (ws : list Address) w : world :=
  w <| w_properties ::= insert props.ACTIVE_WITNESSES (concat ws) |>.

Definition get_solidified_block w : Z := get_prop_i64 props.LATEST_SOLIDIFIED_BLOCK w.
Definition put_solidified_block (number : Z) w : world :=
  put_prop_i64 props.LATEST_SOLIDIFIED_BLOCK number w.

(** ** Witness store access shared by several actuators *)

Definition get_witness (addr : Address) w : option Witness.t := w_witness w !! addr.
Definition put_witness (addr : Address) (x : Witness.t) w : world :=
  w <| w_witness ::= insert addr x |>.
Definition witness_exists (addr : Address) w : bool := bool_decide (is_Some (w_witness w !! addr)).

(** ** Genesis *)

Record GenesisAccount := mk_genesis_account {
  ga_address : Address; ga_name : string; ga_balance : Z }.
Record GenesisWitness := mk_genesis_witness {
  gw_address : Address; gw_url : string; gw_vote_count : Z }.
Record GenesisConfig := mk_genesis_config {
  gc_timestamp : Z; gc_accounts : list GenesisAccount; gc_witnesses : list GenesisWitness }.

Definition total_supply (c : GenesisConfig) : Z :=
  sum_list ga_balance (filter (λ a, 0 ≤ ga_balance a) (gc_accounts c)).

Definition genesis_account (c : GenesisConfig) (ga : GenesisAccount) : Account.t :=
  Account.default <| Account.address := ga_address ga |>
    <| Account.account_name := bytes_of_string (ga_name ga) |>
    <| Account.balance := ga_balance ga |>
    <| Account.create_time := gc_timestamp c |>.

Definition genesis_witness (gw : GenesisWitness) : Witness.t :=
  Witness.default <| Witness.address := gw_address gw |> <| Witness.url := gw_url gw |>
    <| Witness.vote_count := gw_vote_count gw |> <| Witness.is_jobs := true |>.

Definition apply_genesis_account (c : GenesisConfig) w (ga : GenesisAccount) : world :=
  put_account (ga_address ga) (genesis_account c ga) w.

Definition apply_genesis_witness (c : GenesisConfig) w (gw : GenesisWitness) : world :=
  let w := put_witness (gw_address gw) (genesis_witness gw) w in
  if negb (account_exists (gw_address gw) w) then
    put_account (gw_address gw)
      (Account.default <| Account.address := gw_address gw |>
         <| Account.create_time := gc_timestamp c |>) w
  else w.

Definition apply_genesis (c : GenesisConfig) w : world :=
  let w := put_prop_i64 props.LATEST_BLOCK_HEADER_TIMESTAMP (gc_timestamp c) w in
  let w := foldl (apply_genesis_account c) w (gc_accounts c) in
  let w := foldl (apply_genesis_witness c) w (gc_witnesses c) in
  put_active_witnesses (gw_address <$> gc_witnesses c) w.

(** ** Lemmas *)

Create HintDb world.
Create Rewrite HintDb world.

Section StateLemmas.
Implicit Types a b : Address.

Lemma get_put_account_eq a acc w : get_account a (put_account a acc w) = Some acc.
Proof. apply lookup_insert_eq. Qed.
Lemma get_put_account_ne a b acc w :
  a ≠ b → get_account b (put_account a acc w) = get_account b w.
Proof. intros. by apply lookup_insert_ne. Qed.
Lemma get_put_account a b acc w :
  get_account b (put_account a acc w) = if decide (a = b) then Some acc else get_account b w.
Proof. apply lookup_insert. Qed.
Lemma get_prop_put_account k a acc w :
  get_prop_i64 k (put_account a acc w) = get_prop_i64 k w.
Proof. done. Qed.
Lemma get_account_put_prop a k v w : get_account a (put_prop_i64 k v w) = get_account a w.
Proof. done. Qed.

Lemma get_put_prop_wrap k v w : get_prop_i64 k (put_prop_i64 k v w) = wrap_i64 v.
Proof.
  unfold get_prop_i64, put_prop_i64. simpl. rewrite lookup_insert_eq.
  rewrite bool_decide_eq_true_2 by apply i64_to_be_bytes_length.
  apply i64_be_roundtrip_wrap.
Qed.
Lemma get_put_prop_eq k v w : is_i64 v → get_prop_i64 k (put_prop_i64 k v w) = v.
Proof. intros. by rewrite get_put_prop_wrap, wrap_i64_id. Qed.
Lemma get_put_prop_ne k k' v w :
  k ≠ k' → get_prop_i64 k' (put_prop_i64 k v w) = get_prop_i64 k' w.
Proof. intros. unfold get_prop_i64, put_prop_i64. simpl. by rewrite lookup_insert_ne. Qed.

Lemma get_prop_is_i64 k w : is_i64 (get_prop_i64 k w).
Proof.
  unfold get_prop_i64. destruct (_ !! _); [case_bool_decide|].
  - apply wrap_i64_is_i64.
  - i64_lia.
  - i64_lia.
Qed.

Lemma get_add_prop_eq k d w :
  get_prop_i64 k (add_prop_i64 k d w) = saturating_add (get_prop_i64 k w) d.
Proof. apply get_put_prop_eq, sat_i64_is_i64. Qed.
Lemma get_add_prop_ne k k' d w :
  k ≠ k' → get_prop_i64 k' (add_prop_i64 k d w) = get_prop_i64 k' w.
Proof. apply get_put_prop_ne. Qed.

Lemma burned_burn_trx n w :
  get_prop_i64 props.BURN_TRX_AMOUNT (burn_trx n w)
  = saturating_add (get_prop_i64 props.BURN_TRX_AMOUNT w) n.
Proof. apply get_add_prop_eq. Qed.

Lemma account_exists_spec a w : account_exists a w = true ↔ ∃ acc, get_account a w = Some acc.
Proof. unfold account_exists. rewrite bool_decide_eq_true. done. Qed.
Lemma account_exists_false a w : account_exists a w = false ↔ get_account a w = None.
Proof.
  unfold account_exists, get_account. rewrite bool_decide_eq_false.
  symmetry. apply eq_None_not_Some.
Qed.

Lemma get_put_brokerage a p w : is_i64 p → get_brokerage a (put_brokerage a p w) = p.
Proof.
  intros. unfold get_brokerage, put_brokerage. simpl. rewrite lookup_insert_eq.
  rewrite bool_decide_eq_true_2 by apply i64_to_be_bytes_length.
  by apply i64_be_roundtrip.
Qed.
End StateLemmas.

#[export] Hint Resolve get_prop_is_i64 : world.
#[export] Hint Rewrite get_put_account_eq get_prop_put_account get_account_put_prop
  get_add_prop_eq burned_burn_trx : world.
#[export] Hint Rewrite get_put_account_ne using congruence : world.
#[export] Hint Rewrite get_put_prop_ne get_add_prop_ne using discriminate : world.

(** Rewrite reads of a just-written state. *)
Ltac world_simpl := autorewrite with world.

(** ** Storing a list of equal-length chunks and reading it back *)

Lemma chunks_exact_fuel_concat n (ls : list bytes) fuel :
  (0 < n)%nat → Forall (λ l, length l = n) ls → (length (concat ls) ≤ fuel)%nat →
  chunks_exact_fuel fuel n (concat ls) = ls.
Proof.
  intros Hn Hls. revert fuel. induction Hls as [|l ls Hl Hls IH]; intros fuel Hf; simpl in *.
  - destruct fuel; simpl; [done|]. by rewrite bool_decide_eq_true_2 by (simpl; lia).
  - rewrite length_app in Hf. destruct fuel as [|fuel]; [lia|]. simpl.
    rewrite bool_decide_eq_false_2 by (rewrite length_app; lia).
    rewrite take_app_length' by done. rewrite drop_app_length' by done.
    f_equal. apply IH. lia.
Qed.

Lemma chunks_exact_concat n (ls : list bytes) :
  (0 < n)%nat → Forall (λ l, length l = n) ls → chunks_exact n (concat ls) = ls.
Proof. intros. by apply chunks_exact_fuel_concat. Qed.
