(* ===== verification/Actuator.v ===== *)
(** * Actuators: the common interface (crates/actuators/src/lib.rs)

    The error type and the execution result, the feature gate, address parsing,
    and the interface between the actuators and the executor that dispatches to
    them: [Actuator] gives a contract type its [validate] and [execute],
    [ActuatorSafe] states what every actuator promises about the supply of TRX. *)

From stdpp Require Import gmap strings pretty numbers fin_maps prelude.
From S2P Require Import Prelude Types Proto State.
Open Scope Z_scope.

(** ** Errors and results *)

Inductive ActuatorError : Type :=
| Validate (msg : string)
| Execute (msg : string)
| StateErr (msg : string).

Record ExecutionResult := mk_result { fee : Z }.

(** A function over [&WorldState] returning a [Result]. *)
Abbreviation R := (res ActuatorError).
(** A function over [&mut WorldState] returning a [Result]. *)
Abbreviation M := (ST world ActuatorError).

Definition require_feature (key err_msg : string) (w : world) : R () :=
  if feature_enabled key w then Ok () else Err (Validate err_msg).

(** [parse_address]: each actuator file has this helper, differing only in the
    message of the error. *)
Definition parse_address (msg : string) (bs : bytes) : R Address :=
  ok_or (Validate msg) (parse_address_opt bs).

Lemma parse_address_Ok msg bs a : parse_address msg bs = Ok a ↔ a = bs ∧ is_address bs = true.
Proof. unfold parse_address. rewrite ok_or_Ok. apply parse_address_opt_Some. Qed.

Lemma parse_address_ok msg bs : is_address bs = true → parse_address msg bs = Ok bs.
Proof. intros. by apply parse_address_Ok. Qed.

Lemma parse_address_no_panic msg bs : parse_address msg bs = Panic → False.
Proof. apply ok_or_Panic. Qed.
Lemma require_feature_Ok key msg w u :
  require_feature key msg w = Ok u ↔ feature_enabled key w = true.
Proof. unfold require_feature. destruct u. by destruct (feature_enabled key w). Qed.
Lemma require_feature_no_panic key msg w : require_feature key msg w = Panic → False.
Proof. unfold require_feature. by destruct (feature_enabled key w). Qed.

(** Facts of the successful parses, and no parse panics. *)
Ltac parse_facts :=
  repeat match goal with
  | H : parse_address _ _ = Ok _ |- _ => apply parse_address_Ok in H as [-> ?]
  | H : parse_address _ _ = Panic |- _ => by apply parse_address_no_panic in H
  | H : require_feature _ _ _ = Ok _ |- _ => apply require_feature_Ok in H
  | H : require_feature _ _ _ = Panic |- _ => by apply require_feature_no_panic in H
  end.

(** ** The interface *)

Class Actuator (C : Type) := {
  validate : C → world → R Z;
  execute : C → M ExecutionResult;
}.
#[global] Hint Mode Actuator ! : typeclass_instances.

(** What [apply_transaction] does with each contract:
    [actuator.validate(state)?; actuator.execute(state)]. *)
Definition apply_contract {C} `{Actuator C} (c : C) : M ExecutionResult :=
  _ ← reads (validate c);
  execute c.

Lemma apply_contract_eq {C} `{Actuator C} (c : C) w :
  apply_contract c w =
  match validate c w with
  | Ok _ => execute c w
  | Err e => (Err e, w)
  | Panic => (Panic, w)
  end.
Proof. unfold apply_contract, mbind, ST_bind, reads. by destruct (validate c w). Qed.

(** ** The TRX supply

    Every place TRX can be: an account's spendable balance, its unclaimed
    rewards, its stakes (V1 and V2, pending unfreezes included), the stake it
    has delegated away (held in the delegation records), the TRX side of the
    exchange pools, the TRX escrowed by open market orders, and the burned
    total. *)

Definition TRX_SYMBOL_BYTES : bytes := [95].
Definition is_trx (id : bytes) : bool := bool_decide (id = TRX_SYMBOL_BYTES).
Definition is_number (id : bytes) : bool :=
  if bool_decide (id = []) then false else
  if negb (forallb (λ b, (48 <=? b) && (b <=? 57)) id) then false else
  negb (bool_decide (1 < length id)%nat && bool_decide (head id = Some 48)).
Definition valid_token (id : bytes) : bool := is_trx id || is_number id.

(** The counters of exchanges and of market orders. *)
Definition LATEST_EXCHANGE_NUM : string := "LATEST_EXCHANGE_NUM".
Definition MARKET_ORDER_NUM : string := "MARKET_ORDER_NUM".
Definition counter_keys : list string := [LATEST_EXCHANGE_NUM; MARKET_ORDER_NUM].

Definition opt_frozen (o : option Frozen.t) : Z :=
  match o with Some f => Frozen.frozen_balance f | None => 0 end.
Definition energy_frozen (a : Account.t) : option Frozen.t :=
  match Account.account_resource a with
  | Some r => AccountResource.frozen_balance_for_energy r
  | None => None
  end.

Definition acc_trx (a : Account.t) : Z :=
  Account.balance a + Account.allowance a
  + sum_list FreezeV2.amount (Account.frozen_v2 a)
  + sum_list UnFreezeV2.unfreeze_amount (Account.unfrozen_v2 a)
  + sum_list Frozen.frozen_balance (Account.frozen a)
  + opt_frozen (Account.tron_power a)
  + opt_frozen (energy_frozen a).

Definition side_trx (id : bytes) (amount : Z) : Z :=
  if is_trx id then amount else 0.
Definition exchange_trx (e : Exchange.t) : Z :=
  side_trx (Exchange.first_token_id e) (Exchange.first_token_balance e)
  + side_trx (Exchange.second_token_id e) (Exchange.second_token_balance e).
Definition delegation_trx (d : DelegatedResource.t) : Z :=
  DelegatedResource.frozen_balance_for_bandwidth d
  + DelegatedResource.frozen_balance_for_energy d.
Definition order_trx (o : MarketOrder.t) : Z :=
  side_trx (MarketOrder.sell_token_id o) (MarketOrder.sell_token_quantity_remain o).
Definition burned (w : world) : Z := get_prop_i64 props.BURN_TRX_AMOUNT w.

Definition total_trx (w : world) : Z :=
  map_sum acc_trx (w_account w) + map_sum exchange_trx (w_exchange w)
  + map_sum delegation_trx (w_delegation w) + map_sum order_trx (w_market_order w)
  + burned w.

(** ** The state invariant

    No component of the supply is negative, the supply fits an [i64], stakes of
    one resource are merged in one entry, token balances, timestamps and dynamic properties
    (the three staked-weight totals apart) are not negative. *)

Definition nonneg_i64 (z : Z) : Prop := 0 ≤ z ≤ I64_MAX.
#[export] Instance nonneg_i64_dec z : Decision (nonneg_i64 z).
Proof. unfold nonneg_i64. apply _. Defined.

Record acc_wf (a : Account.t) : Prop := {
  wf_balance : 0 ≤ Account.balance a;
  wf_allowance : 0 ≤ Account.allowance a;
  wf_frozen_v2 : Forall (λ f, 0 ≤ FreezeV2.amount f) (Account.frozen_v2 a);
  wf_frozen_v2_nodup : NoDup (FreezeV2.type <$> Account.frozen_v2 a);
  wf_unfrozen_v2 : Forall (λ u, 0 ≤ UnFreezeV2.unfreeze_amount u) (Account.unfrozen_v2 a);
  wf_frozen : Forall (λ f, 0 ≤ Frozen.frozen_balance f) (Account.frozen a);
  wf_tron_power : 0 ≤ opt_frozen (Account.tron_power a);
  wf_energy : 0 ≤ opt_frozen (energy_frozen a);
  wf_withdraw_time : 0 ≤ Account.latest_withdraw_time a;
  wf_assets : map_Forall (λ _, nonneg_i64) (Account.asset_v2 a);
  wf_frozen_supply : Forall (λ f, 0 ≤ Frozen.frozen_balance f) (Account.frozen_supply a);
}.

(** Pools are numbered from 1 in creation order, keyed by their number, and trade two
    different tokens. *)
Record exchange_wf (count : Z) (k : bytes) (e : Exchange.t) : Prop := {
  wf_exchange_key : k = i64_to_be_bytes (Exchange.exchange_id e);
  wf_exchange_num : 0 < Exchange.exchange_id e ≤ count;
  wf_first : nonneg_i64 (Exchange.first_token_balance e);
  wf_second : nonneg_i64 (Exchange.second_token_balance e);
  wf_first_id : valid_token (Exchange.first_token_id e) = true;
  wf_second_id : valid_token (Exchange.second_token_id e) = true;
  wf_ids : Exchange.first_token_id e ≠ Exchange.second_token_id e;
}.
(** A delegation key is owner, receiver and the lock flag; stake in a locked record has an
    expiry time. *)
Definition key_locked (k : bytes) : bool := bool_decide (k !! 42%nat = Some 1).
Record delegation_wf (k : bytes) (d : DelegatedResource.t) : Prop := {
  wf_bandwidth : 0 ≤ DelegatedResource.frozen_balance_for_bandwidth d;
  wf_energy_for : 0 ≤ DelegatedResource.frozen_balance_for_energy d;
  wf_expire_bandwidth : key_locked k = true →
    DelegatedResource.frozen_balance_for_bandwidth d ≠ 0 →
    DelegatedResource.expire_time_for_bandwidth d ≠ 0;
  wf_expire_energy : key_locked k = true →
    DelegatedResource.frozen_balance_for_energy d ≠ 0 →
    DelegatedResource.expire_time_for_energy d ≠ 0;
}.
(** Market orders are numbered in creation order too; the number is the tail of the
    32-byte order id. *)
Definition order_key (n : Z) : bytes := replicate 24 0 ++ i64_to_be_bytes n.
Definition order_num (k : bytes) : Z := i64_from_be_bytes (drop 24 k).
Record order_wf (count : Z) (k : bytes) (o : MarketOrder.t) : Prop := {
  wf_order_id : MarketOrder.order_id o = k;
  wf_order_key : k = order_key (order_num k);
  wf_order_num : 0 < order_num k ≤ count;
  wf_order_sell : 0 < MarketOrder.sell_token_quantity o;
  wf_order_buy : 0 < MarketOrder.buy_token_quantity o;
  wf_order_remain : 0 ≤ MarketOrder.sell_token_quantity_remain o;
}.

(** The three running totals that may legitimately go below zero. *)
Definition weight_keys : list string :=
  [props.TOTAL_NET_WEIGHT; props.TOTAL_ENERGY_WEIGHT; props.TOTAL_TRON_POWER_WEIGHT].

(** Decide that a concrete property key is not one of the weight totals. *)
Ltac not_weight := apply (bool_decide_unpack _); vm_compute; exact I.

Record trx_wf (w : world) : Prop := {
  inv_account : map_Forall (λ _, acc_wf) (w_account w);
  inv_exchange : map_Forall (exchange_wf (get_prop_i64 LATEST_EXCHANGE_NUM w)) (w_exchange w);
  inv_delegation : map_Forall delegation_wf (w_delegation w);
  inv_order : map_Forall (order_wf (get_prop_i64 MARKET_ORDER_NUM w)) (w_market_order w);
  inv_props : ∀ k, k ∉ weight_keys → 0 ≤ get_prop_i64 k w;
}.

Definition trx_inv (w : world) : Prop := trx_wf w ∧ total_trx w ≤ I64_MAX.

(** What an actuator promises to the executor: on success the invariant and the
    supply are preserved, on an error the state is untouched.  [contract_wf]
    states what the promise takes for granted of the contract in that state. *)
Definition safe_outcome {A} (o : R A * world) (w : world) : Prop :=
  match o with
  | (Ok _, w') => trx_inv w' ∧ total_trx w' = total_trx w
  | (Err _, w') => w' = w
  | (Panic, _) => True
  end.

Class ActuatorSafe (C : Type) `{Actuator C} := {
  contract_wf : C → world → Prop;
  apply_safe c w : contract_wf c w → trx_inv w → safe_outcome (apply_contract c w) w;
}.

(** The weaker promise of an actuator that may leave a partial write behind when it
    fails. *)
Definition conserves {A} (o : R A * world) (w : world) : Prop :=
  match o with
  | (Ok _, w') => trx_inv w' ∧ total_trx w' = total_trx w
  | _ => True
  end.

Class ActuatorConserves (C : Type) `{Actuator C} := {
  conserve_wf : C → world → Prop;
  apply_conserves c w : conserve_wf c w → trx_inv w → conserves (apply_contract c w) w;
}.

Lemma safe_conserves_outcome {A} (o : R A * world) w : safe_outcome o w → conserves o w.
Proof. by destruct o as [[]]. Qed.

#[export] Instance safe_conserves `{ActuatorSafe C} : ActuatorConserves C := {
  conserve_wf := contract_wf;
  apply_conserves c w Hc Hi := safe_conserves_outcome _ _ (apply_safe c w Hc Hi) }.

(** ** Lemmas on the supply *)

Section Supply.
Implicit Types (w : world) (a b : Address) (acc : Account.t).

Lemma acc_trx_parts acc :
  acc_wf acc →
  0 ≤ Account.balance acc ≤ acc_trx acc ∧ 0 ≤ Account.allowance acc ≤ acc_trx acc ∧
  Account.balance acc + Account.allowance acc ≤ acc_trx acc ∧
  0 ≤ sum_list FreezeV2.amount (Account.frozen_v2 acc) ∧
  0 ≤ sum_list UnFreezeV2.unfreeze_amount (Account.unfrozen_v2 acc) ∧
  0 ≤ sum_list Frozen.frozen_balance (Account.frozen acc).
Proof.
  intros H. unfold acc_trx.
  pose proof (sum_list_nonneg FreezeV2.amount _ (wf_frozen_v2 _ H)).
  pose proof (sum_list_nonneg UnFreezeV2.unfreeze_amount _ (wf_unfrozen_v2 _ H)).
  pose proof (sum_list_nonneg Frozen.frozen_balance _ (wf_frozen _ H)).
  destruct H. lia.
Qed.

Lemma acc_trx_nonneg acc : acc_wf acc → 0 ≤ acc_trx acc.
Proof. intros H. apply acc_trx_parts in H. lia. Qed.

Lemma exchange_trx_nonneg n k e : exchange_wf n k e → 0 ≤ exchange_trx e.
Proof.
  intros []. unfold exchange_trx, side_trx, nonneg_i64 in *. repeat case_match; lia.
Qed.
Lemma delegation_trx_nonneg k d : delegation_wf k d → 0 ≤ delegation_trx d.
Proof. intros []. unfold delegation_trx. lia. Qed.
Lemma order_trx_nonneg n k o : order_wf n k o → 0 ≤ order_trx o.
Proof. intros []. unfold order_trx, side_trx. case_match; lia. Qed.

Lemma burned_nonneg w : trx_wf w → 0 ≤ burned w.
Proof. intros []. apply inv_props0. not_weight. Qed.

Lemma get_account_wf a acc w : trx_wf w → get_account a w = Some acc → acc_wf acc.
Proof. intros [] E. by eapply inv_account0. Qed.

Lemma total_trx_parts w :
  trx_wf w →
  0 ≤ map_sum acc_trx (w_account w) ∧ 0 ≤ map_sum exchange_trx (w_exchange w) ∧
  0 ≤ map_sum delegation_trx (w_delegation w) ∧ 0 ≤ map_sum order_trx (w_market_order w) ∧
  0 ≤ burned w.
Proof.
  intros H. pose proof (burned_nonneg _ H). destruct H.
  repeat split; try done; apply map_sum_nonneg; (eapply map_Forall_impl; [eassumption|]);
    cbv beta; intros.
  - by apply acc_trx_nonneg.
  - by eapply exchange_trx_nonneg.
  - by eapply delegation_trx_nonneg.
  - by eapply order_trx_nonneg.
Qed.

(** What one account holds is part of the supply, together with the burned
    total and with what another account holds. *)
Lemma acc_trx_bound a acc w :
  trx_inv w → get_account a w = Some acc → 0 ≤ acc_trx acc ∧ acc_trx acc + burned w ≤ I64_MAX.
Proof.
  intros [Hw Ht] E. pose proof (get_account_wf _ _ _ Hw E) as Ha.
  pose proof (acc_trx_nonneg _ Ha). pose proof (total_trx_parts _ Hw) as Hp.
  unfold total_trx in Ht.
  assert (acc_trx acc ≤ map_sum acc_trx (w_account w)); [|lia].
  pose proof (map_sum_delete acc_trx (w_account w) a) as Hd. unfold contrib in Hd.
  unfold get_account in E. rewrite E in Hd.
  enough (0 ≤ map_sum acc_trx (delete a (w_account w))) by lia.
  apply map_sum_nonneg. intros b bacc Hb. apply lookup_delete_Some in Hb as [_ Hb].
  apply acc_trx_nonneg. by eapply (inv_account _ Hw).
Qed.

Lemma acc_trx_bound2 a b acc bcc w :
  trx_inv w → a ≠ b → get_account a w = Some acc → get_account b w = Some bcc →
  acc_trx acc + acc_trx bcc + burned w ≤ I64_MAX.
Proof.
  intros [Hw Ht] Hab Ea Eb. pose proof (total_trx_parts _ Hw) as Hp.
  unfold total_trx, get_account in *.
  assert (acc_trx acc + acc_trx bcc ≤ map_sum acc_trx (w_account w)); [|lia].
  pose proof (map_sum_delete acc_trx (w_account w) a) as Hd. unfold contrib in Hd.
  rewrite Ea in Hd.
  pose proof (map_sum_delete acc_trx (delete a (w_account w)) b) as Hd'. unfold contrib in Hd'.
  rewrite lookup_delete_ne, Eb in Hd' by done.
  enough (0 ≤ map_sum acc_trx (delete b (delete a (w_account w)))) by lia.
  apply map_sum_nonneg. intros c cacc Hc. apply lookup_delete_Some in Hc as [_ Hc].
  apply lookup_delete_Some in Hc as [_ Hc].
  apply acc_trx_nonneg. by eapply (inv_account _ Hw).
Qed.

Lemma balance_is_i64 a acc w : trx_inv w → get_account a w = Some acc → is_i64 (Account.balance acc).
Proof.
  intros Hi E. pose proof (acc_trx_bound _ _ _ Hi E). destruct Hi as [Hw _].
  pose proof (acc_trx_parts _ (get_account_wf _ _ _ Hw E)).
  pose proof (burned_nonneg _ Hw). i64_lia.
Qed.

Lemma total_trx_put_account a acc w :
  total_trx (put_account a acc w) = total_trx w - contrib acc_trx (w_account w) a + acc_trx acc.
Proof.
  unfold total_trx, burned. rewrite get_prop_put_account. unfold put_account. simpl.
  rewrite map_sum_insert. lia.
Qed.

Lemma total_trx_put_account_Some a acc acc' w :
  get_account a w = Some acc →
  total_trx (put_account a acc' w) = total_trx w - acc_trx acc + acc_trx acc'.
Proof. intros E. rewrite total_trx_put_account. unfold contrib. unfold get_account in E. by rewrite E. Qed.

Lemma total_trx_put_account_None a acc w :
  get_account a w = None → total_trx (put_account a acc w) = total_trx w + acc_trx acc.
Proof. intros E. rewrite total_trx_put_account. unfold contrib. unfold get_account in E. rewrite E. lia. Qed.

Lemma total_trx_put_prop k v w :
  k ≠ props.BURN_TRX_AMOUNT → total_trx (put_prop_i64 k v w) = total_trx w.
Proof. intros Hk. unfold total_trx, burned. rewrite get_put_prop_ne by done. done. Qed.

Lemma total_trx_burn n w :
  is_i64 (burned w + n) → total_trx (burn_trx n w) = total_trx w + n.
Proof.
  intros Hn. unfold total_trx. unfold burned at 1. rewrite burned_burn_trx.
  unfold burned, saturating_add in *. rewrite sat_i64_id by done.
  unfold burn_trx, put_prop_i64. simpl. lia.
Qed.

Lemma trx_wf_put_account a acc w : trx_wf w → acc_wf acc → trx_wf (put_account a acc w).
Proof.
  intros [] Ha. constructor; try done. unfold put_account; simpl.
  by apply map_Forall_insert_2.
Qed.

Lemma trx_wf_put_prop k v w :
  trx_wf w → k ∉ counter_keys → k ∈ weight_keys ∨ nonneg_i64 v → trx_wf (put_prop_i64 k v w).
Proof.
  intros [] Hc Hv. unfold counter_keys in Hc.
  constructor; rewrite ?get_put_prop_ne by (intros ->; set_solver); try done. intros k' Hk'.
  destruct (decide (k = k')) as [<-|Hne].
  - destruct Hv as [|Hv]; [done|]. unfold nonneg_i64 in Hv.
    rewrite get_put_prop_eq by i64_lia. lia.
  - rewrite get_put_prop_ne by done. by apply inv_props0.
Qed.

Lemma trx_wf_burn n w : trx_wf w → 0 ≤ n → trx_wf (burn_trx n w).
Proof.
  intros Hw Hn. apply trx_wf_put_prop; [done|not_weight|]. right.
  pose proof (burned_nonneg _ Hw) as Hb. unfold burned, nonneg_i64 in *. i64_lia.
Qed.

Lemma trx_wf_add_weight k d w : k ∈ weight_keys → trx_wf w → trx_wf (add_prop_i64 k d w).
Proof.
  intros Hk Hw. apply trx_wf_put_prop; [done| |by left]. revert Hk. unfold weight_keys.
  rewrite !elem_of_cons. intros Hk; destruct_or!; subst; [not_weight..|]; by apply elem_of_nil in Hk.
Qed.
Lemma total_trx_add_weight k d w : k ∈ weight_keys → total_trx (add_prop_i64 k d w) = total_trx w.
Proof.
  intros Hk. apply total_trx_put_prop. intros ->. revert Hk. not_weight.
Qed.
End Supply.

(** ** Balance updates *)

Section Balance.
Implicit Types (w : world) (a b : Address) (acc : Account.t).

(** The spendable balance of an address, 0 when it has no account. *)
Definition balance_of a w : Z :=
  match get_account a w with Some acc => Account.balance acc | None => 0 end.

Definition set_balance acc (n : Z) : Account.t := acc <| Account.balance := n |>.

Lemma acc_trx_set_balance acc n : acc_trx (set_balance acc n) = acc_trx acc - Account.balance acc + n.
Proof. unfold acc_trx, energy_frozen, set_balance. simpl. lia. Qed.

Lemma acc_wf_set_balance acc n : acc_wf acc → 0 ≤ n → acc_wf (set_balance acc n).
Proof. intros [] Hn. by constructor. Qed.

Lemma acc_wf_fresh a w : trx_wf w → acc_wf (fresh_account a w).
Proof. intros Hw. constructor; simpl; try done; first [constructor|apply map_Forall_empty]. Qed.
Lemma acc_trx_fresh a w : acc_trx (fresh_account a w) = 0.
Proof. done. Qed.

(** Adding [n] sun to the balance of an existing account. *)
Definition add_balance a (n : Z) w : world :=
  match get_account a w with
  | Some acc => put_account a (set_balance acc (Account.balance acc + n)) w
  | None => w
  end.

Lemma add_balance_Some a n acc w :
  get_account a w = Some acc →
  add_balance a n w = put_account a (set_balance acc (Account.balance acc + n)) w.
Proof. intros E. unfold add_balance. by rewrite E. Qed.

Lemma total_trx_add_balance a n w :
  is_Some (get_account a w) → total_trx (add_balance a n w) = total_trx w + n.
Proof.
  intros [acc E]. rewrite (add_balance_Some _ _ _ _ E).
  rewrite (total_trx_put_account_Some _ _ _ _ E), acc_trx_set_balance. lia.
Qed.

Lemma trx_wf_add_balance a n w :
  trx_wf w → 0 ≤ balance_of a w + n → trx_wf (add_balance a n w).
Proof.
  intros Hw Hn. unfold add_balance, balance_of in *.
  destruct (get_account a w) as [acc|] eqn:E; [|done].
  apply trx_wf_put_account; [done|]. apply acc_wf_set_balance; [|done].
  by eapply get_account_wf.
Qed.

Lemma get_account_add_balance a b n w :
  get_account b (add_balance a n w) =
  if decide (a = b) then (λ acc, set_balance acc (Account.balance acc + n)) <$> get_account b w
  else get_account b w.
Proof.
  unfold add_balance. destruct (get_account a w) as [acc|] eqn:E.
  - rewrite get_put_account. case_decide as Hab; [|done]. subst. by rewrite E.
  - case_decide as Hab; [|done]. subst. by rewrite E.
Qed.

Lemma balance_of_add_balance a b n w :
  is_Some (get_account a w) →
  balance_of b (add_balance a n w) = if decide (a = b) then balance_of b w + n else balance_of b w.
Proof.
  intros [acc E]. unfold balance_of. rewrite get_account_add_balance.
  case_decide; [|done]. subst. by rewrite E.
Qed.

Lemma burned_add_balance a n w : burned (add_balance a n w) = burned w.
Proof. unfold add_balance. by destruct (get_account a w). Qed.
Lemma get_prop_add_balance k a n w : get_prop_i64 k (add_balance a n w) = get_prop_i64 k w.
Proof. unfold add_balance. by destruct (get_account a w). Qed.

(** [if fee > 0 { state.burn_trx(fee)? }] *)
Definition burn_fee (n : Z) w : world := if 0 <? n then burn_trx n w else w.

Lemma run_burn_fee {B} n (k : () → M B) w :
  ((if 0 <? n then modify (burn_trx n) else mret ()) ≫= k) w = k () (burn_fee n w).
Proof. unfold burn_fee. by destruct (0 <? n). Qed.
Lemma get_account_burn_fee a n w : get_account a (burn_fee n w) = get_account a w.
Proof. unfold burn_fee. by destruct (0 <? n). Qed.
Lemma balance_of_burn_fee a n w : balance_of a (burn_fee n w) = balance_of a w.
Proof. unfold balance_of. by rewrite get_account_burn_fee. Qed.
Lemma trx_wf_burn_fee n w : trx_wf w → trx_wf (burn_fee n w).
Proof.
  intros. unfold burn_fee. destruct (Z.ltb_spec 0 n); [|done]. apply trx_wf_burn; [done|lia].
Qed.
Lemma total_trx_burn_fee n w :
  0 ≤ n → is_i64 (burned w + n) → total_trx (burn_fee n w) = total_trx w + n.
Proof.
  intros Hn Hi. unfold burn_fee. destruct (Z.ltb_spec 0 n); [by apply total_trx_burn|].
  assert (n = 0) as -> by lia. lia.
Qed.
Lemma get_prop_burn_fee_ne k n w :
  k ≠ props.BURN_TRX_AMOUNT → get_prop_i64 k (burn_fee n w) = get_prop_i64 k w.
Proof. intros. unfold burn_fee. destruct (0 <? n); [|done]. by apply get_put_prop_ne. Qed.
Lemma burned_burn_fee n w :
  0 ≤ n → is_i64 (burned w + n) → burned (burn_fee n w) = burned w + n.
Proof.
  intros Hn Hi. unfold burn_fee. destruct (Z.ltb_spec 0 n).
  - unfold burned in *. rewrite burned_burn_trx. by apply sat_i64_id.
  - lia.
Qed.
End Balance.

#[export] Hint Resolve trx_wf_put_account trx_wf_burn trx_wf_add_weight : world.

(** Rewriting an account without changing what it holds. *)
Lemma put_account_safe a acc acc' w :
  trx_inv w → get_account a w = Some acc → acc_wf acc' → acc_trx acc' = acc_trx acc →
  trx_wf (put_account a acc' w) ∧ total_trx (put_account a acc' w) = total_trx w.
Proof.
  intros [Hw _] E Hwf Ht. split; [by apply trx_wf_put_account|].
  rewrite (total_trx_put_account_Some _ _ _ _ E). lia.
Qed.

Lemma put_account_inv a acc acc' w :
  trx_inv w → get_account a w = Some acc → acc_wf acc' → acc_trx acc' = acc_trx acc →
  trx_inv (put_account a acc' w) ∧ total_trx (put_account a acc' w) = total_trx w.
Proof.
  intros Hi E Hwf Ht. destruct (put_account_safe _ _ _ _ Hi E Hwf Ht) as [Hw' Ht'].
  split; [|done]. split; [done|]. rewrite Ht'. apply Hi.
Qed.

Lemma put_account_comm a b acc bcc w :
  a ≠ b → put_account a acc (put_account b bcc w) = put_account b bcc (put_account a acc w).
Proof. intros Hab. unfold put_account, upd. simpl. f_equal. by apply insert_insert_ne. Qed.

(** The supply only reads accounts, exchanges, delegations, market orders and
    properties: a state that agrees on them is as good. *)
Lemma trx_frame w w' :
  w_account w' = w_account w → w_exchange w' = w_exchange w →
  w_delegation w' = w_delegation w → w_market_order w' = w_market_order w →
  w_properties w' = w_properties w →
  (trx_wf w → trx_wf w') ∧ total_trx w' = total_trx w ∧ (trx_inv w → trx_inv w').
Proof.
  intros Ha He Hd Ho Hp.
  assert (Hprop : ∀ k, get_prop_i64 k w' = get_prop_i64 k w)
    by (intros k; unfold get_prop_i64; by rewrite Hp).
  assert (Ht : total_trx w' = total_trx w).
  { unfold total_trx, burned. by rewrite Ha, He, Hd, Ho, Hprop. }
  assert (Hwf : trx_wf w → trx_wf w').
  { intros []. constructor; rewrite ?Ha, ?He, ?Hd, ?Ho, ?Hprop; try done.
    intros k Hk. rewrite Hprop. auto. }
  split_and!; [done|done|]. intros [Hw Hle]. split; [auto|]. by rewrite Ht.
Qed.

(** Setting a property that is neither the burned total nor a weight. *)
Lemma put_prop_inv k v w :
  trx_inv w → k ≠ props.BURN_TRX_AMOUNT → k ∉ counter_keys → nonneg_i64 v →
  trx_inv (put_prop_i64 k v w) ∧ total_trx (put_prop_i64 k v w) = total_trx w.
Proof.
  intros [Hw Ht] Hk Hc Hv. pose proof (total_trx_put_prop k v w Hk) as E.
  split; [|done]. split; [apply trx_wf_put_prop; auto|]. by rewrite E.
Qed.

(** Debiting an account and burning what was debited. *)
Lemma burn_from_inv a acc acc' n w :
  trx_inv w → get_account a w = Some acc → acc_wf acc' → 0 ≤ n →
  acc_trx acc' = acc_trx acc - n →
  trx_inv (burn_fee n (put_account a acc' w)) ∧
  total_trx (burn_fee n (put_account a acc' w)) = total_trx w.
Proof.
  intros Hi E Hwf Hn Ht. pose proof (proj1 Hi) as Hw.
  pose proof (acc_trx_bound _ _ _ Hi E) as [_ Hb].
  pose proof (acc_trx_nonneg _ Hwf). pose proof (burned_nonneg _ Hw).
  assert (Heq : total_trx (burn_fee n (put_account a acc' w)) = total_trx w).
  { rewrite total_trx_burn_fee; [|done|].
    - rewrite (total_trx_put_account_Some _ acc) by done. lia.
    - change (burned (put_account a acc' w)) with (burned w). i64_lia. }
  split; [|done]. split; [|rewrite Heq; apply Hi].
  apply trx_wf_burn_fee, trx_wf_put_account; done.
Qed.

(** A well-formed account with fields outside its holdings changed. *)
Ltac acc_wf_same :=
  match goal with
  | H : acc_wf _ |- acc_wf _ => destruct H; constructor; (done || (simpl; lia))
  end.

(** The runs of a contract: [E] is the equation of the run, split on its outcome. *)
Tactic Notation "apply_cases" constr(c) constr(w) :=
  unfold safe_outcome; destruct (apply_contract c w) as [[?r|?e|] ?w'] eqn:E; [..|done];
  unfold apply_contract in E; simpl in E.

(** ** A decision procedure for the invariant on concrete states *)

Section Check.
#[local] Instance acc_wf_dec a : Decision (acc_wf a).
Proof.
  refine (cast_if (decide (
    0 ≤ Account.balance a ∧ 0 ≤ Account.allowance a ∧
    Forall (λ f, 0 ≤ FreezeV2.amount f) (Account.frozen_v2 a) ∧
    NoDup (FreezeV2.type <$> Account.frozen_v2 a) ∧
    Forall (λ u, 0 ≤ UnFreezeV2.unfreeze_amount u) (Account.unfrozen_v2 a) ∧
    Forall (λ f, 0 ≤ Frozen.frozen_balance f) (Account.frozen a) ∧
    0 ≤ opt_frozen (Account.tron_power a) ∧ 0 ≤ opt_frozen (energy_frozen a) ∧
    0 ≤ Account.latest_withdraw_time a ∧
    map_Forall (λ _, nonneg_i64) (Account.asset_v2 a) ∧
    Forall (λ f, 0 ≤ Frozen.frozen_balance f) (Account.frozen_supply a)))); [by destruct_and!|].
  intros []; naive_solver.
Defined.
#[local] Instance delegation_wf_dec k d : Decision (delegation_wf k d).
Proof.
  refine (cast_if (decide (0 ≤ DelegatedResource.frozen_balance_for_bandwidth d ∧
    0 ≤ DelegatedResource.frozen_balance_for_energy d ∧
    (key_locked k = true → DelegatedResource.frozen_balance_for_bandwidth d ≠ 0 →
     DelegatedResource.expire_time_for_bandwidth d ≠ 0) ∧
    (key_locked k = true → DelegatedResource.frozen_balance_for_energy d ≠ 0 →
     DelegatedResource.expire_time_for_energy d ≠ 0)))); [by destruct_and!|].
  intros []; naive_solver.
Defined.

#[local] Instance exchange_wf_dec n k e : Decision (exchange_wf n k e).
Proof.
  refine (cast_if (decide (k = i64_to_be_bytes (Exchange.exchange_id e) ∧
    (0 < Exchange.exchange_id e ∧ Exchange.exchange_id e ≤ n) ∧
    nonneg_i64 (Exchange.first_token_balance e) ∧ nonneg_i64 (Exchange.second_token_balance e) ∧
    valid_token (Exchange.first_token_id e) = true ∧ valid_token (Exchange.second_token_id e) = true ∧
    Exchange.first_token_id e ≠ Exchange.second_token_id e))); [by destruct_and!|].
  intros []; naive_solver.
Defined.
#[local] Instance order_wf_dec n k o : Decision (order_wf n k o).
Proof.
  refine (cast_if (decide (MarketOrder.order_id o = k ∧ k = order_key (order_num k) ∧
    (0 < order_num k ∧ order_num k ≤ n) ∧ 0 < MarketOrder.sell_token_quantity o ∧
    0 < MarketOrder.buy_token_quantity o ∧ 0 ≤ MarketOrder.sell_token_quantity_remain o)));
    [by destruct_and!|].
  intros []; naive_solver.
Defined.

Definition prop_value (bs : bytes) : Z :=
  if bool_decide (length bs = 8%nat) then i64_from_be_bytes bs else 0.

(** Evaluates the invariant. *)
Definition trx_inv_b (w : world) : bool :=
  bool_decide (map_Forall (λ _, acc_wf) (w_account w)) &&
  bool_decide (map_Forall (exchange_wf (get_prop_i64 LATEST_EXCHANGE_NUM w)) (w_exchange w)) &&
  bool_decide (map_Forall delegation_wf (w_delegation w)) &&
  bool_decide (map_Forall (order_wf (get_prop_i64 MARKET_ORDER_NUM w)) (w_market_order w)) &&
  bool_decide (map_Forall (λ k bs, k ∈ weight_keys ∨ 0 ≤ prop_value bs) (w_properties w)) &&
  (total_trx w <=? I64_MAX).

Lemma trx_inv_b_sound w : trx_inv_b w = true → trx_inv w.
Proof.
  unfold trx_inv_b. intros H. bool_prop. split; [|done]. constructor; try done.
  intros k Hk. unfold get_prop_i64. destruct (w_properties w !! k) as [bs|] eqn:E; [|done].
  match goal with H : map_Forall (λ k bs, k ∈ weight_keys ∨ _) _ |- _ =>
    destruct (H _ _ E) as [|Hv]; [done|exact Hv] end.
Qed.
End Check.

(** A small concrete state, used to run the definitions. *)
Module Sample.
Definition addr (n : Z) : Address := 65 :: replicate 20 n.
Definition account (n balance : Z) : Account.t :=
  Account.default <| Account.address := addr n |> <| Account.balance := balance |>.
Definition with_accounts (l : list (Z * Z)) : world :=
  foldr (λ p w, put_account (addr p.1) (account p.1 p.2) w)
    (put_prop_i64 props.CREATE_NEW_ACCOUNT_FEE_IN_SYSTEM_CONTRACT 100000 empty_world) l.
(** Alice (1) has 50 TRX, Bob (2) has 3 TRX; creating an account costs 0.1 TRX. *)
Definition state : world := with_accounts [(1, 50000000); (2, 3000000)].
End Sample.

(** Discharge [trx_inv] of a concrete state by evaluation. *)
Ltac check_inv := apply trx_inv_b_sound; vm_compute; reflexivity.
