(* ===== verification/Transfer.v ===== *)
(** * TransferContract (crates/actuators/src/transfer.rs)

    Plain TRX transfer: the model of [TransferActuator::validate] and
    [TransferActuator::execute], the ledger update they implement, and that a
    validated transfer always executes, in one atomic step. *)

From stdpp Require Import gmap strings pretty numbers fin_maps prelude.
From S2P Require Import Prelude Types Proto State Actuator.
Open Scope Z_scope.

Module TransferActuator.

Definition TRANSFER_FEE : Z := 0.

Definition parse_address (bs : bytes) (what : string) : R Address :=
  Actuator.parse_address ("Invalid " +:+ what +:+ "!") bs.

Definition validate (c : TransferContract.t) (w : world) : R Z :=
  owner ← parse_address (TransferContract.owner_address c) "ownerAddress";
  to ← parse_address (TransferContract.to_address c) "toAddress";
  if bool_decide (owner = to) then Err (Validate "Cannot transfer TRX to yourself.") else
  owner_account ← ok_or (Validate "Validate TransferContract error, no OwnerAccount.")
    (get_account owner w);
  let amount := TransferContract.amount c in
  if amount <=? 0 then Err (Validate "Amount must be greater than 0.") else
  fee ← (if negb (account_exists to w)
         then add_i64 TRANSFER_FEE (get_prop_i64 props.CREATE_NEW_ACCOUNT_FEE_IN_SYSTEM_CONTRACT w)
         else Ok TRANSFER_FEE);
  total ← ok_or (Validate "long overflow") (checked_add amount fee);
  if Account.balance owner_account <? total
  then Err (Validate "Validate TransferContract error, balance is not sufficient.")
  else Ok fee.

Definition execute (c : TransferContract.t) : M ExecutionResult :=
  owner ← lift (parse_address (TransferContract.owner_address c) "ownerAddress");
  to ← lift (parse_address (TransferContract.to_address c) "toAddress");
  let amount := TransferContract.amount c in
  exists_ ← gets (account_exists to);
  fee ← (if negb exists_ then
           _ ← modify (create_account to);
           p ← gets (get_prop_i64 props.CREATE_NEW_ACCOUNT_FEE_IN_SYSTEM_CONTRACT);
           lift (add_i64 TRANSFER_FEE p)
         else mret TRANSFER_FEE);
  total ← lift (ok_or (Execute "long overflow") (checked_add amount fee));
  owner_account ← reads (λ w, ok_or (Execute "owner account missing") (get_account owner w));
  new_balance ← lift (ok_or (Execute "balance is not sufficient")
    (opt_filter (λ b, 0 <=? b) (checked_sub (Account.balance owner_account) total)));
  _ ← modify (put_account owner (owner_account <| Account.balance := new_balance |>));
  _ ← (if 0 <? fee then modify (burn_trx fee) else mret ());
  to_account ← reads (λ w, ok_or (Execute "to account missing") (get_account to w));
  credited ← lift (ok_or (Execute "long overflow")
    (checked_add (Account.balance to_account) amount));
  _ ← modify (put_account to (to_account <| Account.balance := credited |>));
  mret (mk_result fee).

End TransferActuator.

#[export] Instance transfer_actuator : Actuator TransferContract.t := {
  validate := TransferActuator.validate;
  execute := TransferActuator.execute;
}.

Definition transfer_wf (c : TransferContract.t) : Prop := is_i64 (TransferContract.amount c).

(** ** The ledger update a transfer means *)

(** The fee of a transfer to [to]: the account-creation fee if [to] is new. *)
Definition transfer_fee (to : Address) (w : world) : Z :=
  if account_exists to w then 0
  else get_prop_i64 props.CREATE_NEW_ACCOUNT_FEE_IN_SYSTEM_CONTRACT w.

Definition ledger_transfer (owner to : Address) (amount : Z) (w : world) : world :=
  let fee := transfer_fee to w in
  let w1 := if account_exists to w then w else create_account to w in
  let w2 := add_balance owner (- (amount + fee)) w1 in
  add_balance to amount (burn_fee fee w2).

Section Lemmas.
Implicit Types (c : TransferContract.t) (w : world).

(** What a successful validation establishes. *)
Lemma transfer_validate_inv c w f :
  TransferActuator.validate c w = Ok f →
  let owner := TransferContract.owner_address c in
  let to := TransferContract.to_address c in
  let amount := TransferContract.amount c in
  is_address owner = true ∧ is_address to = true ∧ owner ≠ to ∧
  f = transfer_fee to w ∧ 0 < amount ∧ is_i64 (amount + f) ∧
  ∃ oacc, get_account owner w = Some oacc ∧ amount + f ≤ Account.balance oacc.
Proof.
  unfold TransferActuator.validate, TransferActuator.parse_address. intros H. inv_ok.
  repeat match goal with H : parse_address _ _ = Ok _ |- _ => apply parse_address_Ok in H as [-> ?] end.
  case_bool_decide; [done|]. inv_ok.
  destruct (_ <=? 0) eqn:Ea; [done|]. inv_ok.
  destruct (_ <? _) eqn:Eb; [done|]. inv_ok. bool_prop.
  assert (f = transfer_fee (TransferContract.to_address c) w).
  { unfold transfer_fee. destruct (account_exists _ _); simpl in *; inv_ok; [done|].
    unfold TransferActuator.TRANSFER_FEE. lia. }
  subst. eauto 10.
Qed.

Lemma transfer_validate_no_panic c w : TransferActuator.validate c w = Panic → False.
Proof.
  unfold TransferActuator.validate, TransferActuator.parse_address, parse_address, mbind, res_bind, ok_or.
  intros H. repeat case_match; simplify_eq.
  unfold add_i64, TransferActuator.TRANSFER_FEE in *.
  rewrite Z.add_0_l, exact_i64_ok in * by auto with world. done.
Qed.

(** The new-account state a transfer debits from. *)
Lemma transfer_created to w :
  trx_wf w →
  let w1 := if account_exists to w then w else create_account to w in
  trx_wf w1 ∧ total_trx w1 = total_trx w ∧ is_Some (get_account to w1) ∧
  (∀ a, a ≠ to → get_account a w1 = get_account a w) ∧
  (∀ k, get_prop_i64 k w1 = get_prop_i64 k w) ∧
  (∀ a, balance_of a w1 = balance_of a w).
Proof.
  intros Hw. simpl. destruct (account_exists to w) eqn:E.
  - apply account_exists_spec in E as [acc E]. split_and!; eauto.
  - apply account_exists_false in E. unfold create_account.
    split; [apply trx_wf_put_account; [done|by apply acc_wf_fresh]|].
    split; [rewrite total_trx_put_account_None by done; rewrite acc_trx_fresh; lia|].
    split; [rewrite get_put_account_eq; eauto|].
    split; [intros a Ha; by rewrite get_put_account_ne|].
    split; [done|].
    intros a. unfold balance_of. rewrite get_put_account. case_decide; [|done].
    subst. by rewrite E.
Qed.

Lemma transfer_fee_nonneg to w : trx_wf w → 0 ≤ transfer_fee to w.
Proof.
  intros Hw. unfold transfer_fee. destruct (account_exists _ _); [lia|].
  apply (inv_props _ Hw). not_weight.
Qed.

(** Under the invariant a validated transfer executes, and does exactly the
    ledger update. *)
Lemma transfer_execute_run c w f :
  trx_inv w → TransferActuator.validate c w = Ok f →
  TransferActuator.execute c w =
  (Ok (mk_result f),
   ledger_transfer (TransferContract.owner_address c) (TransferContract.to_address c)
     (TransferContract.amount c) w).
Proof.
  intros Hi Hv. apply transfer_validate_inv in Hv.
  destruct c as [owner to amount]; simpl in *.
  destruct Hv as (Ho & Ht & Hne & Hf & Ha & Hi64 & oacc & Eo & Hbal).
  pose proof (proj1 Hi) as Hw.
  pose proof (transfer_fee_nonneg to w Hw) as Hfee. rewrite <-Hf in Hfee.
  destruct (transfer_created to w Hw) as (Hw1 & Ht1 & [tacc Et] & Hoth & Hprop & Hbal1).
  set (w1 := if account_exists to w then w else create_account to w) in *.
  unfold TransferActuator.execute, TransferActuator.parse_address.
  cbn [TransferContract.owner_address TransferContract.to_address TransferContract.amount].
  rewrite !parse_address_ok by done. run.
  assert (Hstep : (if negb (account_exists to w) then
       _ ← modify (create_account to);
       p ← gets (get_prop_i64 props.CREATE_NEW_ACCOUNT_FEE_IN_SYSTEM_CONTRACT);
       lift (add_i64 TransferActuator.TRANSFER_FEE p)
     else mret TransferActuator.TRANSFER_FEE : M Z) w = (Ok f, w1)).
  { unfold w1. unfold transfer_fee in Hf. destruct (account_exists to w); cbn [negb]; cbv iota.
    - by rewrite Hf.
    - run. unfold lift, add_i64, TransferActuator.TRANSFER_FEE, create_account.
      rewrite get_prop_put_account, Z.add_0_l, Hf, exact_i64_ok by auto with world. done. }
  run Hstep. clear Hstep.
  rewrite checked_add_ok by done. run.
  assert (Eo1 : get_account owner w1 = Some oacc) by by rewrite Hoth.
  run Eo1.
  pose proof (balance_is_i64 _ _ _ Hi Eo). rewrite debit_ok by i64_lia. run.
  rewrite run_burn_fee.
  assert (Et3 : get_account to (burn_fee f (put_account owner
    (oacc <| Account.balance := Account.balance oacc - (amount + f) |>) w1)) = Some tacc).
  { rewrite get_account_burn_fee. by rewrite get_put_account_ne. }
  run Et3.
  assert (Htb : is_i64 (Account.balance tacc + amount)).
  { pose proof (acc_trx_parts _ (get_account_wf _ _ _ Hw Eo)).
    pose proof (acc_trx_parts _ (get_account_wf _ _ _ Hw1 Et)).
    assert (Hi1 : trx_inv w1) by (split; [done|rewrite Ht1; apply Hi]).
    pose proof (acc_trx_bound2 owner to oacc tacc w1 Hi1 Hne Eo1 Et).
    pose proof (burned_nonneg _ Hw1). i64_lia. }
  rewrite checked_add_ok by done. run.
  unfold ledger_transfer. rewrite <-Hf. fold w1. cbv zeta.
  unfold add_balance at 2. rewrite Eo1.
  replace (Account.balance oacc + - (amount + f)) with (Account.balance oacc - (amount + f)) by lia.
  unfold add_balance, set_balance. rewrite Et3. done.
Qed.

(** The ledger update moves the amount, burns the fee and keeps the supply. *)
Lemma ledger_transfer_spec owner to amount w oacc :
  trx_inv w → owner ≠ to → get_account owner w = Some oacc →
  0 < amount → amount + transfer_fee to w ≤ Account.balance oacc →
  let w' := ledger_transfer owner to amount w in
  trx_wf w' ∧ total_trx w' = total_trx w ∧
  burned w' = burned w + transfer_fee to w ∧
  ∀ a, balance_of a w' =
    if decide (a = owner) then balance_of a w - amount - transfer_fee to w
    else if decide (a = to) then balance_of a w + amount
    else balance_of a w.
Proof.
  intros Hi Hne Eo Ha Hbal. pose proof (proj1 Hi) as Hw.
  pose proof (transfer_fee_nonneg to w Hw) as Hf.
  destruct (transfer_created to w Hw) as (Hw1 & Ht1 & Hto & Hoth & Hprop & Hbal1).
  unfold ledger_transfer. cbv zeta.
  set (w1 := if account_exists to w then w else create_account to w) in *.
  set (f := transfer_fee to w) in *.
  assert (Eo1 : get_account owner w1 = Some oacc) by by rewrite Hoth.
  assert (Hbo : balance_of owner w = Account.balance oacc) by (unfold balance_of; by rewrite Eo).
  set (w2 := add_balance owner (- (amount + f)) w1).
  assert (Hw2 : trx_wf w2).
  { apply trx_wf_add_balance; [done|]. rewrite Hbal1. lia. }
  assert (Hb2 : burned w2 = burned w).
  { unfold w2. rewrite burned_add_balance. apply Hprop. }
  assert (Hfb : is_i64 (burned w2 + f)).
  { rewrite Hb2. pose proof (acc_trx_bound _ _ _ Hi Eo).
    pose proof (acc_trx_parts _ (get_account_wf _ _ _ Hw Eo)).
    pose proof (burned_nonneg _ Hw). i64_lia. }
  assert (Hto2 : is_Some (get_account to (burn_fee f w2))).
  { rewrite get_account_burn_fee. unfold w2. rewrite get_account_add_balance. by case_decide. }
  assert (Hbal2 : ∀ a, balance_of a (burn_fee f w2) =
    if decide (owner = a) then balance_of a w - (amount + f) else balance_of a w).
  { intros a. rewrite balance_of_burn_fee. unfold w2.
    rewrite balance_of_add_balance, Hbal1 by eauto. case_decide; lia. }
  split_and!.
  - apply trx_wf_add_balance; [by apply trx_wf_burn_fee|].
    rewrite Hbal2. case_decide; [done|]. rewrite <-Hbal1.
    destruct Hto as [tacc Et]. unfold balance_of. rewrite Et.
    pose proof (wf_balance _ (get_account_wf _ _ _ Hw1 Et)). lia.
  - rewrite total_trx_add_balance, total_trx_burn_fee by done. unfold w2.
    rewrite total_trx_add_balance by eauto. lia.
  - rewrite burned_add_balance, burned_burn_fee by done. lia.
  - intros a. rewrite balance_of_add_balance, Hbal2 by done.
    repeat case_decide; subst; try done; lia.
Qed.

End Lemmas.

Lemma transfer_safe_outcome (c : TransferContract.t) w : trx_inv w → safe_outcome (apply_contract c w) w.
Proof.
  intros Hi. unfold apply_contract, mbind, ST_bind, reads. simpl.
  destruct (TransferActuator.validate c w) as [f|e|] eqn:Hv; [|done|done].
  rewrite (transfer_execute_run c w f Hi Hv). simpl.
  apply transfer_validate_inv in Hv as (_ & _ & Hne & -> & Ha & _ & oacc & Eo & Hb).
  destruct (ledger_transfer_spec _ _ _ _ _ Hi Hne Eo Ha Hb) as (Hw' & Ht' & _).
  split; [|done]. split; [done|]. rewrite Ht'. apply Hi.
Qed.

#[export] Instance transfer_safe : ActuatorSafe TransferContract.t := {
  contract_wf c _ := transfer_wf c;
  apply_safe c w _ := transfer_safe_outcome c w;
}.

(** ** Properties *)

(** C3: on a state satisfying the supply invariant a transfer is atomic and
    total: it never panics; if it is rejected the state is unchanged; if it is
    accepted the owner is debited the amount and the account-creation fee, the
    recipient is credited the amount, the fee is burned, every other balance is
    as before, the TRX supply is the same and the invariant still holds. *)
Theorem transfer_atomic (c : TransferContract.t) (w : world) :
  trx_inv w →
  let owner := TransferContract.owner_address c in
  let to := TransferContract.to_address c in
  let amount := TransferContract.amount c in
  match apply_contract c w with
  | (Ok r, w') =>
      fee r = transfer_fee to w ∧ trx_inv w' ∧ total_trx w' = total_trx w ∧
      burned w' = burned w + fee r ∧
      ∀ a, balance_of a w' =
        if decide (a = owner) then balance_of a w - amount - fee r
        else if decide (a = to) then balance_of a w + amount
        else balance_of a w
  | (Err _, w') => w' = w
  | (Panic, _) => False
  end.
Proof.
  intros Hi owner to amount. unfold apply_contract, mbind, ST_bind, reads. simpl.
  destruct (TransferActuator.validate c w) as [f|e|] eqn:Hv; [|done|].
  - rewrite (transfer_execute_run c w f Hi Hv). simpl.
    apply transfer_validate_inv in Hv as (_ & _ & Hne & -> & Ha & _ & oacc & Eo & Hb).
    destruct (ledger_transfer_spec _ _ _ _ _ Hi Hne Eo Ha Hb) as (Hw' & Ht' & Hb' & Hbal).
    split_and!; try done. split; [done|]. rewrite Ht'. apply Hi.
  - eapply transfer_validate_no_panic, Hv.
Qed.

(** Alice sends 5 TRX to an address that has no account yet. *)
Lemma transfer_atomic_witness :
  let c := TransferContract.mk (Sample.addr 1) (Sample.addr 9) 5000000 in
  trx_inv Sample.state ∧
  match apply_contract c Sample.state with
  | (Ok r, w') => trx_inv w' ∧ fee r = 100000 ∧ balance_of (Sample.addr 9) w' = 5000000
  | _ => False
  end.
Proof.
  intros c. assert (Hi : trx_inv Sample.state) by check_inv. split; [done|].
  pose proof (transfer_atomic c Sample.state Hi) as H.
  destruct (apply_contract c Sample.state) as [[r|e|] w'] eqn:E; vm_compute in E; try done.
  destruct H as (Hf & Hi' & _ & _ & Hb). split; [done|]. rewrite Hf, Hb. done.
Defined.
