(* ===== verification/Stake.v ===== *)
(** * Stake 2.0 (crates/actuators/src/freeze_v2.rs, cancel_unfreeze.rs,
    withdraw_unfreeze.rs)

    TRX of an account moves between its spendable balance, the [frozen_v2]
    stake of a resource, and the [unfrozen_v2] queue of stakes waiting for the
    unfreeze delay. *)

From stdpp Require Import gmap strings pretty numbers fin_maps prelude.
From S2P Require Import Prelude Types Proto State Actuator.
Open Scope Z_scope.

(** ** Constants and helpers of freeze_v2.rs *)

Definition TRX_PRECISION : Z := 1000000.
Definition FROZEN_PERIOD_MS : Z := 86400000.
Definition DEFAULT_UNFREEZE_DELAY_DAYS : Z := 14.
Definition UNFREEZE_MAX_TIMES : nat := 32.
Definition UNFREEZE_DELAY_DAYS_KEY : string := "UNFREEZE_DELAY_DAYS".
Definition ALLOW_NEW_RESOURCE_MODEL_KEY : string := "ALLOW_NEW_RESOURCE_MODEL".

(** [ResourceCode as i32]. *)
Definition BANDWIDTH : Z := 0.
Definition ENERGY : Z := 1.
Definition TRON_POWER : Z := 2.

Definition total_weight_key (resource : Z) : option string :=
  if resource =? BANDWIDTH then Some props.TOTAL_NET_WEIGHT
  else if resource =? ENERGY then Some props.TOTAL_ENERGY_WEIGHT
  else if resource =? TRON_POWER then Some props.TOTAL_TRON_POWER_WEIGHT
  else None.

(** [if let Some(key) = total_weight_key(resource) { state.add_prop_i64(key, d)? }] *)
Definition add_weight (resource d : Z) (w : world) : world :=
  match total_weight_key resource with
  | Some key => add_prop_i64 key d w
  | None => w
  end.

Definition is_type (resource : Z) (f : FreezeV2.t) : bool := FreezeV2.type f =? resource.

(** [account.frozen_v2.iter().find(|f| f.type == resource).map(|f| f.amount).unwrap_or(0)] *)
Definition frozen_amount (account : Account.t) (resource : Z) : Z :=
  default 0 (FreezeV2.amount <$> find_first (is_type resource) (Account.frozen_v2 account)).

Definition has_frozen (account : Account.t) (resource : Z) : bool :=
  existsb (λ f, is_type resource f && (0 <? FreezeV2.amount f)) (Account.frozen_v2 account).

(** ** FreezeBalanceV2Contract *)

Module FreezeBalanceV2Actuator.

Definition validate (c : FreezeBalanceV2Contract.t) (w : world) : R Z :=
  if get_prop_i64 UNFREEZE_DELAY_DAYS_KEY w <=? 0
  then Err (Validate "Not support FreezeV2 transaction, need to be opened by the committee") else
  owner ← parse_address "Invalid address" (FreezeBalanceV2Contract.owner_address c);
  owner_account ← ok_or (Validate ("Account[" +:+ hex owner +:+ "] not exists"))
    (get_account owner w);
  let frozen_balance := FreezeBalanceV2Contract.frozen_balance c in
  if frozen_balance <=? 0 then Err (Validate "frozenBalance must be positive") else
  if frozen_balance <? TRX_PRECISION
  then Err (Validate "frozenBalance must be greater than or equal to 1 TRX") else
  if Account.balance owner_account <? frozen_balance
  then Err (Validate "frozenBalance must be less than or equal to accountBalance") else
  let allow_new_resource := 0 <? get_prop_i64 ALLOW_NEW_RESOURCE_MODEL_KEY w in
  let resource := FreezeBalanceV2Contract.resource c in
  if (resource =? BANDWIDTH) || (resource =? ENERGY)
     || ((resource =? TRON_POWER) && allow_new_resource)
  then Ok 0
  else Err (Validate (if allow_new_resource
    then "ResourceCode error, valid ResourceCode[BANDWIDTH、ENERGY、TRON_POWER]"
    else "ResourceCode error, valid ResourceCode[BANDWIDTH、ENERGY]")).

Definition execute (c : FreezeBalanceV2Contract.t) : M ExecutionResult :=
  owner ← lift (parse_address "Invalid address" (FreezeBalanceV2Contract.owner_address c));
  let frozen_balance := FreezeBalanceV2Contract.frozen_balance c in
  account ← reads (λ w, ok_or (Execute "owner account missing") (get_account owner w));
  new_balance ← lift (ok_or (Execute "balance is not sufficient")
    (opt_filter (λ b, 0 <=? b) (checked_sub (Account.balance account) frozen_balance)));
  let resource := FreezeBalanceV2Contract.resource c in
  frozen_v2 ← lift (match find_first (is_type resource) (Account.frozen_v2 account) with
    | Some entry =>
        amount ← ok_or (Execute "long overflow")
          (checked_add (FreezeV2.amount entry) frozen_balance);
        Ok (replace_first (is_type resource) (entry <| FreezeV2.amount := amount |>)
              (Account.frozen_v2 account))
    | None => Ok (Account.frozen_v2 account ++ [FreezeV2.mk resource frozen_balance])
    end);
  _ ← modify (put_account owner
    (account <| Account.frozen_v2 := frozen_v2 |> <| Account.balance := new_balance |>));
  _ ← modify (add_weight resource (div_i64 frozen_balance TRX_PRECISION));
  mret (mk_result 0).

End FreezeBalanceV2Actuator.

(** ** UnfreezeBalanceV2Contract *)

Module UnfreezeBalanceV2Actuator.

Definition unfreeze_delay_ms (w : world) : R Z :=
  let days := get_prop_i64 UNFREEZE_DELAY_DAYS_KEY w in
  let days := if 0 <? days then days else DEFAULT_UNFREEZE_DELAY_DAYS in
  ok_or (Execute "long overflow") (checked_mul days FROZEN_PERIOD_MS).

Definition validate (c : UnfreezeBalanceV2Contract.t) (w : world) : R Z :=
  if get_prop_i64 UNFREEZE_DELAY_DAYS_KEY w <=? 0
  then Err (Validate "Not support UnfreezeV2 transaction, need to be opened by the committee") else
  owner ← parse_address "Invalid address" (UnfreezeBalanceV2Contract.owner_address c);
  account ← ok_or (Validate ("Account[" +:+ hex owner +:+ "] does not exist"))
    (get_account owner w);
  let allow_new_resource := 0 <? get_prop_i64 ALLOW_NEW_RESOURCE_MODEL_KEY w in
  let resource := UnfreezeBalanceV2Contract.resource c in
  _ ← (if resource =? BANDWIDTH then
         guard_or (Validate "no frozenBalance(BANDWIDTH)") (has_frozen account BANDWIDTH)
       else if resource =? ENERGY then
         guard_or (Validate "no frozenBalance(Energy)") (has_frozen account ENERGY)
       else if (resource =? TRON_POWER) && allow_new_resource then
         guard_or (Validate "no frozenBalance(TronPower)") (has_frozen account TRON_POWER)
       else Err (Validate (if allow_new_resource
         then "ResourceCode error.valid ResourceCode[BANDWIDTH、Energy、TRON_POWER]"
         else "ResourceCode error.valid ResourceCode[BANDWIDTH、Energy]")));
  let frozen_amount := frozen_amount account resource in
  let unfreeze_balance := UnfreezeBalanceV2Contract.unfreeze_balance c in
  if negb ((0 <? unfreeze_balance) && (unfreeze_balance <=? frozen_amount))
  then Err (Validate ("Invalid unfreeze_balance, [" +:+ dec unfreeze_balance +:+ "] is error")) else
  let now := get_prop_i64 props.LATEST_BLOCK_HEADER_TIMESTAMP w in
  let unfreezing_count :=
    length (filter (λ u, now < UnFreezeV2.unfreeze_expire_time u) (Account.unfrozen_v2 account)) in
  if bool_decide (UNFREEZE_MAX_TIMES ≤ unfreezing_count)%nat
  then Err (Validate "Invalid unfreeze operation, unfreezing times is over limit")
  else Ok 0.

Definition execute (c : UnfreezeBalanceV2Contract.t) : M ExecutionResult :=
  owner ← lift (parse_address "Invalid address" (UnfreezeBalanceV2Contract.owner_address c));
  let resource := UnfreezeBalanceV2Contract.resource c in
  let unfreeze_balance := UnfreezeBalanceV2Contract.unfreeze_balance c in
  now ← gets (get_prop_i64 props.LATEST_BLOCK_HEADER_TIMESTAMP);
  account ← reads (λ w, ok_or (Execute "owner account missing") (get_account owner w));
  entry ← lift (ok_or (Execute "no frozenBalance")
    (find_first (is_type resource) (Account.frozen_v2 account)));
  amount ← lift (ok_or (Execute "frozenBalance is not sufficient")
    (opt_filter (λ a, 0 <=? a) (checked_sub (FreezeV2.amount entry) unfreeze_balance)));
  let frozen_v2 := replace_first (is_type resource) (entry <| FreezeV2.amount := amount |>)
    (Account.frozen_v2 account) in
  delay ← reads unfreeze_delay_ms;
  expire_time ← lift (ok_or (Execute "long overflow") (checked_add now delay));
  _ ← modify (put_account owner
    (account <| Account.frozen_v2 := frozen_v2 |>
       <| Account.unfrozen_v2 ::= (λ l, l ++ [UnFreezeV2.mk resource unfreeze_balance expire_time]) |>));
  _ ← modify (add_weight resource (- div_i64 unfreeze_balance TRX_PRECISION));
  mret (mk_result 0).

End UnfreezeBalanceV2Actuator.

(** ** WithdrawExpireUnfreezeContract *)

Definition matured (now : Z) (u : UnFreezeV2.t) : Prop := UnFreezeV2.unfreeze_expire_time u ≤ now.
#[export] Instance matured_dec now u : Decision (matured now u).
Proof. unfold matured. apply _. Defined.

Module WithdrawExpireUnfreezeActuator.

Definition matured_total (c : WithdrawExpireUnfreezeContract.t) (w : world) : R (Address * Z) :=
  owner ← parse_address "Invalid address" (WithdrawExpireUnfreezeContract.owner_address c);
  account ← ok_or (Validate "Account does not exist") (get_account owner w);
  let now := get_prop_i64 props.LATEST_BLOCK_HEADER_TIMESTAMP w in
  total ← sum_i64 (UnFreezeV2.unfreeze_amount <$> filter (matured now) (Account.unfrozen_v2 account));
  Ok (owner, total).

Definition validate (c : WithdrawExpireUnfreezeContract.t) (w : world) : R Z :=
  p ← matured_total c w;
  if p.2 <=? 0 then Err (Validate "no unFreeze balance to withdraw") else Ok 0.

Definition execute (c : WithdrawExpireUnfreezeContract.t) : M ExecutionResult :=
  owner ← lift (parse_address "Invalid address" (WithdrawExpireUnfreezeContract.owner_address c));
  now ← gets (get_prop_i64 props.LATEST_BLOCK_HEADER_TIMESTAMP);
  account ← reads (λ w, ok_or (Execute "owner account missing") (get_account owner w));
  let matured_entries := filter (matured now) (Account.unfrozen_v2 account) in
  let remaining := filter (λ u, ¬ matured now u) (Account.unfrozen_v2 account) in
  total ← lift (sum_i64 (UnFreezeV2.unfreeze_amount <$> matured_entries));
  balance ← lift (ok_or (Execute "long overflow") (checked_add (Account.balance account) total));
  _ ← modify (put_account owner
    (account <| Account.balance := balance |> <| Account.unfrozen_v2 := remaining |>));
  mret (mk_result 0).

End WithdrawExpireUnfreezeActuator.

(** ** CancelAllUnfreezeV2Contract *)

Module CancelAllUnfreezeV2Actuator.

Definition validate (c : CancelAllUnfreezeV2Contract.t) (w : world) : R Z :=
  _ ← require_feature flags.ALLOW_CANCEL_ALL_UNFREEZE_V2
    "Not support CancelAllUnfreezeV2 transaction, need to be opened by the committee" w;
  owner ← parse_address "Invalid address" (CancelAllUnfreezeV2Contract.owner_address c);
  account ← ok_or (Validate "Account does not exist") (get_account owner w);
  if bool_decide (Account.unfrozen_v2 account = []) then
    Err (Validate "no unfreezeV2 list to cancel")
  else Ok 0.

(** The locals of the loop over the drained queue. *)
Record cancel_state := mk_cancel { cs_frozen : list FreezeV2.t; cs_refrozen : list Z; cs_withdraw : Z }.

(** One iteration. [refrozen.get_mut(type as usize)] finds no slot for a
    negative type. *)
Definition cancel_step (now : Z) (s : cancel_state) (u : UnFreezeV2.t) : R cancel_state :=
  let amount := UnFreezeV2.unfreeze_amount u in
  let ty := UnFreezeV2.type u in
  if bool_decide (matured now u) then
    withdraw ← add_i64 (cs_withdraw s) amount;
    Ok (mk_cancel (cs_frozen s) (cs_refrozen s) withdraw)
  else
    frozen ← (match find_first (is_type ty) (cs_frozen s) with
      | Some f =>
          a ← add_i64 (FreezeV2.amount f) amount;
          Ok (replace_first (is_type ty) (f <| FreezeV2.amount := a |>) (cs_frozen s))
      | None => Ok (cs_frozen s ++ [FreezeV2.mk ty amount])
      end);
    refrozen ← (match (if 0 <=? ty then cs_refrozen s !! Z.to_nat ty else None) with
      | Some slot => a ← add_i64 slot amount; Ok (<[Z.to_nat ty := a]> (cs_refrozen s))
      | None => Ok (cs_refrozen s)
      end);
    Ok (mk_cancel frozen refrozen (cs_withdraw s)).

Fixpoint cancel_loop (now : Z) (l : list UnFreezeV2.t) (s : cancel_state) : R cancel_state :=
  match l with
  | [] => Ok s
  | u :: l => s' ← cancel_step now s u; cancel_loop now l s'
  end.

(** The loop that gives the re-frozen weight back to the global totals. *)
Definition refreeze_key (ty : nat) : string :=
  match ty with
  | 0%nat => props.TOTAL_NET_WEIGHT
  | 1%nat => props.TOTAL_ENERGY_WEIGHT
  | _ => props.TOTAL_TRON_POWER_WEIGHT
  end.
Fixpoint refreeze_weights (ty : nat) (refrozen : list Z) (w : world) : world :=
  match refrozen with
  | [] => w
  | amount :: refrozen =>
      refreeze_weights (S ty) refrozen
        (if amount =? 0 then w
         else add_prop_i64 (refreeze_key ty) (div_i64 amount TRX_PRECISION) w)
  end.

Definition execute (c : CancelAllUnfreezeV2Contract.t) : M ExecutionResult :=
  owner ← lift (parse_address "Invalid address" (CancelAllUnfreezeV2Contract.owner_address c));
  now ← gets (get_prop_i64 props.LATEST_BLOCK_HEADER_TIMESTAMP);
  account ← reads (λ w, ok_or (Execute "owner account missing") (get_account owner w));
  s ← lift (cancel_loop now (Account.unfrozen_v2 account)
              (mk_cancel (Account.frozen_v2 account) [0; 0; 0] 0));
  balance ← lift (ok_or (Execute "long overflow")
    (checked_add (Account.balance account) (cs_withdraw s)));
  _ ← modify (put_account owner
    (account <| Account.unfrozen_v2 := [] |> <| Account.frozen_v2 := cs_frozen s |>
       <| Account.balance := balance |>));
  _ ← modify (refreeze_weights 0 (cs_refrozen s));
  mret (mk_result 0).

End CancelAllUnfreezeV2Actuator.

(** ** The ledger meaning of a change of stake *)

(** [x] more sun in the entry of [resource]. *)
Definition add_frozen (resource x : Z) (l : list FreezeV2.t) : list FreezeV2.t :=
  match find_first (is_type resource) l with
  | Some f => replace_first (is_type resource) (f <| FreezeV2.amount := FreezeV2.amount f + x |>) l
  | None => l ++ [FreezeV2.mk resource x]
  end.
Definition amount_of (resource : Z) (l : list FreezeV2.t) : Z :=
  default 0 (FreezeV2.amount <$> find_first (is_type resource) l).

Section AddFrozen.
Implicit Types (l : list FreezeV2.t) (r x : Z).

Lemma find_is_type r l f : find_first (is_type r) l = Some f → FreezeV2.type f = r ∧ f ∈ l.
Proof. intros [H ?]%find_first_Some. unfold is_type in H. bool_prop. done. Qed.
Lemma find_is_type_None r l :
  find_first (is_type r) l = None ↔ r ∉ FreezeV2.type <$> l.
Proof.
  rewrite find_first_None, list_elem_of_fmap, Forall_forall. unfold is_type. split.
  - intros H (f & -> & Hf). specialize (H f Hf). bool_prop. done.
  - intros H f Hf. apply Z.eqb_neq. intros <-. eauto.
Qed.

Lemma add_frozen_Some r x l f :
  find_first (is_type r) l = Some f →
  add_frozen r x l = replace_first (is_type r) (f <| FreezeV2.amount := FreezeV2.amount f + x |>) l.
Proof. intros E. unfold add_frozen. by rewrite E. Qed.
Lemma add_frozen_None r x l :
  find_first (is_type r) l = None → add_frozen r x l = l ++ [FreezeV2.mk r x].
Proof. intros E. unfold add_frozen. by rewrite E. Qed.

Lemma add_frozen_sum r x l :
  sum_list FreezeV2.amount (add_frozen r x l) = sum_list FreezeV2.amount l + x.
Proof.
  unfold add_frozen. destruct (find_first _ l) as [f|] eqn:E.
  - rewrite (sum_replace_first _ _ _ _ _ E). simpl. lia.
  - rewrite sum_list_app. simpl. lia.
Qed.
Lemma add_frozen_types r x l :
  NoDup (FreezeV2.type <$> l) → NoDup (FreezeV2.type <$> add_frozen r x l).
Proof.
  intros Hl. unfold add_frozen. destruct (find_first _ l) as [f|] eqn:E.
  - by rewrite (map_replace_first _ FreezeV2.type _ _ _ E).
  - rewrite fmap_app. apply NoDup_app. split; [done|]. split; [|apply NoDup_singleton].
    intros t Ht Ht'. apply list_elem_of_singleton in Ht' as ->.
    by apply find_is_type_None in E.
Qed.
Lemma amount_of_nonneg r l : Forall (λ f, 0 ≤ FreezeV2.amount f) l → 0 ≤ amount_of r l.
Proof.
  intros Hl. unfold amount_of. destruct (find_first _ l) as [f|] eqn:E; simpl; [|done].
  apply find_is_type in E as [_ E]. rewrite Forall_forall in Hl. auto.
Qed.
Lemma amount_of_le_sum r l :
  Forall (λ f, 0 ≤ FreezeV2.amount f) l → amount_of r l ≤ sum_list FreezeV2.amount l.
Proof.
  intros Hl. unfold amount_of. destruct (find_first _ l) as [f|] eqn:E; simpl.
  - apply find_is_type in E as [_ E]. by apply sum_list_elem.
  - by apply sum_list_nonneg.
Qed.
Lemma add_frozen_nonneg r x l :
  Forall (λ f, 0 ≤ FreezeV2.amount f) l → 0 ≤ amount_of r l + x →
  Forall (λ f, 0 ≤ FreezeV2.amount f) (add_frozen r x l).
Proof.
  unfold add_frozen, amount_of. intros Hl Hx. destruct (find_first _ l) as [f|] eqn:E; simpl in Hx.
  - by apply Forall_replace_first.
  - apply Forall_app. split; [done|]. by repeat constructor.
Qed.
Lemma find_first_replace_eq r l f y :
  find_first (is_type r) l = Some f → FreezeV2.type y = r →
  find_first (is_type r) (replace_first (is_type r) y l) = Some y.
Proof.
  intros E Hy. assert (is_type r y = true) as Hr by (unfold is_type; by apply Z.eqb_eq).
  induction l as [|z l IH]; simpl in *; [done|].
  destruct (is_type r z) eqn:Ez; simpl; [by rewrite Hr|]. rewrite Ez. auto.
Qed.
Lemma find_first_replace_ne r r' l y :
  r ≠ r' → FreezeV2.type y = r →
  find_first (is_type r') (replace_first (is_type r) y l) = find_first (is_type r') l.
Proof.
  intros Hr Hy. assert (is_type r' y = false) as Hy' by (unfold is_type; apply Z.eqb_neq; lia).
  induction l as [|z l IH]; simpl; [done|].
  destruct (is_type r z) eqn:Ez; simpl.
  - rewrite Hy'. unfold is_type in *. bool_prop.
    destruct (Z.eqb_spec (FreezeV2.type z) r'); [lia|done].
  - by rewrite IH.
Qed.
(** Only the stake of the resource changes. *)
Lemma amount_of_add_frozen r r' x l :
  amount_of r' (add_frozen r x l) = amount_of r' l + (if decide (r = r') then x else 0).
Proof.
  unfold amount_of, add_frozen. destruct (find_first (is_type r) l) as [f|] eqn:E.
  - pose proof (find_is_type _ _ _ E) as [Hf _]. case_decide as Hr.
    + subst r'. rewrite (find_first_replace_eq r l f) by done. rewrite E. simpl. lia.
    + rewrite find_first_replace_ne by done. lia.
  - rewrite find_first_app. case_decide as Hr.
    + subst r'. rewrite E. unfold is_type. simpl. rewrite Z.eqb_refl. simpl. lia.
    + destruct (find_first (is_type r') l); simpl; [lia|]. unfold is_type. simpl.
      destruct (Z.eqb_spec r r'); [done|]. simpl. lia.
Qed.
End AddFrozen.

Section Weights.
Implicit Types (w : world).
Lemma total_weight_key_weight r k : total_weight_key r = Some k → k ∈ weight_keys.
Proof. unfold total_weight_key, weight_keys. intros H. repeat case_match; simplify_eq; set_solver. Qed.
Lemma add_weight_safe r d w : trx_wf w → trx_wf (add_weight r d w).
Proof.
  intros. unfold add_weight. destruct (total_weight_key r) eqn:E; [|done].
  apply trx_wf_add_weight; [by eapply total_weight_key_weight|done].
Qed.
Lemma add_weight_total r d w : total_trx (add_weight r d w) = total_trx w.
Proof.
  unfold add_weight. destruct (total_weight_key r) eqn:E; [|done].
  apply total_trx_add_weight. by eapply total_weight_key_weight.
Qed.
Lemma get_account_add_weight a r d w : get_account a (add_weight r d w) = get_account a w.
Proof. unfold add_weight. by destruct (total_weight_key r). Qed.
Lemma refreeze_key_weight ty : CancelAllUnfreezeV2Actuator.refreeze_key ty ∈ weight_keys.
Proof. unfold weight_keys. destruct ty as [|[|ty]]; set_solver. Qed.
Lemma refreeze_safe ty l w :
  trx_wf w → trx_wf (CancelAllUnfreezeV2Actuator.refreeze_weights ty l w) ∧
  total_trx (CancelAllUnfreezeV2Actuator.refreeze_weights ty l w) = total_trx w.
Proof.
  revert ty w. induction l as [|x l IH]; intros ty w Hw; simpl; [done|].
  pose proof (refreeze_key_weight ty) as Hk.
  destruct (x =? 0); [by apply IH|].
  destruct (IH (S ty) _ (trx_wf_add_weight _ (div_i64 x TRX_PRECISION) w Hk Hw)) as [? Ht].
  split; [done|]. by rewrite Ht, total_trx_add_weight.
Qed.
Lemma get_account_refreeze a ty l w :
  get_account a (CancelAllUnfreezeV2Actuator.refreeze_weights ty l w) = get_account a w.
Proof.
  revert ty w. induction l as [|x l IH]; intros ty w; simpl; [done|]. rewrite IH.
  by destruct (x =? 0).
Qed.
End Weights.

#[export] Instance freeze_v2_actuator : Actuator FreezeBalanceV2Contract.t := {
  validate := FreezeBalanceV2Actuator.validate;
  execute := FreezeBalanceV2Actuator.execute;
}.
#[export] Instance unfreeze_v2_actuator : Actuator UnfreezeBalanceV2Contract.t := {
  validate := UnfreezeBalanceV2Actuator.validate;
  execute := UnfreezeBalanceV2Actuator.execute;
}.
#[export] Instance withdraw_expire_actuator : Actuator WithdrawExpireUnfreezeContract.t := {
  validate := WithdrawExpireUnfreezeActuator.validate;
  execute := WithdrawExpireUnfreezeActuator.execute;
}.
#[export] Instance cancel_all_actuator : Actuator CancelAllUnfreezeV2Contract.t := {
  validate := CancelAllUnfreezeV2Actuator.validate;
  execute := CancelAllUnfreezeV2Actuator.execute;
}.

(** ** What each operation does to the owner's account *)

Definition unfreeze_expiry (w : world) : Z :=
  get_prop_i64 props.LATEST_BLOCK_HEADER_TIMESTAMP w
  + get_prop_i64 UNFREEZE_DELAY_DAYS_KEY w * FROZEN_PERIOD_MS.

Definition pending_sum (P : UnFreezeV2.t → Prop) `{!∀ u, Decision (P u)} (l : list UnFreezeV2.t) : Z :=
  sum_list UnFreezeV2.unfreeze_amount (filter P l).

Definition freeze_account (r x : Z) (a : Account.t) : Account.t :=
  a <| Account.frozen_v2 ::= add_frozen r x |> <| Account.balance ::= λ b, b - x |>.
Definition unfreeze_account (r x t : Z) (a : Account.t) : Account.t :=
  a <| Account.frozen_v2 ::= add_frozen r (- x) |>
    <| Account.unfrozen_v2 ::= λ l, l ++ [UnFreezeV2.mk r x t] |>.
Definition withdraw_account (now : Z) (a : Account.t) : Account.t :=
  a <| Account.balance ::= λ b, b + pending_sum (matured now) (Account.unfrozen_v2 a) |>
    <| Account.unfrozen_v2 ::= filter (λ u, ¬ matured now u) |>.
Definition refreeze (now : Z) (l : list UnFreezeV2.t) (fs : list FreezeV2.t) : list FreezeV2.t :=
  foldl (λ fs u, add_frozen (UnFreezeV2.type u) (UnFreezeV2.unfreeze_amount u) fs) fs
    (filter (λ u, ¬ matured now u) l).
Definition cancel_account (now : Z) (a : Account.t) : Account.t :=
  a <| Account.frozen_v2 ::= refreeze now (Account.unfrozen_v2 a) |>
    <| Account.balance ::= λ b, b + pending_sum (matured now) (Account.unfrozen_v2 a) |>
    <| Account.unfrozen_v2 := [] |>.

Section Accounts.
Implicit Types a : Account.t.

Lemma freeze_account_safe r x a :
  acc_wf a → 0 ≤ x ≤ Account.balance a →
  acc_wf (freeze_account r x a) ∧ acc_trx (freeze_account r x a) = acc_trx a.
Proof.
  intros Ha Hx. pose proof (amount_of_nonneg r _ (wf_frozen_v2 _ Ha)). split.
  - destruct Ha. constructor; try done; simpl; [lia| |].
    + apply add_frozen_nonneg; [done|]. lia.
    + by apply add_frozen_types.
  - unfold acc_trx, energy_frozen. simpl. rewrite add_frozen_sum. lia.
Qed.

Lemma unfreeze_account_safe r x t a :
  acc_wf a → 0 ≤ x ≤ amount_of r (Account.frozen_v2 a) →
  acc_wf (unfreeze_account r x t a) ∧ acc_trx (unfreeze_account r x t a) = acc_trx a.
Proof.
  intros Ha Hx. split.
  - destruct Ha. constructor; try done; simpl.
    + apply add_frozen_nonneg; [done|]. lia.
    + by apply add_frozen_types.
    + apply Forall_app. split; [done|]. repeat constructor. simpl. lia.
  - unfold acc_trx, energy_frozen. simpl. rewrite add_frozen_sum, sum_list_app. simpl. lia.
Qed.

Lemma pending_sum_split now l :
  sum_list UnFreezeV2.unfreeze_amount l =
  pending_sum (matured now) l + pending_sum (λ u, ¬ matured now u) l.
Proof. unfold pending_sum. by rewrite sum_list_filter. Qed.

Lemma pending_sum_nonneg (P : UnFreezeV2.t → Prop) `{!∀ u, Decision (P u)} l :
  Forall (λ u, 0 ≤ UnFreezeV2.unfreeze_amount u) l → 0 ≤ pending_sum P l.
Proof. intros. apply sum_list_nonneg. by apply Forall_filter. Qed.

Lemma withdraw_account_safe now a :
  acc_wf a → acc_wf (withdraw_account now a) ∧ acc_trx (withdraw_account now a) = acc_trx a.
Proof.
  intros Ha. pose proof (pending_sum_nonneg (matured now) _ (wf_unfrozen_v2 _ Ha)). split.
  - destruct Ha. constructor; try done; simpl; [lia|]. by apply Forall_filter.
  - unfold acc_trx, energy_frozen. simpl.
    rewrite (pending_sum_split now (Account.unfrozen_v2 a)). unfold pending_sum. lia.
Qed.

Lemma refreeze_sum now l fs :
  sum_list FreezeV2.amount (refreeze now l fs) =
  sum_list FreezeV2.amount fs + pending_sum (λ u, ¬ matured now u) l.
Proof.
  unfold refreeze, pending_sum. generalize (filter (λ u, ¬ matured now u) l) as k. intros k.
  revert fs. induction k as [|u k IH]; intros fs; simpl; [lia|].
  rewrite IH, add_frozen_sum. lia.
Qed.
Lemma refreeze_wf now l fs :
  Forall (λ u, 0 ≤ UnFreezeV2.unfreeze_amount u) l →
  Forall (λ f, 0 ≤ FreezeV2.amount f) fs → NoDup (FreezeV2.type <$> fs) →
  Forall (λ f, 0 ≤ FreezeV2.amount f) (refreeze now l fs) ∧
  NoDup (FreezeV2.type <$> refreeze now l fs).
Proof.
  intros Hl. unfold refreeze.
  assert (Hk : Forall (λ u, 0 ≤ UnFreezeV2.unfreeze_amount u) (filter (λ u, ¬ matured now u) l))
    by by apply Forall_filter.
  revert Hk. generalize (filter (λ u, ¬ matured now u) l) as k. intros k Hk.
  revert fs. induction Hk as [|u k Hu Hk IH]; intros fs Hf Hn; simpl; [done|].
  apply IH; [|by apply add_frozen_types].
  apply add_frozen_nonneg; [done|].
  pose proof (amount_of_nonneg (UnFreezeV2.type u) _ Hf). lia.
Qed.

Lemma cancel_account_safe now a :
  acc_wf a → acc_wf (cancel_account now a) ∧ acc_trx (cancel_account now a) = acc_trx a.
Proof.
  intros Ha. pose proof (pending_sum_nonneg (matured now) _ (wf_unfrozen_v2 _ Ha)).
  destruct (refreeze_wf now (Account.unfrozen_v2 a) (Account.frozen_v2 a)
    (wf_unfrozen_v2 _ Ha) (wf_frozen_v2 _ Ha) (wf_frozen_v2_nodup _ Ha)).
  split.
  - destruct Ha. constructor; try done. simpl. lia.
  - unfold acc_trx, energy_frozen. simpl. rewrite refreeze_sum.
    rewrite (pending_sum_split now (Account.unfrozen_v2 a)). lia.
Qed.
End Accounts.

(** ** Runs *)

(** The outcome of applying one of the contracts: either an untouched state, or
    the owner's account rewritten by [f] and a change of the global totals [g]. *)
Definition applies (o : res ActuatorError ExecutionResult * world) (w : world) (owner : Address)
    (f : Account.t → Account.t) (ok : Account.t → Prop) (g : world → world) : Prop :=
  match o with
  | (Ok r, w') => fee r = 0 ∧ ∃ acc, get_account owner w = Some acc ∧ ok acc ∧
      w' = g (put_account owner (f acc) w)
  | (Err _, w') => w' = w
  | (Panic, _) => False
  end.

Section Runs.
Implicit Types w : world.

Lemma freeze_v2_run c w :
  trx_inv w →
  let r := FreezeBalanceV2Contract.resource c in
  let x := FreezeBalanceV2Contract.frozen_balance c in
  applies (apply_contract c w) w (FreezeBalanceV2Contract.owner_address c) (freeze_account r x)
    (λ acc, 0 < x ≤ Account.balance acc) (add_weight r (div_i64 x TRX_PRECISION)).
Proof.
  intros Hi r x. unfold applies.
  destruct (apply_contract c w) as [[res|e|] w'] eqn:E; unfold apply_contract in E;
    simpl in E; unfold FreezeBalanceV2Actuator.validate, FreezeBalanceV2Actuator.execute in E;
    inv_run; parse_facts; bool_prop; simplify_eq; try done.
  - split; [done|]. eexists. split; [done|]. split; [subst r x; i64_lia|].
    subst r x. unfold freeze_account, upd. simpl. by erewrite add_frozen_Some.
  - split; [done|]. eexists. split; [done|]. split; [subst r x; i64_lia|].
    subst r x. unfold freeze_account, upd. simpl. by erewrite add_frozen_None.
Qed.

Lemma unfreeze_v2_run c w :
  trx_inv w →
  let r := UnfreezeBalanceV2Contract.resource c in
  let x := UnfreezeBalanceV2Contract.unfreeze_balance c in
  applies (apply_contract c w) w (UnfreezeBalanceV2Contract.owner_address c)
    (unfreeze_account r x (unfreeze_expiry w))
    (λ acc, 0 < x ≤ amount_of r (Account.frozen_v2 acc)) (add_weight r (- div_i64 x TRX_PRECISION)).
Proof.
  intros Hi r x. unfold applies.
  destruct (apply_contract c w) as [[res|e|] w'] eqn:E; unfold apply_contract in E;
    simpl in E; unfold UnfreezeBalanceV2Actuator.validate, UnfreezeBalanceV2Actuator.execute,
      UnfreezeBalanceV2Actuator.unfreeze_delay_ms in E;
    inv_run; parse_facts; bool_prop; simplify_eq; try done; try lia.
  all: subst r x; split; [done|]; eexists; split; [done|].
  all: split; [unfold frozen_amount, amount_of in *; lia|].
  all: match goal with H : 0 < get_prop_i64 UNFREEZE_DELAY_DAYS_KEY _ |- _ =>
    rewrite (proj2 (Z.ltb_lt _ _) H) end.
  all: unfold unfreeze_account, unfreeze_expiry, upd; simpl.
  all: erewrite add_frozen_Some by done.
  all: by rewrite Z.add_opp_r.
Qed.

Lemma matured_sum_bound now a acc w :
  trx_inv w → get_account a w = Some acc →
  let l := Account.unfrozen_v2 acc in
  0 ≤ pending_sum (matured now) l ∧ 0 ≤ pending_sum (λ u, ¬ matured now u) l ∧
  sum_list FreezeV2.amount (Account.frozen_v2 acc) + pending_sum (λ u, ¬ matured now u) l
    ≤ I64_MAX ∧
  0 ≤ Account.balance acc ∧ Account.balance acc + pending_sum (matured now) l ≤ I64_MAX ∧
  pending_sum (λ u, ¬ matured now u) l ≤ I64_MAX.
Proof.
  intros Hi E l. pose proof (acc_trx_bound _ _ _ Hi E) as [_ Hb].
  destruct Hi as [Hw _]. pose proof (burned_nonneg _ Hw).
  pose proof (get_account_wf _ _ _ Hw E) as Ha.
  pose proof (acc_trx_parts _ Ha) as (? & ? & ? & ? & ? & ?).
  pose proof (pending_sum_nonneg (matured now) _ (wf_unfrozen_v2 _ Ha)).
  pose proof (pending_sum_nonneg (λ u, ¬ matured now u) _ (wf_unfrozen_v2 _ Ha)).
  pose proof (wf_tron_power _ Ha). pose proof (wf_energy _ Ha).
  subst l. unfold acc_trx in Hb.
  rewrite (pending_sum_split now (Account.unfrozen_v2 acc)) in Hb. lia.
Qed.

Lemma matured_sum now a acc w :
  trx_inv w → get_account a w = Some acc →
  sum_i64 (UnFreezeV2.unfreeze_amount <$> filter (matured now) (Account.unfrozen_v2 acc))
  = (Ok (pending_sum (matured now) (Account.unfrozen_v2 acc)) : R Z).
Proof.
  intros Hi E. destruct (matured_sum_bound now a acc w Hi E) as (? & ? & ? & ? & ? & ?).
  unfold pending_sum in *. rewrite <-sum_list_map in *. apply sum_i64_ok; [|lia].
  apply Forall_fmap. destruct Hi as [Hw _].
  pose proof (get_account_wf _ _ _ Hw E) as Ha. apply Forall_filter, (wf_unfrozen_v2 _ Ha).
Qed.

Lemma withdraw_expire_run c w :
  trx_inv w →
  let now := get_prop_i64 props.LATEST_BLOCK_HEADER_TIMESTAMP w in
  applies (apply_contract c w) w (WithdrawExpireUnfreezeContract.owner_address c)
    (withdraw_account now) (λ acc, 0 < pending_sum (matured now) (Account.unfrozen_v2 acc)) id.
Proof.
  intros Hi now. unfold applies.
  destruct (apply_contract c w) as [[res|e|] w'] eqn:E; unfold apply_contract in E;
    simpl in E; unfold WithdrawExpireUnfreezeActuator.validate, WithdrawExpireUnfreezeActuator.execute,
      WithdrawExpireUnfreezeActuator.matured_total in E;
    inv_run; parse_facts; bool_prop; simplify_eq; try done.
  all: match goal with H : get_account _ _ = Some ?a |- _ =>
    erewrite (matured_sum _ _ a) in * by done end; inv_run; try done.
  split; [done|]. eexists. split; [done|]. split; [done|]. done.
Qed.

Lemma pending_sum_cons (P : UnFreezeV2.t → Prop) `{!∀ u, Decision (P u)} u l :
  pending_sum P (u :: l) = (if decide (P u) then UnFreezeV2.unfreeze_amount u else 0) + pending_sum P l.
Proof. unfold pending_sum. rewrite filter_cons. by case_decide. Qed.
Lemma refreeze_cons now u l fs :
  refreeze now (u :: l) fs =
  if decide (matured now u) then refreeze now l fs
  else refreeze now l (add_frozen (UnFreezeV2.type u) (UnFreezeV2.unfreeze_amount u) fs).
Proof. unfold refreeze. rewrite filter_cons. by repeat case_decide. Qed.

Import CancelAllUnfreezeV2Actuator.

(** One pending entry goes back to its stake; its slot cannot overflow. *)
Lemma cancel_step_pending now u fs rf wd B :
  ¬ matured now u → 0 ≤ UnFreezeV2.unfreeze_amount u → 0 ≤ B →
  Forall (λ f, 0 ≤ FreezeV2.amount f) fs →
  sum_list FreezeV2.amount fs + UnFreezeV2.unfreeze_amount u + B ≤ I64_MAX →
  Forall (λ z, 0 ≤ z ∧ z + (UnFreezeV2.unfreeze_amount u + B) ≤ I64_MAX) rf →
  ∃ rf', cancel_step now (mk_cancel fs rf wd) u =
      Ok (mk_cancel (add_frozen (UnFreezeV2.type u) (UnFreezeV2.unfreeze_amount u) fs) rf' wd) ∧
    Forall (λ z, 0 ≤ z ∧ z + B ≤ I64_MAX) rf'.
Proof.
  intros Hm Hu HB Hfs Hs Hrf. unfold cancel_step. rewrite bool_decide_eq_false_2 by done.
  set (x := UnFreezeV2.unfreeze_amount u) in *. set (t := UnFreezeV2.type u).
  cbn [cs_frozen cs_refrozen cs_withdraw].
  assert (Hf : (match find_first (is_type t) fs with
    | Some f => a ← add_i64 (FreezeV2.amount f) x;
        Ok (replace_first (is_type t) (f <| FreezeV2.amount := a |>) fs)
    | None => Ok (fs ++ [FreezeV2.mk t x])
    end : R _) = Ok (add_frozen t x fs)).
  { unfold add_frozen. destruct (find_first _ fs) as [f|] eqn:E; [|done].
    apply find_is_type in E as [_ E]. pose proof (sum_list_elem _ _ _ Hfs E).
    rewrite Forall_forall in Hfs. specialize (Hfs f E).
    unfold add_i64, mbind, res_bind. rewrite exact_i64_ok by i64_lia. done. }
  rewrite Hf. clear Hf. cbn [mbind res_bind].
  assert (Hkeep : Forall (λ z, 0 ≤ z ∧ z + B ≤ I64_MAX) rf).
  { eapply Forall_impl; [exact Hrf|]. simpl. lia. }
  destruct (if 0 <=? t then rf !! Z.to_nat t else None) as [slot|] eqn:E.
  - destruct (0 <=? t); [|done].
    pose proof (Forall_lookup_1 _ _ _ _ Hrf E) as Hslot. simpl in Hslot.
    unfold add_i64. rewrite exact_i64_ok by i64_lia. simpl. eexists. split; [done|].
    apply Forall_insert; [done|]. lia.
  - simpl. eauto.
Qed.

Lemma cancel_loop_run now l fs rf wd :
  Forall (λ u, 0 ≤ UnFreezeV2.unfreeze_amount u) l →
  Forall (λ f, 0 ≤ FreezeV2.amount f) fs →
  Forall (λ z, 0 ≤ z ∧ z + pending_sum (λ u, ¬ matured now u) l ≤ I64_MAX) rf →
  0 ≤ wd → wd + pending_sum (matured now) l ≤ I64_MAX →
  sum_list FreezeV2.amount fs + pending_sum (λ u, ¬ matured now u) l ≤ I64_MAX →
  ∃ rf', cancel_loop now l (mk_cancel fs rf wd)
  = Ok (mk_cancel (refreeze now l fs) rf' (wd + pending_sum (matured now) l)).
Proof.
  revert fs rf wd. induction l as [|u l IH]; intros fs rf wd Hl Hfs Hrf Hwd Hwd' Hs.
  { exists rf. unfold pending_sum, refreeze. simpl. by rewrite Z.add_0_r. }
  apply Forall_cons_1 in Hl as [Hu Hl].
  pose proof (pending_sum_nonneg (matured now) _ Hl).
  pose proof (pending_sum_nonneg (λ u, ¬ matured now u) _ Hl).
  rewrite refreeze_cons. rewrite !pending_sum_cons in *. cbn [cancel_loop].
  destruct (decide (matured now u)) as [Hm|Hm]; destruct (decide (¬ matured now u)); try done.
  - unfold cancel_step. rewrite bool_decide_eq_true_2 by done. cbn [cs_frozen cs_refrozen cs_withdraw].
    unfold add_i64. rewrite exact_i64_ok by i64_lia. cbn [mbind res_bind].
    rewrite Z.add_assoc. apply IH; try done; try lia. 
  - destruct (cancel_step_pending now u fs rf wd (pending_sum (λ u, ¬ matured now u) l))
      as (rf' & -> & Hrf'); try done; try lia.
    cbn [mbind res_bind]. rewrite Z.add_0_l in *. apply IH; try done; try lia.
    + apply add_frozen_nonneg; [done|]. pose proof (amount_of_nonneg (UnFreezeV2.type u) _ Hfs). lia.
    + rewrite add_frozen_sum. lia.
Qed.

Lemma cancel_all_run c w :
  trx_inv w →
  let now := get_prop_i64 props.LATEST_BLOCK_HEADER_TIMESTAMP w in
  ∃ refrozen, applies (apply_contract c w) w (CancelAllUnfreezeV2Contract.owner_address c)
    (cancel_account now) (λ _, True) (refreeze_weights 0 refrozen).
Proof.
  intros Hi now. unfold applies.
  destruct (apply_contract c w) as [[res|e|] w'] eqn:E; unfold apply_contract in E;
    simpl in E; unfold CancelAllUnfreezeV2Actuator.validate, CancelAllUnfreezeV2Actuator.execute in E;
    inv_run; parse_facts; bool_prop; simplify_eq; try by exists [].
  all: match goal with H : get_account _ _ = Some ?a |- _ =>
    destruct (matured_sum_bound now _ _ _ Hi H) as (? & ? & ? & ? & ? & ?);
    pose proof (get_account_wf _ _ _ (proj1 Hi) H) as Ha;
    destruct (cancel_loop_run now (Account.unfrozen_v2 a) (Account.frozen_v2 a) [0;0;0] 0)
      as (rf & Hrun); try apply Ha; try lia end.
  all: try by repeat (constructor; [lia|]); constructor.
  all: subst now; rewrite Hrun in *; simplify_eq; try by exists [].
  exists rf. split; [done|]. eexists. done.
Qed.
End Runs.

(** ** The abstract staking ledger *)

(** What staking promises about an account: a spendable amount, a stake per
    resource, a queue of pending unfreezes. *)
Record stake_view := mk_view {
  free : Z; staked : Z → Z; pending : list UnFreezeV2.t }.
#[export] Instance stake_equiv : Equiv stake_view := λ a b,
  free a = free b ∧ (∀ r, staked a r = staked b r) ∧ pending a = pending b.
#[export] Instance stake_equiv_equivalence : Equivalence (≡@{stake_view}).
Proof.
  split.
  - intros a. done.
  - intros a b (H1 & H2 & H3). split_and!; [done|intros; by rewrite H2|done].
  - intros a b c (H1 & H2 & H3) (K1 & K2 & K3). split_and!; [congruence| |congruence].
    intros r. by rewrite H2, K2.
Qed.

Definition view (a : Account.t) : stake_view :=
  mk_view (Account.balance a) (λ r, amount_of r (Account.frozen_v2 a)) (Account.unfrozen_v2 a).

Inductive stake_op : Type :=
| OpFreeze (c : FreezeBalanceV2Contract.t)
| OpUnfreeze (c : UnfreezeBalanceV2Contract.t)
| OpWithdraw (c : WithdrawExpireUnfreezeContract.t)
| OpCancel (c : CancelAllUnfreezeV2Contract.t).

Definition apply_op (op : stake_op) : M ExecutionResult :=
  match op with
  | OpFreeze c => apply_contract c
  | OpUnfreeze c => apply_contract c
  | OpWithdraw c => apply_contract c
  | OpCancel c => apply_contract c
  end.
Definition op_owner (op : stake_op) : Address :=
  match op with
  | OpFreeze c => FreezeBalanceV2Contract.owner_address c
  | OpUnfreeze c => UnfreezeBalanceV2Contract.owner_address c
  | OpWithdraw c => WithdrawExpireUnfreezeContract.owner_address c
  | OpCancel c => CancelAllUnfreezeV2Contract.owner_address c
  end.

(** The specification, at time [now] with unfreezes maturing at [expiry]. *)
Definition stake_step (now expiry : Z) (op : stake_op) (v : stake_view) : stake_view :=
  match op with
  | OpFreeze c =>
      let r := FreezeBalanceV2Contract.resource c in
      let x := FreezeBalanceV2Contract.frozen_balance c in
      mk_view (free v - x) (λ r', staked v r' + (if decide (r = r') then x else 0)) (pending v)
  | OpUnfreeze c =>
      let r := UnfreezeBalanceV2Contract.resource c in
      let x := UnfreezeBalanceV2Contract.unfreeze_balance c in
      mk_view (free v) (λ r', staked v r' - (if decide (r = r') then x else 0))
        (pending v ++ [UnFreezeV2.mk r x expiry])
  | OpWithdraw _ =>
      mk_view (free v + pending_sum (matured now) (pending v)) (staked v)
        (filter (λ u, ¬ matured now u) (pending v))
  | OpCancel _ =>
      mk_view (free v + pending_sum (matured now) (pending v))
        (λ r, staked v r + pending_sum (λ u, UnFreezeV2.type u = r ∧ ¬ matured now u) (pending v)) []
  end.

#[export] Instance stake_step_proper now expiry op :
  Proper ((≡) ==> (≡)) (stake_step now expiry op).
Proof.
  intros a b (H1 & H2 & H3). destruct op; simpl; split_and!; simpl; try (intros; rewrite ?H2);
    rewrite ?H1, ?H3; done.
Qed.

Lemma amount_of_refreeze now r l fs :
  amount_of r (refreeze now l fs) =
  amount_of r fs + pending_sum (λ u, UnFreezeV2.type u = r ∧ ¬ matured now u) l.
Proof.
  revert fs. induction l as [|u l IH]; intros fs.
  { unfold refreeze, pending_sum. simpl. lia. }
  rewrite refreeze_cons, pending_sum_cons. destruct (decide (matured now u)) as [Hm|Hm].
  - rewrite IH. rewrite decide_False by (intros []; done). lia.
  - rewrite IH, amount_of_add_frozen. repeat case_decide; try (exfalso; tauto); lia.
Qed.

(** From a run that rewrites the owner's account to the promises about it. *)
Lemma applies_step o w owner f ok g (spec : stake_view → stake_view) :
  trx_inv w → applies o w owner f ok g →
  (∀ acc, acc_wf acc → ok acc → acc_wf (f acc) ∧ acc_trx (f acc) = acc_trx acc) →
  (∀ v, trx_wf v → trx_wf (g v) ∧ total_trx (g v) = total_trx v ∧
    ∀ b, get_account b (g v) = get_account b v) →
  (∀ acc, ok acc → view (f acc) ≡ spec (view acc)) →
  match o with
  | (Ok _, w') =>
      trx_inv w' ∧ total_trx w' = total_trx w ∧
      (∀ b, b ≠ owner → get_account b w' = get_account b w) ∧
      ∃ acc acc', get_account owner w = Some acc ∧ get_account owner w' = Some acc' ∧
        view acc' ≡ spec (view acc)
  | (Err _, w') => w' = w
  | (Panic, _) => False
  end.
Proof.
  intros Hi Ho Hf Hg Hspec. destruct o as [[r|e|] w']; [|done|done].
  destruct Ho as (_ & acc & E & Hok & ->).
  destruct (Hf acc) as [Ha Ht]; [by eapply get_account_wf; [apply Hi|]|done|].
  destruct (put_account_safe _ _ _ _ Hi E Ha Ht) as [Hw' Ht'].
  destruct (Hg _ Hw') as (Hgw & Hgt & Hga).
  split_and!.
  - split; [done|]. rewrite Hgt, Ht'. apply Hi.
  - lia.
  - intros b Hb. rewrite Hga. by rewrite get_put_account_ne.
  - exists acc, (f acc). rewrite Hga, get_put_account_eq. auto.
Qed.

(** Every successful staking operation is the specified step of its owner and
    touches no other account; every failed one leaves the state as it was. *)
Lemma stake_refines op w :
  trx_inv w →
  let now := get_prop_i64 props.LATEST_BLOCK_HEADER_TIMESTAMP w in
  match apply_op op w with
  | (Ok _, w') =>
      trx_inv w' ∧ total_trx w' = total_trx w ∧
      (∀ b, b ≠ op_owner op → get_account b w' = get_account b w) ∧
      ∃ acc acc', get_account (op_owner op) w = Some acc ∧ get_account (op_owner op) w' = Some acc' ∧
        view acc' ≡ stake_step now (unfreeze_expiry w) op (view acc)
  | (Err _, w') => w' = w
  | (Panic, _) => False
  end.
Proof.
  intros Hi now.
  destruct op as [c|c|c|c]; cbn [apply_op op_owner].
  - eapply applies_step; [done|by apply freeze_v2_run|..].
    + intros acc Ha Hx. simpl in Hx. apply freeze_account_safe; [done|lia].
    + intros v Hv. split_and!; [by apply add_weight_safe|apply add_weight_total|].
      intros. apply get_account_add_weight.
    + intros acc Hx. simpl. split_and!; simpl; [done| |done]. intros r. apply amount_of_add_frozen.
  - eapply applies_step; [done|by apply unfreeze_v2_run|..].
    + intros acc Ha Hx. simpl in Hx. apply unfreeze_account_safe; [done|lia].
    + intros v Hv. split_and!; [by apply add_weight_safe|apply add_weight_total|].
      intros. apply get_account_add_weight.
    + intros acc Hx. simpl. split_and!; simpl; [done| |done]. intros r.
      rewrite amount_of_add_frozen. case_decide; lia.
  - eapply applies_step; [done|by apply withdraw_expire_run|..].
    + intros acc Ha _. by apply withdraw_account_safe.
    + done.
    + done.
  - destruct (cancel_all_run c w Hi) as [rf Hrun].
    eapply applies_step; [done|exact Hrun|..].
    + intros acc Ha _. by apply cancel_account_safe.
    + intros v Hv. destruct (refreeze_safe 0 rf v Hv). split_and!; [done|done|].
      intros. apply get_account_refreeze.
    + intros acc _. split_and!; simpl; [done| |done]. intros r. apply amount_of_refreeze.
Qed.

Lemma stake_safe_outcome op w : trx_inv w → safe_outcome (apply_op op w) w.
Proof.
  intros Hi. pose proof (stake_refines op w Hi) as H. unfold safe_outcome. simpl in H.
  destruct (apply_op op w) as [[r|e|] w']; naive_solver.
Qed.

#[export] Instance freeze_v2_safe : ActuatorSafe FreezeBalanceV2Contract.t := {
  contract_wf _ _ := True; apply_safe c w _ := stake_safe_outcome (OpFreeze c) w }.
#[export] Instance unfreeze_v2_safe : ActuatorSafe UnfreezeBalanceV2Contract.t := {
  contract_wf _ _ := True; apply_safe c w _ := stake_safe_outcome (OpUnfreeze c) w }.
#[export] Instance withdraw_expire_safe : ActuatorSafe WithdrawExpireUnfreezeContract.t := {
  contract_wf _ _ := True; apply_safe c w _ := stake_safe_outcome (OpWithdraw c) w }.
#[export] Instance cancel_all_safe : ActuatorSafe CancelAllUnfreezeV2Contract.t := {
  contract_wf _ _ := True; apply_safe c w _ := stake_safe_outcome (OpCancel c) w }.

Lemma freeze_v2_owner c w r w' :
  apply_contract c w = (Ok r, w') → is_address (FreezeBalanceV2Contract.owner_address c) = true.
Proof.
  intros E. unfold apply_contract in E. simpl in E.
  unfold FreezeBalanceV2Actuator.validate, FreezeBalanceV2Actuator.execute in E.
  inv_run; by parse_facts.
Qed.

(** A withdrawal is accepted exactly when something has matured. *)
Lemma withdraw_expire_accepts c w acc :
  trx_inv w → is_address (WithdrawExpireUnfreezeContract.owner_address c) = true →
  get_account (WithdrawExpireUnfreezeContract.owner_address c) w = Some acc →
  is_Ok (apply_contract c w).1 =
    (0 <? pending_sum (matured (get_prop_i64 props.LATEST_BLOCK_HEADER_TIMESTAMP w))
       (Account.unfrozen_v2 acc)).
Proof.
  intros Hi Ho E. pose proof (withdraw_expire_run c w Hi) as Hrun. cbv zeta in Hrun.
  set (now := get_prop_i64 _ w) in *.
  destruct (apply_contract c w) as [[r|e|] w'] eqn:Ea; simpl in *; [..|done].
  - destruct Hrun as (_ & acc' & E' & Hs & _). simplify_eq. symmetry. by apply Z.ltb_lt.
  - symmetry. apply Z.ltb_ge. unfold apply_contract in Ea. simpl in Ea.
    unfold WithdrawExpireUnfreezeActuator.validate, WithdrawExpireUnfreezeActuator.execute,
      WithdrawExpireUnfreezeActuator.matured_total in Ea.
    rewrite parse_address_ok in Ea by done.
    destruct (matured_sum_bound now _ _ _ Hi E) as (? & ? & ? & ? & ? & ?).
    inv_run; simplify_eq; rewrite ?parse_address_ok in * by done; inv_run; simplify_eq;
      try (erewrite matured_sum in * by done); inv_run; bool_prop; try done.
    subst now. rewrite checked_add_ok in Ea by i64_lia. done.
Qed.

(** ** Properties *)

(** C4: the staking actuators implement the abstract staking ledger.  On a state
    satisfying the supply invariant each of the four operations either fails and
    changes nothing, or performs the specified step on its owner's spendable
    amount, stakes and queue, leaves every other account alone and preserves the
    invariant and the TRX supply; none of them panics. *)
Theorem stake_v2_refinement (op : stake_op) (w : world) :
  trx_inv w →
  match apply_op op w with
  | (Ok _, w') =>
      trx_inv w' ∧ total_trx w' = total_trx w ∧
      (∀ b, b ≠ op_owner op → get_account b w' = get_account b w) ∧
      ∃ acc acc', get_account (op_owner op) w = Some acc ∧ get_account (op_owner op) w' = Some acc' ∧
        view acc' ≡ stake_step (get_prop_i64 props.LATEST_BLOCK_HEADER_TIMESTAMP w)
          (unfreeze_expiry w) op (view acc)
  | (Err _, w') => w' = w
  | (Panic, _) => False
  end.
Proof. apply stake_refines. Qed.

(** A state where Alice has staked 5 TRX for energy and unfrozen 2 of them. *)
Definition stake_sample : world :=
  (apply_op (OpUnfreeze (UnfreezeBalanceV2Contract.mk (Sample.addr 1) 2000000 ENERGY))
    (apply_op (OpFreeze (FreezeBalanceV2Contract.mk (Sample.addr 1) 5000000 ENERGY))
      (put_prop_i64 UNFREEZE_DELAY_DAYS_KEY 14
        (put_prop_i64 flags.ALLOW_CANCEL_ALL_UNFREEZE_V2 1 Sample.state))).2).2.

Lemma stake_v2_refinement_witness :
  let op := OpCancel (CancelAllUnfreezeV2Contract.mk (Sample.addr 1)) in
  trx_inv stake_sample ∧
  match apply_op op stake_sample with
  | (Ok _, w') => total_trx w' = total_trx stake_sample ∧ total_trx w' = 53000000 ∧
      frozen_amount (default Account.default (get_account (Sample.addr 1) w')) ENERGY = 5000000
  | _ => False
  end.
Proof.
  intros op. assert (Hi : trx_inv stake_sample) by check_inv. split; [done|].
  assert (is_Ok (apply_op op stake_sample).1 = true) as Hok by by vm_compute.
  assert (total_trx stake_sample = 53000000) as Hs by by vm_compute.
  assert (frozen_amount (default Account.default
    (get_account (Sample.addr 1) (apply_op op stake_sample).2)) ENERGY = 5000000) as Hf by by vm_compute.
  pose proof (stake_v2_refinement op stake_sample Hi) as H.
  destruct (apply_op op stake_sample) as [[r|e|] w']; [|discriminate Hok|discriminate Hok].
  destruct H as (_ & Ht & _). rewrite Ht. exact (conj eq_refl (conj Hs Hf)).
Defined.

(** C32: staking is reversible: for an owner whose unfreeze queue is empty, TRX that is
    frozen for a resource, unfrozen in the same amount and withdrawn once the delay has
    passed is back in the owner's spendable balance, with the same stakes and an empty
    queue, whatever block time the withdrawal is made at; the unfreeze delay cannot be
    skipped, a withdrawal before the expiry is refused and changes nothing. *)
Theorem stake_cycle (cf : FreezeBalanceV2Contract.t) (cu : UnfreezeBalanceV2Contract.t)
    (cw : WithdrawExpireUnfreezeContract.t) (w w1 w2 : world) r1 r2 acc t :
  trx_inv w → get_account (FreezeBalanceV2Contract.owner_address cf) w = Some acc →
  Account.unfrozen_v2 acc = [] →
  UnfreezeBalanceV2Contract.owner_address cu = FreezeBalanceV2Contract.owner_address cf →
  WithdrawExpireUnfreezeContract.owner_address cw = FreezeBalanceV2Contract.owner_address cf →
  UnfreezeBalanceV2Contract.resource cu = FreezeBalanceV2Contract.resource cf →
  UnfreezeBalanceV2Contract.unfreeze_balance cu = FreezeBalanceV2Contract.frozen_balance cf →
  apply_contract cf w = (Ok r1, w1) → apply_contract cu w1 = (Ok r2, w2) → nonneg_i64 t →
  let w3 := put_prop_i64 props.LATEST_BLOCK_HEADER_TIMESTAMP t w2 in
  match apply_contract cw w3 with
  | (Ok _, w4) => unfreeze_expiry w1 ≤ t ∧
      ∃ acc4, get_account (FreezeBalanceV2Contract.owner_address cf) w4 = Some acc4 ∧
        view acc4 ≡ view acc
  | (Err _, w4) => t < unfreeze_expiry w1 ∧ w4 = w3
  | (Panic, _) => False
  end.
Proof.
  intros Hi E Hp Eu Ew Er Ex H1 H2 Ht w3.
  pose proof (freeze_v2_owner _ _ _ _ H1) as Ho.
  pose proof (stake_refines (OpFreeze cf) w Hi) as S1. cbn [apply_op op_owner] in S1.
  rewrite H1 in S1. destruct S1 as (Hi1 & _ & _ & a & a1 & Ea & Ea1 & V1). simplify_eq.
  pose proof (stake_refines (OpUnfreeze cu) w1 Hi1) as S2. cbn [apply_op op_owner] in S2.
  rewrite H2, Eu in S2. destruct S2 as (Hi2 & _ & _ & b & a2 & Eb & Ea2 & V2). simplify_eq.
  rewrite V1 in V2. destruct V2 as (Hf2 & Hs2 & Hp2). simpl in Hf2, Hs2, Hp2.
  rewrite Hp, Er, Ex, app_nil_l in Hp2. rewrite Ex, Er in Hs2.
  assert (Hi3 : trx_inv w3).
  { unfold w3. split; [apply trx_wf_put_prop; [apply Hi2|not_weight|by right]|].
    rewrite total_trx_put_prop by done. apply Hi2. }
  assert (Hnow : get_prop_i64 props.LATEST_BLOCK_HEADER_TIMESTAMP w3 = t).
  { unfold w3, nonneg_i64 in *. apply get_put_prop_eq. i64_lia. }
  pose proof (freeze_v2_run cf w Hi) as Hx. cbv zeta in Hx. rewrite H1 in Hx.
  destruct Hx as (_ & ? & _ & Hx & _). clear H1 H2.
  assert (Ea3 : get_account (WithdrawExpireUnfreezeContract.owner_address cw) w3 = Some a2)
    by (rewrite Ew; exact Ea2).
  pose proof (withdraw_expire_accepts cw w3 a2 Hi3 ltac:(by rewrite Ew) Ea3) as Hacc.
  rewrite Hnow, Hp2 in Hacc. unfold pending_sum in Hacc. rewrite filter_cons in Hacc.
  pose proof (stake_refines (OpWithdraw cw) w3 Hi3) as S3. cbn [apply_op op_owner] in S3.
  rewrite Hnow in S3.
  destruct (apply_contract cw w3) as [[r|e|] w4]; simpl in Hacc; [..|done].
  - destruct S3 as (_ & _ & _ & b & a4 & Eb' & Ea4 & V4).
    rewrite Ew in Eb', Ea4. simplify_eq.
    destruct (decide (matured t _)) as [Hm|]; [|done]. split; [exact Hm|].
    exists a4. split; [done|]. rewrite V4. simpl. split_and!; simpl.
    + rewrite Hf2, Hp2. unfold pending_sum. rewrite filter_cons, decide_True by done. simpl. lia.
    + intros r'. rewrite Hs2. case_decide; lia.
    + rewrite Hp2, Hp, filter_cons, decide_False by tauto. done.
  - split; [|done]. destruct (decide (matured t _)) as [Hm|Hm]; [|unfold matured in Hm; simpl in Hm; lia].
    simpl in Hacc. symmetry in Hacc. bool_prop. lia.
Qed.

Module CycleSample.
Definition w : world := put_prop_i64 UNFREEZE_DELAY_DAYS_KEY 14 Sample.state.
Definition cf := FreezeBalanceV2Contract.mk (Sample.addr 1) 5000000 ENERGY.
Definition cu := UnfreezeBalanceV2Contract.mk (Sample.addr 1) 5000000 ENERGY.
Definition cw := WithdrawExpireUnfreezeContract.mk (Sample.addr 1).
Definition w1 : world := (apply_contract cf w).2.
Definition w2 : world := (apply_contract cu w1).2.
(** 20 days later. *)
Definition t : Z := 20 * FROZEN_PERIOD_MS.
Definition w3 : world := put_prop_i64 props.LATEST_BLOCK_HEADER_TIMESTAMP t w2.
End CycleSample.

Lemma stake_cycle_witness :
  trx_inv CycleSample.w ∧
  ∃ acc, get_account (Sample.addr 1) (apply_contract CycleSample.cw CycleSample.w3).2 = Some acc ∧
    view acc ≡ view (Sample.account 1 50000000).
Proof.
  assert (Hi : trx_inv CycleSample.w) by check_inv. split; [exact Hi|].
  pose proof (stake_cycle CycleSample.cf CycleSample.cu CycleSample.cw CycleSample.w CycleSample.w1
    CycleSample.w2 (mk_result 0) (mk_result 0) (Sample.account 1 50000000) CycleSample.t Hi
    ltac:(vm_compute; reflexivity) eq_refl eq_refl eq_refl eq_refl eq_refl
    ltac:(vm_compute; reflexivity) ltac:(vm_compute; reflexivity)
    ltac:(unfold nonneg_i64; vm_compute; split; discriminate)) as H.
  cbv zeta in H. fold CycleSample.w3 in H.
  assert (is_Ok (apply_contract CycleSample.cw CycleSample.w3).1 = true) as Hok by by vm_compute.
  destruct (apply_contract CycleSample.cw CycleSample.w3) as [[r|e|] w'];
    [|discriminate Hok|discriminate Hok].
  exact (proj2 H).
Defined.
