(* ===== verification/StakeV1.v ===== *)
(** * Stake 1.0 (crates/actuators/src/freeze_v1.rs)

    The legacy staking pair.  TRX frozen for bandwidth, energy or TRON power is
    held in three different fields of the account with an expiry time; unfreezing
    returns what has expired. *)

From stdpp Require Import gmap strings pretty numbers fin_maps prelude.
From S2P Require Import Prelude Types Proto State Actuator Stake.
Open Scope Z_scope.

Definition MIN_FROZEN_TIME_KEY : string := "MIN_FROZEN_TIME".
Definition MAX_FROZEN_TIME_KEY : string := "MAX_FROZEN_TIME".
Definition DEFAULT_MIN_FROZEN_TIME : Z := 3.
Definition DEFAULT_MAX_FROZEN_TIME : Z := 3.

Definition weight_key (resource : Z) : string :=
  if resource =? ENERGY then props.TOTAL_ENERGY_WEIGHT
  else if resource =? TRON_POWER then props.TOTAL_TRON_POWER_WEIGHT
  else props.TOTAL_NET_WEIGHT.

Definition frozen_balance (account : Account.t) (resource : Z) : R Z :=
  if resource =? ENERGY then
    Ok (default 0 (Frozen.frozen_balance <$>
          (Account.account_resource account ≫= AccountResource.frozen_balance_for_energy)))
  else if resource =? TRON_POWER then
    Ok (default 0 (Frozen.frozen_balance <$> Account.tron_power account))
  else sum_i64 (Frozen.frozen_balance <$> Account.frozen account).

Definition set_frozen (account : Account.t) (resource balance expire_time : Z) : Account.t :=
  let frozen := Frozen.mk balance expire_time in
  if resource =? ENERGY then
    let res := default AccountResource.default (Account.account_resource account) in
    account <| Account.account_resource :=
      Some (res <| AccountResource.frozen_balance_for_energy := Some frozen |>) |>
  else if resource =? TRON_POWER then account <| Account.tron_power := Some frozen |>
  else account <| Account.frozen := [frozen] |>.

(** ** FreezeBalanceContract *)

Module FreezeBalanceActuator.
Definition frozen_time_bounds (w : world) : Z * Z :=
  let min := get_prop_i64 MIN_FROZEN_TIME_KEY w in
  let max := get_prop_i64 MAX_FROZEN_TIME_KEY w in
  (if 0 <? min then min else DEFAULT_MIN_FROZEN_TIME,
   if 0 <? max then max else DEFAULT_MAX_FROZEN_TIME).

Definition validate (c : FreezeBalanceContract.t) (w : world) : R Z :=
  owner ← parse_address "Invalid address" (FreezeBalanceContract.owner_address c);
  if negb (bool_decide (FreezeBalanceContract.receiver_address c = []))
  then Err (Validate "delegated V1 freeze (receiver) is not supported") else
  account ← ok_or (Validate ("Account[" +:+ hex owner +:+ "] not exists")) (get_account owner w);
  let frozen := FreezeBalanceContract.frozen_balance c in
  if frozen <=? 0 then Err (Validate "frozenBalance must be positive") else
  if frozen <? TRX_PRECISION
  then Err (Validate "frozenBalance must be greater than or equal to 1 TRX") else
  if Account.balance account <? frozen
  then Err (Validate "frozenBalance must be less than or equal to accountBalance") else
  let min := (frozen_time_bounds w).1 in
  let max := (frozen_time_bounds w).2 in
  let duration := FreezeBalanceContract.frozen_duration c in
  if negb ((min <=? duration) && (duration <=? max))
  then Err (Validate ("frozenDuration must be less than " +:+ dec max +:+ " days and more than "
                      +:+ dec min +:+ " days")) else
  let allow_new := 0 <? get_prop_i64 ALLOW_NEW_RESOURCE_MODEL_KEY w in
  let resource := FreezeBalanceContract.resource c in
  if (resource =? BANDWIDTH) || (resource =? ENERGY) || ((resource =? TRON_POWER) && allow_new)
  then Ok 0
  else Err (Validate (if allow_new
    then "ResourceCode error, valid ResourceCode[BANDWIDTH、ENERGY、TRON_POWER]"
    else "ResourceCode error, valid ResourceCode[BANDWIDTH、ENERGY]")).

Definition execute (c : FreezeBalanceContract.t) : M ExecutionResult :=
  owner ← lift (parse_address "Invalid address" (FreezeBalanceContract.owner_address c));
  let resource := FreezeBalanceContract.resource c in
  let frozen := FreezeBalanceContract.frozen_balance c in
  now ← gets (get_prop_i64 props.LATEST_BLOCK_HEADER_TIMESTAMP);
  expire_time ← lift (ok_or (Execute "long overflow")
    (checked_add now (saturating_mul (FreezeBalanceContract.frozen_duration c) FROZEN_PERIOD_MS)));
  account ← reads (λ w, ok_or (Execute "owner account missing") (get_account owner w));
  old ← lift (frozen_balance account resource);
  new ← lift (ok_or (Execute "long overflow") (checked_add old frozen));
  balance ← lift (ok_or (Execute "balance is not sufficient")
    (opt_filter (λ b, 0 <=? b) (checked_sub (Account.balance account) frozen)));
  _ ← modify (put_account owner
    (set_frozen (account <| Account.balance := balance |>) resource new expire_time));
  increment ← lift (sub_i64 (div_i64 new TRX_PRECISION) (div_i64 old TRX_PRECISION));
  _ ← modify (add_prop_i64 (weight_key resource) increment);
  mret (mk_result 0).
End FreezeBalanceActuator.

(** ** UnfreezeBalanceContract *)

Module UnfreezeBalanceActuator.
Definition expired (now : Z) (f : Frozen.t) : bool := Frozen.expire_time f <=? now.

(** The check of the single-entry fields (energy, TRON power). *)
Definition check_entry (none early : string) (now : Z) (f : option Frozen.t) : R () :=
  match f with
  | Some f =>
      if 0 <? Frozen.frozen_balance f then
        if now <? Frozen.expire_time f then Err (Validate early) else Ok ()
      else Err (Validate none)
  | None => Err (Validate none)
  end.

Definition validate (c : UnfreezeBalanceContract.t) (w : world) : R Z :=
  owner ← parse_address "Invalid address" (UnfreezeBalanceContract.owner_address c);
  if negb (bool_decide (UnfreezeBalanceContract.receiver_address c = []))
  then Err (Validate "delegated V1 unfreeze (receiver) is not supported") else
  account ← ok_or (Validate ("Account[" +:+ hex owner +:+ "] does not exist")) (get_account owner w);
  let now := get_prop_i64 props.LATEST_BLOCK_HEADER_TIMESTAMP w in
  let resource := UnfreezeBalanceContract.resource c in
  _ ← (if resource =? BANDWIDTH then
         if bool_decide (Account.frozen account = [])
         then Err (Validate "no frozenBalance(BANDWIDTH)") else
         if negb (existsb (expired now) (Account.frozen account))
         then Err (Validate "It's not time to unfreeze(BANDWIDTH).") else Ok ()
       else if resource =? ENERGY then
         check_entry "no frozenBalance(Energy)" "It's not time to unfreeze(Energy)." now
           (Account.account_resource account ≫= AccountResource.frozen_balance_for_energy)
       else if resource =? TRON_POWER then
         check_entry "no frozenBalance(TronPower)" "It's not time to unfreeze(TronPower)." now
           (Account.tron_power account)
       else Err (Validate "ResourceCode error, valid ResourceCode[BANDWIDTH、ENERGY]"));
  Ok 0.

(** The matured amount, and the account with it cleared. *)
Definition take_matured (resource now : Z) (account : Account.t) : R (Z * Account.t) :=
  if resource =? BANDWIDTH then
    let matured := filter (λ f, expired now f = true) (Account.frozen account) in
    let remaining := filter (λ f, expired now f = false) (Account.frozen account) in
    amount ← sum_i64 (Frozen.frozen_balance <$> matured);
    Ok (amount, account <| Account.frozen := remaining |>)
  else if resource =? ENERGY then
    let res := default AccountResource.default (Account.account_resource account) in
    let amount := default 0
      (Frozen.frozen_balance <$> AccountResource.frozen_balance_for_energy res) in
    Ok (amount, account <| Account.account_resource :=
      Some (res <| AccountResource.frozen_balance_for_energy := None |>) |>)
  else if resource =? TRON_POWER then
    Ok (default 0 (Frozen.frozen_balance <$> Account.tron_power account),
        account <| Account.tron_power := None |>)
  else Ok (0, account).

Definition execute (c : UnfreezeBalanceContract.t) : M ExecutionResult :=
  owner ← lift (parse_address "Invalid address" (UnfreezeBalanceContract.owner_address c));
  let resource := UnfreezeBalanceContract.resource c in
  now ← gets (get_prop_i64 props.LATEST_BLOCK_HEADER_TIMESTAMP);
  account ← reads (λ w, ok_or (Execute "owner account missing") (get_account owner w));
  old ← lift (frozen_balance account resource);
  p ← lift (take_matured resource now account);
  balance ← lift (ok_or (Execute "long overflow") (checked_add (Account.balance account) p.1));
  let account := p.2 <| Account.balance := balance |> in
  _ ← modify (put_account owner account);
  new ← lift (frozen_balance account resource);
  decrease ← lift (sub_i64 (div_i64 new TRX_PRECISION) (div_i64 old TRX_PRECISION));
  _ ← modify (add_prop_i64 (weight_key resource) decrease);
  mret (mk_result 0).
End UnfreezeBalanceActuator.

#[export] Instance freeze_v1_actuator : Actuator FreezeBalanceContract.t := {
  validate := FreezeBalanceActuator.validate; execute := FreezeBalanceActuator.execute }.
#[export] Instance unfreeze_v1_actuator : Actuator UnfreezeBalanceContract.t := {
  validate := UnfreezeBalanceActuator.validate; execute := UnfreezeBalanceActuator.execute }.

(** ** The stake of a resource *)

Definition v1_stake (resource : Z) (acc : Account.t) : Z :=
  if resource =? ENERGY then opt_frozen (energy_frozen acc)
  else if resource =? TRON_POWER then opt_frozen (Account.tron_power acc)
  else sum_list Frozen.frozen_balance (Account.frozen acc).

Section V1.
Implicit Types (acc : Account.t) (r now : Z).

Lemma v1_stake_bound r acc : acc_wf acc → 0 ≤ v1_stake r acc ∧ Account.balance acc + v1_stake r acc ≤ acc_trx acc.
Proof.
  intros H. pose proof (acc_trx_parts _ H). destruct H. unfold v1_stake, acc_trx in *.
  destruct (r =? ENERGY); [lia|]. destruct (r =? TRON_POWER); lia.
Qed.

Lemma opt_frozen_default (o : option Frozen.t) :
  default 0 (Frozen.frozen_balance <$> o) = opt_frozen o.
Proof. by destruct o. Qed.
Lemma energy_frozen_bind acc :
  Account.account_resource acc ≫= AccountResource.frozen_balance_for_energy = energy_frozen acc.
Proof. unfold energy_frozen. by destruct (Account.account_resource acc). Qed.

Lemma frozen_balance_run r acc :
  acc_wf acc → acc_trx acc ≤ I64_MAX → frozen_balance acc r = Ok (v1_stake r acc).
Proof.
  intros H Hb. pose proof (v1_stake_bound r _ H). pose proof (acc_trx_parts _ H).
  unfold frozen_balance, v1_stake in *. rewrite energy_frozen_bind, !opt_frozen_default.
  destruct (r =? ENERGY); [done|]. destruct (r =? TRON_POWER); [done|].
  rewrite sum_i64_ok; rewrite ?sum_list_map; [done| |lia].
  apply Forall_fmap. apply wf_frozen in H. done.
Qed.

Lemma set_frozen_trx acc r b t :
  acc_trx (set_frozen acc r b t) = acc_trx acc - v1_stake r acc + b.
Proof.
  unfold set_frozen, v1_stake, acc_trx, energy_frozen.
  destruct (r =? ENERGY); [simpl; lia|]. destruct (r =? TRON_POWER); simpl; lia.
Qed.
Lemma set_frozen_wf acc r b t : acc_wf acc → 0 ≤ b → acc_wf (set_frozen acc r b t).
Proof.
  intros [] Hb. unfold set_frozen.
  destruct (r =? ENERGY); [by constructor|]. destruct (r =? TRON_POWER); constructor; try done.
  simpl. by repeat constructor.
Qed.

(** The amount [take_matured] returns is taken from the stake of the resource. *)
Lemma take_matured_run r now acc :
  acc_wf acc → acc_trx acc ≤ I64_MAX →
  ∃ x acc', UnfreezeBalanceActuator.take_matured r now acc = Ok (x, acc') ∧
    0 ≤ x ≤ v1_stake r acc ∧ acc_wf acc' ∧ acc_trx acc' = acc_trx acc - x ∧
    Account.balance acc' = Account.balance acc.
Proof.
  intros H Hb. pose proof (v1_stake_bound r _ H) as Hs. pose proof (v1_stake_bound BANDWIDTH _ H) as Hs0.
  unfold UnfreezeBalanceActuator.take_matured, v1_stake in *.
  destruct (Z.eqb_spec r BANDWIDTH) as [->|].
  - simpl in Hs |- *.
    pose proof (sum_list_filter Frozen.frozen_balance
      (λ f, UnfreezeBalanceActuator.expired now f = true) (Account.frozen acc)) as Hf.
    rewrite (list_filter_iff (λ x, ¬ _) (λ f, UnfreezeBalanceActuator.expired now f = false)) in Hf
      by (intros; by rewrite not_true_iff_false).
    pose proof (sum_list_nonneg Frozen.frozen_balance _
      (Forall_filter _ (λ f, UnfreezeBalanceActuator.expired now f = true) _ (wf_frozen _ H))).
    pose proof (sum_list_nonneg Frozen.frozen_balance _
      (Forall_filter _ (λ f, UnfreezeBalanceActuator.expired now f = false) _ (wf_frozen _ H))).
    pose proof (acc_trx_parts _ H). unfold mbind, res_bind. rewrite sum_i64_ok.
    + eexists _, _. split; [done|]. rewrite sum_list_map. split; [lia|].
      split; [|split; [unfold acc_trx, energy_frozen; simpl; lia|done]].
      destruct H. constructor; try done. by apply Forall_filter.
    + apply Forall_fmap. apply (Forall_filter _ _ _ (wf_frozen _ H)).
    + rewrite sum_list_map. lia.
  - destruct (Z.eqb_spec r ENERGY) as [->|].
    + eexists _, _. split; [done|]. unfold acc_trx, energy_frozen in *. simpl.
      pose proof (wf_energy _ H) as He. unfold energy_frozen in He.
      destruct (Account.account_resource acc) as [rs|]; simpl in *; rewrite ?opt_frozen_default.
      all: split; [lia|]; split; [|split; [lia|done]]; destruct H; constructor; done.
    + destruct (Z.eqb_spec r TRON_POWER) as [->|].
      * eexists _, _. split; [done|]. rewrite opt_frozen_default.
        unfold acc_trx, energy_frozen. simpl. split; [simpl in Hs; lia|].
        split; [|split; [lia|done]]. destruct H; constructor; done.
      * eexists _, _. split; [done|]. split; [lia|]. split; [done|]. split; [lia|done].
Qed.

Lemma weight_key_weight r : weight_key r ∈ weight_keys.
Proof. unfold weight_key, weight_keys. repeat case_match; set_solver. Qed.
End V1.

(** ** The runs *)

Definition v1_resource (r : Z) : Prop := r = BANDWIDTH ∨ r = ENERGY ∨ r = TRON_POWER.

(** The account after a freeze: the stake of the resource is one entry. *)
Definition freeze_v1_account (c : FreezeBalanceContract.t) (now : Z) (acc : Account.t) : Account.t :=
  let r := FreezeBalanceContract.resource c in
  let x := FreezeBalanceContract.frozen_balance c in
  set_frozen (set_balance acc (Account.balance acc - x)) r (v1_stake r acc + x)
    (now + saturating_mul (FreezeBalanceContract.frozen_duration c) FROZEN_PERIOD_MS).

Definition weight_change (old new : Z) : Z := div_i64 new TRX_PRECISION - div_i64 old TRX_PRECISION.

Lemma weight_change_i64 old new :
  0 ≤ old ≤ I64_MAX → 0 ≤ new ≤ I64_MAX → is_i64 (weight_change old new).
Proof.
  intros Ho Hn. unfold weight_change, div_i64, TRX_PRECISION.
  rewrite !Z.quot_div_nonneg by lia.
  assert (0 ≤ old / 1000000 ≤ old) by (split; [apply Z.div_pos; lia|apply Z.div_le_upper_bound; lia]).
  assert (0 ≤ new / 1000000 ≤ new) by (split; [apply Z.div_pos; lia|apply Z.div_le_upper_bound; lia]).
  i64_lia.
Qed.

Lemma freeze_v1_run (c : FreezeBalanceContract.t) w :
  trx_inv w →
  let owner := FreezeBalanceContract.owner_address c in
  let r := FreezeBalanceContract.resource c in
  let x := FreezeBalanceContract.frozen_balance c in
  let now := get_prop_i64 props.LATEST_BLOCK_HEADER_TIMESTAMP w in
  match apply_contract c w with
  | (Ok _, w') => is_address owner = true ∧ v1_resource r ∧
      ∃ acc, get_account owner w = Some acc ∧ 0 < x ≤ Account.balance acc ∧
        is_i64 (now + saturating_mul (FreezeBalanceContract.frozen_duration c) FROZEN_PERIOD_MS) ∧
        w' = add_prop_i64 (weight_key r) (weight_change (v1_stake r acc) (v1_stake r acc + x))
               (put_account owner (freeze_v1_account c now acc) w)
  | (Err _, w') => w' = w
  | (Panic, _) => False
  end.
Proof.
  intros Hi owner r x now. rewrite apply_contract_eq. simpl.
  destruct (FreezeBalanceActuator.validate c w) as [v|e|] eqn:Ev; [|done|].
  2:{ unfold FreezeBalanceActuator.validate in Ev. inv_run; by parse_facts. }
  unfold FreezeBalanceActuator.validate in Ev.
  assert (Hf : is_address owner = true ∧ v1_resource r ∧
    ∃ acc, get_account owner w = Some acc ∧ 0 < x ≤ Account.balance acc).
  { inv_run; parse_facts; bool_prop. unfold v1_resource, x, r, owner in *.
    split; [done|]. split; [|eexists; split; [done|lia]].
    repeat match goal with H : orb _ _ = true |- _ => apply orb_true_iff in H as [H|H]; bool_prop end; auto. }
  clear Ev. destruct Hf as (Ho & Hr & acc & Ea & Hx).
  pose proof (get_account_wf _ _ _ (proj1 Hi) Ea) as Hwf.
  pose proof (acc_trx_bound _ _ _ Hi Ea) as [_ Hb]. pose proof (burned_nonneg _ (proj1 Hi)).
  pose proof (v1_stake_bound r _ Hwf) as Hs.
  unfold FreezeBalanceActuator.execute. fold owner r x. cbv zeta.
  rewrite parse_address_ok by done. run. fold now.
  destruct (checked_add now _) as [t|] eqn:Et; [|done]. apply checked_add_Some in Et as [-> Ht].
  simpl. run. rewrite (run_reads_some _ _ _ _ _ Ea). run.
  rewrite frozen_balance_run by (done || lia). run.
  rewrite checked_add_ok by i64_lia. run. rewrite debit_ok by i64_lia. run.
  unfold sub_i64. rewrite exact_i64_ok by (apply weight_change_i64; lia). run.
  split; [done|]. split; [done|]. exists acc. done.
Qed.

Lemma unfreeze_v1_run (c : UnfreezeBalanceContract.t) w :
  trx_inv w →
  let owner := UnfreezeBalanceContract.owner_address c in
  let r := UnfreezeBalanceContract.resource c in
  let now := get_prop_i64 props.LATEST_BLOCK_HEADER_TIMESTAMP w in
  match apply_contract c w with
  | (Ok _, w') => is_Ok (validate c w) = true ∧ is_address owner = true ∧ v1_resource r ∧
      ∃ acc x acc' d, get_account owner w = Some acc ∧
        UnfreezeBalanceActuator.take_matured r now acc = Ok (x, acc') ∧
        w' = add_prop_i64 (weight_key r) d
               (put_account owner (set_balance acc' (Account.balance acc + x)) w)
  | (Err _, w') => is_Ok (validate c w) = false ∧ w' = w
  | (Panic, _) => False
  end.
Proof.
  intros Hi owner r now. rewrite apply_contract_eq. simpl.
  destruct (UnfreezeBalanceActuator.validate c w) as [v|e|] eqn:Ev; [|done|].
  2:{ unfold UnfreezeBalanceActuator.validate, UnfreezeBalanceActuator.check_entry in Ev.
      inv_run; by parse_facts. }
  assert (Hf : is_address owner = true ∧ v1_resource r ∧ ∃ acc, get_account owner w = Some acc).
  { unfold UnfreezeBalanceActuator.validate in Ev. unfold v1_resource, r, owner.
    inv_run; parse_facts; bool_prop; eauto 6. }
  destruct Hf as (Ho & Hr & acc & Ea).
  pose proof (get_account_wf _ _ _ (proj1 Hi) Ea) as Hwf.
  pose proof (acc_trx_bound _ _ _ Hi Ea) as [_ Hb]. pose proof (burned_nonneg _ (proj1 Hi)).
  pose proof (v1_stake_bound r _ Hwf) as Hs.
  destruct (take_matured_run r now acc Hwf ltac:(lia)) as (x & acc' & Et & Hx & Hwf' & Ht & Hbal).
  assert (Hwf2 : acc_wf (set_balance acc' (Account.balance acc + x)))
    by (apply acc_wf_set_balance; [done|destruct Hwf; lia]).
  pose proof (v1_stake_bound r _ Hwf2) as Hs2. pose proof (acc_trx_set_balance acc' (Account.balance acc + x)).
  pose proof (acc_trx_parts _ Hwf).
  unfold UnfreezeBalanceActuator.execute. fold owner r. cbv zeta.
  rewrite parse_address_ok by done. run. fold now. rewrite (run_reads_some _ _ _ _ _ Ea). run.
  rewrite frozen_balance_run by (done || lia). run. rewrite Et. run. cbn [fst snd].
  rewrite checked_add_ok by i64_lia. run.
  fold (set_balance acc' (Account.balance acc + x)).
  rewrite frozen_balance_run by (done || (simpl in Hs2; lia)). run. unfold sub_i64.
  rewrite exact_i64_ok by (apply weight_change_i64; simpl in Hs2; lia). run.
  split_and!; [done|done|done|]. eexists acc, x, acc', _. done.
Qed.

(** Rewriting the owner's account and adjusting a weight is safe. *)
Lemma weighted_put_safe k d a acc acc' w :
  trx_inv w → get_account a w = Some acc → acc_wf acc' → acc_trx acc' = acc_trx acc →
  k ∈ weight_keys →
  trx_inv (add_prop_i64 k d (put_account a acc' w)) ∧
  total_trx (add_prop_i64 k d (put_account a acc' w)) = total_trx w.
Proof.
  intros Hi E Hwf Ht Hk. destruct (put_account_inv _ _ _ _ Hi E Hwf Ht) as [[Hw Hle] Htot].
  unfold trx_inv. rewrite total_trx_add_weight by done.
  split; [|done]. split; [by apply trx_wf_add_weight|done].
Qed.

Lemma freeze_v1_account_safe c now acc :
  acc_wf acc → 0 < FreezeBalanceContract.frozen_balance c ≤ Account.balance acc →
  acc_wf (freeze_v1_account c now acc) ∧ acc_trx (freeze_v1_account c now acc) = acc_trx acc.
Proof.
  intros Hwf Hx. pose proof (v1_stake_bound (FreezeBalanceContract.resource c) _ Hwf).
  unfold freeze_v1_account. split.
  - apply set_frozen_wf; [|lia]. apply acc_wf_set_balance; [done|lia].
  - rewrite set_frozen_trx, acc_trx_set_balance.
    change (v1_stake ?r (set_balance acc ?n)) with (v1_stake r acc). lia.
Qed.

Lemma freeze_v1_safe_outcome (c : FreezeBalanceContract.t) w : trx_inv w → safe_outcome (apply_contract c w) w.
Proof.
  intros Hi. pose proof (freeze_v1_run c w Hi) as H.
  unfold safe_outcome. destruct (apply_contract c w) as [[r|e|] w']; [|done|done].
  destruct H as (_ & _ & acc & Ea & Hx & _ & ->).
  pose proof (get_account_wf _ _ _ (proj1 Hi) Ea) as Hwf.
  destruct (freeze_v1_account_safe c (get_prop_i64 props.LATEST_BLOCK_HEADER_TIMESTAMP w) _ Hwf Hx).
  eapply weighted_put_safe; eauto using weight_key_weight.
Qed.

Lemma unfreeze_v1_safe_outcome (c : UnfreezeBalanceContract.t) w : trx_inv w → safe_outcome (apply_contract c w) w.
Proof.
  intros Hi. pose proof (unfreeze_v1_run c w Hi) as H.
  unfold safe_outcome. destruct (apply_contract c w) as [[r|e|] w']; [|by destruct H|done].
  destruct H as (_ & _ & _ & acc & x & acc' & d & Ea & Et & ->).
  pose proof (get_account_wf _ _ _ (proj1 Hi) Ea) as Hwf.
  pose proof (acc_trx_bound _ _ _ Hi Ea) as [_ Hb]. pose proof (burned_nonneg _ (proj1 Hi)).
  destruct (take_matured_run (UnfreezeBalanceContract.resource c)
    (get_prop_i64 props.LATEST_BLOCK_HEADER_TIMESTAMP w) acc Hwf ltac:(lia))
    as (x' & a' & Et' & Hx & Hwf' & Ht & Hbal).
  rewrite Et in Et'. injection Et' as <- <-.
  eapply weighted_put_safe; [done|done| | |apply weight_key_weight].
  - apply acc_wf_set_balance; [done|]. destruct Hwf. lia.
  - rewrite acc_trx_set_balance. lia.
Qed.

#[export] Instance freeze_v1_safe : ActuatorSafe FreezeBalanceContract.t := {
  contract_wf _ _ := True; apply_safe c w _ := freeze_v1_safe_outcome c w }.
#[export] Instance unfreeze_v1_safe : ActuatorSafe UnfreezeBalanceContract.t := {
  contract_wf _ _ := True; apply_safe c w _ := unfreeze_v1_safe_outcome c w }.

(** ** Properties *)

(** After a freeze the whole stake of the resource is one entry: it can be taken
    out exactly when that entry has expired. *)
Lemma unfreeze_v1_accepts (c : UnfreezeBalanceContract.t) w acc b t :
  let owner := UnfreezeBalanceContract.owner_address c in
  let r := UnfreezeBalanceContract.resource c in
  is_address owner = true → UnfreezeBalanceContract.receiver_address c = [] → v1_resource r →
  get_account owner w = Some (set_frozen acc r b t) → 0 < b →
  is_Ok (validate c w) = (t <=? get_prop_i64 props.LATEST_BLOCK_HEADER_TIMESTAMP w).
Proof.
  intros owner r Ho Hrec Hr E Hb. simpl. unfold UnfreezeBalanceActuator.validate. fold owner r.
  rewrite parse_address_ok by done. unfold mbind, res_bind. rewrite E, Hrec. simpl.
  apply Z.ltb_lt in Hb. set (now := get_prop_i64 _ w).
  destruct Hr as [->|[->| ->]]; simpl; unfold UnfreezeBalanceActuator.expired; simpl;
    rewrite ?Hb, ?orb_false_r, ?(Z.ltb_antisym t now); by destruct (t <=? now).
Qed.

Lemma take_matured_set_frozen r acc b t now :
  v1_resource r → t ≤ now → is_i64 b →
  ∃ acc', UnfreezeBalanceActuator.take_matured r now (set_frozen acc r b t) = Ok (b, acc') ∧
    v1_stake r acc' = 0 ∧ Account.balance acc' = Account.balance acc ∧
    ∀ r', v1_resource r' → r' ≠ r → v1_stake r' acc' = v1_stake r' acc.
Proof.
  intros Hr Ht Hb. apply Z.leb_le in Ht.
  destruct Hr as [->|[->| ->]]; cbv [UnfreezeBalanceActuator.take_matured set_frozen]; simpl.
  - unfold UnfreezeBalanceActuator.expired. rewrite !filter_cons. simpl. rewrite Ht. simpl.
    unfold sum_i64. simpl. unfold mbind, res_bind, add_i64. rewrite exact_i64_ok by done.
    eexists; split_and!; try done. intros r' [->|[->| ->]]; done.
  - eexists; split_and!; try done. intros r' [->|[->| ->]]; done.
  - eexists; split_and!; try done. intros r' [->|[->| ->]]; done.
Qed.

(** Stake 1.0 locks TRX for its duration and gives all of it back.  After a
    successful freeze, an unfreeze of the same resource at any later block time is
    accepted exactly when the expiry the freeze computed has been reached; it then
    returns the stake of that resource in full, including what was frozen before,
    and leaves the stakes of the other resources alone; a refused one changes
    nothing.  The supply is the same throughout. *)
Theorem stake_v1_cycle (cf : FreezeBalanceContract.t) (cu : UnfreezeBalanceContract.t)
    (w w1 : world) r1 acc t :
  let owner := FreezeBalanceContract.owner_address cf in
  let r := FreezeBalanceContract.resource cf in
  let expiry := get_prop_i64 props.LATEST_BLOCK_HEADER_TIMESTAMP w
    + saturating_mul (FreezeBalanceContract.frozen_duration cf) FROZEN_PERIOD_MS in
  let w2 := put_prop_i64 props.LATEST_BLOCK_HEADER_TIMESTAMP t w1 in
  trx_inv w → get_account owner w = Some acc →
  UnfreezeBalanceContract.owner_address cu = owner →
  UnfreezeBalanceContract.resource cu = r →
  UnfreezeBalanceContract.receiver_address cu = [] →
  apply_contract cf w = (Ok r1, w1) → nonneg_i64 t →
  match apply_contract cu w2 with
  | (Ok _, w3) => expiry ≤ t ∧ trx_inv w3 ∧ total_trx w3 = total_trx w ∧
      ∃ acc3, get_account owner w3 = Some acc3 ∧
        Account.balance acc3 = Account.balance acc + v1_stake r acc ∧ v1_stake r acc3 = 0 ∧
        ∀ r', v1_resource r' → r' ≠ r → v1_stake r' acc3 = v1_stake r' acc
  | (Err _, w3) => t < expiry ∧ w3 = w2
  | (Panic, _) => False
  end.
Proof.
  intros owner r expiry w2 Hi Ea Eo Er Erec H1 Ht.
  pose proof (freeze_v1_run cf w Hi) as Hf. cbv zeta in Hf. fold owner r expiry in Hf.
  pose proof (apply_safe cf w I Hi) as Hs. rewrite H1 in Hf, Hs. simpl in Hs.
  destruct Hs as [Hi1 Ht1]. destruct Hf as (Ho & Hr & a & Ea' & Hx & Hexp & Ew1).
  rewrite Ea in Ea'. injection Ea' as <-.
  set (x := FreezeBalanceContract.frozen_balance cf) in *.
  pose proof (get_account_wf _ _ _ (proj1 Hi) Ea) as Hwf.
  pose proof (acc_trx_bound _ _ _ Hi Ea) as [_ Hb]. pose proof (burned_nonneg _ (proj1 Hi)).
  pose proof (v1_stake_bound r _ Hwf) as Hst.
  destruct (put_prop_inv props.LATEST_BLOCK_HEADER_TIMESTAMP t _ Hi1 ltac:(done) ltac:(not_weight) Ht) as [Hi2 Ht2].
  fold w2 in Hi2, Ht2.
  assert (Hnow : get_prop_i64 props.LATEST_BLOCK_HEADER_TIMESTAMP w2 = t).
  { unfold w2, nonneg_i64 in *. apply get_put_prop_eq. i64_lia. }
  assert (Ea2 : get_account (UnfreezeBalanceContract.owner_address cu) w2 =
    Some (set_frozen (set_balance acc (Account.balance acc - x)) r (v1_stake r acc + x) expiry)).
  { rewrite Eo. unfold w2. rewrite Ew1. apply get_put_account_eq. }
  rewrite <-Er in Ea2 at 1.
  pose proof (unfreeze_v1_accepts cu w2 _ _ _ ltac:(by rewrite Eo) Erec ltac:(by rewrite Er)
    Ea2 ltac:(lia)) as Hacc. rewrite Hnow in Hacc. rewrite Er in Ea2.
  pose proof (unfreeze_v1_run cu w2 Hi2) as Hu. pose proof (apply_safe cu w2 I Hi2) as Hs.
  cbv zeta in Hu. rewrite Hnow, Er, Eo in Hu. rewrite Eo in Ea2.
  destruct (apply_contract cu w2) as [[r3|e|] w3]; [..|done].
  - destruct Hs as [Hi3 Ht3]. destruct Hu as (Hok & _ & _ & a2 & y & a3 & d & Ea2' & Etk & Ew3).
    rewrite Hacc in Hok. apply Z.leb_le in Hok.
    rewrite Ea2 in Ea2'. injection Ea2' as <-. rewrite Ew3.
    destruct (take_matured_set_frozen r (set_balance acc (Account.balance acc - x))
      (v1_stake r acc + x) expiry t Hr Hok ltac:(i64_lia)) as (a' & Etk' & Hz & Hbal & Hoth).
    rewrite Etk in Etk'. injection Etk' as -> ->.
    rewrite <-Ew3. split_and!; [done|done|congruence|]. rewrite Ew3. exists (set_balance a'
      (Account.balance (set_frozen (set_balance acc (Account.balance acc - x)) r (v1_stake r acc + x) expiry)
       + (v1_stake r acc + x))).
    split; [apply get_put_account_eq|]. split; [|split; [exact Hz|exact Hoth]].
    simpl. unfold set_frozen. destruct (r =? ENERGY); [simpl; lia|].
    destruct (r =? TRON_POWER); simpl; lia.
  - destruct Hu as [Hok Hw3]. rewrite Hacc in Hok. apply Z.leb_gt in Hok. done.
Qed.

Module V1Sample.
Definition cf := FreezeBalanceContract.mk (Sample.addr 1) 5000000 3 BANDWIDTH [].
Definition cu := UnfreezeBalanceContract.mk (Sample.addr 1) BANDWIDTH [].
Definition w1 : world := (apply_contract cf Sample.state).2.
Definition t : Z := 4 * FROZEN_PERIOD_MS.
Definition w2 : world := put_prop_i64 props.LATEST_BLOCK_HEADER_TIMESTAMP t w1.
End V1Sample.

Lemma stake_v1_cycle_witness :
  trx_inv Sample.state ∧ balance_of (Sample.addr 1) V1Sample.w1 = 45000000 ∧
  ∃ acc3, get_account (Sample.addr 1) (apply_contract V1Sample.cu V1Sample.w2).2 = Some acc3 ∧
    Account.balance acc3 = 50000000 + 0 ∧ v1_stake BANDWIDTH acc3 = 0.
Proof.
  assert (Hi : trx_inv Sample.state) by check_inv. split; [exact Hi|].
  split; [vm_compute; reflexivity|].
  pose proof (stake_v1_cycle V1Sample.cf V1Sample.cu Sample.state V1Sample.w1 (mk_result 0)
    (Sample.account 1 50000000) V1Sample.t Hi ltac:(vm_compute; reflexivity) eq_refl eq_refl eq_refl
    ltac:(vm_compute; reflexivity) ltac:(unfold nonneg_i64; vm_compute; split; discriminate)) as H.
  cbv zeta in H. fold V1Sample.w2 in H.
  assert (is_Ok (apply_contract V1Sample.cu V1Sample.w2).1 = true) as Hok by by vm_compute.
  destruct (apply_contract V1Sample.cu V1Sample.w2) as [[r|e|] w'];
    [|discriminate Hok|discriminate Hok].
  destruct H as (_ & _ & _ & a & Ea & Hb & Hz & _). exact (ex_intro _ a (conj Ea (conj Hb Hz))).
Defined.
