(* ===== verification/Delegate.v ===== *)
(** * Resource delegation (crates/actuators/src/delegate.rs)

    A delegation moves stake out of the owner's [frozen_v2] into a record keyed
    by owner, receiver and lock flag; an undelegation folds an expired locked
    record into the unlocked one and moves stake back. *)

From stdpp Require Import gmap strings pretty numbers fin_maps prelude.
From S2P Require Import Prelude Types Proto State Actuator Stake.
Open Scope Z_scope.

Definition BLOCK_PRODUCED_INTERVAL_MS : Z := 3000.
Definition DELEGATE_PERIOD_MS : Z := 3 * 86400000.
(** [AccountType::Contract as i32] *)
Definition ACCOUNT_TYPE_CONTRACT : Z := 2.

Definition default_lock_period_blocks : Z := div_i64 DELEGATE_PERIOD_MS BLOCK_PRODUCED_INTERVAL_MS.

(** ** Balances of the two accounts *)

Definition frozen_v2_amount (account : Account.t) (resource : Z) : Z :=
  foldl saturating_add 0
    (FreezeV2.amount <$> filter (λ f, FreezeV2.type f = resource) (Account.frozen_v2 account)).

Definition add_frozen_v2 (account : Account.t) (resource delta : Z) : R Account.t :=
  match find_first (is_type resource) (Account.frozen_v2 account) with
  | Some f =>
      a ← add_i64 (FreezeV2.amount f) delta;
      Ok (account <| Account.frozen_v2 ::=
            replace_first (is_type resource) (f <| FreezeV2.amount := a |>) |>)
  | None => Ok (account <| Account.frozen_v2 ::= λ l, l ++ [FreezeV2.mk resource delta] |>)
  end.

(** [account.account_resource.get_or_insert_with(Default::default)] *)
Definition resource_or_default (account : Account.t) : AccountResource.t :=
  default AccountResource.default (Account.account_resource account).

Definition owner_delegated (account : Account.t) (resource : Z) : Z :=
  if resource =? BANDWIDTH then Account.delegated_frozen_v2_balance_for_bandwidth account
  else default 0 (AccountResource.delegated_frozen_v2_balance_for_energy
                    <$> Account.account_resource account).

Definition add_owner_delegated (account : Account.t) (resource delta : Z) : R Account.t :=
  if resource =? BANDWIDTH then
    v ← add_i64 (Account.delegated_frozen_v2_balance_for_bandwidth account) delta;
    Ok (account <| Account.delegated_frozen_v2_balance_for_bandwidth := v |>)
  else
    let r := resource_or_default account in
    v ← add_i64 (AccountResource.delegated_frozen_v2_balance_for_energy r) delta;
    Ok (account <| Account.account_resource :=
          Some (r <| AccountResource.delegated_frozen_v2_balance_for_energy := v |>) |>).

Definition receiver_acquired (account : Account.t) (resource : Z) : Z :=
  if resource =? BANDWIDTH then Account.acquired_delegated_frozen_v2_balance_for_bandwidth account
  else default 0 (AccountResource.acquired_delegated_frozen_v2_balance_for_energy
                    <$> Account.account_resource account).

Definition add_receiver_acquired (account : Account.t) (resource delta : Z) : R Account.t :=
  let cur := receiver_acquired account resource in
  next ← (if delta <? 0 then
            nd ← neg_i64 delta;
            if cur <? nd then Ok 0 else add_i64 cur delta
          else add_i64 cur delta);
  Ok (if resource =? BANDWIDTH
      then account <| Account.acquired_delegated_frozen_v2_balance_for_bandwidth := next |>
      else account <| Account.account_resource :=
        Some ((resource_or_default account)
          <| AccountResource.acquired_delegated_frozen_v2_balance_for_energy := next |>) |>).

(** ** Delegation records *)

Definition delegation_key (owner receiver : Address) (lock : bool) : bytes :=
  owner ++ receiver ++ [if lock then 1 else 0].

Definition get_delegation (owner receiver : Address) (lock : bool) (w : world) :
    option DelegatedResource.t :=
  w_delegation w !! delegation_key owner receiver lock.
Definition put_delegation (owner receiver : Address) (lock : bool) (rec : DelegatedResource.t)
    (w : world) : world :=
  w <| w_delegation ::= insert (delegation_key owner receiver lock) rec |>.
Definition delete_delegation (owner receiver : Address) (lock : bool) (w : world) : world :=
  w <| w_delegation ::= delete (delegation_key owner receiver lock) |>.

Definition rec_frozen (rec : DelegatedResource.t) (resource : Z) : Z :=
  if resource =? BANDWIDTH then DelegatedResource.frozen_balance_for_bandwidth rec
  else DelegatedResource.frozen_balance_for_energy rec.
Definition rec_set_frozen (rec : DelegatedResource.t) (resource value : Z) : DelegatedResource.t :=
  if resource =? BANDWIDTH then rec <| DelegatedResource.frozen_balance_for_bandwidth := value |>
  else rec <| DelegatedResource.frozen_balance_for_energy := value |>.
Definition rec_expire (rec : DelegatedResource.t) (resource : Z) : Z :=
  if resource =? BANDWIDTH then DelegatedResource.expire_time_for_bandwidth rec
  else DelegatedResource.expire_time_for_energy rec.
Definition rec_set_expire (rec : DelegatedResource.t) (resource value : Z) : DelegatedResource.t :=
  if resource =? BANDWIDTH then rec <| DelegatedResource.expire_time_for_bandwidth := value |>
  else rec <| DelegatedResource.expire_time_for_energy := value |>.
Definition rec_is_empty (rec : DelegatedResource.t) : bool :=
  (DelegatedResource.frozen_balance_for_bandwidth rec =? 0)
  && (DelegatedResource.frozen_balance_for_energy rec =? 0).
(** [DelegatedResource { from, to, ..Default::default() }] *)
Definition new_rec (owner receiver : Address) : DelegatedResource.t :=
  DelegatedResource.default <| DelegatedResource.from := owner |> <| DelegatedResource.to := receiver |>.

Definition resource_valid (resource : Z) : bool := (resource =? BANDWIDTH) || (resource =? ENERGY).

(** ** DelegateResourceContract *)

Module DelegateResourceActuator.

Definition lock_period_blocks (c : DelegateResourceContract.t) : Z :=
  if DelegateResourceContract.lock_period c =? 0 then default_lock_period_blocks
  else DelegateResourceContract.lock_period c.

Definition validate (c : DelegateResourceContract.t) (w : world) : R Z :=
  owner ← parse_address "Invalid address" (DelegateResourceContract.owner_address c);
  owner_account ← ok_or
    (Validate ("Account[" +:+ hex (DelegateResourceContract.owner_address c) +:+ "] does not exist"))
    (get_account owner w);
  let balance := DelegateResourceContract.balance c in
  if balance <? TRX_PRECISION
  then Err (Validate "delegateBalance must be greater than or equal to 1 TRX") else
  let resource := DelegateResourceContract.resource c in
  if negb (resource_valid resource)
  then Err (Validate "ResourceCode error, valid ResourceCode[BANDWIDTH, ENERGY]") else
  if frozen_v2_amount owner_account resource <? balance then
    Err (Validate (if resource =? BANDWIDTH
      then "delegateBalance must be less than or equal to available FreezeBandwidthV2 balance"
      else "delegateBalance must be less than or equal to available FreezeEnergyV2 balance")) else
  receiver ← parse_address "Invalid receiverAddress" (DelegateResourceContract.receiver_address c);
  if bool_decide (receiver = owner)
  then Err (Validate "receiverAddress must not be the same as ownerAddress") else
  receiver_account ← ok_or
    (Validate ("Account[" +:+ hex (DelegateResourceContract.receiver_address c) +:+ "] does not exist"))
    (get_account receiver w);
  _ ← (if DelegateResourceContract.lock c then
         let lock_period := lock_period_blocks c in
         if lock_period <? 0
         then Err (Validate "The lock period of delegate resource cannot be less than 0") else
         match get_delegation owner receiver true w with
         | Some existing =>
             let now := get_prop_i64 props.LATEST_BLOCK_HEADER_TIMESTAMP w in
             remain ← sub_i64 (rec_expire existing resource) now;
             span ← mul_i64 lock_period BLOCK_PRODUCED_INTERVAL_MS;
             guard_or (Validate "The lock period this time cannot be less than the remaining time of the last lock period")
               (negb (span <? remain))
         | None => Ok ()
         end
       else Ok ());
  if Account.type receiver_account =? ACCOUNT_TYPE_CONTRACT
  then Err (Validate "Do not allow delegate resources to contract addresses")
  else Ok 0.

Definition execute (c : DelegateResourceContract.t) : M ExecutionResult :=
  owner ← lift (parse_address "Invalid address" (DelegateResourceContract.owner_address c));
  receiver ← lift (parse_address "Invalid receiverAddress"
    (DelegateResourceContract.receiver_address c));
  let resource := DelegateResourceContract.resource c in
  let balance := DelegateResourceContract.balance c in
  let lock := DelegateResourceContract.lock c in
  now ← gets (get_prop_i64 props.LATEST_BLOCK_HEADER_TIMESTAMP);
  owner_account ← reads (λ w, ok_or (Execute "owner account missing") (get_account owner w));
  nb ← lift (neg_i64 balance);
  owner_account ← lift (add_frozen_v2 owner_account resource nb);
  owner_account ← lift (add_owner_delegated owner_account resource balance);
  _ ← modify (put_account owner owner_account);
  receiver_account ← reads (λ w, ok_or (Execute "receiver account missing") (get_account receiver w));
  receiver_account ← lift (add_receiver_acquired receiver_account resource balance);
  _ ← modify (put_account receiver receiver_account);
  expire ← lift (if lock then
      span ← mul_i64 (lock_period_blocks c) BLOCK_PRODUCED_INTERVAL_MS;
      add_i64 now span
    else Ok 0);
  rec ← gets (λ w, default (new_rec owner receiver) (get_delegation owner receiver lock w));
  new_frozen ← lift (add_i64 (rec_frozen rec resource) balance);
  let rec := rec_set_expire (rec_set_frozen rec resource new_frozen) resource expire in
  _ ← modify (put_delegation owner receiver lock rec);
  mret (mk_result 0).

End DelegateResourceActuator.

(** ** UnDelegateResourceContract *)

Module UnDelegateResourceActuator.

Definition validate (c : UnDelegateResourceContract.t) (w : world) : R Z :=
  owner ← parse_address "Invalid address" (UnDelegateResourceContract.owner_address c);
  _ ← ok_or
    (Validate ("Account[" +:+ hex (UnDelegateResourceContract.owner_address c) +:+ "] does not exist"))
    (get_account owner w);
  receiver ← parse_address "Invalid receiverAddress" (UnDelegateResourceContract.receiver_address c);
  if bool_decide (receiver = owner)
  then Err (Validate "receiverAddress must not be the same as ownerAddress") else
  let now := get_prop_i64 props.LATEST_BLOCK_HEADER_TIMESTAMP w in
  let unlock := get_delegation owner receiver false w in
  let lock := get_delegation owner receiver true w in
  if bool_decide (unlock = None) && bool_decide (lock = None)
  then Err (Validate "delegated Resource does not exist") else
  let balance := UnDelegateResourceContract.balance c in
  if balance <=? 0 then Err (Validate "unDelegateBalance must be more than 0 TRX") else
  let resource := UnDelegateResourceContract.resource c in
  if negb (resource_valid resource)
  then Err (Validate "ResourceCode error, valid ResourceCode[BANDWIDTH, ENERGY]") else
  available ← (match unlock with Some u => add_i64 0 (rec_frozen u resource) | None => Ok 0 end);
  available ← (match lock with
    | Some l => if rec_expire l resource <? now then add_i64 available (rec_frozen l resource)
                else Ok available
    | None => Ok available
    end);
  if available <? balance then
    Err (Validate ("insufficient delegatedFrozenBalance("
      +:+ (if resource =? BANDWIDTH then "BANDWIDTH" else "Energy") +:+ "), request="
      +:+ dec balance +:+ ", unlock_balance=" +:+ dec available))
  else Ok 0.

Definition merge_expired_lock (owner receiver : Address) (resource now : Z) : M () :=
  lock ← gets (get_delegation owner receiver true);
  match lock with
  | None => mret ()
  | Some lock =>
      let expire := rec_expire lock resource in
      let locked := rec_frozen lock resource in
      if (locked =? 0) || (expire =? 0) || (now <=? expire) then mret () else
      unlock ← gets (λ w, default (new_rec owner receiver) (get_delegation owner receiver false w));
      merged ← lift (add_i64 (rec_frozen unlock resource) locked);
      _ ← modify (put_delegation owner receiver false (rec_set_frozen unlock resource merged));
      let lock := rec_set_expire (rec_set_frozen lock resource 0) resource 0 in
      if rec_is_empty lock then modify (delete_delegation owner receiver true)
      else modify (put_delegation owner receiver true lock)
  end.

Definition execute (c : UnDelegateResourceContract.t) : M ExecutionResult :=
  owner ← lift (parse_address "Invalid address" (UnDelegateResourceContract.owner_address c));
  receiver ← lift (parse_address "Invalid receiverAddress"
    (UnDelegateResourceContract.receiver_address c));
  let resource := UnDelegateResourceContract.resource c in
  let balance := UnDelegateResourceContract.balance c in
  now ← gets (get_prop_i64 props.LATEST_BLOCK_HEADER_TIMESTAMP);
  _ ← merge_expired_lock owner receiver resource now;
  nb ← lift (neg_i64 balance);
  receiver_account ← gets (get_account receiver);
  _ ← (match receiver_account with
       | Some receiver_account =>
           receiver_account ← lift (add_receiver_acquired receiver_account resource nb);
           modify (put_account receiver receiver_account)
       | None => mret ()
       end);
  unlock ← reads (λ w, ok_or (Execute "unlocked delegation missing")
                        (get_delegation owner receiver false w));
  remaining ← lift (sub_i64 (rec_frozen unlock resource) balance);
  let unlock := rec_set_frozen unlock resource remaining in
  _ ← (if rec_is_empty unlock then modify (delete_delegation owner receiver false)
       else modify (put_delegation owner receiver false unlock));
  owner_account ← reads (λ w, ok_or (Execute "owner account missing") (get_account owner w));
  owner_account ← lift (add_owner_delegated owner_account resource nb);
  owner_account ← lift (add_frozen_v2 owner_account resource balance);
  _ ← modify (put_account owner owner_account);
  mret (mk_result 0).

End UnDelegateResourceActuator.

#[export] Instance delegate_actuator : Actuator DelegateResourceContract.t := {
  validate := DelegateResourceActuator.validate; execute := DelegateResourceActuator.execute }.
#[export] Instance undelegate_actuator : Actuator UnDelegateResourceContract.t := {
  validate := UnDelegateResourceActuator.validate; execute := UnDelegateResourceActuator.execute }.

(** ** Lemmas on accounts and records *)

Section Accounts.
Implicit Types (a : Account.t) (d : DelegatedResource.t).

(** The account holds the same TRX; only delegation counters differ. *)
Definition same_trx a a' : Prop :=
  acc_trx a' = acc_trx a ∧ (acc_wf a → acc_wf a') ∧ Account.frozen_v2 a' = Account.frozen_v2 a ∧
  Account.balance a' = Account.balance a.

Lemma same_trx_resource a r :
  AccountResource.frozen_balance_for_energy r
    = AccountResource.frozen_balance_for_energy (resource_or_default a) →
  same_trx a (a <| Account.account_resource := Some r |>).
Proof.
  intros Hr.
  assert (He : energy_frozen (a <| Account.account_resource := Some r |>) = energy_frozen a).
  { unfold energy_frozen, resource_or_default in *. simpl. rewrite Hr.
    by destruct (Account.account_resource a). }
  split; [|split; [|split; done]].
  - unfold acc_trx. rewrite He. simpl. lia.
  - intros []. constructor; try done. by rewrite He.
Qed.

Lemma same_trx_delegated_bandwidth a v :
  same_trx a (a <| Account.delegated_frozen_v2_balance_for_bandwidth := v |>).
Proof. split; [done|]. split; [|split; done]. intros []. by constructor. Qed.
Lemma same_trx_acquired_bandwidth a v :
  same_trx a (a <| Account.acquired_delegated_frozen_v2_balance_for_bandwidth := v |>).
Proof. split; [done|]. split; [|split; done]. intros []. by constructor. Qed.

Lemma add_owner_delegated_same a r x a' : add_owner_delegated a r x = Ok a' → same_trx a a'.
Proof.
  unfold add_owner_delegated. intros H. inv_run.
  - apply same_trx_delegated_bandwidth.
  - by apply same_trx_resource.
Qed.
Lemma add_receiver_acquired_same a r x a' : add_receiver_acquired a r x = Ok a' → same_trx a a'.
Proof.
  unfold add_receiver_acquired. intros H. apply res_bind_Ok in H as (n & _ & [= <-]).
  destruct (r =? BANDWIDTH).
  - apply same_trx_acquired_bandwidth.
  - by apply same_trx_resource.
Qed.

Lemma add_frozen_v2_Ok a r x a' :
  add_frozen_v2 a r x = Ok a' → a' = a <| Account.frozen_v2 ::= add_frozen r x |>.
Proof.
  unfold add_frozen_v2, upd. intros H. inv_run; simpl.
  - by erewrite add_frozen_Some.
  - by erewrite add_frozen_None.
Qed.

Lemma acc_wf_add_frozen a r x :
  acc_wf a → 0 ≤ amount_of r (Account.frozen_v2 a) + x →
  acc_wf (a <| Account.frozen_v2 ::= add_frozen r x |>).
Proof.
  intros [] Hx. constructor; try done; simpl; [by apply add_frozen_nonneg|by apply add_frozen_types].
Qed.
Lemma acc_trx_add_frozen a r x :
  acc_trx (a <| Account.frozen_v2 ::= add_frozen r x |>) = acc_trx a + x.
Proof. unfold acc_trx, energy_frozen. simpl. rewrite add_frozen_sum. lia. Qed.

Lemma filter_type_NoDup r (l : list FreezeV2.t) :
  NoDup (FreezeV2.type <$> l) →
  filter (λ f, FreezeV2.type f = r) l = option_list (find_first (is_type r) l).
Proof.
  induction l as [|f l IH]; [done|]. rewrite fmap_cons, NoDup_cons, filter_cons.
  intros [Hf Hl]. cbn [find_first]. unfold is_type at 1.
  destruct (Z.eqb_spec (FreezeV2.type f) r) as [E|E].
  - rewrite decide_True, IH by done. subst r. simpl.
    by rewrite (proj2 (find_is_type_None _ _) Hf).
  - rewrite decide_False by done. by apply IH.
Qed.

(** The balance [validate] compares with is not more than the staked one. *)
Lemma frozen_v2_amount_le a r :
  acc_wf a → frozen_v2_amount a r ≤ amount_of r (Account.frozen_v2 a).
Proof.
  intros Ha. pose proof (amount_of_nonneg r _ (wf_frozen_v2 _ Ha)).
  unfold frozen_v2_amount, amount_of in *.
  rewrite filter_type_NoDup by apply (wf_frozen_v2_nodup _ Ha).
  destruct (find_first _ _); simpl in *; [|done]. i64_lia.
Qed.

Lemma delegation_trx_set_frozen d r v :
  delegation_trx (rec_set_frozen d r v) = delegation_trx d - rec_frozen d r + v.
Proof. unfold delegation_trx, rec_set_frozen, rec_frozen. destruct (r =? BANDWIDTH); simpl; lia. Qed.
Lemma delegation_trx_set_expire d r v : delegation_trx (rec_set_expire d r v) = delegation_trx d.
Proof. unfold delegation_trx, rec_set_expire. by destruct (r =? BANDWIDTH). Qed.
Lemma rec_frozen_set_eq d r v : rec_frozen (rec_set_frozen d r v) r = v.
Proof. unfold rec_frozen, rec_set_frozen. by destruct (r =? BANDWIDTH). Qed.
Lemma rec_frozen_set_expire d r r' v : rec_frozen (rec_set_expire d r v) r' = rec_frozen d r'.
Proof. unfold rec_frozen, rec_set_expire. destruct (r =? BANDWIDTH), (r' =? BANDWIDTH); done. Qed.
Lemma rec_expire_set_eq d r v : rec_expire (rec_set_expire d r v) r = v.
Proof. unfold rec_expire, rec_set_expire. by destruct (r =? BANDWIDTH). Qed.
Lemma rec_frozen_nonneg k d r : delegation_wf k d → 0 ≤ rec_frozen d r.
Proof. intros []. unfold rec_frozen. by destruct (r =? BANDWIDTH). Qed.
Lemma rec_expire_nonzero k d r :
  delegation_wf k d → key_locked k = true → rec_frozen d r ≠ 0 → rec_expire d r ≠ 0.
Proof. intros []. unfold rec_frozen, rec_expire. destruct (r =? BANDWIDTH); auto. Qed.

Lemma delegation_wf_set_frozen k d r v :
  delegation_wf k d → 0 ≤ v → key_locked k = false → delegation_wf k (rec_set_frozen d r v).
Proof.
  intros [] Hv Hk. unfold rec_set_frozen. destruct (r =? BANDWIDTH); constructor; simpl; try done;
    by rewrite Hk.
Qed.
Lemma delegation_wf_set k d r v t :
  delegation_wf k d → 0 ≤ v → (key_locked k = true → v ≠ 0 → t ≠ 0) →
  delegation_wf k (rec_set_expire (rec_set_frozen d r v) r t).
Proof.
  intros [] Hv Ht. unfold rec_set_frozen, rec_set_expire.
  destruct (r =? BANDWIDTH); constructor; simpl; done.
Qed.
Lemma delegation_wf_new k o r : delegation_wf k (new_rec o r).
Proof. by constructor. Qed.
Lemma rec_is_empty_trx d : rec_is_empty d = true → delegation_trx d = 0.
Proof. unfold rec_is_empty, delegation_trx. intros. bool_prop. lia. Qed.
End Accounts.

Section Keys.
Lemma is_address_length a : is_address a = true → length a = 21%nat.
Proof. unfold is_address. intros. by bool_prop. Qed.
Lemma key_locked_delegation o r b :
  is_address o = true → is_address r = true → key_locked (delegation_key o r b) = b.
Proof.
  intros Ho%is_address_length Hr%is_address_length. unfold key_locked, delegation_key.
  rewrite lookup_app_r, lookup_app_r by lia. rewrite Ho, Hr. simpl. by destruct b.
Qed.
Lemma delegation_key_ne o r : delegation_key o r true ≠ delegation_key o r false.
Proof. unfold delegation_key. by intros [=]%(inj _)%(inj _). Qed.
End Keys.

(** ** The world around a delegation record *)

Section World.
Implicit Types w : world.

(** The stake of [resource] held by a record, 0 when there is none. *)
Definition frozen_in o r b (resource : Z) w : Z :=
  match get_delegation o r b w with Some d => rec_frozen d resource | None => 0 end.
Definition record_trx o r b w : Z := contrib delegation_trx (w_delegation w) (delegation_key o r b).

Lemma total_trx_put_delegation o r b d w :
  total_trx (put_delegation o r b d w) = total_trx w - record_trx o r b w + delegation_trx d.
Proof.
  unfold total_trx, burned, record_trx. unfold put_delegation. simpl. rewrite map_sum_insert.
  change (get_prop_i64 ?k (upd _ _ w)) with (get_prop_i64 k w). lia.
Qed.
Lemma total_trx_delete_delegation o r b w :
  total_trx (delete_delegation o r b w) = total_trx w - record_trx o r b w.
Proof.
  unfold total_trx, burned, record_trx. unfold delete_delegation. simpl. rewrite map_sum_delete.
  change (get_prop_i64 ?k (upd _ _ w)) with (get_prop_i64 k w). lia.
Qed.
Lemma trx_wf_put_delegation o r b d w :
  trx_wf w → delegation_wf (delegation_key o r b) d → trx_wf (put_delegation o r b d w).
Proof.
  intros [] Hd. constructor; try done. unfold put_delegation. simpl.
  by apply map_Forall_insert_2.
Qed.
Lemma trx_wf_delete_delegation o r b w : trx_wf w → trx_wf (delete_delegation o r b w).
Proof.
  intros []. constructor; try done. unfold delete_delegation. simpl. by apply map_Forall_delete.
Qed.
Lemma get_delegation_wf o r b d w :
  trx_wf w → get_delegation o r b w = Some d → delegation_wf (delegation_key o r b) d.
Proof. intros Hw E. by eapply (inv_delegation _ Hw). Qed.

Lemma get_account_put_delegation a o r b d w :
  get_account a (put_delegation o r b d w) = get_account a w.
Proof. done. Qed.
Lemma get_account_delete_delegation a o r b w :
  get_account a (delete_delegation o r b w) = get_account a w.
Proof. done. Qed.
Lemma record_trx_put_account o r b a acc w : record_trx o r b (put_account a acc w) = record_trx o r b w.
Proof. done. Qed.

(** The record an operation starts from. *)
Lemma record_or_new o r b w :
  trx_wf w →
  let d := default (new_rec o r) (get_delegation o r b w) in
  delegation_wf (delegation_key o r b) d ∧ record_trx o r b w = delegation_trx d ∧
  ∀ resource, rec_frozen d resource = frozen_in o r b resource w.
Proof.
  intros Hw d. unfold d, record_trx, contrib, frozen_in.
  destruct (get_delegation o r b w) as [d'|] eqn:E; unfold get_delegation in E; rewrite E; simpl.
  - split_and!; [by eapply get_delegation_wf|done|done].
  - split_and!; [apply delegation_wf_new|done|]. intros res. unfold rec_frozen. by destruct (res =? _).
Qed.
End World.

Section Safety.
Implicit Types w : world.

Lemma get_delegation_put o r b b' d w :
  get_delegation o r b' (put_delegation o r b d w) =
  if decide (b = b') then Some d else get_delegation o r b' w.
Proof.
  unfold get_delegation, put_delegation. simpl. destruct (decide (b = b')) as [<-|Hb].
  - apply lookup_insert_eq.
  - apply lookup_insert_ne. destruct b, b'; try done; pose proof (delegation_key_ne o r); congruence.
Qed.
Lemma get_delegation_delete_ne o r b b' w :
  b ≠ b' → get_delegation o r b' (delete_delegation o r b w) = get_delegation o r b' w.
Proof.
  intros Hb. apply lookup_delete_ne.
  destruct b, b'; try done; pose proof (delegation_key_ne o r); congruence.
Qed.


(** What a successful validation of a delegation establishes. *)
Record delegate_ok (c : DelegateResourceContract.t) w (oacc racc : Account.t) : Prop := {
  dok_owner : is_address (DelegateResourceContract.owner_address c) = true;
  dok_receiver : is_address (DelegateResourceContract.receiver_address c) = true;
  dok_ne : DelegateResourceContract.owner_address c ≠ DelegateResourceContract.receiver_address c;
  dok_oacc : get_account (DelegateResourceContract.owner_address c) w = Some oacc;
  dok_racc : get_account (DelegateResourceContract.receiver_address c) w = Some racc;
  dok_balance : 0 < DelegateResourceContract.balance c ≤
    frozen_v2_amount oacc (DelegateResourceContract.resource c);
  dok_period : DelegateResourceContract.lock c = true →
    0 < DelegateResourceActuator.lock_period_blocks c;
}.

Lemma delegate_validate_inv c w f :
  DelegateResourceActuator.validate c w = Ok f → ∃ oacc racc, delegate_ok c w oacc racc.
Proof.
  assert (DelegateResourceActuator.lock_period_blocks c ≠ 0).
  { unfold DelegateResourceActuator.lock_period_blocks. case_match; bool_prop; [discriminate|done]. }
  unfold DelegateResourceActuator.validate, TRX_PRECISION. intros H'.
  inv_run; parse_facts; bool_prop; eexists _, _; constructor; try done; intros; try lia; congruence.
Qed.

(** The stake of [resource] an address holds itself. *)
Definition staked_of a (resource : Z) w : Z :=
  match get_account a w with Some acc => amount_of resource (Account.frozen_v2 acc) | None => 0 end.

(** The stake moves from the owner to the record, no spendable balance moves,
    and a locked record expires after the lock period. *)
Definition delegate_effect (c : DelegateResourceContract.t) w w' : Prop :=
  let o := DelegateResourceContract.owner_address c in
  let r := DelegateResourceContract.receiver_address c in
  let rs := DelegateResourceContract.resource c in
  let lk := DelegateResourceContract.lock c in
  let x := DelegateResourceContract.balance c in
  staked_of o rs w' = staked_of o rs w - x ∧
  frozen_in o r lk rs w' = frozen_in o r lk rs w + x ∧
  (∀ a, balance_of a w' = balance_of a w) ∧
  ∃ d, get_delegation o r lk w' = Some d ∧
    rec_expire d rs = if lk then get_prop_i64 props.LATEST_BLOCK_HEADER_TIMESTAMP w
      + DelegateResourceActuator.lock_period_blocks c * BLOCK_PRODUCED_INTERVAL_MS else 0.

Lemma delegate_execute_Ok c w oacc racc r w' :
  trx_inv w → delegate_ok c w oacc racc → DelegateResourceActuator.execute c w = (Ok r, w') →
  trx_wf w' ∧ total_trx w' = total_trx w ∧ delegate_effect c w w'.
Proof.
  intros Hi [Ho Hr Hne Eo Er Hb Hp] E. pose proof (proj1 Hi) as Hw.
  assert (Hnow : 0 ≤ get_prop_i64 props.LATEST_BLOCK_HEADER_TIMESTAMP w).
  { apply (inv_props _ Hw). not_weight. }
  unfold DelegateResourceActuator.execute in E.
  rewrite !parse_address_ok in E by done.
  set (o := DelegateResourceContract.owner_address c) in *.
  set (rc := DelegateResourceContract.receiver_address c) in *.
  set (rs := DelegateResourceContract.resource c) in *.
  set (x := DelegateResourceContract.balance c) in *.
  apply ST_bind_Ok in E as (? & ? & [[= <-] ->]%lift_Ok & E).
  apply ST_bind_Ok in E as (? & ? & [[= <-] ->]%lift_Ok & E). cbv zeta in E.
  inv_ok. simplify_eq.
  match goal with
  | H1 : add_frozen_v2 oacc _ _ = Ok ?a, H2 : add_owner_delegated ?a _ _ = Ok ?b,
    H3 : get_account rc (put_account o ?b w) = Some ?d, H4 : add_receiver_acquired ?d _ _ = Ok ?e |- _ =>
      apply add_frozen_v2_Ok in H1; apply add_owner_delegated_same in H2 as (Ht1 & Hw1 & Hf1 & Hb1);
      rewrite get_put_account_ne in H3 by done; simplify_eq;
      apply add_receiver_acquired_same in H4 as (Ht2 & Hw2 & Hf2 & Hb2);
      rename b into oacc', e into racc'
  end.
  pose proof (get_account_wf _ _ _ Hw Eo) as Hoa. pose proof (get_account_wf _ _ _ Hw Er) as Hra.
  pose proof (frozen_v2_amount_le _ rs Hoa).
  rewrite acc_trx_add_frozen in Ht1.
  assert (acc_wf oacc') as Hw1' by (apply Hw1, acc_wf_add_frozen; [done|lia]).
  specialize (Hw2 Hra).
  set (w2 := put_account rc racc' (put_account o oacc' w)) in *.
  assert (Hw3 : trx_wf w2) by (unfold w2; auto with world).
  assert (Ht3 : total_trx w2 = total_trx w - x).
  { unfold w2. rewrite (total_trx_put_account_Some _ racc) by by rewrite get_put_account_ne.
    rewrite (total_trx_put_account_Some _ oacc) by done. lia. }
  set (lk := DelegateResourceContract.lock c) in *.
  destruct (record_or_new o rc lk w2 Hw3) as (Hd & Hdt & _).
  destruct (record_or_new o rc lk w2 Hw3) as (_ & _ & Hdf). specialize (Hdf rs).
  set (d := default _ _) in *. pose proof (rec_frozen_nonneg _ _ rs Hd).
  split_and!.
  - apply trx_wf_put_delegation; [done|]. apply delegation_wf_set; [done|lia|].
    rewrite key_locked_delegation by done. intros ->.
    specialize (Hp eq_refl). inv_run. unfold BLOCK_PRODUCED_INTERVAL_MS. lia.
  - rewrite total_trx_put_delegation, delegation_trx_set_expire, delegation_trx_set_frozen. lia.
  - unfold delegate_effect. cbv zeta. fold o rc rs x lk. split_and!.
    + unfold staked_of. rewrite get_account_put_delegation. unfold w2.
      rewrite get_put_account_ne, get_put_account_eq, Hf1, Eo by done. simpl.
      rewrite amount_of_add_frozen, decide_True by done. lia.
    + unfold frozen_in at 1. rewrite get_delegation_put, decide_True by done.
      rewrite rec_frozen_set_expire, rec_frozen_set_eq. rewrite Hdf. done.
    + intros a. unfold balance_of. rewrite get_account_put_delegation. unfold w2.
      rewrite !get_put_account. repeat case_decide; subst; rewrite ?Eo, ?Er; simpl in *; congruence.
    + eexists. rewrite get_delegation_put, decide_True by done. split; [done|].
      rewrite rec_expire_set_eq. destruct lk; inv_run; done.
Qed.

Lemma delegate_execute_Err c w oacc racc e w' :
  delegate_ok c w oacc racc → DelegateResourceActuator.execute c w ≠ (Err e, w').
Proof.
  intros [Ho Hr Hne Eo Er Hb Hp] E. unfold DelegateResourceActuator.execute in E.
  rewrite !parse_address_ok in E by done.
  unfold add_frozen_v2, add_owner_delegated, add_receiver_acquired, neg_i64, add_i64, mul_i64, exact_i64 in E.
  inv_run; simplify_eq; rewrite ?get_put_account_ne in * by done; simplify_eq.
Qed.

Lemma delegate_safe_outcome (c : DelegateResourceContract.t) w :
  trx_inv w → safe_outcome (apply_contract c w) w.
Proof.
  intros Hi. unfold apply_contract, mbind, ST_bind, reads. simpl.
  destruct (DelegateResourceActuator.validate c w) as [f|e|] eqn:Hv; [|done|done].
  apply delegate_validate_inv in Hv as (oacc & racc & Hok).
  destruct (DelegateResourceActuator.execute c w) as [[r|e|] w'] eqn:E; simpl; [|by eapply delegate_execute_Err in E|done].
  destruct (delegate_execute_Ok _ _ _ _ _ _ Hi Hok E) as (Hw' & Ht' & _).
  split; [|done]. split; [done|]. rewrite Ht'. apply Hi.
Qed.

(** What is available to undelegate: the unlocked stake and, past its expiry,
    the locked one. *)
Definition available o r (resource now : Z) w : Z :=
  frozen_in o r false resource w +
  match get_delegation o r true w with
  | Some l => if rec_expire l resource <? now then rec_frozen l resource else 0
  | None => 0
  end.

(** Folding an expired lock keeps the supply and makes all that is available
    unlocked. *)
Lemma merge_expired_lock_Ok o r resource now w u w' :
  trx_wf w → is_address o = true → is_address r = true →
  UnDelegateResourceActuator.merge_expired_lock o r resource now w = (Ok u, w') →
  trx_wf w' ∧ total_trx w' = total_trx w ∧ (∀ a, get_account a w' = get_account a w) ∧
  (∀ k, get_prop_i64 k w' = get_prop_i64 k w) ∧
  frozen_in o r false resource w' = available o r resource now w.
Proof.
  intros Hw Ho Hr E. unfold UnDelegateResourceActuator.merge_expired_lock in E.
  unfold available. apply ST_bind_Ok in E as (lk & w1 & [-> ->]%gets_Ok & E). cbv beta zeta in E.
  destruct (get_delegation o r true w) as [l|] eqn:El; [|inv_ok; split_and!; try done; lia].
  pose proof (get_delegation_wf _ _ _ _ _ Hw El) as Hl.
  pose proof (rec_expire_nonzero _ _ resource Hl) as Hexp.
  rewrite key_locked_delegation in Hexp by done. specialize (Hexp eq_refl).
  pose proof (rec_frozen_nonneg _ _ resource Hl) as Hln.
  destruct (_ || _) eqn:Eb.
  { inv_ok. split_and!; try done.
    assert ((if rec_expire l resource <? now then rec_frozen l resource else 0) = 0); [|lia].
    destruct (Z.ltb_spec (rec_expire l resource) now); [|done].
    destruct (Z.eqb_spec (rec_frozen l resource) 0); [done|].
    destruct (Z.eqb_spec (rec_expire l resource) 0); [tauto|].
    simpl in Eb. bool_prop. lia. }
  bool_prop. destruct (record_or_new o r false w Hw) as (Hd & Hdt & Hdf).
  set (d := default _ _) in *.
  apply ST_bind_Ok in E as (? & ? & [-> ->]%gets_Ok & E).
  apply ST_bind_Ok in E as (? & ? & [Hm ->]%lift_Ok & E). apply add_i64_Ok in Hm as [-> _].
  apply ST_bind_Ok in E as (? & ? & ->%modify_Ok & E).
  fold d in E. set (d' := rec_set_frozen d resource _) in *.
  set (w2 := put_delegation o r false d' w) in *.
  pose proof (rec_frozen_nonneg _ _ resource Hd) as Hdn.
  assert (Hw2 : trx_wf w2).
  { apply trx_wf_put_delegation; [done|]. apply delegation_wf_set_frozen; [done|lia|].
    by apply key_locked_delegation. }
  assert (Ht2 : total_trx w2 = total_trx w + rec_frozen l resource).
  { unfold w2, d'. rewrite total_trx_put_delegation, delegation_trx_set_frozen. lia. }
  assert (El2 : get_delegation o r true w2 = Some l).
  { unfold w2. rewrite get_delegation_put. by case_decide. }
  assert (Hr2 : record_trx o r true w2 = delegation_trx l).
  { unfold record_trx, contrib. unfold get_delegation in El2. by rewrite El2. }
  assert (Hf2 : frozen_in o r false resource w2 = rec_frozen d resource + rec_frozen l resource).
  { unfold frozen_in, w2. rewrite get_delegation_put, decide_True by done. apply rec_frozen_set_eq. }
  rewrite (proj2 (Z.ltb_lt _ _)) by done. rewrite <-Hdf.
  set (l' := rec_set_expire _ _ _) in E.
  assert (Hl' : delegation_trx l' = delegation_trx l - rec_frozen l resource).
  { unfold l'. rewrite delegation_trx_set_expire, delegation_trx_set_frozen. lia. }
  destruct (rec_is_empty l') eqn:Ee; apply modify_Ok in E as ->.
  - apply rec_is_empty_trx in Ee. split_and!; try done.
    + by apply trx_wf_delete_delegation.
    + rewrite total_trx_delete_delegation. lia.
    + unfold frozen_in in *. by rewrite get_delegation_delete_ne.
  - split_and!; try done.
    + apply trx_wf_put_delegation; [done|]. by apply delegation_wf_set.
    + rewrite total_trx_put_delegation. lia.
    + unfold frozen_in in *. by rewrite get_delegation_put.
Qed.

Lemma merge_expired_lock_Err o r resource now w e w' :
  UnDelegateResourceActuator.merge_expired_lock o r resource now w ≠ (Err e, w').
Proof.
  unfold UnDelegateResourceActuator.merge_expired_lock, add_i64, exact_i64. intros E.
  inv_run.
Qed.

Record undelegate_ok (c : UnDelegateResourceContract.t) w (oacc : Account.t) : Prop := {
  uok_owner : is_address (UnDelegateResourceContract.owner_address c) = true;
  uok_receiver : is_address (UnDelegateResourceContract.receiver_address c) = true;
  uok_ne : UnDelegateResourceContract.owner_address c ≠ UnDelegateResourceContract.receiver_address c;
  uok_oacc : get_account (UnDelegateResourceContract.owner_address c) w = Some oacc;
  uok_balance : 0 < UnDelegateResourceContract.balance c ≤
    available (UnDelegateResourceContract.owner_address c) (UnDelegateResourceContract.receiver_address c)
      (UnDelegateResourceContract.resource c) (get_prop_i64 props.LATEST_BLOCK_HEADER_TIMESTAMP w) w;
}.

Lemma undelegate_validate_inv c w f :
  UnDelegateResourceActuator.validate c w = Ok f → ∃ oacc, undelegate_ok c w oacc.
Proof.
  unfold UnDelegateResourceActuator.validate. intros H'.
  inv_run; parse_facts; bool_prop; eexists; constructor; try done.
  all: unfold available, frozen_in.
  all: repeat match goal with H : get_delegation _ _ _ _ = _ |- _ => rewrite H end.
  all: repeat match goal with H : _ < get_prop_i64 _ _ |- _ => rewrite (proj2 (Z.ltb_lt _ _) H)
    | H : get_prop_i64 _ _ ≤ _ |- _ => rewrite (proj2 (Z.ltb_ge _ _) H) end.
  all: lia.
Qed.

(** Stake moves back from what is available to the owner. *)
Definition undelegate_effect (c : UnDelegateResourceContract.t) w w' : Prop :=
  let o := UnDelegateResourceContract.owner_address c in
  let r := UnDelegateResourceContract.receiver_address c in
  let rs := UnDelegateResourceContract.resource c in
  let x := UnDelegateResourceContract.balance c in
  let now := get_prop_i64 props.LATEST_BLOCK_HEADER_TIMESTAMP w in
  x ≤ available o r rs now w ∧
  staked_of o rs w' = staked_of o rs w + x ∧
  frozen_in o r false rs w' = available o r rs now w - x ∧
  (∀ a, balance_of a w' = balance_of a w).

Lemma undelegate_receiver_step rc rs nb w1 u w2 :
  trx_wf w1 →
  (match get_account rc w1 with
   | Some receiver_account =>
       receiver_account ← lift (add_receiver_acquired receiver_account rs nb);
       modify (put_account rc receiver_account)
   | None => mret ()
   end : M ()) w1 = (Ok u, w2) →
  trx_wf w2 ∧ total_trx w2 = total_trx w1 ∧
  (∀ a, a ≠ rc → get_account a w2 = get_account a w1) ∧
  (∀ a, balance_of a w2 = balance_of a w1) ∧
  (∀ o b, get_delegation o rc b w2 = get_delegation o rc b w1).
Proof.
  intros Hw1 E. destruct (get_account rc w1) as [racc|] eqn:Er; [|by inv_ok].
  inv_ok. match goal with H : add_receiver_acquired _ _ _ = Ok _ |- _ =>
    apply add_receiver_acquired_same in H as (Htr & Hwr & _ & Hbr) end.
  specialize (Hwr (get_account_wf _ _ _ Hw1 Er)).
  split_and!; [auto with world| |intros; by rewrite get_put_account_ne| |done].
  - rewrite (total_trx_put_account_Some _ racc) by done. lia.
  - intros a. unfold balance_of. rewrite get_put_account. case_decide; [|done].
    subst. rewrite Er. done.
Qed.

Lemma undelegate_record_step o rc rs x d w2 u w3 :
  trx_wf w2 → is_address o = true → is_address rc = true →
  get_delegation o rc false w2 = Some d → 0 ≤ rec_frozen d rs - x →
  (let d' := rec_set_frozen d rs (rec_frozen d rs - x) in
   if rec_is_empty d' then modify (delete_delegation o rc false)
   else modify (put_delegation o rc false d') : M ()) w2 = (Ok u, w3) →
  trx_wf w3 ∧ total_trx w3 = total_trx w2 - x ∧
  (∀ a, get_account a w3 = get_account a w2) ∧
  frozen_in o rc false rs w3 = rec_frozen d rs - x.
Proof.
  intros Hw2 Ho Hr Ed Hdf E3. pose proof (get_delegation_wf _ _ _ _ _ Hw2 Ed) as Hdw.
  assert (Hrt : record_trx o rc false w2 = delegation_trx d).
  { unfold record_trx, contrib. unfold get_delegation in Ed. by rewrite Ed. }
  cbv zeta in E3. set (d' := rec_set_frozen d rs _) in *.
  assert (Hd' : delegation_trx d' = delegation_trx d - x)
    by (unfold d'; rewrite delegation_trx_set_frozen; lia).
  assert (Hf' : rec_frozen d' rs = rec_frozen d rs - x) by apply rec_frozen_set_eq.
  destruct (rec_is_empty d') eqn:Ee; apply modify_Ok in E3 as ->.
  - assert (rec_frozen d' rs = 0).
    { unfold rec_is_empty in Ee. bool_prop. unfold rec_frozen. by destruct (rs =? BANDWIDTH). }
    apply rec_is_empty_trx in Ee. split_and!; [by apply trx_wf_delete_delegation| |done|].
    + rewrite total_trx_delete_delegation. lia.
    + unfold frozen_in, get_delegation, delete_delegation. simpl. rewrite lookup_delete_eq. lia.
  - split_and!; [|rewrite total_trx_put_delegation; lia|done|].
    + apply trx_wf_put_delegation; [done|]. apply delegation_wf_set_frozen; [done|lia|].
      by apply key_locked_delegation.
    + unfold frozen_in. by rewrite get_delegation_put, decide_True.
Qed.

(** The last step gives the stake back to the owner. *)
Lemma undelegate_owner_step o rs x acc a1 a2 w3 :
  trx_wf w3 → get_account o w3 = Some acc → 0 < x →
  add_owner_delegated acc rs (- x) = Ok a1 → add_frozen_v2 a1 rs x = Ok a2 →
  let w' := put_account o a2 w3 in
  trx_wf w' ∧ total_trx w' = total_trx w3 + x ∧
  staked_of o rs w' = staked_of o rs w3 + x ∧ (∀ a, balance_of a w' = balance_of a w3).
Proof.
  intros Hw3 Eo Hx H1 H2 w'.
  apply add_owner_delegated_same in H1 as (Hta & Hwa & Hfa & Hba).
  apply add_frozen_v2_Ok in H2 as ->.
  specialize (Hwa (get_account_wf _ _ _ Hw3 Eo)).
  pose proof (amount_of_nonneg rs _ (wf_frozen_v2 _ Hwa)). subst w'. split_and!.
  - apply trx_wf_put_account; [done|]. apply acc_wf_add_frozen; [done|lia].
  - rewrite (total_trx_put_account_Some _ acc), acc_trx_add_frozen by done. lia.
  - unfold staked_of. rewrite get_put_account_eq, Eo. simpl.
    rewrite amount_of_add_frozen, decide_True, Hfa by done. done.
  - intros a. unfold balance_of. rewrite get_put_account. case_decide; [|done].
    subst. rewrite Eo. simpl. done.
Qed.

Lemma undelegate_execute_Ok c w oacc r w' :
  trx_inv w → undelegate_ok c w oacc → UnDelegateResourceActuator.execute c w = (Ok r, w') →
  trx_wf w' ∧ total_trx w' = total_trx w ∧ undelegate_effect c w w'.
Proof.
  intros Hi [Ho Hr Hne Eo Hb] E. pose proof (proj1 Hi) as Hw.
  unfold UnDelegateResourceActuator.execute in E. rewrite !parse_address_ok in E by done.
  unfold undelegate_effect. cbv zeta.
  set (o := UnDelegateResourceContract.owner_address c) in *.
  set (rc := UnDelegateResourceContract.receiver_address c) in *.
  set (rs := UnDelegateResourceContract.resource c) in *.
  set (x := UnDelegateResourceContract.balance c) in *.
  apply ST_bind_Ok in E as (? & ? & [[= <-] ->]%lift_Ok & E).
  apply ST_bind_Ok in E as (? & ? & [[= <-] ->]%lift_Ok & E). cbv zeta in E.
  apply ST_bind_Ok in E as (? & ? & [-> ->]%gets_Ok & E).
  apply ST_bind_Ok in E as (? & w1 & Em & E).
  apply merge_expired_lock_Ok in Em as (Hw1 & Ht1 & Ha1 & _ & Hf1); [|done..].
  apply ST_bind_Ok in E as (? & ? & [Hn ->]%lift_Ok & E). apply neg_i64_Ok in Hn as [-> _].
  apply ST_bind_Ok in E as (? & ? & [-> ->]%gets_Ok & E).
  apply ST_bind_Ok in E as (? & w2 & Erc & E).
  apply undelegate_receiver_step in Erc as (Hw2 & Ht2 & Ha2 & Hb2 & Hd2); [|done].
  apply ST_bind_Ok in E as (d & ? & [Ed ->]%reads_Ok & E). apply ok_or_Ok in Ed.
  apply ST_bind_Ok in E as (? & ? & [Hs ->]%lift_Ok & E). apply sub_i64_Ok in Hs as [-> _].
  apply ST_bind_Ok in E as (? & w3 & E3 & E).
  assert (Hdf : rec_frozen d rs = frozen_in o rc false rs w1).
  { unfold frozen_in. by rewrite <-Hd2, Ed. }
  apply undelegate_record_step in E3 as (Hw3 & Ht3 & Ha3 & Hf3); [|done..|lia].
  apply ST_bind_Ok in E as (a0 & ? & [E0 ->]%reads_Ok & E). apply ok_or_Ok in E0.
  apply ST_bind_Ok in E as (a1 & ? & [E1 ->]%lift_Ok & E).
  apply ST_bind_Ok in E as (a2 & ? & [E2 ->]%lift_Ok & E). inv_ok.
  destruct (undelegate_owner_step o rs x a0 a1 a2 w3) as (Hw4 & Ht4 & Hs4 & Hb4); try done; [lia|].
  split_and!; [done|lia|lia| | |].
  - rewrite Hs4. unfold staked_of. by rewrite Ha3, Ha2, Ha1.
  - change (frozen_in o rc false rs w3 = available o rc rs
      (get_prop_i64 props.LATEST_BLOCK_HEADER_TIMESTAMP w) w - x). lia.
  - intros a. rewrite Hb4. unfold balance_of at 1. rewrite Ha3.
    change (balance_of a w2 = balance_of a w). rewrite Hb2. unfold balance_of. by rewrite Ha1.
Qed.

(** Under the invariant an accepted undelegation does not fail. *)
Lemma undelegate_execute_Err c w oacc e w' :
  trx_inv w → undelegate_ok c w oacc → UnDelegateResourceActuator.execute c w ≠ (Err e, w').
Proof.
  intros Hi [Ho Hr Hne Eo Hb] E. pose proof (proj1 Hi) as Hw.
  unfold UnDelegateResourceActuator.execute in E. rewrite !parse_address_ok in E by done.
  apply ST_bind_Err in E as [[? _]%lift_Err|(? & ? & [[= <-] ->]%lift_Ok & E)]; [done|].
  apply ST_bind_Err in E as [[? _]%lift_Err|(? & ? & [[= <-] ->]%lift_Ok & E)]; [done|].
  cbv zeta in E.
  apply ST_bind_Err in E as [?|(? & ? & [-> ->]%gets_Ok & E)]; [done|].
  apply ST_bind_Err in E as [Em|(? & w1 & Em & E)]; [by eapply merge_expired_lock_Err|].
  apply merge_expired_lock_Ok in Em as (Hw1 & Ht1 & Ha1 & _ & Hf1); [|done..].
  assert (Hsome : ∃ d, get_delegation (UnDelegateResourceContract.owner_address c)
    (UnDelegateResourceContract.receiver_address c) false w1 = Some d).
  { unfold frozen_in in Hf1. destruct (get_delegation _ _ false w1); [eauto|lia]. }
  destruct Hsome as [d Hd]. rewrite <-Ha1 in Eo.
  assert (Hfr : ∀ a acc, get_delegation (UnDelegateResourceContract.owner_address c)
    (UnDelegateResourceContract.receiver_address c) false (put_account a acc w1) = Some d) by done.
  unfold add_frozen_v2, add_owner_delegated, add_receiver_acquired, neg_i64, add_i64, sub_i64,
    exact_i64 in E.
  inv_run; simplify_eq; rewrite ?Hfr, ?get_put_account_ne in * by congruence; simplify_eq.
  all: rewrite ?get_account_put_delegation, ?get_account_delete_delegation in E;
    rewrite ?get_put_account_ne in E by congruence; congruence.
Qed.

Lemma undelegate_safe_outcome (c : UnDelegateResourceContract.t) w :
  trx_inv w → safe_outcome (apply_contract c w) w.
Proof.
  intros Hi. unfold apply_contract, mbind, ST_bind, reads. simpl.
  destruct (UnDelegateResourceActuator.validate c w) as [f|e|] eqn:Hv; [|done|done].
  apply undelegate_validate_inv in Hv as (oacc & Hok).
  destruct (UnDelegateResourceActuator.execute c w) as [[r|e|] w'] eqn:E; simpl;
    [|by eapply undelegate_execute_Err in E|done].
  destruct (undelegate_execute_Ok _ _ _ _ _ Hi Hok E) as (Hw' & Ht' & _).
  split; [|done]. split; [done|]. rewrite Ht'. apply Hi.
Qed.
End Safety.

#[export] Instance delegate_safe : ActuatorSafe DelegateResourceContract.t := {
  contract_wf _ _ := True; apply_safe c w _ := delegate_safe_outcome c w }.
#[export] Instance undelegate_safe : ActuatorSafe UnDelegateResourceContract.t := {
  contract_wf _ _ := True; apply_safe c w _ := undelegate_safe_outcome c w }.

(** ** Properties *)

(** C9: delegating and undelegating move stake and nothing else.  On a state
    satisfying the supply invariant, an accepted delegation takes exactly the
    amount out of the owner's stake into the record of that owner, receiver and
    lock flag (with the requested expiry), an accepted undelegation gives back at
    most what is unlocked or past its expiry, and both leave every spendable
    balance and the TRX supply as they were; a refused one changes nothing. *)
Theorem delegation_moves_stake (cd : DelegateResourceContract.t) (cu : UnDelegateResourceContract.t)
    (w : world) :
  trx_inv w →
  match apply_contract cd w with
  | (Ok _, w') => trx_inv w' ∧ total_trx w' = total_trx w ∧ delegate_effect cd w w'
  | (Err _, w') => w' = w
  | (Panic, _) => True
  end ∧
  match apply_contract cu w with
  | (Ok _, w') => trx_inv w' ∧ total_trx w' = total_trx w ∧ undelegate_effect cu w w'
  | (Err _, w') => w' = w
  | (Panic, _) => True
  end.
Proof.
  intros Hi. pose proof (delegate_safe_outcome cd w Hi) as Hd.
  pose proof (undelegate_safe_outcome cu w Hi) as Hu. split.
  - destruct (apply_contract cd w) as [[r|e|] w'] eqn:E; [|done|done]. destruct Hd as [Hi' Ht].
    split_and!; [done|done|]. unfold apply_contract in E.
    apply ST_bind_Ok in E as (f & ? & [Hv ->]%reads_Ok & E).
    apply delegate_validate_inv in Hv as (oacc & racc & Hok).
    by destruct (delegate_execute_Ok _ _ _ _ _ _ Hi Hok E) as (_ & _ & ?).
  - destruct (apply_contract cu w) as [[r|e|] w'] eqn:E; [|done|done]. destruct Hu as [Hi' Ht].
    split_and!; [done|done|]. unfold apply_contract in E.
    apply ST_bind_Ok in E as (f & ? & [Hv ->]%reads_Ok & E).
    apply undelegate_validate_inv in Hv as (oacc & Hok).
    by destruct (undelegate_execute_Ok _ _ _ _ _ Hi Hok E) as (_ & _ & ?).
Qed.

(** Alice stakes 20 TRX for energy and delegates 5 of them to Bob. *)
Definition delegate_sample : world := Eval vm_compute in
  (apply_contract (DelegateResourceContract.mk (Sample.addr 1) ENERGY 5000000 (Sample.addr 2) false 0)
    (apply_contract (FreezeBalanceV2Contract.mk (Sample.addr 1) 20000000 ENERGY)
      (put_prop_i64 UNFREEZE_DELAY_DAYS_KEY 14 Sample.state)).2).2.

(** She then delegates 3 more, locked, or takes 2 back. *)
Lemma delegation_moves_stake_witness :
  let cd := DelegateResourceContract.mk (Sample.addr 1) ENERGY 3000000 (Sample.addr 2) true 100 in
  let cu := UnDelegateResourceContract.mk (Sample.addr 1) ENERGY 2000000 (Sample.addr 2) in
  trx_inv delegate_sample ∧
  delegate_effect cd delegate_sample (apply_contract cd delegate_sample).2 ∧
  undelegate_effect cu delegate_sample (apply_contract cu delegate_sample).2.
Proof.
  intros cd cu. assert (Hi : trx_inv delegate_sample) by check_inv. split; [exact Hi|].
  assert (is_Ok (apply_contract cd delegate_sample).1 = true) as Hd by by vm_compute.
  assert (is_Ok (apply_contract cu delegate_sample).1 = true) as Hu by by vm_compute.
  destruct (delegation_moves_stake cd cu delegate_sample Hi) as [H1 H2].
  destruct (apply_contract cd delegate_sample) as [[r|e|] w1]; [|discriminate Hd|discriminate Hd].
  destruct (apply_contract cu delegate_sample) as [[r'|e|] w2]; [|discriminate Hu|discriminate Hu].
  destruct H1 as (_ & _ & H1), H2 as (_ & _ & H2). exact (conj H1 H2).
Defined.
