(* ===== verification/Accounts.v ===== *)
(** * Account actuators (crates/actuators/src/account.rs, permission.rs,
    vote.rs, withdraw.rs, brokerage.rs)

    Account creation and naming, multi-signature permissions, votes, the
    withdrawal of witness rewards, and brokerage. *)

From stdpp Require Import gmap strings pretty numbers fin_maps prelude.
From S2P Require Import Prelude Types Proto State Actuator Stake.
Open Scope Z_scope.

(** ** account.rs *)

Definition CREATE_ACCOUNT_FEE_KEY : string := "CREATE_ACCOUNT_FEE".
Definition ALLOW_UPDATE_ACCOUNT_NAME_KEY : string := "ALLOW_UPDATE_ACCOUNT_NAME".
Definition MAX_ACCOUNT_NAME_LEN : nat := 200.
Definition MIN_ACCOUNT_ID_LEN : nat := 8.
Definition MAX_ACCOUNT_ID_LEN : nat := 32.

Definition parse_account_address (bs : bytes) (what : string) : R Address :=
  parse_address ("Invalid " +:+ what) bs.
Definition valid_account_name (name : bytes) : bool :=
  bool_decide (length name ≤ MAX_ACCOUNT_NAME_LEN)%nat.
Definition valid_account_id (id : bytes) : bool :=
  bool_decide (MIN_ACCOUNT_ID_LEN ≤ length id)%nat && bool_decide (length id ≤ MAX_ACCOUNT_ID_LEN)%nat
  && forallb (λ b, (33 <=? b) && (b <=? 126)) id.

Module CreateAccountActuator.
Definition validate (c : AccountCreateContract.t) (w : world) : R Z :=
  owner ← parse_account_address (AccountCreateContract.owner_address c) "ownerAddress";
  target ← parse_account_address (AccountCreateContract.account_address c) "account address";
  owner_account ← ok_or (Validate "Account has not existed") (get_account owner w);
  if account_exists target w then Err (Validate "Account has existed") else
  let fee := get_prop_i64 CREATE_ACCOUNT_FEE_KEY w in
  if Account.balance owner_account <? fee
  then Err (Validate "Validate CreateAccountActuator error, insufficient fee.")
  else Ok fee.

Definition execute (c : AccountCreateContract.t) : M ExecutionResult :=
  owner ← lift (parse_account_address (AccountCreateContract.owner_address c) "ownerAddress");
  target ← lift (parse_account_address (AccountCreateContract.account_address c) "account address");
  fee ← gets (get_prop_i64 CREATE_ACCOUNT_FEE_KEY);
  created ← gets (fresh_account target);
  _ ← modify (create_account target);
  _ ← modify (put_account target (created <| Account.type := AccountCreateContract.type c |>));
  owner_account ← reads (λ w, ok_or (Execute "owner account missing") (get_account owner w));
  balance ← lift (ok_or (Execute "balance is not sufficient")
    (opt_filter (λ b, 0 <=? b) (checked_sub (Account.balance owner_account) fee)));
  _ ← modify (put_account owner (owner_account <| Account.balance := balance |>));
  _ ← (if 0 <? fee then modify (burn_trx fee) else mret ());
  mret (mk_result fee).
End CreateAccountActuator.

Module UpdateAccountActuator.
Definition validate (c : AccountUpdateContract.t) (w : world) : R Z :=
  if negb (valid_account_name (AccountUpdateContract.account_name c))
  then Err (Validate "Invalid accountName") else
  owner ← parse_account_address (AccountUpdateContract.owner_address c) "ownerAddress";
  account ← ok_or (Validate "Account does not exist") (get_account owner w);
  if negb (bool_decide (Account.account_name account = []))
     && (get_prop_i64 ALLOW_UPDATE_ACCOUNT_NAME_KEY w =? 0)
  then Err (Validate "This account name is already existed")
  else Ok 0.

Definition execute (c : AccountUpdateContract.t) : M ExecutionResult :=
  owner ← lift (parse_account_address (AccountUpdateContract.owner_address c) "ownerAddress");
  account ← reads (λ w, ok_or (Execute "owner account missing") (get_account owner w));
  _ ← modify (put_account owner
    (account <| Account.account_name := AccountUpdateContract.account_name c |>));
  mret (mk_result 0).
End UpdateAccountActuator.

Module SetAccountIdActuator.
Definition validate (c : SetAccountIdContract.t) (w : world) : R Z :=
  if negb (valid_account_id (SetAccountIdContract.account_id c))
  then Err (Validate "Invalid accountId") else
  owner ← parse_account_address (SetAccountIdContract.owner_address c) "ownerAddress";
  account ← ok_or (Validate "Account has not existed") (get_account owner w);
  if negb (bool_decide (Account.account_id account = []))
  then Err (Validate "This account id already set")
  else Ok 0.

Definition execute (c : SetAccountIdContract.t) : M ExecutionResult :=
  owner ← lift (parse_account_address (SetAccountIdContract.owner_address c) "ownerAddress");
  account ← reads (λ w, ok_or (Execute "owner account missing") (get_account owner w));
  _ ← modify (put_account owner
    (account <| Account.account_id := SetAccountIdContract.account_id c |>));
  mret (mk_result 0).
End SetAccountIdActuator.

(** ** permission.rs *)

Module AccountPermissionUpdateActuator.
Definition MAX_ACTIVE_PERMISSIONS : nat := 8.
Definition MAX_KEYS : nat := 5.

Fixpoint check_keys (weight_sum : Z) (keys : list Key.t) : R Z :=
  match keys with
  | [] => Ok weight_sum
  | k :: keys =>
      if Key.weight k <=? 0 then Err (Validate "key's weight should be greater than 0") else
      if negb (is_address (Key.address k)) then Err (Validate "key is not a validate address") else
      weight_sum ← ok_or (Validate "long overflow") (checked_add weight_sum (Key.weight k));
      check_keys weight_sum keys
  end.

Definition check_permission (p : Permission.t) : R () :=
  if bool_decide (Permission.keys p = []) || bool_decide (MAX_KEYS < length (Permission.keys p))%nat
  then Err (Validate "number of keys in permission should not be greater than 5") else
  if Permission.threshold p <=? 0
  then Err (Validate "permission's threshold should be greater than 0") else
  weight_sum ← check_keys 0 (Permission.keys p);
  if weight_sum <? Permission.threshold p
  then Err (Validate "sum of all key's weight should not be less than threshold")
  else Ok ().

Fixpoint check_permissions (ps : list Permission.t) : R () :=
  match ps with
  | [] => Ok ()
  | p :: ps => _ ← check_permission p; check_permissions ps
  end.

Definition validate (c : AccountPermissionUpdateContract.t) (w : world) : R Z :=
  owner ← parse_address "invalid ownerAddress" (AccountPermissionUpdateContract.owner_address c);
  if bool_decide (get_account owner w = None)
  then Err (Validate "ownerAddress account does not exist") else
  owner_perm ← ok_or (Validate "owner permission is missing") (AccountPermissionUpdateContract.owner c);
  _ ← check_permission owner_perm;
  let actives := AccountPermissionUpdateContract.actives c in
  if bool_decide (MAX_ACTIVE_PERMISSIONS < length actives)%nat
  then Err (Validate "number of active permissions should not be greater than 8") else
  if bool_decide (actives = []) then Err (Validate "active permission is missing") else
  _ ← check_permissions actives;
  Ok 0.

Definition execute (c : AccountPermissionUpdateContract.t) : M ExecutionResult :=
  owner ← lift (parse_address "invalid ownerAddress" (AccountPermissionUpdateContract.owner_address c));
  account ← reads (λ w, ok_or (Execute "owner account missing") (get_account owner w));
  _ ← modify (put_account owner
    (account <| Account.owner_permission := AccountPermissionUpdateContract.owner c |>
       <| Account.witness_permission := AccountPermissionUpdateContract.witness c |>
       <| Account.active_permission := AccountPermissionUpdateContract.actives c |>));
  mret (mk_result 0).
End AccountPermissionUpdateActuator.

(** ** vote.rs *)

Module VoteWitnessActuator.
Definition MAX_VOTE_NUMBER : nat := 30.

Definition tron_power_sun (account : Account.t) : Z :=
  foldl saturating_add 0 (FreezeV2.amount <$> Account.frozen_v2 account).

Fixpoint check_votes (w : world) (sum : Z) (votes : list VoteWitnessVote.t) : R Z :=
  match votes with
  | [] => Ok sum
  | vote :: votes =>
      witness ← parse_address "Invalid vote address!" (VoteWitnessVote.vote_address vote);
      if VoteWitnessVote.vote_count vote <=? 0
      then Err (Validate "vote count must be greater than 0") else
      if negb (witness_exists witness w)
      then Err (Validate ("Witness[" +:+ hex (VoteWitnessVote.vote_address vote) +:+ "] not exists")) else
      sum ← ok_or (Validate "long overflow") (checked_add sum (VoteWitnessVote.vote_count vote));
      check_votes w sum votes
  end.

Definition validate (c : VoteWitnessContract.t) (w : world) : R Z :=
  owner ← parse_address "Invalid address" (VoteWitnessContract.owner_address c);
  let votes := VoteWitnessContract.votes c in
  if bool_decide (votes = []) then Err (Validate "VoteNumber must more than 0") else
  if bool_decide (MAX_VOTE_NUMBER < length votes)%nat
  then Err (Validate "VoteNumber more than maxVoteNumber 30") else
  sum ← check_votes w 0 votes;
  owner_account ← ok_or
    (Validate ("Account[" +:+ hex (VoteWitnessContract.owner_address c) +:+ "] not exists"))
    (get_account owner w);
  let tron_power := tron_power_sun owner_account in
  scaled ← ok_or (Validate "long overflow") (checked_mul sum TRX_PRECISION);
  if tron_power <? scaled
  then Err (Validate ("The total number of votes[" +:+ dec scaled
    +:+ "] is greater than the tronPower[" +:+ dec tron_power +:+ "]"))
  else Ok 0.

Definition execute (c : VoteWitnessContract.t) : M ExecutionResult :=
  owner ← lift (parse_address "Invalid address" (VoteWitnessContract.owner_address c));
  owner_account ← reads (λ w, ok_or (Execute "owner account missing") (get_account owner w));
  _ ← modify (put_account owner (owner_account <| Account.votes :=
    (λ v, Vote.mk (VoteWitnessVote.vote_address v) (VoteWitnessVote.vote_count v))
      <$> VoteWitnessContract.votes c |>));
  mret (mk_result 0).
End VoteWitnessActuator.

(** ** withdraw.rs *)

Module WithdrawBalanceActuator.
Definition WITHDRAW_INTERVAL_MS : Z := 24 * 60 * 60 * 1000.

Definition validate (c : WithdrawBalanceContract.t) (w : world) : R Z :=
  owner ← parse_address "Invalid address" (WithdrawBalanceContract.owner_address c);
  account ← ok_or (Validate "Account does not exist") (get_account owner w);
  if Account.allowance account <=? 0
  then Err (Validate "witnessAccount does not have any allowance") else
  let now := get_prop_i64 props.LATEST_BLOCK_HEADER_TIMESTAMP w in
  since ← sub_i64 now (Account.latest_withdraw_time account);
  if since <? WITHDRAW_INTERVAL_MS
  then Err (Validate "The last withdraw time is less than 24 hours")
  else Ok 0.

Definition execute (c : WithdrawBalanceContract.t) : M ExecutionResult :=
  owner ← lift (parse_address "Invalid address" (WithdrawBalanceContract.owner_address c));
  now ← gets (get_prop_i64 props.LATEST_BLOCK_HEADER_TIMESTAMP);
  account ← reads (λ w, ok_or (Execute "owner account missing") (get_account owner w));
  balance ← lift (ok_or (Execute "long overflow")
    (checked_add (Account.balance account) (Account.allowance account)));
  _ ← modify (put_account owner (account <| Account.balance := balance |>
    <| Account.allowance := 0 |> <| Account.latest_withdraw_time := now |>));
  mret (mk_result 0).
End WithdrawBalanceActuator.

(** ** brokerage.rs *)

Module UpdateBrokerageActuator.
Definition validate (c : UpdateBrokerageContract.t) (w : world) : R Z :=
  _ ← require_feature flags.CHANGE_DELEGATION
    "contract type error, unexpected type [UpdateBrokerageContract]" w;
  owner ← parse_address "Invalid address" (UpdateBrokerageContract.owner_address c);
  let b := UpdateBrokerageContract.brokerage c in
  if negb ((0 <=? b) && (b <=? 100))
  then Err (Validate "brokerage must be in the range of [0, 100]") else
  if negb (witness_exists owner w)
  then Err (Validate ("Account[" +:+ Addr.to_hex owner +:+ "] is not a witness"))
  else Ok 0.

Definition execute (c : UpdateBrokerageContract.t) : M ExecutionResult :=
  owner ← lift (parse_address "Invalid address" (UpdateBrokerageContract.owner_address c));
  _ ← modify (put_brokerage owner (UpdateBrokerageContract.brokerage c));
  mret (mk_result 0).
End UpdateBrokerageActuator.

#[export] Instance create_account_actuator : Actuator AccountCreateContract.t := {
  validate := CreateAccountActuator.validate; execute := CreateAccountActuator.execute }.
#[export] Instance update_account_actuator : Actuator AccountUpdateContract.t := {
  validate := UpdateAccountActuator.validate; execute := UpdateAccountActuator.execute }.
#[export] Instance set_account_id_actuator : Actuator SetAccountIdContract.t := {
  validate := SetAccountIdActuator.validate; execute := SetAccountIdActuator.execute }.
#[export] Instance permission_actuator : Actuator AccountPermissionUpdateContract.t := {
  validate := AccountPermissionUpdateActuator.validate;
  execute := AccountPermissionUpdateActuator.execute }.
#[export] Instance vote_actuator : Actuator VoteWitnessContract.t := {
  validate := VoteWitnessActuator.validate; execute := VoteWitnessActuator.execute }.
#[export] Instance withdraw_actuator : Actuator WithdrawBalanceContract.t := {
  validate := WithdrawBalanceActuator.validate; execute := WithdrawBalanceActuator.execute }.
#[export] Instance brokerage_actuator : Actuator UpdateBrokerageContract.t := {
  validate := UpdateBrokerageActuator.validate; execute := UpdateBrokerageActuator.execute }.

(** ** Safety *)

(** The shape of most of these runs: nothing, or the owner's account with fields
    outside its holdings rewritten. *)
Ltac account_only :=
  inv_run; unfold parse_account_address in *; parse_facts; simplify_eq; try done;
  match goal with
  | Hi : trx_inv ?w, Ea : get_account _ ?w = Some ?a |- _ =>
      pose proof (get_account_wf _ _ _ (proj1 Hi) Ea);
      apply (put_account_inv _ a); [done|done|acc_wf_same|done]
  end.

Section Safety.
Implicit Types w : world.

Lemma create_account_owner_ne owner target acc w :
  get_account owner w = Some acc → account_exists target w = false → owner ≠ target.
Proof. intros E H. apply account_exists_false in H. congruence. Qed.

(** The state after the new account is written. *)
Definition with_new_account (t : Address) (ty : Z) w : world :=
  put_account t ((fresh_account t w) <| Account.type := ty |>) (create_account t w).

Lemma with_new_account_safe t ty w :
  trx_inv w → account_exists t w = false →
  trx_inv (with_new_account t ty w) ∧ total_trx (with_new_account t ty w) = total_trx w ∧
  (∀ a, a ≠ t → get_account a (with_new_account t ty w) = get_account a w).
Proof.
  intros Hi Ht. apply account_exists_false in Ht. pose proof (acc_wf_fresh t w (proj1 Hi)) as Hf.
  assert (H1 : trx_inv (create_account t w) ∧ total_trx (create_account t w) = total_trx w).
  { unfold create_account. pose proof (total_trx_put_account_None t (fresh_account t w) w Ht) as E.
    rewrite acc_trx_fresh, Z.add_0_r in E. split; [|done].
    split; [apply trx_wf_put_account; [apply Hi|done]|]. rewrite E. apply Hi. }
  destruct H1 as [H1 E1]. unfold with_new_account.
  destruct (put_account_inv t (fresh_account t w) ((fresh_account t w) <| Account.type := ty |>)
    (create_account t w)) as [H2 E2]; try done.
  - apply get_put_account_eq.
  - destruct Hf; by constructor.
  - split_and!; [done|lia|]. intros a Ha. unfold create_account. by rewrite !get_put_account_ne.
Qed.

Lemma create_account_run c w f :
  trx_inv w → CreateAccountActuator.validate c w = Ok f →
  let o := AccountCreateContract.owner_address c in
  let t := AccountCreateContract.account_address c in
  f = get_prop_i64 CREATE_ACCOUNT_FEE_KEY w ∧ account_exists t w = false ∧
  ∃ oacc, get_account o w = Some oacc ∧ f ≤ Account.balance oacc ∧ o ≠ t ∧
    CreateAccountActuator.execute c w =
      (Ok (mk_result f), burn_fee f (put_account o (set_balance oacc (Account.balance oacc - f))
        (with_new_account t (AccountCreateContract.type c) w))).
Proof.
  intros Hi Hv o t. unfold CreateAccountActuator.validate, parse_account_address in Hv.
  inv_run; parse_facts; bool_prop.
  match goal with E : get_account _ w = Some ?a, H : account_exists _ w = false |- _ =>
    pose proof (create_account_owner_ne _ _ _ _ E H) as Hne;
    pose proof (balance_is_i64 _ _ _ Hi E); rename E into Eo, a into oacc end.
  assert (0 ≤ get_prop_i64 CREATE_ACCOUNT_FEE_KEY w).
  { apply (inv_props _ (proj1 Hi)). not_weight. }
  fold o in Eo, Hne |- *. fold t in Hne |- *.
  split_and!; [done|done|]. exists oacc. split_and!; [done|done|done|].
  unfold CreateAccountActuator.execute, parse_account_address. fold o. fold t.
  rewrite !parse_address_ok by done. run. fold (with_new_account t (AccountCreateContract.type c) w).
  assert (Eo' : get_account o (with_new_account t (AccountCreateContract.type c) w) = Some oacc).
  { unfold with_new_account, create_account. by rewrite !get_put_account_ne. }
  run Eo'. rewrite debit_ok by i64_lia. run. by rewrite run_burn_fee.
Qed.

Lemma create_account_safe_outcome (c : AccountCreateContract.t) w :
  trx_inv w → safe_outcome (apply_contract c w) w.
Proof.
  intros Hi. unfold apply_contract, mbind, ST_bind, reads. simpl.
  destruct (CreateAccountActuator.validate c w) as [f|e|] eqn:Hv; [|done|done].
  destruct (create_account_run c w f Hi Hv) as (Hf & Ht & oacc & Eo & Hb & Hne & ->). simpl.
  assert (0 ≤ f) by (rewrite Hf; apply (inv_props _ (proj1 Hi)); not_weight).
  destruct (with_new_account_safe _ (AccountCreateContract.type c) w Hi Ht) as (H1 & H2 & H3).
  pose proof (get_account_wf _ _ _ (proj1 Hi) Eo).
  rewrite <-H2. eapply burn_from_inv; [done|by rewrite H3| |done|rewrite acc_trx_set_balance; lia].
  apply acc_wf_set_balance; [done|lia].
Qed.

Lemma update_account_safe_outcome (c : AccountUpdateContract.t) w :
  trx_inv w → safe_outcome (apply_contract c w) w.
Proof.
  intros Hi. apply_cases c w; unfold UpdateAccountActuator.validate, UpdateAccountActuator.execute in E;
    account_only.
Qed.

Lemma set_account_id_safe_outcome (c : SetAccountIdContract.t) w :
  trx_inv w → safe_outcome (apply_contract c w) w.
Proof.
  intros Hi. apply_cases c w; unfold SetAccountIdActuator.validate, SetAccountIdActuator.execute in E;
    account_only.
Qed.

Lemma permission_safe_outcome (c : AccountPermissionUpdateContract.t) w :
  trx_inv w → safe_outcome (apply_contract c w) w.
Proof.
  intros Hi. apply_cases c w; unfold AccountPermissionUpdateActuator.execute in E.
  - apply ST_bind_Ok in E as (f & ? & [_ ->]%reads_Ok & E). account_only.
  - apply ST_bind_Err in E as [[_ ->]%reads_Err|(f & ? & [_ ->]%reads_Ok & E)]; [done|account_only].
Qed.

Lemma vote_safe_outcome (c : VoteWitnessContract.t) w :
  trx_inv w → safe_outcome (apply_contract c w) w.
Proof.
  intros Hi. apply_cases c w; unfold VoteWitnessActuator.execute in E.
  - apply ST_bind_Ok in E as (f & ? & [_ ->]%reads_Ok & E). account_only.
  - apply ST_bind_Err in E as [[_ ->]%reads_Err|(f & ? & [_ ->]%reads_Ok & E)]; [done|account_only].
Qed.

Lemma withdraw_safe_outcome (c : WithdrawBalanceContract.t) w :
  trx_inv w → safe_outcome (apply_contract c w) w.
Proof.
  intros Hi. apply_cases c w; unfold WithdrawBalanceActuator.execute in E.
  - apply ST_bind_Ok in E as (f & ? & [_ ->]%reads_Ok & E). inv_run; parse_facts.
    match goal with Ea : get_account _ _ = Some ?a |- _ =>
      pose proof (get_account_wf _ _ _ (proj1 Hi) Ea) as Ha; eapply put_account_inv; [done|done|..] end.
    + assert (0 ≤ get_prop_i64 props.LATEST_BLOCK_HEADER_TIMESTAMP w).
      { apply (inv_props _ (proj1 Hi)). not_weight. }
      destruct Ha. constructor; try done; simpl; lia.
    + unfold acc_trx, energy_frozen. simpl. lia.
  - apply ST_bind_Err in E as [[_ ->]%reads_Err|(f & ? & [_ ->]%reads_Ok & E)]; [done|].
    inv_run; done.
Qed.

Lemma brokerage_safe_outcome (c : UpdateBrokerageContract.t) w :
  trx_inv w → safe_outcome (apply_contract c w) w.
Proof.
  intros Hi. apply_cases c w; unfold UpdateBrokerageActuator.execute in E.
  - apply ST_bind_Ok in E as (f & ? & [_ ->]%reads_Ok & E). inv_run.
    match goal with |- trx_inv ?w' ∧ _ =>
      destruct (trx_frame w w') as (_ & ? & ?); try done; auto end.
  - apply ST_bind_Err in E as [[_ ->]%reads_Err|(f & ? & [_ ->]%reads_Ok & E)]; [done|].
    inv_run; done.
Qed.
End Safety.

#[export] Instance create_account_safe : ActuatorSafe AccountCreateContract.t := {
  contract_wf _ _ := True; apply_safe c w _ := create_account_safe_outcome c w }.
#[export] Instance update_account_safe : ActuatorSafe AccountUpdateContract.t := {
  contract_wf _ _ := True; apply_safe c w _ := update_account_safe_outcome c w }.
#[export] Instance set_account_id_safe : ActuatorSafe SetAccountIdContract.t := {
  contract_wf _ _ := True; apply_safe c w _ := set_account_id_safe_outcome c w }.
#[export] Instance permission_safe : ActuatorSafe AccountPermissionUpdateContract.t := {
  contract_wf _ _ := True; apply_safe c w _ := permission_safe_outcome c w }.
#[export] Instance vote_safe : ActuatorSafe VoteWitnessContract.t := {
  contract_wf _ _ := True; apply_safe c w _ := vote_safe_outcome c w }.
#[export] Instance withdraw_safe : ActuatorSafe WithdrawBalanceContract.t := {
  contract_wf _ _ := True; apply_safe c w _ := withdraw_safe_outcome c w }.
#[export] Instance brokerage_safe : ActuatorSafe UpdateBrokerageContract.t := {
  contract_wf _ _ := True; apply_safe c w _ := brokerage_safe_outcome c w }.

(** ** What validation guarantees *)

Section Guarantees.
Implicit Types w : world.

Lemma check_votes_Ok w votes sum r :
  VoteWitnessActuator.check_votes w sum votes = Ok r →
  r = sum + sum_list VoteWitnessVote.vote_count votes ∧
  Forall (λ v, is_address (VoteWitnessVote.vote_address v) = true ∧
    witness_exists (VoteWitnessVote.vote_address v) w = true ∧
    0 < VoteWitnessVote.vote_count v) votes.
Proof.
  revert sum. induction votes as [|v votes IH]; intros sum H; simpl in *.
  - injection H as <-. split; [lia|constructor].
  - inv_run; parse_facts; bool_prop. match goal with H : VoteWitnessActuator.check_votes _ _ _ = _ |- _ =>
      apply IH in H as [-> ?] end.
    split; [lia|]. constructor; done.
Qed.

Lemma tron_power_le acc :
  acc_wf acc → VoteWitnessActuator.tron_power_sun acc ≤ sum_list FreezeV2.amount (Account.frozen_v2 acc).
Proof.
  intros Ha. unfold VoteWitnessActuator.tron_power_sun. rewrite <-sum_list_map.
  assert (Hf : Forall (λ x, 0 ≤ x) (FreezeV2.amount <$> Account.frozen_v2 acc))
    by (apply Forall_fmap, (wf_frozen_v2 _ Ha)).
  revert Hf. generalize (FreezeV2.amount <$> Account.frozen_v2 acc) as l. intros l Hl.
  enough (∀ s, 0 ≤ s → foldl saturating_add s l ≤ s + foldr Z.add 0 l) as H by (apply (H 0); lia).
  induction Hl as [|x l Hx Hl IH]; intros s Hs; simpl in *; [lia|].
  assert (0 ≤ saturating_add s x ≤ s + x) by i64_lia. specialize (IH (saturating_add s x)). lia.
Qed.

Lemma check_keys_Ok ks s r :
  AccountPermissionUpdateActuator.check_keys s ks = Ok r →
  r = s + sum_list Key.weight ks ∧
  Forall (λ k, is_address (Key.address k) = true ∧ 0 < Key.weight k) ks.
Proof.
  revert s. induction ks as [|k ks IH]; intros s H; simpl in *.
  - injection H as <-. split; [lia|constructor].
  - inv_run; bool_prop. match goal with H : AccountPermissionUpdateActuator.check_keys _ _ = _ |- _ =>
      apply IH in H as [-> ?] end.
    split; [lia|]. constructor; done.
Qed.

(** A permission its keys can satisfy: one to five valid keys of positive weight
    that together reach a positive threshold. *)
Definition permission_ok (p : Permission.t) : Prop :=
  (1 ≤ length (Permission.keys p) ≤ 5)%nat ∧
  Forall (λ k, is_address (Key.address k) = true ∧ 0 < Key.weight k) (Permission.keys p) ∧
  0 < Permission.threshold p ≤ sum_list Key.weight (Permission.keys p).

Lemma check_permission_Ok p u :
  AccountPermissionUpdateActuator.check_permission p = Ok u → permission_ok p.
Proof.
  unfold AccountPermissionUpdateActuator.check_permission, AccountPermissionUpdateActuator.MAX_KEYS.
  intros H. inv_run. bool_prop.
  match goal with H : AccountPermissionUpdateActuator.check_keys _ _ = _ |- _ =>
    apply check_keys_Ok in H as [-> ?] end.
  split_and!; try done; [|lia..]. destruct (Permission.keys p); simpl in *; [done|lia].
Qed.
Lemma check_permissions_Ok ps u :
  AccountPermissionUpdateActuator.check_permissions ps = Ok u → Forall permission_ok ps.
Proof.
  induction ps as [|p ps IH]; simpl; intros H; [constructor|]. inv_ok.
  constructor; [by eapply check_permission_Ok|auto].
Qed.
End Guarantees.

(** ** Properties *)

(** C40: votes are backed by stake.  On a state that satisfies the invariant, an accepted vote
    replaces the owner's vote list by the contract's and nothing else of the owner's account;
    the list has between one and thirty entries, each for an existing witness and with a
    positive count, and the counts add up to no more votes than the whole TRX the owner has
    frozen under the second stake model. *)
Theorem vote_within_power (c : VoteWitnessContract.t) (w w' : world) r :
  trx_inv w → apply_contract c w = (Ok r, w') →
  let votes := VoteWitnessContract.votes c in
  (1 ≤ length votes ≤ 30)%nat ∧
  Forall (λ v, witness_exists (VoteWitnessVote.vote_address v) w = true ∧
    0 < VoteWitnessVote.vote_count v) votes ∧
  ∃ acc, get_account (VoteWitnessContract.owner_address c) w = Some acc ∧
    get_account (VoteWitnessContract.owner_address c) w' = Some (acc <| Account.votes :=
      (λ v, Vote.mk (VoteWitnessVote.vote_address v) (VoteWitnessVote.vote_count v)) <$> votes |>) ∧
    sum_list VoteWitnessVote.vote_count votes * TRX_PRECISION
      ≤ sum_list FreezeV2.amount (Account.frozen_v2 acc).
Proof.
  intros Hi E. unfold apply_contract in E. simpl in E.
  unfold VoteWitnessActuator.validate, VoteWitnessActuator.execute,
    VoteWitnessActuator.MAX_VOTE_NUMBER in E.
  inv_run; parse_facts; bool_prop; simplify_eq.
  match goal with H : VoteWitnessActuator.check_votes _ _ _ = _ |- _ =>
    apply check_votes_Ok in H as [-> Hv] end.
  match goal with H : get_account _ _ = Some ?a |- _ => rename H into Ea, a into acc end.
  pose proof (tron_power_le _ (get_account_wf _ _ _ (proj1 Hi) Ea)).
  split_and!.
  - destruct (VoteWitnessContract.votes c); simpl in *; [done|lia].
  - lia.
  - eapply Forall_impl; [exact Hv|]. simpl. tauto.
  - exists acc. rewrite get_put_account_eq. split_and!; [done|done|lia].
Qed.

Definition vote_sample : world :=
  put_witness (Sample.addr 2) (Witness.default <| Witness.address := Sample.addr 2 |>)
    (apply_contract (FreezeBalanceV2Contract.mk (Sample.addr 1) 20000000 ENERGY)
      (put_prop_i64 UNFREEZE_DELAY_DAYS_KEY 14 Sample.state)).2.

Lemma vote_within_power_witness :
  let c := VoteWitnessContract.mk (Sample.addr 1) [VoteWitnessVote.mk (Sample.addr 2) 20] false in
  trx_inv vote_sample ∧ apply_contract c vote_sample = (Ok (mk_result 0), (apply_contract c vote_sample).2) ∧
  witness_exists (Sample.addr 2) vote_sample = true.
Proof.
  intros c. assert (Hi : trx_inv vote_sample) by check_inv.
  assert (E : apply_contract c vote_sample = (Ok (mk_result 0), (apply_contract c vote_sample).2))
    by (vm_compute; reflexivity).
  split; [exact Hi|]. split; [exact E|].
  destruct (vote_within_power c vote_sample _ _ Hi E) as (_ & H & _).
  exact (proj1 (Forall_inv H)).
Defined.

(** Every permission an accepted update installs can be satisfied by its
    keys: the owner permission and each of the one to eight active ones has one
    to five keys with valid addresses and positive weights whose sum reaches its
    positive threshold. *)
Theorem permission_satisfiable (c : AccountPermissionUpdateContract.t) (w w' : world) r :
  apply_contract c w = (Ok r, w') →
  (1 ≤ length (AccountPermissionUpdateContract.actives c) ≤ 8)%nat ∧
  Forall permission_ok (AccountPermissionUpdateContract.actives c) ∧
  ∃ p acc, AccountPermissionUpdateContract.owner c = Some p ∧ permission_ok p ∧
    get_account (AccountPermissionUpdateContract.owner_address c) w' = Some acc ∧
    Account.owner_permission acc = Some p ∧
    Account.active_permission acc = AccountPermissionUpdateContract.actives c.
Proof.
  intros E. unfold apply_contract in E. simpl in E.
  unfold AccountPermissionUpdateActuator.validate, AccountPermissionUpdateActuator.execute,
    AccountPermissionUpdateActuator.MAX_ACTIVE_PERMISSIONS in E.
  inv_run; parse_facts; bool_prop.
  repeat match goal with
  | H : AccountPermissionUpdateActuator.check_permission _ = _ |- _ => apply check_permission_Ok in H
  | H : AccountPermissionUpdateActuator.check_permissions _ = _ |- _ => apply check_permissions_Ok in H
  end.
  split_and!; [|lia|done|].
  - destruct (AccountPermissionUpdateContract.actives c); simpl in *; [done|lia].
  - do 2 eexists. rewrite get_put_account_eq. done.
Qed.

Lemma permission_satisfiable_witness :
  let p := Permission.default <| Permission.threshold := 2 |>
    <| Permission.keys := [Key.mk (Sample.addr 1) 1; Key.mk (Sample.addr 2) 1] |> in
  let c := AccountPermissionUpdateContract.mk (Sample.addr 1) (Some p) None [p] in
  apply_contract c Sample.state = (Ok (mk_result 0), (apply_contract c Sample.state).2) ∧
  Forall permission_ok [p].
Proof.
  intros p c.
  assert (E : apply_contract c Sample.state = (Ok (mk_result 0), (apply_contract c Sample.state).2))
    by (vm_compute; reflexivity).
  split; [exact E|]. exact (proj1 (proj2 (permission_satisfiable c Sample.state _ _ E))).
Defined.
