(* ===== verification/Governance.v ===== *)
(** * Witnesses, committee proposals and contract settings
    (crates/actuators/src/witness.rs, proposal.rs, clear_abi.rs,
    update_setting.rs, update_energy_limit.rs)

    The witness store is keyed by the witness's address, the proposal store by
    the big-endian proposal id; the invariant below says that the records agree
    with their keys, that no witness approves a proposal twice and that no
    proposal is beyond the id counter. *)

From stdpp Require Import gmap strings pretty numbers fin_maps prelude.
From S2P Require Import Prelude Types Proto State Actuator.
Open Scope Z_scope.

(** ** witness.rs *)

Definition ACCOUNT_UPGRADE_COST : string := "ACCOUNT_UPGRADE_COST".
Definition DEFAULT_ACCOUNT_UPGRADE_COST : Z := 9999000000.
Definition MAX_URL_LEN : nat := 256.

Definition valid_url (url : bytes) : bool :=
  negb (bool_decide (url = [])) && bool_decide (length url ≤ MAX_URL_LEN)%nat.
Definition account_upgrade_cost (w : world) : Z :=
  let cost := get_prop_i64 ACCOUNT_UPGRADE_COST w in
  if 0 <? cost then cost else DEFAULT_ACCOUNT_UPGRADE_COST.

(** [put_witness]: the key is the address in the record. *)
Definition put_witness_record (x : Witness.t) (w : world) : world :=
  put_witness (Witness.address x) x w.

Module WitnessCreateActuator.
Definition validate (c : WitnessCreateContract.t) (w : world) : R Z :=
  owner ← parse_address "Invalid address" (WitnessCreateContract.owner_address c);
  if negb (valid_url (WitnessCreateContract.url c)) then Err (Validate "Invalid url") else
  account ← ok_or (Validate ("account[" +:+ hex owner +:+ "] not exists")) (get_account owner w);
  if witness_exists owner w
  then Err (Validate ("Witness[" +:+ hex owner +:+ "] has existed")) else
  let cost := account_upgrade_cost w in
  if Account.balance account <? cost then Err (Validate "balance < AccountUpgradeCost")
  else Ok cost.

Definition execute (c : WitnessCreateContract.t) : M ExecutionResult :=
  owner ← lift (parse_address "Invalid address" (WitnessCreateContract.owner_address c));
  cost ← gets account_upgrade_cost;
  let witness := Witness.default <| Witness.address := owner |>
    <| Witness.url := string_of_bytes (from_utf8_lossy (WitnessCreateContract.url c)) |>
    <| Witness.is_jobs := true |> in
  _ ← modify (put_witness_record witness);
  account ← reads (λ w, ok_or (Execute "owner account missing") (get_account owner w));
  balance ← lift (ok_or (Execute "balance is not sufficient")
    (opt_filter (λ b, 0 <=? b) (checked_sub (Account.balance account) cost)));
  _ ← modify (put_account owner
    (account <| Account.is_witness := true |> <| Account.balance := balance |>));
  _ ← modify (burn_trx cost);
  mret (mk_result cost).
End WitnessCreateActuator.

Module WitnessUpdateActuator.
Definition validate (c : WitnessUpdateContract.t) (w : world) : R Z :=
  owner ← parse_address "Invalid address" (WitnessUpdateContract.owner_address c);
  if negb (account_exists owner w) then Err (Validate "account does not exist") else
  if negb (valid_url (WitnessUpdateContract.update_url c)) then Err (Validate "Invalid url") else
  if negb (witness_exists owner w) then Err (Validate "Witness does not exist")
  else Ok 0.

Definition execute (c : WitnessUpdateContract.t) : M ExecutionResult :=
  owner ← lift (parse_address "Invalid address" (WitnessUpdateContract.owner_address c));
  witness ← reads (λ w, ok_or (Execute "Witness does not exist") (get_witness owner w));
  _ ← modify (put_witness_record (witness <| Witness.url :=
    string_of_bytes (from_utf8_lossy (WitnessUpdateContract.update_url c)) |>));
  mret (mk_result 0).
End WitnessUpdateActuator.

(** ** proposal.rs *)

Definition LATEST_PROPOSAL_NUM : string := "LATEST_PROPOSAL_NUM".
Definition MAINTENANCE_TIME_INTERVAL_MS : Z := 6 * 3600 * 1000.
Definition ALLOWED_PARAM_IDS : list Z := seqZ 0 27.
(** [State as i32]. *)
Definition STATE_PENDING : Z := 0.
Definition STATE_CANCELED : Z := 3.

Definition proposal_key (id : Z) : bytes := i64_to_be_bytes id.
Definition get_proposal (id : Z) (w : world) : option Proposal.t := w_proposal w !! proposal_key id.
Definition put_proposal (p : Proposal.t) (w : world) : world :=
  w <| w_proposal ::= insert (proposal_key (Proposal.proposal_id p)) p |>.
Definition is_witness (a : Address) (w : world) : bool := witness_exists a w.

(** The parameter ids that are not supported; the source scans the map in an
    unspecified order, so which of them its message names is not fixed. *)
Definition bad_params (m : gmap Z Z) : list Z :=
  filter (λ k, k ∉ ALLOWED_PARAM_IDS) (fst <$> map_to_list m).

Module ProposalCreateActuator.
Definition validate (c : ProposalCreateContract.t) (w : world) : R Z :=
  owner ← parse_address "Invalid address" (ProposalCreateContract.owner_address c);
  if negb (account_exists owner w)
  then Err (Validate ("Account[" +:+ hex owner +:+ "] not exists")) else
  if negb (is_witness owner w)
  then Err (Validate ("Witness[" +:+ hex owner +:+ "] not exists")) else
  if bool_decide (ProposalCreateContract.parameters c = ∅)
  then Err (Validate "This proposal has no parameter.") else
  match bad_params (ProposalCreateContract.parameters c) with
  | key :: _ => Err (Validate ("Bad chain parameter id [" +:+ dec key +:+ "]"))
  | [] => Ok 0
  end.

Definition execute (c : ProposalCreateContract.t) : M ExecutionResult :=
  owner ← lift (parse_address "Invalid address" (ProposalCreateContract.owner_address c));
  latest ← gets (get_prop_i64 LATEST_PROPOSAL_NUM);
  id ← lift (add_i64 latest 1);
  now ← gets (get_prop_i64 props.LATEST_BLOCK_HEADER_TIMESTAMP);
  expiration_time ← lift (ok_or (Execute "long overflow")
    (checked_add now MAINTENANCE_TIME_INTERVAL_MS));
  let proposal := Proposal.mk id owner (ProposalCreateContract.parameters c) expiration_time now
    [] STATE_PENDING in
  _ ← modify (put_proposal proposal);
  _ ← modify (put_prop_i64 LATEST_PROPOSAL_NUM id);
  mret (mk_result 0).
End ProposalCreateActuator.

Module ProposalApproveActuator.
Definition validate (c : ProposalApproveContract.t) (w : world) : R Z :=
  owner ← parse_address "Invalid address" (ProposalApproveContract.owner_address c);
  if negb (account_exists owner w)
  then Err (Validate ("Account[" +:+ hex owner +:+ "] not exists")) else
  if negb (is_witness owner w)
  then Err (Validate ("Witness[" +:+ hex owner +:+ "] not exists")) else
  let id := ProposalApproveContract.proposal_id c in
  let missing := Validate ("Proposal[" +:+ dec id +:+ "] not exists") in
  if get_prop_i64 LATEST_PROPOSAL_NUM w <? id then Err missing else
  proposal ← ok_or missing (get_proposal id w);
  let now := get_prop_i64 props.LATEST_BLOCK_HEADER_TIMESTAMP w in
  if Proposal.expiration_time proposal <=? now
  then Err (Validate ("Proposal[" +:+ dec id +:+ "] expired")) else
  if Proposal.state proposal =? STATE_CANCELED
  then Err (Validate ("Proposal[" +:+ dec id +:+ "] canceled")) else
  let already := bool_decide (owner ∈ Proposal.approvals proposal) in
  if ProposalApproveContract.is_add_approval c then
    if already then
      Err (Validate ("Witness[" +:+ hex owner +:+ "]has approved proposal[" +:+ dec id +:+ "] before"))
    else Ok 0
  else if negb already then
    Err (Validate ("Witness[" +:+ hex owner +:+ "]has not approved proposal[" +:+ dec id +:+ "] before"))
  else Ok 0.

Definition execute (c : ProposalApproveContract.t) : M ExecutionResult :=
  owner ← lift (parse_address "Invalid address" (ProposalApproveContract.owner_address c));
  let id := ProposalApproveContract.proposal_id c in
  proposal ← reads (λ w, ok_or (Execute ("Proposal[" +:+ dec id +:+ "] not exists"))
                          (get_proposal id w));
  let approvals := if ProposalApproveContract.is_add_approval c
    then Proposal.approvals proposal ++ [owner]
    else filter (λ a, a ≠ owner) (Proposal.approvals proposal) in
  _ ← modify (put_proposal (proposal <| Proposal.approvals := approvals |>));
  mret (mk_result 0).
End ProposalApproveActuator.

Module ProposalDeleteActuator.
Definition validate (c : ProposalDeleteContract.t) (w : world) : R Z :=
  owner ← parse_address "Invalid address" (ProposalDeleteContract.owner_address c);
  if negb (account_exists owner w)
  then Err (Validate ("Account[" +:+ hex owner +:+ "] not exists")) else
  let id := ProposalDeleteContract.proposal_id c in
  let missing := Validate ("Proposal[" +:+ dec id +:+ "] not exists") in
  if get_prop_i64 LATEST_PROPOSAL_NUM w <? id then Err missing else
  proposal ← ok_or missing (get_proposal id w);
  if negb (bool_decide (Proposal.proposer_address proposal = owner))
  then Err (Validate ("Proposal[" +:+ dec id +:+ "] is not proposed by " +:+ hex owner)) else
  let now := get_prop_i64 props.LATEST_BLOCK_HEADER_TIMESTAMP w in
  if Proposal.expiration_time proposal <=? now
  then Err (Validate ("Proposal[" +:+ dec id +:+ "] expired")) else
  if Proposal.state proposal =? STATE_CANCELED
  then Err (Validate ("Proposal[" +:+ dec id +:+ "] canceled"))
  else Ok 0.

Definition execute (c : ProposalDeleteContract.t) : M ExecutionResult :=
  let id := ProposalDeleteContract.proposal_id c in
  proposal ← reads (λ w, ok_or (Execute ("Proposal[" +:+ dec id +:+ "] not exists"))
                          (get_proposal id w));
  _ ← modify (put_proposal (proposal <| Proposal.state := STATE_CANCELED |>));
  mret (mk_result 0).
End ProposalDeleteActuator.

(** ** Contract settings *)

(** The checks the three actuators share: the caller owns the contract. *)
Definition owned_contract (missing : string) (owner contract_addr : Address) (w : world) : R Z :=
  record ← ok_or (Validate missing) (get_contract contract_addr w);
  if negb (bool_decide (SmartContract.origin_address record = owner))
  then Err (Validate ("Account[" +:+ Addr.to_hex owner +:+ "] is not the owner of the contract"))
  else Ok 0.

Module ClearAbiActuator.
Definition validate (c : ClearAbiContract.t) (w : world) : R Z :=
  _ ← require_feature flags.ALLOW_TVM_CONSTANTINOPLE
    "contract type error,unexpected type [ClearABIContract]" w;
  owner ← parse_address "Invalid address" (ClearAbiContract.owner_address c);
  contract_addr ← parse_address "Invalid address" (ClearAbiContract.contract_address c);
  if negb (account_exists owner w)
  then Err (Validate ("Account[" +:+ Addr.to_hex owner +:+ "] not exists")) else
  owned_contract "Contract not exists" owner contract_addr w.

Definition execute (c : ClearAbiContract.t) : M ExecutionResult :=
  contract_addr ← lift (parse_address "Invalid address" (ClearAbiContract.contract_address c));
  record ← reads (λ w, ok_or (Execute "Contract not exists") (get_contract contract_addr w));
  _ ← modify (put_contract contract_addr (record <| SmartContract.abi := None |>));
  mret (mk_result 0).
End ClearAbiActuator.

Module UpdateSettingActuator.
Definition validate (c : UpdateSettingContract.t) (w : world) : R Z :=
  owner ← parse_address "Invalid address" (UpdateSettingContract.owner_address c);
  contract_addr ← parse_address "Invalid address" (UpdateSettingContract.contract_address c);
  if negb (account_exists owner w)
  then Err (Validate ("Account[" +:+ Addr.to_hex owner +:+ "] does not exist")) else
  let new_percent := UpdateSettingContract.consume_user_resource_percent c in
  if negb ((0 <=? new_percent) && (new_percent <=? 100))
  then Err (Validate "percent not in [0, 100]") else
  owned_contract "Contract does not exist" owner contract_addr w.

Definition execute (c : UpdateSettingContract.t) : M ExecutionResult :=
  contract_addr ← lift (parse_address "Invalid address" (UpdateSettingContract.contract_address c));
  record ← reads (λ w, ok_or (Execute "Contract does not exist") (get_contract contract_addr w));
  _ ← modify (put_contract contract_addr (record <| SmartContract.consume_user_resource_percent :=
    UpdateSettingContract.consume_user_resource_percent c |>));
  mret (mk_result 0).
End UpdateSettingActuator.

Module UpdateEnergyLimitActuator.
Definition validate (c : UpdateEnergyLimitContract.t) (w : world) : R Z :=
  _ ← require_feature flags.ALLOW_TVM_CONSTANTINOPLE
    "contract type error, unexpected type [UpdateEnergyLimitContract]" w;
  owner ← parse_address "Invalid address" (UpdateEnergyLimitContract.owner_address c);
  contract_addr ← parse_address "Invalid address" (UpdateEnergyLimitContract.contract_address c);
  if negb (account_exists owner w)
  then Err (Validate ("Account[" +:+ Addr.to_hex owner +:+ "] does not exist")) else
  let new_limit := UpdateEnergyLimitContract.origin_energy_limit c in
  if new_limit <=? 0 then Err (Validate "origin energy limit must be > 0") else
  owned_contract "Contract does not exist" owner contract_addr w.

Definition execute (c : UpdateEnergyLimitContract.t) : M ExecutionResult :=
  contract_addr ← lift (parse_address "Invalid address" (UpdateEnergyLimitContract.contract_address c));
  record ← reads (λ w, ok_or (Execute "Contract does not exist") (get_contract contract_addr w));
  _ ← modify (put_contract contract_addr (record <| SmartContract.origin_energy_limit :=
    UpdateEnergyLimitContract.origin_energy_limit c |>));
  mret (mk_result 0).
End UpdateEnergyLimitActuator.

#[export] Instance witness_create_actuator : Actuator WitnessCreateContract.t := {
  validate := WitnessCreateActuator.validate; execute := WitnessCreateActuator.execute }.
#[export] Instance witness_update_actuator : Actuator WitnessUpdateContract.t := {
  validate := WitnessUpdateActuator.validate; execute := WitnessUpdateActuator.execute }.
#[export] Instance proposal_create_actuator : Actuator ProposalCreateContract.t := {
  validate := ProposalCreateActuator.validate; execute := ProposalCreateActuator.execute }.
#[export] Instance proposal_approve_actuator : Actuator ProposalApproveContract.t := {
  validate := ProposalApproveActuator.validate; execute := ProposalApproveActuator.execute }.
#[export] Instance proposal_delete_actuator : Actuator ProposalDeleteContract.t := {
  validate := ProposalDeleteActuator.validate; execute := ProposalDeleteActuator.execute }.
#[export] Instance clear_abi_actuator : Actuator ClearAbiContract.t := {
  validate := ClearAbiActuator.validate; execute := ClearAbiActuator.execute }.
#[export] Instance update_setting_actuator : Actuator UpdateSettingContract.t := {
  validate := UpdateSettingActuator.validate; execute := UpdateSettingActuator.execute }.
#[export] Instance update_energy_limit_actuator : Actuator UpdateEnergyLimitContract.t := {
  validate := UpdateEnergyLimitActuator.validate; execute := UpdateEnergyLimitActuator.execute }.

(** ** Safety *)

(** A run that writes no part of the supply. *)
Ltac frame_only Hi :=
  inv_run; try done;
  match goal with |- trx_inv ?w' ∧ _ =>
    match type of Hi with trx_inv ?w => destruct (trx_frame w w') as (_ & ? & ?); try done; auto end
  end.

Section Safety.
Implicit Types w : world.

Lemma account_upgrade_cost_pos w : 0 < account_upgrade_cost w.
Proof.
  unfold account_upgrade_cost, DEFAULT_ACCOUNT_UPGRADE_COST.
  destruct (Z.ltb_spec 0 (get_prop_i64 ACCOUNT_UPGRADE_COST w)); lia.
Qed.

Lemma witness_create_run c w f :
  trx_inv w → WitnessCreateActuator.validate c w = Ok f →
  let o := WitnessCreateContract.owner_address c in
  f = account_upgrade_cost w ∧ witness_exists o w = false ∧
  ∃ oacc x, get_account o w = Some oacc ∧ f ≤ Account.balance oacc ∧ Witness.address x = o ∧
    WitnessCreateActuator.execute c w =
      (Ok (mk_result f), burn_fee f (put_account o
        (oacc <| Account.is_witness := true |> <| Account.balance := Account.balance oacc - f |>)
        (put_witness_record x w))).
Proof.
  intros Hi Hv o. unfold WitnessCreateActuator.validate in Hv.
  inv_run; parse_facts; bool_prop.
  match goal with E : get_account _ w = Some ?a |- _ =>
    pose proof (balance_is_i64 _ _ _ Hi E); rename E into Eo, a into oacc end.
  pose proof (account_upgrade_cost_pos w). fold o in Eo |- *.
  split_and!; [done|done|]. eexists oacc, _. split_and!; [done|done|..].
  2: { unfold WitnessCreateActuator.execute. fold o. rewrite !parse_address_ok by done. run.
    match goal with |- context [put_witness_record ?x w] =>
      assert (Eo' : get_account o (put_witness_record x w) = Some oacc) by done end.
    run Eo'. rewrite debit_ok by i64_lia. run.
    unfold burn_fee. rewrite (proj2 (Z.ltb_lt _ _)) by done. done. }
  done.
Qed.

Lemma witness_create_safe_outcome (c : WitnessCreateContract.t) w :
  trx_inv w → safe_outcome (apply_contract c w) w.
Proof.
  intros Hi. unfold apply_contract, mbind, ST_bind, reads. simpl.
  destruct (WitnessCreateActuator.validate c w) as [f|e|] eqn:Hv; [|done|done].
  destruct (witness_create_run c w f Hi Hv) as (Hf & _ & oacc & x & Eo & Hb & _ & ->). simpl.
  pose proof (account_upgrade_cost_pos w).
  pose proof (get_account_wf _ _ _ (proj1 Hi) Eo).
  destruct (trx_frame w (put_witness_record x w)) as (_ & H2 & H1); try done.
  rewrite <-H2. eapply burn_from_inv; [auto|done| |lia|].
  - match goal with H : acc_wf _ |- _ => destruct H end. constructor; try done. simpl. lia.
  - unfold acc_trx, energy_frozen. simpl. lia.
Qed.

Lemma witness_update_safe_outcome (c : WitnessUpdateContract.t) w :
  trx_inv w → safe_outcome (apply_contract c w) w.
Proof.
  intros Hi. apply_cases c w; unfold WitnessUpdateActuator.validate, WitnessUpdateActuator.execute in E;
    frame_only Hi.
Qed.

Lemma proposal_create_safe_outcome (c : ProposalCreateContract.t) w :
  trx_inv w → safe_outcome (apply_contract c w) w.
Proof.
  intros Hi. apply_cases c w; unfold ProposalCreateActuator.execute in E.
  - apply ST_bind_Ok in E as (f & ? & [_ ->]%reads_Ok & E). inv_run.
    match goal with |- trx_inv (put_prop_i64 _ _ ?v) ∧ _ =>
      destruct (trx_frame w v) as (_ & Hft & Hfi); try done end.
    rewrite <-Hft. apply put_prop_inv; [auto|done|not_weight|].
    pose proof (inv_props _ (proj1 Hi) LATEST_PROPOSAL_NUM ltac:(not_weight)).
    unfold nonneg_i64. i64_lia.
  - apply ST_bind_Err in E as [[_ ->]%reads_Err|(f & ? & [_ ->]%reads_Ok & E)]; [done|].
    inv_run; done.
Qed.

Lemma proposal_approve_safe_outcome (c : ProposalApproveContract.t) w :
  trx_inv w → safe_outcome (apply_contract c w) w.
Proof.
  intros Hi. apply_cases c w; unfold ProposalApproveActuator.execute in E.
  - apply ST_bind_Ok in E as (f & ? & [_ ->]%reads_Ok & E). frame_only Hi.
  - apply ST_bind_Err in E as [[_ ->]%reads_Err|(f & ? & [_ ->]%reads_Ok & E)]; [done|frame_only Hi].
Qed.

Lemma proposal_delete_safe_outcome (c : ProposalDeleteContract.t) w :
  trx_inv w → safe_outcome (apply_contract c w) w.
Proof.
  intros Hi. apply_cases c w; unfold ProposalDeleteActuator.execute in E.
  - apply ST_bind_Ok in E as (f & ? & [_ ->]%reads_Ok & E). frame_only Hi.
  - apply ST_bind_Err in E as [[_ ->]%reads_Err|(f & ? & [_ ->]%reads_Ok & E)]; [done|frame_only Hi].
Qed.

Lemma clear_abi_safe_outcome (c : ClearAbiContract.t) w :
  trx_inv w → safe_outcome (apply_contract c w) w.
Proof.
  intros Hi. apply_cases c w; unfold ClearAbiActuator.execute in E.
  - apply ST_bind_Ok in E as (f & ? & [_ ->]%reads_Ok & E). frame_only Hi.
  - apply ST_bind_Err in E as [[_ ->]%reads_Err|(f & ? & [_ ->]%reads_Ok & E)]; [done|frame_only Hi].
Qed.
Lemma update_setting_safe_outcome (c : UpdateSettingContract.t) w :
  trx_inv w → safe_outcome (apply_contract c w) w.
Proof.
  intros Hi. apply_cases c w; unfold UpdateSettingActuator.execute in E.
  - apply ST_bind_Ok in E as (f & ? & [_ ->]%reads_Ok & E). frame_only Hi.
  - apply ST_bind_Err in E as [[_ ->]%reads_Err|(f & ? & [_ ->]%reads_Ok & E)]; [done|frame_only Hi].
Qed.
Lemma update_energy_limit_safe_outcome (c : UpdateEnergyLimitContract.t) w :
  trx_inv w → safe_outcome (apply_contract c w) w.
Proof.
  intros Hi. apply_cases c w; unfold UpdateEnergyLimitActuator.execute in E.
  - apply ST_bind_Ok in E as (f & ? & [_ ->]%reads_Ok & E). frame_only Hi.
  - apply ST_bind_Err in E as [[_ ->]%reads_Err|(f & ? & [_ ->]%reads_Ok & E)]; [done|frame_only Hi].
Qed.
End Safety.

#[export] Instance witness_create_safe : ActuatorSafe WitnessCreateContract.t := {
  contract_wf _ _ := True; apply_safe c w _ := witness_create_safe_outcome c w }.
#[export] Instance witness_update_safe : ActuatorSafe WitnessUpdateContract.t := {
  contract_wf _ _ := True; apply_safe c w _ := witness_update_safe_outcome c w }.
#[export] Instance proposal_create_safe : ActuatorSafe ProposalCreateContract.t := {
  contract_wf _ _ := True; apply_safe c w _ := proposal_create_safe_outcome c w }.
#[export] Instance proposal_approve_safe : ActuatorSafe ProposalApproveContract.t := {
  contract_wf _ _ := True; apply_safe c w _ := proposal_approve_safe_outcome c w }.
#[export] Instance proposal_delete_safe : ActuatorSafe ProposalDeleteContract.t := {
  contract_wf _ _ := True; apply_safe c w _ := proposal_delete_safe_outcome c w }.
#[export] Instance clear_abi_safe : ActuatorSafe ClearAbiContract.t := {
  contract_wf _ _ := True; apply_safe c w _ := clear_abi_safe_outcome c w }.
#[export] Instance update_setting_safe : ActuatorSafe UpdateSettingContract.t := {
  contract_wf _ _ := True; apply_safe c w _ := update_setting_safe_outcome c w }.
#[export] Instance update_energy_limit_safe : ActuatorSafe UpdateEnergyLimitContract.t := {
  contract_wf _ _ := True; apply_safe c w _ := update_energy_limit_safe_outcome c w }.

(** ** The committee invariant *)

Record proposal_ok (w : world) (k : bytes) (p : Proposal.t) : Prop := {
  pok_key : k = proposal_key (Proposal.proposal_id p);
  pok_id : 0 < Proposal.proposal_id p ≤ get_prop_i64 LATEST_PROPOSAL_NUM w;
  pok_nodup : NoDup (Proposal.approvals p);
  pok_witness : Forall (λ a, witness_exists a w = true) (Proposal.approvals p);
}.
Record committee_inv (w : world) : Prop := {
  com_witness : map_Forall (λ k x, Witness.address x = k) (w_witness w);
  com_proposal : map_Forall (proposal_ok w) (w_proposal w);
  com_latest : 0 ≤ get_prop_i64 LATEST_PROPOSAL_NUM w;
}.

Inductive committee_op : Type :=
| OpWitnessCreate (c : WitnessCreateContract.t)
| OpWitnessUpdate (c : WitnessUpdateContract.t)
| OpProposalCreate (c : ProposalCreateContract.t)
| OpProposalApprove (c : ProposalApproveContract.t)
| OpProposalDelete (c : ProposalDeleteContract.t).
Definition apply_committee (op : committee_op) : M ExecutionResult :=
  match op with
  | OpWitnessCreate c => apply_contract c
  | OpWitnessUpdate c => apply_contract c
  | OpProposalCreate c => apply_contract c
  | OpProposalApprove c => apply_contract c
  | OpProposalDelete c => apply_contract c
  end.

Section Committee.
Implicit Types w : world.

Lemma proposal_key_inj a b : is_i64 a → is_i64 b → proposal_key a = proposal_key b → a = b.
Proof. apply i64_to_be_bytes_inj. Qed.

(** The invariant only reads the witness and proposal stores and the counter,
    and keeps holding when witnesses are added. *)
Lemma committee_frame w w' :
  committee_inv w →
  map_Forall (λ k x, Witness.address x = k) (w_witness w') →
  (∀ a, witness_exists a w = true → witness_exists a w' = true) →
  w_proposal w' = w_proposal w →
  get_prop_i64 LATEST_PROPOSAL_NUM w' = get_prop_i64 LATEST_PROPOSAL_NUM w →
  committee_inv w'.
Proof.
  intros [Hw Hp Hl] Hw' Hx Ep El. constructor; [done| |by rewrite El].
  rewrite Ep. intros k p E. destruct (Hp k p E) as [? ? ? Hf].
  constructor; [done|by rewrite El|done|]. eapply Forall_impl; [exact Hf|]. simpl. auto.
Qed.

Lemma witness_exists_put x a w :
  witness_exists a w = true → witness_exists a (put_witness_record x w) = true.
Proof.
  unfold witness_exists, put_witness_record, put_witness. simpl. rewrite !bool_decide_eq_true.
  intros [y Hy]. destruct (decide (Witness.address x = a)) as [<-|Hne].
  - rewrite lookup_insert_eq. eauto.
  - rewrite lookup_insert_ne by done. eauto.
Qed.

(** Rewriting a stored proposal without touching its id or adding bad approvals. *)
Lemma committee_put_proposal id p p' w :
  committee_inv w → get_proposal id w = Some p →
  Proposal.proposal_id p' = Proposal.proposal_id p →
  NoDup (Proposal.approvals p') → Forall (λ a, witness_exists a w = true) (Proposal.approvals p') →
  committee_inv (put_proposal p' w).
Proof.
  intros [Hw Hp Hl] E Hid Hn Hf. destruct (Hp _ _ E) as [Hk Hi _ _].
  constructor; [done| |done]. unfold put_proposal. simpl.
  apply map_Forall_insert_2; [constructor; [done|by rewrite Hid|done|done]|].
  eapply map_Forall_impl; [exact Hp|]. intros k q []. by constructor.
Qed.

Lemma committee_create_fresh w c :
  committee_inv w → is_i64 (get_prop_i64 LATEST_PROPOSAL_NUM w + 1) →
  get_proposal (get_prop_i64 LATEST_PROPOSAL_NUM w + 1) w = None ∧
  ∀ p, Proposal.proposal_id p = get_prop_i64 LATEST_PROPOSAL_NUM w + 1 → Proposal.approvals p = [] →
    Proposal.proposer_address p = c →
    committee_inv (put_prop_i64 LATEST_PROPOSAL_NUM (get_prop_i64 LATEST_PROPOSAL_NUM w + 1)
      (put_proposal p w)).
Proof.
  intros [Hw Hp Hl] Hi. set (id := get_prop_i64 LATEST_PROPOSAL_NUM w + 1) in *. split.
  - unfold get_proposal. apply eq_None_not_Some. intros [p E].
    destruct (Hp _ _ E) as [Hk Hid _ _]. apply proposal_key_inj in Hk; [|done|i64_lia]. lia.
  - intros p Hid Ha _. set (w1 := put_prop_i64 LATEST_PROPOSAL_NUM id (put_proposal p w)).
    assert (El : get_prop_i64 LATEST_PROPOSAL_NUM w1 = id) by by apply get_put_prop_eq.
    constructor; [done| |rewrite El; lia].
    change (w_proposal w1) with (<[proposal_key (Proposal.proposal_id p) := p]> (w_proposal w)).
    intros k q E. destruct (decide (proposal_key (Proposal.proposal_id p) = k)) as [<-|Hne].
    + rewrite lookup_insert_eq in E. injection E as <-.
      constructor; rewrite ?Ha, ?El; [done|lia|constructor|constructor].
    + rewrite lookup_insert_ne in E by done. destruct (Hp _ _ E) as [? ? ? ?].
      constructor; rewrite ?El; try done; lia.
Qed.
End Committee.

(** ** Properties *)

(** C33: the committee stores stay consistent under every witness and proposal
    operation that succeeds: each witness record sits under its own address,
    each proposal under its own id, no proposal is beyond the id counter, and
    the approvals of a proposal are distinct existing witnesses. *)
Theorem committee_inv_preserved (op : committee_op) (w w' : world) r :
  committee_inv w → apply_committee op w = (Ok r, w') → committee_inv w'.
Proof.
  intros Hc E. pose proof (com_witness _ Hc) as Hw.
  destruct op as [c|c|c|c|c]; unfold apply_committee, apply_contract in E; simpl in E.
  - unfold WitnessCreateActuator.validate, WitnessCreateActuator.execute in E.
    inv_run; parse_facts. eapply (committee_frame _ _ Hc); try done.
    + unfold put_witness_record, put_witness. simpl. by apply map_Forall_insert_2.
    + intros a Ha. by apply (witness_exists_put _ a w).
    + unfold burn_trx. by rewrite get_put_prop_ne.
  - unfold WitnessUpdateActuator.validate, WitnessUpdateActuator.execute in E.
    inv_run; parse_facts. eapply (committee_frame _ _ Hc); try done.
    + unfold put_witness_record, put_witness. simpl. by apply map_Forall_insert_2.
    + intros a Ha. by apply (witness_exists_put _ a w).
  - unfold ProposalCreateActuator.execute in E.
    apply ST_bind_Ok in E as (f & ? & [_ ->]%reads_Ok & E). inv_run.
    by eapply (committee_create_fresh w _ Hc).
  - unfold ProposalApproveActuator.validate, ProposalApproveActuator.execute in E.
    inv_run; parse_facts; bool_prop; simplify_eq.
    all: match goal with Ep : get_proposal _ _ = Some ?p |- _ =>
      destruct (com_proposal _ Hc _ _ Ep) as [? ? Hn Hf];
      eapply committee_put_proposal; [done|exact Ep|done|..]; simpl end.
    + apply NoDup_app. split; [done|]. split; [|apply NoDup_singleton]. set_solver.
    + apply Forall_app. split; [done|]. by repeat constructor.
    + by apply NoDup_filter.
    + by apply Forall_filter.
  - unfold ProposalDeleteActuator.execute in E.
    apply ST_bind_Ok in E as (f & ? & [_ ->]%reads_Ok & E). inv_run.
    match goal with Ep : get_proposal _ _ = Some ?p |- _ =>
      destruct (com_proposal _ Hc _ _ Ep) as [? ? Hn Hf];
      by eapply committee_put_proposal end.
Qed.

(** Alice is a witness; she proposes a parameter change and approves it. *)
Definition committee_sample : world :=
  put_witness_record (Witness.default <| Witness.address := Sample.addr 1 |>) Sample.state.

Lemma committee_inv_preserved_witness :
  let op1 := OpProposalCreate (ProposalCreateContract.mk (Sample.addr 1) {[ 0 := 5 ]}) in
  let op2 := OpProposalApprove (ProposalApproveContract.mk (Sample.addr 1) 1 true) in
  let w1 := (apply_committee op1 committee_sample).2 in
  let w2 := (apply_committee op2 w1).2 in
  committee_inv committee_sample ∧ committee_inv w2 ∧
  Proposal.approvals <$> get_proposal 1 w2 = Some [Sample.addr 1].
Proof.
  intros op1 op2 w1 w2.
  assert (H0 : committee_inv committee_sample).
  { constructor; [|apply map_Forall_empty|vm_compute; discriminate].
    change (w_witness committee_sample) with
      (<[Sample.addr 1 := Witness.default <| Witness.address := Sample.addr 1 |>]> (∅ : gmap bytes Witness.t)).
    apply map_Forall_insert_2; [reflexivity|apply map_Forall_empty]. }
  assert (E1 : apply_committee op1 committee_sample = (Ok (mk_result 0), w1)) by (vm_compute; reflexivity).
  assert (E2 : apply_committee op2 w1 = (Ok (mk_result 0), w2)) by (vm_compute; reflexivity).
  split; [exact H0|]. split; [|vm_compute; reflexivity].
  exact (committee_inv_preserved op2 w1 w2 _ (committee_inv_preserved op1 _ w1 _ H0 E1) E2).
Defined.
