(* ===== verification/Assets.v ===== *)
(** * TRC10 tokens (crates/actuators/src/asset_issue.rs, asset_transfer.rs,
    participate_asset_issue.rs, unfreeze_asset.rs, update_asset.rs) *)

From stdpp Require Import gmap strings pretty numbers fin_maps prelude.
From S2P Require Import Prelude Types Proto State Actuator Transfer Stake Governance.
Open Scope Z_scope.

Definition ASSET_ISSUE_FEE : string := "ASSET_ISSUE_FEE".
Definition DEFAULT_ASSET_ISSUE_FEE : Z := 1024000000.
Definition ONE_DAY_NET_LIMIT_KEY : string := "ONE_DAY_NET_LIMIT".
Definition DEFAULT_ONE_DAY_NET_LIMIT : Z := 57600000000.
Definition MAX_ASSET_NAME_LEN : nat := 32.
Definition MAX_ASSET_DESCRIPTION_LEN : nat := 200.
Definition PRECISION_DECIMAL : Z := 6.
Definition MAX_FROZEN_SUPPLY_NUMBER : nat := 10.
Definition MIN_FROZEN_SUPPLY_TIME : Z := 1.
Definition MAX_FROZEN_SUPPLY_TIME : Z := 3652.

Definition valid_readable (bs : bytes) (max : nat) : bool :=
  negb (bool_decide (bs = [])) && bool_decide (length bs ≤ max)%nat
  && forallb (λ b, (33 <=? b) && (b <=? 126)) bs.
Definition valid_description (desc : bytes) : bool :=
  bool_decide (length desc ≤ MAX_ASSET_DESCRIPTION_LEN)%nat.
(** [slice::eq_ignore_ascii_case]. *)
Definition to_ascii_lowercase (b : Z) : Z := if (65 <=? b) && (b <=? 90) then b + 32 else b.
Definition eq_ignore_ascii_case (a b : bytes) : bool :=
  bool_decide (to_ascii_lowercase <$> a = to_ascii_lowercase <$> b).

Definition one_day_net_limit (w : world) : Z :=
  let v := get_prop_i64 ONE_DAY_NET_LIMIT_KEY w in
  if 0 <? v then v else DEFAULT_ONE_DAY_NET_LIMIT.

(** ** AssetIssueContract *)

Module AssetIssueActuator.
Definition fee (w : world) : Z :=
  let f := get_prop_i64 ASSET_ISSUE_FEE w in
  if 0 <? f then f else DEFAULT_ASSET_ISSUE_FEE.

Fixpoint check_frozen (remain : Z) (l : list FrozenSupply.t) : R Z :=
  match l with
  | [] => Ok remain
  | f :: l =>
      if FrozenSupply.frozen_amount f <=? 0
      then Err (Validate "Frozen supply must be greater than 0!") else
      if remain <? FrozenSupply.frozen_amount f
      then Err (Validate "Frozen supply cannot exceed total supply") else
      if negb ((MIN_FROZEN_SUPPLY_TIME <=? FrozenSupply.frozen_days f)
               && (FrozenSupply.frozen_days f <=? MAX_FROZEN_SUPPLY_TIME))
      then Err (Validate "frozenDuration must be less than 3652 days and more than 1 days") else
      remain ← sub_i64 remain (FrozenSupply.frozen_amount f);
      check_frozen remain l
  end.

Definition validate (c : AssetIssueContract.t) (w : world) : R Z :=
  owner ← parse_address "Invalid ownerAddress" (AssetIssueContract.owner_address c);
  if negb (valid_readable (AssetIssueContract.name c) MAX_ASSET_NAME_LEN)
  then Err (Validate "Invalid assetName") else
  if eq_ignore_ascii_case (AssetIssueContract.name c) (bytes_of_string "trx")
  then Err (Validate "assetName can't be trx") else
  let precision := AssetIssueContract.precision c in
  if negb (precision =? 0) && ((precision <? 0) || (PRECISION_DECIMAL <? precision))
  then Err (Validate "precision cannot exceed 6") else
  if negb (bool_decide (AssetIssueContract.abbr c = []))
     && negb (valid_readable (AssetIssueContract.abbr c) MAX_ASSET_NAME_LEN)
  then Err (Validate "Invalid abbreviation for token") else
  if negb (valid_url (AssetIssueContract.url c)) then Err (Validate "Invalid url") else
  if negb (valid_description (AssetIssueContract.description c))
  then Err (Validate "Invalid description") else
  let now := get_prop_i64 props.LATEST_BLOCK_HEADER_TIMESTAMP w in
  if AssetIssueContract.start_time c =? 0
  then Err (Validate "Start time should be not empty") else
  if AssetIssueContract.end_time c =? 0 then Err (Validate "End time should be not empty") else
  if AssetIssueContract.end_time c <=? AssetIssueContract.start_time c
  then Err (Validate "End time should be greater than start time") else
  if AssetIssueContract.start_time c <=? now
  then Err (Validate "Start time should be greater than HeadBlockTime") else
  if AssetIssueContract.total_supply c <=? 0
  then Err (Validate "TotalSupply must greater than 0!") else
  if AssetIssueContract.trx_num c <=? 0 then Err (Validate "TrxNum must greater than 0!") else
  if AssetIssueContract.num c <=? 0 then Err (Validate "Num must greater than 0!") else
  if negb (AssetIssueContract.public_free_asset_net_usage c =? 0)
  then Err (Validate "PublicFreeAssetNetUsage must be 0!") else
  if bool_decide (MAX_FROZEN_SUPPLY_NUMBER < length (AssetIssueContract.frozen_supply c))%nat
  then Err (Validate "Frozen supply list length is too long") else
  let day_limit := one_day_net_limit w in
  if (AssetIssueContract.free_asset_net_limit c <? 0)
     || (day_limit <=? AssetIssueContract.free_asset_net_limit c)
  then Err (Validate "Invalid FreeAssetNetLimit") else
  if (AssetIssueContract.public_free_asset_net_limit c <? 0)
     || (day_limit <=? AssetIssueContract.public_free_asset_net_limit c)
  then Err (Validate "Invalid PublicFreeAssetNetLimit") else
  _ ← check_frozen (AssetIssueContract.total_supply c) (AssetIssueContract.frozen_supply c);
  account ← ok_or (Validate "Account not exists") (get_account owner w);
  if negb (bool_decide (Account.asset_issued_id account = []))
  then Err (Validate "An account can only issue one asset") else
  let fee := fee w in
  if Account.balance account <? fee then Err (Validate "No enough balance for fee!")
  else Ok fee.

(** The loop that splits the supply: the frozen entries and the remainder. *)
Fixpoint split_supply (start_time : Z) (l : list FrozenSupply.t) (frozen : list Frozen.t) (remain : Z) :
    R (list Frozen.t * Z) :=
  match l with
  | [] => Ok (frozen, remain)
  | f :: l =>
      let period := default I64_MAX (checked_mul (FrozenSupply.frozen_days f) FROZEN_PERIOD_MS) in
      expire_time ← ok_or (Execute "long overflow") (checked_add start_time period);
      remain ← sub_i64 remain (FrozenSupply.frozen_amount f);
      split_supply start_time l
        (frozen ++ [Frozen.mk (FrozenSupply.frozen_amount f) expire_time]) remain
  end.

Definition execute (c : AssetIssueContract.t) : M ExecutionResult :=
  owner ← lift (parse_address "Invalid ownerAddress" (AssetIssueContract.owner_address c));
  fee ← gets fee;
  id ← allocate_token_id;
  _ ← modify (put_asset_issue id (c <| AssetIssueContract.id := dec id |>));
  account ← reads (λ w, ok_or (Execute "owner account missing") (get_account owner w));
  balance ← lift (ok_or (Execute "balance is not sufficient")
    (opt_filter (λ b, 0 <=? b) (checked_sub (Account.balance account) fee)));
  _ ← modify (burn_trx fee);
  p ← lift (split_supply (AssetIssueContract.start_time c) (AssetIssueContract.frozen_supply c)
              (Account.frozen_supply account) (AssetIssueContract.total_supply c));
  let account := set_asset_v2_balance
    (account <| Account.balance := balance |> <| Account.frozen_supply := p.1 |>) id p.2 in
  _ ← modify (put_account owner
    (account <| Account.asset_issued_id := bytes_of_string (dec id) |>
       <| Account.asset_issued_name := AssetIssueContract.name c |>));
  mret (mk_result fee).
End AssetIssueActuator.

(** ** TransferAssetContract *)

Module TransferAssetActuator.
Definition TRANSFER_ASSET_FEE : Z := 0.
Definition parse_address (bs : bytes) (what : string) : R Address :=
  Actuator.parse_address ("Invalid " +:+ what) bs.
Definition asset_key (c : TransferAssetContract.t) : string :=
  string_of_bytes (from_utf8_lossy (TransferAssetContract.asset_name c)).

Definition validate (c : TransferAssetContract.t) (w : world) : R Z :=
  owner ← parse_address (TransferAssetContract.owner_address c) "ownerAddress";
  to ← parse_address (TransferAssetContract.to_address c) "toAddress";
  let amount := TransferAssetContract.amount c in
  if amount <=? 0 then Err (Validate "Amount must be greater than 0.") else
  if bool_decide (owner = to) then Err (Validate "Cannot transfer asset to yourself.") else
  owner_account ← ok_or (Validate "No owner account!") (get_account owner w);
  let key := asset_key c in
  let asset_balance := default 0 (Account.asset_v2 owner_account !! key) in
  if asset_balance <=? 0 then Err (Validate "assetBalance must be greater than 0.") else
  if asset_balance <? amount then Err (Validate "assetBalance is not sufficient.") else
  match get_account to w with
  | Some to_account =>
      match Account.asset_v2 to_account !! key with
      | Some to_balance =>
          _ ← ok_or (Validate "long overflow") (checked_add to_balance amount);
          Ok TRANSFER_ASSET_FEE
      | None => Ok TRANSFER_ASSET_FEE
      end
  | None =>
      fee ← add_i64 TRANSFER_ASSET_FEE
        (get_prop_i64 props.CREATE_NEW_ACCOUNT_FEE_IN_SYSTEM_CONTRACT w);
      if Account.balance owner_account <? fee
      then Err (Validate "Validate TransferAssetActuator error, insufficient fee.")
      else Ok fee
  end.

Definition execute (c : TransferAssetContract.t) : M ExecutionResult :=
  owner ← lift (parse_address (TransferAssetContract.owner_address c) "ownerAddress");
  to ← lift (parse_address (TransferAssetContract.to_address c) "toAddress");
  let amount := TransferAssetContract.amount c in
  let key := asset_key c in
  exists_ ← gets (account_exists to);
  fee ← (if negb exists_ then
           _ ← modify (create_account to);
           p ← gets (get_prop_i64 props.CREATE_NEW_ACCOUNT_FEE_IN_SYSTEM_CONTRACT);
           lift (add_i64 TRANSFER_ASSET_FEE p)
         else mret TRANSFER_ASSET_FEE);
  owner_account ← reads (λ w, ok_or (Execute "owner account missing") (get_account owner w));
  new_owner_asset ← lift (ok_or (Execute "reduceAssetAmount failed !")
    (opt_filter (λ b, 0 <=? b)
       (checked_sub (default 0 (Account.asset_v2 owner_account !! key)) amount)));
  balance ← lift (ok_or (Execute "Validate TransferAssetActuator error, insufficient fee.")
    (opt_filter (λ b, 0 <=? b) (checked_sub (Account.balance owner_account) fee)));
  _ ← modify (put_account owner
    (owner_account <| Account.asset_v2 ::= insert key new_owner_asset |>
       <| Account.balance := balance |>));
  to_account ← reads (λ w, ok_or (Execute "to account missing") (get_account to w));
  new_to_asset ← lift (ok_or (Execute "long overflow")
    (checked_add (default 0 (Account.asset_v2 to_account !! key)) amount));
  _ ← modify (put_account to (to_account <| Account.asset_v2 ::= insert key new_to_asset |>));
  _ ← (if 0 <? fee then modify (burn_trx fee) else mret ());
  mret (mk_result fee).
End TransferAssetActuator.

(** ** ParticipateAssetIssueContract *)

Module ParticipateAssetIssueActuator.
Definition parse_address (bs : bytes) (what : string) : R Address :=
  Actuator.parse_address ("Invalid " +:+ what) bs.
Definition asset_id (bs : bytes) : option Z := parse_i64 bs.

(** The product fits an [i128]; a zero [trx_num] is a division by zero. *)
Definition exchange_amount (amount num trx_num : Z) : R Z :=
  if trx_num =? 0 then Panic
  else ok_or (Validate "long overflow") (checked_i64 (Z.quot (amount * num) trx_num)).

Definition no_asset (name : bytes) : ActuatorError :=
  Validate ("No asset named " +:+ string_of_bytes (from_utf8_lossy name)).

Definition validate (c : ParticipateAssetIssueContract.t) (w : world) : R Z :=
  owner ← parse_address (ParticipateAssetIssueContract.owner_address c) "ownerAddress";
  to ← parse_address (ParticipateAssetIssueContract.to_address c) "toAddress";
  let amount := ParticipateAssetIssueContract.amount c in
  let name := ParticipateAssetIssueContract.asset_name c in
  if amount <=? 0 then Err (Validate "Amount must greater than 0!") else
  if bool_decide (owner = to) then Err (Validate "Cannot participate asset Issue yourself !") else
  owner_account ← ok_or (Validate "Account does not exist!") (get_account owner w);
  if Account.balance owner_account <? amount then Err (Validate "No enough balance !") else
  id ← ok_or (no_asset name) (asset_id name);
  asset ← ok_or (no_asset name) (get_asset_issue id w);
  if negb (bool_decide (AssetIssueContract.owner_address asset = to))
  then Err (Validate ("The asset is not issued by " +:+ hex to)) else
  let now := get_prop_i64 props.LATEST_BLOCK_HEADER_TIMESTAMP w in
  if (AssetIssueContract.end_time asset <=? now) || (now <? AssetIssueContract.start_time asset)
  then Err (Validate "No longer valid period!") else
  exchange ← exchange_amount amount (AssetIssueContract.num asset) (AssetIssueContract.trx_num asset);
  if exchange <=? 0 then Err (Validate "Can not process the exchange!") else
  to_account ← ok_or (Validate "To account does not exist!") (get_account to w);
  if asset_v2_balance to_account id <? exchange
  then Err (Validate "Asset balance is not enough !")
  else Ok 0.

(** [map_err(|e| Execute(format!(..)))] with the debug rendering of the error;
    the only one is the overflow. *)
Definition dquote : string := string_of_bytes [34].
Definition exchange_amount_exec (amount num trx_num : Z) : R Z :=
  match exchange_amount amount num trx_num with
  | Ok v => Ok v
  | Err _ => Err (Execute ("Validate(" +:+ dquote +:+ "long overflow" +:+ dquote +:+ ")"))
  | Panic => Panic
  end.

Definition execute (c : ParticipateAssetIssueContract.t) : M ExecutionResult :=
  owner ← lift (parse_address (ParticipateAssetIssueContract.owner_address c) "ownerAddress");
  to ← lift (parse_address (ParticipateAssetIssueContract.to_address c) "toAddress");
  let amount := ParticipateAssetIssueContract.amount c in
  id ← lift (ok_or (Execute "bad asset name")
               (asset_id (ParticipateAssetIssueContract.asset_name c)));
  asset ← reads (λ w, ok_or (Execute "asset record missing") (get_asset_issue id w));
  exchange ← lift (exchange_amount_exec amount (AssetIssueContract.num asset)
                     (AssetIssueContract.trx_num asset));
  owner_account ← reads (λ w, ok_or (Execute "owner account missing") (get_account owner w));
  balance ← lift (ok_or (Execute "balance is not sufficient")
    (opt_filter (λ b, 0 <=? b) (checked_sub (Account.balance owner_account) amount)));
  let owner_account := owner_account <| Account.balance := balance |> in
  new_owner_tokens ← lift (ok_or (Execute "long overflow")
    (checked_add (asset_v2_balance owner_account id) exchange));
  let owner_account := set_asset_v2_balance owner_account id new_owner_tokens in
  to_account ← reads (λ w, ok_or (Execute "to account missing") (get_account to w));
  balance ← lift (ok_or (Execute "long overflow")
    (checked_add (Account.balance to_account) amount));
  let to_account := to_account <| Account.balance := balance |> in
  new_to_tokens ← lift (ok_or (Execute "reduceAssetAmount failed !")
    (opt_filter (λ b, 0 <=? b) (checked_sub (asset_v2_balance to_account id) exchange)));
  let to_account := set_asset_v2_balance to_account id new_to_tokens in
  _ ← modify (put_account owner owner_account);
  _ ← modify (put_account to to_account);
  mret (mk_result 0).
End ParticipateAssetIssueActuator.

(** ** UnfreezeAssetContract *)

Definition issued_asset_id (bs : bytes) : option Z := parse_i64 bs.

Module UnfreezeAssetActuator.
Definition validate (c : UnfreezeAssetContract.t) (w : world) : R Z :=
  owner ← parse_address "Invalid address" (UnfreezeAssetContract.owner_address c);
  account ← ok_or (Validate ("Account[" +:+ hex owner +:+ "] does not exist")) (get_account owner w);
  if bool_decide (Account.frozen_supply account = [])
  then Err (Validate "no frozen supply balance") else
  if bool_decide (Account.asset_issued_id account = [])
  then Err (Validate "this account has not issued any asset") else
  let now := get_prop_i64 props.LATEST_BLOCK_HEADER_TIMESTAMP w in
  if negb (existsb (λ f, Frozen.expire_time f <=? now) (Account.frozen_supply account))
  then Err (Validate "It's not time to unfreeze asset supply")
  else Ok 0.

Fixpoint split_matured (now : Z) (l : list Frozen.t) (amount : Z) (remaining : list Frozen.t) :
    R (Z * list Frozen.t) :=
  match l with
  | [] => Ok (amount, remaining)
  | f :: l =>
      if Frozen.expire_time f <=? now then
        amount ← ok_or (Execute "long overflow") (checked_add amount (Frozen.frozen_balance f));
        split_matured now l amount remaining
      else split_matured now l amount (remaining ++ [f])
  end.

Definition execute (c : UnfreezeAssetContract.t) : M ExecutionResult :=
  owner ← lift (parse_address "Invalid address" (UnfreezeAssetContract.owner_address c));
  now ← gets (get_prop_i64 props.LATEST_BLOCK_HEADER_TIMESTAMP);
  account ← reads (λ w, ok_or (Execute "owner account missing") (get_account owner w));
  id ← lift (ok_or (Execute "owner has no issued asset")
               (issued_asset_id (Account.asset_issued_id account)));
  p ← lift (split_matured now (Account.frozen_supply account) 0 []);
  new_balance ← lift (ok_or (Execute "long overflow")
    (checked_add (asset_v2_balance account id) p.1));
  _ ← modify (put_account owner
    ((set_asset_v2_balance account id new_balance) <| Account.frozen_supply := p.2 |>));
  mret (mk_result 0).
End UnfreezeAssetActuator.

(** ** UpdateAssetContract *)

Module UpdateAssetActuator.
Definition validate (c : UpdateAssetContract.t) (w : world) : R Z :=
  owner ← parse_address "Invalid ownerAddress" (UpdateAssetContract.owner_address c);
  account ← ok_or (Validate "Account does not exist") (get_account owner w);
  if bool_decide (Account.asset_issued_id account = [])
  then Err (Validate "Account has not issued any asset") else
  id ← ok_or (Validate "Account has not issued any asset")
    (issued_asset_id (Account.asset_issued_id account));
  if bool_decide (get_asset_issue id w = None)
  then Err (Validate "Asset is not existed in AssetIssueV2Store") else
  if negb (valid_url (UpdateAssetContract.url c)) then Err (Validate "Invalid url") else
  if negb (valid_description (UpdateAssetContract.description c))
  then Err (Validate "Invalid description") else
  let day_limit := one_day_net_limit w in
  if (UpdateAssetContract.new_limit c <? 0) || (day_limit <=? UpdateAssetContract.new_limit c)
  then Err (Validate "Invalid FreeAssetNetLimit") else
  if (UpdateAssetContract.new_public_limit c <? 0)
     || (day_limit <=? UpdateAssetContract.new_public_limit c)
  then Err (Validate "Invalid PublicFreeAssetNetLimit")
  else Ok 0.

Definition execute (c : UpdateAssetContract.t) : M ExecutionResult :=
  owner ← lift (parse_address "Invalid ownerAddress" (UpdateAssetContract.owner_address c));
  account ← reads (λ w, ok_or (Execute "owner account missing") (get_account owner w));
  id ← lift (ok_or (Execute "owner has no issued asset")
               (issued_asset_id (Account.asset_issued_id account)));
  asset ← reads (λ w, ok_or (Execute "asset record missing") (get_asset_issue id w));
  _ ← modify (put_asset_issue id
    (asset <| AssetIssueContract.free_asset_net_limit := UpdateAssetContract.new_limit c |>
       <| AssetIssueContract.public_free_asset_net_limit := UpdateAssetContract.new_public_limit c |>
       <| AssetIssueContract.url := UpdateAssetContract.url c |>
       <| AssetIssueContract.description := UpdateAssetContract.description c |>));
  mret (mk_result 0).
End UpdateAssetActuator.

#[export] Instance asset_issue_actuator : Actuator AssetIssueContract.t := {
  validate := AssetIssueActuator.validate; execute := AssetIssueActuator.execute }.
#[export] Instance transfer_asset_actuator : Actuator TransferAssetContract.t := {
  validate := TransferAssetActuator.validate; execute := TransferAssetActuator.execute }.
#[export] Instance participate_actuator : Actuator ParticipateAssetIssueContract.t := {
  validate := ParticipateAssetIssueActuator.validate;
  execute := ParticipateAssetIssueActuator.execute }.
#[export] Instance unfreeze_asset_actuator : Actuator UnfreezeAssetContract.t := {
  validate := UnfreezeAssetActuator.validate; execute := UnfreezeAssetActuator.execute }.
#[export] Instance update_asset_actuator : Actuator UpdateAssetContract.t := {
  validate := UpdateAssetActuator.validate; execute := UpdateAssetActuator.execute }.

(** ** Asset transfers: the run and the token ledger *)

Section TransferAsset.
Implicit Types (w : world) (c : TransferAssetContract.t).

Definition tokens (key : string) (a : Account.t) : Z := default 0 (Account.asset_v2 a !! key).
(** All the tokens of one kind in accounts. *)
Definition token_total (key : string) w : Z := map_sum (tokens key) (w_account w).

Definition take_tokens (key : string) (n f : Z) (a : Account.t) : Account.t :=
  a <| Account.asset_v2 ::= insert key (tokens key a - n) |> <| Account.balance := Account.balance a - f |>.
Definition give_tokens (key : string) (n : Z) (a : Account.t) : Account.t :=
  a <| Account.asset_v2 ::= insert key (tokens key a + n) |>.

Lemma transfer_asset_validate_inv c w f :
  TransferAssetActuator.validate c w = Ok f →
  let owner := TransferAssetContract.owner_address c in
  let to := TransferAssetContract.to_address c in
  let key := TransferAssetActuator.asset_key c in
  let amount := TransferAssetContract.amount c in
  is_address owner = true ∧ is_address to = true ∧ owner ≠ to ∧ f = transfer_fee to w ∧ 0 < amount ∧
  ∃ oacc, get_account owner w = Some oacc ∧ amount ≤ tokens key oacc ∧
    (account_exists to w = false → f ≤ Account.balance oacc) ∧
    (∀ tacc, get_account to w = Some tacc →
       is_i64 (tokens key tacc + amount) ∨ Account.asset_v2 tacc !! key = None).
Proof.
  unfold TransferAssetActuator.validate, TransferAssetActuator.parse_address,
    TransferAssetActuator.TRANSFER_ASSET_FEE, transfer_fee, tokens. intros H.
  inv_run; parse_facts; bool_prop; simplify_eq.
  all: split_and!; try done.
  all: try (rewrite (proj2 (account_exists_spec _ _)) by eauto; done).
  all: try (rewrite (proj2 (account_exists_false _ _)) by done; lia).
  all: eexists; split_and!; [done|done|..].
  all: try (rewrite (proj2 (account_exists_spec _ _)) by eauto; done).
  all: try (intros _; lia).
  all: intros tacc Ht; simplify_eq; try (by right).
  left. match goal with H : _ !! _ = Some _ |- _ => by rewrite H end.
Qed.

Lemma tokens_bound key a : acc_wf a → nonneg_i64 (tokens key a).
Proof.
  intros Ha. unfold tokens. destruct (Account.asset_v2 a !! key) as [v|] eqn:E; simpl.
  - by apply (wf_assets _ Ha key v).
  - unfold nonneg_i64. i64_lia.
Qed.

(** The state before the debit. *)
Definition with_account (to : Address) w : world :=
  if account_exists to w then w else create_account to w.

Lemma transfer_asset_run c w f :
  trx_inv w → is_i64 (TransferAssetContract.amount c) → TransferAssetActuator.validate c w = Ok f →
  let owner := TransferAssetContract.owner_address c in
  let to := TransferAssetContract.to_address c in
  let key := TransferAssetActuator.asset_key c in
  let amount := TransferAssetContract.amount c in
  let w1 := with_account to w in
  ∃ oacc tacc, get_account owner w1 = Some oacc ∧ get_account to w1 = Some tacc ∧
    0 ≤ f ≤ Account.balance oacc ∧ owner ≠ to ∧ 0 < amount ≤ tokens key oacc ∧
    is_i64 (tokens key tacc + amount) ∧
    TransferAssetActuator.execute c w =
      (Ok (mk_result f), burn_fee f (put_account to (give_tokens key amount tacc)
        (put_account owner (take_tokens key amount f oacc) w1))).
Proof.
  intros Hi Hamt Hv owner to key amount w1. pose proof (proj1 Hi) as Hw.
  destruct (transfer_asset_validate_inv c w f Hv) as (Ho & Ht & Hne & Hf & Ha & oacc & Eo & Htok & Hfee & Hto).
  fold owner to key amount in Ho, Ht, Hne, Hf, Ha, Eo, Htok, Hfee, Hto.
  pose proof (transfer_fee_nonneg to w Hw) as Hfn. rewrite <-Hf in Hfn.
  destruct (transfer_created to w Hw) as (Hw1 & _ & [tacc Et] & Hoth & _ & _).
  fold (with_account to w) in Hw1, Et, Hoth. fold w1 in Hw1, Et, Hoth.
  assert (Eo1 : get_account owner w1 = Some oacc) by by rewrite Hoth.
  pose proof (get_account_wf _ _ _ Hw1 Eo1) as Hoa. pose proof (get_account_wf _ _ _ Hw1 Et) as Hta.
  pose proof (tokens_bound key _ Hoa) as Hob. unfold nonneg_i64 in Hob.
  pose proof (balance_is_i64 _ _ _ Hi Eo).
  assert (Hfb : f ≤ Account.balance oacc).
  { destruct (account_exists to w) eqn:E; [|auto]. unfold transfer_fee in Hf. rewrite E in Hf.
    pose proof (wf_balance _ Hoa). lia. }
  assert (Htb : is_i64 (tokens key tacc + amount)).
  { unfold w1, with_account in Et. destruct (account_exists to w) eqn:E.
    - destruct (Hto _ Et) as [|Hn]; [done|]. unfold tokens. rewrite Hn. simpl. subst amount. i64_lia.
    - unfold create_account in Et. rewrite get_put_account_eq in Et. injection Et as <-.
      change (tokens key (fresh_account to w)) with (default 0 ((∅ : gmap string Z) !! key)).
      rewrite lookup_empty. simpl. subst amount. i64_lia. }
  exists oacc, tacc. split_and!; try done.
  unfold TransferAssetActuator.execute, TransferAssetActuator.parse_address. fold owner to key amount.
  rewrite !parse_address_ok by done. run.
  rewrite (ST_bind_run _ _ w f w1).
  2: { unfold w1, with_account. unfold transfer_fee in Hf. unfold TransferAssetActuator.TRANSFER_ASSET_FEE.
    destruct (account_exists to w); cbn [negb]; cbv iota; [by rewrite Hf|].
    run. unfold lift, add_i64, create_account.
    rewrite get_prop_put_account, Z.add_0_l, Hf, exact_i64_ok by auto with world. done. }
  run Eo1. fold (tokens key oacc). rewrite debit_ok by i64_lia. run. rewrite debit_ok by i64_lia. run.
  fold (take_tokens key amount f oacc).
  assert (Et2 : get_account to (put_account owner (take_tokens key amount f oacc) w1) = Some tacc)
    by by rewrite get_put_account_ne.
  run Et2. fold (tokens key tacc). rewrite checked_add_ok by done. run. by rewrite run_burn_fee.
Qed.

Lemma tokens_insert key key' v a :
  tokens key' (a <| Account.asset_v2 ::= insert key v |>) = if decide (key = key') then v else tokens key' a.
Proof. unfold tokens. simpl. rewrite lookup_insert. by case_decide. Qed.

Lemma acc_wf_assets a key v n :
  acc_wf a → nonneg_i64 v → 0 ≤ n →
  acc_wf (a <| Account.asset_v2 ::= insert key v |> <| Account.balance := n |>).
Proof. intros [] Hv Hn. constructor; try done. simpl. by apply map_Forall_insert_2. Qed.
Lemma acc_trx_assets a key v n :
  acc_trx (a <| Account.asset_v2 ::= insert key v |> <| Account.balance := n |>)
  = acc_trx a - Account.balance a + n.
Proof. unfold acc_trx, energy_frozen. simpl. lia. Qed.

Lemma token_total_put key a acc acc' w :
  get_account a w = Some acc →
  token_total key (put_account a acc' w) = token_total key w - tokens key acc + tokens key acc'.
Proof. intros E. unfold token_total, put_account. simpl. by apply map_sum_insert_Some. Qed.
Lemma token_total_burn_fee key f w : token_total key (burn_fee f w) = token_total key w.
Proof. unfold burn_fee. by destruct (0 <? f). Qed.
Lemma token_total_with_account key to w : token_total key (with_account to w) = token_total key w.
Proof.
  unfold with_account. destruct (account_exists to w) eqn:E; [done|].
  apply account_exists_false in E. unfold token_total, create_account, put_account. simpl.
  rewrite map_sum_insert_None by done. unfold tokens at 1. simpl. rewrite lookup_empty. simpl. lia.
Qed.
Lemma with_account_inv to w :
  trx_inv w → trx_inv (with_account to w) ∧ total_trx (with_account to w) = total_trx w.
Proof.
  intros Hi. destruct (transfer_created to w (proj1 Hi)) as (Hw & Ht & _).
  fold (with_account to w) in Hw, Ht. split; [|done]. split; [done|]. rewrite Ht. apply Hi.
Qed.

Lemma transfer_asset_effect c w f r w' :
  trx_inv w → is_i64 (TransferAssetContract.amount c) → TransferAssetActuator.validate c w = Ok f →
  TransferAssetActuator.execute c w = (Ok r, w') →
  trx_inv w' ∧ total_trx w' = total_trx w ∧ ∀ key, token_total key w' = token_total key w.
Proof.
  intros Hi Hamt Hv E.
  destruct (transfer_asset_run c w f Hi Hamt Hv) as (oacc & tacc & Eo & Et & Hf & Hne & Ha & Hti & Erun).
  rewrite Erun in E. injection E as _ <-.
  destruct (with_account_inv (TransferAssetContract.to_address c) w Hi) as [Hi1 Ht1].
  set (w1 := with_account _ w) in *. set (key := TransferAssetActuator.asset_key c) in *.
  pose proof (get_account_wf _ _ _ (proj1 Hi1) Eo) as Hoa.
  pose proof (get_account_wf _ _ _ (proj1 Hi1) Et) as Hta.
  pose proof (tokens_bound key _ Hoa) as Hob. unfold nonneg_i64 in Hob.
  pose proof (tokens_bound key _ Hta) as Htb. unfold nonneg_i64 in Htb.
  assert (Hta' : acc_wf (give_tokens key (TransferAssetContract.amount c) tacc)).
  { unfold give_tokens. destruct Hta. constructor; try done. simpl.
    apply map_Forall_insert_2; [unfold nonneg_i64; i64_lia|done]. }
  rewrite put_account_comm by done.
  destruct (put_account_inv _ _ (give_tokens key (TransferAssetContract.amount c) tacc) w1 Hi1 Et)
    as [Hi2 Ht2]; [done..|].
  destruct (burn_from_inv (TransferAssetContract.owner_address c) oacc
    (take_tokens key (TransferAssetContract.amount c) f oacc) f
    (put_account (TransferAssetContract.to_address c)
       (give_tokens key (TransferAssetContract.amount c) tacc) w1)) as [Hi3 Ht3]; try done.
  - by rewrite get_put_account_ne.
  - apply acc_wf_assets; [done|unfold nonneg_i64; lia|lia].
  - lia.
  - unfold take_tokens. rewrite acc_trx_assets. lia.
  - split_and!; [done|lia|]. intros k. rewrite token_total_burn_fee.
    rewrite (token_total_put k _ oacc) by by rewrite get_put_account_ne.
    rewrite (token_total_put k _ tacc) by done. unfold w1. rewrite token_total_with_account.
    unfold give_tokens, take_tokens.
    change (tokens k (upd Account.balance ?f ?a)) with (tokens k a).
    rewrite !tokens_insert. case_decide; subst; lia.
Qed.

Lemma transfer_asset_safe_outcome c w :
  is_i64 (TransferAssetContract.amount c) → trx_inv w → safe_outcome (apply_contract c w) w.
Proof.
  intros Ha Hi. unfold apply_contract, mbind, ST_bind, reads. simpl.
  destruct (TransferAssetActuator.validate c w) as [f|e|] eqn:Hv; [|done|done].
  destruct (transfer_asset_run c w f Hi Ha Hv) as (? & ? & _ & _ & _ & _ & _ & _ & Erun).
  destruct (transfer_asset_effect c w f _ _ Hi Ha Hv Erun) as (H1 & H2 & _).
  rewrite Erun. done.
Qed.
End TransferAsset.

(** ** Buying an asset, issuing it and the frozen supply *)

Section OtherAssets.
Implicit Types (w : world).

Lemma exchange_amount_exec_Ok a n t v :
  ParticipateAssetIssueActuator.exchange_amount_exec a n t = Ok v ↔
  ParticipateAssetIssueActuator.exchange_amount a n t = Ok v.
Proof. unfold ParticipateAssetIssueActuator.exchange_amount_exec. case_match; naive_solver. Qed.

(** The two accounts after a purchase of [ex] tokens for [x] sun. *)
Lemma participate_accounts o t oacc tacc key x ex w :
  trx_inv w → o ≠ t → get_account o w = Some oacc → get_account t w = Some tacc →
  0 ≤ x ≤ Account.balance oacc → 0 ≤ ex ≤ tokens key tacc → is_i64 (tokens key oacc + ex) →
  let oacc' := oacc <| Account.asset_v2 ::= insert key (tokens key oacc + ex) |>
    <| Account.balance := Account.balance oacc - x |> in
  let tacc' := tacc <| Account.asset_v2 ::= insert key (tokens key tacc - ex) |>
    <| Account.balance := Account.balance tacc + x |> in
  let w' := put_account t tacc' (put_account o oacc' w) in
  trx_inv w' ∧ total_trx w' = total_trx w ∧ ∀ k, token_total k w' = token_total k w.
Proof.
  intros Hi Hne Eo Et Hx Hex Hti oacc' tacc' w'. pose proof (proj1 Hi) as Hw.
  pose proof (get_account_wf _ _ _ Hw Eo) as Hoa. pose proof (get_account_wf _ _ _ Hw Et) as Hta.
  pose proof (tokens_bound key _ Hoa) as Hob. pose proof (tokens_bound key _ Hta) as Htb.
  unfold nonneg_i64 in *. pose proof (wf_balance _ Hta).
  assert (Ho' : acc_wf oacc') by (apply acc_wf_assets; [done|unfold nonneg_i64; i64_lia|lia]).
  assert (Ht' : acc_wf tacc') by (apply acc_wf_assets; [done|unfold nonneg_i64; i64_lia|lia]).
  assert (Eq : total_trx w' = total_trx w).
  { unfold w'. rewrite (total_trx_put_account_Some _ tacc) by by rewrite get_put_account_ne.
    rewrite (total_trx_put_account_Some _ oacc) by done.
    unfold oacc', tacc'. rewrite !acc_trx_assets. lia. }
  split_and!; [|done|].
  - split; [unfold w'; auto with world|]. rewrite Eq. apply Hi.
  - intros k. unfold w'. rewrite (token_total_put k _ tacc) by by rewrite get_put_account_ne.
    rewrite (token_total_put k _ oacc) by done. unfold oacc', tacc'.
    change (tokens k (upd Account.balance ?f ?a)) with (tokens k a).
    rewrite !tokens_insert. case_decide; subst; lia.
Qed.

Lemma participate_effect (c : ParticipateAssetIssueContract.t) w r w' :
  trx_inv w → apply_contract c w = (Ok r, w') →
  trx_inv w' ∧ total_trx w' = total_trx w ∧ ∀ key, token_total key w' = token_total key w.
Proof.
  intros Hi E. unfold apply_contract in E. simpl in E.
  unfold ParticipateAssetIssueActuator.validate, ParticipateAssetIssueActuator.execute,
    ParticipateAssetIssueActuator.parse_address in E.
  apply ST_bind_Ok in E as (f & ? & [Hv ->]%reads_Ok & E).
  inv_run; parse_facts; bool_prop; simplify_eq.
  match goal with H : ParticipateAssetIssueActuator.exchange_amount_exec _ _ _ = Ok _ |- _ =>
    apply exchange_amount_exec_Ok in H; rename H into Hex2 end.
  match goal with H : ParticipateAssetIssueActuator.exchange_amount _ _ _ = Ok ?x,
    H1 : ParticipateAssetIssueActuator.asset_id _ = Some ?i,
    H2 : get_account (ParticipateAssetIssueContract.owner_address c) w = Some ?a,
    H3 : get_account (ParticipateAssetIssueContract.to_address c) w = Some ?b |- _ =>
    rewrite Hex2 in H; injection H as ->;
    apply (participate_accounts _ _ a b (dec i) (ParticipateAssetIssueContract.amount c) x w Hi);
      try done; try lia; unfold asset_v2_balance in *; simpl in *; unfold tokens; lia end.
Qed.

Lemma participate_safe_outcome (c : ParticipateAssetIssueContract.t) w :
  trx_inv w → safe_outcome (apply_contract c w) w.
Proof.
  intros Hi. unfold safe_outcome. destruct (apply_contract c w) as [[r|e|] w'] eqn:E; [..|done].
  - by destruct (participate_effect c w r w' Hi E) as (? & ? & _).
  - unfold apply_contract in E. simpl in E.
    unfold ParticipateAssetIssueActuator.execute, ParticipateAssetIssueActuator.parse_address in E.
    apply ST_bind_Err in E as [[_ ->]%reads_Err|(f & ? & [_ ->]%reads_Ok & E)]; [done|].
    inv_run; done.
Qed.

(** *** Issuing *)

Lemma check_frozen_Ok remain l r :
  AssetIssueActuator.check_frozen remain l = Ok r →
  r = remain - sum_list FrozenSupply.frozen_amount l ∧ (0 ≤ remain → 0 ≤ r) ∧
  Forall (λ f, 0 < FrozenSupply.frozen_amount f ∧ 1 ≤ FrozenSupply.frozen_days f ≤ 3652) l.
Proof.
  revert remain. induction l as [|f l IH]; intros remain H; simpl in *.
  - injection H as <-. split_and!; [lia|done|constructor].
  - unfold MIN_FROZEN_SUPPLY_TIME, MAX_FROZEN_SUPPLY_TIME in H. inv_run. bool_prop.
    match goal with H : AssetIssueActuator.check_frozen _ _ = _ |- _ => apply IH in H as (-> & ? & ?) end.
    split_and!; [lia|lia|]. constructor; [lia|done].
Qed.

Definition frozen_entry (start : Z) (f : FrozenSupply.t) : Frozen.t :=
  Frozen.mk (FrozenSupply.frozen_amount f) (start + FrozenSupply.frozen_days f * FROZEN_PERIOD_MS).

Lemma split_supply_run start l fr remain r :
  AssetIssueActuator.check_frozen remain l = Ok r →
  0 ≤ start → start + 3652 * FROZEN_PERIOD_MS ≤ I64_MAX →
  AssetIssueActuator.split_supply start l fr remain = Ok (fr ++ (frozen_entry start <$> l), r).
Proof.
  revert remain fr. induction l as [|f l IH]; intros remain fr H H0 Hs; simpl in *.
  - injection H as <-. by rewrite app_nil_r.
  - unfold MIN_FROZEN_SUPPLY_TIME, MAX_FROZEN_SUPPLY_TIME in H. inv_run. bool_prop.
    unfold FROZEN_PERIOD_MS in *.
    rewrite checked_mul_ok by i64_lia. cbn [default from_option id]. rewrite checked_add_ok by i64_lia. cbn [ok_or].
    unfold sub_i64. rewrite exact_i64_ok by done. cbn [mbind res_bind].
    rewrite IH by done. rewrite <-app_assoc. done.
Qed.

(** The issuer's account after the issue. *)
Definition issuer_account (c : AssetIssueContract.t) (id f remain : Z) (a : Account.t) : Account.t :=
  a <| Account.balance := Account.balance a - f |>
    <| Account.frozen_supply ::= λ l, l ++ (frozen_entry (AssetIssueContract.start_time c)
         <$> AssetIssueContract.frozen_supply c) |>
    <| Account.asset_v2 ::= insert (dec id) remain |>
    <| Account.asset_issued_id := bytes_of_string (dec id) |>
    <| Account.asset_issued_name := AssetIssueContract.name c |>.

Definition asset_issue_wf (c : AssetIssueContract.t) : Prop :=
  is_i64 (AssetIssueContract.total_supply c) ∧
  AssetIssueContract.start_time c + 3652 * FROZEN_PERIOD_MS ≤ I64_MAX.

Definition issue_remain (c : AssetIssueContract.t) : Z :=
  AssetIssueContract.total_supply c - sum_list FrozenSupply.frozen_amount (AssetIssueContract.frozen_supply c).

Lemma asset_issue_fee_pos w : 0 < AssetIssueActuator.fee w.
Proof.
  unfold AssetIssueActuator.fee, DEFAULT_ASSET_ISSUE_FEE.
  destruct (Z.ltb_spec 0 (get_prop_i64 ASSET_ISSUE_FEE w)); lia.
Qed.

Lemma asset_issue_run c w f :
  trx_inv w → asset_issue_wf c → AssetIssueActuator.validate c w = Ok f →
  is_i64 (get_token_id_num w + 1) →
  let o := AssetIssueContract.owner_address c in
  let id := get_token_id_num w + 1 in
  0 ≤ issue_remain c ≤ I64_MAX ∧ 0 < f ∧
  Forall (λ f, 0 < FrozenSupply.frozen_amount f) (AssetIssueContract.frozen_supply c) ∧
  ∃ acc, get_account o w = Some acc ∧ f ≤ Account.balance acc ∧
    AssetIssueActuator.execute c w =
      (Ok (mk_result f), put_account o (issuer_account c id f (issue_remain c) acc)
        (burn_fee f (put_asset_issue id (c <| AssetIssueContract.id := dec id |>)
          (save_token_id_num id w)))).
Proof.
  intros Hi [Hts Hst] Hv Hid o id. unfold AssetIssueActuator.validate in Hv.
  inv_run; parse_facts; bool_prop.
  match goal with H : AssetIssueActuator.check_frozen _ _ = Ok _ |- _ =>
    rename H into Hc; pose proof (check_frozen_Ok _ _ _ Hc) as (-> & Hr & _) end.
  assert (0 ≤ sum_list FrozenSupply.frozen_amount (AssetIssueContract.frozen_supply c)).
  { apply sum_list_nonneg. destruct (check_frozen_Ok _ _ _ Hc) as (_ & _ & Hf).
    eapply Forall_impl; [exact Hf|]. simpl. lia. }
  match goal with H : get_account _ w = Some ?a |- _ => rename H into Eo, a into acc end.
  pose proof (asset_issue_fee_pos w). pose proof (balance_is_i64 _ _ _ Hi Eo).
  unfold issue_remain. split_and!; [lia|i64_lia|done| |].
  { destruct (check_frozen_Ok _ _ _ Hc) as (_ & _ & Hf).
    eapply Forall_impl; [exact Hf|]. simpl. lia. }
  exists acc. split_and!; [done|done|].
  unfold AssetIssueActuator.execute. fold o. rewrite parse_address_ok by done. run.
  unfold allocate_token_id at 1.
  rewrite (ST_bind_run _ _ w id (save_token_id_num id w)).
  2: { run. unfold add_i64. rewrite exact_i64_ok by done. run. done. }
  run. match goal with |- context [put_asset_issue id ?x (save_token_id_num id w)] =>
    assert (Eo' : get_account o (put_asset_issue id x (save_token_id_num id w)) = Some acc) by done end.
  run Eo'. rewrite debit_ok by i64_lia. run.
  rewrite (split_supply_run _ _ _ _ _ Hc); [|pose proof (inv_props _ (proj1 Hi)
    props.LATEST_BLOCK_HEADER_TIMESTAMP ltac:(not_weight)); lia|done]. run.
  unfold burn_fee. rewrite (proj2 (Z.ltb_lt _ _)) by done. done.
Qed.

Lemma put_account_burn_fee a acc f w :
  put_account a acc (burn_fee f w) = burn_fee f (put_account a acc w).
Proof. unfold burn_fee. by destruct (0 <? f). Qed.

Lemma token_id_nonneg w : trx_wf w → 0 < get_token_id_num w.
Proof.
  intros Hw. pose proof (inv_props _ Hw props.TOKEN_ID_NUM ltac:(not_weight)).
  unfold get_token_id_num, TOKEN_ID_BASE.
  destruct (Z.eqb_spec (get_prop_i64 props.TOKEN_ID_NUM w) 0); lia.
Qed.

Lemma asset_issue_effect c w f r w' :
  trx_inv w → asset_issue_wf c → AssetIssueActuator.validate c w = Ok f →
  is_i64 (get_token_id_num w + 1) → AssetIssueActuator.execute c w = (Ok r, w') →
  trx_inv w' ∧ total_trx w' = total_trx w.
Proof.
  intros Hi Hc Hv Hid E.
  destruct (asset_issue_run c w f Hi Hc Hv Hid) as (Hr & Hf & Hfs & acc & Eo & Hb & Erun).
  rewrite Erun in E. injection E as _ <-.
  pose proof (token_id_nonneg w (proj1 Hi)). set (id := get_token_id_num w + 1) in *.
  destruct (put_prop_inv props.TOKEN_ID_NUM id w Hi) as [Hi1 Ht1]; [done|not_weight|unfold nonneg_i64; i64_lia|].
  fold (save_token_id_num id w) in Hi1, Ht1.
  set (asset := c <| AssetIssueContract.id := dec id |>).
  destruct (trx_frame (save_token_id_num id w) (put_asset_issue id asset (save_token_id_num id w)))
    as (_ & Ht2 & Hi2); try done. specialize (Hi2 Hi1).
  rewrite put_account_burn_fee.
  pose proof (get_account_wf _ _ _ (proj1 Hi) Eo) as Ha.
  destruct (burn_from_inv (AssetIssueContract.owner_address c) acc
    (issuer_account c id f (issue_remain c) acc) f
    (put_asset_issue id asset (save_token_id_num id w))) as [Hi3 Ht3]; try done.
  - destruct Ha. constructor; try done; simpl; [lia|..].
    + apply map_Forall_insert_2; [unfold nonneg_i64; lia|done].
    + apply Forall_app. split; [done|]. apply Forall_fmap. eapply Forall_impl; [exact Hfs|].
      simpl. lia.
  - lia.
  - unfold acc_trx, energy_frozen. simpl. lia.
  - split; [done|]. rewrite Ht3. lia.
Qed.

Lemma asset_issue_safe_outcome (c : AssetIssueContract.t) w :
  asset_issue_wf c → trx_inv w → safe_outcome (apply_contract c w) w.
Proof.
  intros Hc Hi. unfold apply_contract, mbind, ST_bind at 1, reads. simpl.
  destruct (AssetIssueActuator.validate c w) as [f|e|] eqn:Hv; [|done|done].
  destruct (decide (is_i64 (get_token_id_num w + 1))) as [Hid|Hid].
  - destruct (asset_issue_run c w f Hi Hc Hv Hid) as (_ & _ & _ & acc & _ & _ & Erun).
    pose proof (asset_issue_effect c w f _ _ Hi Hc Hv Hid Erun). rewrite Erun. done.
  - assert (AssetIssueActuator.execute c w = (Panic, w)) as ->; [|done].
    unfold AssetIssueActuator.validate in Hv. inv_run; parse_facts.
    unfold AssetIssueActuator.execute. rewrite parse_address_ok by done. run.
    unfold allocate_token_id, mbind, ST_bind, gets, lift, add_i64, exact_i64.
    by rewrite bool_decide_eq_false_2.
Qed.

(** *** Unfreezing and updating *)

Lemma split_matured_Ok now l amount rem p :
  UnfreezeAssetActuator.split_matured now l amount rem = Ok p →
  p = (amount + sum_list Frozen.frozen_balance (filter (λ f, Frozen.expire_time f ≤ now) l),
       rem ++ filter (λ f, ¬ Frozen.expire_time f ≤ now) l).
Proof.
  revert amount rem. induction l as [|f l IH]; intros amount rem H; simpl in *.
  - injection H as <-. simpl. by rewrite app_nil_r, Z.add_0_r.
  - rewrite !filter_cons. destruct (Z.leb_spec (Frozen.expire_time f) now).
    + inv_ok. rewrite decide_True, decide_False by lia. apply IH in H as ->. simpl. f_equal. lia.
    + rewrite decide_False, decide_True by lia. apply IH in H as ->. by rewrite <-app_assoc.
Qed.

(** Tokens of the issued asset and frozen supply together do not change. *)
Lemma unfreeze_asset_effect (c : UnfreezeAssetContract.t) w r w' :
  trx_inv w → apply_contract c w = (Ok r, w') →
  trx_inv w' ∧ total_trx w' = total_trx w ∧
  ∃ acc acc' id, get_account (UnfreezeAssetContract.owner_address c) w = Some acc ∧
    get_account (UnfreezeAssetContract.owner_address c) w' = Some acc' ∧
    issued_asset_id (Account.asset_issued_id acc) = Some id ∧
    tokens (dec id) acc' + sum_list Frozen.frozen_balance (Account.frozen_supply acc')
    = tokens (dec id) acc + sum_list Frozen.frozen_balance (Account.frozen_supply acc) ∧
    Account.frozen_supply acc' = filter (λ f, ¬ Frozen.expire_time f
      ≤ get_prop_i64 props.LATEST_BLOCK_HEADER_TIMESTAMP w) (Account.frozen_supply acc).
Proof.
  intros Hi E. unfold apply_contract in E. simpl in E. unfold UnfreezeAssetActuator.execute in E.
  apply ST_bind_Ok in E as (f & ? & [_ ->]%reads_Ok & E). inv_run; parse_facts.
  match goal with H : UnfreezeAssetActuator.split_matured _ _ _ _ = _ |- _ =>
    apply split_matured_Ok in H; subst end.
  match goal with H : get_account _ w = Some ?a, H' : issued_asset_id _ = Some ?i |- _ =>
    rename H into Eo, a into acc, H' into Eid, i into id end.
  cbn [fst snd] in *. rewrite app_nil_l, Z.add_0_l in *.
  set (now := get_prop_i64 _ w) in *.
  pose proof (get_account_wf _ _ _ (proj1 Hi) Eo) as Ha.
  pose proof (tokens_bound (dec id) _ Ha) as Htb. unfold nonneg_i64 in Htb.
  change (asset_v2_balance acc id) with (tokens (dec id) acc) in *.
  pose proof (sum_list_nonneg Frozen.frozen_balance _
    (Forall_filter _ (λ f, Frozen.expire_time f ≤ now) _ (wf_frozen_supply _ Ha))).
  match goal with |- trx_inv (put_account ?o ?acc' w) ∧ _ =>
    destruct (put_account_inv o acc acc' w Hi Eo) as [Hi' Ht'] end.
  - destruct Ha. constructor; try done; simpl.
    + apply map_Forall_insert_2; [unfold nonneg_i64; i64_lia|done].
    + by apply Forall_filter.
  - done.
  - split_and!; [done|done|]. eexists acc, _, id. rewrite get_put_account_eq.
    split_and!; [done|done|done| |done].
    unfold set_asset_v2_balance.
    change (tokens (dec id) (upd Account.frozen_supply ?f ?a)) with (tokens (dec id) a).
    rewrite tokens_insert, decide_True by done. simpl.
    rewrite <-(sum_list_filter Frozen.frozen_balance (λ f, Frozen.expire_time f ≤ now)
      (Account.frozen_supply acc)). lia.
Qed.

Lemma unfreeze_asset_safe_outcome (c : UnfreezeAssetContract.t) w :
  trx_inv w → safe_outcome (apply_contract c w) w.
Proof.
  intros Hi. unfold safe_outcome. destruct (apply_contract c w) as [[r|e|] w'] eqn:E; [..|done].
  - by destruct (unfreeze_asset_effect c w r w' Hi E) as (? & ? & _).
  - unfold apply_contract in E. simpl in E. unfold UnfreezeAssetActuator.execute in E.
    apply ST_bind_Err in E as [[_ ->]%reads_Err|(f & ? & [_ ->]%reads_Ok & E)]; [done|].
    inv_run; done.
Qed.

Lemma update_asset_safe_outcome (c : UpdateAssetContract.t) w :
  trx_inv w → safe_outcome (apply_contract c w) w.
Proof.
  intros Hi. apply_cases c w; unfold UpdateAssetActuator.execute in E.
  - apply ST_bind_Ok in E as (f & ? & [_ ->]%reads_Ok & E). frame_only Hi.
  - apply ST_bind_Err in E as [[_ ->]%reads_Err|(f & ? & [_ ->]%reads_Ok & E)]; [done|frame_only Hi].
Qed.
End OtherAssets.

#[export] Instance asset_issue_safe : ActuatorSafe AssetIssueContract.t := {
  contract_wf c _ := asset_issue_wf c; apply_safe c w H := asset_issue_safe_outcome c w H }.
#[export] Instance transfer_asset_safe : ActuatorSafe TransferAssetContract.t := {
  contract_wf c _ := is_i64 (TransferAssetContract.amount c);
  apply_safe c w H := transfer_asset_safe_outcome c w H }.
#[export] Instance participate_safe : ActuatorSafe ParticipateAssetIssueContract.t := {
  contract_wf _ _ := True; apply_safe c w _ := participate_safe_outcome c w }.
#[export] Instance unfreeze_asset_safe : ActuatorSafe UnfreezeAssetContract.t := {
  contract_wf _ _ := True; apply_safe c w _ := unfreeze_asset_safe_outcome c w }.
#[export] Instance update_asset_safe : ActuatorSafe UpdateAssetContract.t := {
  contract_wf _ _ := True; apply_safe c w _ := update_asset_safe_outcome c w }.

(** ** Properties *)

(** C10: moving tokens neither creates nor destroys them.  On a state satisfying
    the supply invariant, an accepted transfer or purchase of a token leaves the
    total of every token over all accounts, and the TRX supply, as they were;
    a refused one changes nothing. *)
Theorem token_moves_conserve (ct : TransferAssetContract.t) (cp : ParticipateAssetIssueContract.t)
    (w : world) :
  is_i64 (TransferAssetContract.amount ct) → trx_inv w →
  match apply_contract ct w with
  | (Ok _, w') => trx_inv w' ∧ total_trx w' = total_trx w ∧ ∀ key, token_total key w' = token_total key w
  | (Err _, w') => w' = w
  | (Panic, _) => True
  end ∧
  match apply_contract cp w with
  | (Ok _, w') => trx_inv w' ∧ total_trx w' = total_trx w ∧ ∀ key, token_total key w' = token_total key w
  | (Err _, w') => w' = w
  | (Panic, _) => True
  end.
Proof.
  intros Ha Hi. split.
  - pose proof (transfer_asset_safe_outcome ct w Ha Hi) as Hs. unfold safe_outcome in Hs.
    destruct (apply_contract ct w) as [[r|e|] w'] eqn:E; [|done|done].
    unfold apply_contract in E. apply ST_bind_Ok in E as (f & ? & [Hv ->]%reads_Ok & E).
    by eapply transfer_asset_effect.
  - pose proof (participate_safe_outcome cp w Hi) as Hs. unfold safe_outcome in Hs.
    destruct (apply_contract cp w) as [[r|e|] w'] eqn:E; [|done|done].
    by eapply participate_effect.
Qed.

(** Alice has issued token 1000001 with 700 tokens, 300 of them frozen. *)
Module IssueSample.
Definition c : AssetIssueContract.t :=
  AssetIssueContract.default <| AssetIssueContract.owner_address := Sample.addr 1 |>
    <| AssetIssueContract.name := [65] |> <| AssetIssueContract.url := [65] |>
    <| AssetIssueContract.total_supply := 1000 |> <| AssetIssueContract.trx_num := 2 |>
    <| AssetIssueContract.num := 1 |> <| AssetIssueContract.start_time := 10 |>
    <| AssetIssueContract.end_time := 20 |>
    <| AssetIssueContract.frozen_supply := [FrozenSupply.mk 300 1] |>.
Definition before : world := put_prop_i64 ASSET_ISSUE_FEE 1000000 Sample.state.
Definition state : world :=
  put_prop_i64 props.LATEST_BLOCK_HEADER_TIMESTAMP 15 (apply_contract c before).2.
End IssueSample.

(** She gives 30 tokens to a new account, or Bob buys 50 for 100 sun. *)
Lemma token_moves_conserve_witness :
  let ct := TransferAssetContract.mk (bytes_of_string "1000001") (Sample.addr 1) (Sample.addr 7) 30 in
  let cp := ParticipateAssetIssueContract.mk (Sample.addr 2) (Sample.addr 1) (bytes_of_string "1000001") 100 in
  trx_inv IssueSample.state ∧
  token_total "1000001" (apply_contract ct IssueSample.state).2 = 700 ∧
  token_total "1000001" (apply_contract cp IssueSample.state).2 = 700.
Proof.
  intros ct cp. assert (Hi : trx_inv IssueSample.state) by check_inv. split; [exact Hi|].
  assert (H0 : token_total "1000001" IssueSample.state = 700) by (vm_compute; reflexivity).
  assert (is_Ok (apply_contract ct IssueSample.state).1 = true) as H1 by (vm_compute; reflexivity).
  assert (is_Ok (apply_contract cp IssueSample.state).1 = true) as H2 by (vm_compute; reflexivity).
  assert (Ha : is_i64 30) by (unfold is_i64, I64_MIN, I64_MAX; lia).
  destruct (token_moves_conserve ct cp IssueSample.state Ha Hi) as [K1 K2].
  destruct (apply_contract ct IssueSample.state) as [[r|e|] w1]; [|discriminate H1|discriminate H1].
  destruct (apply_contract cp IssueSample.state) as [[r'|e|] w2]; [|discriminate H2|discriminate H2].
  cbn [snd]. destruct K1 as (_ & _ & K1), K2 as (_ & _ & K2). rewrite K1, K2. exact (conj H0 H0).
Defined.

(** Issuing a token allocates the next id, stores the definition under it,
    gives the issuer the supply that is not frozen, records each frozen part with
    its maturity, and burns the fee, keeping the TRX supply; the recorded id
    reads back as the allocated one, and a later unfreeze moves matured parts
    into the balance without changing balance plus frozen supply. *)
Theorem asset_issue_accounts (c : AssetIssueContract.t) (w w' : world) r :
  trx_inv w → asset_issue_wf c → is_i64 (get_token_id_num w + 1) →
  apply_contract c w = (Ok r, w') →
  let o := AssetIssueContract.owner_address c in
  let id := get_token_id_num w + 1 in
  trx_inv w' ∧ total_trx w' = total_trx w ∧ get_token_id_num w' = id ∧
  get_asset_issue id w' = Some (c <| AssetIssueContract.id := dec id |>) ∧
  burned w' = burned w + fee r ∧
  ∃ acc acc', get_account o w = Some acc ∧ get_account o w' = Some acc' ∧
    Account.balance acc' = Account.balance acc - fee r ∧
    issued_asset_id (Account.asset_issued_id acc') = Some id ∧
    tokens (dec id) acc' + sum_list FrozenSupply.frozen_amount (AssetIssueContract.frozen_supply c)
      = AssetIssueContract.total_supply c ∧
    Account.frozen_supply acc' = Account.frozen_supply acc ++
      (frozen_entry (AssetIssueContract.start_time c) <$> AssetIssueContract.frozen_supply c).
Proof.
  intros Hi Hc Hid E o id. unfold apply_contract in E.
  apply ST_bind_Ok in E as (f & ? & [Hv ->]%reads_Ok & E). simpl in Hv, E.
  destruct (asset_issue_effect c w f r w' Hi Hc Hv Hid E) as [Hi' Ht'].
  destruct (asset_issue_run c w f Hi Hc Hv Hid) as (Hr & Hf & _ & acc & Eo & Hb & Erun).
  rewrite Erun in E. injection E as <- <-. fold o id in Hi', Ht', Eo |- *.
  pose proof (token_id_nonneg w (proj1 Hi)) as Hpos.
  split; [done|]. split; [done|]. split_and!.
  - unfold get_token_id_num. rewrite get_prop_put_account, get_prop_burn_fee_ne by done.
    change (get_prop_i64 props.TOKEN_ID_NUM (put_asset_issue ?i ?a ?v)) with (get_prop_i64 props.TOKEN_ID_NUM v).
    unfold save_token_id_num. rewrite get_put_prop_eq by done. fold id.
    destruct (Z.eqb_spec id 0); [subst id; lia|done].
  - unfold get_asset_issue, burn_fee. destruct (0 <? f); apply lookup_insert_eq.
  - change (burned (put_account ?a ?b ?v)) with (burned v).
    assert (Eb : burned (put_asset_issue id (c <| AssetIssueContract.id := dec id |>)
      (save_token_id_num id w)) = burned w).
    { unfold burned. change (get_prop_i64 ?k (put_asset_issue ?i ?a ?v)) with (get_prop_i64 k v).
      by apply get_put_prop_ne. }
    rewrite burned_burn_fee, Eb; [done|lia|]. rewrite Eb.
    pose proof (acc_trx_bound _ _ _ Hi Eo). pose proof (burned_nonneg _ (proj1 Hi)).
    pose proof (acc_trx_parts _ (get_account_wf _ _ _ (proj1 Hi) Eo)). i64_lia.
  - exists acc, (issuer_account c id f (issue_remain c) acc). rewrite get_put_account_eq.
    split_and!; try done.
    + unfold issued_asset_id. by apply parse_i64_dec.
    + unfold tokens. simpl. rewrite lookup_insert_eq. simpl. unfold issue_remain. lia.
Qed.

Lemma asset_issue_accounts_witness :
  trx_inv IssueSample.before ∧
  issued_asset_id (Account.asset_issued_id (default Account.default
    (get_account (Sample.addr 1) (apply_contract IssueSample.c IssueSample.before).2))) = Some 1000001.
Proof.
  assert (Hi : trx_inv IssueSample.before) by check_inv. split; [exact Hi|].
  assert (E : apply_contract IssueSample.c IssueSample.before
    = (Ok (mk_result 1000000), (apply_contract IssueSample.c IssueSample.before).2))
    by (vm_compute; reflexivity).
  assert (Hn : get_token_id_num IssueSample.before + 1 = 1000001) by (vm_compute; reflexivity).
  destruct (asset_issue_accounts IssueSample.c IssueSample.before _ _ Hi
    ltac:(split; unfold is_i64, I64_MIN, I64_MAX; vm_compute; split || idtac; discriminate)
    ltac:(rewrite Hn; unfold is_i64, I64_MIN, I64_MAX; lia) E)
    as (_ & _ & _ & _ & _ & acc & acc' & _ & E' & _ & Hiss & _).
  change (AssetIssueContract.owner_address IssueSample.c) with (Sample.addr 1) in E'.
  rewrite E', <-Hn. exact Hiss.
Defined.

(** [execute] is not atomic when a frozen part of the supply would mature
    past the largest [i64]: the accepted contract below fails after the fee was
    added to the burned total and the token id was allocated, while the owner
    still has the whole balance, so the TRX supply grows by the fee. *)
Theorem asset_issue_error_not_atomic :
  let c := IssueSample.c <| AssetIssueContract.start_time := I64_MAX - 1 |>
    <| AssetIssueContract.end_time := I64_MAX |> in
  let w' := (apply_contract c IssueSample.before).2 in
  validate c IssueSample.before = Ok 1000000 ∧
  (apply_contract c IssueSample.before).1 = Err (Execute "long overflow") ∧
  get_account (Sample.addr 1) w' = get_account (Sample.addr 1) IssueSample.before ∧
  get_token_id_num w' = get_token_id_num IssueSample.before + 1 ∧
  total_trx w' = total_trx IssueSample.before + 1000000.
Proof. split_and!; vm_compute; reflexivity. Qed.
