(* ===== verification/F64.v ===== *)
(** * [f64]: the floating-point operations exchange.rs uses

    Binary64 arithmetic with round-to-nearest-even is the Standard Library's
    executable specification; the conversions, [round] and the comparison are
    built on it.  [f64::powf] has no specified result in Rust (it is the
    platform's libm), so it is a parameter, carried by the class [Libm]. *)

From Stdlib Require Import SpecFloat.
From stdpp Require Import gmap strings pretty numbers fin_maps prelude.
From S2P Require Import Prelude.
Open Scope Z_scope.

Abbreviation f64 := spec_float.

Definition f64_add : f64 → f64 → f64 := SFadd 53 1024.
Definition f64_sub : f64 → f64 → f64 := SFsub 53 1024.
Definition f64_mul : f64 → f64 → f64 := SFmul 53 1024.
Definition f64_div : f64 → f64 → f64 := SFdiv 53 1024.
Definition f64_neg : f64 → f64 := SFopp.
(** [a > b]; false when either is NaN. *)
Definition f64_gt (a b : f64) : bool := SFltb b a.

(** [x as f64] of an [i64]: nearest, ties to even. *)
Definition f64_of_i64 (x : Z) : f64 := binary_normalize 53 1024 x 0 false.

Definition f64_signed (s : bool) (m : Z) : Z := if s then - m else m.

(** [x as i64]: truncation toward zero, saturating, NaN is 0. *)
Definition f64_to_i64 (x : f64) : Z :=
  match x with
  | S754_zero _ | S754_nan => 0
  | S754_infinity s => if s then I64_MIN else I64_MAX
  | S754_finite s m e => sat_i64 (f64_signed s (Z.shiftl (Z.pos m) e))
  end.

(** [f64::round]: to the nearest integer, halves away from zero. *)
Definition f64_round (x : f64) : f64 :=
  match x with
  | S754_finite s m e =>
      if 0 <=? e then x
      else
        let d := Z.shiftl 1 (- e) in
        binary_normalize 53 1024 (f64_signed s ((2 * Z.pos m + d) / (2 * d))) 0 s
  | _ => x
  end.

(** Decimal literals: the quotient of two exactly represented integers is the
    double nearest to the rational. *)
Definition f64_lit (n d : Z) : f64 := f64_div (f64_of_i64 n) (f64_of_i64 d).

(** The platform's [powf]. *)
Class Libm := powf : f64 → f64 → f64.

Lemma f64_to_i64_is_i64 x : is_i64 (f64_to_i64 x).
Proof.
  destruct x as [s|s| |s m e]; simpl; try (unfold is_i64, I64_MIN, I64_MAX; destruct s; lia).
  - i64_lia.
  - apply sat_i64_is_i64.
Qed.

(** Conversions and rounding on sample values. *)
Example f64_samples :
  f64_to_i64 (f64_of_i64 (-7)) = -7 ∧ f64_to_i64 (f64_lit 7 2) = 3 ∧ f64_to_i64 (f64_lit (-7) 2) = -3 ∧
  f64_to_i64 (f64_round (f64_lit 5 2)) = 3 ∧ f64_to_i64 (f64_round (f64_lit (-5) 2)) = -3 ∧
  f64_to_i64 (f64_of_i64 (2 ^ 53 + 1)) = 2 ^ 53 ∧ f64_lit 1 10000 = S754_finite false 7378697629483821 (-66).
Proof. by vm_compute. Qed.
