(* ===== verification/Exchanges.v ===== *)
(** * The Bancor exchange (crates/actuators/src/exchange.rs)

    Two-token liquidity pools: create, inject, withdraw, swap. *)

From Stdlib Require Import SpecFloat.
From stdpp Require Import gmap strings pretty numbers fin_maps prelude.
From S2P Require Import Prelude Types Proto State Actuator F64.
Open Scope Z_scope.

(** ** Constants and helpers *)

Definition EXCHANGE_CREATE_FEE : string := "EXCHANGE_CREATE_FEE".
Definition DEFAULT_EXCHANGE_CREATE_FEE : Z := 1024000000.
Definition EXCHANGE_BALANCE_LIMIT : string := "EXCHANGE_BALANCE_LIMIT".
Definition DEFAULT_EXCHANGE_BALANCE_LIMIT : Z := 1000000000000000.
Definition BANCOR_SUPPLY : Z := 1000000000000000000.

Definition token_key (id : bytes) : string := string_of_bytes (from_utf8_lossy id).
Definition exchange_key (id : Z) : bytes := i64_to_be_bytes id.

Definition get_exchange (id : Z) (w : world) : option Exchange.t := w_exchange w !! exchange_key id.
Definition put_exchange (ex : Exchange.t) (w : world) : world :=
  w <| w_exchange ::= insert (exchange_key (Exchange.exchange_id ex)) ex |>.

Definition create_fee (w : world) : Z :=
  let f := get_prop_i64 EXCHANGE_CREATE_FEE w in
  if 0 <? f then f else DEFAULT_EXCHANGE_CREATE_FEE.
Definition balance_limit (w : world) : Z :=
  let l := get_prop_i64 EXCHANGE_BALANCE_LIMIT w in
  if 0 <? l then l else DEFAULT_EXCHANGE_BALANCE_LIMIT.

Definition token_balance (account : Account.t) (id : bytes) : Z :=
  if is_trx id then Account.balance account
  else default 0 (Account.asset_v2 account !! token_key id).

Definition debit_token (account : Account.t) (id : bytes) (amount : Z) : R Account.t :=
  if is_trx id then
    balance ← ok_or (Execute "balance is not sufficient")
      (opt_filter (λ b, 0 <=? b) (checked_sub (Account.balance account) amount));
    Ok (account <| Account.balance := balance |>)
  else
    let key := token_key id in
    let bal := default 0 (Account.asset_v2 account !! key) in
    nb ← ok_or (Execute "asset balance is not sufficient")
      (opt_filter (λ b, 0 <=? b) (checked_sub bal amount));
    Ok (account <| Account.asset_v2 ::= insert key nb |>).

Definition credit_token (account : Account.t) (id : bytes) (amount : Z) : R Account.t :=
  if is_trx id then
    balance ← ok_or (Execute "long overflow") (checked_add (Account.balance account) amount);
    Ok (account <| Account.balance := balance |>)
  else
    let key := token_key id in
    let bal := default 0 (Account.asset_v2 account !! key) in
    nb ← ok_or (Execute "long overflow") (checked_add bal amount);
    Ok (account <| Account.asset_v2 ::= insert key nb |>).

(** The [i128] product and quotient are exact; dividing by zero panics. *)
Definition proportional (other quant this : Z) : R Z :=
  if this =? 0 then Panic else
  ok_or (Validate "long overflow") (checked_i64 (Z.quot (other * quant) this)).

(** The pool side of a token id, and the paired amount. *)
Definition paired (ex : Exchange.t) (token_id : bytes) (quant : Z) : R (bytes * Z) :=
  if bool_decide (token_id = Exchange.first_token_id ex) then
    q ← proportional (Exchange.second_token_balance ex) quant (Exchange.first_token_balance ex);
    Ok (Exchange.second_token_id ex, q)
  else
    q ← proportional (Exchange.first_token_balance ex) quant (Exchange.second_token_balance ex);
    Ok (Exchange.first_token_id ex, q).

Definition load_owner_and_pool (owner_bytes : bytes) (exchange_id : Z) (verb : string)
    (require_creator : bool) (w : world) : R (Address * Account.t * Exchange.t) :=
  owner ← parse_address "Invalid address" owner_bytes;
  account ← ok_or (Validate ("account[" +:+ hex owner +:+ "] not exists")) (get_account owner w);
  if Account.balance account <? 0
  then Err (Validate ("No enough balance for exchange " +:+ verb +:+ " fee!")) else
  exchange ← ok_or (Validate ("Exchange[" +:+ dec exchange_id +:+ "] not exists"))
    (get_exchange exchange_id w);
  if require_creator && negb (bool_decide (Exchange.creator_address exchange = owner))
  then Err (Validate ("account[" +:+ hex owner +:+ "] is not creator")) else
  Ok (owner, account, exchange).

(** ** The swap formula *)

Section Bancor.
Context {libm : Libm}.

Definition bancor_exchange (sell_balance buy_balance sell_quant : Z) : R Z :=
  let one := f64_of_i64 1 in
  let supply := BANCOR_SUPPLY in
  new_balance ← add_i64 sell_balance sell_quant;
  let issued_supply :=
    f64_mul (f64_neg (f64_of_i64 supply))
      (f64_sub one
         (powf (f64_add one (f64_div (f64_of_i64 sell_quant) (f64_of_i64 new_balance)))
            (f64_lit 5 10000))) in
  let relay := f64_to_i64 issued_supply in
  supply ← add_i64 supply relay;
  supply ← sub_i64 supply relay;
  let exchange_balance :=
    f64_mul (f64_of_i64 buy_balance)
      (f64_sub
         (powf (f64_add one (f64_div (f64_of_i64 relay) (f64_of_i64 supply))) (f64_of_i64 2000))
         one) in
  Ok (f64_to_i64 exchange_balance).

Definition pool_transaction (ex : Exchange.t) (sell_id : bytes) (sell_quant : Z) : R (Z * Z * Z) :=
  let fb := Exchange.first_token_balance ex in
  let sb := Exchange.second_token_balance ex in
  if bool_decide (Exchange.first_token_id ex = sell_id) then
    buy ← bancor_exchange fb sb sell_quant;
    new_first ← add_i64 fb sell_quant;
    new_second ← sub_i64 sb buy;
    Ok (buy, new_first, new_second)
  else
    buy ← bancor_exchange sb fb sell_quant;
    new_first ← sub_i64 fb buy;
    new_second ← add_i64 sb sell_quant;
    Ok (buy, new_first, new_second).
End Bancor.

(** ** ExchangeCreateContract *)

Module ExchangeCreateActuator.
Definition validate (c : ExchangeCreateContract.t) (w : world) : R Z :=
  owner ← parse_address "Invalid address" (ExchangeCreateContract.owner_address c);
  account ← ok_or (Validate ("account[" +:+ hex owner +:+ "] not exists")) (get_account owner w);
  let fee := create_fee w in
  if Account.balance account <? fee
  then Err (Validate "No enough balance for exchange create fee!") else
  let first_id := ExchangeCreateContract.first_token_id c in
  let second_id := ExchangeCreateContract.second_token_id c in
  let first_bal := ExchangeCreateContract.first_token_balance c in
  let second_bal := ExchangeCreateContract.second_token_balance c in
  if negb (is_trx first_id) && negb (is_number first_id)
  then Err (Validate "first token id is not a valid number") else
  if negb (is_trx second_id) && negb (is_number second_id)
  then Err (Validate "second token id is not a valid number") else
  if bool_decide (first_id = second_id) then Err (Validate "cannot exchange same tokens") else
  if (first_bal <=? 0) || (second_bal <=? 0)
  then Err (Validate "token balance must greater than zero") else
  let limit := balance_limit w in
  if (limit <? first_bal) || (limit <? second_bal)
  then Err (Validate ("token balance must less than " +:+ dec limit)) else
  _ ← (if is_trx first_id then
         need ← add_i64 first_bal fee;
         if Account.balance account <? need then Err (Validate "balance is not enough") else Ok ()
       else if token_balance account first_id <? first_bal
       then Err (Validate "first token balance is not enough") else Ok ());
  _ ← (if is_trx second_id then
         need ← add_i64 second_bal fee;
         if Account.balance account <? need then Err (Validate "balance is not enough") else Ok ()
       else if token_balance account second_id <? second_bal
       then Err (Validate "second token balance is not enough") else Ok ());
  Ok fee.

Definition execute (c : ExchangeCreateContract.t) : M ExecutionResult :=
  owner ← lift (parse_address "Invalid address" (ExchangeCreateContract.owner_address c));
  fee ← gets create_fee;
  let first_id := ExchangeCreateContract.first_token_id c in
  let second_id := ExchangeCreateContract.second_token_id c in
  let first_bal := ExchangeCreateContract.first_token_balance c in
  let second_bal := ExchangeCreateContract.second_token_balance c in
  account ← reads (λ w, ok_or (Execute "owner account missing") (get_account owner w));
  balance ← lift (ok_or (Execute "balance is not sufficient")
    (opt_filter (λ b, 0 <=? b) (checked_sub (Account.balance account) fee)));
  account ← lift (debit_token (account <| Account.balance := balance |>) first_id first_bal);
  account ← lift (debit_token account second_id second_bal);
  _ ← modify (put_account owner account);
  _ ← (if 0 <? fee then modify (burn_trx fee) else mret ());
  latest ← gets (get_prop_i64 LATEST_EXCHANGE_NUM);
  id ← lift (add_i64 latest 1);
  now ← gets (get_prop_i64 props.LATEST_BLOCK_HEADER_TIMESTAMP);
  _ ← modify (put_exchange (Exchange.mk id owner now first_id first_bal second_id second_bal));
  _ ← modify (put_prop_i64 LATEST_EXCHANGE_NUM id);
  mret (mk_result fee).
End ExchangeCreateActuator.

(** ** ExchangeInjectContract *)

Module ExchangeInjectActuator.
Definition not_enough (id : bytes) (another : bool) : string :=
  if is_trx id then "balance is not enough"
  else if another then "another token balance is not enough"
  else "token balance is not enough".

Definition validate (c : ExchangeInjectContract.t) (w : world) : R Z :=
  p ← load_owner_and_pool (ExchangeInjectContract.owner_address c)
        (ExchangeInjectContract.exchange_id c) "inject" true w;
  let account := p.1.2 in
  let ex := p.2 in
  let token_id := ExchangeInjectContract.token_id c in
  let quant := ExchangeInjectContract.quant c in
  if negb (is_trx token_id) && negb (is_number token_id)
  then Err (Validate "token id is not a valid number") else
  if negb (bool_decide (token_id = Exchange.first_token_id ex))
     && negb (bool_decide (token_id = Exchange.second_token_id ex))
  then Err (Validate "token id is not in exchange") else
  if (Exchange.first_token_balance ex =? 0) || (Exchange.second_token_balance ex =? 0)
  then Err (Validate "Token balance in exchange is equal with 0,the exchange has been closed") else
  if quant <=? 0 then Err (Validate "injected token quant must greater than zero") else
  another ← paired ex token_id quant;
  let another_id := another.1 in
  let another_quant := another.2 in
  if another_quant <=? 0
  then Err (Validate "the calculated token quant  must be greater than 0") else
  news ← (if bool_decide (token_id = Exchange.first_token_id ex) then
            a ← add_i64 (Exchange.first_token_balance ex) quant;
            b ← add_i64 (Exchange.second_token_balance ex) another_quant; Ok (a, b)
          else
            a ← add_i64 (Exchange.second_token_balance ex) quant;
            b ← add_i64 (Exchange.first_token_balance ex) another_quant; Ok (a, b));
  let limit := balance_limit w in
  if (limit <? news.1) || (limit <? news.2)
  then Err (Validate ("token balance must less than " +:+ dec limit)) else
  if token_balance account token_id <? quant then Err (Validate (not_enough token_id false)) else
  if token_balance account another_id <? another_quant
  then Err (Validate (not_enough another_id true)) else
  Ok 0.

Definition execute (c : ExchangeInjectContract.t) : M ExecutionResult :=
  owner ← lift (parse_address "Invalid address" (ExchangeInjectContract.owner_address c));
  let token_id := ExchangeInjectContract.token_id c in
  let quant := ExchangeInjectContract.quant c in
  ex ← reads (λ w, ok_or (Execute "exchange missing")
                     (get_exchange (ExchangeInjectContract.exchange_id c) w));
  another ← lift (paired ex token_id quant);
  let another_id := another.1 in
  let another_quant := another.2 in
  ex ← lift (if bool_decide (token_id = Exchange.first_token_id ex) then
      a ← add_i64 (Exchange.first_token_balance ex) quant;
      b ← add_i64 (Exchange.second_token_balance ex) another_quant;
      Ok (ex <| Exchange.first_token_balance := a |> <| Exchange.second_token_balance := b |>)
    else
      b ← add_i64 (Exchange.second_token_balance ex) quant;
      a ← add_i64 (Exchange.first_token_balance ex) another_quant;
      Ok (ex <| Exchange.first_token_balance := a |> <| Exchange.second_token_balance := b |>));
  account ← reads (λ w, ok_or (Execute "owner account missing") (get_account owner w));
  account ← lift (debit_token account token_id quant);
  account ← lift (debit_token account another_id another_quant);
  _ ← modify (put_account owner account);
  _ ← modify (put_exchange ex);
  mret (mk_result 0).
End ExchangeInjectActuator.

(** ** ExchangeWithdrawContract *)

Module ExchangeWithdrawActuator.
(** The relative rounding error of the withdrawn amount is above 0.0001. *)
Definition imprecise (other_bal quant this_bal another_quant : Z) : bool :=
  let exact := f64_div (f64_mul (f64_of_i64 other_bal) (f64_of_i64 quant)) (f64_of_i64 this_bal) in
  let rounded := f64_div (f64_round (f64_mul exact (f64_of_i64 10000))) (f64_of_i64 10000) in
  let remainder := f64_sub rounded (f64_of_i64 another_quant) in
  f64_gt (f64_div remainder (f64_of_i64 another_quant)) (f64_lit 1 10000).

Definition validate (c : ExchangeWithdrawContract.t) (w : world) : R Z :=
  p ← load_owner_and_pool (ExchangeWithdrawContract.owner_address c)
        (ExchangeWithdrawContract.exchange_id c) "withdraw" true w;
  let ex := p.2 in
  let token_id := ExchangeWithdrawContract.token_id c in
  let quant := ExchangeWithdrawContract.quant c in
  if negb (is_trx token_id) && negb (is_number token_id)
  then Err (Validate "token id is not a valid number") else
  if negb (bool_decide (token_id = Exchange.first_token_id ex))
     && negb (bool_decide (token_id = Exchange.second_token_id ex))
  then Err (Validate "token is not in exchange") else
  if quant <=? 0 then Err (Validate "withdraw token quant must greater than zero") else
  if (Exchange.first_token_balance ex =? 0) || (Exchange.second_token_balance ex =? 0)
  then Err (Validate "Token balance in exchange is equal with 0,the exchange has been closed") else
  let sides := if bool_decide (token_id = Exchange.first_token_id ex)
    then (Exchange.first_token_balance ex, Exchange.second_token_balance ex)
    else (Exchange.second_token_balance ex, Exchange.first_token_balance ex) in
  let this_bal := sides.1 in
  let other_bal := sides.2 in
  another_quant ← proportional other_bal quant this_bal;
  if (this_bal <? quant) || (other_bal <? another_quant)
  then Err (Validate "exchange balance is not enough") else
  if another_quant <=? 0
  then Err (Validate "withdraw another token quant must greater than zero") else
  if imprecise other_bal quant this_bal another_quant
  then Err (Validate "Not precise enough") else
  Ok 0.

Definition execute (c : ExchangeWithdrawContract.t) : M ExecutionResult :=
  owner ← lift (parse_address "Invalid address" (ExchangeWithdrawContract.owner_address c));
  let token_id := ExchangeWithdrawContract.token_id c in
  let quant := ExchangeWithdrawContract.quant c in
  ex ← reads (λ w, ok_or (Execute "exchange missing")
                     (get_exchange (ExchangeWithdrawContract.exchange_id c) w));
  another ← lift (paired ex token_id quant);
  let another_id := another.1 in
  let another_quant := another.2 in
  ex ← lift (if bool_decide (token_id = Exchange.first_token_id ex) then
      a ← sub_i64 (Exchange.first_token_balance ex) quant;
      b ← sub_i64 (Exchange.second_token_balance ex) another_quant;
      Ok (ex <| Exchange.first_token_balance := a |> <| Exchange.second_token_balance := b |>)
    else
      b ← sub_i64 (Exchange.second_token_balance ex) quant;
      a ← sub_i64 (Exchange.first_token_balance ex) another_quant;
      Ok (ex <| Exchange.first_token_balance := a |> <| Exchange.second_token_balance := b |>));
  account ← reads (λ w, ok_or (Execute "owner account missing") (get_account owner w));
  account ← lift (credit_token account token_id quant);
  account ← lift (credit_token account another_id another_quant);
  _ ← modify (put_account owner account);
  _ ← modify (put_exchange ex);
  mret (mk_result 0).
End ExchangeWithdrawActuator.

(** ** ExchangeTransactionContract *)

Module ExchangeTransactionActuator.
Section Swap.
Context {libm : Libm}.

Definition validate (c : ExchangeTransactionContract.t) (w : world) : R Z :=
  p ← load_owner_and_pool (ExchangeTransactionContract.owner_address c)
        (ExchangeTransactionContract.exchange_id c) "transaction" false w;
  let account := p.1.2 in
  let ex := p.2 in
  let token_id := ExchangeTransactionContract.token_id c in
  let quant := ExchangeTransactionContract.quant c in
  let expected := ExchangeTransactionContract.expected c in
  if negb (is_trx token_id) && negb (is_number token_id)
  then Err (Validate "token id is not a valid number") else
  if negb (bool_decide (token_id = Exchange.first_token_id ex))
     && negb (bool_decide (token_id = Exchange.second_token_id ex))
  then Err (Validate "token is not in exchange") else
  if quant <=? 0 then Err (Validate "token quant must greater than zero") else
  if expected <=? 0 then Err (Validate "token expected must greater than zero") else
  if (Exchange.first_token_balance ex =? 0) || (Exchange.second_token_balance ex =? 0)
  then Err (Validate "Token balance in exchange is equal with 0,the exchange has been closed") else
  let token_bal := if bool_decide (token_id = Exchange.first_token_id ex)
    then Exchange.first_token_balance ex else Exchange.second_token_balance ex in
  let limit := balance_limit w in
  new_bal ← add_i64 token_bal quant;
  if limit <? new_bal then Err (Validate ("token balance must less than " +:+ dec limit)) else
  if token_balance account token_id <? quant
  then Err (Validate (if is_trx token_id then "balance is not enough"
                      else "token balance is not enough")) else
  swap ← pool_transaction ex token_id quant;
  if swap.1.1 <? expected
  then Err (Validate "token required must greater than expected") else
  Ok 0.

Definition execute (c : ExchangeTransactionContract.t) : M ExecutionResult :=
  owner ← lift (parse_address "Invalid address" (ExchangeTransactionContract.owner_address c));
  let token_id := ExchangeTransactionContract.token_id c in
  let quant := ExchangeTransactionContract.quant c in
  ex ← reads (λ w, ok_or (Execute "exchange missing")
                     (get_exchange (ExchangeTransactionContract.exchange_id c) w));
  swap ← lift (pool_transaction ex token_id quant);
  let another_id := if bool_decide (token_id = Exchange.first_token_id ex)
    then Exchange.second_token_id ex else Exchange.first_token_id ex in
  let ex := ex <| Exchange.first_token_balance := swap.1.2 |>
               <| Exchange.second_token_balance := swap.2 |> in
  account ← reads (λ w, ok_or (Execute "owner account missing") (get_account owner w));
  account ← lift (debit_token account token_id quant);
  account ← lift (credit_token account another_id swap.1.1);
  _ ← modify (put_account owner account);
  _ ← modify (put_exchange ex);
  mret (mk_result 0).
End Swap.
End ExchangeTransactionActuator.

#[export] Instance exchange_create_actuator : Actuator ExchangeCreateContract.t := {
  validate := ExchangeCreateActuator.validate; execute := ExchangeCreateActuator.execute }.
#[export] Instance exchange_inject_actuator : Actuator ExchangeInjectContract.t := {
  validate := ExchangeInjectActuator.validate; execute := ExchangeInjectActuator.execute }.
#[export] Instance exchange_withdraw_actuator : Actuator ExchangeWithdrawContract.t := {
  validate := ExchangeWithdrawActuator.validate; execute := ExchangeWithdrawActuator.execute }.
#[export] Instance exchange_transaction_actuator {libm : Libm} : Actuator ExchangeTransactionContract.t := {
  validate := ExchangeTransactionActuator.validate;
  execute := ExchangeTransactionActuator.execute }.

(** ** Token movements *)

(** An account with [d] units of a token added, and a pool likewise. *)
Definition move_token (acc : Account.t) (id : bytes) (d : Z) : Account.t :=
  if is_trx id then set_balance acc (Account.balance acc + d)
  else acc <| Account.asset_v2 ::= insert (token_key id) (token_balance acc id + d) |>.
Definition pool_balance (ex : Exchange.t) (id : bytes) : Z :=
  if bool_decide (id = Exchange.first_token_id ex) then Exchange.first_token_balance ex
  else if bool_decide (id = Exchange.second_token_id ex) then Exchange.second_token_balance ex
  else 0.
Definition move_pool (ex : Exchange.t) (id : bytes) (d : Z) : Exchange.t :=
  if bool_decide (id = Exchange.first_token_id ex)
  then ex <| Exchange.first_token_balance ::= λ b, b + d |>
  else ex <| Exchange.second_token_balance ::= λ b, b + d |>.
(** The other token of a pool. *)
Definition other_id (ex : Exchange.t) (id : bytes) : bytes :=
  if bool_decide (id = Exchange.first_token_id ex) then Exchange.second_token_id ex
  else Exchange.first_token_id ex.
Definition in_pool (ex : Exchange.t) (id : bytes) : Prop :=
  id = Exchange.first_token_id ex ∨ id = Exchange.second_token_id ex.

Section Tokens.
Implicit Types (acc : Account.t) (id t : bytes) (ex : Exchange.t).

Lemma is_number_bytes id : is_number id = true → Forall (λ b, 48 ≤ b ≤ 57) id.
Proof.
  unfold is_number. intros H. repeat case_match; try done.
  match goal with H : negb (forallb _ _) = false |- _ => apply negb_false_iff in H; rename H into Hf end.
  rewrite forallb_forall in Hf. apply Forall_forall. intros b Hb%list_elem_of_In.
  specialize (Hf b Hb). by bool_prop.
Qed.

Lemma token_key_inj t id :
  is_number t = true → is_number id = true → token_key t = token_key id → t = id.
Proof.
  intros Ht%is_number_bytes Hid%is_number_bytes. unfold token_key.
  rewrite !from_utf8_lossy_ascii by (eapply Forall_impl; [eassumption|]; simpl; lia).
  apply string_of_bytes_inj; (eapply Forall_impl; [eassumption|]); unfold is_byte; simpl; lia.
Qed.

Lemma valid_token_not_trx t : valid_token t = true → is_trx t = false → is_number t = true.
Proof. unfold valid_token. intros H E. by rewrite E in H. Qed.

Lemma debit_token_Ok acc id n acc' :
  debit_token acc id n = Ok acc' →
  acc' = move_token acc id (- n) ∧ 0 ≤ token_balance acc id - n ∧ is_i64 (token_balance acc id - n).
Proof.
  unfold debit_token, move_token, token_balance, set_balance. intros H.
  destruct (is_trx id) eqn:E; inv_run; rewrite ?E; done.
Qed.
Lemma credit_token_Ok acc id n acc' :
  credit_token acc id n = Ok acc' →
  acc' = move_token acc id n ∧ is_i64 (token_balance acc id + n).
Proof.
  unfold credit_token, move_token, token_balance, set_balance. intros H.
  destruct (is_trx id) eqn:E; inv_run; rewrite ?E; done.
Qed.
Lemma debit_token_no_panic acc id n : debit_token acc id n ≠ Panic.
Proof. unfold debit_token. intros H. destruct (is_trx id); inv_run. Qed.

Lemma move_token_trx acc id d : acc_trx (move_token acc id d) = acc_trx acc + side_trx id d.
Proof.
  unfold move_token, side_trx. destruct (is_trx id).
  - rewrite acc_trx_set_balance. lia.
  - unfold acc_trx, energy_frozen. simpl. lia.
Qed.
Lemma move_token_wf acc id d :
  acc_wf acc → nonneg_i64 (token_balance acc id + d) → acc_wf (move_token acc id d).
Proof.
  intros Hwf Hd. unfold move_token, token_balance in *. destruct (is_trx id) eqn:E.
  - apply acc_wf_set_balance; [done|apply Hd].
  - destruct Hwf. constructor; try done. simpl. by apply map_Forall_insert_2.
Qed.
Lemma move_token_balance acc id t d :
  valid_token id = true → valid_token t = true →
  token_balance (move_token acc id d) t =
    token_balance acc t + (if decide (t = id) then d else 0).
Proof.
  intros Hid Ht. unfold move_token, token_balance.
  destruct (is_trx id) eqn:Ei, (is_trx t) eqn:Et.
  - unfold is_trx in Ei, Et. bool_prop. rewrite decide_True by congruence. done.
  - case_decide; [congruence|]. simpl. lia.
  - case_decide; [congruence|]. simpl. lia.
  - simpl. case_decide as Hd.
    + subst t. by rewrite lookup_insert_eq.
    + rewrite lookup_insert_ne; [lia|]. intros Hk. apply Hd. symmetry.
      apply token_key_inj; auto using valid_token_not_trx.
Qed.

Lemma token_balance_nonneg acc id : acc_wf acc → 0 ≤ token_balance acc id.
Proof.
  intros Hwf. unfold token_balance. destruct (is_trx id); [apply Hwf|].
  destruct (Account.asset_v2 acc !! token_key id) as [b|] eqn:E; simpl; [|done].
  apply (wf_assets _ Hwf _ _ E).
Qed.

Lemma move_pool_ids ex id d :
  Exchange.first_token_id (move_pool ex id d) = Exchange.first_token_id ex ∧
  Exchange.second_token_id (move_pool ex id d) = Exchange.second_token_id ex ∧
  Exchange.exchange_id (move_pool ex id d) = Exchange.exchange_id ex ∧
  Exchange.creator_address (move_pool ex id d) = Exchange.creator_address ex.
Proof. unfold move_pool. by case_bool_decide. Qed.
Lemma move_pool_trx ex id d :
  in_pool ex id → Exchange.first_token_id ex ≠ Exchange.second_token_id ex →
  exchange_trx (move_pool ex id d) = exchange_trx ex + side_trx id d.
Proof.
  intros [->| ->] Hne; unfold move_pool, exchange_trx, side_trx; case_bool_decide; simpl;
    try done; repeat case_match; lia.
Qed.
Lemma move_pool_balance ex id t d :
  in_pool ex id → Exchange.first_token_id ex ≠ Exchange.second_token_id ex →
  pool_balance (move_pool ex id d) t = pool_balance ex t + (if decide (t = id) then d else 0).
Proof.
  intros Hin Hne. unfold pool_balance. destruct (move_pool_ids ex id d) as (-> & -> & _).
  unfold move_pool. destruct Hin as [->| ->];
    repeat case_bool_decide; simplify_eq; simpl; repeat case_decide; simplify_eq; lia || done.
Qed.
Lemma other_id_in_pool ex id :
  in_pool ex id → Exchange.first_token_id ex ≠ Exchange.second_token_id ex →
  in_pool ex (other_id ex id) ∧ other_id ex id ≠ id.
Proof.
  unfold in_pool, other_id. intros [->| ->] Hne; case_bool_decide; split; auto; congruence.
Qed.
Lemma move_pool_wf n k ex id d :
  exchange_wf n k ex → in_pool ex id → nonneg_i64 (pool_balance ex id + d) →
  exchange_wf n k (move_pool ex id d).
Proof.
  intros Hwf Hin Hd. destruct (move_pool_ids ex id d) as (E1 & E2 & E3 & _).
  unfold pool_balance, move_pool in *. destruct Hwf.
  destruct Hin as [->| ->]; repeat case_bool_decide; try done; by constructor.
Qed.
Lemma in_pool_move ex id t d : in_pool (move_pool ex id d) t ↔ in_pool ex t.
Proof. unfold in_pool. by destruct (move_pool_ids ex id d) as (-> & -> & _). Qed.
Lemma in_pool_valid n k ex t : exchange_wf n k ex → in_pool ex t → valid_token t = true.
Proof. by intros [] [->| ->]. Qed.
End Tokens.

(** ** What an operation on a pool does

    [d1] units of [tok] and [d2] units of the pool's other token go from the owner
    to the pool (negative amounts the other way). *)
Record pool_move (owner : Address) (id : Z) (tok : bytes) (d1 d2 : Z) (w w' : world)
    (acc : Account.t) (ex : Exchange.t) : Prop := {
  mv_account : get_account owner w = Some acc;
  mv_pool : get_exchange id w = Some ex;
  mv_token : in_pool ex tok;
  mv_state : w' = put_exchange (move_pool (move_pool ex tok d1) (other_id ex tok) d2)
    (put_account owner (move_token (move_token acc tok (- d1)) (other_id ex tok) (- d2)) w);
  mv_acc1 : nonneg_i64 (token_balance acc tok - d1);
  mv_acc2 : nonneg_i64 (token_balance acc (other_id ex tok) - d2);
  mv_pool1 : nonneg_i64 (pool_balance ex tok + d1);
  mv_pool2 : nonneg_i64 (pool_balance ex (other_id ex tok) + d2);
}.

Section PoolMove.
Context (owner : Address) (id : Z) (tok : bytes) (d1 d2 : Z) (w w' : world) (acc : Account.t)
  (ex : Exchange.t) (Hi : trx_inv w) (Hm : pool_move owner id tok d1 d2 w w' acc ex).
Let n := get_prop_i64 LATEST_EXCHANGE_NUM w.
Let other := other_id ex tok.
Let acc' := move_token (move_token acc tok (- d1)) other (- d2).
Let ex' := move_pool (move_pool ex tok d1) other d2.

Lemma pool_wf : exchange_wf n (exchange_key id) ex.
Proof using Hi Hm. destruct Hm. by apply (inv_exchange _ (proj1 Hi)). Qed.
Lemma pool_other : in_pool ex other ∧ other ≠ tok.
Proof using Hi Hm. apply other_id_in_pool; [apply Hm|apply pool_wf]. Qed.
Lemma pool_tok_valid : valid_token tok = true ∧ valid_token other = true.
Proof using Hi Hm.
  split; eapply in_pool_valid; [apply pool_wf|apply Hm|apply pool_wf|apply pool_other].
Qed.
Lemma pool_move_account :
  acc_wf acc' ∧ acc_trx acc' = acc_trx acc - side_trx tok d1 - side_trx other d2.
Proof using Hi Hm.
  pose proof (get_account_wf _ _ _ (proj1 Hi) (mv_account _ _ _ _ _ _ _ _ _ Hm)) as Hwf.
  destruct pool_tok_valid as [Hv1 Hv2]. destruct pool_other as [_ Hne]. destruct Hm.
  unfold acc'. split.
  - apply move_token_wf; [by apply move_token_wf|].
    rewrite move_token_balance, decide_False by done.
    by replace (_ + 0 + - d2) with (token_balance acc other - d2) by lia.
  - rewrite !move_token_trx. unfold side_trx. repeat case_match; lia.
Qed.
Lemma pool_move_pool :
  exchange_wf n (exchange_key id) ex' ∧
  exchange_trx ex' = exchange_trx ex + side_trx tok d1 + side_trx other d2 ∧
  Exchange.exchange_id ex' = Exchange.exchange_id ex.
Proof using Hi Hm.
  pose proof pool_wf as Hwf. pose proof (wf_ids _ _ _ Hwf) as Hids.
  destruct pool_other as [Hin Hne]. destruct Hm. unfold ex'.
  destruct (move_pool_ids ex tok d1) as (E1 & E2 & E3 & _).
  destruct (move_pool_ids (move_pool ex tok d1) other d2) as (_ & _ & E4 & _).
  split_and!; [| |congruence].
  - apply move_pool_wf; [by apply move_pool_wf|by apply in_pool_move|].
    rewrite move_pool_balance, decide_False by done.
    by replace (_ + 0 + d2) with (pool_balance ex other + d2) by lia.
  - rewrite !move_pool_trx; try done; [by apply in_pool_move|]. by rewrite E1, E2.
Qed.

(** Every token the two hold together is conserved. *)
Lemma pool_move_conserves t :
  valid_token t = true →
  token_balance acc' t + pool_balance ex' t = token_balance acc t + pool_balance ex t.
Proof using Hi Hm.
  intros Ht. destruct pool_tok_valid as [Hv1 Hv2]. destruct pool_other as [Hin Hne].
  pose proof (wf_ids _ _ _ pool_wf) as Hids. destruct Hm. unfold acc', ex'.
  destruct (move_pool_ids ex tok d1) as (E1 & E2 & _).
  rewrite !move_token_balance, !move_pool_balance by (done || by apply in_pool_move || by rewrite E1, E2).
  repeat case_decide; lia.
Qed.

Lemma pool_move_read :
  get_account owner w' = Some acc' ∧ get_exchange id w' = Some ex' ∧
  (∀ b, b ≠ owner → get_account b w' = get_account b w) ∧
  (∀ k, k ≠ exchange_key id → w_exchange w' !! k = w_exchange w !! k).
Proof using Hi Hm.
  destruct pool_move_pool as (_ & _ & E). pose proof (wf_exchange_key _ _ _ pool_wf) as Hk.
  rewrite (mv_state _ _ _ _ _ _ _ _ _ Hm). fold other acc' ex'. unfold get_exchange, put_exchange.
  simpl. rewrite E. unfold exchange_key in *. rewrite <-Hk. split_and!.
  - apply lookup_insert_eq.
  - apply lookup_insert_eq.
  - intros b Hb. by apply lookup_insert_ne.
  - intros k' Hk'. by apply lookup_insert_ne.
Qed.

Lemma pool_move_inv : trx_inv w' ∧ total_trx w' = total_trx w.
Proof using Hi Hm.
  destruct pool_move_account as [Ha Hat]. destruct pool_move_pool as (He & Het & Eid).
  pose proof (wf_exchange_key _ _ _ pool_wf) as Hk. pose proof Hm as [Ea Ee _ Ew _ _ _ _].
  fold other acc' ex' in Ew.
  assert (Hw : trx_wf w').
  { rewrite Ew. destruct (trx_wf_put_account owner acc' w (proj1 Hi) Ha). constructor; try done.
    unfold put_exchange. simpl. rewrite Eid. unfold exchange_key. rewrite <-Hk.
    apply map_Forall_insert_2; [|done]. exact He. }
  assert (Ht : total_trx w' = total_trx w).
  { assert (Hp : burned w' = burned w) by (by rewrite Ew).
    assert (Hacc : w_account w' = <[owner:=acc']> (w_account w)) by (by rewrite Ew).
    assert (Hex : w_exchange w' = <[exchange_key id:=ex']> (w_exchange w))
      by (rewrite Ew; unfold put_exchange; simpl; by rewrite Eid, Hk).
    assert (Hd : w_delegation w' = w_delegation w ∧ w_market_order w' = w_market_order w)
      by (by rewrite Ew). destruct Hd as [Hd Ho].
    unfold total_trx. rewrite Hp, Hacc, Hex, Hd, Ho.
    rewrite (map_sum_insert_Some _ _ _ _ acc Ea), (map_sum_insert_Some _ _ _ _ ex Ee). lia. }
  split; [|done]. split; [done|]. rewrite Ht. apply Hi.
Qed.
End PoolMove.

(** ** The runs *)

Lemma load_Ok ob id verb rc w p :
  load_owner_and_pool ob id verb rc w = Ok p →
  is_address ob = true ∧ p.1.1 = ob ∧ get_account ob w = Some p.1.2 ∧ get_exchange id w = Some p.2 ∧
  (rc = true → Exchange.creator_address p.2 = ob).
Proof.
  unfold load_owner_and_pool. intros H. inv_run; parse_facts. simpl. split_and!; try done.
  intros ->. bool_prop. match goal with H : true && _ = false |- _ => simpl in H end.
  by bool_prop.
Qed.

Lemma paired_Ok ex tok q p :
  paired ex tok q = Ok p →
  p.1 = other_id ex tok ∧ is_i64 p.2.
Proof.
  unfold paired, proportional, other_id. intros H. case_bool_decide; inv_run; simpl; split; try done;
    match goal with H : checked_i64 _ = Some _ |- _ => apply checked_i64_Some in H as [-> ?] end; done.
Qed.

(** [token_id] is one of the pool's two ids. *)
Lemma in_pool_spec ex tok :
  negb (bool_decide (tok = Exchange.first_token_id ex))
    && negb (bool_decide (tok = Exchange.second_token_id ex)) = false → in_pool ex tok.
Proof. unfold in_pool. repeat case_bool_decide; auto; done. Qed.

(** The two in-place updates of the pool. *)
Definition add_sides (op : Z → Z → R Z) (tok : bytes) (q1 q2 : Z) (ex : Exchange.t) : R Exchange.t :=
  if bool_decide (tok = Exchange.first_token_id ex) then
    a ← op (Exchange.first_token_balance ex) q1;
    b ← op (Exchange.second_token_balance ex) q2;
    Ok (ex <| Exchange.first_token_balance := a |> <| Exchange.second_token_balance := b |>)
  else
    b ← op (Exchange.second_token_balance ex) q1;
    a ← op (Exchange.first_token_balance ex) q2;
    Ok (ex <| Exchange.first_token_balance := a |> <| Exchange.second_token_balance := b |>).

Lemma pool_balance_sides ex tok :
  in_pool ex tok → Exchange.first_token_id ex ≠ Exchange.second_token_id ex →
  if bool_decide (tok = Exchange.first_token_id ex)
  then pool_balance ex tok = Exchange.first_token_balance ex ∧
       pool_balance ex (other_id ex tok) = Exchange.second_token_balance ex
  else pool_balance ex tok = Exchange.second_token_balance ex ∧
       pool_balance ex (other_id ex tok) = Exchange.first_token_balance ex.
Proof.
  intros [->| ->] Hne; unfold pool_balance, other_id; repeat case_bool_decide; done.
Qed.

Lemma move_pool_sides ex tok d1 d2 :
  in_pool ex tok → Exchange.first_token_id ex ≠ Exchange.second_token_id ex →
  move_pool (move_pool ex tok d1) (other_id ex tok) d2 =
  if bool_decide (tok = Exchange.first_token_id ex)
  then ex <| Exchange.first_token_balance := Exchange.first_token_balance ex + d1 |>
          <| Exchange.second_token_balance := Exchange.second_token_balance ex + d2 |>
  else ex <| Exchange.first_token_balance := Exchange.first_token_balance ex + d2 |>
          <| Exchange.second_token_balance := Exchange.second_token_balance ex + d1 |>.
Proof.
  intros Hin Hne. unfold move_pool, other_id. destruct Hin as [->| ->];
    repeat case_bool_decide; simpl in *; try done; congruence.
Qed.

(** Both updates are a move of the pool, up to the sign of the amounts. *)
Lemma add_sides_Ok (op : Z → Z → R Z) s tok q1 q2 ex ex' :
  (∀ a b r, op a b = Ok r → r = a + s * b ∧ is_i64 r) →
  in_pool ex tok → Exchange.first_token_id ex ≠ Exchange.second_token_id ex →
  add_sides op tok q1 q2 ex = Ok ex' →
  ex' = move_pool (move_pool ex tok (s * q1)) (other_id ex tok) (s * q2) ∧
  is_i64 (pool_balance ex tok + s * q1) ∧ is_i64 (pool_balance ex (other_id ex tok) + s * q2).
Proof.
  intros Hop Hin Hne. rewrite move_pool_sides by done. pose proof (pool_balance_sides ex tok Hin Hne) as Hb.
  unfold add_sides. destruct (bool_decide _); intros H; destruct Hb as [-> ->];
    apply res_bind_Ok in H as (x & Hx & H); apply res_bind_Ok in H as (y & Hy & H);
    apply Hop in Hx as [-> ?]; apply Hop in Hy as [-> ?]; by injection H as <-.
Qed.

(** Validation facts shared by the three operations on a pool. *)
Record pool_valid (owner : Address) (id : Z) (tok : bytes) (w : world) acc ex : Prop := {
  pv_owner : is_address owner = true;
  pv_account : get_account owner w = Some acc;
  pv_pool : get_exchange id w = Some ex;
  pv_token : in_pool ex tok;
}.

Lemma inject_validate c w v :
  ExchangeInjectActuator.validate c w = Ok v →
  ∃ acc ex p, pool_valid (ExchangeInjectContract.owner_address c) (ExchangeInjectContract.exchange_id c)
    (ExchangeInjectContract.token_id c) w acc ex ∧
    paired ex (ExchangeInjectContract.token_id c) (ExchangeInjectContract.quant c) = Ok p ∧
    0 < ExchangeInjectContract.quant c ∧ 0 < p.2 ∧
    Exchange.creator_address ex = ExchangeInjectContract.owner_address c.
Proof.
  unfold ExchangeInjectActuator.validate. intros H. apply res_bind_Ok in H as (p & Hl & H).
  apply load_Ok in Hl as (Ho & _ & Ea & Ee & Hc). cbv zeta in H.
  destruct (_ && _) in H; [done|]. destruct (_ && _) eqn:Hin in H; [done|].
  apply in_pool_spec in Hin. destruct (_ || _) in H; [done|]. destruct (_ <=? 0) eqn:Hq in H; [done|].
  apply res_bind_Ok in H as (q & Hp & H). destruct (q.2 <=? 0) eqn:Hq2 in H; [done|]. bool_prop.
  exists p.1.2, p.2, q. split; [by constructor|]. split_and!; auto; lia.
Qed.

Lemma withdraw_validate c w v :
  trx_inv w → ExchangeWithdrawActuator.validate c w = Ok v →
  ∃ acc ex p, pool_valid (ExchangeWithdrawContract.owner_address c)
    (ExchangeWithdrawContract.exchange_id c) (ExchangeWithdrawContract.token_id c) w acc ex ∧
    paired ex (ExchangeWithdrawContract.token_id c) (ExchangeWithdrawContract.quant c) = Ok p ∧
    0 < ExchangeWithdrawContract.quant c ≤ pool_balance ex (ExchangeWithdrawContract.token_id c) ∧
    0 < p.2 ≤ pool_balance ex (other_id ex (ExchangeWithdrawContract.token_id c)) ∧
    Exchange.creator_address ex = ExchangeWithdrawContract.owner_address c.
Proof.
  unfold ExchangeWithdrawActuator.validate. intros Hi H. apply res_bind_Ok in H as (p & Hl & H).
  apply load_Ok in Hl as (Ho & _ & Ea & Ee & Hc). cbv zeta in H.
  destruct (_ && _) in H; [done|]. destruct (_ && _) eqn:Hin in H; [done|].
  apply in_pool_spec in Hin. destruct (_ <=? 0) eqn:Hq in H; [done|]. destruct (_ || _) in H; [done|].
  apply res_bind_Ok in H as (q & Hp & H). destruct (_ || _) eqn:Hle in H; [done|].
  destruct (q <=? 0) eqn:Hq2 in H; [done|]. clear H.
  pose proof (inv_exchange _ (proj1 Hi) _ _ Ee) as Hwf.
  pose proof (pool_balance_sides _ _ Hin (wf_ids _ _ _ Hwf)) as Hb.
  exists p.1.2, p.2, (other_id p.2 (ExchangeWithdrawContract.token_id c), q).
  bool_prop. split; [by constructor|].
  split_and!; auto; try (try case_bool_decide; simpl in *; lia).
  unfold paired, other_id. case_bool_decide; simpl in Hp; rewrite Hp; done.
Qed.

(** Writing the result of an operation on a pool. *)
Lemma pool_valid_move owner id tok w acc ex d1 d2 acc' ex' :
  trx_inv w → pool_valid owner id tok w acc ex →
  acc' = move_token (move_token acc tok (- d1)) (other_id ex tok) (- d2) →
  ex' = move_pool (move_pool ex tok d1) (other_id ex tok) d2 →
  nonneg_i64 (token_balance acc tok - d1) → nonneg_i64 (token_balance acc (other_id ex tok) - d2) →
  nonneg_i64 (pool_balance ex tok + d1) → nonneg_i64 (pool_balance ex (other_id ex tok) + d2) →
  pool_move owner id tok d1 d2 w (put_exchange ex' (put_account owner acc' w)) acc ex.
Proof. intros Hi [] -> -> ? ? ? ?. by constructor. Qed.

Lemma pool_valid_facts owner id tok w acc ex :
  trx_inv w → pool_valid owner id tok w acc ex →
  acc_wf acc ∧ exchange_wf (get_prop_i64 LATEST_EXCHANGE_NUM w) (exchange_key id) ex ∧
  valid_token tok = true ∧ valid_token (other_id ex tok) = true ∧ other_id ex tok ≠ tok ∧
  nonneg_i64 (pool_balance ex tok) ∧ nonneg_i64 (pool_balance ex (other_id ex tok)).
Proof.
  intros Hi []. pose proof (inv_exchange _ (proj1 Hi) _ _ pv_pool0) as Hwf.
  destruct (other_id_in_pool ex tok pv_token0 (wf_ids _ _ _ Hwf)) as [Ho Hne].
  split_and!; eauto using in_pool_valid.
  - by eapply get_account_wf; [apply Hi|].
  - unfold pool_balance, nonneg_i64. destruct Hwf as [_ _ ? ? _ _ _]. repeat case_bool_decide; done.
  - unfold pool_balance, nonneg_i64. destruct Hwf as [_ _ ? ? _ _ _]. repeat case_bool_decide; done.
Qed.

Lemma inject_run (c : ExchangeInjectContract.t) w :
  trx_inv w →
  match apply_contract c w with
  | (Ok _, w') => ∃ acc ex d2, 0 < ExchangeInjectContract.quant c ∧ 0 < d2 ∧
      Exchange.creator_address ex = ExchangeInjectContract.owner_address c ∧
      pool_move (ExchangeInjectContract.owner_address c) (ExchangeInjectContract.exchange_id c)
        (ExchangeInjectContract.token_id c) (ExchangeInjectContract.quant c) d2 w w' acc ex
  | (Err _, w') => w' = w
  | (Panic, _) => True
  end.
Proof.
  intros Hi. destruct (apply_contract c w) as [[r|e|] w'] eqn:E; [..|done];
    rewrite apply_contract_eq in E; simpl in E;
    (destruct (ExchangeInjectActuator.validate c w) as [v|e'|] eqn:Ev;
      [|first [discriminate E|by injection E as <- <-]|discriminate E]).
  2:{ unfold ExchangeInjectActuator.execute in E. inv_run; done. }
  apply inject_validate in Ev as (acc & ex & p & Hv & Hp & Hq & Hq2 & Hc).
  destruct (pool_valid_facts _ _ _ _ _ _ Hi Hv) as (Hwf & Hex & Hv1 & Hv2 & Hne & Hb1 & Hb2).
  destruct (paired_Ok _ _ _ _ Hp) as [Hp1 Hp2].
  unfold ExchangeInjectActuator.execute in E. cbv zeta in E.
  rewrite parse_address_ok, run_lift in E by apply Hv.
  rewrite (run_reads_some _ _ _ _ _ (pv_pool _ _ _ _ _ _ Hv)), Hp, run_lift in E.
  apply ST_bind_Ok in E as (ex' & w1 & [Es ->]%lift_Ok & E).
  apply (add_sides_Ok add_i64 1) in Es as (Eex & Hb1' & Hb2');
    [|intros ? ? ? [-> ?]%add_i64_Ok; split; [lia|done]|apply Hv|apply Hex].
  rewrite (run_reads_some _ _ _ _ _ (pv_account _ _ _ _ _ _ Hv)) in E.
  apply ST_bind_Ok in E as (a1 & w1' & [Ed1 ->]%lift_Ok & E).
  apply ST_bind_Ok in E as (a2 & w1'' & [Ed2 ->]%lift_Ok & E).
  apply debit_token_Ok in Ed1 as (-> & Hd1 & Hd1'). apply debit_token_Ok in Ed2 as (-> & Hd2 & Hd2').
  rewrite !run_modify in E. injection E as <- <-. rewrite Hp1 in *. rewrite !Z.mul_1_l in *.
  rewrite move_token_balance, decide_False in Hd2, Hd2' by done.
  exists acc, ex, p.2. split_and!; try done. eapply pool_valid_move; try done.
  all: unfold nonneg_i64 in *; i64_lia.
Qed.

Lemma withdraw_run (c : ExchangeWithdrawContract.t) w :
  trx_inv w →
  match apply_contract c w with
  | (Ok _, w') => ∃ acc ex d2, 0 < ExchangeWithdrawContract.quant c ∧ 0 < d2 ∧
      Exchange.creator_address ex = ExchangeWithdrawContract.owner_address c ∧
      pool_move (ExchangeWithdrawContract.owner_address c) (ExchangeWithdrawContract.exchange_id c)
        (ExchangeWithdrawContract.token_id c) (- ExchangeWithdrawContract.quant c) (- d2) w w' acc ex
  | (Err _, w') => w' = w
  | (Panic, _) => True
  end.
Proof.
  intros Hi. destruct (apply_contract c w) as [[r|e|] w'] eqn:E; [..|done];
    rewrite apply_contract_eq in E; simpl in E;
    (destruct (ExchangeWithdrawActuator.validate c w) as [v|e'|] eqn:Ev;
      [|first [discriminate E|by injection E as <- <-]|discriminate E]).
  2:{ unfold ExchangeWithdrawActuator.execute in E. inv_run; done. }
  apply withdraw_validate in Ev as (acc & ex & p & Hv & Hp & Hq & Hq2 & Hc); [|done].
  destruct (pool_valid_facts _ _ _ _ _ _ Hi Hv) as (Hwf & Hex & Hv1 & Hv2 & Hne & Hb1 & Hb2).
  destruct (paired_Ok _ _ _ _ Hp) as [Hp1 Hp2].
  unfold ExchangeWithdrawActuator.execute in E. cbv zeta in E.
  rewrite parse_address_ok, run_lift in E by apply Hv.
  rewrite (run_reads_some _ _ _ _ _ (pv_pool _ _ _ _ _ _ Hv)), Hp, run_lift in E.
  apply ST_bind_Ok in E as (ex' & w1 & [Es ->]%lift_Ok & E).
  apply (add_sides_Ok sub_i64 (-1)) in Es as (Eex & Hb1' & Hb2');
    [|intros ? ? ? [-> ?]%sub_i64_Ok; split; [lia|done]|apply Hv|apply Hex].
  rewrite (run_reads_some _ _ _ _ _ (pv_account _ _ _ _ _ _ Hv)) in E.
  apply ST_bind_Ok in E as (a1 & w1' & [Ed1 ->]%lift_Ok & E).
  apply ST_bind_Ok in E as (a2 & w1'' & [Ed2 ->]%lift_Ok & E).
  apply credit_token_Ok in Ed1 as (-> & Hd1). apply credit_token_Ok in Ed2 as (-> & Hd2).
  rewrite !run_modify in E. injection E as <- <-. rewrite Hp1 in *.
  rewrite move_token_balance, decide_False in Hd2 by done.
  pose proof (token_balance_nonneg _ (ExchangeWithdrawContract.token_id c) Hwf).
  pose proof (token_balance_nonneg _ (other_id ex (ExchangeWithdrawContract.token_id c)) Hwf).
  exists acc, ex, p.2. split_and!; try done; try lia. eapply pool_valid_move; try done;
    [by rewrite !Z.opp_involutive|..].
  all: unfold nonneg_i64 in *; i64_lia.
Qed.

Section SwapRun.
Context {libm : Libm}.

Lemma pool_transaction_Ok ex tok q s :
  in_pool ex tok → Exchange.first_token_id ex ≠ Exchange.second_token_id ex →
  pool_transaction ex tok q = Ok s →
  ex <| Exchange.first_token_balance := s.1.2 |> <| Exchange.second_token_balance := s.2 |>
    = move_pool (move_pool ex tok q) (other_id ex tok) (- s.1.1) ∧
  is_i64 (pool_balance ex tok + q) ∧ is_i64 (pool_balance ex (other_id ex tok) - s.1.1).
Proof.
  intros Hin Hne. rewrite move_pool_sides by done. pose proof (pool_balance_sides ex tok Hin Hne) as Hb.
  unfold pool_transaction. rewrite (bool_decide_ext (Exchange.first_token_id ex = tok)
    (tok = Exchange.first_token_id ex)) by done.
  destruct (bool_decide _); intros H; destruct Hb as [-> ->];
    apply res_bind_Ok in H as (x & _ & H); apply res_bind_Ok in H as (y & Hy & H);
    apply res_bind_Ok in H as (z & Hz & H); injection H as <-; simpl.
  - apply add_i64_Ok in Hy as [-> ?]. apply sub_i64_Ok in Hz as [-> ?]. done.
  - apply sub_i64_Ok in Hy as [-> ?]. apply add_i64_Ok in Hz as [-> ?]. done.
Qed.

(** The pool can pay for the swap: the amount the formula computes is not above
    the balance of the bought token.  The code does not check it. *)
Definition swap_covered (c : ExchangeTransactionContract.t) (w : world) : Prop :=
  ∀ ex s, get_exchange (ExchangeTransactionContract.exchange_id c) w = Some ex →
    pool_transaction ex (ExchangeTransactionContract.token_id c)
      (ExchangeTransactionContract.quant c) = Ok s →
    s.1.1 ≤ pool_balance ex (other_id ex (ExchangeTransactionContract.token_id c)).

Lemma swap_validate c w v :
  ExchangeTransactionActuator.validate c w = Ok v →
  ∃ acc ex s, pool_valid (ExchangeTransactionContract.owner_address c)
    (ExchangeTransactionContract.exchange_id c) (ExchangeTransactionContract.token_id c) w acc ex ∧
    pool_transaction ex (ExchangeTransactionContract.token_id c)
      (ExchangeTransactionContract.quant c) = Ok s ∧
    0 < ExchangeTransactionContract.quant c ∧
    0 < ExchangeTransactionContract.expected c ≤ s.1.1.
Proof.
  unfold ExchangeTransactionActuator.validate. intros H. apply res_bind_Ok in H as (p & Hl & H).
  apply load_Ok in Hl as (Ho & _ & Ea & Ee & Hc). cbv zeta in H.
  destruct (_ && _) in H; [done|]. destruct (_ && _) eqn:Hin in H; [done|].
  apply in_pool_spec in Hin. destruct (_ <=? 0) eqn:Hq in H; [done|].
  destruct (_ <=? 0) eqn:Hx in H; [done|]. destruct (_ || _) in H; [done|].
  apply res_bind_Ok in H as (nb & _ & H). destruct (_ <? nb) in H; [done|].
  destruct (_ <? _) in H; [done|]. apply res_bind_Ok in H as (s & Hs & H).
  destruct (_ <? _) eqn:Hb in H; [done|]. bool_prop.
  exists p.1.2, p.2, s. split; [by constructor|]. split_and!; auto; lia.
Qed.

Lemma swap_run (c : ExchangeTransactionContract.t) w :
  trx_inv w → swap_covered c w →
  match apply_contract c w with
  | (Ok _, w') => ∃ acc ex buy, 0 < ExchangeTransactionContract.quant c ∧
      0 < ExchangeTransactionContract.expected c ≤ buy ∧
      pool_move (ExchangeTransactionContract.owner_address c) (ExchangeTransactionContract.exchange_id c)
        (ExchangeTransactionContract.token_id c) (ExchangeTransactionContract.quant c) (- buy) w w' acc ex
  | (Err _, w') => w' = w
  | (Panic, _) => True
  end.
Proof.
  intros Hi Hcov. destruct (apply_contract c w) as [[r|e|] w'] eqn:E; [..|done];
    rewrite apply_contract_eq in E; simpl in E;
    (destruct (ExchangeTransactionActuator.validate c w) as [v|e'|] eqn:Ev;
      [|first [discriminate E|by injection E as <- <-]|discriminate E]).
  2:{ unfold ExchangeTransactionActuator.execute in E. inv_run; done. }
  apply swap_validate in Ev as (acc & ex & s & Hv & Hp & Hq & Hx).
  destruct (pool_valid_facts _ _ _ _ _ _ Hi Hv) as (Hwf & Hex & Hv1 & Hv2 & Hne & Hb1 & Hb2).
  specialize (Hcov ex s (pv_pool _ _ _ _ _ _ Hv) Hp).
  destruct (pool_transaction_Ok _ _ _ _ (pv_token _ _ _ _ _ _ Hv) (wf_ids _ _ _ Hex) Hp)
    as (Eex & Hb1' & Hb2').
  unfold ExchangeTransactionActuator.execute in E. cbv zeta in E.
  rewrite parse_address_ok, run_lift in E by apply Hv.
  rewrite (run_reads_some _ _ _ _ _ (pv_pool _ _ _ _ _ _ Hv)), Hp, run_lift in E.
  rewrite (run_reads_some _ _ _ _ _ (pv_account _ _ _ _ _ _ Hv)) in E.
  apply ST_bind_Ok in E as (a1 & w1' & [Ed1 ->]%lift_Ok & E).
  apply ST_bind_Ok in E as (a2 & w1'' & [Ed2 ->]%lift_Ok & E).
  fold (other_id ex (ExchangeTransactionContract.token_id c)) in Ed2.
  apply debit_token_Ok in Ed1 as (-> & Hd1 & Hd1'). apply credit_token_Ok in Ed2 as (-> & Hd2).
  rewrite !run_modify in E. injection E as <- <-.
  rewrite move_token_balance, decide_False in Hd2 by done.
  pose proof (token_balance_nonneg _ (other_id ex (ExchangeTransactionContract.token_id c)) Hwf).
  exists acc, ex, s.1.1. split_and!; try done; try lia. eapply pool_valid_move; try done;
    [by rewrite !Z.opp_involutive|..].
  all: unfold nonneg_i64 in *; i64_lia.
Qed.
End SwapRun.

(** ** Creating a pool *)

Section Create.
Implicit Types (c : ExchangeCreateContract.t) (w : world).

Lemma create_validate c w fee :
  ExchangeCreateActuator.validate c w = Ok fee →
  is_address (ExchangeCreateContract.owner_address c) = true ∧
  valid_token (ExchangeCreateContract.first_token_id c) = true ∧
  valid_token (ExchangeCreateContract.second_token_id c) = true ∧
  ExchangeCreateContract.first_token_id c ≠ ExchangeCreateContract.second_token_id c ∧
  0 < ExchangeCreateContract.first_token_balance c ≤ balance_limit w ∧
  0 < ExchangeCreateContract.second_token_balance c ≤ balance_limit w.
Proof.
  unfold ExchangeCreateActuator.validate. intros H. apply res_bind_Ok in H as (o & Ho & H).
  apply res_bind_Ok in H as (acc & Ea & H). cbv zeta in H. parse_facts.
  destruct (_ <? _) in H; [done|]. destruct (_ && _) eqn:H1 in H; [done|].
  destruct (_ && _) eqn:H2 in H; [done|]. destruct (bool_decide _) eqn:H3 in H; [done|].
  destruct (_ || _) eqn:H4 in H; [done|]. destruct (_ || _) eqn:H5 in H; [done|]. clear H. bool_prop.
  unfold valid_token. split_and!; try done; try lia.
  - by destruct (is_trx (ExchangeCreateContract.first_token_id c)), (is_number (ExchangeCreateContract.first_token_id c)).
  - by destruct (is_trx (ExchangeCreateContract.second_token_id c)), (is_number (ExchangeCreateContract.second_token_id c)).
Qed.

Lemma create_run c w :
  match apply_contract c w with
  | (Ok _, w') => ExchangeCreateActuator.validate c w = Ok (create_fee w) ∧
      ∃ acc, get_account (ExchangeCreateContract.owner_address c) w = Some acc ∧
      let owner := ExchangeCreateContract.owner_address c in
      let id1 := ExchangeCreateContract.first_token_id c in
      let id2 := ExchangeCreateContract.second_token_id c in
      let x1 := ExchangeCreateContract.first_token_balance c in
      let x2 := ExchangeCreateContract.second_token_balance c in
      let acc0 := set_balance acc (Account.balance acc - create_fee w) in
      let acc1 := move_token acc0 id1 (- x1) in
      let n := get_prop_i64 LATEST_EXCHANGE_NUM w + 1 in
      0 ≤ Account.balance acc - create_fee w ∧ nonneg_i64 (token_balance acc0 id1 - x1) ∧
      nonneg_i64 (token_balance acc1 id2 - x2) ∧ is_i64 n ∧
      w' = put_prop_i64 LATEST_EXCHANGE_NUM n
        (put_exchange (Exchange.mk n owner (get_prop_i64 props.LATEST_BLOCK_HEADER_TIMESTAMP w)
           id1 x1 id2 x2)
         (burn_fee (create_fee w) (put_account owner (move_token acc1 id2 (- x2)) w)))
  | (Err _, w') => w' = w
  | (Panic, _) => True
  end.
Proof.
  destruct (apply_contract c w) as [[r|e|] w'] eqn:E; [..|done];
    rewrite apply_contract_eq in E; simpl in E;
    (destruct (ExchangeCreateActuator.validate c w) as [v|e'|] eqn:Ev;
      [|first [discriminate E|by injection E as <- <-]|discriminate E]).
  - assert (v = create_fee w) as ->
      by (unfold ExchangeCreateActuator.validate in Ev; clear E; inv_run; done).
    pose proof (create_validate _ _ _ Ev) as (Ho & _).
    unfold ExchangeCreateActuator.execute in E. cbv zeta in E.
    rewrite parse_address_ok, run_lift, run_gets in E by done.
    apply ST_bind_Ok in E as (acc & w1 & [Ea ->]%reads_Ok & E). apply ok_or_Ok in Ea.
    apply ST_bind_Ok in E as (b & w1 & [Eb ->]%lift_Ok & E). apply ok_or_Ok, debit_Some in Eb as (-> & ? & ?).
    apply ST_bind_Ok in E as (a1 & w1 & [E1 ->]%lift_Ok & E).
    apply ST_bind_Ok in E as (a2 & w1 & [E2 ->]%lift_Ok & E).
    apply debit_token_Ok in E1 as (-> & ? & ?). apply debit_token_Ok in E2 as (-> & ? & ?).
    rewrite run_modify, run_burn_fee, run_gets in E.
    apply ST_bind_Ok in E as (n & w1 & [En ->]%lift_Ok & E). apply add_i64_Ok in En as [-> Hn].
    rewrite run_gets, !run_modify in E. injection E as <- <-.
    rewrite !get_prop_burn_fee_ne in * by done.
    split; [done|]. exists acc. unfold nonneg_i64, set_balance. split_and!; try done; i64_lia.
  - unfold ExchangeCreateActuator.execute in E. inv_run; done.
Qed.

(** Adding a pool under the next number. *)
Lemma exchange_wf_mono m n k e : exchange_wf m k e → m ≤ n → exchange_wf n k e.
Proof. intros [] ?. constructor; try done. lia. Qed.

Lemma new_pool_fresh w :
  trx_wf w → let n := get_prop_i64 LATEST_EXCHANGE_NUM w + 1 in
  is_i64 n → w_exchange w !! exchange_key n = None.
Proof.
  intros Hw n Hn. destruct (w_exchange w !! exchange_key n) as [e|] eqn:E; [|done]. exfalso.
  destruct (inv_exchange _ Hw _ _ E) as [Hk Hnum _ _ _ _ _].
  pose proof (get_prop_is_i64 LATEST_EXCHANGE_NUM w).
  apply i64_to_be_bytes_inj in Hk; [|done|i64_lia]. lia.
Qed.

Lemma new_pool_safe w e :
  trx_wf w → let n := get_prop_i64 LATEST_EXCHANGE_NUM w + 1 in
  is_i64 n → Exchange.exchange_id e = n → exchange_wf n (exchange_key n) e →
  let w' := put_prop_i64 LATEST_EXCHANGE_NUM n (put_exchange e w) in
  trx_wf w' ∧ total_trx w' = total_trx w + exchange_trx e.
Proof.
  intros Hw n Hn Eid He w'. pose proof (new_pool_fresh w Hw Hn) as Hf. fold n in Hf.
  assert (Hex : w_exchange w' = <[exchange_key n:=e]> (w_exchange w))
    by (unfold w', put_exchange; simpl; by rewrite Eid).
  assert (Hnum : get_prop_i64 LATEST_EXCHANGE_NUM w' = n) by (by apply get_put_prop_eq).
  assert (Hother : ∀ k, k ≠ LATEST_EXCHANGE_NUM → get_prop_i64 k w' = get_prop_i64 k w)
    by (intros k Hk; apply (get_put_prop_ne LATEST_EXCHANGE_NUM k n (put_exchange e w)); congruence).
  pose proof Hw as [Ha Hx Hd Ho Hp]. split.
  - constructor; try done.
    + rewrite Hex, Hnum. apply map_Forall_insert_2; [done|].
      eapply map_Forall_impl; [exact Hx|]. intros k x Hkx. eapply exchange_wf_mono; [done|]. lia.
    + by rewrite Hother.
    + intros k Hk. destruct (decide (k = LATEST_EXCHANGE_NUM)) as [->|].
      * rewrite Hnum. specialize (Hp LATEST_EXCHANGE_NUM Hk). lia.
      * rewrite Hother by done. auto.
  - unfold total_trx, burned. rewrite Hex, Hother by done.
    rewrite map_sum_insert_None by done. simpl. lia.
Qed.

Lemma create_safe_outcome c w : trx_inv w → safe_outcome (apply_contract c w) w.
Proof.
  intros Hi. pose proof (create_run c w) as Hr. unfold safe_outcome.
  destruct (apply_contract c w) as [[r|e|] w']; [|done|done].
  destruct Hr as (Hv & acc & Ea & Hfee & H1 & H2 & Hn & Ew).
  pose proof (create_validate _ _ _ Hv) as (_ & Ht1 & Ht2 & Hne & Hx1 & Hx2).
  set (owner := ExchangeCreateContract.owner_address c) in *.
  set (id1 := ExchangeCreateContract.first_token_id c) in *.
  set (id2 := ExchangeCreateContract.second_token_id c) in *.
  set (x1 := ExchangeCreateContract.first_token_balance c) in *.
  set (x2 := ExchangeCreateContract.second_token_balance c) in *.
  set (acc0 := set_balance acc (Account.balance acc - create_fee w)) in *.
  set (acc1 := move_token acc0 id1 (- x1)) in *. set (acc2 := move_token acc1 id2 (- x2)) in *.
  set (n := get_prop_i64 LATEST_EXCHANGE_NUM w + 1) in *.
  pose proof (get_account_wf _ _ _ (proj1 Hi) Ea) as Hwf.
  pose proof (acc_trx_bound _ _ _ Hi Ea) as [_ Hb]. pose proof (acc_trx_parts _ Hwf) as Hparts.
  assert (Hf0 : 0 ≤ create_fee w).
  { unfold create_fee, DEFAULT_EXCHANGE_CREATE_FEE. destruct (Z.ltb_spec 0 (get_prop_i64 EXCHANGE_CREATE_FEE w)); lia. }
  assert (Hwf2 : acc_wf acc2).
  { apply move_token_wf; [apply move_token_wf; [by apply acc_wf_set_balance|done]|done]. }
  assert (Ht2' : acc_trx acc2 = acc_trx acc - create_fee w - side_trx id1 x1 - side_trx id2 x2).
  { unfold acc2, acc1, acc0. rewrite !move_token_trx, acc_trx_set_balance.
    unfold side_trx. repeat case_match; lia. }
  set (w1 := put_account owner acc2 w) in *. set (w2 := burn_fee (create_fee w) w1) in *.
  assert (Hw2 : trx_wf w2) by (apply trx_wf_burn_fee, trx_wf_put_account; [apply Hi|done]).
  pose proof (burned_nonneg _ (proj1 Hi)) as Hbn.
  assert (Htot2 : total_trx w2 = total_trx w - side_trx id1 x1 - side_trx id2 x2).
  { unfold w2. rewrite total_trx_burn_fee; [|done|].
    - unfold w1. rewrite (total_trx_put_account_Some _ acc) by done. lia.
    - change (burned w1) with (burned w). i64_lia. }
  assert (Hnum : get_prop_i64 LATEST_EXCHANGE_NUM w2 + 1 = n)
    by (unfold w2; by rewrite get_prop_burn_fee_ne).
  pose proof (inv_props _ (proj1 Hi) LATEST_EXCHANGE_NUM ltac:(not_weight)).
  assert (Hx : ∀ x, 0 < x ≤ balance_limit w → nonneg_i64 x).
  { intros x Hx. unfold balance_limit, DEFAULT_EXCHANGE_BALANCE_LIMIT in Hx.
    pose proof (get_prop_is_i64 EXCHANGE_BALANCE_LIMIT w). unfold nonneg_i64.
    destruct (0 <? _) in Hx; i64_lia. }
  destruct (new_pool_safe w2 (Exchange.mk n owner (get_prop_i64 props.LATEST_BLOCK_HEADER_TIMESTAMP w)
    id1 x1 id2 x2) Hw2) as [Hw' Ht']; rewrite ?Hnum; try done.
  { constructor; simpl; auto. lia. }
  rewrite Hnum in Hw', Ht'. rewrite <-Ew in Hw', Ht'.
  assert (total_trx w' = total_trx w) as Heq.
  { rewrite Ht', Htot2. unfold exchange_trx. simpl. lia. }
  split; [split; [done|]|done]. rewrite Heq. apply Hi.
Qed.
End Create.

Lemma inject_safe_outcome (c : ExchangeInjectContract.t) w :
  trx_inv w → safe_outcome (apply_contract c w) w.
Proof.
  intros Hi. pose proof (inject_run c w Hi) as Hr. unfold safe_outcome.
  destruct (apply_contract c w) as [[r|e|] w']; [|done|done].
  destruct Hr as (acc & ex & d2 & _ & _ & _ & Hm). by eapply pool_move_inv.
Qed.
Lemma exchange_withdraw_safe_outcome (c : ExchangeWithdrawContract.t) w :
  trx_inv w → safe_outcome (apply_contract c w) w.
Proof.
  intros Hi. pose proof (withdraw_run c w Hi) as Hr. unfold safe_outcome.
  destruct (apply_contract c w) as [[r|e|] w']; [|done|done].
  destruct Hr as (acc & ex & d2 & _ & _ & _ & Hm). by eapply pool_move_inv.
Qed.
Lemma swap_safe_outcome {libm : Libm} (c : ExchangeTransactionContract.t) w :
  swap_covered c w → trx_inv w → safe_outcome (apply_contract c w) w.
Proof.
  intros Hc Hi. pose proof (swap_run c w Hi Hc) as Hr. unfold safe_outcome.
  destruct (apply_contract c w) as [[r|e|] w']; [|done|done].
  destruct Hr as (acc & ex & d2 & _ & _ & Hm). by eapply pool_move_inv.
Qed.

#[export] Instance exchange_create_safe : ActuatorSafe ExchangeCreateContract.t := {
  contract_wf _ _ := True; apply_safe c w _ := create_safe_outcome c w }.
#[export] Instance exchange_inject_safe : ActuatorSafe ExchangeInjectContract.t := {
  contract_wf _ _ := True; apply_safe c w _ := inject_safe_outcome c w }.
#[export] Instance exchange_withdraw_safe : ActuatorSafe ExchangeWithdrawContract.t := {
  contract_wf _ _ := True; apply_safe c w _ := exchange_withdraw_safe_outcome c w }.
#[export] Instance exchange_transaction_safe {libm : Libm} :
    ActuatorSafe ExchangeTransactionContract.t := {
  contract_wf := swap_covered; apply_safe := swap_safe_outcome }.

(** ** Properties *)

Inductive pool_op :=
| PInject (c : ExchangeInjectContract.t)
| PWithdraw (c : ExchangeWithdrawContract.t)
| PSwap (c : ExchangeTransactionContract.t).

Section PoolOps.
Context {libm : Libm}.

Definition apply_pool_op (op : pool_op) : M ExecutionResult :=
  match op with
  | PInject c => apply_contract c
  | PWithdraw c => apply_contract c
  | PSwap c => apply_contract c
  end.
Definition pool_op_owner (op : pool_op) : Address :=
  match op with
  | PInject c => ExchangeInjectContract.owner_address c
  | PWithdraw c => ExchangeWithdrawContract.owner_address c
  | PSwap c => ExchangeTransactionContract.owner_address c
  end.
Definition pool_op_id (op : pool_op) : Z :=
  match op with
  | PInject c => ExchangeInjectContract.exchange_id c
  | PWithdraw c => ExchangeWithdrawContract.exchange_id c
  | PSwap c => ExchangeTransactionContract.exchange_id c
  end.
Definition pool_op_covered (op : pool_op) (w : world) : Prop :=
  match op with PSwap c => swap_covered c w | _ => True end.
(** Liquidity is managed by the pool's creator; a trader receives at least what it
    asked for. *)
Definition pool_op_terms (op : pool_op) (acc acc' : Account.t) (ex : Exchange.t) : Prop :=
  match op with
  | PSwap c =>
      let o := other_id ex (ExchangeTransactionContract.token_id c) in
      token_balance acc o + ExchangeTransactionContract.expected c ≤ token_balance acc' o
  | _ => Exchange.creator_address ex = pool_op_owner op
  end.

(** The outcome of an operation that moves tokens between its owner and a pool. *)
Definition pool_outcome (op : pool_op) (w w' : world) : Prop :=
  trx_inv w' ∧ total_trx w' = total_trx w ∧
  (∀ b, b ≠ pool_op_owner op → get_account b w' = get_account b w) ∧
  (∀ k, k ≠ exchange_key (pool_op_id op) → w_exchange w' !! k = w_exchange w !! k) ∧
  ∃ acc acc' ex ex',
    get_account (pool_op_owner op) w = Some acc ∧ get_account (pool_op_owner op) w' = Some acc' ∧
    get_exchange (pool_op_id op) w = Some ex ∧ get_exchange (pool_op_id op) w' = Some ex' ∧
    (∀ t, valid_token t = true →
       token_balance acc' t + pool_balance ex' t = token_balance acc t + pool_balance ex t) ∧
    pool_op_terms op acc acc' ex.

Lemma pool_move_outcome op tok d1 d2 w w' acc ex :
  trx_inv w → pool_move (pool_op_owner op) (pool_op_id op) tok d1 d2 w w' acc ex →
  pool_op_terms op acc (move_token (move_token acc tok (- d1)) (other_id ex tok) (- d2)) ex →
  pool_outcome op w w'.
Proof.
  intros Hi Hm Ht. destruct (pool_move_inv _ _ _ _ _ _ _ _ _ Hi Hm) as [Hi' Htot].
  destruct (pool_move_read _ _ _ _ _ _ _ _ _ Hi Hm) as (Ea & Ee & Hfa & Hfe).
  split_and!; try done. eexists acc, _, ex, _. split_and!; try done.
  - apply Hm.
  - apply Hm.
  - intros t Hv. exact (pool_move_conserves _ _ _ _ _ _ _ _ _ Hi Hm t Hv).
Qed.

(** C12: the operations on a liquidity pool conserve every token.  A successful
    injection, withdrawal or swap moves tokens between the owner and that one
    pool, so that for every token, TRX or TRC10, what the two hold together is
    unchanged; no other account or pool is touched, the invariant and the supply
    of TRX are kept, only the pool's creator changes its liquidity, and a trader
    receives at least the expected amount.  A refused operation changes nothing.
    For swaps the formula's result must be covered by the pool. *)
Theorem pool_ops_conserve (op : pool_op) (w : world) :
  trx_inv w → pool_op_covered op w →
  match apply_pool_op op w with
  | (Ok _, w') => pool_outcome op w w'
  | (Err _, w') => w' = w
  | (Panic, _) => True
  end.
Proof.
  intros Hi Hc. destruct op as [c|c|c]; cbn [apply_pool_op].
  - pose proof (inject_run c w Hi) as Hr. destruct (apply_contract c w) as [[r|e|] w']; [|done..].
    destruct Hr as (acc & ex & d2 & _ & _ & Hcr & Hm). by eapply (pool_move_outcome (PInject c)).
  - pose proof (withdraw_run c w Hi) as Hr. destruct (apply_contract c w) as [[r|e|] w']; [|done..].
    destruct Hr as (acc & ex & d2 & _ & _ & Hcr & Hm). by eapply (pool_move_outcome (PWithdraw c)).
  - pose proof (swap_run c w Hi Hc) as Hr. destruct (apply_contract c w) as [[r|e|] w']; [|done..].
    destruct Hr as (acc & ex & buy & _ & Hx & Hm). eapply (pool_move_outcome (PSwap c)); [done|done|].
    destruct (pool_tok_valid _ _ _ _ _ _ _ _ _ Hi Hm) as [Hv1 Hv2].
    destruct (pool_other _ _ _ _ _ _ _ _ _ Hi Hm) as [_ Hne].
    cbn [pool_op_terms]. rewrite !move_token_balance by done.
    repeat case_decide; try done; lia.
Qed.
End PoolOps.

(** A pool of 1000 TRX and 2000 tokens, and the values of [powf] that one swap on it needs
    (the correctly rounded ones). *)
Module PoolSample.
Definition token : bytes := bytes_of_string "1000001".
Definition pool : Exchange.t :=
  Exchange.mk 1 (Sample.addr 1) 0 TRX_SYMBOL_BYTES 1000000000 token 2000000000.
Definition w : world := put_prop_i64 LATEST_EXCHANGE_NUM 1 (put_exchange pool Sample.state).
Definition swap :=
  ExchangeTransactionContract.mk (Sample.addr 1) 1 TRX_SYMBOL_BYTES 10000000 19000000.
Definition table (x1 p1 x2 p2 : f64) : Libm := λ x y,
  if SFeqb y (f64_lit 5 10000) then (if SFeqb x x1 then p1 else S754_nan)
  else if SFeqb x x2 then p2 else S754_nan.
Definition libm : Libm := table
  (S754_finite false 4548189722690996 (-52)) (S754_finite false 4503621812824435 (-52))
  (S754_finite false 4503621812824435 (-52)) (S754_finite false 4548189722690758 (-52)).
End PoolSample.

Lemma pool_ops_conserve_witness :
  trx_inv PoolSample.w ∧
  match apply_pool_op (libm := PoolSample.libm) (PSwap PoolSample.swap) PoolSample.w with
  | (Ok _, w') => total_trx w' = total_trx PoolSample.w ∧
      token_balance (default Account.default (get_account (Sample.addr 1) w')) PoolSample.token = 19801980
  | _ => False
  end.
Proof.
  assert (Hi : trx_inv PoolSample.w) by check_inv. split; [exact Hi|].
  assert (Hc : pool_op_covered (libm := PoolSample.libm) (PSwap PoolSample.swap) PoolSample.w).
  { intros ex s He Hs. assert (ex = PoolSample.pool) as ->
      by (apply (inj Some); rewrite <-He; vm_compute; reflexivity).
    assert (@Ok ActuatorError _ s = Ok (19801980, 1010000000, 1980198020)) as Hs'
      by (rewrite <-Hs; vm_compute; reflexivity).
    injection Hs' as ->. vm_compute. discriminate. }
  pose proof (pool_ops_conserve (libm := PoolSample.libm) _ _ Hi Hc) as H.
  assert (is_Ok (apply_pool_op (libm := PoolSample.libm) (PSwap PoolSample.swap) PoolSample.w).1 = true)
    as Hok by (vm_compute; reflexivity).
  assert (token_balance (default Account.default (get_account (Sample.addr 1)
    (apply_pool_op (libm := PoolSample.libm) (PSwap PoolSample.swap) PoolSample.w).2)) PoolSample.token
    = 19801980) as Hb by (vm_compute; reflexivity).
  destruct (apply_pool_op (libm := PoolSample.libm) (PSwap PoolSample.swap) PoolSample.w) as [[r|e|] w'];
    [|discriminate Hok|discriminate Hok].
  destruct H as (_ & Ht & _). exact (conj Ht Hb).
Defined.

(** A pool of one unit of a token against 10^9 TRX, and a trader with 10^15 - 1 tokens. *)
Module Overdraw.
Definition q : Z := 999999999999999.
Definition pool : Exchange.t :=
  Exchange.mk 1 (Sample.addr 2) 0 PoolSample.token 1 TRX_SYMBOL_BYTES 1000000000000000.
Definition trader : Account.t :=
  (Sample.account 1 50000000) <| Account.asset_v2 := {[ "1000001"%string := q ]} |>.
Definition w : world :=
  put_prop_i64 LATEST_EXCHANGE_NUM 1
    (put_exchange pool (put_account (Sample.addr 1) trader Sample.state)).
Definition swap := ExchangeTransactionContract.mk (Sample.addr 1) 1 PoolSample.token q 1.
(** 1 + q/(1+q), its 0.0005th power, and the 2000th power of that. *)
Definition x1 : f64 := S754_finite false 9007199254740988 (-52).
Definition p1 : f64 := S754_finite false 4505160726564788 (-52).
Definition p2 : f64 := S754_finite false 4503599627370718 (-51).
End Overdraw.

Section Overdraw.
Context {libm : Libm}.
Context (H1 : powf Overdraw.x1 (f64_lit 5 10000) = Overdraw.p1)
  (H2 : powf Overdraw.p1 (f64_of_i64 2000) = Overdraw.p2).

Lemma overdraw_bancor : bancor_exchange 1 1000000000000000 Overdraw.q = Ok 1000000000000098.
Proof using H1 H2.
  unfold bancor_exchange. cbv zeta.
  change (add_i64 1 Overdraw.q) with (@Ok ActuatorError Z 1000000000000000).
  cbn [mbind res_bind]. 
  replace (f64_add _ (f64_div (f64_of_i64 Overdraw.q) _)) with Overdraw.x1 by (vm_compute; reflexivity).
  rewrite H1.
  replace (f64_to_i64 (f64_mul _ (f64_sub _ Overdraw.p1))) with 346633653845351 by (vm_compute; reflexivity).
  change (add_i64 BANCOR_SUPPLY 346633653845351) with (@Ok ActuatorError Z 1000346633653845351).
  cbn [mbind res_bind].
  change (sub_i64 1000346633653845351 346633653845351) with (@Ok ActuatorError Z BANCOR_SUPPLY).
  cbn [mbind res_bind].
  replace (f64_add _ (f64_div (f64_of_i64 346633653845351) _)) with Overdraw.p1
    by (vm_compute; reflexivity).
  rewrite H2. vm_compute. reflexivity.
Qed.

Lemma overdraw_pool :
  pool_transaction Overdraw.pool PoolSample.token Overdraw.q
  = Ok (1000000000000098, 1000000000000000, -98).
Proof using H1 H2.
  unfold pool_transaction. cbv zeta.
  replace (bool_decide _) with true by (vm_compute; reflexivity).
  change (bancor_exchange _ _ _) with (bancor_exchange 1 1000000000000000 Overdraw.q).
  rewrite overdraw_bancor. vm_compute. reflexivity.
Qed.
End Overdraw.

(** Step through a check of a concrete program that does not fail. *)
Ltac pass_checks :=
  repeat match goal with
  | |- context [if ?b then Err _ else _] => replace b with false by (vm_compute; reflexivity)
  end.

(** A swap can pay out more than the pool holds.  With the correctly rounded
    values of [powf] at the two points the formula evaluates, selling 10^15 - 1
    units into a pool of 1 unit against 10^9 TRX is accepted, credits the trader
    with 98 sun more than the pool had and leaves the pool with a balance of -98
    sun: nothing compares the formula's result with the pool. *)
Theorem swap_overdraws_pool {libm : Libm} :
  powf Overdraw.x1 (f64_lit 5 10000) = Overdraw.p1 →
  powf Overdraw.p1 (f64_of_i64 2000) = Overdraw.p2 →
  trx_inv Overdraw.w ∧
  ∃ w', apply_contract Overdraw.swap Overdraw.w = (Ok (mk_result 0), w') ∧
    balance_of (Sample.addr 1) w' = balance_of (Sample.addr 1) Overdraw.w + 1000000000000098 ∧
    (Exchange.second_token_balance <$> get_exchange 1 w') = Some (-98) ∧ ¬ trx_inv w'.
Proof.
  intros H1 H2. split; [check_inv|]. pose proof (overdraw_pool H1 H2) as Hp.
  assert (Hl : load_owner_and_pool (Sample.addr 1) 1 "transaction" false Overdraw.w
    = Ok (Sample.addr 1, Overdraw.trader, Overdraw.pool)) by (vm_compute; reflexivity).
  assert (Hx : get_exchange 1 Overdraw.w = Some Overdraw.pool) by (vm_compute; reflexivity).
  assert (Ha : get_account (Sample.addr 1) Overdraw.w = Some Overdraw.trader)
    by (vm_compute; reflexivity).
  rewrite apply_contract_eq. cbn [validate execute exchange_transaction_actuator].
  assert (Hv : ExchangeTransactionActuator.validate Overdraw.swap Overdraw.w = Ok 0).
  { unfold ExchangeTransactionActuator.validate.
    cbn [Overdraw.swap ExchangeTransactionContract.owner_address
      ExchangeTransactionContract.exchange_id ExchangeTransactionContract.token_id
      ExchangeTransactionContract.quant ExchangeTransactionContract.expected].
    rewrite Hl. cbn [mbind res_bind fst snd]. cbv zeta. pass_checks.
    replace (add_i64 _ Overdraw.q) with (@Ok ActuatorError Z 1000000000000000) by (vm_compute; reflexivity).
    cbn [mbind res_bind]. pass_checks. rewrite Hp. cbn [mbind res_bind fst snd]. by pass_checks. }
  rewrite Hv. unfold ExchangeTransactionActuator.execute.
  cbn [Overdraw.swap ExchangeTransactionContract.owner_address
      ExchangeTransactionContract.exchange_id ExchangeTransactionContract.token_id
      ExchangeTransactionContract.quant ExchangeTransactionContract.expected].
  rewrite parse_address_ok, run_lift by (vm_compute; reflexivity).
  rewrite (run_reads_some _ _ _ _ _ Hx), Hp, run_lift. cbv zeta.
  rewrite (run_reads_some _ _ _ _ _ Ha). cbn [fst snd].
  eexists. split; [vm_compute; reflexivity|]. split_and!; [vm_compute; reflexivity..|].
  intros [Hw _]. apply inv_exchange in Hw.
  destruct (Hw (exchange_key 1) (Overdraw.pool <| Exchange.first_token_balance := 1000000000000000 |>
    <| Exchange.second_token_balance := -98 |>)) as [_ _ _ [Hn _] _ _ _]; [vm_compute; reflexivity|].
  simpl in Hn. lia.
Qed.

Lemma swap_overdraws_pool_witness :
  ∃ w', apply_contract (H := exchange_transaction_actuator (libm := PoolSample.table Overdraw.x1 Overdraw.p1 Overdraw.p1 Overdraw.p2))
      Overdraw.swap Overdraw.w = (Ok (mk_result 0), w') ∧
    (Exchange.second_token_balance <$> get_exchange 1 w') = Some (-98).
Proof.
  destruct (swap_overdraws_pool (libm := PoolSample.table Overdraw.x1 Overdraw.p1 Overdraw.p1 Overdraw.p2)
    ltac:(vm_compute; reflexivity) ltac:(vm_compute; reflexivity)) as (_ & w' & E & _ & Hp & _).
  exact (ex_intro _ w' (conj E Hp)).
Defined.
