(* ===== verification/OrderBook.v ===== *)
(** * The order book of the market (crates/actuators/src/market/price.rs,
    order_book.rs, mod.rs)

    Price comparison, and the index records: the sorted price list of a pair, the
    FIFO of order ids at a price, the orders of an account and the set of active
    pairs, each stored as an encoded byte string. *)

From Stdlib Require Import Sorted.
From stdpp Require Import gmap strings pretty numbers fin_maps prelude.
From S2P Require Import Prelude Types Proto State Actuator.
Open Scope Z_scope.

(** ** Prices (price.rs)

    A price is a pair (sell quantity, buy quantity); the [i128] products are exact. *)

Abbreviation price := (Z * Z)%type.
Abbreviation OrderId := bytes.

Definition compare_price (p1_sell p1_buy p2_sell p2_buy : Z) : comparison :=
  (p1_buy * p2_sell ?= p2_buy * p1_sell).
Definition cmp_maker_price (a b : price) : comparison := compare_price a.1 a.2 b.1 b.2.
Definition price_match (taker_sell taker_buy maker_sell maker_buy : Z) : bool :=
  match compare_price taker_buy taker_sell maker_sell maker_buy with
  | Lt => false
  | _ => true
  end.
(** The quotient of the [i128] product, cut to an [i64] by [as]. *)
Definition multiply_and_divide (a b c : Z) : R Z :=
  if c =? 0 then Panic else Ok (wrap_i64 (Z.quot (a * b) c)).

(** ** [slice::binary_search_by]

    [inl] is [Ok] (found at), [inr] is [Err] (insert at). *)

Fixpoint search_loop (fuel : nat) (f : nat → comparison) (base size : nat) : nat :=
  match fuel with
  | O => base
  | S fuel =>
      if bool_decide (1 < size)%nat then
        let half := (size / 2)%nat in
        let mid := (base + half)%nat in
        search_loop fuel f (match f mid with Gt => base | _ => mid end) (size - half)
      else base
  end.
Definition binary_search_by {A} (cmp : A → comparison) (l : list A) : nat + nat :=
  let f i := match l !! i with Some x => cmp x | None => Gt end in
  if bool_decide (l = []) then inr 0%nat else
  let base := search_loop (length l) f 0 (length l) in
  match f base with
  | Eq => inl base
  | Lt => inr (base + 1)%nat
  | Gt => inr base
  end.

(** ** Keys and records (order_book.rs) *)

Definition pair_key (sell buy : bytes) : bytes := sell ++ [0] ++ buy.
Definition price16 (sell buy : Z) : bytes := i64_to_be_bytes sell ++ i64_to_be_bytes buy.
Definition pair_price_key (pair : bytes) (sell buy : Z) : bytes := pair ++ price16 sell buy.

Definition get_order (id : OrderId) (w : world) : option MarketOrder.t := w_market_order w !! id.
(** [copy_from_slice] panics unless the id has 32 bytes. *)
Definition put_order (order : MarketOrder.t) : M () :=
  if bool_decide (length (MarketOrder.order_id order) = 32%nat)
  then modify (λ w, w <| w_market_order ::= insert (MarketOrder.order_id order) order |>)
  else lift Panic.

Definition decode_price (chunk : bytes) : price :=
  (i64_from_be_bytes (take 8 chunk), i64_from_be_bytes (drop 8 chunk)).
Definition get_prices (pair : bytes) (w : world) : list price :=
  decode_price <$> chunks_exact 16 (default [] (w_market_pair w !! pair)).
Definition put_prices (pair : bytes) (prices : list price) (w : world) : world :=
  if bool_decide (prices = []) then w <| w_market_pair ::= delete pair |>
  else w <| w_market_pair ::= insert pair (concat ((λ p, price16 p.1 p.2) <$> prices)) |>.

Definition price_eq (a b : price) : bool :=
  match cmp_maker_price a b with Eq => true | _ => false end.

(** [Vec::insert]. *)
Definition list_insert_at {A} (pos : nat) (x : A) (l : list A) : list A :=
  take pos l ++ x :: drop pos l.

Definition insert_price (pair : bytes) (p : price) (w : world) : world :=
  let prices := get_prices pair w in
  if existsb (λ q, price_eq q p) prices then w else
  let pos := match binary_search_by (λ q, cmp_maker_price q p) prices with
             | inl i => i
             | inr e => e
             end in
  put_prices pair (list_insert_at pos p prices) w.

(** The set of active pairs: length-prefixed keys. *)
Definition PAIRS_KEY : bytes := bytes_of_string "pairs".
Fixpoint decode_pairs (fuel : nat) (bs : bytes) : list bytes :=
  match fuel with
  | O => []
  | S fuel =>
      match bs with
      | b0 :: b1 :: rest =>
          let len := Z.to_nat (from_be_unsigned [b0; b1]) in
          if bool_decide (length rest < len)%nat then []
          else take len rest :: decode_pairs fuel (drop len rest)
      | _ => []
      end
  end.
Definition get_pairs (w : world) : list bytes :=
  let bs := default [] (w_market_pairs w !! PAIRS_KEY) in decode_pairs (length bs) bs.
Definition encode_pair (p : bytes) : bytes := to_be_bytes 2 (Z.of_nat (length p)) ++ p.
Definition put_pairs (pairs : list bytes) (w : world) : world :=
  if bool_decide (pairs = []) then w <| w_market_pairs ::= delete PAIRS_KEY |>
  else w <| w_market_pairs ::= insert PAIRS_KEY (concat (encode_pair <$> pairs)) |>.
Definition add_pair (pair : bytes) (w : world) : world :=
  let pairs := get_pairs w in
  if bool_decide (pair ∈ pairs) then w else put_pairs (pairs ++ [pair]) w.
Definition remove_pair (pair : bytes) (w : world) : world :=
  put_pairs (filter (λ p, p ≠ pair) (get_pairs w)) w.

Definition remove_price (pair : bytes) (p : price) (w : world) : world :=
  let prices := filter (λ q, price_eq q p = false) (get_prices pair w) in
  let w := put_prices pair prices w in
  if bool_decide (prices = []) then remove_pair pair w else w.
Definition best_price (pair : bytes) (w : world) : option price := head (get_prices pair w).

Definition get_order_ids (pair : bytes) (p : price) (w : world) : list OrderId :=
  chunks_exact 32 (default [] (w_market_pair_price w !! pair_price_key pair p.1 p.2)).
Definition put_order_ids (pair : bytes) (p : price) (ids : list OrderId) (w : world) : world :=
  let key := pair_price_key pair p.1 p.2 in
  if bool_decide (ids = []) then w <| w_market_pair_price ::= delete key |>
  else w <| w_market_pair_price ::= insert key (concat ids) |>.
Definition add_order_to_book (pair : bytes) (p : price) (id : OrderId) (w : world) : world :=
  let w := put_order_ids pair p (get_order_ids pair p w ++ [id]) w in
  let w := insert_price pair p w in
  add_pair pair w.

Definition get_account_orders (owner : bytes) (w : world) : list OrderId :=
  chunks_exact 32 (default [] (w_market_account_order w !! owner)).
Definition put_account_orders (owner : bytes) (ids : list OrderId) (w : world) : world :=
  if bool_decide (ids = []) then w <| w_market_account_order ::= delete owner |>
  else w <| w_market_account_order ::= insert owner (concat ids) |>.
Definition add_account_order (owner : bytes) (id : OrderId) (w : world) : world :=
  let ids := get_account_orders owner w in
  if bool_decide (id ∈ ids) then w else put_account_orders owner (ids ++ [id]) w.
Definition remove_account_order (owner : bytes) (id : OrderId) (w : world) : world :=
  put_account_orders owner (filter (λ x, x ≠ id) (get_account_orders owner w)) w.

(** ** Binary search finds the insertion point *)

Section Search.
Context {A : Type} (cmp : A → comparison).

Lemma search_loop_spec (f : nat → comparison) k fuel base size :
  (∀ i, (i < k)%nat → f i = Lt) → (∀ i, (k ≤ i)%nat → f i = Gt) →
  (0 < size ≤ S fuel)%nat → (base = 0 ∨ base < k)%nat → (k ≤ base + size)%nat →
  let b := search_loop fuel f base size in (b = 0 ∨ b < k)%nat ∧ (k ≤ b + 1)%nat.
Proof.
  intros Hlt Hgt. revert base size. induction fuel as [|fuel IH]; intros base size Hs Hb Hk; cbn [search_loop]; cbv zeta.
  { split; [done|lia]. }
  case_bool_decide as Hsz; [|split; [done|lia]].
  assert (size / 2 < size)%nat by (apply Nat.div_lt; lia).
  assert (1 ≤ size / 2)%nat by (apply (Nat.Div0.div_le_mono 2 size 2); lia).
  assert (2 * (size / 2) ≤ size)%nat by apply Nat.Div0.mul_div_le.
  destruct (Nat.lt_ge_cases (base + size / 2) k) as [Hm|Hm].
  - rewrite Hlt by done. apply IH; lia.
  - rewrite Hgt by done. apply IH; lia.
Qed.

(** On a list split into smaller and greater elements the search answers the
    split point. *)
Lemma binary_search_insert pre suf :
  Forall (λ x, cmp x = Lt) pre → Forall (λ x, cmp x = Gt) suf →
  binary_search_by cmp (pre ++ suf) = inr (length pre).
Proof.
  intros Hpre Hsuf. unfold binary_search_by. cbv zeta. case_bool_decide as Hnil.
  { apply app_nil in Hnil as [-> ->]. done. }
  set (f := λ i, match (pre ++ suf) !! i with Some x => cmp x | None => Gt end).
  assert (Hlt : ∀ i, (i < length pre)%nat → f i = Lt).
  { intros i Hi. unfold f. rewrite lookup_app_l by done.
    destruct (lookup_lt_is_Some_2 _ _ Hi) as [x Hx]. rewrite Hx.
    rewrite Forall_forall in Hpre. apply Hpre. by eapply list_elem_of_lookup_2. }
  assert (Hgt : ∀ i, (length pre ≤ i)%nat → f i = Gt).
  { intros i Hi. unfold f. rewrite lookup_app_r by done. destruct (suf !! _) as [x|] eqn:Ex; [|done].
    rewrite Forall_forall in Hsuf. apply Hsuf. by eapply list_elem_of_lookup_2. }
  assert (Hlen : (0 < length (pre ++ suf))%nat) by (destruct (pre ++ suf); simpl; [done|lia]).
  destruct (search_loop_spec f (length pre) (length (pre ++ suf)) 0 (length (pre ++ suf)) Hlt Hgt)
    as [Hb Hk]; try lia.
  { rewrite length_app. lia. }
  match goal with |- context [search_loop _ ?g _ _] => change g with f end.
  set (b := search_loop (length (pre ++ suf)) f 0 (length (pre ++ suf))) in *.
  match goal with |- context [(pre ++ suf) !! b] =>
    change (match (pre ++ suf) !! b with Some x => cmp x | None => Gt end) with (f b) end.
  destruct (Nat.lt_ge_cases b (length pre)).
  - rewrite Hlt by done. f_equal. lia.
  - rewrite Hgt by done. f_equal. lia.
Qed.
End Search.

(** ** The price list is a sorted list without equal prices *)

Definition price_ok (p : price) : Prop := 0 < p.1 ≤ I64_MAX ∧ 0 < p.2 ≤ I64_MAX.
Definition price_lt (a b : price) : Prop := a.2 * b.1 < b.2 * a.1.

Definition price_i64 (p : price) : Prop := is_i64 p.1 ∧ is_i64 p.2.

Lemma get_prices_i64 pair w : Forall price_i64 (get_prices pair w).
Proof. apply Forall_fmap, Forall_true. intros c. split; apply wrap_i64_is_i64. Qed.
Lemma price_ok_i64 p : price_ok p → price_i64 p.
Proof. unfold price_ok, price_i64. i64_lia. Qed.

Section Prices.
Implicit Types (p q r : price) (l : list price) (w : world) (pair : bytes).

Lemma cmp_Lt p q : cmp_maker_price p q = Lt ↔ price_lt p q.
Proof. apply Z.compare_lt_iff. Qed.
Lemma cmp_Gt p q : cmp_maker_price p q = Gt ↔ price_lt q p.
Proof. unfold cmp_maker_price, compare_price, price_lt. rewrite Z.compare_gt_iff. lia. Qed.
Lemma price_eq_spec p q : price_eq p q = true ↔ p.2 * q.1 = q.2 * p.1.
Proof.
  unfold price_eq, cmp_maker_price, compare_price. rewrite <-Z.compare_eq_iff.
  by destruct (_ ?= _).
Qed.
Lemma price_eq_refl p : price_eq p p = true.
Proof. by apply price_eq_spec. Qed.
Lemma price_lt_trans p q r : price_ok p → price_ok q → price_ok r →
  price_lt p q → price_lt q r → price_lt p r.
Proof.
  unfold price_lt, price_ok. intros [[Hp _] _] [[Hq _] _] [[Hr _] _] HA HB.
  apply (Z.mul_lt_mono_pos_l q.1); [done|]. nia.
Qed.

Lemma decode_price16 p : price_i64 p → decode_price (price16 p.1 p.2) = p.
Proof.
  intros [? ?]. destruct p as [s b]. unfold decode_price, price16. cbn [fst snd] in *.
  rewrite take_app_length' by (by rewrite i64_to_be_bytes_length).
  rewrite drop_app_length' by (by rewrite i64_to_be_bytes_length).
  by rewrite !i64_be_roundtrip by i64_lia.
Qed.

Lemma get_put_prices pair l w :
  Forall price_i64 l → get_prices pair (put_prices pair l w) = l.
Proof.
  intros Hl. unfold get_prices, put_prices. case_bool_decide as Hnil; simpl.
  - rewrite lookup_delete_eq. by subst.
  - rewrite lookup_insert_eq. simpl. rewrite chunks_exact_concat; [|lia|].
    + rewrite <-list_fmap_compose. clear Hnil. induction Hl as [|p l Hp Hl IH]; [done|].
      rewrite fmap_cons, IH. unfold compose. by rewrite decode_price16.
    + apply Forall_fmap, Forall_true. intros p. unfold compose, price16.
      by rewrite length_app, !i64_to_be_bytes_length.
Qed.

Lemma get_prices_remove_pair pair pair' w :
  get_prices pair (remove_pair pair' w) = get_prices pair w.
Proof. unfold remove_pair, put_pairs. by case_bool_decide. Qed.

Lemma sorted_split l p :
  StronglySorted price_lt l → Forall price_ok l → price_ok p →
  existsb (λ q, price_eq q p) l = false →
  ∃ pre suf, l = pre ++ suf ∧ Forall (λ q, price_lt q p) pre ∧ Forall (λ q, price_lt p q) suf.
Proof.
  intros Hs Hok Hp. induction Hs as [|x l Hs IH Hx]; simpl; intros He; [by exists [], []|].
  apply Forall_cons_1 in Hok as [Hxok Hok]. apply orb_false_iff in He as [Hxe He].
  destruct (Z.lt_trichotomy (x.2 * p.1) (p.2 * x.1)) as [Hlt|[Heq|Hgt]].
  - destruct (IH Hok He) as (pre & suf & -> & Hpre & Hsuf).
    exists (x :: pre), suf. split_and!; [done|by constructor|done].
  - exfalso. apply price_eq_spec in Heq. congruence.
  - exists [], (x :: l). split_and!; [done|constructor|]. constructor; [done|].
    rewrite Forall_forall in Hx, Hok |- *. intros y Hy.
    eapply (price_lt_trans p x y); auto.
Qed.

Lemma StronglySorted_insert pre suf p :
  StronglySorted price_lt (pre ++ suf) → Forall (λ q, price_lt q p) pre →
  Forall (λ q, price_lt p q) suf → StronglySorted price_lt (pre ++ p :: suf).
Proof.
  intros Hs Hpre Hsuf. induction pre as [|x pre IH]; simpl in *; [by constructor|].
  apply StronglySorted_inv in Hs as [Hs Hx]. apply Forall_cons_1 in Hpre as [Hxp Hpre].
  constructor; [by apply IH|]. apply Forall_app in Hx as [Hx1 Hx2].
  apply Forall_app. split; [done|]. by constructor.
Qed.
Lemma StronglySorted_filter (P : price → Prop) `{!∀ x, Decision (P x)} l :
  StronglySorted price_lt l → StronglySorted price_lt (filter P l).
Proof.
  induction 1 as [|x l Hs IH Hx]; [constructor|]. rewrite filter_cons.
  case_decide; [|done]. constructor; [done|]. by apply Forall_filter.
Qed.
End Prices.

(** The price list of a pair as the code reads it. *)
Definition book_sorted (pair : bytes) (w : world) : Prop :=
  StronglySorted price_lt (get_prices pair w) ∧ Forall price_ok (get_prices pair w).

Lemma insert_price_spec pair p w :
  book_sorted pair w → price_ok p →
  existsb (λ q, price_eq q p) (get_prices pair w) = false →
  ∃ pre suf, get_prices pair w = pre ++ suf ∧
    get_prices pair (insert_price pair p w) = pre ++ p :: suf ∧
    Forall (λ q, price_lt q p) pre ∧ Forall (λ q, price_lt p q) suf.
Proof.
  intros [Hs Hok] Hp He. destruct (sorted_split _ _ Hs Hok Hp He) as (pre & suf & E & Hpre & Hsuf).
  exists pre, suf. split_and!; try done. unfold insert_price. rewrite He, E.
  rewrite (binary_search_insert (λ q, cmp_maker_price q p) pre suf).
  - unfold list_insert_at. rewrite take_app_length, drop_app_length. apply get_put_prices.
    pose proof (get_prices_i64 pair w) as Hi. rewrite E in Hi. apply Forall_app in Hi as [? ?].
    apply Forall_app. split; [done|]. constructor; [by apply price_ok_i64|done].
  - eapply Forall_impl; [exact Hpre|]. intros. by apply cmp_Lt.
  - eapply Forall_impl; [exact Hsuf|]. intros. by apply cmp_Gt.
Qed.

Lemma insert_price_sorted pair p w :
  book_sorted pair w → price_ok p →
  book_sorted pair (insert_price pair p w) ∧
  get_prices pair (insert_price pair p w) ≡ₚ
    (if existsb (λ q, price_eq q p) (get_prices pair w) then get_prices pair w
     else p :: get_prices pair w).
Proof.
  intros [Hs Hok] Hp. destruct (existsb _ _) eqn:He.
  { unfold insert_price, book_sorted. by rewrite He. }
  destruct (insert_price_spec pair p w ltac:(done) Hp He) as (pre & suf & E & E' & Hpre & Hsuf).
  unfold book_sorted. rewrite E', E. rewrite E in Hs, Hok. split_and!.
  - by apply StronglySorted_insert.
  - apply Forall_app in Hok as [? ?]. apply Forall_app. split; [done|by constructor].
  - symmetry. apply Permutation_middle.
Qed.

Lemma get_remove_price pair p w :
  get_prices pair (remove_price pair p w) =
    filter (λ q, price_eq q p = false) (get_prices pair w).
Proof.
  unfold remove_price. set (l := filter _ _).
  assert (Forall price_i64 l) by (apply Forall_filter, get_prices_i64).
  case_bool_decide; rewrite ?get_prices_remove_pair; by apply get_put_prices.
Qed.
Lemma remove_price_sorted pair p w :
  book_sorted pair w → book_sorted pair (remove_price pair p w).
Proof.
  intros [Hs Hok]. unfold book_sorted. rewrite get_remove_price.
  split; [by apply StronglySorted_filter|by apply Forall_filter].
Qed.

(** C31: the price list of a pair stays sorted best-first without two equal
    prices.  Inserting a price finds its place by binary search, adds it exactly
    when no price of the same ratio is listed, and loses none; removing one
    deletes exactly the prices of that ratio; the best price read back from the
    stored bytes is never above another listed price. *)
Theorem price_list_ordered (pair : bytes) (p : price) (w : world) :
  book_sorted pair w → price_ok p →
  let w1 := insert_price pair p w in
  let w2 := remove_price pair p w in
  book_sorted pair w1 ∧ book_sorted pair w2 ∧
  get_prices pair w1 ≡ₚ
    (if existsb (λ q, price_eq q p) (get_prices pair w) then get_prices pair w
     else p :: get_prices pair w) ∧
  get_prices pair w2 = filter (λ q, price_eq q p = false) (get_prices pair w) ∧
  ∃ b, best_price pair w1 = Some b ∧
    ∀ q, q ∈ get_prices pair w1 → cmp_maker_price b q ≠ Gt.
Proof.
  intros Hb Hp w1 w2. destruct (insert_price_sorted pair p w Hb Hp) as [H1 E1].
  split_and!; try done; [by apply remove_price_sorted|apply get_remove_price|].
  unfold best_price. fold w1 in H1, E1. destruct H1 as [Hs _].
  destruct (get_prices pair w1) as [|b l] eqn:E.
  { apply Permutation_nil_l in E1. destruct (existsb _ _) eqn:He in E1; [|done].
    by rewrite <-E1 in He. }
  exists b. split; [done|]. intros q Hq Hgt. apply cmp_Gt in Hgt.
  apply StronglySorted_inv in Hs as [_ Hx]. rewrite Forall_forall in Hx.
  apply elem_of_cons in Hq as [->|Hq]; [|specialize (Hx q Hq)]; unfold price_lt in *; lia.
Qed.

Lemma price_list_ordered_witness :
  let w := insert_price [1] (3, 4) (insert_price [1] (1, 5) empty_world) in
  book_sorted [1] w ∧ ∃ b, best_price [1] (insert_price [1] (2, 1) w) = Some b ∧
    cmp_maker_price b (3, 4) ≠ Gt.
Proof.
  intros w. assert (Hb : book_sorted [1] w).
  { assert (get_prices [1] w = [(3, 4); (1, 5)]) as E by (vm_compute; reflexivity).
    unfold book_sorted. rewrite E. unfold price_lt, price_ok, I64_MAX.
    split; repeat constructor; simpl; lia. }
  split; [exact Hb|].
  destruct (price_list_ordered [1] (2, 1) w Hb ltac:(unfold price_ok, I64_MAX; simpl; lia))
    as (_ & _ & Hperm & _ & b & Eb & Hmin).
  exists b. split; [exact Eb|]. apply Hmin. rewrite Hperm. vm_compute. right. left.
Defined.
