(* ===== verification/Market.v ===== *)
(** * The order-book market (crates/actuators/src/market/mod.rs, sell.rs, cancel.rs)

    Placing a sell order, matching it against resting orders, cancelling. *)

From stdpp Require Import gmap strings pretty numbers fin_maps prelude.
From S2P Require Import Prelude Types Proto State Actuator Exchanges OrderBook.
Open Scope Z_scope.

(** ** Constants and helpers (mod.rs) *)

Definition MARKET_SELL_FEE : string := "MARKET_SELL_FEE".
Definition MARKET_CANCEL_FEE : string := "MARKET_CANCEL_FEE".
Definition MARKET_QUANTITY_LIMIT : string := "MARKET_QUANTITY_LIMIT".
Definition DEFAULT_MARKET_QUANTITY_LIMIT : Z := 1000000000000000.
Definition MAX_MATCH_NUM : Z := 20.

(** [market_order::State]. *)
Definition ACTIVE : Z := 0.
Definition INACTIVE : Z := 1.
Definition CANCELED : Z := 2.

(** mod.rs has its own copies of the token helpers of exchange.rs, with the same bodies. *)
Definition token_balance (account : Account.t) (id : bytes) : Z := Exchanges.token_balance account id.
Definition debit_token (account : Account.t) (id : bytes) (amount : Z) : R Account.t :=
  Exchanges.debit_token account id amount.
Definition credit_token (account : Account.t) (id : bytes) (amount : Z) : R Account.t :=
  Exchanges.credit_token account id amount.

(** ** MarketSellAssetContract *)

Module MarketSellAssetActuator.
Definition fee (w : world) : Z := Z.max 0 (get_prop_i64 MARKET_SELL_FEE w).
Definition quantity_limit (w : world) : Z :=
  let l := get_prop_i64 MARKET_QUANTITY_LIMIT w in
  if 0 <? l then l else DEFAULT_MARKET_QUANTITY_LIMIT.

Definition validate (c : MarketSellAssetContract.t) (w : world) : R Z :=
  _ ← require_feature flags.ALLOW_MARKET_TRANSACTION
    "Not support Market Transaction, need to be opened by the committee" w;
  owner ← parse_address "Invalid address" (MarketSellAssetContract.owner_address c);
  account ← ok_or (Validate "Account does not exist!") (get_account owner w);
  let sell_token_id := MarketSellAssetContract.sell_token_id c in
  let buy_token_id := MarketSellAssetContract.buy_token_id c in
  let sell_token_quantity := MarketSellAssetContract.sell_token_quantity c in
  let buy_token_quantity := MarketSellAssetContract.buy_token_quantity c in
  if negb (valid_token sell_token_id) then Err (Validate "sellTokenId is not a valid number") else
  if negb (valid_token buy_token_id) then Err (Validate "buyTokenId is not a valid number") else
  if bool_decide (sell_token_id = buy_token_id)
  then Err (Validate "cannot exchange same tokens") else
  if (sell_token_quantity <=? 0) || (buy_token_quantity <=? 0)
  then Err (Validate "token quantity must greater than zero") else
  let limit := quantity_limit w in
  if (limit <? sell_token_quantity) || (limit <? buy_token_quantity)
  then Err (Validate ("token quantity must less than " +:+ dec limit)) else
  let fee := fee w in
  _ ← (if is_trx sell_token_id then
         need ← add_i64 sell_token_quantity fee;
         if Account.balance account <? need then Err (Validate "No enough balance !") else Ok ()
       else if Account.balance account <? fee then Err (Validate "No enough balance !")
       else if token_balance account sell_token_id <? sell_token_quantity
       then Err (Validate "SellToken balance is not enough !") else Ok ());
  Ok fee.

Definition allocate_order_id : M OrderId :=
  cur ← gets (get_prop_i64 MARKET_ORDER_NUM);
  n ← lift (add_i64 cur 1);
  _ ← modify (put_prop_i64 MARKET_ORDER_NUM n);
  mret (order_key n).

(** Credit a token to the account of a resting order's owner. *)
Definition credit_maker (maker : MarketOrder.t) (id : bytes) (amount : Z) : M () :=
  maker_owner ← lift (parse_address "Invalid address" (MarketOrder.owner_address maker));
  ma ← reads (λ w, ok_or (Execute "maker account missing") (get_account maker_owner w));
  ma ← lift (credit_token ma id amount);
  modify (put_account maker_owner ma).

(** The result of one fill: whether matching must stop, the taker, the maker and
    the taker's account after it. *)
Record fill := mk_fill {
  f_stop : bool; f_taker : MarketOrder.t; f_maker : MarketOrder.t; f_account : Account.t }.

Definition match_single (taker maker : MarketOrder.t) (taker_account : Account.t) : M fill :=
  let taker_sell_remain := MarketOrder.sell_token_quantity_remain taker in
  let maker_sell := MarketOrder.sell_token_quantity maker in
  let maker_buy := MarketOrder.buy_token_quantity maker in
  let maker_sell_remain := MarketOrder.sell_token_quantity_remain maker in
  taker_buy_remain ← lift (multiply_and_divide taker_sell_remain maker_sell maker_buy);
  if taker_buy_remain =? 0 then
    taker_account ← lift (credit_token taker_account (MarketOrder.sell_token_id taker) taker_sell_remain);
    mret (mk_fill true
      (taker <| MarketOrder.sell_token_quantity_return := taker_sell_remain |>
             <| MarketOrder.sell_token_quantity_remain := 0 |> <| MarketOrder.state := INACTIVE |>)
      maker taker_account)
  else
  let settle taker maker taker_buy_receive maker_buy_receive : M fill :=
    taker_account ← lift (credit_token taker_account (MarketOrder.buy_token_id taker) taker_buy_receive);
    _ ← credit_maker maker (MarketOrder.buy_token_id maker) maker_buy_receive;
    mret (mk_fill false taker maker taker_account) in
  if taker_buy_remain =? maker_sell_remain then
    maker_buy_receive ← lift (multiply_and_divide maker_sell_remain maker_buy maker_sell);
    remain ← lift (sub_i64 taker_sell_remain maker_buy_receive);
    settle (taker <| MarketOrder.sell_token_quantity_remain := remain |>)
      (maker <| MarketOrder.sell_token_quantity_remain := 0 |>) maker_sell_remain maker_buy_receive
  else if taker_buy_remain <? maker_sell_remain then
    remain ← lift (sub_i64 maker_sell_remain taker_buy_remain);
    settle (taker <| MarketOrder.sell_token_quantity_remain := 0 |>)
      (maker <| MarketOrder.sell_token_quantity_remain := remain |>) taker_buy_remain taker_sell_remain
  else
    maker_buy_receive ← lift (multiply_and_divide maker_sell_remain maker_buy maker_sell);
    if maker_buy_receive =? 0 then
      _ ← credit_maker maker (MarketOrder.sell_token_id maker) maker_sell_remain;
      mret (mk_fill false taker
        (maker <| MarketOrder.sell_token_quantity_return := maker_sell_remain |>
               <| MarketOrder.sell_token_quantity_remain := 0 |> <| MarketOrder.state := INACTIVE |>)
        taker_account)
    else
      remain ← lift (sub_i64 taker_sell_remain maker_buy_receive);
      settle (taker <| MarketOrder.sell_token_quantity_remain := remain |>)
        (maker <| MarketOrder.sell_token_quantity_remain := 0 |>) maker_sell_remain maker_buy_receive.

(** The mutable variables of [match_order]. *)
Record matching := mk_matching {
  m_taker : MarketOrder.t; m_account : Account.t; m_count : Z }.

(** The inner loop: the orders at one price.  Returns whether matching stopped and
    the ids left at the price. *)
Fixpoint match_level (fuel : nat) (ids : list OrderId) (m : matching) :
    M (bool * list OrderId * matching) :=
  match fuel with
  | O => lift Panic
  | S fuel =>
      if MarketOrder.sell_token_quantity_remain (m_taker m) =? 0 then mret (false, ids, m) else
      match ids with
      | [] => mret (false, [], m)
      | maker_id :: rest =>
          maker ← reads (λ w, ok_or (Execute "maker order missing") (get_order maker_id w));
          f ← match_single (m_taker m) maker (m_account m);
          let maker := f_maker f in
          ids ← (if MarketOrder.sell_token_quantity_remain maker =? 0 then
                   let maker := maker <| MarketOrder.state := INACTIVE |> in
                   _ ← put_order maker;
                   _ ← modify (remove_account_order (MarketOrder.owner_address maker) maker_id);
                   mret rest
                 else _ ← put_order maker; mret ids);
          let m := mk_matching (f_taker f) (f_account f) (m_count m + 1) in
          if MAX_MATCH_NUM <? m_count m
          then lift (Err (Validate ("Too many matches. MAX_MATCH_NUM = " +:+ dec MAX_MATCH_NUM))) else
          if f_stop f then mret (true, ids, m) else match_level fuel ids m
      end
  end.

(** Enough iterations for the inner loop: the match count stops it. *)
Definition LEVEL_FUEL : nat := 22.

(** The outer loop: one price level per iteration. *)
Fixpoint match_levels (fuel : nat) (maker_pair : bytes) (taker_sell taker_buy : Z) (m : matching) :
    M matching :=
  match fuel with
  | O => lift Panic
  | S fuel =>
      if MarketOrder.sell_token_quantity_remain (m_taker m) =? 0 then mret m else
      best ← gets (best_price maker_pair);
      match best with
      | None => mret m
      | Some best =>
          if negb (price_match taker_sell taker_buy best.1 best.2) then mret m else
          ids ← gets (get_order_ids maker_pair best);
          r ← match_level LEVEL_FUEL ids m;
          let ids := r.1.2 in
          let m := r.2 in
          _ ← modify (put_order_ids maker_pair best ids);
          if (r.1.1 : bool) then mret m else
          if bool_decide (ids = []) then
            _ ← modify (remove_price maker_pair best);
            match_levels fuel maker_pair taker_sell taker_buy m
          else mret m
      end
  end.

Definition match_order (taker : MarketOrder.t) (taker_account : Account.t) : M matching :=
  let maker_pair := pair_key (MarketOrder.buy_token_id taker) (MarketOrder.sell_token_id taker) in
  levels ← gets (λ w, length (get_prices maker_pair w));
  match_levels (S levels) maker_pair (MarketOrder.sell_token_quantity taker)
    (MarketOrder.buy_token_quantity taker) (mk_matching taker taker_account 0).

Definition new_order (id : OrderId) (owner : Address) (now : Z) (c : MarketSellAssetContract.t) :
    MarketOrder.t :=
  MarketOrder.mk id owner now
    (MarketSellAssetContract.sell_token_id c) (MarketSellAssetContract.sell_token_quantity c)
    (MarketSellAssetContract.buy_token_id c) (MarketSellAssetContract.buy_token_quantity c)
    (MarketSellAssetContract.sell_token_quantity c) 0 ACTIVE [] [].

Definition execute (c : MarketSellAssetContract.t) : M ExecutionResult :=
  owner ← lift (parse_address "Invalid address" (MarketSellAssetContract.owner_address c));
  fee ← gets fee;
  now ← gets (get_prop_i64 props.LATEST_BLOCK_HEADER_TIMESTAMP);
  account ← reads (λ w, ok_or (Execute "owner account missing") (get_account owner w));
  balance ← lift (ok_or (Execute "balance is not sufficient")
    (opt_filter (λ b, 0 <=? b) (checked_sub (Account.balance account) fee)));
  account ← lift (debit_token (account <| Account.balance := balance |>)
    (MarketSellAssetContract.sell_token_id c) (MarketSellAssetContract.sell_token_quantity c));
  id ← allocate_order_id;
  let taker := new_order id owner now c in
  _ ← modify (add_account_order owner id);
  m ← match_order taker account;
  let taker := m_taker m in
  let account := m_account m in
  _ ← modify (
    if negb (MarketOrder.sell_token_quantity_remain taker =? 0) then
      add_order_to_book
        (pair_key (MarketSellAssetContract.sell_token_id c) (MarketSellAssetContract.buy_token_id c))
        (MarketSellAssetContract.sell_token_quantity c, MarketSellAssetContract.buy_token_quantity c) id
    else remove_account_order owner id);
  _ ← put_order taker;
  _ ← modify (put_account owner account);
  _ ← (if 0 <? fee then modify (burn_trx fee) else mret ());
  mret (mk_result fee).
End MarketSellAssetActuator.

(** ** MarketCancelOrderContract *)

Module MarketCancelOrderActuator.
Definition order_id (bs : bytes) : R OrderId :=
  if bool_decide (length bs = 32%nat) then Ok bs else Err (Validate "orderId not exists").
Definition fee (w : world) : Z := Z.max 0 (get_prop_i64 MARKET_CANCEL_FEE w).

Definition validate (c : MarketCancelOrderContract.t) (w : world) : R Z :=
  _ ← require_feature flags.ALLOW_MARKET_TRANSACTION
    "Not support Market Transaction, need to be opened by the committee" w;
  owner ← parse_address "Invalid address" (MarketCancelOrderContract.owner_address c);
  account ← ok_or (Validate "Account does not exist!") (get_account owner w);
  id ← order_id (MarketCancelOrderContract.order_id c);
  order ← ok_or (Validate "orderId not exists") (get_order id w);
  if negb (MarketOrder.state order =? ACTIVE) then Err (Validate "Order is not active!") else
  if negb (bool_decide (MarketOrder.owner_address order = owner))
  then Err (Validate "Order does not belong to the account!") else
  let fee := fee w in
  if Account.balance account <? fee then Err (Validate "No enough balance !") else
  Ok fee.

Definition execute (c : MarketCancelOrderContract.t) : M ExecutionResult :=
  owner ← lift (parse_address "Invalid address" (MarketCancelOrderContract.owner_address c));
  fee ← gets fee;
  id ← lift (order_id (MarketCancelOrderContract.order_id c));
  order ← reads (λ w, ok_or (Execute "orderId not exists") (get_order id w));
  account ← reads (λ w, ok_or (Execute "owner account missing") (get_account owner w));
  balance ← lift (ok_or (Execute "balance is not sufficient")
    (opt_filter (λ b, 0 <=? b) (checked_sub (Account.balance account) fee)));
  let refund := MarketOrder.sell_token_quantity_remain order in
  account ← lift (credit_token (account <| Account.balance := balance |>)
    (MarketOrder.sell_token_id order) refund);
  return_ ← lift (add_i64 (MarketOrder.sell_token_quantity_return order) refund);
  let order := order <| MarketOrder.sell_token_quantity_return := return_ |>
    <| MarketOrder.sell_token_quantity_remain := 0 |> <| MarketOrder.state := CANCELED |> in
  _ ← modify (put_account owner account);
  _ ← put_order order;
  _ ← (if 0 <? fee then modify (burn_trx fee) else mret ());
  let pair := pair_key (MarketOrder.sell_token_id order) (MarketOrder.buy_token_id order) in
  let price := (MarketOrder.sell_token_quantity order, MarketOrder.buy_token_quantity order) in
  ids ← gets (λ w, filter (λ x, x ≠ id) (get_order_ids pair price w));
  _ ← modify (put_order_ids pair price ids);
  _ ← (if bool_decide (ids = []) then modify (remove_price pair price) else mret ());
  _ ← modify (remove_account_order (MarketOrder.owner_address order) id);
  mret (mk_result fee).
End MarketCancelOrderActuator.

#[export] Instance market_sell_actuator : Actuator MarketSellAssetContract.t := {
  validate := MarketSellAssetActuator.validate; execute := MarketSellAssetActuator.execute }.
#[export] Instance market_cancel_actuator : Actuator MarketCancelOrderContract.t := {
  validate := MarketCancelOrderActuator.validate; execute := MarketCancelOrderActuator.execute }.

(** ** Lemmas on orders and the supply *)

Definition set_order (o : MarketOrder.t) (w : world) : world :=
  w <| w_market_order ::= insert (MarketOrder.order_id o) o |>.

Lemma put_order_run o w : length (MarketOrder.order_id o) = 32%nat → put_order o w = (Ok (), set_order o w).
Proof. intros H. unfold put_order. by rewrite bool_decide_eq_true_2. Qed.
Lemma put_order_Ok o w u w' : put_order o w = (Ok u, w') → w' = set_order o w.
Proof. unfold put_order. case_bool_decide; intros E; inv_run; done. Qed.
Lemma put_order_Err o w e w' : put_order o w ≠ (Err e, w').
Proof. unfold put_order. by case_bool_decide. Qed.

Lemma order_key_length n : length (order_key n) = 32%nat.
Proof. unfold order_key. by rewrite length_app, length_replicate, i64_to_be_bytes_length. Qed.
Lemma order_key_num n : is_i64 n → order_num (order_key n) = n.
Proof.
  intros Hn. unfold order_num, order_key. rewrite drop_app_length' by by rewrite length_replicate.
  by apply i64_be_roundtrip.
Qed.
Lemma order_wf_length n k o : order_wf n k o → length k = 32%nat.
Proof. intros H. rewrite (wf_order_key _ _ _ H). apply order_key_length. Qed.

Section Orders.
Implicit Types (w : world) (o : MarketOrder.t).

Lemma total_trx_set_order o w :
  total_trx (set_order o w) =
  total_trx w - contrib order_trx (w_market_order w) (MarketOrder.order_id o) + order_trx o.
Proof.
  unfold total_trx, set_order. change (burned (upd _ _ w)) with (burned w). simpl.
  rewrite map_sum_insert. lia.
Qed.
Lemma trx_wf_set_order o w :
  trx_wf w → order_wf (get_prop_i64 MARKET_ORDER_NUM w) (MarketOrder.order_id o) o →
  trx_wf (set_order o w).
Proof. intros [] Ho. constructor; try done. unfold set_order. simpl. by apply map_Forall_insert_2. Qed.
Lemma order_wf_mono m n k o : order_wf m k o → m ≤ n → order_wf n k o.
Proof. intros [] ?. constructor; try done. lia. Qed.
End Orders.

(** The indexes of the book are not part of the supply. *)
Definition index_frame (w w' : world) : Prop :=
  w_account w' = w_account w ∧ w_exchange w' = w_exchange w ∧ w_delegation w' = w_delegation w ∧
  w_market_order w' = w_market_order w ∧ w_properties w' = w_properties w.

#[export] Instance index_frame_po : PreOrder index_frame.
Proof.
  split; [by intros w|]. unfold index_frame. intros w1 w2 w3 (?&?&?&?&?) (?&?&?&?&?).
  split_and!; congruence.
Qed.

Lemma index_frame_trx w w' :
  index_frame w w' → (trx_wf w → trx_wf w') ∧ total_trx w' = total_trx w ∧ (trx_inv w → trx_inv w').
Proof. intros (?&?&?&?&?). by apply trx_frame. Qed.

Section Frames.
Implicit Types (w : world).
Lemma frame_put_prices pair l w : index_frame w (put_prices pair l w).
Proof. unfold put_prices. by case_bool_decide. Qed.
Lemma frame_put_order_ids pair p ids w : index_frame w (put_order_ids pair p ids w).
Proof. unfold put_order_ids. by case_bool_decide. Qed.
Lemma frame_put_pairs l w : index_frame w (put_pairs l w).
Proof. unfold put_pairs. by case_bool_decide. Qed.
Lemma frame_put_account_orders a ids w : index_frame w (put_account_orders a ids w).
Proof. unfold put_account_orders. by case_bool_decide. Qed.
Lemma frame_insert_price pair p w : index_frame w (insert_price pair p w).
Proof. unfold insert_price. case_match; [done|]. apply frame_put_prices. Qed.
Lemma frame_remove_price pair p w : index_frame w (remove_price pair p w).
Proof.
  unfold remove_price. case_bool_decide; [|apply frame_put_prices].
  etrans; [apply frame_put_prices|apply frame_put_pairs].
Qed.
Lemma frame_add_pair pair w : index_frame w (add_pair pair w).
Proof. unfold add_pair. case_bool_decide; [done|]. apply frame_put_pairs. Qed.
Lemma frame_add_order_to_book pair p id w : index_frame w (add_order_to_book pair p id w).
Proof.
  unfold add_order_to_book. etrans; [apply frame_put_order_ids|].
  etrans; [apply frame_insert_price|apply frame_add_pair].
Qed.
Lemma frame_add_account_order a id w : index_frame w (add_account_order a id w).
Proof. unfold add_account_order. case_bool_decide; [done|]. apply frame_put_account_orders. Qed.
Lemma frame_remove_account_order a id w : index_frame w (remove_account_order a id w).
Proof. apply frame_put_account_orders. Qed.
End Frames.

Create HintDb market.
#[export] Hint Resolve frame_put_order_ids frame_remove_price frame_add_order_to_book
  frame_add_account_order frame_remove_account_order : market.

(** ** Cancelling *)

Section Cancel.
Import MarketCancelOrderActuator.
Implicit Types (c : MarketCancelOrderContract.t) (w : world).

Lemma cancel_validate c w v :
  validate c w = Ok v →
  ∃ acc o, is_address (MarketCancelOrderContract.owner_address c) = true ∧
    length (MarketCancelOrderContract.order_id c) = 32%nat ∧
    get_account (MarketCancelOrderContract.owner_address c) w = Some acc ∧
    get_order (MarketCancelOrderContract.order_id c) w = Some o ∧
    MarketOrder.state o = ACTIVE ∧ MarketOrder.owner_address o = MarketCancelOrderContract.owner_address c ∧
    fee w ≤ Account.balance acc.
Proof.
  unfold validate, order_id. intros H. inv_run; parse_facts; bool_prop. eauto 10.
Qed.

(** The account and the order after a cancellation. *)
Definition cancel_account c w (acc : Account.t) (o : MarketOrder.t) : Account.t :=
  move_token (set_balance acc (Account.balance acc - fee w)) (MarketOrder.sell_token_id o)
    (MarketOrder.sell_token_quantity_remain o).
Definition cancel_order (o : MarketOrder.t) : MarketOrder.t :=
  o <| MarketOrder.sell_token_quantity_return ::=
         λ r, r + MarketOrder.sell_token_quantity_remain o |>
    <| MarketOrder.sell_token_quantity_remain := 0 |> <| MarketOrder.state := CANCELED |>.

Lemma cancel_run c w :
  trx_inv w →
  match apply_contract c w with
  | (Ok _, w') =>
      let owner := MarketCancelOrderContract.owner_address c in
      let id := MarketCancelOrderContract.order_id c in
      ∃ acc o, get_account owner w = Some acc ∧ get_order id w = Some o ∧
        MarketOrder.owner_address o = owner ∧ MarketOrder.state o = ACTIVE ∧
        fee w ≤ Account.balance acc ∧
        nonneg_i64 (Exchanges.token_balance (set_balance acc (Account.balance acc - fee w))
          (MarketOrder.sell_token_id o) + MarketOrder.sell_token_quantity_remain o) ∧
        index_frame (burn_fee (fee w) (set_order (cancel_order o)
          (put_account owner (cancel_account c w acc o) w))) w'
  | (Err _, w') => w' = w
  | (Panic, _) => True
  end.
Proof.
  intros Hi. destruct (apply_contract c w) as [[r|e|] w'] eqn:E; [..|done];
    rewrite apply_contract_eq in E; simpl in E;
    (destruct (validate c w) as [v|e'|] eqn:Ev;
      [|first [discriminate E|by injection E as <- <-]|discriminate E]).
  - apply cancel_validate in Ev as (acc & o & Ho & Hl & Ea & Eo & Hst & Hown & Hf).
    assert (Hid : order_id (MarketCancelOrderContract.order_id c) = Ok (MarketCancelOrderContract.order_id c))
      by (unfold order_id; by rewrite bool_decide_eq_true_2).
    pose proof (inv_order _ (proj1 Hi) _ _ Eo) as Hwo.
    pose proof (get_account_wf _ _ _ (proj1 Hi) Ea) as Hwf.
    assert (Hwf' : acc_wf (set_balance acc (Account.balance acc - fee w)))
      by (apply acc_wf_set_balance; [done|lia]).
    unfold execute in E. cbv zeta in E.
    rewrite parse_address_ok, run_lift, run_gets, Hid, run_lift in E by done.
    rewrite (run_reads_some _ _ _ _ _ Eo), (run_reads_some _ _ _ _ _ Ea) in E.
    apply ST_bind_Ok in E as (b & w1 & [Eb ->]%lift_Ok & E). apply ok_or_Ok, debit_Some in Eb as (-> & ? & ?).
    apply ST_bind_Ok in E as (a1 & w1 & [E1 ->]%lift_Ok & E). apply credit_token_Ok in E1 as [-> Hc].
    apply ST_bind_Ok in E as (rt & w1 & [Er ->]%lift_Ok & E). apply add_i64_Ok in Er as [-> _].
    rewrite run_modify in E.
    apply ST_bind_Ok in E as (u & w1 & ->%put_order_Ok & E).
    rewrite run_burn_fee, run_gets, run_modify in E.
    exists acc, o. split_and!; try done.
    { pose proof (token_balance_nonneg _ (MarketOrder.sell_token_id o) Hwf'). destruct Hwo.
      unfold nonneg_i64, set_balance in *. i64_lia. }
    match type of E with context [put_order_ids ?p ?q ?i ?x] =>
      transitivity (put_order_ids p q i x); [apply frame_put_order_ids|];
      generalize dependent (put_order_ids p q i x) end.
    intros w1 E. case_bool_decide; rewrite !run_modify in E || rewrite run_ret, run_modify in E;
      injection E as <- <-; [|auto with market].
    etrans; [apply frame_remove_price|apply frame_remove_account_order].
  - unfold execute in E. cbv zeta in E. inv_run; try done.
    by match goal with H : put_order _ _ = (Err _, _) |- _ => apply put_order_Err in H end.
Qed.
End Cancel.

(** ** Cancelling is safe *)

Lemma cancel_safe_outcome (c : MarketCancelOrderContract.t) w :
  trx_inv w → safe_outcome (apply_contract c w) w.
Proof.
  intros Hi. pose proof (cancel_run c w Hi) as Hr. unfold safe_outcome.
  destruct (apply_contract c w) as [[r|e|] w']; [|done|done].
  destruct Hr as (acc & o & Ea & Eo & _ & _ & Hfee & Hnn & Hfr).
  pose proof (inv_order _ (proj1 Hi) _ _ Eo) as Hwo.
  pose proof (get_account_wf _ _ _ (proj1 Hi) Ea) as Hwf.
  pose proof (acc_trx_bound _ _ _ Hi Ea) as [_ Hb]. pose proof (burned_nonneg _ (proj1 Hi)).
  pose proof (acc_trx_parts _ Hwf).
  set (owner := MarketCancelOrderContract.owner_address c) in *.
  set (fee := MarketCancelOrderActuator.fee w) in *.
  assert (0 ≤ fee) by (unfold fee, MarketCancelOrderActuator.fee; lia).
  set (acc' := cancel_account c w acc o) in *.
  assert (Hwf' : acc_wf acc').
  { apply move_token_wf; [|done]. apply acc_wf_set_balance; [done|]. fold fee. lia. }
  assert (Ht' : acc_trx acc' = acc_trx acc - fee + order_trx o).
  { unfold acc', cancel_account. rewrite move_token_trx, acc_trx_set_balance. fold fee.
    unfold order_trx. lia. }
  set (w1 := put_account owner acc' w) in *.
  assert (Hw1 : trx_wf w1) by (apply trx_wf_put_account; [apply Hi|done]).
  assert (Eid : MarketOrder.order_id (cancel_order o) = MarketCancelOrderContract.order_id c)
    by apply Hwo.
  assert (Hw2 : trx_wf (set_order (cancel_order o) w1)).
  { apply trx_wf_set_order; [done|]. rewrite Eid. destruct Hwo. by constructor. }
  assert (Htot : total_trx (burn_fee fee (set_order (cancel_order o) w1)) = total_trx w).
  { rewrite total_trx_burn_fee; [|done|change (burned (set_order _ w1)) with (burned w); i64_lia].
    rewrite total_trx_set_order, Eid. unfold contrib.
    change (w_market_order w1) with (w_market_order w).
    unfold get_order in Eo. rewrite Eo. unfold w1. rewrite (total_trx_put_account_Some _ acc) by done.
    rewrite Ht'. unfold order_trx at 3. unfold cancel_order, side_trx. simpl. case_match; lia. }
  destruct (index_frame_trx _ _ Hfr) as (Hw' & Ht & _).
  split; [split|]; [apply Hw', trx_wf_burn_fee, Hw2|rewrite Ht, Htot; apply Hi|congruence].
Qed.

#[export] Instance market_cancel_safe : ActuatorSafe MarketCancelOrderContract.t := {
  contract_wf _ _ := True; apply_safe c w _ := cancel_safe_outcome c w }.

(** ** Holdings *)

Section Holdings.
Implicit Types (a b : Address) (t : bytes) (o : MarketOrder.t) (w : world).

(** What an account owns of a token: its balance and the escrow of its open orders. *)
Definition order_holding a t o : Z :=
  if bool_decide (MarketOrder.owner_address o = a ∧ MarketOrder.sell_token_id o = t)
  then MarketOrder.sell_token_quantity_remain o else 0.
Definition holding a t w : Z :=
  match get_account a w with Some acc => token_balance acc t | None => 0 end
  + map_sum (order_holding a t) (w_market_order w).

Lemma holding_frame a t w w' :
  w_account w' = w_account w → w_market_order w' = w_market_order w → holding a t w' = holding a t w.
Proof. intros Ha Ho. unfold holding, get_account. by rewrite Ha, Ho. Qed.

Lemma holding_put_account a t b acc acc' w :
  get_account b w = Some acc →
  holding a t (put_account b acc' w) =
  holding a t w + (if decide (a = b) then token_balance acc' t - token_balance acc t else 0).
Proof.
  intros E. unfold holding. change (w_market_order (put_account b acc' w)) with (w_market_order w).
  destruct (decide (a = b)) as [->|Hn]; [rewrite E, get_put_account_eq|rewrite get_put_account_ne by done]; lia.
Qed.

Lemma holding_set_order a t o w :
  holding a t (set_order o w) = holding a t w + order_holding a t o
    - contrib (order_holding a t) (w_market_order w) (MarketOrder.order_id o).
Proof.
  unfold holding, set_order. change (get_account a (upd _ _ w)) with (get_account a w). simpl.
  rewrite map_sum_insert. lia.
Qed.
Lemma holding_set_order_Some a t o o' w :
  w_market_order w !! MarketOrder.order_id o' = Some o →
  holding a t (set_order o' w) = holding a t w + order_holding a t o' - order_holding a t o.
Proof. intros E. rewrite holding_set_order. unfold contrib. by rewrite E. Qed.
End Holdings.

(** A trade of the taker with a resting order: what the taker gave and what it got. *)
Record trade := mk_trade { t_maker : MarketOrder.t; t_given : Z; t_got : Z }.

(** [n] units of [id] go from one account to another. *)
Definition moved (id : bytes) (n : Z) (from to a : Address) (t : bytes) : Z :=
  if decide (t = id) then (if decide (a = to) then n else 0) - (if decide (a = from) then n else 0) else 0.
Definition trade_delta (taker : MarketOrder.t) (a : Address) (t : bytes) (tr : trade) : Z :=
  moved (MarketOrder.sell_token_id taker) (t_given tr)
    (MarketOrder.owner_address taker) (MarketOrder.owner_address (t_maker tr)) a t
  + moved (MarketOrder.buy_token_id taker) (t_got tr)
    (MarketOrder.owner_address (t_maker tr)) (MarketOrder.owner_address taker) a t.

(** The amounts of a trade are at the maker's price, one of them rounded down. *)
Definition at_price (maker : MarketOrder.t) (given got : Z) : Prop :=
  0 ≤ given ∧ 0 ≤ got ∧
  (got = given * MarketOrder.sell_token_quantity maker / MarketOrder.buy_token_quantity maker ∨
   given = got * MarketOrder.buy_token_quantity maker / MarketOrder.sell_token_quantity maker).

(** A trade with an order of the book, for no more than the order has left. *)
Definition trade_fair (w : world) (tr : trade) : Prop :=
  get_order (MarketOrder.order_id (t_maker tr)) w = Some (t_maker tr) ∧
  at_price (t_maker tr) (t_given tr) (t_got tr) ∧
  t_got tr ≤ MarketOrder.sell_token_quantity_remain (t_maker tr).

(** ** One fill *)

(** What never changes in an order. *)
Definition same_order (o o' : MarketOrder.t) : Prop :=
  MarketOrder.order_id o' = MarketOrder.order_id o ∧
  MarketOrder.owner_address o' = MarketOrder.owner_address o ∧
  MarketOrder.sell_token_id o' = MarketOrder.sell_token_id o ∧
  MarketOrder.buy_token_id o' = MarketOrder.buy_token_id o ∧
  MarketOrder.sell_token_quantity o' = MarketOrder.sell_token_quantity o ∧
  MarketOrder.buy_token_quantity o' = MarketOrder.buy_token_quantity o.

(** A resting order that the matching of [taker] can use: it trades the same pair
    the other way round, belongs to someone else, and the two quotients the
    matching computes fit 64 bits. *)
Record maker_good (taker maker : MarketOrder.t) : Prop := {
  mg_sell : MarketOrder.sell_token_id maker = MarketOrder.buy_token_id taker;
  mg_buy : MarketOrder.buy_token_id maker = MarketOrder.sell_token_id taker;
  mg_owner : MarketOrder.owner_address maker ≠ MarketOrder.owner_address taker;
  mg_fit1 : MarketOrder.sell_token_quantity taker * MarketOrder.sell_token_quantity maker
    ≤ I64_MAX * MarketOrder.buy_token_quantity maker;
  mg_fit2 : MarketOrder.sell_token_quantity_remain maker * MarketOrder.buy_token_quantity maker
    ≤ I64_MAX * MarketOrder.sell_token_quantity maker;
}.

Lemma maker_good_same taker taker' maker maker' :
  maker_good taker maker → same_order taker taker' → same_order maker maker' →
  MarketOrder.sell_token_quantity_remain maker' ≤ MarketOrder.sell_token_quantity_remain maker →
  0 < MarketOrder.buy_token_quantity maker → maker_good taker' maker'.
Proof.
  intros [] (_ & T1 & T2 & T3 & T4 & _) (_ & M1 & M2 & M3 & M4 & M5) Hr Hb.
  constructor; rewrite ?T1, ?T2, ?T3, ?T4, ?M1, ?M2, ?M3, ?M4, ?M5; try done. nia.
Qed.

(** The exact quotient, when it fits. *)
Lemma multiply_and_divide_run a b c :
  0 ≤ a → 0 ≤ b → 0 < c → a * b ≤ I64_MAX * c → multiply_and_divide a b c = Ok (a * b / c).
Proof.
  intros Ha Hb Hc Hf. unfold multiply_and_divide. destruct (Z.eqb_spec c 0); [lia|].
  rewrite Z.quot_div_nonneg by nia. rewrite wrap_i64_id; [done|].
  assert (0 ≤ a * b / c) by (apply Z.div_pos; nia).
  assert (a * b / c ≤ I64_MAX) by (apply Z.div_le_upper_bound; nia). i64_lia.
Qed.

(** What a fill moves: the taker's rest goes back to it, the two sides trade, or the maker's
    rest goes back to the maker. *)
Inductive fill_moves (taker maker : MarketOrder.t) (acc : Account.t) (w : world)
    (f : MarketSellAssetActuator.fill) (w1 : world) : list (Z * Z) → Prop :=
| taker_returned :
    let n := MarketOrder.sell_token_quantity_remain taker in
    MarketSellAssetActuator.f_account f = move_token acc (MarketOrder.sell_token_id taker) n →
    Exchanges.token_balance acc (MarketOrder.sell_token_id taker) + n ≤ I64_MAX →
    MarketOrder.sell_token_quantity_remain (MarketSellAssetActuator.f_taker f) = 0 →
    MarketOrder.sell_token_quantity_remain (MarketSellAssetActuator.f_maker f)
      = MarketOrder.sell_token_quantity_remain maker →
    w1 = w → fill_moves taker maker acc w f w1 []
| traded x y ma :
    MarketSellAssetActuator.f_account f = move_token acc (MarketOrder.buy_token_id taker) y →
    Exchanges.token_balance acc (MarketOrder.buy_token_id taker) + y ≤ I64_MAX →
    get_account (MarketOrder.owner_address maker) w = Some ma →
    Exchanges.token_balance ma (MarketOrder.buy_token_id maker) + x ≤ I64_MAX →
    MarketOrder.sell_token_quantity_remain (MarketSellAssetActuator.f_taker f)
      = MarketOrder.sell_token_quantity_remain taker - x →
    MarketOrder.sell_token_quantity_remain (MarketSellAssetActuator.f_maker f)
      = MarketOrder.sell_token_quantity_remain maker - y →
    at_price maker x y →
    w1 = put_account (MarketOrder.owner_address maker) (move_token ma (MarketOrder.buy_token_id maker) x) w →
    fill_moves taker maker acc w f w1 [(x, y)]
| maker_returned ma :
    let n := MarketOrder.sell_token_quantity_remain maker in
    MarketSellAssetActuator.f_account f = acc →
    get_account (MarketOrder.owner_address maker) w = Some ma →
    Exchanges.token_balance ma (MarketOrder.sell_token_id maker) + n ≤ I64_MAX →
    MarketOrder.sell_token_quantity_remain (MarketSellAssetActuator.f_taker f)
      = MarketOrder.sell_token_quantity_remain taker →
    MarketOrder.sell_token_quantity_remain (MarketSellAssetActuator.f_maker f) = 0 →
    w1 = put_account (MarketOrder.owner_address maker) (move_token ma (MarketOrder.sell_token_id maker) n) w →
    fill_moves taker maker acc w f w1 [].

(** The effect of a fill: amounts leave the two escrows for the two accounts. *)
Record fill_effect (taker maker : MarketOrder.t) (acc : Account.t) (w : world)
    (f : MarketSellAssetActuator.fill) (w1 : world) (l : list (Z * Z)) : Prop := {
  fe_taker : same_order taker (MarketSellAssetActuator.f_taker f);
  fe_maker : same_order maker (MarketSellAssetActuator.f_maker f);
  fe_taker_remain :
    0 ≤ MarketOrder.sell_token_quantity_remain (MarketSellAssetActuator.f_taker f)
      ≤ MarketOrder.sell_token_quantity_remain taker;
  fe_maker_remain :
    0 ≤ MarketOrder.sell_token_quantity_remain (MarketSellAssetActuator.f_maker f)
      ≤ MarketOrder.sell_token_quantity_remain maker;
  fe_moves : fill_moves taker maker acc w f w1 l;
}.

(** The moves, as credits of the two accounts that the two escrows pay for. *)
Lemma fill_accounts taker maker acc w f w1 l :
  MarketOrder.sell_token_id maker = MarketOrder.buy_token_id taker →
  MarketOrder.buy_token_id maker = MarketOrder.sell_token_id taker →
  0 ≤ MarketOrder.sell_token_quantity_remain taker → 0 ≤ MarketOrder.sell_token_quantity_remain maker →
  fill_effect taker maker acc w f w1 l →
  ∃ a ta b tb,
    0 ≤ a ∧ 0 ≤ b ∧
    (MarketSellAssetActuator.f_account f = acc ∧ a = 0 ∨
     MarketSellAssetActuator.f_account f = move_token acc ta a ∧
       Exchanges.token_balance acc ta + a ≤ I64_MAX) ∧
    (w1 = w ∧ b = 0 ∨
     ∃ ma, get_account (MarketOrder.owner_address maker) w = Some ma ∧
       Exchanges.token_balance ma tb + b ≤ I64_MAX ∧
       w1 = put_account (MarketOrder.owner_address maker) (move_token ma tb b) w) ∧
    order_trx taker + order_trx maker =
      order_trx (MarketSellAssetActuator.f_taker f) + order_trx (MarketSellAssetActuator.f_maker f)
      + side_trx ta a + side_trx tb b.
Proof.
  intros Es Eb Ht Hm [(_ & _ & Ts & _) (_ & _ & Ms & _) _ _ Hv].
  destruct Hv as [n Ea Hb Et Em ->|x y ma Ea Hb Ema Hb' Et Em Hp ->|ma n Ea Ema Hb Et Em ->].
  - exists n, (MarketOrder.sell_token_id taker), 0, []. split_and!; try done; [by right|by left|].
    unfold order_trx. rewrite Ts, Ms, Et, Em. unfold n, side_trx. repeat case_match; lia.
  - exists y, (MarketOrder.buy_token_id taker), x, (MarketOrder.buy_token_id maker).
    destruct Hp as (? & ? & _). split_and!; try done; [by right|right; by exists ma|].
    unfold order_trx. rewrite Ts, Ms, Et, Em, Es, Eb. unfold side_trx. repeat case_match; lia.
  - exists 0, [], n, (MarketOrder.sell_token_id maker). split_and!; try done; [by left|right; by exists ma|].
    unfold order_trx. rewrite Ts, Ms, Et, Em. unfold n, side_trx. repeat case_match; lia.
Qed.

Lemma credit_maker_Ok maker id n w u w1 :
  MarketSellAssetActuator.credit_maker maker id n w = (Ok u, w1) →
  ∃ ma, get_account (MarketOrder.owner_address maker) w = Some ma ∧
    is_i64 (Exchanges.token_balance ma id + n) ∧
    w1 = put_account (MarketOrder.owner_address maker) (move_token ma id n) w.
Proof.
  unfold MarketSellAssetActuator.credit_maker, credit_token. intros E. inv_ok. parse_facts.
  match goal with H : Exchanges.credit_token _ _ _ = Ok _ |- _ => apply credit_token_Ok in H as [-> ?] end.
  eauto.
Qed.

(** The amounts of the branches. *)
Lemma maker_receive_le tr mr ms mb :
  0 ≤ tr → 0 ≤ mr → 0 < ms → 0 < mb → mr ≤ tr * ms / mb → 0 ≤ mr * mb / ms ≤ tr.
Proof.
  intros Htr Hmr Hms Hmb Hle. split; [apply Z.div_pos; nia|].
  assert (mb * (tr * ms / mb) ≤ tr * ms) by (apply Z.mul_div_le; lia).
  apply Z.div_le_upper_bound; [done|]. nia.
Qed.

(** Crediting both sides from the other's escrow. *)
Lemma settle_effect taker maker acc w f w1 x y tr' mr' :
  tr' = MarketOrder.sell_token_quantity_remain taker - x →
  mr' = MarketOrder.sell_token_quantity_remain maker - y →
  x ≤ MarketOrder.sell_token_quantity_remain taker →
  y ≤ MarketOrder.sell_token_quantity_remain maker →
  at_price maker x y →
  let taker' := taker <| MarketOrder.sell_token_quantity_remain := tr' |> in
  let maker' := maker <| MarketOrder.sell_token_quantity_remain := mr' |> in
  (ta ← lift (Exchanges.credit_token acc (MarketOrder.buy_token_id taker') y);
   _ ← MarketSellAssetActuator.credit_maker maker' (MarketOrder.buy_token_id maker') x;
   mret (MarketSellAssetActuator.mk_fill false taker' maker' ta)) w = (Ok f, w1) →
  fill_effect taker maker acc w f w1 [(x, y)].
Proof.
  intros -> -> Hx Hy Hp taker' maker' E.
  apply ST_bind_Ok in E as (a & w2 & [Ea ->]%lift_Ok & E). apply credit_token_Ok in Ea as [-> Ha].
  apply ST_bind_Ok in E as (u & w2 & Ec & E). apply credit_maker_Ok in Ec as (ma & Ema & Hma & ->).
  injection E as <- <-. pose proof Hp as (? & ? & _). constructor; try done; simpl; try lia.
  apply traded with ma; try done; simpl in *; i64_lia.
Qed.

Lemma match_single_effect taker maker acc w f w1 :
  maker_good taker maker →
  0 ≤ MarketOrder.sell_token_quantity_remain taker ≤ MarketOrder.sell_token_quantity taker →
  0 ≤ MarketOrder.sell_token_quantity_remain maker →
  0 < MarketOrder.sell_token_quantity maker → 0 < MarketOrder.buy_token_quantity maker →
  MarketSellAssetActuator.match_single taker maker acc w = (Ok f, w1) →
  ∃ l, fill_effect taker maker acc w f w1 l.
Proof.
  intros Hg Htr Hmr Hms Hmb. pose proof Hg as [Es Eb _ Hf1 Hf2].
  unfold MarketSellAssetActuator.match_single. cbv zeta.
  set (tr := MarketOrder.sell_token_quantity_remain taker) in *.
  set (mr := MarketOrder.sell_token_quantity_remain maker) in *.
  set (ms := MarketOrder.sell_token_quantity maker) in *.
  set (mb := MarketOrder.buy_token_quantity maker) in *.
  rewrite (multiply_and_divide_run tr ms mb), run_lift by nia.
  assert (Hq : 0 ≤ tr * ms / mb) by (apply Z.div_pos; nia). unfold credit_token.
  destruct (Z.eqb_spec (tr * ms / mb) 0) as [Hz|Hz].
  { intros E. apply ST_bind_Ok in E as (a & w2 & [Ea ->]%lift_Ok & E). injection E as <- <-.
    apply credit_token_Ok in Ea as [-> Ha]. exists []. constructor; try done; simpl; try lia.
    apply taker_returned; try done. fold tr. i64_lia. }
  assert (Hle : mr ≤ tr * ms / mb → 0 ≤ mr * mb / ms ≤ tr) 
    by (intros Hx; apply maker_receive_le; [apply Htr|done|done|done|exact Hx]).
  rewrite (multiply_and_divide_run mr mb ms) by nia.
  destruct (Z.eqb_spec (tr * ms / mb) mr) as [Hm|Hm].
  { rewrite run_lift. intros E. apply ST_bind_Ok in E as (rm & w2 & [Er ->]%lift_Ok & E).
    apply sub_i64_Ok in Er as [-> _]. eexists. eapply settle_effect; [| | | | |exact E]; try (fold tr mr; lia).
    split_and!; [lia|done|by right]. }
  destruct (Z.ltb_spec (tr * ms / mb) mr) as [Hlt|Hge].
  { intros E. apply ST_bind_Ok in E as (rm & w2 & [Er ->]%lift_Ok & E).
    apply sub_i64_Ok in Er as [-> _]. eexists. eapply settle_effect; [| | | | |exact E]; try (fold tr mr; lia).
    split_and!; [lia|done|by left]. }
  rewrite run_lift. destruct (Z.eqb_spec (mr * mb / ms) 0) as [Hz'|Hz'].
  - intros E. apply ST_bind_Ok in E as (u & w2 & Ec & E).
    apply credit_maker_Ok in Ec as (ma & Ema & Hma & ->). injection E as <- <-.
    exists []. constructor; try done; simpl; try lia. apply maker_returned with ma; try done. fold mr. i64_lia.
  - intros E. apply ST_bind_Ok in E as (rm & w2 & [Er ->]%lift_Ok & E).
    apply sub_i64_Ok in Er as [-> _]. eexists. eapply settle_effect; [| | | | |exact E]; try (fold tr mr; lia).
    split_and!; [lia|done|by right].
Qed.

(** ** The matching loops *)

Lemma suffix_sub {A} (l k : list A) : l `suffix_of` k → l ⊆ k.
Proof. intros [pre ->] x Hx. apply elem_of_app. by right. Qed.

Section Matching.
Context (taker0 : MarketOrder.t) (start : world) (fee : Z).
Let owner := MarketOrder.owner_address taker0.
Let id := MarketOrder.order_id taker0.
Implicit Types (m : MarketSellAssetActuator.matching) (w : world).

(** The state as it will be once the taker's order and account are written back. *)
Definition settle m w : world :=
  set_order (MarketSellAssetActuator.m_taker m)
    (put_account owner (MarketSellAssetActuator.m_account m) w).

(** Orders are only filled, never added or replaced. *)
Definition orders_shrink w w' : Prop :=
  ∀ k o', get_order k w' = Some o' →
    ∃ o, get_order k w = Some o ∧ same_order o o' ∧
      MarketOrder.sell_token_quantity_remain o' ≤ MarketOrder.sell_token_quantity_remain o.

Lemma same_order_refl o : same_order o o.
Proof. done. Qed.
Lemma same_order_trans o1 o2 o3 : same_order o1 o2 → same_order o2 o3 → same_order o1 o3.
Proof. unfold same_order. intuition congruence. Qed.
Lemma orders_shrink_refl w : orders_shrink w w.
Proof. intros k o E. exists o. split_and!; done. Qed.
Lemma orders_shrink_trans w1 w2 w3 : orders_shrink w1 w2 → orders_shrink w2 w3 → orders_shrink w1 w3.
Proof.
  intros H1 H2 k o E. destruct (H2 _ _ E) as (o2 & E2 & S2 & R2).
  destruct (H1 _ _ E2) as (o1 & E1 & S1 & R1). exists o1.
  split_and!; [done|by eapply same_order_trans|lia].
Qed.

Lemma frame_shrink w w' : index_frame w w' → orders_shrink w w'.
Proof.
  intros (_ & _ & _ & Ho & _) k o E. unfold get_order in *. rewrite Ho in E.
  exists o. split_and!; done.
Qed.

(** What everyone owns, starting from [start]: the trades moved it, and the taker paid the fee. *)
Definition fee_of (a : Address) (t : bytes) : Z := if decide (a = owner ∧ is_trx t = true) then fee else 0.
Definition settled_by (trades : list trade) (w : world) : Prop :=
  ∀ a t, valid_token t = true →
    holding a t w = holding a t start + sum_list (trade_delta taker0 a t) trades - fee_of a t.

Record good (T : Z) m w : Prop := {
  g_wf : trx_wf (settle m w);
  g_total : total_trx (settle m w) = T;
  g_taker : same_order taker0 (MarketSellAssetActuator.m_taker m);
  g_remain : 0 ≤ MarketOrder.sell_token_quantity_remain (MarketSellAssetActuator.m_taker m)
    ≤ MarketOrder.sell_token_quantity (MarketSellAssetActuator.m_taker m);
  g_fresh : get_order id w = None;
  g_shrink : orders_shrink start w;
  g_trades : ∃ trades, Forall (trade_fair start) trades ∧ settled_by trades (settle m w) ∧
    sum_list t_given trades + MarketOrder.sell_token_quantity_remain (MarketSellAssetActuator.m_taker m)
    ≤ MarketOrder.sell_token_quantity taker0;
}.

Lemma good_frame T m w w' : index_frame w w' → good T m w → good T m w'.
Proof.
  intros Hf [Hwf Ht Htk Hr Hfr Hs (l & Hl & Hb & Hq)].
  pose proof (frame_shrink _ _ Hf) as Hsh. destruct Hf as (Ha & He & Hd & Ho & Hp).
  assert (Hf' : index_frame (settle m w) (settle m w')).
  { unfold settle, set_order, put_account. split_and!; simpl; congruence. }
  destruct (index_frame_trx _ _ Hf') as (Hw & Et & _). constructor; auto.
  - congruence.
  - unfold get_order in *. by rewrite Ho.
  - by eapply orders_shrink_trans.
  - exists l. split_and!; [done| |done]. intros a t Hv. destruct Hf' as (Ea & _ & _ & Eo & _).
    rewrite (holding_frame _ _ _ _ Ea Eo). by apply Hb.
Qed.

(** Rewriting the taker over its earlier version. *)
Lemma set_order_over o o' o2 a acc acc' (w : world) :
  MarketOrder.order_id o' = MarketOrder.order_id o → MarketOrder.order_id o2 ≠ MarketOrder.order_id o →
  set_order o' (put_account a acc' (set_order o2 w)) =
  set_order o' (put_account a acc' (set_order o2 (set_order o (put_account a acc w)))).
Proof.
  intros E Hne. unfold set_order, put_account, upd. simpl. f_equal.
  - by rewrite insert_insert_eq.
  - rewrite E, (insert_insert_ne _ (MarketOrder.order_id o2) (MarketOrder.order_id o)) by done.
    by rewrite insert_insert_eq.
Qed.
Lemma put_account_settle b bcc m (w : world) :
  b ≠ owner → settle m (put_account b bcc w) = put_account b bcc (settle m w).
Proof.
  intros Hb. unfold settle, set_order, put_account, upd. simpl. f_equal. by apply insert_insert_ne.
Qed.

(** The settled state after a fill, from the settled state before. *)
Lemma settle_over m w1 maker' f c :
  same_order taker0 (MarketSellAssetActuator.m_taker m) →
  same_order (MarketSellAssetActuator.m_taker m) (MarketSellAssetActuator.f_taker f) →
  MarketOrder.order_id maker' ≠ id →
  settle (MarketSellAssetActuator.mk_matching (MarketSellAssetActuator.f_taker f)
    (MarketSellAssetActuator.f_account f) c) (set_order maker' w1) =
  set_order (MarketSellAssetActuator.f_taker f)
    (put_account owner (MarketSellAssetActuator.f_account f) (set_order maker' (settle m w1))).
Proof.
  intros [E _] [E' _] Hn. apply (set_order_over (MarketSellAssetActuator.m_taker m)); [done|]. by rewrite E.
Qed.

Lemma order_holding_diff o o' a t :
  same_order o o' → order_holding a t o' - order_holding a t o =
  if decide (a = MarketOrder.owner_address o ∧ t = MarketOrder.sell_token_id o)
  then MarketOrder.sell_token_quantity_remain o' - MarketOrder.sell_token_quantity_remain o else 0.
Proof.
  intros (_ & Eo & Es & _). unfold order_holding. rewrite Eo, Es.
  repeat case_bool_decide; case_decide; try lia; naive_solver.
Qed.

Lemma settle_holding m w1 k maker maker' f c a t :
  same_order taker0 (MarketSellAssetActuator.m_taker m) →
  same_order (MarketSellAssetActuator.m_taker m) (MarketSellAssetActuator.f_taker f) →
  get_order k w1 = Some maker → MarketOrder.order_id maker' = k → k ≠ id → same_order maker maker' →
  holding a t (settle (MarketSellAssetActuator.mk_matching (MarketSellAssetActuator.f_taker f)
    (MarketSellAssetActuator.f_account f) c) (set_order maker' w1)) =
  holding a t (settle m w1)
  + (if decide (a = owner) then token_balance (MarketSellAssetActuator.f_account f) t
       - token_balance (MarketSellAssetActuator.m_account m) t else 0)
  + (if decide (a = owner ∧ t = MarketOrder.sell_token_id taker0)
     then MarketOrder.sell_token_quantity_remain (MarketSellAssetActuator.f_taker f)
       - MarketOrder.sell_token_quantity_remain (MarketSellAssetActuator.m_taker m) else 0)
  + (if decide (a = MarketOrder.owner_address maker ∧ t = MarketOrder.sell_token_id maker)
     then MarketOrder.sell_token_quantity_remain maker' - MarketOrder.sell_token_quantity_remain maker else 0).
Proof.
  intros Ht Hf Ek Emk Hk Hm. rewrite (settle_over m) by (done || by rewrite Emk).
  pose proof Ht as (Ei & Eo & Es & _). pose proof Hf as (Ei' & _).
  set (taker := MarketSellAssetActuator.m_taker m) in *.
  set (W := settle m w1).
  assert (EWk : w_market_order W !! MarketOrder.order_id maker' = Some maker).
  { unfold W, settle, set_order. simpl. fold taker. rewrite Ei, Emk. by rewrite lookup_insert_ne. }
  assert (EWi : w_market_order W !! id = Some taker).
  { unfold W, settle, set_order. simpl. fold taker. rewrite Ei. apply lookup_insert_eq. }
  rewrite (holding_set_order_Some _ _ taker).
  2:{ rewrite Ei', Ei. unfold set_order. simpl. by rewrite Emk, lookup_insert_ne. }
  rewrite (holding_put_account _ _ _ (MarketSellAssetActuator.m_account m))
    by (unfold W, settle; apply lookup_insert_eq).
  rewrite (holding_set_order_Some _ _ maker) by done.
  pose proof (order_holding_diff taker _ a t Hf) as D1. pose proof (order_holding_diff maker maker' a t Hm) as D2.
  rewrite Eo, Es in D1. fold owner in D1. lia.
Qed.

Context (Hsell : valid_token (MarketOrder.sell_token_id taker0) = true)
  (Hbuy : valid_token (MarketOrder.buy_token_id taker0) = true).

(** A fill moves what its trade says. *)
Lemma fill_holding m w w1 k maker maker' f c l a t :
  same_order taker0 (MarketSellAssetActuator.m_taker m) →
  get_order k w = Some maker → maker_good taker0 maker →
  fill_effect (MarketSellAssetActuator.m_taker m) maker (MarketSellAssetActuator.m_account m) w f w1 l →
  same_order maker maker' →
  MarketOrder.sell_token_quantity_remain maker' =
    MarketOrder.sell_token_quantity_remain (MarketSellAssetActuator.f_maker f) →
  MarketOrder.order_id maker' = k → k ≠ id → valid_token t = true →
  holding a t (settle (MarketSellAssetActuator.mk_matching (MarketSellAssetActuator.f_taker f)
    (MarketSellAssetActuator.f_account f) c) (set_order maker' w1)) =
  holding a t (settle m w) + sum_list (λ p, trade_delta taker0 a t (mk_trade maker p.1 p.2)) l.
Proof.
  intros Ht Ek [Es Eb Hmo _ _] [Ft _ _ _ Hv] Hm Hr Emk Hk Hval. pose proof Ht as (_ & _ & Ts & Tb & _).
  assert (Hput : ∀ ma tb n, get_account (MarketOrder.owner_address maker) w = Some ma → valid_token tb = true →
    holding a t (settle m (put_account (MarketOrder.owner_address maker) (move_token ma tb n) w)) =
    holding a t (settle m w) + (if decide (a = MarketOrder.owner_address maker ∧ t = tb) then n else 0)).
  { intros ma tb n Ema Hvb. rewrite put_account_settle, (holding_put_account _ _ _ ma) by
      (done || unfold settle; by apply lookup_insert_Some; right).
    unfold token_balance. rewrite move_token_balance by done. repeat case_decide; try lia; naive_solver. }
  assert (Hne : MarketOrder.owner_address maker ≠ owner) by done.
  rewrite (settle_holding m w1 k maker) by (done || by destruct Hv; subst w1).
  rewrite Hr. unfold token_balance.
  destruct Hv as [n Ea _ Et Em ->|x y ma Ea _ Ema _ Et Em _ ->|ma n Ea Ema _ Et Em ->];
    rewrite Ea, Et, Em; rewrite ?Hput, ?move_token_balance by (done || congruence); cbn [sum_list];
    unfold trade_delta, moved; cbn [t_maker t_given t_got fst snd]; fold owner;
    rewrite ?Es, ?Eb, ?Ts, ?Tb; try subst n; repeat case_decide; try lia; naive_solver.
Qed.

(** The trades of a fill are with the order as it was in [start]. *)
Lemma trades_fill m w w1 k maker maker' f c l trades :
  let m' := MarketSellAssetActuator.mk_matching (MarketSellAssetActuator.f_taker f)
    (MarketSellAssetActuator.f_account f) c in
  same_order taker0 (MarketSellAssetActuator.m_taker m) →
  get_order k w = Some maker → maker_good taker0 maker →
  fill_effect (MarketSellAssetActuator.m_taker m) maker (MarketSellAssetActuator.m_account m) w f w1 l →
  same_order maker maker' →
  MarketOrder.sell_token_quantity_remain maker' =
    MarketOrder.sell_token_quantity_remain (MarketSellAssetActuator.f_maker f) →
  MarketOrder.order_id maker' = k → k ≠ id → orders_shrink start w →
  Forall (trade_fair start) trades → settled_by trades (settle m w) →
  sum_list t_given trades + MarketOrder.sell_token_quantity_remain (MarketSellAssetActuator.m_taker m)
    ≤ MarketOrder.sell_token_quantity taker0 →
  ∃ trades', Forall (trade_fair start) trades' ∧ settled_by trades' (settle m' (set_order maker' w1)) ∧
    sum_list t_given trades' + MarketOrder.sell_token_quantity_remain (MarketSellAssetActuator.m_taker m')
    ≤ MarketOrder.sell_token_quantity taker0.
Proof.
  intros m' Ht Ek Hg Hf Hm Hr Emk Hk Hs Hl Hb Hq. destruct (Hs _ _ Ek) as (o & Eo & So & Ro).
  pose proof So as (Ei & Ew & _ & _ & Esq & Ebq). pose proof Hf as [_ _ Ftr Fmr Hv].
  exists (trades ++ ((λ p, mk_trade o p.1 p.2) <$> l)). split_and!.
  - apply Forall_app_2; [done|]. destruct Hv as [|x y ma _ _ _ _ _ Em Hp _|]; [done| |done].
    constructor; [|done]. unfold trade_fair, at_price in *. cbn. rewrite <-Esq, <-Ebq.
    split_and!; [|apply Hp..|lia]. by rewrite <-Ei, <-(proj1 Hm), Emk.
  - intros a t Hval. unfold m'. rewrite (fill_holding m w w1 k maker maker' f c l a t) by done. rewrite (Hb a t Hval), sum_list_app.
    assert (sum_list (trade_delta taker0 a t) ((λ p, mk_trade o p.1 p.2) <$> l)
      = sum_list (λ p, trade_delta taker0 a t (mk_trade maker p.1 p.2)) l) as ->; [|lia].
    clear -Ew. induction l as [|p l IH]; [done|]. rewrite fmap_cons. cbn [sum_list]. rewrite IH.
    unfold trade_delta. cbn [t_maker t_given t_got]. by rewrite Ew.
  - rewrite sum_list_app. unfold m'. cbn [MarketSellAssetActuator.m_taker].
    destruct Hv as [? _ _ Et _ _|x y ma _ _ _ _ Et _ _ _|ma ? _ _ _ Et _ _]; cbn; lia.
Qed.

(** Writing one fill back into the settled state. *)
Lemma good_fill T m w w1 k maker maker' f c l :
  good T m w → get_order k w = Some maker → maker_good taker0 maker →
  fill_effect (MarketSellAssetActuator.m_taker m) maker (MarketSellAssetActuator.m_account m) w f w1 l →
  same_order (MarketSellAssetActuator.f_maker f) maker' →
  MarketOrder.sell_token_quantity_remain maker' =
    MarketOrder.sell_token_quantity_remain (MarketSellAssetActuator.f_maker f) →
  let m' := MarketSellAssetActuator.mk_matching (MarketSellAssetActuator.f_taker f)
              (MarketSellAssetActuator.f_account f) c in
  good T m' (set_order maker' w1) ∧ MarketOrder.order_id maker' = k ∧
  orders_shrink w (set_order maker' w1).
Proof.
  intros [Hwf Htot Htk Hrem Hfr Hshr Htrades] Ek Hg Hf Hsame Hrm m'.
  pose proof Hf as [Ft Fm Ftr Fmr _].
  pose proof Htk as (_ & _ & Ts & Tb & _).
  destruct (fill_accounts _ _ _ _ _ _ _ (eq_trans (mg_sell _ _ Hg) (eq_sym Tb))
    (eq_trans (mg_buy _ _ Hg) (eq_sym Ts)) ltac:(lia) ltac:(lia) Hf) as (a & ta & b & tb & Ha0 & Hb0 & Hacc & Hw1 & Hsum).
  set (W := settle m w) in *. set (acc := MarketSellAssetActuator.m_account m) in *.
  set (taker := MarketSellAssetActuator.m_taker m) in *.
  assert (Etid : MarketOrder.order_id taker = id) by apply Htk.
  assert (Hkid : k ≠ id) by (intros ->; congruence).
  assert (EWk : w_market_order W !! k = Some maker).
  { unfold W, settle, set_order. simpl. fold taker. rewrite Etid. by rewrite lookup_insert_ne. }
  assert (EWid : w_market_order W !! id = Some taker).
  { unfold W, settle, set_order. simpl. fold taker. rewrite Etid. apply lookup_insert_eq. }
  assert (EWo : get_account owner W = Some acc) by apply lookup_insert_eq.
  pose proof (inv_order _ Hwf _ _ EWk) as Hmwf. pose proof (inv_order _ Hwf _ _ EWid) as Htwf.
  assert (Emk : MarketOrder.order_id maker' = k).
  { destruct Hsame as [-> _]. destruct Fm as [-> _]. apply Hmwf. }
  pose proof (get_account_wf _ _ _ Hwf EWo) as Hawf.
  set (acc' := MarketSellAssetActuator.f_account f) in *.
  set (taker' := MarketSellAssetActuator.f_taker f) in *.
  assert (Et' : MarketOrder.order_id taker' = id) by (destruct Ft as [-> _]; done).
  assert (Hacc' : acc_wf acc' ∧ acc_trx acc' = acc_trx acc + side_trx ta a).
  { destruct Hacc as [[-> ->]|[-> Hle]].
    - split; [done|]. unfold side_trx. case_match; lia.
    - split; [|apply move_token_trx]. apply move_token_wf; [done|].
      pose proof (token_balance_nonneg _ ta Hawf). split; lia. }
  destruct Hacc' as [Hawf' Hat].
  assert (HW1 : ∃ W1, trx_wf W1 ∧ total_trx W1 = T + side_trx tb b ∧ get_account owner W1 = Some acc ∧
    w_market_order W1 = w_market_order W ∧
    settle m' (set_order maker' w1) = set_order taker' (put_account owner acc' (set_order maker' W1)) ∧
    w_market_order w1 = w_market_order w ∧
    get_prop_i64 MARKET_ORDER_NUM W1 = get_prop_i64 MARKET_ORDER_NUM W).
  { assert (Hover : ∀ v, settle m' (set_order maker' v) =
      set_order taker' (put_account owner acc' (set_order maker' (settle m v))))
      by (intros v; apply settle_over; [done|done|by rewrite Emk]).
    destruct Hw1 as [[-> ->]|(ma & Ema & Hle & ->)].
    - exists W. split_and!; try done. unfold side_trx. case_match; lia.
    - assert (Hmo : MarketOrder.owner_address maker ≠ owner) by apply Hg.
      assert (EWm : get_account (MarketOrder.owner_address maker) W = Some ma)
        by (unfold W, settle; by apply lookup_insert_Some; right).
      pose proof (get_account_wf _ _ _ Hwf EWm) as Hmawf.
      exists (put_account (MarketOrder.owner_address maker) (move_token ma tb b) W). split_and!; try done.
      + apply trx_wf_put_account; [done|]. apply move_token_wf; [done|].
        pose proof (token_balance_nonneg _ tb Hmawf). split; lia.
      + rewrite (total_trx_put_account_Some _ ma), move_token_trx by done. lia.
      + by rewrite get_put_account_ne.
      + by rewrite Hover, put_account_settle. }
  destruct HW1 as (W1 & HW1 & HT1 & EW1o & EW1ord & Eq & Ew1 & Enum).
  assert (Hm'wf : order_wf (get_prop_i64 MARKET_ORDER_NUM W1) (MarketOrder.order_id maker') maker').
  { rewrite Emk, Enum. destruct Hmwf. destruct Hsame as (? & ? & ? & ? & ? & ?).
    destruct Fm as (? & ? & ? & ? & ? & ?). constructor; congruence || lia. }
  assert (Ht'wf : order_wf (get_prop_i64 MARKET_ORDER_NUM W1) (MarketOrder.order_id taker') taker').
  { rewrite Et', Enum. destruct Htwf. destruct Ft as (? & ? & ? & ? & ? & ?).
    constructor; congruence || lia. }
  assert (Hsh : orders_shrink w (set_order maker' w1)).
  { intros k' o' E'. unfold get_order, set_order in *. simpl in E'. rewrite Emk, Ew1 in E'.
    destruct (decide (k' = k)) as [->|Hk'].
    - rewrite lookup_insert_eq in E'. injection E' as <-. exists maker. split_and!; [done| |lia].
      by eapply same_order_trans.
    - rewrite lookup_insert_ne in E' by done. exists o'. split_and!; done. }
  split_and!; [constructor|done|done].
  - rewrite Eq. apply trx_wf_set_order; [|done]. apply trx_wf_put_account; [|done].
    by apply trx_wf_set_order.
  - rewrite Eq, total_trx_set_order, Et'. rewrite (total_trx_put_account_Some _ acc) by done.
    rewrite total_trx_set_order, Emk. unfold contrib.
    assert (w_market_order (put_account owner acc' (set_order maker' W1)) !! id = Some taker) as ->
      by (unfold set_order; simpl; rewrite Emk, lookup_insert_ne by done; by rewrite EW1ord).
    rewrite EW1ord, EWk.
    assert (order_trx maker' = order_trx (MarketSellAssetActuator.f_maker f)) as ->
      by (unfold order_trx; destruct Hsame as (_ & _ & -> & _); by rewrite Hrm).
    lia.
  - by eapply same_order_trans.
  - destruct Ft as (_ & _ & _ & _ & Eq' & _). simpl. fold taker'. rewrite Eq'. lia.
  - unfold get_order, set_order in *. simpl. rewrite Emk, lookup_insert_ne by done. by rewrite Ew1.
  - by eapply orders_shrink_trans.
  - destruct Htrades as (trades & Hl & Hb & Hq).
    eapply (trades_fill m w w1 k maker maker' f c l trades); try done. by eapply same_order_trans.
Qed.

Definition books_same w w' : Prop :=
  w_market_pair_price w' = w_market_pair_price w ∧ w_market_pair w' = w_market_pair w.

Definition makers_good (ids : list OrderId) w : Prop :=
  ∀ k o, k ∈ ids → get_order k w = Some o → maker_good taker0 o.

Lemma good_order_wf T m w k o :
  good T m w → get_order k w = Some o →
  order_wf (get_prop_i64 MARKET_ORDER_NUM (settle m w)) k o.
Proof.
  intros [Hwf _ Htk _ Hfr] E. apply (inv_order _ Hwf). unfold settle, set_order. simpl.
  destruct Htk as [-> _]. rewrite lookup_insert_ne; [done|]. intros <-. fold id in E. congruence.
Qed.

Lemma makers_good_shrink T m ids ids' w w' :
  good T m w → makers_good ids w → orders_shrink w w' → ids' ⊆ ids → makers_good ids' w'.
Proof.
  intros Hgd Hg Hs Hsub k o' Hk E. destruct (Hs _ _ E) as (o & Eo & So & Ro).
  eapply maker_good_same; [by eapply Hg; [apply Hsub|]|done|done|lia|].
  by destruct (good_order_wf _ _ _ _ _ Hgd Eo).
Qed.

(** One iteration of the inner loop. *)
Lemma fill_step T k ids m w maker f w1 :
  good T m w → makers_good (k :: ids) w → get_order k w = Some maker →
  MarketSellAssetActuator.match_single (MarketSellAssetActuator.m_taker m) maker
    (MarketSellAssetActuator.m_account m) w = (Ok f, w1) →
  ∀ maker' w2 c,
  same_order (MarketSellAssetActuator.f_maker f) maker' →
  MarketOrder.sell_token_quantity_remain maker' =
    MarketOrder.sell_token_quantity_remain (MarketSellAssetActuator.f_maker f) →
  index_frame (set_order maker' w1) w2 →
  good T (MarketSellAssetActuator.mk_matching (MarketSellAssetActuator.f_taker f)
    (MarketSellAssetActuator.f_account f) c) w2 ∧ orders_shrink w w2 ∧ books_same w w1.
Proof.
  intros Hgd Hg Ek Em maker' w2 c Hs Hr Hfr.
  pose proof (Hg k maker ltac:(left) Ek) as Hmg. pose proof (good_order_wf _ _ _ _ _ Hgd Ek) as Hwf.
  assert (∃ l, fill_effect (MarketSellAssetActuator.m_taker m) maker
    (MarketSellAssetActuator.m_account m) w f w1 l) as [l He].
  { apply match_single_effect; try (by apply Hwf); [|apply Hgd|done].
    eapply maker_good_same; [done|apply Hgd|done|lia|apply Hwf]. }
  destruct (good_fill T m w w1 k maker maker' f c l Hgd Ek Hmg He Hs Hr) as (Hgd' & _ & Hsh).
  split_and!.
  - by eapply good_frame.
  - eapply orders_shrink_trans; [done|by apply frame_shrink].
  - destruct He as [_ _ _ _ Hv]. by destruct Hv; subst w1.
Qed.

Lemma match_level_good T fuel ids m w r w' :
  good T m w → makers_good ids w →
  MarketSellAssetActuator.match_level fuel ids m w = (Ok r, w') →
  good T r.2 w' ∧ orders_shrink w w' ∧ books_same w w' ∧ r.1.2 `suffix_of` ids.
Proof.
  revert ids m w. induction fuel as [|fuel IH]; intros ids m w Hgd Hg E; [done|].
  cbn [MarketSellAssetActuator.match_level] in E. destruct (_ =? 0) in E.
  { injection E as <- <-. split_and!; try done. apply orders_shrink_refl. }
  destruct ids as [|k ids].
  { injection E as <- <-. split_and!; try done. apply orders_shrink_refl. }
  apply ST_bind_Ok in E as (maker & w0 & [Ek ->]%reads_Ok & E). apply ok_or_Ok in Ek.
  apply ST_bind_Ok in E as (f & w1 & Em & E). cbv zeta in E.
  apply ST_bind_Ok in E as (ids' & w2 & Ei & E).
  assert (Hstep : ∀ c, good T (MarketSellAssetActuator.mk_matching (MarketSellAssetActuator.f_taker f)
    (MarketSellAssetActuator.f_account f) c) w2 ∧ orders_shrink w w2 ∧ books_same w w2 ∧
    ids' `suffix_of` k :: ids).
  { intros c. destruct (_ =? 0) in Ei.
    - apply ST_bind_Ok in Ei as (u & w3 & ->%put_order_Ok & Ei). rewrite run_modify in Ei.
      injection Ei as <- <-.
      destruct (fill_step T k ids m w maker f w1 Hgd Hg Ek Em
        ((MarketSellAssetActuator.f_maker f) <| MarketOrder.state := INACTIVE |>) _ c
        ltac:(done) ltac:(done) (frame_remove_account_order
          (MarketOrder.owner_address (MarketSellAssetActuator.f_maker f)) k _)) as (G & S & B).
      split_and!; [exact G|exact S| |by apply suffix_cons_r].
      unfold remove_account_order, put_account_orders. by case_bool_decide.
    - apply ST_bind_Ok in Ei as (u & w3 & ->%put_order_Ok & Ei). injection Ei as <- <-.
      destruct (fill_step T k ids m w maker f w1 Hgd Hg Ek Em (MarketSellAssetActuator.f_maker f)
        (set_order (MarketSellAssetActuator.f_maker f) w1) c ltac:(done) ltac:(done) ltac:(done))
        as (G & S & B). split_and!; [exact G|exact S|exact B|done]. }
  destruct (Hstep (MarketSellAssetActuator.m_count m + 1)) as (G & S & B & F).
  destruct (_ <? _) in E; [done|]. destruct (MarketSellAssetActuator.f_stop f).
  { injection E as <- <-. done. }
  assert (Hg' : makers_good ids' w2).
  { eapply makers_good_shrink; [exact Hgd|exact Hg|exact S|]. by apply suffix_sub. }
  destruct (IH _ _ _ G Hg' E) as (G' & S' & B' & F').
  split_and!; [done|by eapply orders_shrink_trans| |by etrans].
  unfold books_same in *. destruct B, B'. split; congruence.
Qed.

(** The order ids of a level are whole 32-byte chunks. *)
Lemma chunks_exact_length n bs : Forall (λ c, length c = n) (chunks_exact n bs).
Proof.
  unfold chunks_exact. generalize (length bs). intros fuel. revert bs.
  induction fuel as [|fuel IH]; intros bs; simpl; [done|]. case_bool_decide; [done|].
  constructor; [|apply IH]. rewrite length_take. lia.
Qed.

Lemma get_put_order_ids pair p q ids w :
  Forall (λ c, length c = 32%nat) ids →
  get_order_ids pair q (put_order_ids pair p ids w) =
  if decide (pair_price_key pair p.1 p.2 = pair_price_key pair q.1 q.2) then ids
  else get_order_ids pair q w.
Proof.
  intros Hids. unfold get_order_ids, put_order_ids. case_bool_decide as Hnil; simpl.
  - rewrite lookup_delete. case_decide; simpl; [by subst|done].
  - rewrite lookup_insert. case_decide; simpl; [|done]. by apply chunks_exact_concat; [lia|].
Qed.

Definition book_good (pair : bytes) w : Prop := ∀ p, makers_good (get_order_ids pair p w) w.

Lemma match_levels_good T fuel pair ts tb m w m' w' :
  good T m w → book_good pair w →
  MarketSellAssetActuator.match_levels fuel pair ts tb m w = (Ok m', w') → good T m' w'.
Proof.
  revert m w. induction fuel as [|fuel IH]; intros m w Hgd Hb E; [done|].
  cbn [MarketSellAssetActuator.match_levels] in E. destruct (_ =? 0) in E.
  { injection E as <- <-. done. }
  rewrite run_gets in E. destruct (best_price pair w) as [best|]; [|by injection E as <- <-].
  destruct (negb _) in E; [by injection E as <- <-|].
  rewrite run_gets in E. apply ST_bind_Ok in E as (r & w1 & El & E). cbv zeta in E.
  destruct (match_level_good _ _ _ _ _ _ _ Hgd (Hb best) El) as (G & S & [B1 B2] & F).
  rewrite run_modify in E.
  set (w2 := put_order_ids pair best r.1.2 w1) in *.
  assert (G2 : good T r.2 w2) by (eapply good_frame; [apply frame_put_order_ids|done]).
  destruct (r.1.1); [by injection E as <- <-|].
  case_bool_decide; [|by injection E as <- <-]. rewrite run_modify in E.
  eapply IH; [| |exact E]; [eapply good_frame; [apply frame_remove_price|done]|].
  intros p. assert (Hsub : get_order_ids pair p (remove_price pair best w2) ⊆ get_order_ids pair p w).
  { assert (get_order_ids pair p (remove_price pair best w2) = get_order_ids pair p w2) as ->.
    { unfold remove_price, remove_pair, put_pairs, put_prices, get_order_ids.
      repeat case_bool_decide; done. }
    unfold w2. rewrite get_put_order_ids.
    - case_decide as Hk; [|unfold get_order_ids; by rewrite B1].
      destruct F as [pre F]. unfold get_order_ids in F at 1. rewrite Hk in F. fold (get_order_ids pair p w) in F.
      apply suffix_sub. by exists pre.
    - destruct F as [pre F]. pose proof (chunks_exact_length 32
        (default [] (w_market_pair_price w !! pair_price_key pair best.1 best.2))) as Hl.
      fold (get_order_ids pair best w) in Hl. rewrite F in Hl. by apply Forall_app in Hl as [_ Hl]. }
  eapply makers_good_shrink; [exact Hgd|exact (Hb p)| |exact Hsub].
  eapply orders_shrink_trans; [exact S|]. apply frame_shrink.
  etrans; [apply frame_put_order_ids|apply frame_remove_price].
Qed.
End Matching.

(** ** Placing an order *)

Lemma order_key_inj m n : is_i64 m → is_i64 n → order_key m = order_key n → m = n.
Proof. intros Hm Hn E. rewrite <-(order_key_num m), <-(order_key_num n) by done. by rewrite E. Qed.

Lemma next_order_id w :
  trx_wf w → let n := get_prop_i64 MARKET_ORDER_NUM w + 1 in is_i64 n →
  trx_wf (put_prop_i64 MARKET_ORDER_NUM n w) ∧ get_order (order_key n) w = None ∧ 0 < n.
Proof.
  intros Hw n Hn. pose proof Hw as [Ha Hx Hd Ho Hp].
  pose proof (Hp MARKET_ORDER_NUM ltac:(not_weight)) as Hpos.
  set (w' := put_prop_i64 MARKET_ORDER_NUM n w).
  assert (Hnum : get_prop_i64 MARKET_ORDER_NUM w' = n) by (by apply get_put_prop_eq).
  assert (Hother : ∀ k, k ≠ MARKET_ORDER_NUM → get_prop_i64 k w' = get_prop_i64 k w)
    by (intros k Hk; apply get_put_prop_ne; congruence).
  split_and!; [constructor; try done| |lia].
  - by rewrite Hother.
  - rewrite Hnum. eapply map_Forall_impl; [exact Ho|]. intros k o Hko. eapply order_wf_mono; [done|lia].
  - intros k Hk. destruct (decide (k = MARKET_ORDER_NUM)) as [->|]; [lia|].
    rewrite Hother by done. auto.
  - unfold get_order. destruct (w_market_order w !! order_key n) as [o|] eqn:E; [|done]. exfalso.
    destruct (Ho _ _ E) as [_ _ Hn' _ _ _]. rewrite order_key_num in Hn' by done. lia.
Qed.

(** The resting orders on the other side of the book can be matched: each trades the
    opposite pair, none belongs to the seller, and the quotients fit 64 bits. *)
Definition market_sell_wf (c : MarketSellAssetContract.t) (w : world) : Prop :=
  ∀ p k o,
    k ∈ get_order_ids (pair_key (MarketSellAssetContract.buy_token_id c)
          (MarketSellAssetContract.sell_token_id c)) p w →
    get_order k w = Some o →
    maker_good (MarketSellAssetActuator.new_order [] (MarketSellAssetContract.owner_address c) 0 c) o.

Lemma sell_validate c w v :
  MarketSellAssetActuator.validate c w = Ok v →
  is_address (MarketSellAssetContract.owner_address c) = true ∧
  valid_token (MarketSellAssetContract.sell_token_id c) = true ∧
  valid_token (MarketSellAssetContract.buy_token_id c) = true ∧
  0 < MarketSellAssetContract.sell_token_quantity c ∧ 0 < MarketSellAssetContract.buy_token_quantity c.
Proof.
  unfold MarketSellAssetActuator.validate. intros H. apply res_bind_Ok in H as (u & _ & H).
  apply res_bind_Ok in H as (o & Ho & H). apply res_bind_Ok in H as (acc & _ & H). cbv zeta in H.
  parse_facts. destruct (negb _) eqn:Hs in H; [done|]. destruct (negb _) eqn:Hb in H; [done|].
  apply negb_false_iff in Hs, Hb.
  destruct (bool_decide _) in H; [done|]. destruct (_ || _) eqn:Hq in H; [done|].
  apply orb_false_iff in Hq as [?%Z.leb_gt ?%Z.leb_gt]. done.
Qed.

Lemma index_frame_books (w w' : world) :
  index_frame w w' → w_market_order w' = w_market_order w.
Proof. by intros (_ & _ & _ & ? & _). Qed.

(** What the seller owns when matching starts: only the fee is gone. *)
Lemma start_holding c w0 w acc fee n now :
  let owner := MarketSellAssetContract.owner_address c in
  let t := MarketSellAssetContract.sell_token_id c in
  let taker := MarketSellAssetActuator.new_order (order_key n) owner now c in
  let acc1 := move_token (set_balance acc (Account.balance acc - fee)) t
    (- MarketSellAssetContract.sell_token_quantity c) in
  w_account w0 = w_account w → w_market_order w0 = w_market_order w →
  get_account owner w = Some acc → get_order (order_key n) w = None → valid_token t = true →
  settled_by taker w fee [] (settle taker (MarketSellAssetActuator.mk_matching taker acc1 0) w0).
Proof.
  intros owner t taker acc1 Ha Ho Ea Hn Hv a s Hs. unfold settle. cbn [MarketSellAssetActuator.m_taker
    MarketSellAssetActuator.m_account]. rewrite holding_set_order.
  change (w_market_order (put_account _ _ w0)) with (w_market_order w0). unfold contrib. rewrite Ho.
  change (MarketOrder.order_id taker) with (order_key n). unfold get_order in Hn. rewrite Hn.
  change (MarketOrder.owner_address taker) with owner.
  rewrite (holding_put_account _ _ _ acc), (holding_frame a s w w0) by (done || unfold get_account; by rewrite Ha).
  unfold token_balance, acc1. rewrite move_token_balance by done.
  assert (Exchanges.token_balance (set_balance acc (Account.balance acc - fee)) s
    = Exchanges.token_balance acc s - (if is_trx s then fee else 0)) as ->
    by (unfold Exchanges.token_balance, set_balance; destruct (is_trx s); simpl; lia).
  unfold fee_of, order_holding. change (MarketOrder.owner_address taker) with owner.
  change (MarketOrder.sell_token_id taker) with t.
  change (MarketOrder.sell_token_quantity_remain taker) with (MarketSellAssetContract.sell_token_quantity c).
  cbn [sum_list]. case_bool_decide; repeat case_decide; destruct (is_trx s); try lia; naive_solver.
Qed.

(** The state when matching starts. *)
Lemma sell_start c w acc fee :
  let owner := MarketSellAssetContract.owner_address c in
  let n := get_prop_i64 MARKET_ORDER_NUM w + 1 in
  let q := MarketSellAssetContract.sell_token_quantity c in
  let t := MarketSellAssetContract.sell_token_id c in
  let acc0 := set_balance acc (Account.balance acc - fee) in
  let acc1 := move_token acc0 t (- q) in
  let now := get_prop_i64 props.LATEST_BLOCK_HEADER_TIMESTAMP w in
  let taker := MarketSellAssetActuator.new_order (order_key n) owner now c in
  let w1 := add_account_order owner (order_key n) (put_prop_i64 MARKET_ORDER_NUM n w) in
  trx_inv w → get_account owner w = Some acc → is_i64 n →
  0 < q → 0 < MarketSellAssetContract.buy_token_quantity c →
  valid_token t = true →
  0 ≤ Account.balance acc - fee → nonneg_i64 (Exchanges.token_balance acc0 t - q) →
  good taker w fee (total_trx w - fee) (MarketSellAssetActuator.mk_matching taker acc1 0) w1.
Proof.
  intros owner n q t acc0 acc1 now taker w1 Hi Ea Hn Hq Hb Hvt Hfee Hd.
  destruct (next_order_id w (proj1 Hi) Hn) as (Hw' & Hfr & Hn0). fold n in Hw', Hfr.
  pose proof (get_account_wf _ _ _ (proj1 Hi) Ea) as Hwf.
  set (w0 := put_prop_i64 MARKET_ORDER_NUM n w) in *.
  assert (Hwf1 : acc_wf acc1)
    by (apply move_token_wf; [by apply acc_wf_set_balance|done]).
  assert (Ht1 : acc_trx acc1 = acc_trx acc - fee - side_trx t q).
  { unfold acc1, acc0. rewrite move_token_trx, acc_trx_set_balance. unfold side_trx. case_match; lia. }
  eapply good_frame; [apply frame_add_account_order|]. constructor; try done.
  - apply trx_wf_set_order; [by apply trx_wf_put_account|].
    match goal with |- order_wf ?x _ _ => assert (x = n) as -> by (by apply get_put_prop_eq) end.
    simpl. constructor; try done; rewrite ?order_key_num by done; simpl; lia || done.
  - unfold settle. rewrite total_trx_set_order. simpl.
    assert (Etot : total_trx (put_account owner acc1 w0) = total_trx w - acc_trx acc + acc_trx acc1).
    { rewrite (total_trx_put_account_Some _ acc) by done. unfold w0.
      by rewrite total_trx_put_prop. }
    fold owner. rewrite Etot. unfold contrib. unfold get_order in Hfr.
    change (w_market_order (put_account owner acc1 w0)) with (w_market_order w). rewrite Hfr.
    unfold order_trx. simpl. fold t q. lia.
  - simpl. fold q. lia.
  - intros k o Eo. by exists o.
  - exists []. split_and!; [done| |simpl; fold q; lia].
    by apply (start_holding c w0 w acc fee).
Qed.

(** A successful sell order: the order it stores and the trades it makes. *)
Lemma sell_settles c w r w' :
  market_sell_wf c w → trx_inv w → apply_contract c w = (Ok r, w') →
  trx_inv w' ∧ total_trx w' = total_trx w ∧
  let id := order_key (get_prop_i64 MARKET_ORDER_NUM w + 1) in
  let order := MarketSellAssetActuator.new_order id (MarketSellAssetContract.owner_address c)
    (get_prop_i64 props.LATEST_BLOCK_HEADER_TIMESTAMP w) c in
  ∃ trades o, Forall (trade_fair w) trades ∧
    settled_by order w (MarketSellAssetActuator.fee w) trades w' ∧
    get_order id w = None ∧ get_order id w' = Some o ∧ same_order order o ∧
    0 ≤ MarketOrder.sell_token_quantity_remain o ∧
    sum_list t_given trades + MarketOrder.sell_token_quantity_remain o
      ≤ MarketSellAssetContract.sell_token_quantity c.
Proof.
  intros Hc Hi E. rewrite apply_contract_eq in E. simpl in E.
  destruct (MarketSellAssetActuator.validate c w) as [v|e'|] eqn:Ev; [|done..].
  apply sell_validate in Ev as (Ho & Hvs & Hvb & Hq & Hb).
  unfold MarketSellAssetActuator.execute in E. cbv zeta in E.
  rewrite parse_address_ok, run_lift, !run_gets in E by done.
  set (fee := MarketSellAssetActuator.fee w) in *.
  apply ST_bind_Ok in E as (acc & w1 & [Ea ->]%reads_Ok & E). apply ok_or_Ok in Ea.
  apply ST_bind_Ok in E as (b & w1 & [Eb ->]%lift_Ok & E). apply ok_or_Ok, debit_Some in Eb as (-> & Hf & Hf').
  apply ST_bind_Ok in E as (a1 & w1 & [E1 ->]%lift_Ok & E). apply debit_token_Ok in E1 as (-> & Hd & Hd').
  apply ST_bind_Ok in E as (id & w1 & Eid & E). unfold MarketSellAssetActuator.allocate_order_id in Eid.
  rewrite run_gets in Eid. apply ST_bind_Ok in Eid as (n & w2 & [En ->]%lift_Ok & Eid).
  apply add_i64_Ok in En as [-> Hn]. rewrite run_modify in Eid. injection Eid as <- <-.
  rewrite run_modify in E. apply ST_bind_Ok in E as (m & w2 & Em & E).
  pose proof (sell_start c w acc fee Hi Ea Hn Hq Hb Hvs Hf ltac:(unfold nonneg_i64, set_balance in *; i64_lia)) as G.
  cbv zeta in G. fold (set_balance acc (Account.balance acc - fee)) in Em.
  set (n := get_prop_i64 MARKET_ORDER_NUM w + 1) in *.
  set (taker := MarketSellAssetActuator.new_order (order_key n) _ _ c) in *.
  set (w1 := add_account_order _ _ _) in *.
  unfold MarketSellAssetActuator.match_order in Em. cbv zeta in Em. rewrite run_gets in Em.
  eapply (match_levels_good taker w fee Hvs Hvb) in Em; [|exact G|].
  2:{ intros p k o Hk Hko. assert (Hfr : index_frame (put_prop_i64 MARKET_ORDER_NUM n w) w1)
        by apply frame_add_account_order.
      assert (Eo : get_order k w1 = get_order k w) by (unfold get_order; by rewrite (index_frame_books _ _ Hfr)).
      rewrite Eo in Hko. destruct (Hc p k o) with (2 := Hko) as [? ? ? ? ?]; [|by constructor].
      revert Hk. unfold w1, add_account_order, put_account_orders, get_order_ids.
      repeat case_bool_decide; done. }
  rewrite run_modify in E. apply ST_bind_Ok in E as (u & w3 & ->%put_order_Ok & E).
  rewrite run_modify, run_burn_fee in E. injection E as <- <-.
  match goal with |- context [set_order _ ?x] => set (wx := x) in * end.
  assert (G' : good taker w fee (total_trx w - fee) m wx).
  { eapply good_frame; [|exact Em]. unfold wx.
    destruct (negb _); [apply frame_add_order_to_book|apply frame_remove_account_order]. }
  change (put_account (MarketSellAssetContract.owner_address c) (MarketSellAssetActuator.m_account m)
    (set_order (MarketSellAssetActuator.m_taker m) wx)) with (settle taker m wx).
  destruct G' as [Gw Gt Gs Gr _ _ (l & Hl & Hh & Hsum)].
  assert (0 ≤ fee) by (unfold fee, MarketSellAssetActuator.fee; lia).
  pose proof (total_trx_parts _ Gw) as Hp. pose proof (proj2 Hi) as Hmax. unfold total_trx at 1 in Gt.
  assert (Htot : total_trx (burn_fee fee (settle taker m wx)) = total_trx w).
  { rewrite total_trx_burn_fee; [unfold total_trx at 1; lia|done|i64_lia]. }
  split; [split; [by apply trx_wf_burn_fee|by rewrite Htot]|split; [done|cbv zeta]].
  exists l, (MarketSellAssetActuator.m_taker m). split_and!; [done| |..]; try done.
  - intros a t Hv. etrans; [|exact (Hh a t Hv)]. apply holding_frame; unfold burn_fee; by destruct (0 <? fee).
  - by apply (next_order_id w (proj1 Hi)).
  - unfold burn_fee. destruct (0 <? fee); unfold get_order, settle, set_order; simpl;
      rewrite (proj1 Gs); apply lookup_insert_eq.
  - apply Gr.
Qed.

Lemma sell_conserves c w :
  market_sell_wf c w → trx_inv w → conserves (apply_contract c w) w.
Proof.
  intros Hc Hi. unfold conserves.
  destruct (apply_contract c w) as [[r|e|] w'] eqn:E; [|done..]. by destruct (sell_settles c w r w' Hc Hi E) as (? & ? & _).
Qed.

#[export] Instance market_sell_conserves : ActuatorConserves MarketSellAssetContract.t := {
  conserve_wf := market_sell_wf; apply_conserves := sell_conserves }.

(** ** Termination *)

Section Fuel.
Implicit Types (m : MarketSellAssetActuator.matching) (w : world).
Import MarketSellAssetActuator.

Lemma match_level_fuel f1 f2 ids m w :
  m_count m ≤ MAX_MATCH_NUM → MAX_MATCH_NUM + 1 - m_count m ≤ Z.of_nat f1 → (f1 ≤ f2)%nat →
  match_level f1 ids m w = match_level f2 ids m w.
Proof.
  revert f2 ids m w. induction f1 as [|f1 IH]; intros f2 ids m w Hc H1 H2; [lia|].
  destruct f2 as [|f2]; [lia|]. cbn [match_level]. destruct (_ =? 0); [done|].
  destruct ids as [|k ids]; [done|].
  apply ST_bind_ext. intros maker w1 _. apply ST_bind_ext. intros f w2 _. cbv zeta.
  apply ST_bind_ext. intros ids' w3 _.
  destruct (Z.ltb_spec MAX_MATCH_NUM (m_count (mk_matching (f_taker f) (f_account f) (m_count m + 1))));
    [done|]. destruct (f_stop f); [done|]. simpl in *. apply IH; simpl; lia.
Qed.

(** The inner loop keeps the count within the limit and does not touch the price list. *)
Lemma match_single_prices taker maker acc w f w1 :
  match_single taker maker acc w = (Ok f, w1) → w_market_pair w1 = w_market_pair w.
Proof.
  unfold match_single, credit_maker. intros E. inv_run; done.
Qed.
Lemma match_level_count fuel ids m w r w' :
  0 ≤ m_count m ≤ MAX_MATCH_NUM → match_level fuel ids m w = (Ok r, w') →
  0 ≤ m_count r.2 ≤ MAX_MATCH_NUM ∧ w_market_pair w' = w_market_pair w.
Proof.
  revert ids m w. induction fuel as [|fuel IH]; intros ids m w Hc E; [done|].
  cbn [match_level] in E. destruct (_ =? 0) in E; [by injection E as <- <-|].
  destruct ids as [|k ids]; [by injection E as <- <-|].
  apply ST_bind_Ok in E as (maker & w0 & [Ek ->]%reads_Ok & E).
  apply ST_bind_Ok in E as (f & w1 & Em%match_single_prices & E). cbv zeta in E.
  apply ST_bind_Ok in E as (ids' & w2 & Ei & E).
  assert (Ew : w_market_pair w2 = w_market_pair w).
  { rewrite <-Em. destruct (_ =? 0) in Ei; apply ST_bind_Ok in Ei as (u & w3 & ->%put_order_Ok & Ei).
    - rewrite run_modify in Ei. injection Ei as <- <-.
      unfold remove_account_order, put_account_orders. by case_bool_decide.
    - by injection Ei as <- <-. }
  rewrite <-Ew. destruct (Z.ltb_spec MAX_MATCH_NUM
    (m_count (mk_matching (f_taker f) (f_account f) (m_count m + 1)))); [done|]. simpl in *.
  destruct (f_stop f); [injection E as <- <-; simpl; split; [lia|done]|].
  eapply IH; [|exact E]. simpl. lia.
Qed.

Lemma match_levels_fuel f1 f2 pair ts tb m w :
  0 ≤ m_count m ≤ MAX_MATCH_NUM → (length (get_prices pair w) < f1)%nat → (f1 ≤ f2)%nat →
  match_levels f1 pair ts tb m w = match_levels f2 pair ts tb m w.
Proof.
  revert f2 m w. induction f1 as [|f1 IH]; intros f2 m w Hc H1 H2; [lia|].
  destruct f2 as [|f2]; [lia|]. cbn [match_levels]. destruct (_ =? 0); [done|].
  rewrite !run_gets. destruct (best_price pair w) as [best|] eqn:Eb; [|done].
  destruct (negb _); [done|]. rewrite !run_gets. apply ST_bind_ext. intros r w1 El. cbv zeta.
  apply match_level_count in El as [Hc1 Ew]; [|done]. rewrite !run_modify.
  destruct (r.1.1); [done|]. case_bool_decide; [|done]. rewrite !run_modify.
  apply IH; [done| |lia]. rewrite get_remove_price.
  assert (get_prices pair (put_order_ids pair best r.1.2 w1) = get_prices pair w) as ->.
  { unfold get_prices, put_order_ids. case_bool_decide; simpl; by rewrite Ew. }
  unfold best_price in Eb. destruct (get_prices pair w) as [|p l]; [done|]. injection Eb as ->.
  rewrite filter_cons, decide_False by (by rewrite price_eq_refl).
  pose proof (length_filter (λ q, price_eq q best = false) l). simpl in H1. lia.
Qed.
End Fuel.

(** ** Properties *)

(** C11: a sell order settles as its trades say.  Suppose that the invariant holds and that
    every resting order in the levels of the opposite pair trades that pair the other way
    round, belongs to another account and has fill quotients that fit 64 bits.  Then a sell
    order that succeeds keeps the invariant and the TRX supply, and there is a list of trades,
    each with a resting order of the book, for no more than that order had left and at its
    price with one of the two amounts rounded down, that explains everything: what any account
    owns of TRX or of a token with a numeric id, its balance and the escrow of its open orders
    together, changes by exactly what the trades move between the seller and the owners of those orders, and the
    seller alone also pays the fee in TRX.  The order is stored under the next id, which was
    free, with the terms of the contract, and what was traded and what it has left do not
    exceed what it offered.  Nothing is claimed of an order that fails. *)
Theorem market_sell_settles (c : MarketSellAssetContract.t) (w : world) :
  trx_inv w → market_sell_wf c w →
  match apply_contract c w with
  | (Ok _, w') =>
      trx_inv w' ∧ total_trx w' = total_trx w ∧
      let id := order_key (get_prop_i64 MARKET_ORDER_NUM w + 1) in
      let order := MarketSellAssetActuator.new_order id (MarketSellAssetContract.owner_address c)
        (get_prop_i64 props.LATEST_BLOCK_HEADER_TIMESTAMP w) c in
      ∃ trades o, Forall (trade_fair w) trades ∧
        (∀ a t, valid_token t = true →
           holding a t w' = holding a t w + sum_list (trade_delta order a t) trades
             - (if decide (a = MarketSellAssetContract.owner_address c ∧ is_trx t = true)
                then MarketSellAssetActuator.fee w else 0)) ∧
        get_order id w = None ∧ get_order id w' = Some o ∧ same_order order o ∧
        0 ≤ MarketOrder.sell_token_quantity_remain o ∧
        sum_list t_given trades + MarketOrder.sell_token_quantity_remain o
          ≤ MarketSellAssetContract.sell_token_quantity c
  | _ => True
  end.
Proof.
  intros Hi Hc. destruct (apply_contract c w) as [[r|e|] w'] eqn:E; [|done..].
  exact (sell_settles c w r w' Hc Hi E).
Qed.

(** Matching terminates.  However large the fuel, the loops of [match_order]
    give the result of the fuel the model uses, one more than the number of listed
    prices, whatever the state and whether or not the match succeeds: each round
    of the outer loop removes a price and the match count bounds the inner loop. *)
Theorem match_order_fuel_enough (taker : MarketOrder.t) (acc : Account.t) (w : world) (extra : nat) :
  let pair := pair_key (MarketOrder.buy_token_id taker) (MarketOrder.sell_token_id taker) in
  MarketSellAssetActuator.match_levels (S (length (get_prices pair w)) + extra) pair
    (MarketOrder.sell_token_quantity taker) (MarketOrder.buy_token_quantity taker)
    (MarketSellAssetActuator.mk_matching taker acc 0) w
  = MarketSellAssetActuator.match_order taker acc w ∧
  ∀ ids m more, 0 ≤ MarketSellAssetActuator.m_count m ≤ MAX_MATCH_NUM →
    MarketSellAssetActuator.match_level (MarketSellAssetActuator.LEVEL_FUEL + more) ids m w
    = MarketSellAssetActuator.match_level MarketSellAssetActuator.LEVEL_FUEL ids m w.
Proof.
  intros pair. split.
  - unfold MarketSellAssetActuator.match_order. cbv zeta. rewrite run_gets. fold pair. symmetry.
    apply match_levels_fuel; [unfold MAX_MATCH_NUM; simpl; lia|lia|lia].
  - intros ids m more Hm. symmetry. apply match_level_fuel; [lia| |lia].
    unfold MarketSellAssetActuator.LEVEL_FUEL, MAX_MATCH_NUM in *. lia.
Qed.

(** A market with one resting order: Bob (2) sells 100 units of the token 1000001 for
    200 sun. *)
Module MarketSample.
Definition token : bytes := PoolSample.token.
Definition with_tokens (n balance tokens : Z) : Account.t :=
  (Sample.account n balance) <| Account.asset_v2 := {[ "1000001"%string := tokens ]} |>.
Definition base : world :=
  put_prop_i64 flags.ALLOW_MARKET_TRANSACTION 1
    (put_prop_i64 MARKET_SELL_FEE 7
      (put_account (Sample.addr 1) (with_tokens 1 50000000 5000)
        (put_account (Sample.addr 2) (with_tokens 2 3000000 1000) Sample.state))).
Definition sell (n : Z) (tok : bytes) (q : Z) (buy : bytes) (p : Z) :=
  MarketSellAssetContract.mk (Sample.addr n) tok q buy p.
Definition step (c : MarketSellAssetContract.t) (w : world) : world := (apply_contract c w).2.
Definition w : world := step (sell 2 token 100 TRX_SYMBOL_BYTES 200) base.
Definition taker := sell 1 TRX_SYMBOL_BYTES 90 token 40.
Definition maker : MarketOrder.t :=
  default MarketOrder.default (get_order (order_key 1) w).
End MarketSample.

Lemma market_sample_wf : market_sell_wf MarketSample.taker MarketSample.w.
Proof.
  intros p k o Hk Ho.
  assert (Hm : w_market_order MarketSample.w = {[ order_key 1 := MarketSample.maker ]})
    by (vm_compute; reflexivity).
  unfold get_order in Ho. rewrite Hm in Ho. apply lookup_singleton_Some in Ho as [_ <-].
  constructor; try (vm_compute; reflexivity); vm_compute; discriminate.
Defined.

(** Alice buys 45 tokens from Bob for 90 sun and pays the fee of 7. *)
Lemma market_sell_settles_witness :
  trx_inv MarketSample.w ∧
  match apply_contract MarketSample.taker MarketSample.w with
  | (Ok _, w') => total_trx w' = total_trx MarketSample.w ∧
      (balance_of (Sample.addr 1) w', balance_of (Sample.addr 2) w') = (49999903, 3000083) ∧
      ∃ trades, Forall (trade_fair MarketSample.w) trades ∧ sum_list t_given trades ≤ 90
  | _ => False
  end.
Proof.
  assert (Hi : trx_inv MarketSample.w) by check_inv. split; [exact Hi|].
  pose proof (market_sell_settles _ _ Hi market_sample_wf) as H.
  assert (is_Ok (apply_contract MarketSample.taker MarketSample.w).1 = true) as Hok
    by (vm_compute; reflexivity).
  assert ((balance_of (Sample.addr 1) (apply_contract MarketSample.taker MarketSample.w).2,
           balance_of (Sample.addr 2) (apply_contract MarketSample.taker MarketSample.w).2)
          = (49999903, 3000083)) as Hb by (vm_compute; reflexivity).
  destruct (apply_contract MarketSample.taker MarketSample.w) as [[r|e|] w'];
    [|discriminate Hok|discriminate Hok].
  destruct H as (_ & Ht & trades & o & Hf & _ & _ & _ & _ & H0 & Hs).
  change (MarketSellAssetContract.sell_token_quantity MarketSample.taker) with 90 in Hs.
  split_and!; [exact Ht|exact Hb|]. exists trades. split; [exact Hf|lia].
Defined.

(** An order that matches an order of the same owner loses what the owner
    receives as maker.  Bob places 90 sun against his own resting order: the matching
    credits his stored account, which is then overwritten with the copy read before,
    and 90 sun leave the supply. *)
Theorem market_self_trade_loses_supply :
  let c := MarketSample.sell 2 TRX_SYMBOL_BYTES 90 MarketSample.token 40 in
  trx_inv MarketSample.w ∧
  match apply_contract c MarketSample.w with
  | (Ok _, w') => total_trx w' = total_trx MarketSample.w - 90
  | _ => False
  end.
Proof. split; [check_inv|]. vm_compute. reflexivity. Qed.

(** Two resting orders of the same price ratio but different quantities share a
    listed price that only the first one's level is stored under.  The second is never
    reached by matching, and cancelling it delists the price of the first, which stays
    active and queued but is no longer found. *)
Theorem market_equal_ratio_orphans :
  let pair := pair_key MarketSample.token TRX_SYMBOL_BYTES in
  let w1 := MarketSample.step (MarketSample.sell 2 MarketSample.token 50 TRX_SYMBOL_BYTES 100)
              MarketSample.w in
  let w2 := (apply_contract (MarketCancelOrderContract.mk (Sample.addr 2) (order_key 2)) w1).2 in
  get_prices pair w1 = [(100, 200)] ∧ get_order_ids pair (50, 100) w1 = [order_key 2] ∧
  best_price pair w2 = None ∧ get_order_ids pair (100, 200) w2 = [order_key 1] ∧
  (MarketOrder.state <$> get_order (order_key 1) w2) = Some ACTIVE.
Proof. vm_compute. done. Qed.

(** The fill quotient is cut to 64 bits.  A seller of 3000 TRX meets an offer of
    4*10^9 tokens for one sun, both within the quantity limit: the quotient 1.2*10^19
    wraps to a negative number, the trade is accepted, and the buyer is left with a
    negative token balance. *)
Theorem market_fill_wraps :
  let rich := put_account (Sample.addr 1) (MarketSample.with_tokens 1 4000000000 0)
    (put_account (Sample.addr 2) (MarketSample.with_tokens 2 3000000 4000000000) MarketSample.base) in
  let w := MarketSample.step
    (MarketSample.sell 2 MarketSample.token 4000000000 TRX_SYMBOL_BYTES 1) rich in
  let c := MarketSample.sell 1 TRX_SYMBOL_BYTES 3000000000 MarketSample.token 1 in
  trx_inv w ∧
  match apply_contract c w with
  | (Ok _, w') =>
      (λ acc, token_balance acc MarketSample.token) <$> get_account (Sample.addr 1) w'
      = Some (-6446744073709551616)
  | _ => False
  end.
Proof. split; [check_inv|]. vm_compute. reflexivity. Qed.
