(* ===== verification/Chain.v ===== *)
(** * Blocks and transactions (crates/chain/src/lib.rs, crates/crypto/src/lib.rs,
    crates/state/src/blocks.rs)

    Ids, hashes, the transaction Merkle root, signer recovery, and the block store.
    The hash functions, the elliptic-curve library and the protobuf codec are
    third-party code: they are parameters, carried by the classes [Hashes], [Secp]
    and [Encode]. *)

From stdpp Require Import gmap strings pretty numbers fin_maps prelude.
From S2P Require Import Prelude Types Proto State.
Open Scope Z_scope.

(** ** Parameters *)

(** [sha2::Sha256] and [sha3::Keccak256]. *)
Class Hashes := {
  sha256 : bytes → bytes;
  keccak256 : bytes → bytes;
}.
(** Digests are 32 bytes. *)
Class HashLaws `{Hashes} := {
  sha256_length x : length (sha256 x) = 32%nat;
  keccak256_length x : length (keccak256 x) = 32%nat;
  sha256_bytes x : Forall is_byte (sha256 x);
  keccak256_bytes x : Forall is_byte (keccak256 x);
}.

(** [prost::Message::encode_to_vec]. *)
Class Encode (M : Type) := encode_to_vec : M → bytes.
#[global] Hint Mode Encode ! : typeclass_instances.

(** [prost::Message::decode]: the message or the text of the error. *)
Class Decode (M : Type) := decode : bytes → string + M.
#[global] Hint Mode Decode ! : typeclass_instances.

Record RecoverableSignature := mk_signature { rs : bytes; recovery_id : Z }.

(** The [secp256k1] crate: public-key recovery ([None] is any of its errors, the
    invalid recovery id included) and the 65-byte uncompressed serialization. *)
Class Secp := {
  PublicKey : Type;
  secp_recover : bytes → RecoverableSignature → option PublicKey;
  serialize_uncompressed : PublicKey → bytes;
}.

(** The signing half: deterministic recoverable ECDSA signatures. *)
Class SecpSign `{Secp} := {
  SecretKey : Type;
  from_secret_key : SecretKey → PublicKey;
  sign_ecdsa_recoverable : bytes → SecretKey → RecoverableSignature;
}.
(** A signature has 64 bytes and a two-bit recovery id, and recovers to the key that
    made it. *)
Class SecpLaws `{SecpSign} := {
  sign_length d k : length (rs (sign_ecdsa_recoverable d k)) = 64%nat;
  sign_recovery_id d k : 0 ≤ recovery_id (sign_ecdsa_recoverable d k) < 4;
  sign_recover d k : secp_recover d (sign_ecdsa_recoverable d k) = Some (from_secret_key k);
}.

(** ** crypto *)

Section Crypto.
Context `{Hashes} `{Secp}.
Definition sha256d (data : bytes) : bytes := sha256 (sha256 data).
Definition address_from_public_key (pk : PublicKey) : Address :=
  let hash := keccak256 (drop 1 (serialize_uncompressed pk)) in
  ADDRESS_PREFIX :: drop 12 hash.
Definition recover (digest : bytes) (sig : RecoverableSignature) : option PublicKey :=
  secp_recover digest sig.
Definition public_key `{!SecpSign} (sk : SecretKey) : PublicKey := from_secret_key sk.
Definition sign_digest `{!SecpSign} (sk : SecretKey) (digest : bytes) : RecoverableSignature :=
  sign_ecdsa_recoverable digest sk.
End Crypto.

(** ** chain *)

Section Chain.
Context `{Hashes}.

Definition tx_id `{!Encode TxRaw.t} (tx : Transaction.t) : bytes :=
  match Transaction.raw_data tx with
  | Some raw => sha256 (encode_to_vec raw)
  | None => H256_ZERO
  end.
Definition tx_merkle_leaf `{!Encode Transaction.t} (tx : Transaction.t) : bytes :=
  sha256 (encode_to_vec tx).

(** One level of the tree: pairs are hashed, an odd last node is carried up. *)
Fixpoint merkle_level (level : list bytes) : list bytes :=
  match level with
  | l :: r :: rest => sha256 (l ++ r) :: merkle_level rest
  | [odd] => [odd]
  | [] => []
  end.
(** The loop halves the level; as many rounds as there are leaves are enough. *)
Fixpoint merkle_loop (fuel : nat) (level : list bytes) : list bytes :=
  match fuel with
  | O => level
  | S fuel => if bool_decide (1 < length level)%nat then merkle_loop fuel (merkle_level level) else level
  end.
Definition merkle_root (hashes : list bytes) : bytes :=
  if bool_decide (hashes = []) then H256_ZERO
  else default H256_ZERO (head (merkle_loop (length hashes) hashes)).

Definition tx_trie_root `{!Encode Transaction.t} (block : Block.t) : bytes :=
  merkle_root (tx_merkle_leaf <$> Block.transactions block).

Definition header_raw (block : Block.t) : option HeaderRaw.t :=
  Block.block_header block ≫= BlockHeader.raw_data.

Definition block_hash `{!Encode HeaderRaw.t} (block : Block.t) : option bytes :=
  raw ← header_raw block; Some (sha256 (encode_to_vec raw)).
(** The first 8 bytes of the hash are overwritten with the number. *)
Definition block_id (num : Z) (hash : bytes) : bytes := i64_to_be_bytes num ++ drop 8 hash.
Definition block_id_of `{!Encode HeaderRaw.t} (block : Block.t) : option bytes :=
  raw ← header_raw block;
  hash ← block_hash block;
  Some (block_id (HeaderRaw.number raw) hash).

(** [sig.len() == 65], [r || s || v] with [v] plain or offset by 27. *)
Definition parse_signature (sig : bytes) : option RecoverableSignature :=
  if bool_decide (length sig = 65%nat) then
    let v := default 0 (sig !! 64%nat) in
    Some (mk_signature (take 64 sig) (if 27 <=? v then v - 27 else v))
  else None.

Definition recover_witness `{Secp} `{!Encode HeaderRaw.t} (block : Block.t) : option Address :=
  header ← Block.block_header block;
  sig ← parse_signature (BlockHeader.witness_signature header);
  digest ← block_hash block;
  pubkey ← recover digest sig;
  Some (address_from_public_key pubkey).

Definition recover_tx_signer `{Secp} `{!Encode TxRaw.t} (tx : Transaction.t) : option Address :=
  sig ← head (Transaction.signature tx);
  sig ← parse_signature sig;
  pubkey ← recover (tx_id tx) sig;
  Some (address_from_public_key pubkey).

(** [tx_owner_address]: the length-delimited field 1 of the packed contract.  The
    accumulator is a [usize]; shifting by 64 or more, and an end index above
    [usize::MAX], panic. *)
Fixpoint owner_length (bs : bytes) (len shift : Z) (i : Z) : res () (option (Z * Z)) :=
  match bs with
  | [] => Ok None
  | x :: bs =>
      if 64 <=? shift then Panic else
      let len := Z.lor len (wrap_u64 (Z.shiftl (Z.land x 127) shift)) in
      if Z.land x 128 =? 0 then Ok (Some (len, i + 1)) else owner_length bs len (shift + 7) (i + 1)
  end.
Definition tx_owner_address (tx : Transaction.t) : res () (option bytes) :=
  match (raw ← Transaction.raw_data tx; c ← head (TxRaw.contract raw); Contract.parameter c) with
  | None => Ok None
  | Some b =>
      if bool_decide (length b < 2)%nat || negb (bool_decide (head b = Some 10)) then Ok None else
      r ← owner_length (drop 1 b) 0 0 1;
      match r with
      | None => Ok None
      | Some (len, i) =>
          if U64_MAX <? i + len then Panic else
          Ok (if Z.of_nat (length b) <? i + len then None
              else Some (take (Z.to_nat len) (drop (Z.to_nat i) b)))
      end
  end.
End Chain.

(** ** state/blocks.rs *)

Section Blocks.
Context `{Hashes} `{!Encode HeaderRaw.t} `{!Encode TxRaw.t}.

Definition block_number (block : Block.t) : Z :=
  match header_raw block with Some raw => HeaderRaw.number raw | None => 0 end.

Definition put_block (block : Block.t) (w : world) : world :=
  let number := block_number block in
  let w := w <| w_block ::= insert (i64_to_be_bytes number) block |> in
  let w := match block_id_of block with
           | Some id => w <| w_block_index ::= insert id (i64_to_be_bytes number) |>
           | None => w
           end in
  if get_prop_i64 LATEST_BLOCK_NUMBER w <=? number then
    let w := put_prop_i64 LATEST_BLOCK_NUMBER number w in
    match header_raw block with
    | Some raw => put_prop_i64 props.LATEST_BLOCK_HEADER_TIMESTAMP (HeaderRaw.timestamp raw) w
    | None => w
    end
  else w.

Definition get_block_by_num (number : Z) (w : world) : option Block.t :=
  w_block w !! i64_to_be_bytes number.
Definition put_transaction (txid : bytes) (tx : Transaction.t) (w : world) : world :=
  w <| w_transaction ::= insert txid tx |>.
Definition get_transaction (txid : bytes) (w : world) : option Transaction.t :=
  w_transaction w !! txid.
Definition index_block_transactions (block : Block.t) (w : world) : world :=
  foldl (λ w tx, put_transaction (tx_id tx) tx w) w (Block.transactions block).
Definition get_block_by_id (id : bytes) (w : world) : option Block.t :=
  match w_block_index w !! id with
  | Some bs => if bool_decide (length bs = 8%nat) then get_block_by_num (i64_from_be_bytes bs) w else None
  | None => None
  end.
Definition get_now_block (w : world) : option Block.t :=
  get_block_by_num (get_prop_i64 LATEST_BLOCK_NUMBER w) w.
End Blocks.

(** ** The Merkle root *)

(** The tree the root stands for: a perfect left subtree of 2^j leaves and a
    non-empty right subtree with at most as many. *)
Inductive is_root `{Hashes} : list bytes → bytes → Prop :=
| root_leaf x : is_root [x] x
| root_node j l1 l2 h1 h2 :
    length l1 = (2 ^ j)%nat → (0 < length l2 ≤ 2 ^ j)%nat →
    is_root l1 h1 → is_root l2 h2 → is_root (l1 ++ l2) (sha256 (h1 ++ h2)).

Section Merkle.
Context `{Hashes}.
Implicit Types l : list bytes.

(** Induction two elements at a time. *)
Lemma pair_ind (P : list bytes → Prop) :
  P [] → (∀ x, P [x]) → (∀ x y l, P l → P (x :: y :: l)) → ∀ l, P l.
Proof.
  intros H0 H1 H2 l. assert (P l ∧ ∀ x, P (x :: l)) as [? _]; [|done].
  induction l as [|y l [IH1 IH2]]; [auto|]. split; [apply IH2|]. intros x. by apply H2.
Qed.

Lemma merkle_level_length l : (2 * length (merkle_level l) = length l + length l mod 2)%nat.
Proof.
  induction l as [|x|x y l IH] using pair_ind; [done|done|]. cbn [merkle_level length].
  replace (S (S (length l)) mod 2)%nat with (length l mod 2)%nat; [lia|].
  rewrite <-(Nat.Div0.mod_add (length l) 1 2). f_equal. lia.
Qed.
Lemma merkle_level_shorter l :
  (1 < length l → 1 ≤ length (merkle_level l) < length l)%nat.
Proof.
  intros Hl. pose proof (merkle_level_length l). pose proof (Nat.mod_upper_bound (length l) 2).
  lia.
Qed.

(** A level splits where its parent level does. *)
Lemma merkle_level_split l L1 L2 :
  merkle_level l = L1 ++ L2 → L2 ≠ [] →
  ∃ l1 l2, l = l1 ++ l2 ∧ merkle_level l1 = L1 ∧ merkle_level l2 = L2 ∧ length l1 = (2 * length L1)%nat.
Proof.
  revert L1. induction l as [|x|x y l IH] using pair_ind; intros L1 E HL2.
  - exists [], []. destruct L1; simpl in *; by simplify_eq.
  - destruct L1 as [|a L1]; simpl in E; [by exists [], [x]|].
    injection E as <- E. symmetry in E. apply app_nil in E as [-> ->]. done.
  - destruct L1 as [|a L1]; simpl in E; [by exists [], (x :: y :: l)|].
    injection E as <- E. destruct (IH L1 E HL2) as (l1 & l2 & -> & <- & <- & Hl).
    exists (x :: y :: l1), l2. split_and!; try done. simpl. lia.
Qed.

Lemma is_root_level l h : is_root (merkle_level l) h → is_root l h.
Proof.
  intros Hr. remember (merkle_level l) as L eqn:E. revert l E.
  induction Hr as [x|j L1 L2 h1 h2 Hl1 Hl2 Hr1 IH1 Hr2 IH2]; intros l E.
  - destruct l as [|a [|b [|c l]]]; simpl in E; simplify_eq; [constructor| |].
    + apply (root_node 0 [a] [b]); [done|simpl; lia|constructor|constructor].
    + destruct l; simplify_eq.
  - destruct (merkle_level_split l L1 L2) as (l1 & l2 & -> & E1 & E2 & Hlen); [done| |].
    { intros ->. simpl in Hl2. lia. }
    pose proof (merkle_level_length l2) as Hlen2. rewrite E2 in Hlen2.
    pose proof (Nat.mod_upper_bound (length l2) 2).
    apply (root_node (S j)); auto.
    + rewrite Hlen, Hl1. simpl. lia.
    + simpl. assert (length l2 ≠ 0)%nat; [|lia]. intros E0. rewrite E0 in Hlen2. simpl in Hlen2. lia.
Qed.

Lemma merkle_loop_root fuel l :
  l ≠ [] → (length l ≤ S fuel)%nat →
  ∃ x, merkle_loop fuel l = [x] ∧ is_root l x.
Proof.
  revert l. induction fuel as [|fuel IH]; intros l Hl Hf; cbn [merkle_loop].
  - destruct l as [|x [|y l]]; simpl in Hf; [done| |lia]. exists x. split; [done|constructor].
  - case_bool_decide as Hlt.
    + pose proof (merkle_level_shorter l Hlt) as Hs.
      destruct (IH (merkle_level l)) as (x & E & Hx); [|lia|].
      * intros E. rewrite E in Hs. simpl in Hs. lia.
      * exists x. split; [done|]. by apply is_root_level.
    + destruct l as [|x [|y l]]; simpl in Hlt; [done| |lia]. exists x. split; [done|constructor].
Qed.

(** The root is a list of 32 bytes when the leaves are. *)
Definition is_hash (x : bytes) : Prop := length x = 32%nat.

Lemma merkle_level_hashes `{!HashLaws} l : Forall is_hash l → Forall is_hash (merkle_level l).
Proof.
  induction l as [|x|x y l IH] using pair_ind; intros Hl; [done|done|].
  apply Forall_cons_1 in Hl as [_ Hl]. apply Forall_cons_1 in Hl as [_ Hl].
  constructor; [apply sha256_length|auto].
Qed.

(** The inputs hashed for a level, and for the whole tree, level by level. *)
Fixpoint level_inputs l : list bytes :=
  match l with
  | x :: y :: l => (x ++ y) :: level_inputs l
  | _ => []
  end.
Fixpoint loop_inputs (fuel : nat) l : list bytes :=
  match fuel with
  | O => []
  | S fuel =>
      if bool_decide (1 < length l)%nat then level_inputs l ++ loop_inputs fuel (merkle_level l) else []
  end.
Definition tree_inputs l : list bytes := loop_inputs (length l) l.

(** Two lists of inputs differ at a place where their digests agree. *)
Definition collision_in (xs ys : list bytes) : Prop :=
  ∃ i x y, xs !! i = Some x ∧ ys !! i = Some y ∧ x ≠ y ∧ length x = length y ∧ sha256 x = sha256 y.

Lemma collision_in_cons x y xs ys : collision_in xs ys → collision_in (x :: xs) (y :: ys).
Proof. intros (i & Hi). by exists (S i). Qed.
Lemma collision_in_app_l xs ys xs' ys' : collision_in xs ys → collision_in (xs ++ xs') (ys ++ ys').
Proof.
  intros (i & x & y & Hx & Hy & Hc). exists i, x, y.
  by rewrite (lookup_app_l_Some xs xs' i x), (lookup_app_l_Some ys ys' i y).
Qed.
Lemma collision_in_app_r xs ys xs' ys' :
  length xs = length ys → collision_in xs' ys' → collision_in (xs ++ xs') (ys ++ ys').
Proof.
  intros Hl (i & x & y & Hx & Hy & Hc). exists (length xs + i)%nat, x, y.
  rewrite !lookup_app_r by lia. rewrite <-Hl. by replace (length xs + i - length xs)%nat with i by lia.
Qed.

Lemma level_inputs_length l k : length l = length k → length (level_inputs l) = length (level_inputs k).
Proof.
  revert k. induction l as [|x|x y l IH] using pair_ind; intros [|a [|b k]] Hl; simpl in *; try lia.
  f_equal. apply IH. lia.
Qed.

Lemma merkle_level_inj l k :
  length l = length k → Forall is_hash l → Forall is_hash k →
  merkle_level l = merkle_level k → l = k ∨ collision_in (level_inputs l) (level_inputs k).
Proof.
  revert k. induction l as [|x|x y l IH] using pair_ind; intros k Hlen Hl Hk E.
  - left. by destruct k.
  - destruct k as [|a [|b k]]; simpl in *; [done| |lia]. left. congruence.
  - destruct k as [|a [|b k]]; simpl in Hlen; [lia|lia|].
    rewrite !Forall_cons in Hl, Hk. destruct Hl as (Hx & Hy & Hl). destruct Hk as (Ha & Hb & Hk).
    injection E as E1 E2.
    destruct (decide (x ++ y = a ++ b)) as [E|Hne].
    + apply app_inj_1 in E as [-> ->]; [|by rewrite Hx, Ha].
      destruct (IH k ltac:(lia) Hl Hk E2) as [->|Hc]; [by left|right; by apply collision_in_cons].
    + right. exists 0%nat, (x ++ y), (a ++ b). rewrite !length_app. split_and!; [done|done|done|congruence|done].
Qed.

Lemma merkle_loop_inj `{!HashLaws} fuel l k :
  length l = length k → Forall is_hash l → Forall is_hash k →
  merkle_loop fuel l = merkle_loop fuel k → l = k ∨ collision_in (loop_inputs fuel l) (loop_inputs fuel k).
Proof.
  revert l k. induction fuel as [|fuel IH]; intros l k Hlen Hl Hk E; [by left|].
  cbn [merkle_loop loop_inputs] in *. rewrite <-Hlen in *. case_bool_decide; [|by left].
  assert (Hlen' : length (merkle_level l) = length (merkle_level k)).
  { pose proof (merkle_level_length l). pose proof (merkle_level_length k). rewrite Hlen in *. lia. }
  destruct (IH _ _ Hlen' (merkle_level_hashes _ Hl) (merkle_level_hashes _ Hk) E) as [E'|Hc].
  - destruct (merkle_level_inj l k) as [->|Hc]; [done..|by left|right; by apply collision_in_app_l].
  - right. apply collision_in_app_r; [by apply level_inputs_length|done].
Qed.
End Merkle.

(** The Merkle root is the root of the tree java-tron builds, whose left
    subtrees are perfect and whose odd nodes are carried up unchanged; the loop
    always ends within as many rounds as there are leaves. *)
Theorem merkle_root_is_root `{Hashes} (leaves : list bytes) :
  match leaves with
  | [] => merkle_root leaves = H256_ZERO
  | _ => is_root leaves (merkle_root leaves)
  end.
Proof.
  destruct leaves as [|x l]; [done|]. unfold merkle_root.
  rewrite bool_decide_eq_false_2 by done.
  destruct (merkle_loop_root (length (x :: l)) (x :: l)) as (r & E & Hr); [done|lia|].
  rewrite E. exact Hr.
Qed.

(** C34: the Merkle root binds the transactions.  Two lists of equal length whose elements are
    32-byte hashes and whose roots agree are equal, or the two trees show a SHA-256
    collision: at one place of the two computations different inputs of equal length were
    hashed to the same digest. *)
Theorem merkle_root_binding `{HashLaws} (l k : list bytes) :
  length l = length k → Forall is_hash l → Forall is_hash k →
  merkle_root l = merkle_root k → l = k ∨ collision_in (tree_inputs l) (tree_inputs k).
Proof.
  intros Hlen Hl Hk E. destruct l as [|x l], k as [|y k]; try done; [by left|].
  unfold merkle_root in E. rewrite !bool_decide_eq_false_2 in E by done.
  destruct (merkle_loop_root (length (x :: l)) (x :: l)) as (r & E1 & _); [done|lia|].
  destruct (merkle_loop_root (length (y :: k)) (y :: k)) as (s & E2 & _); [done|lia|].
  rewrite E1, E2 in E. simpl in E. subst s. rewrite <-Hlen in E2. unfold tree_inputs. rewrite <-Hlen.
  apply (merkle_loop_inj (length (x :: l))); try done. congruence.
Qed.

(** A concrete hash for evaluation: not collision-free, of the right length. *)
Definition toy_digest (x : bytes) : bytes := replicate 31 0 ++ [sum_list (λ b, b) x mod 256].
#[local] Instance toy_hashes : Hashes := {| sha256 := toy_digest; keccak256 := toy_digest |}.
Lemma toy_digest_bytes x : Forall is_byte (toy_digest x).
Proof.
  apply Forall_app. split; [by apply Forall_replicate|]. apply Forall_singleton.
  unfold is_byte. apply Z.mod_pos_bound. lia.
Qed.
#[local] Instance toy_hash_laws : HashLaws.
Proof. split; intros x; [reflexivity..|apply toy_digest_bytes|apply toy_digest_bytes]. Defined.

Lemma merkle_root_binding_witness :
  let a := replicate 32 1 in let b := replicate 32 2 in
  merkle_root [a; b; a] = merkle_root [b; a; a] ∧
  ([a; b; a] = [b; a; a] ∨ collision_in (tree_inputs [a; b; a]) (tree_inputs [b; a; a])).
Proof.
  intros a b. split; [vm_compute; reflexivity|].
  apply merkle_root_binding; [reflexivity|repeat constructor|repeat constructor|vm_compute; reflexivity].
Defined.

(** ** The block store *)

Section BlockStore.
Context `{Hashes} `{!Encode HeaderRaw.t} `{!Encode TxRaw.t}.
Implicit Types (w : world) (block : Block.t).

(** The fields [put_block] writes apart from the properties. *)
Lemma put_block_maps block w :
  w_block (put_block block w) = <[i64_to_be_bytes (block_number block) := block]> (w_block w) ∧
  w_block_index (put_block block w) =
    match block_id_of block with
    | Some id => <[id := i64_to_be_bytes (block_number block)]> (w_block_index w)
    | None => w_block_index w
    end ∧
  w_account (put_block block w) = w_account w ∧ w_exchange (put_block block w) = w_exchange w ∧
  w_delegation (put_block block w) = w_delegation w ∧
  w_market_order (put_block block w) = w_market_order w.
Proof.
  unfold put_block. destruct (block_id_of block); destruct (_ <=? _); destruct (header_raw block); done.
Qed.

Lemma put_block_props k block w :
  get_prop_i64 k (put_block block w) =
  if get_prop_i64 LATEST_BLOCK_NUMBER w <=? block_number block then
    if bool_decide (k = props.LATEST_BLOCK_HEADER_TIMESTAMP) then
      match header_raw block with
      | Some raw => wrap_i64 (HeaderRaw.timestamp raw)
      | None => get_prop_i64 k w
      end
    else if bool_decide (k = LATEST_BLOCK_NUMBER) then wrap_i64 (block_number block)
    else get_prop_i64 k w
  else get_prop_i64 k w.
Proof.
  unfold put_block. set (w1 := match block_id_of block with Some _ => _ | None => _ end).
  assert (Hp : ∀ k, get_prop_i64 k w1 = get_prop_i64 k w)
    by (intros; unfold w1; by destruct (block_id_of block)).
  rewrite (Hp LATEST_BLOCK_NUMBER). destruct (_ <=? _); [|apply Hp].
  case_bool_decide as Ht; [subst k; destruct (header_raw block)|].
  - apply get_put_prop_wrap.
  - rewrite get_put_prop_ne by done. apply Hp.
  - assert (E : get_prop_i64 k (match header_raw block with
      | Some raw => put_prop_i64 props.LATEST_BLOCK_HEADER_TIMESTAMP (HeaderRaw.timestamp raw)
          (put_prop_i64 LATEST_BLOCK_NUMBER (block_number block) w1)
      | None => put_prop_i64 LATEST_BLOCK_NUMBER (block_number block) w1
      end) = get_prop_i64 k (put_prop_i64 LATEST_BLOCK_NUMBER (block_number block) w1)).
    { destruct (header_raw block); [|done]. rewrite get_put_prop_ne; [done|]. congruence. }
    rewrite E. case_bool_decide as Hn; [subst k; apply get_put_prop_wrap|].
    rewrite get_put_prop_ne by congruence. apply Hp.
Qed.

Lemma put_block_head block w :
  is_i64 (block_number block) →
  get_prop_i64 LATEST_BLOCK_NUMBER (put_block block w)
    = Z.max (get_prop_i64 LATEST_BLOCK_NUMBER w) (block_number block).
Proof.
  intros Hn. rewrite put_block_props. rewrite bool_decide_eq_false_2, bool_decide_eq_true_2 by done.
  rewrite wrap_i64_id by done.
  destruct (Z.leb_spec (get_prop_i64 LATEST_BLOCK_NUMBER w) (block_number block)); lia.
Qed.
Lemma put_block_lookup_eq block w :
  get_block_by_num (block_number block) (put_block block w) = Some block.
Proof.
  unfold get_block_by_num. destruct (put_block_maps block w) as (-> & _). apply lookup_insert_eq.
Qed.
Lemma put_block_lookup_ne n block w :
  is_i64 (block_number block) → is_i64 n → n ≠ block_number block →
  get_block_by_num n (put_block block w) = get_block_by_num n w.
Proof.
  intros Hn Hi Hne. unfold get_block_by_num. destruct (put_block_maps block w) as (-> & _).
  apply lookup_insert_ne. intros E. apply i64_to_be_bytes_inj in E; congruence.
Qed.

(** The block store.  A stored block is found by its number and by its id, the
    head number is the largest stored, the block that advances the head is the
    current block, and blocks stored under other numbers are unaffected. *)
Theorem block_store_lookup block w :
  is_i64 (block_number block) →
  let w' := put_block block w in
  get_block_by_num (block_number block) w' = Some block ∧
  (∀ n, is_i64 n → n ≠ block_number block → get_block_by_num n w' = get_block_by_num n w) ∧
  get_prop_i64 LATEST_BLOCK_NUMBER w'
    = Z.max (get_prop_i64 LATEST_BLOCK_NUMBER w) (block_number block) ∧
  (get_prop_i64 LATEST_BLOCK_NUMBER w ≤ block_number block → get_now_block w' = Some block) ∧
  (∀ id, block_id_of block = Some id → get_block_by_id id w' = Some block).
Proof.
  intros Hn w'. destruct (put_block_maps block w) as (_ & Ei & _). fold w' in Ei.
  pose proof (put_block_head block w Hn) as Hhead. pose proof (put_block_lookup_eq block w) as Hget.
  fold w' in Hhead, Hget. split_and!; [done| |done| |].
  - intros n Hin Hne. by apply put_block_lookup_ne.
  - intros Hle. unfold get_now_block. rewrite Hhead, Z.max_r by done. done.
  - intros id Eid. unfold get_block_by_id. rewrite Ei, Eid, lookup_insert_eq.
    rewrite bool_decide_eq_true_2 by apply i64_to_be_bytes_length. by rewrite i64_be_roundtrip.
Qed.
End BlockStore.

Module BlockSample.
Definition block (n t : Z) : Block.t :=
  Block.mk [] (Some (BlockHeader.mk (Some (HeaderRaw.default <| HeaderRaw.number := n |>
    <| HeaderRaw.timestamp := t |>)) [])).
#[export] Instance encode_header : Encode HeaderRaw.t := λ h, i64_to_be_bytes (HeaderRaw.number h).
#[export] Instance encode_raw : Encode TxRaw.t := λ r, TxRaw.data r.
End BlockSample.

Lemma block_store_lookup_witness :
  let b := BlockSample.block 7 3000 in
  get_now_block (put_block (Encode0 := BlockSample.encode_header) b empty_world) = Some b.
Proof.
  intros b.
  destruct (block_store_lookup (Encode0 := BlockSample.encode_header) b empty_world)
    as (_ & _ & _ & Hnow & _); [apply (bool_decide_unpack _); vm_compute; exact I|].
  apply Hnow. vm_compute. discriminate.
Defined.
