(* ===== verification/Consensus.v ===== *)
(** * Consensus rules (crates/consensus/src/lib.rs, election.rs, fork.rs, pbft.rs, reward.rs)

    The pure parts of the DPoS and PBFT rules: slots and the producer schedule, the
    ranking of witnesses, the choice between branches and the reorganisation it takes,
    the PBFT quorum with the message that carries a commit, and the split of a block
    reward.  Unchecked [i64]/[u64] arithmetic returns [Panic] when it overflows. *)

From stdpp Require Import gmap strings pretty numbers fin_maps prelude sorting.
From S2P Require Import Prelude Types Chain.
Open Scope Z_scope.

(** ** Slots and maintenance times (lib.rs) *)

Definition MAX_ACTIVE_WITNESSES : nat := 27.
Definition WITNESS_STANDBY_LENGTH : nat := 127.
Definition BLOCK_INTERVAL_MS : Z := 3000.
Definition MAINTENANCE_PERIOD_MS : Z := 21600000.
Definition WITNESS_PAY_PER_BLOCK_SUN : Z := 32000000.
Definition SINGLE_REPEAT : Z := 1.

Definition slot_of (block_time_ms genesis_time_ms : Z) : Z :=
  if block_time_ms <=? genesis_time_ms then 0
  else (block_time_ms - genesis_time_ms) / BLOCK_INTERVAL_MS.

Definition next_maintenance_time (current_maintenance_time block_time : Z) : res () Z :=
  let interval := MAINTENANCE_PERIOD_MS in
  d ← sub_i64 block_time current_maintenance_time;
  let round := div_i64 d interval in
  r1 ← add_i64 round 1;
  m ← mul_i64 r1 interval;
  add_i64 current_maintenance_time m.

Definition need_maintenance (next_maintenance_time block_time : Z) : bool :=
  next_maintenance_time <=? block_time.

Definition scheduled_witness (active : list bytes) (head_abs_slot slot : Z) : res () (option bytes) :=
  if bool_decide (active = []) then Ok None else
  current ← add_u64 head_abs_slot slot;
  m ← mul_u64 (Z.of_nat (length active)) SINGLE_REPEAT;
  let idx := (current mod m) / SINGLE_REPEAT in
  Ok (active !! Z.to_nat idx).

(** ** Election (election.rs) *)

(** [<[u8] as Ord>::cmp]: lexicographic, a proper prefix is smaller. *)
Fixpoint bytes_cmp (a b : bytes) : comparison :=
  match a, b with
  | [], [] => Eq
  | [], _ :: _ => Lt
  | _ :: _, [] => Gt
  | x :: a, y :: b => match x ?= y with Eq => bytes_cmp a b | c => c end
  end.

(** An entry is an address with its vote count. *)
Abbreviation entry := (bytes * Z)%type.

Definition cmp_witness (a b : entry) : comparison :=
  match b.2 ?= a.2 with Eq => bytes_cmp b.1 a.1 | c => c end.

(** [slice::sort_by]: a sort by the comparator.  Entries it calls equal are equal, so
    the result does not depend on the algorithm. *)
Definition ranks_before (a b : entry) : Prop := cmp_witness a b ≠ Gt.
#[export] Instance ranks_before_dec a b : Decision (ranks_before a b).
Proof. unfold ranks_before. apply _. Defined.
Definition sort_by_witness (l : list entry) : list entry := merge_sort ranks_before l.

Definition rank_witnesses (votes : list entry) : list Address := (sort_by_witness votes).*1.

(** ** Fork choice (fork.rs) *)

Record Head := mk_head { number : Z; weight : Z }.

Definition should_switch (current candidate : Head) : bool :=
  match number candidate ?= number current with
  | Gt => true
  | Lt => false
  | Eq => weight current <? weight candidate
  end.

Record Reorg := mk_reorg { common_ancestor : bytes; revert : list bytes; apply : list bytes }.

(** The loop that advances [fork] while the ids agree. *)
Fixpoint fork_point (ours theirs : list bytes) : nat :=
  match ours, theirs with
  | a :: ours, b :: theirs => if bool_decide (a = b) then S (fork_point ours theirs) else O
  | _, _ => O
  end.

Definition compute_reorg (ours theirs : list bytes) : Reorg :=
  let fork := fork_point ours theirs in
  mk_reorg (match fork with O => [] | S k => default [] (ours !! k) end)
    (reverse (drop fork ours)) (drop fork theirs).

(** ** PBFT finality (pbft.rs) *)

Module PbftCommit.
Record t := mk { block_num : Z; block_id : bytes; signature : bytes }.
Definition ENCODED_LEN : nat := 8 + 32 + 65.
Section Commit.
Context `{Hashes}.
Definition digest (block_num : Z) (block_id : bytes) : bytes :=
  sha256 (i64_to_be_bytes block_num ++ block_id).
Definition encode (c : t) : bytes := i64_to_be_bytes (block_num c) ++ block_id c ++ signature c.
Definition decode (bs : bytes) : option t :=
  if negb (bool_decide (length bs = ENCODED_LEN)) then None
  else Some (mk (i64_from_be_bytes (take 8 bs)) (take 32 (drop 8 bs)) (drop 40 bs)).
Definition recover_signer `{Secp} (c : t) : option Address :=
  let d := digest (block_num c) (block_id c) in
  let v := default 0 (signature c !! 64%nat) in
  let rid := if 27 <=? v then v - 27 else v in
  address_from_public_key <$> recover d (mk_signature (take 64 (signature c)) rid).
End Commit.
End PbftCommit.

Definition finality_threshold (total : nat) : nat := ((2 * total) / 3 + 1)%nat.
Definition default_threshold : nat := finality_threshold MAX_ACTIVE_WITNESSES.
Definition is_finalized (confirmations total_srs : nat) : bool :=
  bool_decide (finality_threshold total_srs ≤ confirmations)%nat.

(** [while n <= head]: one round per block number. *)
Fixpoint solidified_loop (fuel : nat) (confirmations : gmap Z nat) (head : Z) (total_srs : nat)
    (solid : option Z) (n : Z) : option Z :=
  match fuel with
  | O => solid
  | S fuel =>
      if n <=? head then
        match confirmations !! n with
        | Some c =>
            if is_finalized c total_srs
            then solidified_loop fuel confirmations head total_srs (Some n) (n + 1)
            else solid
        | None => solid
        end
      else solid
  end.
Definition solidified_block (confirmations : gmap Z nat) (head : Z) (total_srs : nat) : option Z :=
  solidified_loop (Z.to_nat head) confirmations head total_srs None 1.

Definition MAX_PBFT_FUTURE_BLOCKS : Z := 1024.
Definition accept_pbft_message (allow_pbft : bool) (block_num head solidified : Z) : bool :=
  allow_pbft && (solidified <? block_num)
  && (block_num <=? saturating_add head MAX_PBFT_FUTURE_BLOCKS).
Definition prune_below_solidified (confirmations : gmap Z nat) (solidified : Z) : gmap Z nat :=
  filter (λ kv, solidified ≤ kv.1) confirmations.
Definition record_confirmation (confirmations : gmap Z nat) (allow_pbft : bool)
    (block_num head solidified : Z) : gmap Z nat * bool :=
  if negb (accept_pbft_message allow_pbft block_num head solidified) then (confirmations, false)
  else (<[block_num := S (default O (confirmations !! block_num))]> confirmations, true).

(** ** Block rewards (reward.rs) *)

Definition DEFAULT_BROKERAGE : Z := 20.

Definition split_reward (value brokerage : Z) : res () (Z * Z) :=
  let brokerage := Z.max 0 (Z.min 100 brokerage) in
  let witness_cut := div_i64 (saturating_mul value brokerage) 100 in
  rest ← sub_i64 value witness_cut;
  Ok (witness_cut, rest).

(** [as i128] arithmetic: no product or sum of [i64] values overflows it. *)
Definition distribute_to_voters (pool : Z) (votes : list entry) : list entry :=
  let total := sum_list snd votes in
  if (total <=? 0) || (pool <=? 0) then (λ v, (v.1, 0)) <$> votes
  else (λ v, (v.1, wrap_i64 (Z.quot (pool * v.2) total))) <$> votes.

(** ** The election order *)

Section Order.
Implicit Types (a b c : bytes) (x y z : entry) (l k : list entry).

Lemma bytes_cmp_eq a b : bytes_cmp a b = Eq ↔ a = b.
Proof.
  revert b. induction a as [|x a IH]; intros [|y b]; simpl; try done.
  destruct (Z.compare_spec x y) as [->|?|?].
  - rewrite IH. split; [by intros ->|by intros [= ->]].
  - split; [done|]. intros [= -> ->]. lia.
  - split; [done|]. intros [= -> ->]. lia.
Qed.
Lemma bytes_cmp_antisym a b : bytes_cmp b a = CompOpp (bytes_cmp a b).
Proof.
  revert b. induction a as [|x a IH]; intros [|y b]; simpl; try done.
  rewrite (Z.compare_antisym x y). destruct (x ?= y); simpl; [apply IH|done..].
Qed.
Lemma bytes_cmp_trans a b c : bytes_cmp a b ≠ Gt → bytes_cmp b c ≠ Gt → bytes_cmp a c ≠ Gt.
Proof.
  revert b c. induction a as [|x a IH]; intros [|y b] [|z c]; simpl; try done.
  destruct (Z.compare_spec x y), (Z.compare_spec y z), (Z.compare_spec x z); try done; try lia.
  apply IH.
Qed.

Lemma cmp_witness_eq x y : cmp_witness x y = Eq ↔ x = y.
Proof.
  unfold cmp_witness. destruct x as [a v], y as [b u]; simpl. destruct (Z.compare_spec u v) as [->|?|?].
  - rewrite bytes_cmp_eq. split; [by intros ->|by intros [= ->]].
  - split; [done|]. intros [= -> ->]. lia.
  - split; [done|]. intros [= -> ->]. lia.
Qed.
Lemma cmp_witness_antisym x y : cmp_witness y x = CompOpp (cmp_witness x y).
Proof.
  unfold cmp_witness. rewrite (Z.compare_antisym y.2 x.2).
  destruct (y.2 ?= x.2); simpl; [apply bytes_cmp_antisym|done..].
Qed.

#[local] Instance ranks_before_trans : Transitive ranks_before.
Proof.
  intros [a u] [b v] [c t]. unfold ranks_before, cmp_witness. simpl.
  destruct (Z.compare_spec v u), (Z.compare_spec t v), (Z.compare_spec t u); try done; try lia.
  intros. by eapply bytes_cmp_trans.
Qed.
#[local] Instance ranks_before_total : Total ranks_before.
Proof.
  intros x y. unfold ranks_before. rewrite (cmp_witness_antisym x y).
  destruct (cmp_witness x y); [left|left|right]; done.
Qed.
#[local] Instance ranks_before_antisymm : AntiSymm (=) ranks_before.
Proof.
  intros x y. unfold ranks_before. rewrite (cmp_witness_antisym x y). intros H1 H2.
  apply cmp_witness_eq. by destruct (cmp_witness x y).
Qed.

Lemma sort_by_witness_sorted l : StronglySorted ranks_before (sort_by_witness l).
Proof. apply (StronglySorted_merge_sort _). Qed.
Lemma sort_by_witness_perm l : sort_by_witness l ≡ₚ l.
Proof. apply merge_sort_Permutation. Qed.
Lemma sort_by_witness_unique l k : l ≡ₚ k → StronglySorted ranks_before k → sort_by_witness l = k.
Proof.
  intros Hp Hs. apply (StronglySorted_unique ranks_before); [|done|].
  - apply sort_by_witness_sorted.
  - by rewrite sort_by_witness_perm.
Qed.
Lemma sort_by_witness_perm_eq l k : l ≡ₚ k → sort_by_witness l = sort_by_witness k.
Proof.
  intros Hp. apply sort_by_witness_unique; [|apply sort_by_witness_sorted].
  by rewrite sort_by_witness_perm.
Qed.
End Order.

(** ** Reorganisations *)

Section Fork.
Implicit Types (ours theirs : list bytes).

Lemma fork_point_spec ours theirs :
  let n := fork_point ours theirs in
  take n ours = take n theirs ∧ (n ≤ length ours)%nat ∧ (n ≤ length theirs)%nat ∧
  ∀ a b, head (drop n ours) = Some a → head (drop n theirs) = Some b → a ≠ b.
Proof.
  revert theirs. induction ours as [|a ours IH]; intros [|b theirs]; simpl; try by split_and!; [|lia..|].
  case_bool_decide as E; simpl.
  - destruct (IH theirs) as (H1 & H2 & H3 & H4). split_and!; [congruence|lia|lia|done].
  - split_and!; [done|lia|lia|]. by intros ? ? [= <-] [= <-].
Qed.
End Fork.

(** Fork choice.  Switching is a strict order on heads: it never holds of a head and
    itself, never both ways, composes, and two heads between which it does not choose have
    equal height and weight, so nodes that see the same heads settle on the same one.  The
    reorganisation it takes is exact: both branches share the prefix that ends in the common
    ancestor and nothing more, rolling back the reverted ids newest first and applying the
    others in order turns one branch into the other. *)
Theorem fork_choice_reorg (ours theirs : list bytes) (h1 h2 h3 : Head) :
  should_switch h1 h1 = false ∧
  (should_switch h1 h2 = true → should_switch h2 h1 = false) ∧
  (should_switch h1 h2 = true → should_switch h2 h3 = true → should_switch h1 h3 = true) ∧
  (should_switch h1 h2 = false → should_switch h2 h1 = false → h1 = h2) ∧
  let r := compute_reorg ours theirs in
  ∃ common, ours = common ++ reverse (revert r) ∧ theirs = common ++ apply r ∧
    common_ancestor r = default [] (last common) ∧
    ∀ a b, last (revert r) = Some a → head (apply r) = Some b → a ≠ b.
Proof.
  split_and!.
  - unfold should_switch. rewrite Z.compare_refl. lia.
  - unfold should_switch. destruct (Z.compare_spec (number h2) (number h1)),
      (Z.compare_spec (number h1) (number h2)); lia.
  - unfold should_switch. destruct (Z.compare_spec (number h2) (number h1)),
      (Z.compare_spec (number h3) (number h2)), (Z.compare_spec (number h3) (number h1)); lia.
  - unfold should_switch. destruct h1 as [n1 w1], h2 as [n2 w2]. simpl.
    destruct (Z.compare_spec n2 n1), (Z.compare_spec n1 n2); try lia; try done. intros. f_equal; lia.
  - destruct (fork_point_spec ours theirs) as (Ht & Ho & _ & Hd).
    unfold compute_reorg. cbn [revert apply common_ancestor].
    set (n := fork_point ours theirs) in *. exists (take n ours).
    rewrite reverse_involutive. split_and!.
    + by rewrite take_drop.
    + rewrite Ht. by rewrite take_drop.
    + destruct n as [|k]; [done|]. rewrite last_lookup, length_take, Nat.min_l by lia.
      simpl. by rewrite lookup_take_lt by lia.
    + intros a b. rewrite last_reverse. apply Hd.
Qed.

(** ** Quorums *)

Section Quorum.
Implicit Types (active A B : list bytes).

(** How many elements two subsets of a set must share. *)
Lemma filter_overlap (P Q : bytes → Prop) `{!∀ x, Decision (P x)} `{!∀ x, Decision (Q x)} active :
  (length (filter P active) + length (filter Q active)
   ≤ length active + length (filter (λ x, P x ∧ Q x) active))%nat.
Proof.
  induction active as [|x l IH]; [done|]. rewrite !filter_cons.
  repeat case_decide; simpl; try lia; naive_solver.
Qed.

Lemma members_filter active A :
  NoDup A → (∀ x, x ∈ A → x ∈ active) → (length A ≤ length (filter (λ x, x ∈ A) active))%nat.
Proof.
  intros HA Hs. apply submseteq_length, NoDup_submseteq; [done|].
  intros x Hx. apply list_elem_of_filter. split; [done|by apply Hs].
Qed.
End Quorum.

Lemma solidified_loop_spec confirmations head total fuel solid n :
  (Z.to_nat (head - n + 1) ≤ fuel)%nat →
  let ok i := ∃ c, confirmations !! i = Some c ∧ is_finalized c total = true in
  ∃ m, n ≤ m + 1 ∧ (∀ i, n ≤ i ≤ m → i ≤ head ∧ ok i) ∧ (m < head → ¬ ok (m + 1)) ∧
    solidified_loop fuel confirmations head total solid n = (if n <=? m then Some m else solid).
Proof.
  intros Hf ok. revert solid n Hf. induction fuel as [|fuel IH]; intros solid n Hf.
  { exists (n - 1). split_and!; [lia|lia|lia|]. by rewrite (proj2 (Z.leb_gt n (n - 1))) by lia. }
  assert (Hstop : ¬ (n ≤ head ∧ ok n) → ∃ m, n ≤ m + 1 ∧ (∀ i, n ≤ i ≤ m → i ≤ head ∧ ok i) ∧
    (m < head → ¬ ok (m + 1)) ∧ solid = (if n <=? m then Some m else solid)).
  { intros Hno. exists (n - 1). split_and!; [lia|lia| |].
    - intros Hlt Hok. apply Hno. split; [lia|]. by replace (n - 1 + 1) with n in Hok by lia.
    - by rewrite (proj2 (Z.leb_gt n (n - 1))) by lia. }
  simpl. destruct (Z.leb_spec n head) as [Hn|Hn]; [|apply Hstop; lia].
  destruct (confirmations !! n) as [c|] eqn:Ec; [|apply Hstop; unfold ok; naive_solver].
  destruct (is_finalized c total) eqn:Ef; [|apply Hstop; unfold ok; naive_solver congruence].
  destruct (IH (Some n) (n + 1)) as (m & H1 & H2 & H3 & ->); [lia|].
  exists m. split_and!; [lia| |done|].
  - intros i Hi. destruct (decide (i = n)) as [->|]; [split; [lia|by exists c]|apply H2; lia].
  - destruct (Z.leb_spec (n + 1) m), (Z.leb_spec n m); try done; try lia. f_equal. lia.
Qed.

(** Members of a list that lie outside another one. *)
Lemma filter_outside (P : bytes → Prop) `{!∀ x, Decision (P x)} active (F : list bytes) :
  NoDup active → (length F < length (filter P active))%nat → ∃ x, x ∈ active ∧ P x ∧ x ∉ F.
Proof.
  intros Hd Hl. destruct (decide (Exists (λ x, x ∉ F) (filter P active))) as [He|He].
  - apply Exists_exists in He as (x & Hx & Hn). apply list_elem_of_filter in Hx as [HP Hx]. by exists x.
  - apply not_Exists_Forall in He; [|solve_decision]. exfalso.
    enough (length (filter P active) ≤ length F)%nat by lia.
    apply submseteq_length, NoDup_submseteq; [by apply NoDup_filter|]. intros x Hx.
    rewrite Forall_forall in He. destruct (decide (x ∈ F)); [done|]. by destruct (He x Hx).
Qed.

(** C29: quorums and finality.  For 27 witnesses a quorum is 19.  For an active set without
    repetitions, any two sets of distinct active witnesses that both reach the quorum share
    more than a third of the active set, so outside any set of at most a third of it there is
    still an active witness that is in both.  The solidified block is read off the number of
    confirmations counted for each height up to the head: it is the end of the longest run of
    heights from 1 whose count reaches the quorum, every height of the run does and the next
    one, if within the head, does not; there is none exactly when the head is below 1 or the
    count of height 1 does not reach the quorum. *)
Theorem pbft_quorum (active A B F : list bytes) (confirmations : gmap Z nat) (head : Z) (total : nat) :
  default_threshold = 19%nat ∧
  (NoDup active → NoDup A → NoDup B → (∀ x, x ∈ A → x ∈ active) → (∀ x, x ∈ B → x ∈ active) →
   is_finalized (length A) (length active) = true → is_finalized (length B) (length active) = true →
   (length active < 3 * length (filter (λ x, x ∈ A ∧ x ∈ B) active))%nat ∧
   ((3 * length F ≤ length active)%nat → ∃ x, x ∈ active ∧ (x ∈ A ∧ x ∈ B) ∧ x ∉ F)) ∧
  let final i := ∃ c, confirmations !! i = Some c ∧ is_finalized c total = true in
  match solidified_block confirmations head total with
  | Some m => 1 ≤ m ≤ head ∧ (∀ i, 1 ≤ i ≤ m → final i) ∧ (m < head → ¬ final (m + 1))
  | None => ¬ (1 ≤ head ∧ final 1)
  end.
Proof.
  split_and!; [done| |].
  - intros Hd HA HB HsA HsB FA FB. unfold is_finalized in *. rewrite bool_decide_eq_true in FA, FB.
    assert (length active < 3 * length (filter (λ x, x ∈ A ∧ x ∈ B) active))%nat as Hq.
    { unfold finality_threshold in *.
      pose proof (filter_overlap (λ x, x ∈ A) (λ x, x ∈ B) active).
      pose proof (members_filter active A HA HsA). pose proof (members_filter active B HB HsB).
      pose proof (Nat.div_mod (2 * length active) 3). pose proof (Nat.mod_upper_bound (2 * length active) 3).
      lia. }
    split; [done|]. intros HF. apply (filter_outside (λ x, x ∈ A ∧ x ∈ B)); [done|lia].
  - intros final. unfold solidified_block.
    destruct (solidified_loop_spec confirmations head total (Z.to_nat head) None 1) as (m & H1 & H2 & H3 & ->);
      [lia|].
    destruct (Z.leb_spec 1 m).
    + split_and!; [lia|by apply H2; lia| |done]. intros i Hi. by apply H2.
    + intros [Hh Hf]. assert (m = 0) as -> by lia. apply H3; [lia|done].
Qed.

(** Four witnesses, two quorums of three: outside a single witness they still share one. *)
Lemma pbft_quorum_witness :
  (∃ x, x ∈ [[1]; [2]; [3]; [4]] ∧ (x ∈ [[1]; [2]; [3]] ∧ x ∈ [[2]; [3]; [4]]) ∧ x ∉ [[2]]) ∧
  solidified_block {[ 1 := 3%nat; 2 := 3%nat; 4 := 4%nat ]} 5 4 = Some 2.
Proof.
  split; [|by vm_compute].
  destruct (pbft_quorum [[1]; [2]; [3]; [4]] [[1]; [2]; [3]] [[2]; [3]; [4]] [[2]] ∅ 0 0) as (_ & Hq & _).
  apply Hq; try (apply (bool_decide_unpack _); by vm_compute); intros x Hx; set_solver.
Defined.

(** A PBFT commit message is 105 bytes and survives the wire: decoding an encoded commit
    gives it back, and every accepted message is the encoding of what it decodes to. *)
Lemma pbft_decode_encode (n : Z) (id sig : bytes) :
  is_i64 n → length id = 32%nat → length sig = 65%nat →
  PbftCommit.decode (PbftCommit.encode (PbftCommit.mk n id sig)) = Some (PbftCommit.mk n id sig).
Proof.
  intros Hn Hi Hs. unfold PbftCommit.encode, PbftCommit.decode.
  cbn [PbftCommit.block_num PbftCommit.block_id PbftCommit.signature].
  assert (Hl : length (i64_to_be_bytes n) = 8%nat) by apply i64_to_be_bytes_length.
  rewrite bool_decide_eq_true_2 by (rewrite !length_app, Hl, Hi, Hs; done). cbn [negb]. do 2 f_equal.
  - rewrite take_app_length' by done. by apply i64_be_roundtrip.
  - rewrite drop_app_length' by done. by apply take_app_length'.
  - rewrite app_assoc. apply drop_app_length'. rewrite length_app. lia.
Qed.

Lemma pbft_encode_decode (bs : bytes) c :
  Forall is_byte bs → PbftCommit.decode bs = Some c → PbftCommit.encode c = bs.
Proof.
  intros Hb. unfold PbftCommit.decode. case_bool_decide as Hl; [|done]. intros [= <-].
  unfold PbftCommit.encode, PbftCommit.ENCODED_LEN in *.
  cbn [PbftCommit.block_num PbftCommit.block_id PbftCommit.signature].
  rewrite i64_to_from_be_bytes by (try apply Forall_take; rewrite ?length_take; done || lia).
  change 40%nat with (8 + 32)%nat. by rewrite <-drop_drop, !take_drop.
Qed.

(** ** Rewards *)

Section Rewards.
Implicit Types votes : list entry.

Lemma sum_list_fmap {A B} (g : A → B) (f : B → Z) (l : list A) :
  sum_list f (g <$> l) = sum_list (λ x, f (g x)) l.
Proof. induction l as [|x l IH]; simpl; [done|]. by rewrite <-IH. Qed.
Lemma sum_list_zero {A} (l : list A) : sum_list (λ _, 0) l = 0.
Proof. by induction l. Qed.

Lemma shares_bound (pool total : Z) votes :
  0 ≤ pool → 0 < total → Forall (λ v, 0 ≤ v.2) votes →
  let share v := Z.quot (pool * v.2) total in
  Forall (λ v, 0 ≤ share v) votes ∧
  total * sum_list share votes ≤ pool * sum_list snd votes ∧
  pool * sum_list snd votes ≤ total * sum_list share votes + (total - 1) * Z.of_nat (length votes).
Proof.
  intros Hp Ht Hv share. induction Hv as [|v votes Hv _ IH]; [split_and!; [done|simpl; lia..]|].
  destruct IH as (H1 & H2 & H3).
  assert (share v = (pool * v.2) / total) as E by (apply Z.quot_div_nonneg; nia).
  pose proof (Z.div_mod (pool * v.2) total). pose proof (Z.mod_pos_bound (pool * v.2) total Ht).
  assert (0 ≤ share v) by (rewrite E; apply Z.div_pos; nia).
  split_and!; [by constructor|simpl; fold (share v); nia|]. simpl sum_list. fold (share v). rewrite length_cons.
  nia.
Qed.

Lemma distribute_bound pool votes :
  0 ≤ pool → is_i64 pool → Forall (λ v, 0 ≤ v.2) votes →
  let shares := distribute_to_voters pool votes in
  let total := sum_list snd votes in
  shares = (λ v, (v.1, if 0 <? total then pool * v.2 / total else 0)) <$> votes ∧
  Forall (λ v, 0 ≤ v.2) shares ∧ sum_list snd shares ≤ pool ∧
  (0 < total → 0 < pool → pool - sum_list snd shares < Z.of_nat (length votes)).
Proof.
  intros Hp Hi Hv. unfold distribute_to_voters. set (total := sum_list snd votes).
  destruct (Z.leb_spec total 0) as [Ht|Ht]; [|destruct (Z.leb_spec pool 0) as [Hp'|Hp']].
  1-2: simpl; split_and!;
    [apply list_fmap_ext; intros i v _; f_equal; destruct (Z.ltb_spec 0 total); [|done]
    |by apply Forall_fmap, Forall_true|rewrite sum_list_fmap, sum_list_zero; lia|intros; lia].
  1: lia. 1: by assert (pool = 0) as -> by lia.
  simpl. destruct (shares_bound pool total votes) as (H1 & H2 & H3); [lia|lia|done|].
  set (share := λ v : entry, Z.quot (pool * v.2) total) in *. fold total in H2, H3.
  assert (Hsum : sum_list share votes ≤ pool) by nia.
  assert (E : (λ v : entry, (v.1, wrap_i64 (Z.quot (pool * v.2) total))) <$> votes
    = (λ v : entry, (v.1, share v)) <$> votes).
  { apply list_fmap_ext. intros i v Hvi. f_equal. apply wrap_i64_id.
    apply list_elem_of_lookup_2 in Hvi. pose proof (sum_list_elem share v votes H1 Hvi).
    rewrite Forall_forall in H1. specialize (H1 v Hvi). change (0 ≤ share v) in H1.
    fold (share v). i64_lia. }
  rewrite E, sum_list_fmap. cbn [snd]. change (sum_list (λ x, share x) votes) with (sum_list share votes).
  split_and!.
  - apply list_fmap_ext. intros i v Hvi. f_equal. rewrite (proj2 (Z.ltb_lt 0 total)) by lia.
    apply list_elem_of_lookup_2 in Hvi. rewrite Forall_forall in Hv. specialize (Hv v Hvi). simpl in Hv.
    apply Z.quot_div_nonneg; nia.
  - by apply Forall_fmap.
  - done.
  - intros _ _. destruct votes; [unfold total in Ht; simpl in Ht; lia|]. rewrite length_cons in *. nia.
Qed.
End Rewards.

Lemma quot_100_bound z : 0 ≤ z → 0 ≤ div_i64 z 100 ∧ 100 * div_i64 z 100 ≤ z.
Proof.
  intros Hz. unfold div_i64. rewrite Z.quot_div_nonneg by lia.
  pose proof (Z.div_mod z 100). pose proof (Z.mod_pos_bound z 100). lia.
Qed.

(** C30: block rewards.  For a reward that is not negative and votes that are not negative:
    the brokerage split loses nothing, the witness's cut and the voters' pool are not negative
    and add up to the reward, and the cut is the brokerage percentage rounded down when the
    product fits an [i64].  The pool is then shared in proportion to the votes: every voter,
    in order, gets the pool times its votes over all votes, rounded down, and everybody gets
    nothing when there are no votes.  No share is negative, together they are at most the
    pool, and when there are votes and a pool less than one sun per voter is left over. *)
Theorem reward_distribution (value brokerage : Z) (votes : list entry) :
  0 ≤ value ≤ I64_MAX → Forall (λ v, 0 ≤ v.2) votes →
  ∃ cut pool, split_reward value brokerage = Ok (cut, pool) ∧
    0 ≤ cut ∧ 0 ≤ pool ∧ cut + pool = value ∧
    (value * 100 ≤ I64_MAX → cut = value * Z.max 0 (Z.min 100 brokerage) / 100) ∧
    let shares := distribute_to_voters pool votes in
    let total := sum_list snd votes in
    shares = (λ v, (v.1, if 0 <? total then pool * v.2 / total else 0)) <$> votes ∧
    Forall (λ v, 0 ≤ v.2) shares ∧ sum_list snd shares ≤ pool ∧
    (0 < total → 0 < pool → pool - sum_list snd shares < Z.of_nat (length votes)).
Proof.
  intros Hv Hvotes. unfold split_reward. set (b := Z.max 0 (Z.min 100 brokerage)).
  assert (Hb : 0 ≤ b ≤ 100) by lia.
  assert (Hs : 0 ≤ saturating_mul value b ≤ value * b).
  { unfold saturating_mul, sat_i64. unfold_i64. nia. }
  destruct (quot_100_bound (saturating_mul value b)) as [Hc0 Hc]; [lia|].
  set (cut := div_i64 (saturating_mul value b) 100) in *.
  assert (cut ≤ value) by nia.
  exists cut, (value - cut).
  destruct (distribute_bound (value - cut) votes) as (?&?&?&?); [lia|i64_lia|done|].
  split_and!; [|lia|lia|lia| |done..].
  - unfold mbind, res_bind, sub_i64. by rewrite exact_i64_ok by i64_lia.
  - intros Hm. unfold cut, div_i64, saturating_mul. rewrite sat_i64_id by (unfold_i64; nia).
    by rewrite Z.quot_div_nonneg by nia.
Qed.

Lemma reward_distribution_witness :
  ∃ cut pool, split_reward WITNESS_PAY_PER_BLOCK_SUN DEFAULT_BROKERAGE = Ok (cut, pool) ∧ cut = 6400000 ∧
    pool = 25600000 ∧
    distribute_to_voters pool [([1], 7); ([2], 11); ([3], 3)] = [([1], 8533333); ([2], 13409523); ([3], 3657142)].
Proof.
  destruct (reward_distribution WITNESS_PAY_PER_BLOCK_SUN DEFAULT_BROKERAGE [([1], 7); ([2], 11); ([3], 3)])
    as (cut & pool & E & _ & _ & Hs & Hc & Hd & _).
  - unfold_i64. unfold WITNESS_PAY_PER_BLOCK_SUN. lia.
  - repeat constructor; simpl; lia.
  - assert (cut = 6400000) as -> by (by rewrite Hc; vm_compute).
    assert (pool = 25600000) as -> by (unfold WITNESS_PAY_PER_BLOCK_SUN in Hs; lia).
    exists 6400000, 25600000. split_and!; [exact E|done|done|exact Hd].
Defined.

(** ** The schedule *)

Section Schedule.
Implicit Types (active : list bytes) (a : bytes).

Lemma scheduled_witness_run active h s :
  active ≠ [] → 0 ≤ h → 0 ≤ s → h + s ≤ U64_MAX → Z.of_nat (length active) ≤ U64_MAX →
  scheduled_witness active h s = Ok (active !! Z.to_nat ((h + s) mod Z.of_nat (length active))).
Proof.
  intros Ha Hh Hs Hb Hl. unfold scheduled_witness. rewrite bool_decide_eq_false_2 by done.
  unfold mbind, res_bind, add_u64, mul_u64, SINGLE_REPEAT. rewrite exact_u64_ok by i64_lia.
  rewrite exact_u64_ok by i64_lia. by rewrite Z.mul_1_r, Z.div_1_r.
Qed.
End Schedule.

(** The schedule is fair and always names a producer.  For every active witness there
    is exactly one slot in each round of as many slots as there are witnesses that is its
    own, whatever the head slot; and the next maintenance time is after the block, at most
    one period later, and a whole number of periods from the current one. *)
Theorem schedule_round_robin (active : list bytes) (a : bytes) (h t m : Z) :
  NoDup active → a ∈ active → 0 ≤ h → h + Z.of_nat (length active) ≤ U64_MAX →
  0 ≤ m ≤ t → t + MAINTENANCE_PERIOD_MS ≤ I64_MAX →
  (∃ s, 0 ≤ s < Z.of_nat (length active) ∧ scheduled_witness active h s = Ok (Some a) ∧
     ∀ s', 0 ≤ s' < Z.of_nat (length active) → scheduled_witness active h s' = Ok (Some a) → s' = s) ∧
  (∃ n, next_maintenance_time m t = Ok n ∧ t < n ≤ t + MAINTENANCE_PERIOD_MS ∧
     (n - m) mod MAINTENANCE_PERIOD_MS = 0 ∧ need_maintenance n t = false).
Proof.
  intros Hd Ha Hh Hb Hm Ht. split.
  - apply list_elem_of_lookup in Ha as [i Hi]. pose proof (lookup_lt_Some _ _ _ Hi) as Hlt.
    set (n := Z.of_nat (length active)) in *. assert (Hn : 0 < n) by lia.
    assert (active ≠ []) as Hne by (by destruct active).
    assert (Hrun : ∀ s, 0 ≤ s < n → scheduled_witness active h s
      = Ok (active !! Z.to_nat ((h + s) mod n))) by (intros; apply scheduled_witness_run; done || lia).
    pose proof (Z.mod_pos_bound (Z.of_nat i - h) n Hn) as Hs.
    assert (Hmod : (h + (Z.of_nat i - h) mod n) mod n = Z.of_nat i).
    { rewrite Z.add_mod_idemp_r by lia. replace (h + (Z.of_nat i - h)) with (Z.of_nat i) by lia.
      apply Z.mod_small. lia. }
    exists ((Z.of_nat i - h) mod n). split_and!; [lia|lia| |].
    + rewrite Hrun, Hmod, Nat2Z.id by done. by rewrite Hi.
    + intros s' Hs' E. rewrite Hrun in E by done. injection E as E.
      assert (Z.to_nat ((h + s') mod n) = i) as E' by (by eapply NoDup_lookup).
      pose proof (Z.mod_pos_bound (h + s') n Hn).
      assert (Ei : (h + s') mod n = Z.of_nat i) by lia.
      rewrite <-(Z.mod_small s' n) by done. rewrite <-Ei, Zminus_mod_idemp_l.
      f_equal. lia.
  - unfold next_maintenance_time, mbind, res_bind, sub_i64, add_i64, mul_i64, div_i64.
    set (p := MAINTENANCE_PERIOD_MS) in *. assert (Hp : p = 21600000) by done.
    rewrite exact_i64_ok by i64_lia. rewrite Z.quot_div_nonneg by lia.
    pose proof (Z.div_mod (t - m) p). pose proof (Z.mod_pos_bound (t - m) p).
    assert (0 ≤ (t - m) / p ≤ t - m) by (split; [apply Z.div_pos; lia|apply Z.div_le_upper_bound; nia]).
    do 3 (rewrite exact_i64_ok by i64_lia).
    eexists. split_and!; [done|lia|lia| |].
    + replace (m + ((t - m) / p + 1) * p - m) with (((t - m) / p + 1) * p) by lia. apply Z.mod_mul. lia.
    + unfold need_maintenance. apply Z.leb_gt. lia.
Qed.

Lemma schedule_round_robin_witness :
  scheduled_witness [[1]; [2]; [3]] 7 1 = Ok (Some [3]) ∧
  ∃ n, next_maintenance_time 0 21600001 = Ok n ∧ 21600001 < n.
Proof.
  split; [done|].
  destruct (schedule_round_robin [[1]; [2]; [3]] [3] 7 21600001 0) as [_ (n & E & Hn & _)].
  - apply (bool_decide_unpack _). by vm_compute.
  - apply (bool_decide_unpack _). by vm_compute.
  - lia.
  - by vm_compute.
  - lia.
  - by vm_compute.
  - exists n. split; [exact E|apply Hn].
Defined.
