(* ===== verification/Maintenance.v ===== *)
(** * The maintenance cycle (crates/actuators/src/maintenance.rs)

    Votes are tallied, added to the witnesses' running counts, and the best 27 witnesses
    become the active set, which the block intake of Node.v checks producers against. *)

From stdpp Require Import gmap strings pretty numbers fin_maps prelude sorting.
From S2P Require Import Prelude Types Proto State Actuator Chain Consensus.
Open Scope Z_scope.

(** [*tally.entry(v).or_insert(0) += n] over the votes of one voter, then over all. *)
Fixpoint tally_votes (votes : list Vote.t) (tally : gmap bytes Z) : res () (gmap bytes Z) :=
  match votes with
  | [] => Ok tally
  | v :: votes =>
      n ← add_i64 (default 0 (tally !! Vote.vote_address v)) (Vote.vote_count v);
      tally_votes votes (<[Vote.vote_address v := n]> tally)
  end.
Fixpoint tally_voters (voters : list Account.t) (tally : gmap bytes Z) : res () (gmap bytes Z) :=
  match voters with
  | [] => Ok tally
  | voter :: voters => tally ← tally_votes (Account.votes voter) tally; tally_voters voters tally
  end.
Definition count_votes (voters : list Account.t) : res () (gmap bytes Z) := tally_voters voters ∅.

Definition sort_witnesses (witnesses : list entry) : list bytes := (sort_by_witness witnesses).*1.

Definition active_set (witnesses : list entry) : list bytes :=
  take MAX_ACTIVE_WITNESSES (sort_witnesses witnesses).

Definition all_witnesses (w : world) (addrs : list Address) : list Witness.t :=
  omap (λ a, get_witness a w) addrs.

(** The loop over the candidates: a missing witness is skipped. *)
Fixpoint score_witnesses (tally : gmap bytes Z) (addrs : list Address) (scored : list entry) :
    ST world () (list entry) :=
  match addrs with
  | [] => mret scored
  | addr :: addrs =>
      x ← gets (get_witness addr);
      match x with
      | None => score_witnesses tally addrs scored
      | Some x =>
          let added := default 0 (tally !! addr) in
          n ← lift (add_i64 (Witness.vote_count x) added);
          _ ← modify (put_witness addr (x <| Witness.vote_count := n |>));
          score_witnesses tally addrs (scored ++ [(addr, n)])
      end
  end.

Definition run_maintenance (witness_addrs voter_addrs : list Address) : ST world () (list bytes) :=
  voters ← gets (λ w, omap (λ a, get_account a w) voter_addrs);
  tally ← lift (count_votes voters);
  scored ← score_witnesses tally witness_addrs [];
  let elected := active_set scored in
  _ ← modify (put_active_witnesses (omap parse_address_opt elected));
  mret elected.

(** ** Tallies *)

(** The votes a voter, or all voters, cast for a witness. *)
Definition votes_for (a : bytes) (votes : list Vote.t) : Z :=
  sum_list Vote.vote_count (filter (λ v, Vote.vote_address v = a) votes).
Definition total_votes (a : bytes) (voters : list Account.t) : Z :=
  sum_list (λ voter, votes_for a (Account.votes voter)) voters.

Section Tally.
Implicit Types (a : bytes) (tally : gmap bytes Z).
Lemma tally_votes_Ok votes tally r :
  tally_votes votes tally = Ok r →
  ∀ a, default 0 (r !! a) = default 0 (tally !! a) + votes_for a votes.
Proof.
  revert tally. induction votes as [|v votes IH]; intros tally; simpl.
  { intros [= <-] a. unfold votes_for. simpl. lia. }
  intros (n & [-> _]%add_i64_Ok & E)%res_bind_Ok a. rewrite (IH _ E a).
  unfold votes_for. rewrite filter_cons. destruct (decide (Vote.vote_address v = a)) as [<-|Hne].
  - rewrite lookup_insert_eq. simpl. lia.
  - by rewrite lookup_insert_ne.
Qed.
Lemma count_votes_Ok voters r :
  count_votes voters = Ok r → ∀ a, default 0 (r !! a) = total_votes a voters.
Proof.
  unfold count_votes. intros E a.
  enough (∀ tally, tally_voters voters tally = Ok r →
    default 0 (r !! a) = default 0 (tally !! a) + total_votes a voters) as H.
  { by rewrite (H _ E), lookup_empty. }
  clear E. induction voters as [|x voters IH]; intros tally; simpl.
  { intros [= <-]. unfold total_votes. simpl. lia. }
  intros (t & Et & E)%res_bind_Ok. rewrite (IH _ E), (tally_votes_Ok _ _ _ Et).
  unfold total_votes. simpl. lia.
Qed.
End Tally.

(** ** The active set in the state *)

Section ActiveSet.
Implicit Types (w : world) (ws : list Address).
Lemma put_active_witnesses_prop k ws w :
  Forall (λ a, length a = ADDRESS_LEN) ws →
  get_prop_i64 k (put_active_witnesses ws w) =
  if bool_decide (k = props.ACTIVE_WITNESSES) then 0 else get_prop_i64 k w.
Proof.
  intros Hl. unfold get_prop_i64, put_active_witnesses. simpl.
  case_bool_decide as E; [subst k; rewrite lookup_insert_eq|by rewrite lookup_insert_ne].
  assert (∃ n, length (concat ws) = (ADDRESS_LEN * n)%nat) as [n ->].
  { induction Hl as [|a ws Ha _ [n IH]]; [by exists 0%nat|]. exists (S n). simpl. rewrite length_app, IH, Ha. unfold ADDRESS_LEN. lia. }
  rewrite bool_decide_eq_false_2; [done|]. unfold ADDRESS_LEN. lia.
Qed.

Lemma put_active_witnesses_trx ws w :
  Forall (λ a, length a = ADDRESS_LEN) ws → trx_wf w →
  trx_wf (put_active_witnesses ws w) ∧ total_trx (put_active_witnesses ws w) = total_trx w.
Proof.
  intros Hl []. split.
  - constructor; rewrite ?put_active_witnesses_prop, ?bool_decide_eq_false_2 by done; try done.
    intros k Hk. rewrite put_active_witnesses_prop by done. case_match; [done|auto].
  - unfold total_trx, burned. by rewrite put_active_witnesses_prop, bool_decide_eq_false_2.
Qed.
End ActiveSet.

(** ** The election *)

Section Election.
Implicit Types (l k : list entry) (x y : entry).

Lemma sort_witnesses_nodup l : NoDup l.*1 → NoDup (sort_witnesses l).
Proof. intros Hd. unfold sort_witnesses. by rewrite sort_by_witness_perm. Qed.

Lemma sort_witnesses_elem a l : a ∈ sort_witnesses l ↔ a ∈ l.*1.
Proof. unfold sort_witnesses. by rewrite sort_by_witness_perm. Qed.

Lemma active_set_elem a l : a ∈ active_set l → a ∈ l.*1.
Proof.
  intros Ha. apply sort_witnesses_elem. unfold active_set in Ha.
  rewrite <-(take_drop MAX_ACTIVE_WITNESSES (sort_witnesses l)). apply elem_of_app. by left.
Qed.

Lemma same_address l x y : NoDup l.*1 → x ∈ l → y ∈ l → x.1 = y.1 → x = y.
Proof.
  intros Hd Hx Hy E. apply list_elem_of_lookup in Hx as [i Hi], Hy as [j Hj].
  assert (i = j) as ->; [|congruence].
  eapply (NoDup_lookup _ _ _ x.1 Hd); rewrite list_lookup_fmap; [by rewrite Hi|rewrite Hj; simpl; congruence].
Qed.

(** A witness that is elected ranks strictly before one that is not. *)
Lemma elected_before l x y :
  NoDup l.*1 → x ∈ l → y ∈ l → x.1 ∈ active_set l → y.1 ∉ active_set l → cmp_witness x y = Lt.
Proof.
  intros Hd Hx Hy Ex Ey. pose proof (sort_by_witness_sorted l) as Hs.
  rewrite <-(take_drop MAX_ACTIVE_WITNESSES (sort_by_witness l)) in Hs.
  apply StronglySorted_app in Hs as (Hs & _ & _).
  assert (Hmem : ∀ z, z ∈ l → z.1 ∈ active_set l ↔ z ∈ take MAX_ACTIVE_WITNESSES (sort_by_witness l)).
  { intros z Hz. unfold active_set, sort_witnesses. rewrite <-fmap_take, list_elem_of_fmap. split.
    - intros (z' & E & Hz'). rewrite (same_address l z z' Hd Hz); [done| |done].
      rewrite <-(sort_by_witness_perm l). eapply elem_of_take in Hz' as (i & Hz' & _).
      by eapply list_elem_of_lookup_2.
    - intros Hz'. by exists z. }
  assert (y ∈ drop MAX_ACTIVE_WITNESSES (sort_by_witness l)) as Hy'.
  { rewrite <-(sort_by_witness_perm l) in Hy.
    rewrite <-(take_drop MAX_ACTIVE_WITNESSES (sort_by_witness l)) in Hy.
    apply elem_of_app in Hy as [Hy|Hy]; [|done]. exfalso. apply Ey, Hmem; [|done].
    eapply elem_of_take in Hy as (i & Hy & _). rewrite <-(sort_by_witness_perm l). by eapply list_elem_of_lookup_2. }
  specialize (Hs x y (proj1 (Hmem x Hx) Ex) Hy'). unfold ranks_before in Hs.
  destruct (cmp_witness x y) eqn:Ec; [|done|done].
  apply cmp_witness_eq in Ec as ->. done.
Qed.
End Election.

(** C28: the election is deterministic.  The active set depends only on the set of
    candidates and their votes, not on the order the store yields them in, and the ranking
    of the maintenance cycle is that of the standalone helper.  It holds the 27 best
    candidates, or all of them when there are fewer, each once: whoever is elected has more
    votes than whoever is not, or as many and a larger address. *)
Theorem election_deterministic (l k : list entry) :
  NoDup l.*1 → l ≡ₚ k →
  active_set l = active_set k ∧ sort_witnesses l = rank_witnesses k ∧
  length (active_set l) = Nat.min MAX_ACTIVE_WITNESSES (length l) ∧ NoDup (active_set l) ∧
  ∀ x y, x ∈ l → y ∈ l → x.1 ∈ active_set l → y.1 ∉ active_set l →
    y.2 < x.2 ∨ (y.2 = x.2 ∧ bytes_cmp y.1 x.1 = Lt).
Proof.
  intros Hd Hp. split_and!.
  - unfold active_set, sort_witnesses. by rewrite (sort_by_witness_perm_eq l k).
  - unfold sort_witnesses, rank_witnesses. by rewrite (sort_by_witness_perm_eq l k).
  - unfold active_set. rewrite length_take. f_equal. unfold sort_witnesses.
    by rewrite length_fmap, sort_by_witness_perm.
  - unfold active_set. eapply sublist_NoDup; [by apply sort_witnesses_nodup|apply sublist_take].
  - intros x y Hx Hy Ex Ey. pose proof (elected_before l x y Hd Hx Hy Ex Ey) as Hc.
    unfold cmp_witness in Hc. destruct (Z.compare_spec y.2 x.2); [by right|by left|done].
Qed.

Lemma election_deterministic_witness :
  active_set [([1], 5); ([2], 9); ([3], 5)] = active_set [([3], 5); ([1], 5); ([2], 9)] ∧
  active_set [([1], 5); ([2], 9); ([3], 5)] = [[2]; [3]; [1]].
Proof.
  split; [|by vm_compute].
  apply (election_deterministic [([1], 5); ([2], 9); ([3], 5)] [([3], 5); ([1], 5); ([2], 9)]).
  - apply (bool_decide_unpack _). by vm_compute.
  - symmetry. apply (Permutation_cons_append [([1], 5); ([2], 9)] ([3], 5)).
Defined.

(** ** A maintenance cycle *)

Section Run.
Implicit Types (w : world) (a : Address) (tally : gmap bytes Z).

(** A candidate's record and score after the cycle. *)
Definition counted tally a (x : Witness.t) : Witness.t :=
  x <| Witness.vote_count := Witness.vote_count x + default 0 (tally !! a) |>.
Definition score tally w a : option entry :=
  (λ x, (a, Witness.vote_count (counted tally a x))) <$> get_witness a w.

Lemma score_put_ne tally a b x w : a ≠ b → score tally (put_witness a x w) b = score tally w b.
Proof. intros Hne. unfold score, get_witness, put_witness. simpl. by rewrite lookup_insert_ne. Qed.

Lemma score_witnesses_Ok tally addrs scored w scored' w' :
  NoDup addrs → score_witnesses tally addrs scored w = (Ok scored', w') →
  scored' = scored ++ omap (score tally w) addrs ∧
  (∀ a, get_witness a w' = if decide (a ∈ addrs) then counted tally a <$> get_witness a w
                            else get_witness a w) ∧
  w' = w <| w_witness := w_witness w' |>.
Proof.
  revert scored w. induction addrs as [|b addrs IH]; intros scored w Hd E; simpl in E.
  { injection E as <- <-. rewrite app_nil_r. split_and!; [done| |by destruct w].
    intros a. by rewrite decide_False by apply not_elem_of_nil. }
  apply NoDup_cons in Hd as [Hb Hd]. rewrite run_gets in E.
  destruct (get_witness b w) as [x|] eqn:Ex.
  - apply ST_bind_Ok in E as (n & w1 & [Hn ->]%lift_Ok & E). apply add_i64_Ok in Hn as [-> _].
    rewrite run_modify in E. apply IH in E as (-> & Hg & Hw); [|done].
    set (x' := x <| Witness.vote_count := _ |>) in *. split_and!.
    + rewrite <-app_assoc. f_equal. simpl. unfold score at 2. rewrite Ex. simpl. f_equal.
      apply list_omap_ext, Forall_Forall2_diag, Forall_forall. intros c Hc. apply score_put_ne. congruence.
    + intros a. rewrite Hg. unfold get_witness, put_witness. simpl.
      destruct (decide (a = b)) as [->|Hne].
      * rewrite decide_False, decide_True by (done || by apply list_elem_of_here).
        rewrite lookup_insert_eq. unfold get_witness in Ex. by rewrite Ex.
      * rewrite lookup_insert_ne by done. repeat case_decide; done || set_solver.
    + rewrite Hw. done.
  - apply IH in E as (-> & Hg & Hw); [|done]. split_and!; [|intros a; rewrite Hg|done].
    + simpl. unfold score at 2. by rewrite Ex.
    + destruct (decide (a = b)) as [->|Hne].
      * rewrite decide_False, decide_True by (done || by apply list_elem_of_here). by rewrite Ex.
      * repeat case_decide; done || set_solver.
Qed.

Lemma witness_frame_trx w m :
  trx_wf w → trx_wf (w <| w_witness := m |>) ∧ total_trx (w <| w_witness := m |>) = total_trx w.
Proof. intros []. split; [by constructor|done]. Qed.
End Run.

Lemma elected_addresses tally w ws :
  Forall (λ a, is_address a = true) ws →
  let elected := active_set (omap (score tally w) ws) in
  omap parse_address_opt elected = elected ∧ Forall (λ a, length a = ADDRESS_LEN) elected.
Proof.
  intros Ha elected.
  assert (Hel : Forall (λ a, is_address a = true) elected).
  { apply Forall_forall. intros a Hin. apply active_set_elem, list_elem_of_fmap in Hin as (x & -> & Hx).
    apply list_elem_of_omap in Hx as (b & Hb & E). unfold score in E.
    destruct (get_witness b w); [|done]. injection E as <-. simpl. by eapply Forall_forall in Ha. }
  split.
  - clear Ha. generalize dependent elected. intros l Hl. induction Hl as [|a l Ha _ IH]; [done|]. simpl.
    rewrite (proj2 (parse_address_opt_Some a a) (conj eq_refl Ha)). by f_equal.
  - eapply Forall_impl; [exact Hel|]. intros a Hx. unfold is_address in Hx. simpl in Hx.
    by apply andb_true_iff in Hx as [Hx%bool_decide_eq_true _].
Qed.

Lemma run_maintenance_Ok ws vs w elected w' :
  NoDup ws → run_maintenance ws vs w = (Ok elected, w') →
  ∃ tally w1, (∀ a, default 0 (tally !! a) = total_votes a (omap (λ a, get_account a w) vs)) ∧
    elected = active_set (omap (score tally w) ws) ∧
    (∀ a, get_witness a w1 = if decide (a ∈ ws) then counted tally a <$> get_witness a w
                             else get_witness a w) ∧
    w1 = w <| w_witness := w_witness w1 |> ∧
    w' = put_active_witnesses (omap parse_address_opt elected) w1.
Proof.
  intros Hd E. unfold run_maintenance in E. rewrite run_gets in E.
  apply ST_bind_Ok in E as (tally & w0 & [Ht ->]%lift_Ok & E).
  apply ST_bind_Ok in E as (scored & w1 & Es & E). rewrite run_modify in E. injection E as <- <-.
  apply score_witnesses_Ok in Es as (-> & Hg & Hw); [|done].
  exists tally, w1. split_and!; try done. intros a. by apply count_votes_Ok.
Qed.

Lemma run_maintenance_trx ws vs w elected w' :
  NoDup ws → Forall (λ a, is_address a = true) ws → run_maintenance ws vs w = (Ok elected, w') →
  trx_inv w → trx_inv w' ∧ total_trx w' = total_trx w.
Proof.
  intros Hd Ha E [Hw Hi].
  apply run_maintenance_Ok in E as (tally & w1 & _ & -> & _ & Hw1 & ->); [|done].
  destruct (witness_frame_trx w (w_witness w1) Hw) as [Hwf Ht]. rewrite <-Hw1 in Hwf, Ht.
  destruct (elected_addresses tally w ws Ha) as [-> Hl].
  destruct (put_active_witnesses_trx _ _ Hl Hwf) as [Hwf' Ht'].
  split; [split; [done|]|]; rewrite Ht', Ht; done.
Qed.

(** C27: a maintenance cycle adds to the count of each candidate exactly the votes the
    voters cast for it and touches no other witness, elects the active set from the new
    counts, and stores it so that it reads back as it was returned; the accounts, the
    supply and its invariant are as before. *)
Theorem maintenance_cycle (ws vs : list Address) (w : world) (elected : list bytes) (w' : world) :
  NoDup ws → Forall (λ a, is_address a = true) ws → run_maintenance ws vs w = (Ok elected, w') →
  let voters := omap (λ a, get_account a w) vs in
  let count a (x : Witness.t) := Witness.vote_count x + total_votes a voters in
  (∀ a, get_witness a w' =
     (λ x, if decide (a ∈ ws) then x <| Witness.vote_count := count a x |> else x) <$> get_witness a w) ∧
  elected = active_set (omap (λ a, (λ x, (a, count a x)) <$> get_witness a w) ws) ∧
  get_active_witnesses w' = elected ∧ w_account w' = w_account w ∧
  (trx_inv w → trx_inv w' ∧ total_trx w' = total_trx w).
Proof.
  intros Hd Ha E voters count. pose proof (run_maintenance_trx _ _ _ _ _ Hd Ha E) as Htrx.
  apply run_maintenance_Ok in E as (tally & w1 & Ht & -> & Hg & Hw1 & ->); [|done].
  assert (Hc : ∀ a x, counted tally a x = x <| Witness.vote_count := count a x |>)
    by (intros; unfold counted, count; by rewrite Ht).
  split_and!; [| | | |done].
  - intros a. change (get_witness a w1 = (λ x, if decide (a ∈ ws) then x <| Witness.vote_count := count a x |>
      else x) <$> get_witness a w). rewrite Hg. case_decide; [|by destruct (get_witness a w)].
    destruct (get_witness a w); [|done]. simpl. by rewrite Hc.
  - f_equal. apply list_omap_ext, Forall_Forall2_diag, Forall_forall. intros a _. unfold score.
    destruct (get_witness a w) as [x|]; [|done]. cbn [fmap option_fmap option_map]. by rewrite (Hc a x).
  - destruct (elected_addresses tally w ws Ha) as [-> Hl].
    unfold get_active_witnesses, put_active_witnesses. simpl. rewrite lookup_insert_eq.
    by apply chunks_exact_concat; [unfold ADDRESS_LEN; lia|].
  - by rewrite Hw1.
Qed.

Module MaintSample.
Definition voter : Account.t := (Sample.account 1 50000000)
  <| Account.votes := [Vote.mk (Sample.addr 7) 3; Vote.mk (Sample.addr 8) 5] |>.
Definition w : world := put_witness (Sample.addr 7) (Witness.default <| Witness.vote_count := 10 |>)
  (put_witness (Sample.addr 8) Witness.default (put_account (Sample.addr 1) voter Sample.state)).
Definition candidates : list Address := [Sample.addr 8; Sample.addr 7].
End MaintSample.

Lemma maintenance_cycle_witness :
  ∃ w', run_maintenance MaintSample.candidates [Sample.addr 1] MaintSample.w
    = (Ok [Sample.addr 7; Sample.addr 8], w') ∧ get_active_witnesses w' = [Sample.addr 7; Sample.addr 8].
Proof.
  assert (E : (run_maintenance MaintSample.candidates [Sample.addr 1] MaintSample.w).1
    = Ok [Sample.addr 7; Sample.addr 8]) by (by vm_compute).
  destruct (run_maintenance MaintSample.candidates [Sample.addr 1] MaintSample.w) as [r w'] eqn:Er.
  simpl in E. subst r. exists w'. split; [done|].
  eapply (maintenance_cycle MaintSample.candidates [Sample.addr 1] MaintSample.w); [| |exact Er].
  - apply (bool_decide_unpack _). by vm_compute.
  - by repeat constructor.
Defined.
