(* ===== verification/Tvm.v ===== *)
(** * The TVM's tables and memory (crates/vm/src/opcode.rs, energy.rs, memory.rs, lib.rs,
    precompile.rs)

    Opcodes and their bytes, the energy price list, the energy meter, byte-addressed
    memory and the precompiled contracts.  Words are 256-bit integers, energy and memory
    offsets are [u64]; plain arithmetic that overflows is a [Panic]. *)

From stdpp Require Import gmap strings pretty numbers fin_maps prelude.
From S2P Require Import Prelude Types Chain.
Open Scope Z_scope.

(** ** Opcodes (opcode.rs) *)

Module OpCode.
Inductive t :=
| Stop
| Add
| Mul
| Sub
| Div
| Sdiv
| Mod
| Exp
| Lt
| Gt
| Eq
| IsZero
| And
| Or
| Xor
| CallDataLoad
| CallDataSize
| CallDataCopy
| ReturnDataSize
| ReturnDataCopy
| Pop
| Mload
| Mstore
| Mstore8
| Sload
| Sstore
| Jump
| Jumpi
| Jumpdest
| Push1
| Push2
| Dup1
| Swap1
| CallToken
| TokenBalance
| CallTokenValue
| CallTokenId
| IsContract
| Freeze
| Unfreeze
| FreezeExpireTime
| VoteWitness
| WithdrawReward
| FreezeBalanceV2
| UnfreezeBalanceV2
| CancelAllUnfreezeV2
| WithdrawExpireUnfreeze
| DelegateResource
| UnDelegateResource
| Call
| Return
| Revert
| Invalid
| SelfDestruct.
#[global] Instance t_eq_dec : EqDecision t.
Proof. solve_decision. Defined.

Definition from_u8 (b : Z) : option t :=
  match b with
  | 0 => Some Stop
  | 1 => Some Add
  | 2 => Some Mul
  | 3 => Some Sub
  | 4 => Some Div
  | 5 => Some Sdiv
  | 6 => Some Mod
  | 10 => Some Exp
  | 16 => Some Lt
  | 17 => Some Gt
  | 20 => Some Eq
  | 21 => Some IsZero
  | 22 => Some And
  | 23 => Some Or
  | 24 => Some Xor
  | 53 => Some CallDataLoad
  | 54 => Some CallDataSize
  | 55 => Some CallDataCopy
  | 61 => Some ReturnDataSize
  | 62 => Some ReturnDataCopy
  | 80 => Some Pop
  | 81 => Some Mload
  | 82 => Some Mstore
  | 83 => Some Mstore8
  | 84 => Some Sload
  | 85 => Some Sstore
  | 86 => Some Jump
  | 87 => Some Jumpi
  | 91 => Some Jumpdest
  | 96 => Some Push1
  | 97 => Some Push2
  | 128 => Some Dup1
  | 144 => Some Swap1
  | 208 => Some CallToken
  | 209 => Some TokenBalance
  | 210 => Some CallTokenValue
  | 211 => Some CallTokenId
  | 212 => Some IsContract
  | 213 => Some Freeze
  | 214 => Some Unfreeze
  | 215 => Some FreezeExpireTime
  | 216 => Some VoteWitness
  | 217 => Some WithdrawReward
  | 218 => Some FreezeBalanceV2
  | 219 => Some UnfreezeBalanceV2
  | 220 => Some CancelAllUnfreezeV2
  | 221 => Some WithdrawExpireUnfreeze
  | 222 => Some DelegateResource
  | 223 => Some UnDelegateResource
  | 241 => Some Call
  | 243 => Some Return
  | 253 => Some Revert
  | 254 => Some Invalid
  | 255 => Some SelfDestruct
  | _ => None
  end.
(** [op as u8] *)
Definition as_u8 (op : t) : Z :=
  match op with
  | Stop => 0
  | Add => 1
  | Mul => 2
  | Sub => 3
  | Div => 4
  | Sdiv => 5
  | Mod => 6
  | Exp => 10
  | Lt => 16
  | Gt => 17
  | Eq => 20
  | IsZero => 21
  | And => 22
  | Or => 23
  | Xor => 24
  | CallDataLoad => 53
  | CallDataSize => 54
  | CallDataCopy => 55
  | ReturnDataSize => 61
  | ReturnDataCopy => 62
  | Pop => 80
  | Mload => 81
  | Mstore => 82
  | Mstore8 => 83
  | Sload => 84
  | Sstore => 85
  | Jump => 86
  | Jumpi => 87
  | Jumpdest => 91
  | Push1 => 96
  | Push2 => 97
  | Dup1 => 128
  | Swap1 => 144
  | CallToken => 208
  | TokenBalance => 209
  | CallTokenValue => 210
  | CallTokenId => 211
  | IsContract => 212
  | Freeze => 213
  | Unfreeze => 214
  | FreezeExpireTime => 215
  | VoteWitness => 216
  | WithdrawReward => 217
  | FreezeBalanceV2 => 218
  | UnfreezeBalanceV2 => 219
  | CancelAllUnfreezeV2 => 220
  | WithdrawExpireUnfreeze => 221
  | DelegateResource => 222
  | UnDelegateResource => 223
  | Call => 241
  | Return => 243
  | Revert => 253
  | Invalid => 254
  | SelfDestruct => 255
  end.
Definition is_tron_specific (op : t) : bool := (208 <=? as_u8 op) && (as_u8 op <=? 223).

Lemma from_as_u8 op : from_u8 (as_u8 op) = Some op.
Proof. by destruct op. Qed.
End OpCode.

(** ** Energy prices (energy.rs) *)

Definition ZERO_TIER : Z := 0.
Definition BASE_TIER : Z := 2.
Definition VERY_LOW_TIER : Z := 3.
Definition LOW_TIER : Z := 5.
Definition MID_TIER : Z := 8.
Definition HIGH_TIER : Z := 10.
Definition EXP_ENERGY : Z := 10.
Definition EXP_BYTE_ENERGY : Z := 10.
Definition SLOAD : Z := 50.
Definition SET_SSTORE : Z := 20000.
Definition CLEAR_SSTORE : Z := 5000.
Definition RESET_SSTORE : Z := 5000.
Definition MEMORY_WORD : Z := 3.
Definition COPY_WORD : Z := 3.
Definition NEW_ACCT_CALL : Z := 25000.
Definition SUICIDE : Z := 0.
Definition VOTE_WITNESS : Z := 30000.

Definition saturating_add_u64 (a b : Z) : Z := Z.min (a + b) U64_MAX.
Definition saturating_mul_u64 (a b : Z) : Z := Z.min (a * b) U64_MAX.

Definition suicide_cost (beneficiary_exists : bool) : Z :=
  SUICIDE + if beneficiary_exists then 0 else NEW_ACCT_CALL.

Definition vote_witness_mem_needed (witness_offset witness_len amount_offset amount_len : Z) : Z :=
  let extent off len := saturating_add_u64 (saturating_add_u64 off (saturating_mul_u64 len 32)) 32 in
  Z.max (extent witness_offset witness_len) (extent amount_offset amount_len).

Definition base_cost (op : OpCode.t) : Z :=
  match op with
  | OpCode.Stop | OpCode.Return | OpCode.Revert | OpCode.Invalid => ZERO_TIER
  | OpCode.Add | OpCode.Sub | OpCode.Lt | OpCode.Gt | OpCode.Eq | OpCode.IsZero | OpCode.And
  | OpCode.Or | OpCode.Xor | OpCode.Pop => VERY_LOW_TIER
  | OpCode.Mul | OpCode.Div | OpCode.Sdiv | OpCode.Mod => LOW_TIER
  | OpCode.Push1 | OpCode.Push2 | OpCode.Dup1 | OpCode.Swap1 => VERY_LOW_TIER
  | OpCode.Jumpdest => 1
  | OpCode.Jump => MID_TIER
  | OpCode.Jumpi => HIGH_TIER
  | OpCode.Mload | OpCode.Mstore | OpCode.Mstore8 => VERY_LOW_TIER
  | OpCode.CallDataLoad => VERY_LOW_TIER
  | OpCode.CallDataSize | OpCode.ReturnDataSize => BASE_TIER
  | OpCode.CallDataCopy | OpCode.ReturnDataCopy => VERY_LOW_TIER
  | OpCode.Exp => EXP_ENERGY
  | OpCode.Sload => SLOAD
  | OpCode.Sstore => 0
  | OpCode.SelfDestruct => SUICIDE
  | OpCode.VoteWitness => ZERO_TIER
  | OpCode.IsContract | OpCode.TokenBalance | OpCode.CallTokenValue | OpCode.CallTokenId => BASE_TIER
  | OpCode.Call => 40
  | OpCode.CallToken => 40
  | OpCode.Freeze | OpCode.Unfreeze | OpCode.FreezeExpireTime | OpCode.WithdrawReward
  | OpCode.FreezeBalanceV2 | OpCode.UnfreezeBalanceV2 | OpCode.CancelAllUnfreezeV2
  | OpCode.WithdrawExpireUnfreeze | OpCode.DelegateResource | OpCode.UnDelegateResource => BASE_TIER
  end.

Definition sstore_cost (current_is_zero new_is_zero : bool) : Z :=
  match current_is_zero, new_is_zero with
  | true, false => SET_SSTORE
  | false, true => CLEAR_SSTORE
  | _, _ => RESET_SSTORE
  end.

Section Prices.
Context {E : Type}.
Definition memory_cost (w : Z) : res E Z :=
  a ← mul_u64 MEMORY_WORD w;
  b ← mul_u64 w w;
  add_u64 a (b / 512).
Definition memory_expansion_cost (cur_words new_words : Z) : res E Z :=
  if new_words <=? cur_words then Ok 0 else
  n ← memory_cost new_words;
  c ← memory_cost cur_words;
  sub_u64 n c.

Definition vote_witness_cost (old_mem_bytes witness_offset witness_len amount_offset amount_len : Z) :
    res E Z :=
  let needed := vote_witness_mem_needed witness_offset witness_len amount_offset amount_len in
  n ← add_u64 needed 31;
  let new_words := n / 32 in
  let old_words := old_mem_bytes / 32 in
  c ← memory_expansion_cost old_words new_words;
  add_u64 VOTE_WITNESS c.
End Prices.

(** ** The meter (lib.rs) *)

Definition DEFAULT_ENERGY_FEE_SUN : Z := 100.
Definition energy_to_sun (energy_used energy_price_sun : Z) : Z :=
  Z.min (Z.max (energy_used * energy_price_sun) 0) I64_MAX.

Module EnergyMeter.
Record t := mk { limit : Z; used : Z }.
#[global] Instance eta_t : Eta t := λ m, mk (limit m) (used m).
Definition new (limit : Z) : t := mk limit 0.
Definition charge (amount : Z) (m : t) : t * bool :=
  if (used m + amount <=? U64_MAX) && (used m + amount <=? limit m)
  then (m <| used := used m + amount |>, true) else (m, false).
Definition remaining (m : t) : Z := Z.max 0 (limit m - used m).
End EnergyMeter.

(** ** Memory (memory.rs) *)

(** [get(i).copied().unwrap_or(0)] *)
Definition byte_at (bs : bytes) (i : Z) : Z :=
  if i <? Z.of_nat (length bs) then default 0 (bs !! Z.to_nat i) else 0.

Section Ranges.
Context {E : Type}.
(** [for i in 0..len { .. src.get(off + i).copied().unwrap_or(0) .. }]: the index is a
    [usize] addition. *)
Definition read_bytes (src : bytes) (off len : Z) : res E bytes :=
  if (0 <? len) && (U64_MAX <? off + len - 1) then Panic
  else Ok ((λ i, byte_at src (off + Z.of_nat i)) <$> seq 0 (Z.to_nat len)).
(** [data[off..off + len].copy_from_slice(bs)], or a store to each index of the range *)
Definition write_bytes (data : bytes) (off : Z) (bs : bytes) : res E bytes :=
  let stop := off + Z.of_nat (length bs) in
  if Z.of_nat (length data) <? stop then Panic
  else Ok (take (Z.to_nat off) data ++ bs ++ drop (Z.to_nat stop) data).
(** [data.get(off..off + len).unwrap_or(&[])] *)
Definition get_range (data : bytes) (off len : Z) : res E bytes :=
  stop ← add_u64 off len;
  if stop <=? Z.of_nat (length data)
  then Ok (take (Z.to_nat len) (drop (Z.to_nat off) data)) else Ok [].
End Ranges.

Module Memory.
Definition t := bytes.
Definition words (m : t) : Z := (Z.of_nat (length m) + 31) / 32.
Section Ops.
Context {E : Type}.
(** The grown memory and the energy its growth costs. *)
Definition expand_to (stop : Z) (m : t) : res E (t * Z) :=
  if stop <=? Z.of_nat (length m) then Ok (m, 0) else
  let cur := words m in
  s ← add_u64 stop 31;
  let new_words := s / 32 in
  cost ← memory_expansion_cost cur new_words;
  Ok (m ++ replicate (Z.to_nat (new_words * 32) - length m) 0, cost).
Definition load (off : Z) (m : t) : res E Z :=
  buf ← read_bytes m off 32;
  Ok (from_be_unsigned buf).
Definition store (off value : Z) (m : t) : res E t := write_bytes m off (to_be_bytes 32 value).
End Ops.
End Memory.

(** ** Precompiled contracts (precompile.rs) *)

Module precompile.
Definition ECRECOVER_ENERGY : Z := 3000.
Definition words (len : Z) : Z := (len + 31) / 32.
Definition energy_for (address : Z) (data : bytes) : option Z :=
  let len := Z.of_nat (length data) in
  match address with
  | 1 => Some ECRECOVER_ENERGY
  | 2 => Some (60 + words len * 12)
  | 3 => Some (600 + words len * 120)
  | 4 => Some (15 + words len * 3)
  | _ => None
  end.

Section Run.
Context `{Hashes} `{Secp}.
Definition ecrecover (data : bytes) : bytes :=
  let input := take 128 data ++ replicate (128 - length data) 0 in
  let hash := take 32 input in
  let v := default 0 (input !! 63%nat) in
  if negb ((v =? 27) || (v =? 28)) then replicate 32 0 else
  match recover hash (mk_signature (drop 64 input) (v - 27)) with
  | Some pk => replicate 12 0 ++ drop 12 (keccak256 (drop 1 (serialize_uncompressed pk)))
  | None => replicate 32 0
  end.
Definition ripemd160_like (data : bytes) : bytes := sha256 (take 20 (sha256 data)).
Definition execute (address : Z) (data : bytes) : option bytes :=
  match address with
  | 1 => Some (ecrecover data)
  | 2 => Some (sha256 data)
  | 3 => Some (ripemd160_like data)
  | 4 => Some data
  | _ => None
  end.
End Run.
End precompile.
