(* ===== verification/Frame.v ===== *)
(** * The journaled VM state (crates/vm/src/frame.rs, the [Host] trait of interp.rs)

    Storage, code, balances, existence and deletion marks of every account a call
    touches, over a read-through backend, with the undo journal behind
    checkpoint, commit and revert. *)

From stdpp Require Import gmap strings pretty numbers fin_maps prelude.
From S2P Require Import Prelude Types Tvm.
Open Scope Z_scope.

Definition MAX_CALL_DEPTH : nat := 1024.
Definition STACK_LIMIT : nat := 1024.

(** [trait Host] (interp.rs): persistent storage of one contract. *)
Class Host (H : Type) := {
  host_sload : H → Z → Z;
  host_sstore : Z → Z → H → H;
}.

(** [MemoryHost]: zero values are removed. *)
Definition MemoryHost : Type := gmap Z Z.
#[export] Instance MemoryHost_host : Host MemoryHost := {
  host_sload h key := default 0 (h !! key);
  host_sstore key value h := if value =? 0 then delete key h else <[key := value]> h;
}.

(** [trait StateBackend]: what an address reads as when this run has not written it. *)
Record StateBackend := mk_backend {
  back_code : bytes → bytes;
  back_sload : bytes → Z → Z;
  back_balance : Address → Z;
  back_exists : Address → bool;
}.

Inductive Backend (H : Type) :=
| BWorld
| BHost (h : H)
| BState (b : StateBackend).
Arguments BWorld {H}.
Arguments BHost {H} h.
Arguments BState {H} b.

Inductive JournalEntry :=
| JStorage (key : bytes * Z) (prev : option Z)
| JBalance (addr : Address) (prev : Z)
| JAccountCreate (addr : Address)
| JSuicide (addr : Address)
| JBurn (amount : Z).

(** Why a frame stopped. *)
Inductive Halt :=
| HStop
| HReturn
| HRevert
| HSelfDestruct
| HOutOfEnergy
| HStackUnderflow
| HStackOverflow
| HBadOpcode (b : Z)
| HBadJump
| HDepthLimit.

Record CallResult := mk_call_result {
  cr_success : bool;
  cr_halt : Halt;
  cr_energy_used : Z;
  cr_return_data : bytes;
}.

Module World.
(** The journal's last entry comes first. *)
Record t {H : Type} := mk {
  storage : gmap (bytes * Z) Z;
  code : gmap bytes bytes;
  balances : gmap Address Z;
  accounts : gset Address;
  suicides : list Address;
  burned : Z;
  journal : list JournalEntry;
  backend : Backend H;
}.
Arguments t H : clear implicits.
#[global] Instance eta_t {H} : Eta (t H) := λ w,
  mk H (storage w) (code w) (balances w) (accounts w) (suicides w) (burned w) (journal w) (backend w).

Section Ops.
Context {H : Type} `{!Host H}.
Implicit Types w : t H.

Definition new : t H := mk H ∅ ∅ ∅ ∅ [] 0 [] BWorld.
Definition with_host (h : H) : t H := mk H ∅ ∅ ∅ ∅ [] 0 [] (BHost h).
Definition with_state (b : StateBackend) : t H := mk H ∅ ∅ ∅ ∅ [] 0 [] (BState b).
Definition host_backed w : bool := match backend w with BHost _ => true | _ => false end.

Definition set_code (addr c : bytes) w : t H := w <| code ::= insert addr c |>.
Definition get_code (addr : bytes) w : bytes :=
  match code w !! addr with
  | Some c => c
  | None => match backend w with BState b => back_code b addr | _ => [] end
  end.

Definition sload (addr : bytes) (slot : Z) w : Z :=
  match backend w with
  | BHost h => host_sload h slot
  | BWorld => default 0 (storage w !! (addr, slot))
  | BState b => match storage w !! (addr, slot) with Some v => v | None => back_sload b addr slot end
  end.
Definition sstore (addr : bytes) (slot value : Z) w : t H :=
  match backend w with
  | BHost h => w <| backend := BHost (host_sstore slot value h) |>
  | BWorld | BState _ =>
      let key := (addr, slot) in
      let prev := storage w !! key in
      w <| journal ::= cons (JStorage key prev) |> <| storage ::= insert key value |>
  end.

Definition set_balance (addr : Address) (bal : Z) w : t H :=
  w <| accounts ::= union {[addr]} |> <| balances ::= insert addr bal |>.
Definition create_account (addr : Address) w : t H :=
  w <| accounts ::= union {[addr]} |>
    <| balances := match balances w !! addr with
                   | Some _ => balances w | None => <[addr := 0]> (balances w) end |>.
Definition balance (addr : Address) w : Z :=
  match balances w !! addr with
  | Some b => b
  | None => match backend w with BState b => back_balance b addr | _ => 0 end
  end.
Definition account_exists (addr : Address) w : bool :=
  bool_decide (addr ∈ accounts w) ||
  match backend w with BState b => back_exists b addr | _ => false end.
Definition is_suicided (addr : Address) w : bool := bool_decide (addr ∈ suicides w).

Definition write_balance (addr : Address) (new : Z) w : t H :=
  let prev := balance addr w in
  w <| journal ::= cons (JBalance addr prev) |> <| balances ::= insert addr new |>.
Definition ensure_account (addr : Address) w : t H :=
  if bool_decide (addr ∈ accounts w) then w
  else w <| accounts ::= union {[addr]} |> <| journal ::= cons (JAccountCreate addr) |>.

Definition transfer {E} (from to : Address) (amount : Z) : ST (t H) E () := λ w,
  if amount =? 0 then (Ok (), w) else
  let fb := balance from w in
  let tb := balance to w in
  let w := ensure_account from w in
  let w := ensure_account to w in
  match sub_i64 fb amount with
  | Ok f =>
      let w := write_balance from f w in
      match add_i64 tb amount with
      | Ok b => (Ok (), write_balance to b w)
      | Err e => (Err e, w)
      | Panic => (Panic, w)
      end
  | Err e => (Err e, w)
  | Panic => (Panic, w)
  end.

Definition dirty_storage w : list (bytes * Z * Z) := map_to_list (storage w).
Definition dirty_balances w : list (Address * Z) := map_to_list (balances w).
Definition dirty_code w : list (bytes * bytes) := map_to_list (code w).
Definition suicided w : list Address := suicides w.

Definition suicide (contract beneficiary : Address) w : t H :=
  let bal := balance contract w in
  let w :=
    if bool_decide (beneficiary = contract) then
      let w := write_balance contract 0 w in
      if negb (bal =? 0)
      then w <| journal ::= cons (JBurn bal) |> <| burned := saturating_add (burned w) bal |>
      else w
    else
      let w := ensure_account beneficiary w in
      let benef_bal := balance beneficiary w in
      let w := write_balance contract 0 w in
      write_balance beneficiary (saturating_add benef_bal bal) w in
  if negb (bool_decide (contract ∈ suicides w))
  then w <| journal ::= cons (JSuicide contract) |> <| suicides := suicides w ++ [contract] |>
  else w.

Definition checkpoint w : nat := length (journal w).
(** One turn of the loop of [revert_to]. *)
Definition undo (w : t H) (e : JournalEntry) : t H :=
  match e with
  | JStorage key (Some v) => w <| storage ::= insert key v |>
  | JStorage key None => w <| storage ::= delete key |>
  | JBalance addr prev => w <| balances ::= insert addr prev |>
  | JAccountCreate addr => w <| accounts ::= λ s, s ∖ {[addr]} |>
  | JSuicide addr => w <| suicides ::= filter (λ a, a ≠ addr) |>
  | JBurn amount => w <| burned ::= λ b, b - amount |>
  end.
Definition revert_to (cp : nat) w : t H :=
  let n := (length (journal w) - cp)%nat in
  let undone := take n (journal w) in
  foldl undo (w <| journal := drop n (journal w) |>) undone.
Definition commit (cp : nat) w : t H :=
  w <| journal := drop (length (journal w) - cp) (journal w) |>.
End Ops.
End World.

(** ** Observational equality *)

Section Observe.
Context {H : Type} `{!Host H}.
Implicit Types w : World.t H.

(** Two worlds no read can tell apart.  A balance may be written out in one and read
    through in the other; the journal is not observed. *)
Record obs_eq w1 w2 : Prop := {
  obs_storage : World.storage w1 = World.storage w2;
  obs_code : World.code w1 = World.code w2;
  obs_balance : ∀ a, World.balance a w1 = World.balance a w2;
  obs_accounts : World.accounts w1 = World.accounts w2;
  obs_suicides : World.suicides w1 = World.suicides w2;
  obs_burned : World.burned w1 = World.burned w2;
  obs_backend : World.backend w1 = World.backend w2;
}.
#[export] Instance world_equiv : Equiv (World.t H) := obs_eq.

#[export] Instance world_equivalence : Equivalence (≡@{World.t H}).
Proof.
  split.
  - by intros w.
  - intros w1 w2 []. by split.
  - intros w1 w2 w3 [] []. split; intros; etrans; eauto.
Qed.

#[export] Instance sload_proper a s : Proper ((≡) ==> (=)) (World.sload (H := H) a s).
Proof. intros w1 w2 []. unfold World.sload. by repeat case_match; congruence. Qed.
#[export] Instance balance_proper a : Proper ((≡) ==> (=)) (World.balance (H := H) a).
Proof. intros w1 w2 []. done. Qed.
#[export] Instance get_code_proper a : Proper ((≡) ==> (=)) (World.get_code (H := H) a).
Proof. intros w1 w2 [_ Ec _ _ _ _ Eb]. unfold World.get_code. by rewrite Ec, Eb. Qed.
#[export] Instance account_exists_proper a : Proper ((≡) ==> (=)) (World.account_exists (H := H) a).
Proof. intros w1 w2 [_ _ _ Ea _ _ Eb]. unfold World.account_exists. by rewrite Ea, Eb. Qed.

Lemma balance_insert a b v w :
  World.balance a (w <| World.balances ::= insert b v |>)
    = if decide (b = a) then v else World.balance a w.
Proof. unfold World.balance. cbn. rewrite lookup_insert. by case_decide. Qed.

#[export] Instance undo_proper : Proper ((≡) ==> (=) ==> (≡)) (World.undo (H := H)).
Proof.
  intros w1 w2 [E1 E2 E3 E4 E5 E6 E7] e ? <-.
  destruct e as [key [v|]|addr prev|addr|addr|amount]; split; cbn; try congruence; try done.
  intros a. change (World.balance a (w1 <| World.balances ::= insert addr prev |>)
    = World.balance a (w2 <| World.balances ::= insert addr prev |>)).
  rewrite !balance_insert. by rewrite E3.
Qed.

Lemma undo_all_proper w1 w2 es : w1 ≡ w2 → foldl World.undo w1 es ≡ foldl World.undo w2 es.
Proof. revert w1 w2. induction es as [|e es IH]; intros w1 w2 E; [done|]. simpl. apply IH. by rewrite E. Qed.

(** ** Undoing *)

(** The journal of [w'] extends that of [w], and undoing the new entries leads back. *)
Definition undoes w w' : Prop :=
  ∃ js, World.journal w' = js ++ World.journal w ∧ foldl World.undo w' js ≡ w.

Lemma undoes_refl w : undoes w w.
Proof. by exists []. Qed.
Lemma undoes_trans w1 w2 w3 : undoes w1 w2 → undoes w2 w3 → undoes w1 w3.
Proof.
  intros (js & E & U) (ks & E' & U'). exists (ks ++ js).
  rewrite E', E, foldl_app, app_assoc. split; [done|]. by rewrite (undo_all_proper _ w2).
Qed.
Lemma undoes_one w w' e :
  World.journal w' = e :: World.journal w → World.undo w' e ≡ w → undoes w w'.
Proof. intros E U. by exists [e]. Qed.

Lemma undoes_sstore a s v w : World.host_backed w = false → undoes w (World.sstore a s v w).
Proof.
  unfold World.sstore, World.host_backed.
  destruct (World.backend w) eqn:Eb; [|done|]; intros _;
    (eapply undoes_one; [done|]; destruct (World.storage w !! (a, s)) eqn:E; split; cbn; try done;
     [rewrite insert_insert_eq, insert_id; done|by rewrite delete_insert_id]).
Qed.

Lemma undoes_write_balance a v w : undoes w (World.write_balance a v w).
Proof.
  eapply undoes_one; [done|]. split; try done. intros b. cbn.
  change (World.balance b (w <| World.balances ::= insert a v |> <| World.balances ::= insert a (World.balance a w) |>)
    = World.balance b w).
  rewrite !balance_insert. case_decide; [by subst|done].
Qed.

Lemma undoes_ensure_account a w : undoes w (World.ensure_account a w).
Proof.
  unfold World.ensure_account. case_bool_decide as Ha; [apply undoes_refl|].
  eapply undoes_one; [done|]. split; try done. cbn. set_solver.
Qed.

Lemma undoes_transfer {E} f t amt w w' :
  World.transfer (E := E) f t amt w = (Ok (), w') → undoes w w'.
Proof.
  unfold World.transfer. destruct (amt =? 0); [intros [= <-]; apply undoes_refl|].
  destruct (sub_i64 _ _); [|done..]. destruct (add_i64 _ _); [|done..]. intros [= <-].
  eapply undoes_trans; [|apply undoes_write_balance]. eapply undoes_trans; [|apply undoes_write_balance].
  eapply undoes_trans; apply undoes_ensure_account.
Qed.

Lemma undoes_burn amt w :
  is_i64 (World.burned w + amt) →
  undoes w (w <| World.journal ::= cons (JBurn amt) |>
    <| World.burned := saturating_add (World.burned w) amt |>).
Proof.
  intros Hb. eapply undoes_one; [done|]. split; try done. cbn.
  unfold saturating_add, sat_i64. i64_lia.
Qed.

Lemma filter_ne (c : Address) (l : list Address) : c ∉ l → filter (λ a, a ≠ c) l = l.
Proof.
  induction l as [|x l IH]; intros Hc; [done|]. apply not_elem_of_cons in Hc as [Hx Hc].
  rewrite filter_cons_True by done. by rewrite IH.
Qed.

Lemma undoes_mark c w :
  c ∉ World.suicides w →
  undoes w (w <| World.journal ::= cons (JSuicide c) |> <| World.suicides := World.suicides w ++ [c] |>).
Proof.
  intros Hc. eapply undoes_one; [done|]. split; try done. cbn. rewrite filter_app.
  rewrite filter_ne, filter_cons_False by (done || by intros []). by rewrite filter_nil, app_nil_r.
Qed.

Lemma undoes_suicide c b w :
  is_i64 (World.burned w + World.balance c w) → undoes w (World.suicide c b w).
Proof.
  intros Hb. unfold World.suicide.
  match goal with |- undoes w (if _ then upd _ _ (upd _ _ ?x) else _) => set (w1 := x) end.
  assert (undoes w w1) as H1.
  { unfold w1. case_bool_decide.
    - destruct (negb _); [|apply undoes_write_balance].
      eapply undoes_trans; [apply undoes_write_balance|]. by apply undoes_burn.
    - eapply undoes_trans; [|apply undoes_write_balance]. eapply undoes_trans; [|apply undoes_write_balance].
      apply undoes_ensure_account. }
  case_bool_decide; simpl; [done|]. eapply undoes_trans; [exact H1|]. by apply undoes_mark.
Qed.

(** Reverting to a checkpoint undoes what was journaled since. *)
Lemma undoes_revert w w' :
  undoes w w' →
  World.revert_to (World.checkpoint w) w' ≡ w ∧
  World.journal (World.revert_to (World.checkpoint w) w') = World.journal w.
Proof.
  intros (js & E & U). unfold World.revert_to, World.checkpoint. rewrite E, length_app.
  replace (length js + length (World.journal w) - length (World.journal w))%nat with (length js) by lia.
  rewrite take_app_length, drop_app_length. split.
  - rewrite <-U. apply undo_all_proper. by split.
  - assert (Hj : ∀ x : World.t H, World.journal (foldl World.undo x js) = World.journal x).
    { clear. induction js as [|e js IH]; intros x; [done|]. simpl. rewrite IH.
      by destruct e as [? []| | | |]. }
    by rewrite Hj.
Qed.

(** ** Executions of a frame *)

(** What a frame none of whose sub-calls has been committed may do to the world: storage
    writes, transfers, self-destructs, and calls that fail and are reverted. *)
Inductive writes w : World.t H → Prop :=
| writes_nil : writes w w
| writes_store w' a s v : writes w w' → writes w (World.sstore a s v w')
| writes_transfer w' w'' f t amt :
    writes w w' → World.transfer (E := ()) f t amt w' = (Ok (), w'') → writes w w''
| writes_suicide w' c b :
    writes w w' → is_i64 (World.burned w' + World.balance c w') → writes w (World.suicide c b w')
| writes_failed_call w1 w2 :
    writes w w1 → writes w1 w2 → writes w (World.revert_to (World.checkpoint w1) w2).

Lemma undoes_host_backed w w' : undoes w w' → World.host_backed w' = World.host_backed w.
Proof.
  intros (js & _ & [_ _ _ _ _ _ Eb]). unfold World.host_backed. rewrite <-Eb. clear.
  revert w'. induction js as [|e js IH]; intros w'; [done|]. simpl. rewrite <-IH.
  by destruct e as [? []| | | |].
Qed.

Lemma undoes_equiv w w1 w2 :
  undoes w w1 → w2 ≡ w1 → World.journal w2 = World.journal w1 → undoes w w2.
Proof.
  intros (js & E & U) Eq Ej. exists js. split; [congruence|]. by rewrite (undo_all_proper _ w1).
Qed.

Lemma writes_undoes w w' : World.host_backed w = false → writes w w' → undoes w w'.
Proof.
  intros Hh Hw. induction Hw as [|w w' a s v _ IH|w w' w'' f t amt _ IH E|w w' c b _ IH Hb|w w1 w2 _ IH1 _ IH2].
  - apply undoes_refl.
  - eapply undoes_trans; [by apply IH|]. apply undoes_sstore.
    rewrite (undoes_host_backed w w'); auto.
  - eapply undoes_trans; [by apply IH|]. by eapply undoes_transfer.
  - eapply undoes_trans; [by apply IH|]. by apply undoes_suicide.
  - assert (undoes w1 w2) as H12 by (apply IH2; rewrite (undoes_host_backed w w1); auto).
    apply undoes_revert in H12 as [Eq Ej]. eapply undoes_equiv; eauto.
Qed.

(** The undo records of a committed call are dropped: a frame that reverts afterwards
    keeps everything the call did. *)
Lemma commit_survives_revert w w' :
  undoes w w' →
  World.revert_to (World.checkpoint w) (World.commit (World.checkpoint w) w') ≡ w'.
Proof.
  intros (js & E & _). unfold World.revert_to, World.commit, World.checkpoint. cbn. rewrite E, length_app.
  replace (length js + length (World.journal w) - length (World.journal w))%nat with (length js) by lia.
  rewrite drop_app_length, Nat.sub_diag. by split.
Qed.

(** No operation takes an entry out of the written balances. *)
Lemma undo_balances_dom w e : dom (World.balances w) ⊆ dom (World.balances (World.undo w e)).
Proof. destruct e as [? []| | | |]; cbn; set_solver. Qed.
Lemma revert_balances_dom cp w : dom (World.balances w) ⊆ dom (World.balances (World.revert_to cp w)).
Proof.
  unfold World.revert_to. generalize (take (length (World.journal w) - cp) (World.journal w)) as js. intros js.
  change (World.balances w) with (World.balances (w <| World.journal := drop (length (World.journal w) - cp) (World.journal w) |>)).
  generalize (w <| World.journal := drop (length (World.journal w) - cp) (World.journal w) |>) as v.
  induction js as [|e js IH]; intros v; [done|]. simpl. etrans; [apply (undo_balances_dom v e)|apply IH].
Qed.
Lemma ensure_account_balances a w : World.balances (World.ensure_account a w) = World.balances w.
Proof. unfold World.ensure_account. by case_bool_decide. Qed.
Lemma writes_balances_dom w w' : writes w w' → dom (World.balances w) ⊆ dom (World.balances w').
Proof.
  induction 1 as [|w w' a s v _ IH|w w' w'' f t amt _ IH E|w w' c b _ IH _|w w1 w2 _ IH1 _ IH2].
  - done.
  - unfold World.sstore. by destruct (World.backend w').
  - revert E. unfold World.transfer. destruct (amt =? 0); [by intros [= <-]|].
    destruct (sub_i64 _ _); [|done..]. destruct (add_i64 _ _); [|done..]. intros [= <-].
    unfold World.write_balance. cbn. rewrite !ensure_account_balances. set_solver.
  - unfold World.suicide, World.write_balance. repeat case_match; cbn; rewrite ?ensure_account_balances; set_solver.
  - etrans; [exact IH1|]. etrans; [exact IH2|]. apply revert_balances_dom.
Qed.

(** C7: reverting undoes a frame.  Take a world over several accounts (not the storage of a
    single contract behind a [Host]) and let a frame store, transfer and self-destruct, the
    total of burned TRX staying in 64 bits, and make calls that fail; none of its calls has
    been committed, which would drop their undo records.  Reverting to the frame's checkpoint
    restores every storage slot, the code, every balance and account, the deletion marks, the
    burned amount and the journal.  Of the pending writes, storage, code and deletions are
    exactly those of before; the pending balances are those of before, and possibly further
    ones, each of them the balance the account had. *)
Theorem revert_restores w w' :
  World.host_backed w = false → writes w w' →
  let r := World.revert_to (World.checkpoint w) w' in
  r ≡ w ∧ World.journal r = World.journal w ∧
  (∀ a s, World.sload a s r = World.sload a s w) ∧ (∀ a, World.balance a r = World.balance a w) ∧
  (∀ a, World.account_exists a r = World.account_exists a w) ∧
  World.dirty_storage r = World.dirty_storage w ∧ World.dirty_code r = World.dirty_code w ∧
  World.suicided r = World.suicided w ∧
  (∀ e, e ∈ World.dirty_balances w → e ∈ World.dirty_balances r) ∧
  (∀ a v, (a, v) ∈ World.dirty_balances r → v = World.balance a w).
Proof.
  intros Hh Hw r. destruct (undoes_revert w w' (writes_undoes w w' Hh Hw)) as [E Ej]. fold r in E, Ej.
  assert (∀ a v, World.balances r !! a = Some v → v = World.balance a w) as Hb.
  { intros a v Ha. rewrite <-(obs_balance _ _ E a). unfold World.balance. by rewrite Ha. }
  split_and!; [done|done|intros; by rewrite E..| | | | |].
  - unfold World.dirty_storage. by rewrite (obs_storage _ _ E).
  - unfold World.dirty_code. by rewrite (obs_code _ _ E).
  - apply (obs_suicides _ _ E).
  - intros [a v] Ha%elem_of_map_to_list. apply elem_of_map_to_list.
    assert (a ∈ dom (World.balances r)) as [v' Hv]%elem_of_dom.
    { apply revert_balances_dom, (writes_balances_dom w w' Hw). by apply elem_of_dom_2 in Ha. }
    rewrite Hv. f_equal. rewrite (Hb a v' Hv). unfold World.balance. by rewrite Ha.
  - intros a v Ha%elem_of_map_to_list. by apply Hb.
Qed.
End Observe.

Module FrameSample.
Definition addr (n : Z) : Address := 65 :: replicate 20 n.
Definition w0 : World.t MemoryHost := World.set_balance (addr 1) 900 World.new.
Definition w1 : World.t MemoryHost :=
  World.suicide (addr 1) (addr 2) (World.sstore (replicate 20 1) 5 7 w0).
End FrameSample.

Lemma revert_restores_witness :
  World.balance (FrameSample.addr 2) FrameSample.w1 = 900 ∧
  World.balance (FrameSample.addr 1) (World.revert_to (World.checkpoint FrameSample.w0) FrameSample.w1) = 900.
Proof.
  split; [by vm_compute|].
  destruct (revert_restores FrameSample.w0 FrameSample.w1) as (_ & _ & _ & Hb & _).
  - done.
  - apply writes_suicide; [apply writes_store, writes_nil|]. apply (bool_decide_unpack _). by vm_compute.
  - rewrite Hb. by vm_compute.
Defined.
