(* ===== verification/Engine.v ===== *)
(** * The TVM execution loop (crates/vm/src/engine.rs, interp.rs, call.rs)

    One dispatch loop with stack, memory, energy meter, journaled world, nested calls and
    self-destruct.  A frame runs in a state monad whose error is the reason it stopped; the
    loop takes fuel, and one unit more than the energy limit is always enough, because
    every turn that does not stop the frame costs energy. *)

From stdpp Require Import gmap strings pretty numbers fin_maps prelude.
From Stdlib Require Import Zpow_facts.
From S2P Require Import Prelude Types Chain Tvm Frame.
Open Scope Z_scope.

(** ** 256-bit words *)

Definition U256_MAX : Z := 2 ^ 256 - 1.
Definition is_u256 (z : Z) : Prop := 0 ≤ z ≤ U256_MAX.
#[export] Instance is_u256_dec z : Decision (is_u256 z).
Proof. unfold is_u256. apply _. Defined.
Definition wrap_u256 (z : Z) : Z := z mod 2 ^ 256.
Definition low_u64 (z : Z) : Z := z mod 2 ^ 64.
Definition of_bool (b : bool) : Z := if b then 1 else 0.

(** ** Frames *)

Record Exec := mk_exec {
  halt : Halt;
  energy_used : Z;
  return_data : bytes;
  stack_top : option Z;
}.
Definition halt_is_success (h : Halt) : bool :=
  match h with HStop | HReturn | HSelfDestruct => true | _ => false end.

(** How the loop is left: the frame stopped with output, or the fuel ran out. *)
Inductive exit := Exit (h : Halt) (out : bytes) | NoFuel.

(** The parameters of a frame and its local state; the stack's top comes first. *)
Record frame := mk_frame {
  f_address : bytes;
  f_code : bytes;
  f_calldata : bytes;
  f_depth : nat;
}.
Record vm {H : Type} := mk_vm {
  v_world : World.t H;
  v_stack : list Z;
  v_mem : Memory.t;
  v_ret : bytes;
  v_pc : nat;
  v_meter : EnergyMeter.t;
}.
Arguments vm H : clear implicits.
#[export] Instance eta_vm {H} : Eta (vm H) := λ s,
  mk_vm H (v_world s) (v_stack s) (v_mem s) (v_ret s) (v_pc s) (v_meter s).

Section Engine.
Context {H : Type} `{!Host H} `{Hashes} `{Secp}.

Abbreviation V A := (ST (vm H) exit A).

Definition stop {A} (h : Halt) : V A := lift (Err (Exit h [])).
Definition stop_out {A} (h : Halt) (out : bytes) : V A := lift (Err (Exit h out)).
Definition pop : V Z := λ s,
  match v_stack s with
  | v :: st => (Ok v, s <| v_stack := st |>)
  | [] => stop HStackUnderflow s
  end.
Definition push (v : Z) : V () := λ s,
  if bool_decide (STACK_LIMIT ≤ length (v_stack s))%nat then stop HStackOverflow s
  else (Ok (), s <| v_stack ::= cons v |>).
Definition charge (amount : Z) : V () := λ s,
  let m := EnergyMeter.charge amount (v_meter s) in
  if m.2 then (Ok (), s <| v_meter := m.1 |>) else stop HOutOfEnergy s.
(** [charge!(mem.expand_to(end))]: the memory has grown when the charge is made. *)
Definition expand (end_ : Z) : V () :=
  s ← gets v_mem;
  r ← lift (Memory.expand_to end_ s);
  _ ← modify (upd v_mem (λ _, r.1));
  charge r.2.
Definition pop_u64 : V Z := w ← pop; mret (low_u64 w).
Definition binop (f : Z → Z → Z) : V () := a ← pop; b ← pop; push (f a b).
(** The copy loops of RETURNDATACOPY and CALLDATACOPY. *)
Definition copy_op (src : vm H → bytes) : V () :=
  dest ← pop_u64;
  off ← pop_u64;
  len ← pop_u64;
  _ ← expand (saturating_add_u64 dest len);
  s ← gets src;
  bs ← lift (read_bytes s off len);
  m ← gets v_mem;
  m ← lift (write_bytes m dest bs);
  modify (upd v_mem (λ _, m)).
Definition jump_to (f : frame) (dest : Z) : V () :=
  if Z.of_nat (length (f_code f)) <? dest then stop HBadJump else
  let d := Z.to_nat (low_u64 dest) in
  if bool_decide (f_code f !! d = Some (OpCode.as_u8 OpCode.Jumpdest))
  then modify (upd v_pc (λ _, d)) else stop HBadJump.

(** What a nested frame is run with: world, address, code, input, energy and depth. *)
Definition runner : Type := World.t H → bytes → bytes → bytes → Z → nat → res exit Exec * World.t H.

(** The inter-contract part of CALL. *)
Definition sub_call (run : runner) (f : frame) (gas : Z) (callee callee_code input : bytes) :
    V (bool * bytes) := λ s,
  let remaining := EnergyMeter.remaining (v_meter s) in
  let max_forward := remaining - remaining / 64 in
  let forwarded := Z.min (low_u64 gas) max_forward in
  let cp := World.checkpoint (v_world s) in
  match run (v_world s) callee callee_code input forwarded (S (f_depth f)) with
  | (Ok e, w) =>
      let ok := halt_is_success (halt e) in
      let w := if ok then World.commit cp w else World.revert_to cp w in
      let meter := (EnergyMeter.charge (energy_used e) (v_meter s)).1 in
      (Ok (ok, return_data e), s <| v_world := w |> <| v_meter := meter |>)
  | (Err e, w) => (Err e, s <| v_world := w |>)
  | (Panic, w) => (Panic, s <| v_world := w |>)
  end.

Definition call_op (run : runner) (f : frame) : V () :=
  gas ← pop;
  addr_word ← pop;
  _ ← pop;
  args_off ← pop_u64;
  args_len ← pop_u64;
  ret_off ← pop_u64;
  ret_len ← pop_u64;
  _ ← expand (saturating_add_u64 args_off args_len);
  m ← gets v_mem;
  input ← lift (get_range m args_off args_len);
  let low := Z.land (low_u64 addr_word) 255 in
  r ← match (if addr_word <? 256 then precompile.energy_for low input else None) with
      | Some cost =>
          _ ← charge cost;
          mret (true, default [] (precompile.execute low input))
      | None =>
          let callee := drop 12 (to_be_bytes 32 addr_word) in
          callee_code ← gets (λ s, World.get_code callee (v_world s));
          if bool_decide (callee_code = []) then mret (false, [])
          else sub_call run f gas callee callee_code input
      end;
  _ ← modify (upd v_ret (λ _, r.2));
  _ ← (if r.1 && (0 <? ret_len) then
         _ ← expand (saturating_add_u64 ret_off ret_len);
         m ← gets v_mem;
         m ← lift (write_bytes m ret_off (take (Z.to_nat (Z.min ret_len (Z.of_nat (length r.2)))) r.2));
         modify (upd v_mem (λ _, m))
       else mret ());
  push (of_bool r.1).

Definition return_op (h : Halt) : V () :=
  off ← pop_u64;
  len ← pop_u64;
  _ ← expand (saturating_add_u64 off len);
  m ← gets v_mem;
  out ← lift (get_range m off len);
  stop_out h out.

Definition selfdestruct_op (f : frame) : V () :=
  w ← gets v_world;
  if World.host_backed w then stop (HBadOpcode 255) else
  word ← pop;
  let beneficiary := Addr.from_body (drop 12 (to_be_bytes 32 word)) in
  if negb (bool_decide (length (f_address f) = 20%nat)) then stop (HBadOpcode 255) else
  let self_addr := Addr.from_body (f_address f) in
  _ ← charge (suicide_cost (World.account_exists beneficiary w));
  _ ← modify (upd v_world (World.suicide self_addr beneficiary));
  stop HSelfDestruct.

Definition sstore_op (f : frame) : V () :=
  key ← pop;
  value ← pop;
  current ← gets (λ s, World.sload (f_address f) key (v_world s));
  _ ← charge (sstore_cost (current =? 0) (value =? 0));
  modify (upd v_world (World.sstore (f_address f) key value)).

Definition vote_witness_op : V () :=
  amount_len ← pop_u64;
  amount_off ← pop_u64;
  witness_len ← pop_u64;
  witness_off ← pop_u64;
  _ ← charge VOTE_WITNESS;
  _ ← expand (vote_witness_mem_needed witness_off witness_len amount_off amount_len);
  push 0.

(** The operations that neither jump, call, store nor stop. *)
Definition simple_op (f : frame) (op : OpCode.t) : V () :=
  match op with
  | OpCode.Stop => stop HStop
  | OpCode.Add => binop (λ a b, wrap_u256 (a + b))
  | OpCode.Sub => binop (λ a b, wrap_u256 (a - b))
  | OpCode.Mul => binop (λ a b, wrap_u256 (a * b))
  | OpCode.Div => binop (λ a b, if b =? 0 then 0 else a / b)
  | OpCode.Mod => binop (λ a b, if b =? 0 then 0 else a mod b)
  | OpCode.Exp => binop (λ a b, Zpow_mod a b (2 ^ 256))
  | OpCode.Lt => binop (λ a b, of_bool (a <? b))
  | OpCode.Gt => binop (λ a b, of_bool (b <? a))
  | OpCode.Eq => binop (λ a b, of_bool (a =? b))
  | OpCode.IsZero => a ← pop; push (of_bool (a =? 0))
  | OpCode.And => binop Z.land
  | OpCode.Or => binop Z.lor
  | OpCode.Xor => binop Z.lxor
  | OpCode.Pop => _ ← pop; mret ()
  | OpCode.Dup1 =>
      st ← gets v_stack;
      match st with [] => stop HStackUnderflow | a :: _ => push a end
  | OpCode.Swap1 =>
      st ← gets v_stack;
      match st with
      | a :: b :: st => modify (upd v_stack (λ _, b :: a :: st))
      | _ => stop HStackUnderflow
      end
  | OpCode.Push1 =>
      _ ← modify (upd v_pc S);
      pc ← gets v_pc;
      push (default 0 (f_code f !! pc))
  | OpCode.Push2 =>
      pc ← gets v_pc;
      let hi := default 0 (f_code f !! (pc + 1)%nat) in
      let lo := default 0 (f_code f !! (pc + 2)%nat) in
      _ ← modify (upd v_pc (λ pc, pc + 2)%nat);
      push (Z.lor (Z.shiftl hi 8) lo)
  | OpCode.CallDataLoad =>
      off ← pop_u64;
      buf ← lift (read_bytes (f_calldata f) off 32);
      push (from_be_unsigned buf)
  | OpCode.CallDataSize => push (Z.of_nat (length (f_calldata f)))
  | OpCode.ReturnDataSize => r ← gets v_ret; push (Z.of_nat (length r))
  | OpCode.ReturnDataCopy => copy_op v_ret
  | OpCode.CallDataCopy => copy_op (λ _, f_calldata f)
  | OpCode.Mload =>
      off ← pop_u64;
      _ ← expand (saturating_add_u64 off 32);
      m ← gets v_mem;
      v ← lift (Memory.load off m);
      push v
  | OpCode.Mstore =>
      off ← pop_u64;
      val ← pop;
      _ ← expand (saturating_add_u64 off 32);
      m ← gets v_mem;
      m ← lift (Memory.store off val m);
      modify (upd v_mem (λ _, m))
  | OpCode.Mstore8 =>
      off ← pop_u64;
      val ← pop;
      _ ← expand (saturating_add_u64 off 1);
      m ← gets v_mem;
      m ← lift (write_bytes m off [Z.land (low_u64 val) 255]);
      modify (upd v_mem (λ _, m))
  | OpCode.Sload =>
      key ← pop;
      v ← gets (λ s, World.sload (f_address f) key (v_world s));
      push v
  | OpCode.Jumpdest => mret ()
  | OpCode.Return => return_op HReturn
  | OpCode.Revert => return_op HRevert
  | OpCode.VoteWitness => vote_witness_op
  | other => stop (HBadOpcode (OpCode.as_u8 other))
  end.

(** [match op { .. }]; the answer says whether the arm ends in [continue]. *)
Definition exec_op (run : runner) (f : frame) (op : OpCode.t) : V bool :=
  match op with
  | OpCode.Jump => dest ← pop; _ ← jump_to f dest; mret true
  | OpCode.Jumpi =>
      dest ← pop;
      cond ← pop;
      if negb (cond =? 0) then _ ← jump_to f dest; mret true else mret false
  | OpCode.Call => _ ← call_op run f; mret false
  | OpCode.Sstore => _ ← sstore_op f; mret false
  | OpCode.SelfDestruct => _ ← selfdestruct_op f; mret false
  | op => _ ← simple_op f op; mret false
  end.

(** One turn of the loop. *)
Definition step (run : runner) (f : frame) (byte : Z) : V () :=
  match OpCode.from_u8 byte with
  | None => stop (HBadOpcode byte)
  | Some op =>
      _ ← (if bool_decide (op = OpCode.Sstore) then mret () else charge (base_cost op));
      jumped ← exec_op run f op;
      if (jumped : bool) then mret () else modify (upd v_pc S)
  end.

(** [run_frame] around the loop. *)
Definition frame_with (loop : frame → V Empty_set) : runner := λ w address code calldata limit depth,
  if bool_decide (MAX_CALL_DEPTH < depth)%nat then (Ok (mk_exec HDepthLimit 0 [] None), w) else
  let s := mk_vm H w [] [] [] 0 (EnergyMeter.new limit) in
  match loop (mk_frame address code calldata depth) s with
  | (Ok e, _) => match e with end
  | (Err (Exit h out), s) =>
      (Ok (mk_exec h (EnergyMeter.used (v_meter s)) out (head (v_stack s))), v_world s)
  | (Err NoFuel, s) => (Err NoFuel, v_world s)
  | (Panic, s) => (Panic, v_world s)
  end.

Fixpoint run_loop (fuel : nat) (f : frame) : V Empty_set :=
  match fuel with
  | O => lift (Err NoFuel)
  | S fuel =>
      pc ← gets v_pc;
      match f_code f !! pc with
      | None => stop HStop
      | Some byte =>
          _ ← step (frame_with (run_loop fuel)) f byte;
          run_loop fuel f
      end
  end.
Definition run_frame_fuel (fuel : nat) : runner := frame_with (run_loop fuel).
Definition run_frame : runner := λ w address code calldata limit depth,
  run_frame_fuel (S (Z.to_nat limit)) w address code calldata limit depth.

Definition to_call_result (e : Exec) : CallResult :=
  mk_call_result (halt_is_success (halt e)) (halt e) (energy_used e) (return_data e).
Definition execute_code (address code calldata : bytes) (energy_limit : Z) (depth : nat) :
    ST (World.t H) exit CallResult := λ w,
  match run_frame w address code calldata energy_limit depth with
  | (Ok e, w) => (Ok (to_call_result e), w)
  | (Err e, w) => (Err e, w)
  | (Panic, w) => (Panic, w)
  end.
Definition execute_call (address calldata : bytes) (energy_limit : Z) (depth : nat) :
    ST (World.t H) exit CallResult :=
  code ← gets (World.get_code address);
  execute_code address code calldata energy_limit depth.
Definition execute (address : bytes) (energy_limit : Z) (depth : nat) : ST (World.t H) exit CallResult :=
  execute_call address [] energy_limit depth.
End Engine.

(** ** The single-contract entry (interp.rs) *)

Module interp.
Inductive Halt :=
| Stop
| Return
| Revert
| OutOfEnergy
| StackUnderflow
| StackOverflow
| BadOpcode (b : Z)
| BadJump.
Record Outcome := mk_outcome {
  halt : Halt;
  stack_top : option Z;
  energy_used : Z;
  return_data : bytes;
}.
Definition map_halt (h : Frame.Halt) : Halt :=
  match h with
  | HStop | HSelfDestruct => Stop
  | HReturn => Return
  | HRevert => Revert
  | HOutOfEnergy | HDepthLimit => OutOfEnergy
  | HStackUnderflow => StackUnderflow
  | HStackOverflow => StackOverflow
  | HBadOpcode b => BadOpcode b
  | HBadJump => BadJump
  end.

Section Run.
Context {H : Type} `{!Host H} `{Hashes} `{Secp}.
Definition SELF_ADDR : bytes := replicate 20 0.
(** The host is borrowed by the world for the run. *)
Definition run_with_input (code calldata : bytes) (limit : Z) : ST H exit Outcome := λ host,
  let r := run_frame (World.with_host host) SELF_ADDR code calldata limit 0%nat in
  let host := match World.backend r.2 with BHost h => h | _ => host end in
  match r.1 with
  | Ok e => (Ok (mk_outcome (map_halt (Engine.halt e)) (Engine.stack_top e) (Engine.energy_used e)
                   (Engine.return_data e)), host)
  | Err e => (Err e, host)
  | Panic => (Panic, host)
  end.
Definition run (code : bytes) (limit : Z) : ST H exit Outcome := run_with_input code [] limit.
End Run.
End interp.

(** ** Call dispatch (call.rs) *)

Module call.
Record CallResult := mk_result { success : bool; output : bytes; energy_used : Z }.
Definition call {H : Type} `{!Host H} `{Hashes} `{Secp} (address_low_byte : Z) (input code : bytes)
    (energy_limit : Z) : ST H exit CallResult :=
  match precompile.energy_for address_low_byte input with
  | Some cost =>
      if energy_limit <? cost then mret (mk_result false [] energy_limit)
      else mret (mk_result true (default [] (precompile.execute address_low_byte input)) cost)
  | None =>
      r ← interp.run_with_input code input energy_limit;
      let success := match interp.halt r with interp.Stop | interp.Return => true | _ => false end in
      mret (mk_result success [] (interp.energy_used r))
  end.
End call.
