(* ===== verification/EngineSafe.v ===== *)
(** * Safety of the TVM loop

    A small program logic for the frame monad of Engine.v: a frame's state stays well
    typed and within its energy limit through every operation, every turn of the loop that
    does not stop costs energy, and so a frame always ends with a result, whose size is
    independent of the fuel. *)

From stdpp Require Import gmap strings pretty numbers fin_maps prelude.
From Stdlib Require Import Zpow_facts.
From S2P Require Import Prelude Types Chain Tvm Frame Engine.
Open Scope Z_scope.

(** A host stores words. *)
Class HostLaws (H : Type) `{Host H} := host_sstore_ok (h : H) slot v :
  (∀ k, is_u256 (host_sload h k)) → is_u256 v → ∀ k, is_u256 (host_sload (host_sstore slot v h) k).

#[export] Instance MemoryHost_laws : HostLaws MemoryHost.
Proof.
  intros h slot v Hh Hv k. unfold MemoryHost in *.
  change (is_u256 (default 0 ((if v =? 0 then delete slot h else <[slot := v]> h : gmap Z Z) !! k))).
  destruct (v =? 0).
  - rewrite lookup_delete. case_decide; [by vm_compute|apply Hh].
  - rewrite lookup_insert. case_decide; [done|apply Hh].
Qed.

(** ** Words *)

Lemma u256_pow z : is_u256 z ↔ 0 ≤ z < 2 ^ 256.
Proof. unfold is_u256, U256_MAX. lia. Qed.
Lemma u256_of_bool b : is_u256 (of_bool b).
Proof. by destruct b; vm_compute. Qed.
Lemma u256_wrap z : is_u256 (wrap_u256 z).
Proof. apply u256_pow, Z.mod_pos_bound. lia. Qed.
Lemma u256_u64 z : 0 ≤ z ≤ U64_MAX → is_u256 z.
Proof. rewrite u256_pow. unfold U64_MAX. lia. Qed.
Lemma u256_div a b : is_u256 a → is_u256 b → is_u256 (if b =? 0 then 0 else a / b).
Proof.
  rewrite !u256_pow. intros Ha Hb. destruct (Z.eqb_spec b 0); [lia|].
  pose proof (Z.div_pos a b). pose proof (Z.div_le_upper_bound a b a). nia.
Qed.
Lemma u256_mod a b : is_u256 a → is_u256 b → is_u256 (if b =? 0 then 0 else a mod b).
Proof.
  rewrite !u256_pow. intros Ha Hb. destruct (Z.eqb_spec b 0); [lia|].
  pose proof (Z.mod_pos_bound a b). lia.
Qed.
Lemma u256_pow_mod a b : is_u256 (Zpow_mod a b (2 ^ 256)).
Proof. rewrite Zpow_mod_correct by lia. apply u256_pow, Z.mod_pos_bound. lia. Qed.
Lemma u256_bits (f : Z → Z → Z) (g : bool → bool → bool) a b :
  (∀ a b, 0 ≤ a → 0 ≤ b → 0 ≤ f a b) → (∀ a b n, Z.testbit (f a b) n = g (Z.testbit a n) (Z.testbit b n)) →
  g false false = false → is_u256 a → is_u256 b → is_u256 (f a b).
Proof.
  rewrite !u256_pow. intros Hf Hb Hg Hx Hy. split; [apply Hf; lia|].
  apply Z.bounded_iff_bits_nonneg; [lia|apply Hf; lia|]. intros n Hn. rewrite Hb.
  rewrite (proj1 (Z.bounded_iff_bits_nonneg 256 a ltac:(lia) ltac:(lia)) ltac:(lia) n Hn).
  by rewrite (proj1 (Z.bounded_iff_bits_nonneg 256 b ltac:(lia) ltac:(lia)) ltac:(lia) n Hn).
Qed.
Lemma u256_land a b : is_u256 a → is_u256 b → is_u256 (Z.land a b).
Proof. apply (u256_bits Z.land andb); [intros; apply Z.land_nonneg; lia|intros; apply Z.land_spec|done]. Qed.
Lemma u256_lor a b : is_u256 a → is_u256 b → is_u256 (Z.lor a b).
Proof. apply (u256_bits Z.lor orb); [intros; by apply Z.lor_nonneg|intros; apply Z.lor_spec|done]. Qed.
Lemma u256_lxor a b : is_u256 a → is_u256 b → is_u256 (Z.lxor a b).
Proof. apply (u256_bits Z.lxor xorb); [intros; by apply Z.lxor_nonneg|intros; apply Z.lxor_spec|done]. Qed.
Lemma u256_from_be bs : Forall is_byte bs → length bs = 32%nat → is_u256 (from_be_unsigned bs).
Proof.
  intros Hb Hl. pose proof (be_combine_bound bs Hb) as Hr. rewrite Hl in Hr.
  apply u256_pow. change (2 ^ 256) with (256 ^ Z.of_nat 32). exact Hr.
Qed.
Lemma be_split_bytes n z : Forall is_byte (be_split n z).
Proof.
  revert z. induction n as [|n IH]; intros z; simpl; [constructor|]. apply Forall_app. split; [apply IH|].
  apply Forall_singleton. unfold is_byte. apply Z.mod_pos_bound. lia.
Qed.
Lemma low_byte z : is_byte (Z.land (low_u64 z) 255).
Proof.
  change 255 with (Z.ones 8). rewrite Z.land_ones by lia. unfold is_byte. apply Z.mod_pos_bound. lia.
Qed.
Lemma byte_lookup bs (i : nat) : Forall is_byte bs → is_byte (default 0 (bs !! i)).
Proof. intros Hb. destruct (bs !! i) eqn:E; [by apply (Forall_lookup_1 _ _ _ _ Hb E)|by vm_compute]. Qed.
Lemma u256_byte b : is_byte b → is_u256 b.
Proof. intros Hb. apply u256_u64. unfold is_byte, U64_MAX in *. lia. Qed.

Create HintDb vm.
#[export] Hint Resolve u256_of_bool u256_wrap u256_div u256_mod u256_pow_mod u256_land u256_lor u256_lxor
  u256_u64 u256_byte byte_lookup low_byte : vm.

Section Safe.
Context {H : Type} `{HostLaws H} `{HashLaws} `{Secp}.
Implicit Types (w : World.t H) (s : vm H).

(** ** Well-typed states *)

Definition entry_ok (e : JournalEntry) : Prop :=
  match e with JStorage _ (Some v) => is_u256 v | _ => True end.
Definition backend_ok (b : Backend H) : Prop :=
  match b with
  | BWorld => True
  | BHost h => ∀ k, is_u256 (host_sload h k)
  | BState b => (∀ a k, is_u256 (back_sload b a k)) ∧ ∀ a, Forall is_byte (back_code b a)
  end.
Record world_ok w : Prop := {
  wok_storage : map_Forall (λ _, is_u256) (World.storage w);
  wok_journal : Forall entry_ok (World.journal w);
  wok_code : map_Forall (λ _, Forall is_byte) (World.code w);
  wok_backend : backend_ok (World.backend w);
}.

(** Buffers of bytes that a [usize] measures; memory is a whole number of words. *)
Definition buf_ok (bs : bytes) : Prop := Forall is_byte bs ∧ Z.of_nat (length bs) ≤ U64_MAX.
Definition mem_ok (m : Memory.t) : Prop := buf_ok m ∧ (length m mod 32 = 0)%nat.

(** A frame in the middle of a run with energy limit [lim] that has used at least [lo]. *)
Record vm_ok (lim lo : Z) s : Prop := {
  vok_limit : EnergyMeter.limit (v_meter s) = lim;
  vok_used : lo ≤ EnergyMeter.used (v_meter s) ≤ lim;
  vok_stack : Forall is_u256 (v_stack s);
  vok_height : (length (v_stack s) ≤ STACK_LIMIT)%nat;
  vok_mem : mem_ok (v_mem s);
  vok_ret : buf_ok (v_ret s);
  vok_world : world_ok (v_world s);
}.

Lemma vm_ok_weaken lim lo lo' s : lo' ≤ lo → vm_ok lim lo s → vm_ok lim lo' s.
Proof. intros Hl []. constructor; try done. lia. Qed.

(** ** World operations *)

Lemma sload_ok a k w : world_ok w → is_u256 (World.sload a k w).
Proof.
  intros [Hs _ _ Hb]. unfold World.sload. destruct (World.backend w); simpl in *.
  - destruct (_ !! _) eqn:E; [by apply (Hs _ _ E)|by vm_compute].
  - apply Hb.
  - destruct (_ !! _) eqn:E; [by apply (Hs _ _ E)|apply Hb].
Qed.
Lemma get_code_ok a w : world_ok w → Forall is_byte (World.get_code a w).
Proof.
  intros [_ _ Hc Hb]. unfold World.get_code. destruct (_ !! _) eqn:E; [by apply (Hc _ _ E)|].
  destruct (World.backend w); [constructor|constructor|apply Hb].
Qed.
Lemma sstore_ok a k v w : world_ok w → is_u256 v → world_ok (World.sstore a k v w).
Proof.
  intros [Hs Hj Hc Hb] Hv. unfold World.sstore. destruct (World.backend w) eqn:Eb.
  2: { constructor; cbn; try done. by apply host_sstore_ok. }
  all: constructor; cbn; try done; [by apply map_Forall_insert_2| |by rewrite Eb].
  all: constructor; [|done]; destruct (_ !! _) eqn:E; simpl; [by apply (Hs _ _ E)|done].
Qed.
Lemma undo_ok e w : world_ok w → entry_ok e → world_ok (World.undo w e).
Proof.
  intros [Hs Hj Hc Hb] He. destruct e as [key [v|]|addr prev|addr|addr|amount]; constructor; cbn; try done.
  - by apply map_Forall_insert_2.
  - by apply map_Forall_delete.
Qed.
Lemma undo_all_ok es w : world_ok w → Forall entry_ok es → world_ok (foldl World.undo w es).
Proof.
  intros Hw Hes. revert w Hw. induction Hes as [|e es He _ IH]; intros w Hw; [done|].
  simpl. by apply IH, undo_ok.
Qed.
Lemma revert_ok cp w : world_ok w → world_ok (World.revert_to cp w).
Proof.
  intros Hw. apply undo_all_ok; [|by apply Forall_take, wok_journal].
  destruct Hw. constructor; cbn; try done. by apply Forall_drop.
Qed.
Lemma commit_ok cp w : world_ok w → world_ok (World.commit cp w).
Proof. intros []. constructor; cbn; try done. by apply Forall_drop. Qed.
Lemma write_balance_ok a v w : world_ok w → world_ok (World.write_balance a v w).
Proof. intros []. constructor; cbn; try done. by constructor. Qed.
Lemma ensure_account_ok a w : world_ok w → world_ok (World.ensure_account a w).
Proof.
  intros Hw. unfold World.ensure_account. case_bool_decide; [done|]. destruct Hw.
  constructor; cbn; try done. by constructor.
Qed.
Lemma suicide_ok c b w : world_ok w → world_ok (World.suicide c b w).
Proof.
  intros Hw. unfold World.suicide.
  match goal with |- world_ok (if _ then upd _ _ (upd _ _ ?x) else _) => set (w1 := x) end.
  assert (world_ok w1) as H1'.
  { unfold w1. case_bool_decide; [|by apply write_balance_ok, write_balance_ok, ensure_account_ok].
    pose proof (write_balance_ok c 0 w Hw) as Hw'. destruct (negb _); [|done].
    destruct Hw'. constructor; cbn; try done. by constructor. }
  clearbody w1. case_bool_decide; simpl; [done|]. destruct H1'. constructor; cbn; try done. by constructor.
Qed.
Lemma transfer_ok {E} f t amt w r w' :
  World.transfer (E := E) f t amt w = (r, w') → world_ok w → world_ok w'.
Proof.
  unfold World.transfer. intros E1 Hw. pose proof (ensure_account_ok t _ (ensure_account_ok f w Hw)) as He.
  destruct (amt =? 0); [by injection E1 as _ <-|].
  destruct (sub_i64 _ _); [|by injection E1 as _ <-..].
  destruct (add_i64 _ _); injection E1 as _ <-; repeat apply write_balance_ok; done.
Qed.

(** ** Triples *)

(** From a state that has used at least [lo], the program answers a [P] in one that has
    used at least [lo'], or stops the frame with some bytes; it never asks for fuel. *)
Definition triple (lim lo lo' : Z) {A} (P : A → Prop) (m : ST (vm H) exit A) : Prop :=
  ∀ s, vm_ok lim lo s →
    match m s with
    | (Ok a, s') => vm_ok lim lo' s' ∧ P a
    | (Err (Exit _ out), s') => vm_ok lim lo s' ∧ buf_ok out
    | (Err NoFuel, _) => False
    | (Panic, _) => True
    end.

Context (lim : Z) (Hlim : 0 ≤ lim ≤ U64_MAX).
Implicit Types lo : Z.

Lemma triple_bind {A B} lo lo1 lo2 P Q (m : ST (vm H) exit A) (f : A → ST (vm H) exit B) :
  lo ≤ lo1 → triple lim lo lo1 P m → (∀ a, P a → triple lim lo1 lo2 Q (f a)) →
  triple lim lo lo2 Q (m ≫= f).
Proof.
  intros Hl Hm Hf s Hs. specialize (Hm s Hs). unfold mbind, ST_bind.
  destruct (m s) as [[a|[h out|]|] s1]; [|done..]. destruct Hm as [Hs1 Ha].
  specialize (Hf a Ha s1 Hs1). destruct (f a s1) as [[b|[h out|]|] s2]; try done.
  destruct Hf. eauto using vm_ok_weaken.
Qed.
Lemma triple_seq {A B} lo lo2 P Q (m : ST (vm H) exit A) (f : A → ST (vm H) exit B) :
  triple lim lo lo P m → (∀ a, P a → triple lim lo lo2 Q (f a)) → triple lim lo lo2 Q (m ≫= f).
Proof. apply triple_bind. lia. Qed.
Lemma triple_ret {A} lo (P : A → Prop) a : P a → triple lim lo lo P (mret a).
Proof. by intros Ha s Hs. Qed.
Lemma triple_stop {A} lo lo' (P : A → Prop) h : triple lim lo lo' P (stop h).
Proof. by intros s Hs. Qed.
Lemma triple_stop_out {A} lo lo' (P : A → Prop) h out :
  buf_ok out → triple lim lo lo' P (stop_out h out).
Proof. by intros Ho s Hs. Qed.
Lemma triple_gets {A} lo (P : A → Prop) g : (∀ s, vm_ok lim lo s → P (g s)) → triple lim lo lo P (gets g).
Proof. intros Hg s Hs. cbn. auto. Qed.
Lemma triple_modify lo g : (∀ s, vm_ok lim lo s → vm_ok lim lo (g s)) → triple lim lo lo (λ _, True) (modify g).
Proof. intros Hg s Hs. cbn. auto. Qed.
Lemma triple_lift {A} lo (P : A → Prop) r :
  match r with Ok a => P a | Err _ => False | Panic => True end → triple lim lo lo P (lift r).
Proof. intros Hr s Hs. cbn. by destruct r as [|[]|]. Qed.
Lemma triple_weaken {A} lo lo' lo1 lo1' (P Q : A → Prop) m :
  lo ≤ lo1 → lo1' ≤ lo' → (∀ a, P a → Q a) →
  (∀ s, vm_ok lim lo s → vm_ok lim lo1 s) → triple lim lo1 lo' P m → triple lim lo lo1' Q m.
Proof.
  intros H1' H2' HP Hs Hm s Hok. specialize (Hm s (Hs s Hok)).
  destruct (m s) as [[a|[h out|]|] s1]; try done; destruct Hm; split; eauto using vm_ok_weaken.
Qed.

Lemma triple_pop lo : triple lim lo lo is_u256 pop.
Proof.
  intros s Hs. unfold pop. destruct (v_stack s) as [|v st] eqn:E; [done|].
  destruct Hs as [? ? Hst Hh]. rewrite E in Hst, Hh. apply Forall_cons in Hst as [Hv Hst].
  split; [|done]. constructor; cbn; try done. cbn in Hh. lia.
Qed.
Lemma triple_push lo v : is_u256 v → triple lim lo lo (λ _, True) (push v).
Proof.
  intros Hv s Hs. unfold push. case_bool_decide as Hh; [done|]. destruct Hs.
  split; [|done]. constructor; cbn; try done; [by constructor|lia].
Qed.
Lemma triple_charge lo amt : 0 ≤ amt → triple lim lo (lo + amt) (λ _, True) (charge amt).
Proof.
  intros Ha s Hs. unfold charge, EnergyMeter.charge.
  destruct (_ && _) eqn:E; [|done]. bool_prop. destruct Hs as [Hl Hu]. rewrite Hl in *.
  split; [|done]. constructor; cbn; try done. lia.
Qed.
Lemma triple_charge0 lo amt : 0 ≤ amt → triple lim lo lo (λ _, True) (charge amt).
Proof.
  intros Ha. eapply (triple_weaken lo (lo + amt) lo lo); [lia|lia|done|done|by apply triple_charge].
Qed.

Lemma low_u64_range z : 0 ≤ low_u64 z ≤ U64_MAX.
Proof. unfold low_u64. pose proof (Z.mod_pos_bound z (2 ^ 64)). unfold U64_MAX. lia. Qed.
Lemma triple_pop_u64 lo : triple lim lo lo (λ z, 0 ≤ z ≤ U64_MAX) pop_u64.
Proof.
  eapply triple_seq; [apply triple_pop|]. intros z _. apply triple_ret, low_u64_range.
Qed.

(** ** Memory *)

Lemma expand_to_ok stop (m : Memory.t) :
  mem_ok m →
  match Memory.expand_to (E := exit) stop m with
  | Ok r => mem_ok r.1 ∧ 0 ≤ r.2 ∧ stop ≤ Z.of_nat (length r.1)
  | Err _ => False
  | Panic => True
  end.
Proof.
  intros [[Hb Hsz] Hm]. unfold Memory.expand_to. destruct (Z.leb_spec stop (Z.of_nat (length m))); [done|].
  unfold add_u64, exact_u64. case_bool_decide as Hstop; [|done]. cbn.
  set (n := (stop + 31) / 32).
  assert (Hn : stop ≤ n * 32 ≤ stop + 31) by (unfold n; pose proof (Z.div_mod (stop + 31) 32); pose proof (Z.mod_pos_bound (stop + 31) 32); lia).
  unfold memory_expansion_cost. destruct (Z.leb_spec n (Memory.words m)).
  { exfalso. unfold Memory.words in *. pose proof (Z.div_mod (Z.of_nat (length m) + 31) 32).
    pose proof (Z.mod_pos_bound (Z.of_nat (length m) + 31) 32).
    pose proof (Nat.div_mod_eq (length m) 32). lia. }
  unfold memory_cost, mul_u64, add_u64, sub_u64, exact_u64.
  repeat (case_bool_decide; cbn; try done).
  assert (El : length (m ++ replicate (Z.to_nat (n * 32) - length m) 0) = Z.to_nat (n * 32))
    by (rewrite length_app, length_replicate; lia).
  split_and!.
  - split; [split; [apply Forall_app; split; [done|by apply Forall_replicate]|]|]; rewrite El;
      [destruct Hstop; lia|]. replace (Z.to_nat (n * 32)) with (Z.to_nat n * 32)%nat by lia. by rewrite Nat.Div0.mod_mul.
  - match goal with H : is_u64 (_ - _) |- _ => apply H end.
  - rewrite El. lia.
Qed.

Lemma read_bytes_ok src off len :
  Forall is_byte src → 0 ≤ len →
  match read_bytes (E := exit) src off len with
  | Ok bs => Forall is_byte bs ∧ length bs = Z.to_nat len
  | Err _ => False
  | Panic => True
  end.
Proof.
  intros Hs Hl. unfold read_bytes. destruct (_ && _); [done|]. split.
  - apply Forall_fmap, Forall_forall. intros i _. cbn. unfold byte_at.
    destruct (_ <? _); [|by vm_compute]. destruct (src !! _) eqn:E; [|by vm_compute].
    by apply (Forall_lookup_1 _ _ _ _ Hs E).
  - by rewrite length_fmap, length_seq.
Qed.
Lemma write_bytes_ok (m : Memory.t) off bs :
  mem_ok m → Forall is_byte bs → 0 ≤ off →
  match write_bytes (E := exit) m off bs with Ok m' => mem_ok m' | Err _ => False | Panic => True end.
Proof.
  intros [[Hb Hsz] Hm] Hs Ho. unfold write_bytes. destruct (Z.ltb_spec (Z.of_nat (length m)) (off + Z.of_nat (length bs))); [done|].
  assert (El : length (take (Z.to_nat off) m ++ bs ++ drop (Z.to_nat (off + Z.of_nat (length bs))) m) = length m)
    by (rewrite !length_app, length_take, length_drop; lia).
  split; [split|]; rewrite ?El; try done.
  apply Forall_app. split; [by apply Forall_take|]. apply Forall_app. split; [done|by apply Forall_drop].
Qed.
Lemma get_range_ok (m : Memory.t) off len :
  buf_ok m → match get_range (E := exit) m off len with
    | Ok bs => buf_ok bs | Err _ => False | Panic => True end.
Proof.
  intros [Hm Hsz]. unfold get_range, add_u64, exact_u64. case_bool_decide; [|done]. cbn.
  destruct (_ <=? _); [|done]. split; [by apply Forall_take, Forall_drop|].
  rewrite length_take, length_drop. lia.
Qed.

Lemma triple_expand lo stop : triple lim lo lo (λ _, True) (expand stop).
Proof.
  unfold expand. eapply triple_seq; [apply (triple_gets lo mem_ok); by intros s []|]. intros m Hm.
  eapply triple_seq; [apply (triple_lift lo (λ r, mem_ok r.1 ∧ 0 ≤ r.2))|].
  { pose proof (expand_to_ok stop m Hm). destruct (Memory.expand_to stop m) as [r| |]; naive_solver. }
  intros r [Hr Hc]. eapply triple_seq; [apply triple_modify|by intros _ _; apply triple_charge0].
  intros s []. by constructor.
Qed.
Lemma triple_set_mem lo m : mem_ok m → triple lim lo lo (λ _, True) (modify (upd v_mem (λ _, m))).
Proof. intros Hm. apply triple_modify. intros s []. by constructor. Qed.
Lemma triple_get_mem lo : triple lim lo lo mem_ok (gets v_mem).
Proof. apply triple_gets. by intros s []. Qed.

(** ** Operations *)

#[local] Hint Resolve triple_pop triple_pop_u64 triple_push triple_expand triple_get_mem triple_set_mem
  triple_stop triple_stop_out triple_ret triple_charge0 : vm.

Definition frame_ok (f : frame) : Prop := Forall is_byte (f_code f) ∧ buf_ok (f_calldata f).

(** Steps through a sequence of operations whose triples are known. *)
Ltac vm_go :=
  repeat (eapply triple_seq; [solve [eauto with vm]|intros; cbv beta in *]); eauto with vm.

Lemma triple_binop lo f :
  (∀ a b, is_u256 a → is_u256 b → is_u256 (f a b)) → triple lim lo lo (λ _, True) (binop f).
Proof. intros Hf. unfold binop. vm_go. Qed.

Lemma triple_read lo src off len :
  Forall is_byte src → 0 ≤ len →
  triple lim lo lo (λ bs, Forall is_byte bs ∧ length bs = Z.to_nat len) (lift (read_bytes src off len)).
Proof. intros Hs Hl. apply triple_lift. by apply read_bytes_ok. Qed.
Lemma triple_write lo m off bs :
  mem_ok m → Forall is_byte bs → 0 ≤ off → triple lim lo lo mem_ok (lift (write_bytes m off bs)).
Proof. intros Hm Hb Ho. apply triple_lift. by apply write_bytes_ok. Qed.
Lemma triple_range lo m off len : mem_ok m → triple lim lo lo buf_ok (lift (get_range m off len)).
Proof. intros [Hm _]. apply triple_lift. by apply get_range_ok. Qed.
#[local] Hint Resolve triple_binop triple_write triple_range : vm.

Lemma triple_copy lo src :
  (∀ s, vm_ok lim lo s → Forall is_byte (src s)) → triple lim lo lo (λ _, True) (copy_op src).
Proof.
  intros Hs. unfold copy_op.
  eapply triple_seq; [apply triple_pop_u64|]. intros dest Hd.
  eapply triple_seq; [apply triple_pop_u64|]. intros off Ho.
  eapply triple_seq; [apply triple_pop_u64|]. intros len Hl.
  eapply triple_seq; [apply triple_expand|]. intros _ _.
  eapply triple_seq; [apply triple_gets, Hs|]. intros bs Hbs. cbv beta in *.
  eapply triple_seq; [apply triple_read; [done|lia]|]. intros cs [Hcs _].
  eapply triple_seq; [apply triple_get_mem|]. intros m Hm.
  eapply triple_seq; [apply triple_write; [done|done|lia]|]. intros m' Hm'. by apply triple_set_mem.
Qed.

Lemma triple_load lo off m : mem_ok m → triple lim lo lo is_u256 (lift (Memory.load off m)).
Proof.
  intros [[Hm _] _]. apply triple_lift. unfold Memory.load.
  pose proof (read_bytes_ok m off 32 Hm ltac:(lia)) as Hr.
  destruct (read_bytes m off 32); simpl in *; try done. apply u256_from_be; naive_solver.
Qed.
Lemma triple_store lo off v m :
  mem_ok m → 0 ≤ off → triple lim lo lo mem_ok (lift (Memory.store off v m)).
Proof. intros Hm Ho. apply triple_write; [done|apply be_split_bytes|done]. Qed.
Lemma triple_return lo lo' h : triple lim lo lo' (λ _, True) (return_op h).
Proof.
  unfold return_op. vm_go.
Qed.
Lemma triple_vote lo : triple lim lo (lo + 1) (λ _, True) vote_witness_op.
Proof.
  unfold vote_witness_op. do 4 (eapply triple_seq; [apply triple_pop_u64|intros ? ?]).
  eapply triple_bind; [|apply (triple_charge _ VOTE_WITNESS); by vm_compute|intros _ _]; [unfold VOTE_WITNESS; lia|].
  eapply (triple_weaken (lo + VOTE_WITNESS) (lo + VOTE_WITNESS)); [| | | |]; [reflexivity|unfold VOTE_WITNESS; lia|done|done|].
  vm_go. apply triple_push. by vm_compute.
Qed.

#[local] Hint Resolve triple_load triple_store triple_return triple_copy : vm.

Lemma triple_get_stack lo : triple lim lo lo (Forall is_u256) (gets v_stack).
Proof. apply triple_gets. by intros s []. Qed.
Lemma triple_get_ret lo : triple lim lo lo buf_ok (gets v_ret).
Proof. apply triple_gets. by intros s []. Qed.
Lemma triple_get_pc lo : triple lim lo lo (λ _, True) (gets v_pc).
Proof. by apply triple_gets. Qed.
Lemma triple_set_pc lo g : triple lim lo lo (λ _, True) (modify (upd v_pc g)).
Proof. apply triple_modify. intros s []. by constructor. Qed.
Lemma triple_sload lo a k : triple lim lo lo is_u256 (gets (λ s, World.sload a k (v_world s))).
Proof. apply triple_gets. intros s []. by apply sload_ok. Qed.
Lemma triple_swap lo : triple lim lo lo (λ _, True) (simple_op (mk_frame [] [] [] 0) OpCode.Swap1).
Proof.
  intros s Hs. cbn. unfold mbind, ST_bind, gets. destruct (v_stack s) as [|a [|b st]] eqn:E; [done..|].
  cbn. destruct Hs as [? ? Hst Hh]. rewrite E in Hst, Hh.
  apply Forall_cons in Hst as [Ha Hst]. apply Forall_cons in Hst as [Hb Hst].
  split; [|done]. constructor; cbn; try done. by constructor; [|constructor].
Qed.
#[local] Hint Resolve triple_get_stack triple_get_ret triple_get_pc triple_set_pc triple_sload : vm.

Lemma triple_simple lo f op :
  frame_ok f → op ≠ OpCode.VoteWitness → triple lim lo lo (λ _, True) (simple_op f op).
Proof.
  intros [Hc [Hd Hdl]] Hop. destruct op; try done; try apply triple_stop; cbn [simple_op].
  all: try (by apply triple_binop; eauto with vm).
  - (* IsZero *) vm_go.
  - (* CallDataLoad *) eapply triple_seq; [apply triple_pop_u64|]. intros off _.
    eapply triple_seq; [apply triple_read; [done|lia]|]. intros bs [Hb Hl]. by apply triple_push, u256_from_be.
  - apply triple_push, u256_u64. lia.
  - (* CallDataCopy *) by apply triple_copy.
  - eapply triple_seq; [apply triple_get_ret|]. intros r [_ Hr]. apply triple_push, u256_u64. lia.
  - apply triple_copy. by intros s [_ _ _ _ _ [Hr _]].
  - (* Pop *) vm_go.
  - (* Mload *) vm_go.
  - (* Mstore *) eapply triple_seq; [apply triple_pop_u64|]. intros off Ho. cbv beta in Ho.
    eapply triple_seq; [apply triple_pop|]. intros v Hv. eapply triple_seq; [apply triple_expand|]. intros _ _.
    eapply triple_seq; [apply triple_get_mem|]. intros m Hm.
    eapply triple_seq; [apply triple_store; [done|lia]|]. eauto with vm.
  - (* Mstore8 *) eapply triple_seq; [apply triple_pop_u64|]. intros off Ho. cbv beta in Ho.
    eapply triple_seq; [apply triple_pop|]. intros v Hv. eapply triple_seq; [apply triple_expand|]. intros _ _.
    eapply triple_seq; [apply triple_get_mem|]. intros m Hm.
    eapply triple_seq; [apply triple_write; [done|apply Forall_singleton, low_byte|lia]|]. eauto with vm.
  - (* Sload *) vm_go.
  - (* Push1 *) vm_go.
  - (* Push2 *) eapply triple_seq; [apply triple_get_pc|]. intros pc _.
    eapply triple_seq; [apply triple_set_pc|]. intros _ _. apply triple_push, u256_lor.
    + pose proof (byte_lookup (f_code f) (pc + 1) Hc) as Hb. rewrite Z.shiftl_mul_pow2 by lia.
      apply u256_u64. unfold is_byte, U64_MAX in *. lia.
    + apply u256_byte. by apply byte_lookup.
  - (* Dup1 *) eapply triple_seq; [apply triple_get_stack|]. intros [|a st] Hst; [apply triple_stop|].
    apply triple_push. by inversion Hst.
  - apply triple_swap.
  - apply triple_return.
  - apply triple_return.
Qed.

Lemma triple_jump lo f dest : triple lim lo lo (λ _, True) (jump_to f dest).
Proof.
  unfold jump_to. destruct (_ <? _); [apply triple_stop|]. case_bool_decide; [apply triple_set_pc|apply triple_stop].
Qed.

Lemma triple_sstore lo f : triple lim lo (lo + 1) (λ _, True) (sstore_op f).
Proof.
  unfold sstore_op. eapply triple_seq; [apply triple_pop|]. intros key Hk.
  eapply triple_seq; [apply triple_pop|]. intros v Hv. eapply triple_seq; [apply triple_sload|]. intros cur _.
  assert (Hc : 1 ≤ sstore_cost (cur =? 0) (v =? 0)) by (by destruct (cur =? 0), (v =? 0)).
  eapply triple_bind; [|apply triple_charge|intros _ _]; [lia|lia|].
  intros s Hs. cbn. split; [|done]. destruct Hs. constructor; cbn; try done; [lia|by apply sstore_ok].
Qed.

Lemma triple_selfdestruct lo lo' f : triple lim lo lo' (λ _, True) (selfdestruct_op f).
Proof.
  unfold selfdestruct_op. eapply triple_seq; [by apply (triple_gets lo (λ _, True))|]. intros w _.
  destruct (World.host_backed w); [apply triple_stop|].
  eapply triple_seq; [apply triple_pop|]. intros word _.
  case_bool_decide; simpl; [|apply triple_stop].
  eapply triple_seq; [apply triple_charge0|intros _ _]; [unfold suicide_cost, SUICIDE, NEW_ACCT_CALL; case_match; lia|].
  eapply triple_seq; [apply triple_modify|intros _ _; apply triple_stop].
  intros s []. constructor; cbn; try done. by apply suicide_ok.
Qed.

(** ** Calls *)

(** What a nested run with at most [n] energy promises. *)
Definition runner_ok (n : Z) (run : @runner H) : Prop := ∀ w a code data e depth,
  world_ok w → Forall is_byte code → buf_ok data → 0 ≤ e ≤ n → e ≤ U64_MAX →
  match run w a code data e depth with
  | (Ok x, w') => world_ok w' ∧ 0 ≤ energy_used x ≤ e ∧ buf_ok (return_data x) ∧
      (∀ v, stack_top x = Some v → is_u256 v)
  | (Err _, _) => False
  | (Panic, _) => True
  end.

Lemma triple_sub_call lo run f gas callee code input :
  runner_ok (lim - lo) run → Forall is_byte code → buf_ok input →
  triple lim lo lo (λ r, buf_ok r.2) (sub_call run f gas callee code input).
Proof.
  intros Hr Hc Hi s Hs. unfold sub_call. destruct Hs as [Hl Hu Hst Hh Hm Hret Hw].
  set (e := Z.min _ _).
  assert (He : 0 ≤ e ≤ lim - EnergyMeter.used (v_meter s) ∧ e ≤ U64_MAX).
  { unfold e, EnergyMeter.remaining. rewrite Hl. pose proof (low_u64_range gas).
    set (R := Z.max 0 _). assert (R = lim - EnergyMeter.used (v_meter s)) by lia.
    pose proof (Z.div_pos R 64). pose proof (Z.div_le_upper_bound R 64 R). lia. }
  specialize (Hr (v_world s) callee code input e (S (f_depth f)) Hw Hc Hi ltac:(lia) ltac:(lia)).
  destruct (run _ _ _ _ _ _) as [[x| |] w']; [|done..]. destruct Hr as (Hw' & Hx & Hd & _).
  split; [|done]. constructor; cbn; try done.
  - unfold EnergyMeter.charge. by destruct (_ && _).
  - unfold EnergyMeter.charge. destruct (_ && _); cbn; lia.
  - destruct (halt_is_success _); [by apply commit_ok|by apply revert_ok].
Qed.

Lemma precompile_ok low input :
  buf_ok input → 0 ≤ default 0 (precompile.energy_for low input) ∧ buf_ok (default [] (precompile.execute low input)).
Proof.
  intros Hi. assert (Hlen : ∀ bs : bytes, Forall is_byte bs → length bs = 32%nat → buf_ok bs).
  { intros bs Hb Hl. split; [done|]. rewrite Hl. by vm_compute. }
  assert (He : buf_ok (precompile.ecrecover input)).
  { unfold precompile.ecrecover. destruct (negb _); [by apply Hlen; [apply Forall_replicate; by vm_compute|]|].
    destruct (recover _ _); [|by apply Hlen; [apply Forall_replicate; by vm_compute|]]. apply Hlen.
    - apply Forall_app. split; [by apply Forall_replicate|]. apply Forall_drop, keccak256_bytes.
    - rewrite length_app, length_drop, keccak256_length. done. }
  unfold precompile.energy_for, precompile.execute, precompile.ripemd160_like, precompile.words.
  pose proof (Z.div_pos (Z.of_nat (length input) + 31) 32 ltac:(lia) ltac:(lia)).
  repeat case_match; simpl; try (split; [lia|]); try done;
    try (apply Hlen; [apply sha256_bytes|apply sha256_length]); split; try done; try lia; by vm_compute.
Qed.

(** The answer of the callee: a precompile, an empty account or a nested frame. *)
Lemma triple_callee lo run f gas addr_word input (low := Z.land (low_u64 addr_word) 255) :
  runner_ok (lim - lo) run → buf_ok input →
  triple lim lo lo (λ r, buf_ok r.2)
    match (if addr_word <? 256 then precompile.energy_for low input else None) with
    | Some cost => _ ← charge cost; mret (true, default [] (precompile.execute low input))
    | None =>
        let callee := drop 12 (to_be_bytes 32 addr_word) in
        callee_code ← gets (λ s, World.get_code callee (v_world s));
        if bool_decide (callee_code = []) then mret (false, [])
        else sub_call run f gas callee callee_code input
    end.
Proof.
  intros Hr Hi. destruct (precompile_ok low input Hi) as [Hcost Hout].
  destruct (if addr_word <? 256 then _ else None) as [cost|] eqn:E.
  - assert (Ec : precompile.energy_for low input = Some cost) by (by destruct (addr_word <? 256)).
    rewrite Ec in Hcost. cbn in Hcost.
    eapply triple_seq; [by apply triple_charge0|]. intros _ _. by apply triple_ret.
  - cbv zeta. eapply triple_seq; [apply (triple_gets lo (Forall is_byte))|intros code Hc].
    { intros s []. by apply get_code_ok. }
    case_bool_decide; [|by apply triple_sub_call]. by apply triple_ret.
Qed.

Lemma triple_call lo run f :
  runner_ok (lim - lo) run → triple lim lo lo (λ _, True) (call_op run f).
Proof.
  intros Hr. unfold call_op.
  do 3 (eapply triple_seq; [apply triple_pop|intros ? ?]).
  do 4 (eapply triple_seq; [apply triple_pop_u64|intros ? ?]). cbv beta in *.
  eapply triple_seq; [apply triple_expand|intros _ _].
  eapply triple_seq; [apply triple_get_mem|intros m Hm].
  eapply triple_seq; [by apply triple_range|intros input Hi]. cbv zeta.
  eapply triple_seq; [by apply triple_callee|intros [ok out] Ho]. cbn [fst snd] in *.
  eapply triple_seq; [apply triple_modify|intros _ _].
  { intros s []. by constructor. }
  eapply (triple_seq _ _ (λ _, True)); [|intros _ _; apply triple_push, u256_of_bool].
  destruct (ok && _); [|by apply triple_ret].
  eapply triple_seq; [apply triple_expand|intros _ _].
  eapply triple_seq; [apply triple_get_mem|intros m' Hm'].
  eapply triple_seq; [|intros; by apply triple_set_mem].
  apply triple_write; [done|apply Forall_take, Ho|lia].
Qed.

Lemma triple_exec lo run f op :
  frame_ok f → runner_ok (lim - lo) run → op ≠ OpCode.VoteWitness → op ≠ OpCode.Sstore →
  triple lim lo lo (λ _, True) (exec_op run f op).
Proof.
  intros Hf Hr Hv Hs.
  assert (Hb : ∀ m : ST (vm H) exit (), triple lim lo lo (λ _, True) m →
    triple lim lo lo (λ _, True) (_ ← m; mret false)).
  { intros m Hm. eapply triple_seq; [exact Hm|]. intros; by apply triple_ret. }
  destruct op; try done; try (by apply Hb; apply triple_simple); cbn [exec_op].
  - eapply triple_seq; [apply triple_pop|intros ? ?]. eapply triple_seq; [apply triple_jump|intros _ _].
    by apply triple_ret.
  - do 2 (eapply triple_seq; [apply triple_pop|intros ? ?]). destruct (negb _); [|by apply triple_ret].
    eapply triple_seq; [apply triple_jump|intros _ _]. by apply triple_ret.
  - by apply Hb, triple_call.
  - apply Hb, triple_selfdestruct.
Qed.

(** Every operation but four stopping ones, SSTORE, SELFDESTRUCT and VOTEWITNESS has a
    positive base cost. *)
Lemma base_cost_pos op :
  op ≠ OpCode.Stop → op ≠ OpCode.Return → op ≠ OpCode.Revert → op ≠ OpCode.Invalid →
  op ≠ OpCode.Sstore → op ≠ OpCode.SelfDestruct → op ≠ OpCode.VoteWitness → 1 ≤ base_cost op.
Proof. by destruct op. Qed.

Lemma triple_up {A} lo lo' (P : A → Prop) m : lo' ≤ lo → triple lim lo lo P m → triple lim lo lo' P m.
Proof. intros Hl. by apply (triple_weaken lo lo lo lo'). Qed.

(** A turn of the loop that does not stop the frame uses energy. *)
Lemma triple_step lo run f byte :
  frame_ok f → runner_ok (lim - lo - 1) run → triple lim lo (lo + 1) (λ _, True) (step run f byte).
Proof.
  intros Hf Hr. unfold step. destruct (OpCode.from_u8 byte) as [op|]; [|apply triple_stop].
  assert (Hend : ∀ (m : ST (vm H) exit bool), triple lim lo (lo + 1) (λ _, True) m →
    triple lim lo (lo + 1) (λ _, True) (j ← m; if (j : bool) then mret () else modify (upd v_pc S))).
  { intros m Hm. eapply triple_bind; [|exact Hm|intros [] _]; [lia|by apply triple_ret|apply triple_set_pc]. }
  assert (Hpaid : ∀ c (m : ST (vm H) exit bool), 0 ≤ c → triple lim lo (lo + 1) (λ _, True) m →
    triple lim lo (lo + 1) (λ _, True)
      (_ ← charge c; j ← m; if (j : bool) then mret () else modify (upd v_pc S))).
  { intros c m Hc Hm. eapply triple_seq; [by apply triple_charge0|intros _ _]. by apply Hend. }
  case_bool_decide as Hs.
  { subst op. change (mret () ≫= ?k) with (k ()). cbv beta. apply Hend. cbn [exec_op].
    eapply triple_bind; [|apply triple_sstore|]; [lia|]. intros; by apply triple_ret. }
  assert (Hzero : ∀ m : ST (vm H) exit (), triple lim lo (lo + 1) (λ _, True) m →
    triple lim lo (lo + 1) (λ _, True) (_ ← m; mret false)).
  { intros m Hm. eapply triple_bind; [|exact Hm|]; [lia|]. intros; by apply triple_ret. }
  destruct (decide (op = OpCode.VoteWitness)) as [->|Hv]; [by apply Hpaid; [|apply Hzero, triple_vote]|].
  destruct (decide (op = OpCode.Stop)) as [->|]; [by apply Hpaid; [|apply Hzero, triple_stop]|].
  destruct (decide (op = OpCode.Invalid)) as [->|]; [by apply Hpaid; [|apply Hzero, triple_stop]|].
  destruct (decide (op = OpCode.Return)) as [->|]; [by apply Hpaid; [|apply Hzero, triple_return]|].
  destruct (decide (op = OpCode.Revert)) as [->|]; [by apply Hpaid; [|apply Hzero, triple_return]|].
  destruct (decide (op = OpCode.SelfDestruct)) as [->|]; [by apply Hpaid; [|apply Hzero, triple_selfdestruct]|].
  pose proof (base_cost_pos op ltac:(done) ltac:(done) ltac:(done) ltac:(done) ltac:(done) ltac:(done) ltac:(done)).
  eapply triple_bind; [|apply triple_charge|intros _ _]; [lia|lia|]. apply (triple_up (lo + base_cost op)); [lia|].
  eapply triple_seq; [apply triple_exec; [done| |done|done]|intros [] _; [by apply triple_ret|apply triple_set_pc]].
  intros w a code data e depth ? ? ? ? ?. apply Hr; done || lia.
Qed.
End Safe.

(** ** The loop *)

Section Loop.
Context {H : Type} `{HostLaws H} `{HashLaws} `{Secp}.
Implicit Types (w : World.t H) (s : vm H).

Lemma start_ok w lim : world_ok w → 0 ≤ lim → vm_ok lim 0 (mk_vm H w [] [] [] 0 (EnergyMeter.new lim)).
Proof.
  intros Hw Hl. assert (buf_ok []) by (split; [constructor|by vm_compute]). constructor; cbn; try done.
  unfold STACK_LIMIT. lia.
Qed.

(** A loop with more fuel than energy left always ends. *)
Lemma frame_with_ok loop n :
  (∀ lim f, 0 ≤ lim ≤ U64_MAX → lim ≤ n → frame_ok f → triple lim 0 0 (λ _, True) (loop f)) →
  runner_ok n (frame_with (H := H) loop).
Proof.
  intros Hloop w a code data e depth Hw Hc Hd He Hu. unfold frame_with.
  case_bool_decide; [split_and!; try done; cbn; lia|].
  specialize (Hloop e (mk_frame a code data depth) ltac:(lia) ltac:(lia) ltac:(done)
    _ (start_ok w e Hw ltac:(lia))).
  destruct (loop _ _) as [[[]|[h out|]|] s]; [|done..]. destruct Hloop as [Hs Ho].
  pose proof (vok_used _ _ _ Hs). refine (conj _ (conj _ (conj Ho _))); [apply Hs|cbn; lia|].
  intros v Hv. pose proof (vok_stack _ _ _ Hs) as Hst. cbn in Hv.
  destruct (v_stack s); [done|]. injection Hv as ->. by inversion Hst.
Qed.

Lemma run_loop_ok fuel lim lo (f : frame) :
  0 ≤ lim ≤ U64_MAX → frame_ok f → lim - lo < Z.of_nat fuel →
  triple (H := H) lim lo lo (λ _, True) (run_loop fuel f).
Proof.
  revert lim lo f. induction fuel as [|fuel IH]; intros lim lo f Hlim Hf Hfuel.
  { intros s Hs. pose proof (vok_used _ _ _ Hs). lia. }
  cbn [run_loop]. eapply triple_seq; [apply triple_get_pc|intros pc _].
  destruct (f_code f !! pc) as [byte|]; [|apply triple_stop].
  eapply (triple_bind lim lo (lo + 1)); [lia|apply triple_step; [done|done|]|].
  - apply frame_with_ok. intros lim' f' Hl' Hn Hf'. apply IH; done || lia.
  - intros _ _. apply (triple_up lim (lo + 1)); [lia|]. apply IH; done || lia.
Qed.

Lemma run_frame_fuel_ok fuel : runner_ok (Z.of_nat fuel - 1) (run_frame_fuel (H := H) fuel).
Proof. apply frame_with_ok. intros lim f Hl Hn Hf. apply run_loop_ok; done || lia. Qed.

(** ** Fuel *)

(** The second program agrees with the first wherever the first has enough fuel. *)
Definition approx {A} (m m' : ST (vm H) exit A) : Prop := ∀ s, (m s).1 ≠ Err NoFuel → m' s = m s.
Definition runner_approx (run run' : @runner H) : Prop := ∀ w a code data e depth,
  (run w a code data e depth).1 ≠ Err NoFuel → run' w a code data e depth = run w a code data e depth.

Lemma approx_refl {A} (m : ST (vm H) exit A) : approx m m.
Proof. done. Qed.
Lemma approx_bind {A B} (m m' : ST (vm H) exit A) (f f' : A → ST (vm H) exit B) :
  approx m m' → (∀ a, approx (f a) (f' a)) → approx (m ≫= f) (m' ≫= f').
Proof.
  intros Hm Hf s. unfold mbind, ST_bind. specialize (Hm s).
  destruct (m s) as [[a|e|] s1]; cbn in *; intros Hs; rewrite Hm by congruence; [by apply Hf|done..].
Qed.
Lemma approx_sub_call run run' f gas callee code input :
  runner_approx run run' → approx (sub_call run f gas callee code input) (sub_call run' f gas callee code input).
Proof.
  intros Hr s. unfold sub_call. set (e := Z.min _ _).
  specialize (Hr (v_world s) callee code input e (S (f_depth f))).
  destruct (run _ _ _ _ _ _) as [[x|e'|] w'] eqn:E; cbn in *; intros Hn; rewrite Hr; done || congruence.
Qed.
Lemma approx_call run run' f : runner_approx run run' → approx (call_op run f) (call_op run' f).
Proof.
  intros Hr. unfold call_op. repeat (apply approx_bind; [apply approx_refl|intros ?]). cbv zeta.
  apply approx_bind; [|intros; apply approx_refl]. destruct (if _ <? 256 then _ else _); [apply approx_refl|].
  apply approx_bind; [apply approx_refl|intros ?]. case_bool_decide; [apply approx_refl|].
  by apply approx_sub_call.
Qed.
Lemma approx_step run run' f byte : runner_approx run run' → approx (step run f byte) (step run' f byte).
Proof.
  intros Hr. unfold step. destruct (OpCode.from_u8 byte) as [op|]; [|apply approx_refl].
  apply approx_bind; [apply approx_refl|intros _]. apply approx_bind; [|intros; apply approx_refl].
  destruct op; try apply approx_refl. apply approx_bind; [by apply approx_call|intros; apply approx_refl].
Qed.
Lemma approx_frame (loop loop' : frame → ST (vm H) exit Empty_set) :
  (∀ f, approx (loop f) (loop' f)) → runner_approx (frame_with loop) (frame_with loop').
Proof.
  intros Hl w a code data e depth. unfold frame_with. case_bool_decide; [done|].
  set (f := mk_frame _ _ _ _). set (s := mk_vm _ _ _ _ _ _ _). specialize (Hl f s).
  destruct (loop f s) as [[[]|[h out|]|] s'] eqn:E; cbn in *; intros Hn; [|congruence|]; rewrite Hl; done || congruence.
Qed.
Lemma approx_loop n m f : (n ≤ m)%nat → approx (run_loop n f) (run_loop m f).
Proof.
  revert m f. induction n as [|n IH]; intros m f Hm; [by intros s Hs|].
  destruct m as [|m]; [lia|]. cbn [run_loop]. apply approx_bind; [apply approx_refl|intros pc].
  destruct (_ !! _); [|apply approx_refl]. apply approx_bind; [|intros; apply IH; lia].
  apply approx_step, approx_frame. intros f'. apply IH. lia.
Qed.
(** A result stays the same with more fuel. *)
Lemma run_frame_fuel_mono n m : (n ≤ m)%nat → runner_approx (run_frame_fuel n) (run_frame_fuel m).
Proof. intros Hm. apply approx_frame. intros f. by apply approx_loop. Qed.

(** C5: execution ends within its energy.  Running any byte code on a well-typed world
    ends (with a result, or a panic on an arithmetic overflow) with one more unit of fuel
    than energy, and more fuel changes nothing; the energy used is at most the limit, the
    word on top of the stack is a 256-bit word, the output is bytes, and the world is well
    typed again. *)
Theorem run_frame_ends w (address code calldata : bytes) (limit : Z) (depth fuel : nat) :
  world_ok w → Forall is_byte code → buf_ok calldata → 0 ≤ limit ≤ U64_MAX →
  (S (Z.to_nat limit) ≤ fuel)%nat →
  run_frame_fuel fuel w address code calldata limit depth = run_frame w address code calldata limit depth ∧
  match run_frame w address code calldata limit depth with
  | (Ok e, w') => 0 ≤ energy_used e ≤ limit ∧ world_ok w' ∧ buf_ok (return_data e) ∧
      (∀ v, stack_top e = Some v → is_u256 v)
  | (Err _, _) => False
  | (Panic, _) => True
  end.
Proof.
  intros Hw Hc Hd Hl Hf.
  pose proof (run_frame_fuel_ok (S (Z.to_nat limit)) w address code calldata limit depth Hw Hc Hd
    ltac:(lia) ltac:(lia)) as Hok.
  split.
  - apply (run_frame_fuel_mono (S (Z.to_nat limit))); [done|]. intros E.
    destruct (run_frame_fuel _ _ _ _ _ _ _) as [[| |] ?]; done.
  - unfold run_frame. destruct (run_frame_fuel _ _ _ _ _ _ _) as [[e| |] w']; naive_solver.
Qed.
End Loop.

(** ** Balances

    Only SELFDESTRUCT moves balances, and a frame that executed it has succeeded: unless
    an account was marked for deletion, a run leaves every balance as it was. *)

Section Balances.
Context {H : Type} `{!Host H} `{Hashes} `{Secp}.
Implicit Types (w : World.t H) (s : vm H).

Definition is_jstorage (e : JournalEntry) : Prop := match e with JStorage _ _ => True | _ => False end.

(** [w'] was reached from [w] in one frame: its journal is longer, by storage entries only
    unless the frame ended in a self-destruct, and without one the balances are the same. *)
Definition evolves (running : bool) w w' : Prop :=
  (∃ js, World.journal w' = js ++ World.journal w ∧ (running = true → Forall is_jstorage js)) ∧
  (World.suicides w' = [] → World.suicides w = [] ∧ World.balances w' = World.balances w).

Lemma evolves_refl b w : evolves b w w.
Proof. split; [by exists []|done]. Qed.
Lemma evolves_trans b w1 w2 w3 : evolves true w1 w2 → evolves b w2 w3 → evolves b w1 w3.
Proof.
  intros [(js & E1 & J1) S1] [(ks & E2 & J2) S2]. split.
  - exists (ks ++ js). rewrite E2, E1, app_assoc. split; [done|]. intros Hb. apply Forall_app. auto.
  - intros E. destruct (S2 E) as [E' ->]. destruct (S1 E') as [? ->]. done.
Qed.
Lemma evolves_weaken w w' : evolves true w w' → evolves false w w'.
Proof. intros [(js & E & _) S]. split; [by exists js|done]. Qed.

Lemma evolves_sstore a k v w : evolves true w (World.sstore a k v w).
Proof.
  unfold World.sstore. destruct (World.backend w); split; try done.
  - eexists [_]. split; [done|]. intros _. by constructor.
  - by exists [].
  - eexists [_]. split; [done|]. intros _. by constructor.
Qed.
Lemma suicide_marks c b w : World.suicides (World.suicide c b w) ≠ [].
Proof.
  unfold World.suicide.
  match goal with |- World.suicides (if _ then upd _ _ (upd _ _ ?x) else _) ≠ _ => set (w1 := x) end.
  clearbody w1. case_bool_decide as Hin; cbn.
  - intros E. rewrite E in Hin. by apply elem_of_nil in Hin.
  - by destruct (World.suicides w1).
Qed.
Lemma suicide_journal c b w : ∃ js, World.journal (World.suicide c b w) = js ++ World.journal w.
Proof.
  unfold World.suicide, World.write_balance, World.ensure_account.
  repeat case_bool_decide; cbn; repeat case_match; cbn;
    first [by eexists [] | by eexists [_] | by eexists [_; _] | by eexists [_; _; _] | by eexists [_; _; _; _]].
Qed.
Lemma evolves_suicide c b w : evolves false w (World.suicide c b w).
Proof.
  split; [|intros E; by destruct (suicide_marks c b w)].
  destruct (suicide_journal c b w) as [js E]. by exists js.
Qed.

Lemma evolves_commit b w w' : evolves b w w' → evolves true w (World.commit (World.checkpoint w) w').
Proof.
  intros [(js & E & _) S]. split; [|exact S]. exists []. split; [|done]. cbn.
  unfold World.checkpoint. rewrite E, length_app.
  replace (length js + length (World.journal w) - length (World.journal w))%nat with (length js) by lia.
  by rewrite drop_app_length.
Qed.
Lemma undo_storage es w :
  Forall is_jstorage es →
  World.balances (foldl World.undo w es) = World.balances w ∧
  World.suicides (foldl World.undo w es) = World.suicides w ∧
  World.journal (foldl World.undo w es) = World.journal w.
Proof.
  intros Hes. revert w. induction Hes as [|e es He _ IH]; intros w; [done|]. simpl.
  destruct (IH (World.undo w e)) as (-> & -> & ->). by destruct e as [? []| | | |].
Qed.
Lemma evolves_revert w w' : evolves true w w' → evolves true w (World.revert_to (World.checkpoint w) w').
Proof.
  intros [(js & E & J) S]. unfold World.revert_to, World.checkpoint. rewrite E, length_app.
  replace (length js + length (World.journal w) - length (World.journal w))%nat with (length js) by lia.
  rewrite take_app_length, drop_app_length.
  destruct (undo_storage js (w' <| World.journal := World.journal w |>) (J eq_refl)) as (Eb & Es & Ej).
  split; [exists []; by rewrite Ej|]. rewrite Eb, Es. exact S.
Qed.

(** Programs that do not touch the world. *)
Definition pure {A} (m : ST (vm H) exit A) : Prop := ∀ s,
  v_world (m s).2 = v_world s ∧ ∀ out, (m s).1 ≠ Err (Exit HSelfDestruct out).

Lemma pure_bind {A B} (m : ST (vm H) exit A) (f : A → ST (vm H) exit B) :
  pure m → (∀ a, pure (f a)) → pure (m ≫= f).
Proof.
  intros Hm Hf s. unfold mbind, ST_bind. destruct (Hm s) as [Hw Hh].
  destruct (m s) as [[a|e|] s1]; cbn in *.
  - destruct (Hf a s1) as [Hw' Hh']. split; [congruence|done].
  - split; [done|]. intros out [= ->]. by destruct (Hh out).
  - done.
Qed.
Lemma pure_lift {A} (r : res exit A) : (∀ e, r ≠ Err e) → pure (lift r).
Proof. intros Hr s. split; [done|]. intros out. apply Hr. Qed.
Lemma pure_pop : pure pop.
Proof. intros s. unfold pop. by destruct (v_stack s). Qed.
Lemma pure_push v : pure (push v).
Proof. intros s. unfold push. by case_bool_decide. Qed.
Lemma pure_charge c : pure (charge c).
Proof. intros s. unfold charge. by destruct (EnergyMeter.charge c (v_meter s)) as [? []]. Qed.
Lemma pure_stop {A} h out : h ≠ HSelfDestruct → pure (A := A) (stop_out h out).
Proof. intros Hh s. split; [done|]. by intros out' [= ->]. Qed.

Lemma exact_u64_no_err (z : Z) (e : exit) : exact_u64 z ≠ Err e.
Proof. unfold exact_u64. by case_bool_decide. Qed.
Lemma expand_to_no_err stop m (e : exit) : Memory.expand_to stop m ≠ Err e.
Proof.
  unfold Memory.expand_to, memory_expansion_cost, memory_cost, mul_u64, add_u64, sub_u64, exact_u64.
  repeat (case_match; try done); repeat (case_bool_decide; cbn; try done); by repeat case_match.
Qed.
Lemma read_bytes_no_err src off len (e : exit) : read_bytes src off len ≠ Err e.
Proof. unfold read_bytes. by case_match. Qed.
Lemma write_bytes_no_err m off bs (e : exit) : write_bytes m off bs ≠ Err e.
Proof. unfold write_bytes. by case_match. Qed.
Lemma get_range_no_err m off len (e : exit) : get_range m off len ≠ Err e.
Proof. unfold get_range, add_u64, exact_u64. case_bool_decide; cbn; [by case_match|done]. Qed.
Lemma load_no_err off m (e : exit) : Memory.load off m ≠ Err e.
Proof. unfold Memory.load. destruct (read_bytes m off 32) eqn:E; cbn; [done|by destruct (read_bytes_no_err m off 32 _ E)|done]. Qed.
Lemma pure_expand stop : pure (expand stop).
Proof.
  apply pure_bind; [done|intros m]. apply pure_bind; [apply pure_lift, expand_to_no_err|intros r].
  apply pure_bind; [done|intros _]. apply pure_charge.
Qed.

#[local] Hint Resolve pure_pop pure_push pure_charge pure_expand pure_lift pure_stop : vm.
#[local] Hint Resolve read_bytes_no_err write_bytes_no_err get_range_no_err load_no_err : vm.
Ltac pure_go :=
  repeat first [done | apply pure_pop | apply pure_push | apply pure_charge | apply pure_expand
    | by apply pure_stop | apply pure_lift; solve [auto with vm]
    | apply pure_bind; [|intros ?] | case_match].

Lemma pure_simple f op : pure (simple_op f op).
Proof.
  destruct op; cbn [simple_op]; unfold binop, copy_op, return_op, vote_witness_op, pop_u64, Memory.store;
    try (by apply pure_stop); pure_go.
Qed.
Lemma pure_jump f dest : pure (jump_to f dest).
Proof. unfold jump_to. pure_go. Qed.

(** What a program does to the world the frame started from. *)
Definition unbroken (h : Halt) : bool := match h with HSelfDestruct => false | _ => true end.
Definition tracks {A} (m : ST (vm H) exit A) : Prop := ∀ w0 s,
  evolves true w0 (v_world s) →
  match m s with
  | (Ok _, s') => evolves true w0 (v_world s')
  | (Err (Exit h _), s') => evolves (unbroken h) w0 (v_world s')
  | _ => True
  end.
Lemma pure_tracks {A} (m : ST (vm H) exit A) : pure m → tracks m.
Proof.
  intros Hm w0 s Hs. destruct (Hm s) as [Hw Hh].
  destruct (m s) as [[a|[h out|]|] s']; cbn in *; rewrite ?Hw; try done.
  destruct h; try done. by destruct (Hh out).
Qed.
Lemma tracks_bind {A B} (m : ST (vm H) exit A) (f : A → ST (vm H) exit B) :
  tracks m → (∀ a, tracks (f a)) → tracks (m ≫= f).
Proof.
  intros Hm Hf w0 s Hs. specialize (Hm w0 s Hs). unfold mbind, ST_bind.
  destruct (m s) as [[a|[h out|]|] s1]; try done. by apply Hf.
Qed.

Definition runner_tracks (run : @runner H) : Prop := ∀ w a code data e depth,
  match run w a code data e depth with
  | (Ok x, w') => evolves (unbroken (halt x)) w w'
  | (Err (Exit _ _), _) => False
  | _ => True
  end.

Lemma tracks_sub_call run f gas callee code input :
  runner_tracks run → tracks (sub_call run f gas callee code input).
Proof.
  intros Hr w0 s Hs. unfold sub_call. set (e := Z.min _ _).
  specialize (Hr (v_world s) callee code input e (S (f_depth f))).
  destruct (run _ _ _ _ _ _) as [[x|[]|] w'] eqn:E; try done; cbn.
  - apply (evolves_trans _ w0 (v_world s)); [done|].
    destruct (halt_is_success (halt x)) eqn:Eh; [by eapply evolves_commit|].
    apply evolves_revert. by destruct (halt x).
Qed.

Lemma tracks_call run f : runner_tracks run → tracks (call_op run f).
Proof.
  intros Hr. unfold call_op.
  repeat (apply tracks_bind; [apply pure_tracks; unfold pop_u64; by pure_go|intros ?]). cbv zeta.
  apply tracks_bind; [|intros r; apply pure_tracks; pure_go].
  destruct (if _ <? 256 then _ else _); [apply pure_tracks; pure_go|].
  apply tracks_bind; [by apply pure_tracks|intros code]. case_bool_decide; [by apply pure_tracks|].
  by apply tracks_sub_call.
Qed.
Lemma tracks_exec run f op : runner_tracks run → tracks (exec_op run f op).
Proof.
  intros Hr. pose proof (pure_simple f) as Hs. pose proof (pure_jump f) as Hj.
  destruct op; cbn [exec_op]; try (apply pure_tracks, pure_bind; [apply Hs|by intros]).
  - apply tracks_bind; [|by intros; apply pure_tracks]. unfold sstore_op.
    do 2 (apply tracks_bind; [apply pure_tracks, pure_pop|intros]).
    apply tracks_bind; [by apply pure_tracks|intros]. apply tracks_bind; [apply pure_tracks, pure_charge|intros].
    intros w0 s Hw. cbn. eapply evolves_trans; [exact Hw|]. apply evolves_sstore.
  - apply pure_tracks. apply pure_bind; [apply pure_pop|intros]. by apply pure_bind; [apply Hj|].
  - apply pure_tracks. do 2 (apply pure_bind; [apply pure_pop|intros]).
    case_match; [by apply pure_bind; [apply Hj|]|done].
  - apply tracks_bind; [by apply tracks_call|by intros; apply pure_tracks].
  - apply tracks_bind; [|by intros; apply pure_tracks]. unfold selfdestruct_op.
    apply tracks_bind; [by apply pure_tracks|intros w]. case_match; [by apply pure_tracks, pure_stop|].
    apply tracks_bind; [apply pure_tracks, pure_pop|intros]. case_bool_decide; [|by apply pure_tracks, pure_stop].
    cbn [negb]. apply tracks_bind; [apply pure_tracks, pure_charge|intros].
    intros w0 s Hw. cbn. eapply evolves_trans; [exact Hw|]. apply evolves_suicide.
Qed.
Lemma tracks_step run f byte : runner_tracks run → tracks (step run f byte).
Proof.
  intros Hr. unfold step. destruct (OpCode.from_u8 byte) as [op|]; [|by apply pure_tracks, pure_stop].
  apply tracks_bind; [apply pure_tracks; case_bool_decide; [done|apply pure_charge]|intros _].
  apply tracks_bind; [by apply tracks_exec|intros []; by apply pure_tracks].
Qed.
Lemma frame_with_tracks (loop : frame → ST (vm H) exit Empty_set) :
  (∀ f, tracks (loop f)) → runner_tracks (frame_with loop).
Proof.
  intros Hl w a code data e depth. unfold frame_with. case_bool_decide; [apply evolves_refl|].
  specialize (Hl (mk_frame a code data depth) w (mk_vm H w [] [] [] 0 (EnergyMeter.new e)) (evolves_refl _ _)).
  by destruct (loop _ _) as [[[]|[h out|]|] s].
Qed.
Lemma run_loop_tracks fuel f : tracks (run_loop (H := H) fuel f).
Proof.
  revert f. induction fuel as [|fuel IH]; intros f; [done|]. cbn [run_loop].
  apply tracks_bind; [by apply pure_tracks|intros pc]. case_match; [|by apply pure_tracks, pure_stop].
  apply tracks_bind; [by apply tracks_step, frame_with_tracks|intros; apply IH].
Qed.

(** Without a self-destruct, a run changes no balance. *)
Lemma run_frame_balances w a code data e depth x w' :
  run_frame w a code data e depth = (Ok x, w') → World.suicides w' = [] →
  World.suicides w = [] ∧ World.balances w' = World.balances w.
Proof.
  intros E. pose proof (frame_with_tracks _ (run_loop_tracks (S (Z.to_nat e))) w a code data e depth) as Ht.
  unfold run_frame, run_frame_fuel in E. rewrite E in Ht. apply Ht.
Qed.
End Balances.

(** ** Samples *)

Module VmSample.
#[export] Instance hashes : Hashes := toy_hashes.
#[export] Instance hash_laws : HashLaws := toy_hash_laws.
#[export] Instance secp : Secp := {|
  PublicKey := bytes; secp_recover _ s := Some (rs s); serialize_uncompressed k := 4 :: k |}.

Definition body (n : Z) : bytes := drop 12 (to_be_bytes 32 n).
(** PUSH1 5; PUSH1 7; ADD; STOP *)
Definition add_code : bytes := [96; 5; 96; 7; 1; 0].
(** PUSH1 1; PUSH1 0; SUB; MLOAD: loads from the highest offset. *)
Definition load_code : bytes := [96; 1; 96; 0; 3; 81].
(** CALL with [gas], no value, no input and no output. *)
Definition call_code (gas_hi callee_hi : Z) : bytes :=
  [96; 0; 96; 0; 96; 0; 96; 0; 96; 0; 97; callee_hi; 0; 97; gas_hi; 0; 241].
(** 0x0300 stores 7 in slot 1; 0x0200 calls it and reverts; 0x0100 calls 0x0200. *)
Definition nested : World.t MemoryHost :=
  World.set_code (body 256) (call_code 200 2)
    (World.set_code (body 512) (call_code 120 3 ++ [96; 0; 96; 0; 253])
      (World.set_code (body 768) [96; 7; 96; 1; 85] World.new)).
End VmSample.
Import VmSample.

Lemma run_frame_ends_witness :
  let w : World.t MemoryHost := World.new in
  run_frame_fuel 1000 w (body 1) add_code [] 100 0%nat = run_frame w (body 1) add_code [] 100 0%nat ∧
  (run_frame w (body 1) add_code [] 100 0%nat).1 = Ok (mk_exec HStop 9 [] (Some 12)).
Proof.
  intros w. split; [|by vm_compute].
  destruct (run_frame_ends w (body 1) add_code [] 100 0%nat 1000%nat) as [E _].
  - constructor; [apply map_Forall_empty|constructor|apply map_Forall_empty|done].
  - apply (bool_decide_unpack _). by vm_compute.
  - split; [constructor|by vm_compute].
  - by vm_compute.
  - apply (bool_decide_unpack _). by vm_compute.
  - exact E.
Defined.

(** The memory is grown before its price is checked, and the growth itself overflows: a
    four-instruction contract panics whatever its energy. *)
Lemma load_panics :
  (run_frame_fuel 5 (World.new : World.t MemoryHost) (body 1) load_code [] 100 0%nat).1 = Panic.
Proof. by vm_compute. Qed.

(** The middle frame reverted, yet the store of the frame below it stays. *)
Lemma reverted_call_leaks :
  let r := run_frame_fuel 60 nested (body 256) (World.get_code (body 256) nested) [] 100000 0%nat in
  (halt <$> match r.1 with Ok e => Some e | _ => None end) = Some HStop ∧
  World.sload (body 768) 1 nested = 0 ∧ World.sload (body 768) 1 r.2 = 7 ∧
  (run_frame_fuel 60 nested (body 512) (World.get_code (body 512) nested) [] 60000 1%nat).1
    = Ok (mk_exec HRevert 20073 [] (Some 1)).
Proof. by vm_compute. Qed.
