(* ===== verification/Contracts.v ===== *)
(** * Smart contracts (crates/actuators/src/vm_host.rs, smart_contract.rs)

    The bridge between the VM's world and chain state, and the two actuators that run
    byte code: calls of deployed contracts and deployments. *)

From stdpp Require Import gmap strings pretty numbers fin_maps prelude.
From S2P Require Import Prelude Types Proto State Actuator Chain Tvm Frame Engine EngineSafe.
Open Scope Z_scope.

(** ** The VM over chain state (vm_host.rs) *)

Definition addr21 (body : bytes) : option Address :=
  if bool_decide (length body = 20%nat) then Some (Addr.from_body body) else None.
Definition storage_key (addr : Address) (slot : Z) : bytes := addr ++ to_be_bytes 32 slot.
Definition read_slot (addr : Address) (slot : Z) (state : world) : Z :=
  match w_contract_storage state !! storage_key addr slot with
  | Some bs => if bool_decide (length bs = 32%nat) then from_be_unsigned bs else 0
  | None => 0
  end.
(** A zero value deletes the row. *)
Definition write_slot (addr : Address) (slot value : Z) (state : world) : world :=
  let key := storage_key addr slot in
  if value =? 0 then state <| w_contract_storage ::= delete key |>
  else state <| w_contract_storage ::= insert key (to_be_bytes 32 value) |>.

Definition WorldStateBackend (state : world) : StateBackend := mk_backend
  (λ addr, match addr21 addr with Some a => get_code a state | None => [] end)
  (λ addr slot, match addr21 addr with Some a => read_slot a slot state | None => 0 end)
  (λ addr, match get_account addr state with Some a => Account.balance a | None => 0 end)
  (λ addr, account_exists addr state).

Record WorldWrites := mk_writes {
  wr_storage : list (bytes * Z * Z);
  wr_balances : list (Address * Z);
  wr_code : list (bytes * bytes);
  wr_suicided : list Address;
}.
Definition from_world {H} (w : World.t H) : WorldWrites :=
  mk_writes (World.dirty_storage w) (World.dirty_balances w) (World.dirty_code w) (World.suicided w).

Definition flush_storage (state : world) (e : bytes * Z * Z) : world :=
  match addr21 e.1.1 with Some a => write_slot a e.1.2 e.2 state | None => state end.
Definition flush_balance (state : world) (e : Address * Z) : world :=
  let acc := match get_account e.1 state with
             | Some acc => acc
             | None => Account.default <| Account.address := e.1 |>
             end in
  put_account e.1 (acc <| Account.balance := e.2 |>) state.
Definition flush_code (state : world) (e : bytes * bytes) : world :=
  match addr21 e.1 with Some a => put_code a e.2 state | None => state end.
Definition flush_suicide (state : world) (addr : Address) : world :=
  state <| w_account ::= delete addr |> <| w_contract_code ::= delete addr |>.
Definition flush_world (writes : WorldWrites) (state : world) : world :=
  let state := foldl flush_storage state (wr_storage writes) in
  let state := foldl flush_balance state (wr_balances writes) in
  let state := foldl flush_code state (wr_code writes) in
  foldl flush_suicide state (wr_suicided writes).

(** [StateHost]: one contract's storage as the VM's [Host]. *)
Record StateHost := mk_state_host { sh_state : world; sh_contract : Address }.
#[export] Instance StateHost_host : Host StateHost := {
  host_sload h slot := read_slot (sh_contract h) slot (sh_state h);
  host_sstore slot value h :=
    mk_state_host (write_slot (sh_contract h) slot value (sh_state h)) (sh_contract h);
}.

(** ** The actuators (smart_contract.rs) *)

Definition DEPLOY_ENERGY_LIMIT : Z := 3000000.
(** The limit the executor passes for calls. *)
Definition TRIGGER_ENERGY_LIMIT : Z := 10000000.

Definition parse_contract_address (bs : bytes) (what : string) : R Address :=
  parse_address ("Invalid " +:+ what) bs.
Definition body20 (a : Address) : bytes := drop 1 a.
Definition energy_price (state : world) : Z :=
  let p := get_prop_i64 "ENERGY_FEE" state in
  if 0 <? p then p else DEFAULT_ENERGY_FEE_SUN.
Definition charge_energy_fee (owner : Address) (fee : Z) : M () :=
  if fee <=? 0 then mret () else
  acc ← gets (get_account owner);
  match acc with
  | None => mret ()
  | Some acc =>
      balance ← lift (ok_or (Execute "insufficient balance for energy fee")
        (opt_filter (λ b, 0 <=? b) (checked_sub (Account.balance acc) fee)));
      _ ← modify (put_account owner (acc <| Account.balance := balance |>));
      modify (burn_trx fee)
  end.

(** The outcome of a run: [NoFuel] does not occur, see [run_frame_ends]. *)
Definition vm_outcome {A} (r : res exit A) : R A :=
  match r with Ok a => Ok a | _ => Panic end.

Module TriggerSmartContractActuator.
Section Trigger.
Context `{Hashes} `{Secp}.
(** The root frame of a call: [call_value] moves first, then the code runs. *)
Definition run (owner target : Address) (call_value : Z) (data : bytes) (energy_limit : Z)
    (state : world) : R (CallResult * World.t MemoryHost) :=
  let w := World.with_state (WorldStateBackend state) in
  let t := if negb (call_value =? 0) then World.transfer (E := exit) owner target call_value w
           else (Ok (), w) in
  _ ← vm_outcome t.1;
  let r := execute_call (body20 target) data energy_limit 0 t.2 in
  result ← vm_outcome r.1;
  Ok (result, r.2).

Definition validate (c : TriggerSmartContract.t) (state : world) : R Z :=
  _ ← parse_contract_address (TriggerSmartContract.owner_address c) "ownerAddress";
  target ← parse_contract_address (TriggerSmartContract.contract_address c) "contractAddress";
  if bool_decide (get_code target state = []) then Err (Validate "Contract does not exist") else Ok 0.
Definition execute (energy_limit : Z) (c : TriggerSmartContract.t) : M ExecutionResult :=
  owner ← lift (parse_contract_address (TriggerSmartContract.owner_address c) "ownerAddress");
  target ← lift (parse_contract_address (TriggerSmartContract.contract_address c) "contractAddress");
  price ← gets energy_price;
  r ← reads (run owner target (TriggerSmartContract.call_value c)
               (TriggerSmartContract.data c) energy_limit);
  _ ← (if cr_success r.1 then modify (flush_world (from_world r.2)) else mret ());
  let fee := energy_to_sun (cr_energy_used r.1) price in
  _ ← charge_energy_fee owner fee;
  mret (mk_result fee).
End Trigger.
End TriggerSmartContractActuator.

Module CreateSmartContractActuator.
Section Create.
Context `{Hashes} `{Secp}.
(** The constructor's run. *)
Definition run (addr : Address) (init : bytes) (state : world) :
    R (CallResult * World.t MemoryHost) :=
  let r := execute_code (body20 addr) init [] DEPLOY_ENERGY_LIMIT 0
             (World.with_state (WorldStateBackend state)) in
  result ← vm_outcome r.1;
  Ok (result, r.2).
(** The contract's own address if it names a valid one, the owner's otherwise. *)
Definition create_address (c : CreateSmartContract.t) (sc : SmartContract.t) : R Address :=
  match parse_contract_address (SmartContract.contract_address sc) "contractAddress" with
  | Err _ => parse_contract_address (CreateSmartContract.owner_address c) "ownerAddress"
  | r => r
  end.

Definition validate (c : CreateSmartContract.t) (state : world) : R Z :=
  _ ← parse_contract_address (CreateSmartContract.owner_address c) "ownerAddress";
  match CreateSmartContract.new_contract c with
  | None => Err (Validate "No contract body")
  | Some _ => Ok 0
  end.
Definition execute (c : CreateSmartContract.t) : M ExecutionResult :=
  sc ← lift (ok_or (Execute "No contract body") (CreateSmartContract.new_contract c));
  owner ← lift (parse_contract_address (CreateSmartContract.owner_address c) "ownerAddress");
  addr ← lift (create_address c sc);
  price ← gets energy_price;
  r ← reads (run addr (SmartContract.bytecode sc));
  let fee := energy_to_sun (cr_energy_used r.1) price in
  if negb (cr_success r.1) then
    _ ← charge_energy_fee owner fee;
    lift (Err (Execute "contract constructor reverted"))
  else
    let runtime := if bool_decide (cr_return_data r.1 = []) then SmartContract.bytecode sc
                   else cr_return_data r.1 in
    _ ← modify (flush_world (from_world r.2));
    _ ← modify (put_contract addr (sc <| SmartContract.contract_address := addr |>));
    _ ← modify (put_code addr runtime);
    _ ← charge_energy_fee owner fee;
    mret (mk_result fee).
End Create.
End CreateSmartContractActuator.

Section Actuators.
Context `{Hashes} `{Secp}.
#[export] Instance trigger_actuator : Actuator TriggerSmartContract.t := {|
  Actuator.validate := TriggerSmartContractActuator.validate; Actuator.execute := TriggerSmartContractActuator.execute TRIGGER_ENERGY_LIMIT |}.
#[export] Instance create_actuator : Actuator CreateSmartContract.t := {|
  Actuator.validate := CreateSmartContractActuator.validate; Actuator.execute := CreateSmartContractActuator.execute |}.
End Actuators.

(** ** Flushing *)

Section Flush.
Implicit Types (w : world) (a : Address).

Lemma account_default_wf a : acc_wf (Account.default <| Account.address := a |>).
Proof. constructor; simpl; try done; first [constructor|apply map_Forall_empty]. Qed.

Lemma flush_balance_spec a (n : Z) w :
  trx_wf w → 0 ≤ n →
  trx_wf (flush_balance w (a, n)) ∧ total_trx (flush_balance w (a, n)) = total_trx w + n - balance_of a w ∧
  ∀ b, balance_of b (flush_balance w (a, n)) = if decide (a = b) then n else balance_of b w.
Proof.
  intros Hw Hn. unfold flush_balance. cbn [fst snd].
  set (acc := match get_account a w with Some acc => acc | None => _ end).
  assert (Hacc : acc_wf acc ∧ acc_trx acc = contrib acc_trx (w_account w) a ∧ Account.balance acc = balance_of a w).
  { unfold acc, contrib, balance_of. unfold get_account at 1 2 3. destruct (w_account w !! a) as [acc'|] eqn:E.
    - split_and!; [|done|]; [by apply (get_account_wf a acc' w Hw)|]. unfold get_account. by rewrite E.
    - split_and!; [apply account_default_wf|done|]. unfold get_account. by rewrite E. }
  destruct Hacc as (Hwf & Ht & Hb). fold (set_balance acc n). split_and!.
  - apply trx_wf_put_account; [done|]. by apply acc_wf_set_balance.
  - rewrite total_trx_put_account, acc_trx_set_balance. lia.
  - intros b. unfold balance_of at 1. rewrite get_put_account. by case_decide.
Qed.

Lemma flush_balances_spec (l : list (Address * Z)) w :
  NoDup l.*1 → Forall (λ e, 0 ≤ e.2) l → trx_wf w →
  let w' := foldl flush_balance w l in
  trx_wf w' ∧ total_trx w' = total_trx w + sum_list (λ e, e.2 - balance_of e.1 w) l ∧
  (∀ b, b ∉ l.*1 → balance_of b w' = balance_of b w) ∧ ∀ b n, (b, n) ∈ l → balance_of b w' = n.
Proof.
  revert w. induction l as [|[a n] l IH]; intros w Hd Hn Hw; cbn.
  { split_and!; [done|lia|done|]. by intros ? ? ?%elem_of_nil. }
  apply NoDup_cons in Hd as [Ha Hd]. apply Forall_cons in Hn as [Hn0 Hn]. cbn in Ha, Hn0.
  destruct (flush_balance_spec a n w Hw Hn0) as (Hw1 & Ht1 & Hb1).
  destruct (IH _ Hd Hn Hw1) as (Hw2 & Ht2 & Hout & Hin). split_and!; [done| | |].
  - rewrite Ht2, Ht1. enough (sum_list (λ e, e.2 - balance_of e.1 (flush_balance w (a, n))) l
      = sum_list (λ e, e.2 - balance_of e.1 w) l) as -> by lia.
    clear -Hb1 Ha. induction l as [|e l IH]; [done|]. cbn in *. apply not_elem_of_cons in Ha as [Hne Ha].
    rewrite Hb1, decide_False by done. by rewrite IH.
  - intros b [Hne Hb]%not_elem_of_cons. rewrite Hout, Hb1 by done. by rewrite decide_False.
  - intros b m [[= -> ->]|Hm]%elem_of_cons; [|by apply Hin].
    rewrite Hout, Hb1 by done. by rewrite decide_True.
Qed.

(** Storage rows and code hold no TRX. *)
Lemma flush_storage_frame l w :
  let w' := foldl flush_storage w l in
  w_account w' = w_account w ∧ w_exchange w' = w_exchange w ∧ w_delegation w' = w_delegation w ∧
  w_market_order w' = w_market_order w ∧ w_properties w' = w_properties w.
Proof.
  revert w. induction l as [|[[a s] v] l IH]; intros w; [done|]. cbn.
  destruct (IH (flush_storage w (a, s, v))) as (-> & -> & -> & -> & ->).
  unfold flush_storage, write_slot. cbn. by repeat case_match.
Qed.
Lemma flush_code_frame l w :
  let w' := foldl flush_code w l in
  w_account w' = w_account w ∧ w_exchange w' = w_exchange w ∧ w_delegation w' = w_delegation w ∧
  w_market_order w' = w_market_order w ∧ w_properties w' = w_properties w.
Proof.
  revert w. induction l as [|[a c] l IH]; intros w; [done|]. cbn.
  destruct (IH (flush_code w (a, c))) as (-> & -> & -> & -> & ->).
  unfold flush_code. cbn. by case_match.
Qed.
Lemma balance_of_frame a w w' : w_account w' = w_account w → balance_of a w' = balance_of a w.
Proof. unfold balance_of, get_account. by intros ->. Qed.

(** Flushing a world without self-destructs writes its balances and nothing else that
    counts. *)
Lemma flush_world_spec {H} (vw : World.t H) w :
  World.suicides vw = [] → map_Forall (λ _ n, 0 ≤ n) (World.balances vw) → trx_wf w →
  let w' := flush_world (from_world vw) w in
  trx_wf w' ∧
  total_trx w' = total_trx w + sum_list (λ e, e.2 - balance_of e.1 w) (map_to_list (World.balances vw)) ∧
  (∀ b, World.balances vw !! b = None → balance_of b w' = balance_of b w) ∧
  ∀ b n, World.balances vw !! b = Some n → balance_of b w' = n.
Proof.
  intros Hs Hb Hw. unfold flush_world. cbn [from_world wr_storage wr_balances wr_code wr_suicided].
  unfold World.suicided. rewrite Hs. cbn [foldl].
  set (w1 := foldl flush_storage w _). set (w2 := foldl flush_balance w1 _). set (w3 := foldl flush_code w2 _).
  destruct (flush_storage_frame (World.dirty_storage vw) w) as (Ea & Ee & Ed & Eo & Ep).
  destruct (trx_frame w w1 Ea Ee Ed Eo Ep) as (Hw1 & Ht1 & _).
  destruct (flush_code_frame (World.dirty_code vw) w2) as (Ea3 & Ee3 & Ed3 & Eo3 & Ep3).
  destruct (trx_frame w2 w3 Ea3 Ee3 Ed3 Eo3 Ep3) as (Hw3 & Ht3 & _).
  assert (Hb1 : ∀ a, balance_of a w1 = balance_of a w) by (intros; by apply balance_of_frame).
  assert (Hb3 : ∀ a, balance_of a w3 = balance_of a w2) by (intros; by apply balance_of_frame).
  assert (Hn : Forall (λ e, 0 ≤ e.2) (World.dirty_balances vw)).
  { apply Forall_forall. intros [b n] Hbn. apply elem_of_map_to_list in Hbn. exact (Hb b n Hbn). }
  destruct (flush_balances_spec (World.dirty_balances vw) w1) as (Hw2 & Ht2 & Hout & Hin);
    [apply NoDup_fst_map_to_list|done|by apply Hw1|]. fold w2 in Hw2, Ht2, Hout, Hin.
  split_and!.
  - by apply Hw3.
  - rewrite Ht3, Ht2, Ht1. f_equal. unfold World.dirty_balances.
    induction (map_to_list (World.balances vw)) as [|e l IH]; [done|]. cbn. by rewrite Hb1, IH.
  - intros b E. rewrite Hb3, Hout, Hb1; [done|]. intros ([b' n] & -> & Hbn)%list_elem_of_fmap.
    apply elem_of_map_to_list in Hbn. cbn in E. congruence.
  - intros b n E. rewrite Hb3. by apply Hin, elem_of_map_to_list.
Qed.
End Flush.

(** ** Writing back *)

Section WriteBack.
Implicit Types (w : world) (a : bytes) (k s v : Z).





End WriteBack.

Section FlushRead.
Context {H : Type} `{!Host H} (vw : World.t H) (w : world).
Context (Eb : World.backend vw = BState (WorldStateBackend w)) (Hs : World.suicides vw = []).

Abbreviation flushed := (flush_world (from_world vw) w).
Abbreviation reread := (World.with_state (H := H) (WorldStateBackend flushed)).





End FlushRead.


(** ** Fees and calls *)

Section Calls.
Context `{Hashes} `{Secp}.
Implicit Types (w : world) (a : Address).

(** A charged fee leaves the owner's balance and is burned; an owner without an account
    pays nothing. *)
Lemma charge_energy_fee_Ok owner fee w u w' :
  charge_energy_fee owner fee w = (Ok u, w') → trx_inv w →
  trx_inv w' ∧ total_trx w' = total_trx w ∧ (∀ a, a ≠ owner → balance_of a w' = balance_of a w) ∧
  (is_Some (get_account owner w) → balance_of owner w' = balance_of owner w - Z.max 0 fee).
Proof.
  unfold charge_energy_fee. intros E Hi. destruct (Z.leb_spec fee 0) as [Hf|Hf].
  { injection E as _ <-. split_and!; try done. intros _. lia. }
  unfold mbind, ST_bind, gets in E. destruct (get_account owner w) as [acc|] eqn:Ea.
  2: { injection E as _ <-. by split_and!. }
  unfold lift, modify in E.
  destruct (opt_filter _ _) as [b|] eqn:Eb; [|done]. cbn in E. injection E as _ <-.
  apply debit_Some in Eb as (-> & Hb & _).
  assert (Hwf : acc_wf (set_balance acc (Account.balance acc - fee))).
  { apply acc_wf_set_balance; [|done]. by eapply get_account_wf; [apply Hi|]. }
  destruct (burn_from_inv owner acc (set_balance acc (Account.balance acc - fee)) fee w Hi Ea Hwf) as [Hi' Ht'];
    [lia|rewrite acc_trx_set_balance; lia|].
  assert (Ef : burn_fee fee (put_account owner (set_balance acc (Account.balance acc - fee)) w)
    = burn_trx fee (put_account owner (set_balance acc (Account.balance acc - fee)) w)).
  { unfold burn_fee. by rewrite (proj2 (Z.ltb_lt 0 fee)). }
  rewrite Ef in Hi', Ht'. split_and!; [done|done| |].
  - intros a Ha. change (balance_of a (put_account owner (set_balance acc (Account.balance acc - fee)) w)
      = balance_of a w). unfold balance_of. by rewrite get_put_account_ne.
  - intros _. change (balance_of owner (put_account owner (set_balance acc (Account.balance acc - fee)) w)
      = balance_of owner w - Z.max 0 fee). unfold balance_of. rewrite get_put_account_eq, Ea. cbn. lia.
Qed.

(** The balances a call leaves in the VM's world. *)
Lemma trigger_run_balances owner target v data lim w r vw :
  TriggerSmartContractActuator.run owner target v data lim w = Ok (r, vw) → World.suicides vw = [] →
  World.balances vw = if v =? 0 then ∅
    else <[target := balance_of target w + v]> (<[owner := balance_of owner w - v]> ∅).
Proof.
  unfold TriggerSmartContractActuator.run. intros E Hs. set (w0 := World.with_state (WorldStateBackend w)) in E.
  set (t := if negb (v =? 0) then _ else _) in E.
  apply res_bind_Ok in E as (u & Et & E). apply res_bind_Ok in E as (res & Er & [= <- <-]).
  assert (Hrun : World.balances (execute_call (body20 target) data lim 0 t.2).2 = World.balances t.2).
  { unfold execute_call, execute_code, mbind, ST_bind, gets in Hs, Er |- *. cbn in Hs, Er |- *.
    destruct (run_frame _ _ _ _ _ _) as [[x| |] w'] eqn:Ex; [|done..]. cbn in *.
    by destruct (run_frame_balances _ _ _ _ _ _ _ _ Ex Hs). }
  rewrite Hrun. clear Hrun Er Hs. unfold t, World.transfer in *.
  destruct (v =? 0) eqn:Ev; cbn in *; [done|]. rewrite ?Ev in *.
  change (World.balance owner w0) with (balance_of owner w) in *.
  change (World.balance target w0) with (balance_of target w) in *.
  unfold sub_i64, add_i64, exact_i64 in *. case_bool_decide; [|done]. case_bool_decide; [|done]. cbn.
  unfold World.ensure_account. by repeat case_bool_decide.
Qed.

(** The stored code and storage rows are bytes. *)
Definition chain_bytes_ok w : Prop :=
  map_Forall (λ _, Forall is_byte) (w_contract_code w) ∧ map_Forall (λ _, Forall is_byte) (w_contract_storage w).

Lemma state_world_ok w : chain_bytes_ok w → world_ok (World.with_state (H := MemoryHost) (WorldStateBackend w)).
Proof.
  intros [Hc Hs]. constructor; [apply map_Forall_empty|constructor|apply map_Forall_empty|]. split; cbn.
  - intros a k. destruct (addr21 a) as [x|]; [|by vm_compute]. unfold read_slot.
    destruct (_ !! _) eqn:E; [|by vm_compute]. case_bool_decide; [|by vm_compute].
    apply u256_from_be; [exact (Hs _ _ E)|done].
  - intros a. destruct (addr21 a) as [x|]; [|constructor]. unfold get_code.
    destruct (_ !! _) eqn:E; [exact (Hc _ _ E)|constructor].
Qed.

Lemma trigger_run_energy `{!HashLaws} owner target v data lim w r vw :
  chain_bytes_ok w → buf_ok data → 0 ≤ lim ≤ U64_MAX →
  TriggerSmartContractActuator.run owner target v data lim w = Ok (r, vw) → 0 ≤ cr_energy_used r ≤ lim.
Proof.
  intros Hc Hd Hl. unfold TriggerSmartContractActuator.run. set (w0 := World.with_state (WorldStateBackend w)).
  set (t := if negb (v =? 0) then _ else _). intros (u & Et & (res & Er & [= <- <-])%res_bind_Ok)%res_bind_Ok.
  assert (Hw : world_ok t.2).
  { pose proof (state_world_ok w Hc) as Hok. unfold t. destruct (negb _); [|done].
    by eapply transfer_ok; [apply surjective_pairing|]. }
  unfold execute_call, execute_code, mbind, ST_bind, gets in Er. cbn in Er.
  pose proof (run_frame_fuel_ok (S (Z.to_nat lim)) t.2 (body20 target) (World.get_code (body20 target) t.2)
    data lim 0%nat Hw (get_code_ok _ _ Hw) Hd ltac:(lia) ltac:(lia)) as Hok.
  unfold run_frame in Er. destruct (run_frame_fuel _ _ _ _ _ _ _) as [[x| |] w']; [|done..].
  injection Er as <-. naive_solver.
Qed.

Lemma energy_to_sun_nonneg e p : 0 ≤ energy_to_sun e p.
Proof. unfold energy_to_sun. i64_lia. Qed.

(** The effect of a run on the ledger. *)
Lemma settle_run owner target v data lim w r vw :
  trx_inv w → (v ≠ 0 → 0 ≤ v ≤ balance_of owner w ∧ owner ≠ target) →
  TriggerSmartContractActuator.run owner target v data lim w = Ok (r, vw) → World.suicides vw = [] →
  let w1 := flush_world (from_world vw) w in
  trx_inv w1 ∧ total_trx w1 = total_trx w ∧
  (∀ a, balance_of a w1 = balance_of a w + (if decide (a = target) then v else 0)
     - (if decide (a = owner) then v else 0)).
Proof.
  intros [Hw Hle] Hv E Hs w1. pose proof (trigger_run_balances _ _ _ _ _ _ _ _ E Hs) as Eb.
  assert (Hbal : ∀ a, 0 ≤ balance_of a w).
  { intros a. unfold balance_of. destruct (get_account a w) eqn:Ea; [|done]. apply (get_account_wf _ _ _ Hw Ea). }
  destruct (Z.eqb_spec v 0) as [->|Hne].
  - destruct (flush_world_spec vw w Hs) as (Hw1 & Ht & Hout & _); [rewrite Eb; apply map_Forall_empty|done|].
    fold w1 in Hw1, Ht, Hout. rewrite Eb, map_to_list_empty in Ht. cbn [sum_list] in Ht.
    assert (total_trx w1 = total_trx w) as Et by lia. split_and!; [split; [done|lia]|done|].
    intros a. rewrite Hout by (by rewrite Eb). repeat case_decide; lia.
  - destruct (Hv Hne) as [Hrange Hot]. pose proof (Hbal target).
    destruct (flush_world_spec vw w Hs) as (Hw1 & Ht & Hout & Hin);
      [rewrite Eb; repeat apply map_Forall_insert_2; [cbv beta; lia|cbv beta; lia|apply map_Forall_empty]|done|].
    fold w1 in Hw1, Ht, Hout, Hin.
    assert (Esum : sum_list (λ e, e.2 - balance_of e.1 w) (map_to_list (World.balances vw)) = 0).
    { rewrite Eb. rewrite (sum_list_permutation _ _ ((target, balance_of target w + v)
        :: (owner, balance_of owner w - v) :: [])); [cbn; lia|].
      rewrite map_to_list_insert; [|by rewrite lookup_insert_ne, lookup_empty].
      rewrite map_to_list_insert; [|apply lookup_empty]. by rewrite map_to_list_empty. }
    assert (total_trx w1 = total_trx w) as Et by lia. split_and!; [split; [done|lia]|done|].
    intros a. destruct (decide (a = target)) as [->|]; [|destruct (decide (a = owner)) as [->|]].
    + rewrite decide_False by congruence. rewrite (Hin target (balance_of target w + v)); [lia|].
      rewrite Eb. apply lookup_insert_eq.
    + rewrite (Hin owner (balance_of owner w - v)); [lia|].
      rewrite Eb, lookup_insert_ne by congruence. apply lookup_insert_eq.
    + rewrite Hout; [lia|]. rewrite Eb, !lookup_insert_ne by congruence. apply lookup_empty.
Qed.

(** What the ledger takes for granted of a call: its value is covered by the caller's
    balance and goes to another account, and the run deletes no account. *)
Definition trigger_wf (c : TriggerSmartContract.t) w : Prop :=
  let owner := TriggerSmartContract.owner_address c in
  let target := TriggerSmartContract.contract_address c in
  let v := TriggerSmartContract.call_value c in
  (v ≠ 0 → 0 ≤ v ≤ balance_of owner w ∧ owner ≠ target) ∧
  ∀ r vw, TriggerSmartContractActuator.run owner target v (TriggerSmartContract.data c) TRIGGER_ENERGY_LIMIT w = Ok (r, vw) →
    World.suicides vw = [].

(** The run behind a call, and the state its writes leave. *)
Definition call_run (c : TriggerSmartContract.t) w : R (CallResult * World.t MemoryHost) :=
  TriggerSmartContractActuator.run (TriggerSmartContract.owner_address c) (TriggerSmartContract.contract_address c)
    (TriggerSmartContract.call_value c) (TriggerSmartContract.data c) TRIGGER_ENERGY_LIMIT w.
Definition settled (r : CallResult * World.t MemoryHost) w : world :=
  if cr_success r.1 then flush_world (from_world r.2) w else w.

Lemma trigger_apply_eq c w o w' :
  apply_contract c w = (o, w') → o ≠ Panic →
  (∃ e, o = Err e ∧ w' = w) ∨
  ∃ r, call_run c w = Ok r ∧
    let fee := energy_to_sun (cr_energy_used r.1) (energy_price w) in
    match charge_energy_fee (TriggerSmartContract.owner_address c) fee (settled r w) with
    | (Ok _, w1) => o = Ok (mk_result fee) ∧ w' = w1
    | (Err e, w1) => o = Err e ∧ w' = w1
    | (Panic, _) => False
    end.
Proof.
  rewrite apply_contract_eq. cbn [validate Actuator.execute trigger_actuator].
  destruct (TriggerSmartContractActuator.validate c w) as [z|e|]; [|intros [= <- <-]; by left; exists e|by intros [= <- <-]].
  unfold TriggerSmartContractActuator.execute, mbind, ST_bind, lift, gets, reads.
  destruct (parse_contract_address (TriggerSmartContract.owner_address c) _) as [owner|e|] eqn:Eo;
    [|intros [= <- <-]; by left; exists e|by intros [= <- <-]].
  destruct (parse_contract_address (TriggerSmartContract.contract_address c) _) as [target|e|] eqn:Et;
    [|intros [= <- <-]; by left; exists e|by intros [= <- <-]].
  apply parse_address_Ok in Eo as [-> _]. apply parse_address_Ok in Et as [-> _].
  fold (call_run c w). destruct (call_run c w) as [r|e|]; [|intros [= <- <-]; by left; exists e|by intros [= <- <-]].
  intros E Hp. right. exists r. split; [done|]. cbv zeta.
  assert (Es : (if cr_success r.1 then modify (flush_world (from_world r.2)) else mret ()) w
    = (Ok (), settled r w) :> res ActuatorError () * world) by (unfold settled; by destruct (cr_success r.1)).
  rewrite Es in E. destruct (charge_energy_fee _ _ _) as [[[]|e|] w1]; by injection E as <- <-.
Qed.

Lemma flush_keeps_account {H1} (vw : World.t H1) a w :
  World.suicides vw = [] → is_Some (get_account a w) → is_Some (get_account a (flush_world (from_world vw) w)).
Proof.
  intros Hs Ha. unfold flush_world. cbn [from_world wr_storage wr_balances wr_code wr_suicided].
  unfold World.suicided. rewrite Hs. cbn [foldl]. unfold get_account in *.
  destruct (flush_code_frame (World.dirty_code vw) (foldl flush_balance
    (foldl flush_storage w (World.dirty_storage vw)) (World.dirty_balances vw))) as (-> & _).
  destruct (flush_storage_frame (World.dirty_storage vw) w) as (Ea & _). rewrite <-Ea in Ha. clear Ea.
  revert Ha. generalize (foldl flush_storage w (World.dirty_storage vw)). induction (World.dirty_balances vw) as [|e l IH]; intros w1 Ha; [done|]. cbn. apply IH.
  unfold flush_balance, put_account. cbn. rewrite lookup_insert_is_Some'. by right.
Qed.

(** The settled state, whether or not the run succeeded. *)
Lemma settled_spec c w r :
  trx_inv w → trigger_wf c w → call_run c w = Ok r →
  let paid := if cr_success r.1 then TriggerSmartContract.call_value c else 0 in
  trx_inv (settled r w) ∧ total_trx (settled r w) = total_trx w ∧
  (∀ a, balance_of a (settled r w) = balance_of a w
     + (if decide (a = TriggerSmartContract.contract_address c) then paid else 0)
     - (if decide (a = TriggerSmartContract.owner_address c) then paid else 0)) ∧
  ∀ a, is_Some (get_account a w) → is_Some (get_account a (settled r w)).
Proof.
  intros Hi [Hv Hsd] Er. destruct r as [r vw]. unfold settled. cbn [fst snd].
  destruct (cr_success r); cbv zeta.
  - pose proof (Hsd r vw Er) as Hs.
    destruct (settle_run _ _ _ _ _ _ _ _ Hi Hv Er Hs) as (Hi1 & Ht1 & Hb1).
    split_and!; [done..|]. intros a. by apply flush_keeps_account.
  - split_and!; try done. intros a. repeat case_decide; lia.
Qed.

Lemma charge_energy_fee_Err owner fee w e w' :
  charge_energy_fee owner fee w = (Err e, w') →
  e = Execute "insufficient balance for energy fee" ∧ w' = w.
Proof.
  unfold charge_energy_fee, mbind, ST_bind, gets, lift, modify, ok_or. repeat case_match; naive_solver.
Qed.

(** C6: settlement of a contract call.  Let the state satisfy the supply invariant, the value
    of the call, unless it is zero, be covered by the caller's balance and go to another
    account, and the run delete no account ([trigger_wf]).  Then an accepted call keeps the
    invariant and the supply; its fee is the energy used times the price, cut to 64 bits, and
    the energy is within the limit if the stored code and slots and the call data are bytes.  The value
    moves from the caller to the contract if the run succeeded and stays if it reverted; a
    caller who has an account pays the fee, which is burned; and these are all the changes of
    balances.  A refused call leaves the state as it was, except that a caller who cannot pay
    the fee keeps what the run wrote. *)
Theorem contract_call_settles `{!HashLaws} (c : TriggerSmartContract.t) w :
  trx_inv w → trigger_wf c w →
  let owner := TriggerSmartContract.owner_address c in
  let target := TriggerSmartContract.contract_address c in
  match apply_contract c w with
  | (Ok result, w') => ∃ r, call_run c w = Ok r ∧
      fee result = energy_to_sun (cr_energy_used r.1) (energy_price w) ∧
      (chain_bytes_ok w → buf_ok (TriggerSmartContract.data c) →
         0 ≤ cr_energy_used r.1 ≤ TRIGGER_ENERGY_LIMIT) ∧
      trx_inv w' ∧ total_trx w' = total_trx w ∧
      let paid := if cr_success r.1 then TriggerSmartContract.call_value c else 0 in
      (is_Some (get_account owner w) →
         ∀ a, balance_of a w' = balance_of a w + (if decide (a = target) then paid else 0)
           - (if decide (a = owner) then paid + fee result else 0)) ∧
      (∀ a, a ≠ owner → a ≠ target → balance_of a w' = balance_of a w)
  | (Err e, w') => w' = w ∨ e = Execute "insufficient balance for energy fee" ∧
      ∃ r, call_run c w = Ok r ∧ w' = settled r w
  | (Panic, _) => True
  end.
Proof.
  intros Hi Hwf owner target. subst owner target. destruct (apply_contract c w) as [o w'] eqn:E.
  assert (o = Panic ∨ o ≠ Panic) as [->|Hp] by (destruct o; auto); [done|].
  apply trigger_apply_eq in E as [(e & -> & ->)|(r & Er & E)]; [by left| |done].
  destruct (settled_spec c w r Hi Hwf Er) as (Hi1 & Ht1 & Hb1 & Ha1).
  cbv zeta in E. set (f := energy_to_sun _ _) in E. pose proof (energy_to_sun_nonneg (cr_energy_used r.1) (energy_price w)) as Hf.
  destruct (charge_energy_fee _ _ _) as [[[]|e|] w1] eqn:Ec; [|..|done].
  - destruct E as [-> ->]. destruct (charge_energy_fee_Ok _ _ _ _ _ Ec Hi1) as (Hi2 & Ht2 & Hout & Howner).
    exists r. refine (conj Er (conj eq_refl (conj _ (conj Hi2 (conj _ (conj _ _)))))); [|congruence|..].
    + intros Hc Hd. destruct r as [r vw]. eapply (trigger_run_energy _ _ _ _ TRIGGER_ENERGY_LIMIT w r vw); try done.
    + intros Ha a. cbn [fee]. fold f. fold f in Hf. specialize (Hb1 a).
      destruct (decide (a = TriggerSmartContract.owner_address c)) as [->|Hne].
      * rewrite (Howner (Ha1 _ Ha)), Hb1. lia.
      * rewrite Hout, Hb1 by done. lia.
    + intros a Ho Ht. rewrite Hout, Hb1 by done. rewrite !decide_False by done. lia.
  - destruct E as [-> ->]. apply charge_energy_fee_Err in Ec as [-> ->]. right. eauto.
Qed.

Lemma trigger_conserves_outcome c w :
  trigger_wf c w → trx_inv w → conserves (apply_contract c w) w.
Proof.
  intros Hwf Hi. destruct (apply_contract c w) as [[result|e|] w'] eqn:E; [|done..].
  apply trigger_apply_eq in E as [(e & [=] & _)|(r & Er & E)]; [|done].
  destruct (settled_spec c w r Hi Hwf Er) as (Hi1 & Ht1 & _). cbv zeta in E.
  destruct (charge_energy_fee _ _ _) as [[[]|e|] w1] eqn:Ec; [|by destruct E..]. destruct E as [_ ->].
  destruct (charge_energy_fee_Ok _ _ _ _ _ Ec Hi1) as (Hi2 & Ht2 & _). split; [done|congruence].
Qed.

(** ... and of a deployment: the constructor deletes no account. *)
Definition create_wf (c : CreateSmartContract.t) w : Prop :=
  ∀ sc addr r vw, CreateSmartContract.new_contract c = Some sc → CreateSmartContractActuator.create_address c sc = Ok addr →
    CreateSmartContractActuator.run addr (SmartContract.bytecode sc) w = Ok (r, vw) → World.suicides vw = [].

Lemma create_run_balances addr init w r vw :
  CreateSmartContractActuator.run addr init w = Ok (r, vw) → World.suicides vw = [] → World.balances vw = ∅.
Proof.
  unfold CreateSmartContractActuator.run, execute_code. intros (res & Er & [= <- <-])%res_bind_Ok. revert Er.
  destruct (run_frame _ _ _ _ _ _) as [[x| |] w'] eqn:Ex; cbn; [|done..]. intros _ Hs.
  by destruct (run_frame_balances _ _ _ _ _ _ _ _ Ex Hs) as [_ ->].
Qed.

Lemma create_conserves_outcome c w : create_wf c w → trx_inv w → conserves (apply_contract c w) w.
Proof.
  intros Hwf Hi. destruct (apply_contract c w) as [[result|e|] w'] eqn:E; [|done..].
  rewrite apply_contract_eq in E. cbn [validate Actuator.execute create_actuator] in E.
  destruct (CreateSmartContractActuator.validate c w); [|done..]. unfold CreateSmartContractActuator.execute in E. inv_ok.
  match goal with H : (if ?b then _ else _) _ = _ |- _ => destruct b; [inv_ok|] end. inv_ok.
  match goal with H1 : CreateSmartContractActuator.create_address c _ = Ok _, H2 : CreateSmartContractActuator.run _ _ _ = Ok ?r |- _ =>
    destruct r as [r vw]; pose proof (Hwf _ _ _ _ ltac:(eassumption) H1 H2) as Hs;
    pose proof (create_run_balances _ _ _ _ _ H2 Hs) as Hb end. cbn [fst snd] in *.
  destruct (flush_world_spec vw w Hs) as (Hw1 & Ht1 & _); [rewrite Hb; apply map_Forall_empty|apply Hi|].
  rewrite Hb, map_to_list_empty in Ht1. cbn [sum_list] in Ht1. rewrite Z.add_0_r in Ht1.
  match goal with H : charge_energy_fee _ _ ?w2 = _ |- _ => rename H into Ec; set (w1 := w2) in Ec end.
  destruct (trx_frame (flush_world (from_world vw) w) w1) as (Hw2 & Ht2 & _); [done..|].
  assert (Hi1 : trx_inv w1) by (split; [by apply Hw2|]; rewrite Ht2, Ht1; apply Hi).
  destruct (charge_energy_fee_Ok _ _ _ _ _ Ec Hi1) as (Hi2 & Ht3 & _). split; [done|congruence].
Qed.

(** ** Evaluating runs *)

(** A run that ends with little fuel is the run. *)
Lemma trigger_run_fuel (n : nat) owner target v data lim w t x vw :
  (n ≤ S (Z.to_nat lim))%nat →
  (if negb (v =? 0)
   then World.transfer (E := exit) owner target v (World.with_state (H := MemoryHost) (WorldStateBackend w))
   else (Ok (), World.with_state (WorldStateBackend w))) = (Ok (), t) →
  run_frame_fuel n t (body20 target) (World.get_code (body20 target) t) data lim 0%nat = (Ok x, vw) →
  TriggerSmartContractActuator.run owner target v data lim w = Ok (to_call_result x, vw).
Proof.
  intros Hn Et Ex.
  assert (Em : run_frame t (body20 target) (World.get_code (body20 target) t) data lim 0%nat = (Ok x, vw)).
  { unfold run_frame. rewrite (run_frame_fuel_mono n _ Hn); [done|]. rewrite Ex. cbn. congruence. }
  unfold TriggerSmartContractActuator.run. cbv zeta. rewrite Et. cbn [fst snd vm_outcome].
  assert (Er : execute_call (body20 target) data lim 0 t = (Ok (to_call_result x), vw)).
  { unfold execute_call, execute_code, mbind, ST_bind, gets. by rewrite Em. }
  unfold mbind, res_bind. rewrite Er. done.
Qed.

Lemma trigger_apply_run c w z r :
  TriggerSmartContractActuator.validate c w = Ok z → call_run c w = Ok r →
  let fee := energy_to_sun (cr_energy_used r.1) (energy_price w) in
  apply_contract c w =
    match charge_energy_fee (TriggerSmartContract.owner_address c) fee (settled r w) with
    | (Ok _, w1) => (Ok (mk_result fee), w1)
    | (Err e, w1) => (Err e, w1)
    | (Panic, w1) => (Panic, w1)
    end.
Proof.
  intros Ev Er. rewrite apply_contract_eq. cbn [validate Actuator.execute trigger_actuator]. rewrite Ev.
  unfold TriggerSmartContractActuator.validate in Ev. apply res_bind_Ok in Ev as (owner & Eo & Ev).
  apply res_bind_Ok in Ev as (target & Et & _).
  unfold TriggerSmartContractActuator.execute, mbind, ST_bind, lift, gets, reads. rewrite Eo, Et.
  apply parse_address_Ok in Eo as [-> _]. apply parse_address_Ok in Et as [-> _].
  fold (call_run c w). rewrite Er. cbv zeta.
  assert (Es : (if cr_success r.1 then modify (flush_world (from_world r.2)) else mret ()) w
    = (Ok (), settled r w) :> res ActuatorError () * world) by (unfold settled; by destruct (cr_success r.1)).
  rewrite Es. by destruct (charge_energy_fee _ _ _) as [[[]|e|] w1].
Qed.

(** ** Where the conditions fail *)

(** A contract at the caller's own address: the value is added to the balance read before
    the debit, so a successful run creates it. *)
Lemma self_call_mints a v data lim w r vw :
  trx_wf w → 0 < v → TriggerSmartContractActuator.run a a v data lim w = Ok (r, vw) → World.suicides vw = [] →
  total_trx (flush_world (from_world vw) w) = total_trx w + v.
Proof.
  intros Hw Hv E Hs. pose proof (trigger_run_balances _ _ _ _ _ _ _ _ E Hs) as Eb.
  rewrite (proj2 (Z.eqb_neq v 0)) in Eb by lia. rewrite insert_insert_eq in Eb.
  assert (0 ≤ balance_of a w).
  { unfold balance_of. destruct (get_account a w) eqn:Ea; [|done]. apply (get_account_wf _ _ _ Hw Ea). }
  destruct (flush_world_spec vw w Hs) as (_ & -> & _);
    [rewrite Eb; apply map_Forall_insert_2; [cbv beta; lia|apply map_Forall_empty]|done|].
  rewrite Eb, (sum_list_permutation _ _ [(a, balance_of a w + v)]); [cbn; lia|].
  rewrite map_to_list_insert by apply lookup_empty. by rewrite map_to_list_empty.
Qed.

#[export] Instance trigger_conserves : ActuatorConserves TriggerSmartContract.t := {
  conserve_wf := trigger_wf; apply_conserves := trigger_conserves_outcome }.
#[export] Instance create_conserves : ActuatorConserves CreateSmartContract.t := {
  conserve_wf := create_wf; apply_conserves := create_conserves_outcome }.
End Calls.

(** ** Samples *)

Module CallSample.
#[export] Instance hashes : Hashes := toy_hashes.
#[export] Instance hash_laws : HashLaws := toy_hash_laws.
#[export] Instance secp : Secp := {|
  PublicKey := bytes; secp_recover _ s := Some (rs s); serialize_uncompressed k := 4 :: k |}.
(** Account 2 holds code that stores 7 in slot 1; account 3 code that just stops. *)
Definition state : world :=
  put_code (Sample.addr 3) [0] (put_code (Sample.addr 2) [96; 7; 96; 1; 85] Sample.state).
Definition call (target v : Z) : TriggerSmartContract.t :=
  TriggerSmartContract.mk (Sample.addr 1) (Sample.addr target) v [] 0 0.

(** The run of a call, with twenty turns. *)
Definition entered (target v : Z) : World.t MemoryHost :=
  (World.transfer (E := exit) (Sample.addr 1) (Sample.addr target) v
     (World.with_state (WorldStateBackend state))).2.
Definition run (target v : Z) : res exit Exec * World.t MemoryHost :=
  let w := entered target v in
  run_frame_fuel 20%nat w (body20 (Sample.addr target)) (World.get_code (body20 (Sample.addr target)) w) []
    TRIGGER_ENERGY_LIMIT 0%nat.
Lemma store_run :
  call_run (call 2 1000) state = Ok (mk_call_result true HStop 20006 [], (run 2 1000).2).
Proof.
  apply (trigger_run_fuel 20 _ _ _ _ _ _ (entered 2 1000) (mk_exec HStop 20006 [] None));
    [unfold TRIGGER_ENERGY_LIMIT; lia|done|].
  rewrite (surjective_pairing (run_frame_fuel _ _ _ _ _ _ _)). apply pair_equal_spec. split; [by vm_compute|done].
Qed.
End CallSample.
Import CallSample.

Lemma contract_call_settles_witness :
  ∃ w', apply_contract (call 2 1000) state = (Ok (mk_result 2000600), w') ∧
    total_trx w' = total_trx state ∧
    balance_of (Sample.addr 1) w' = 47998400 ∧ balance_of (Sample.addr 2) w' = 3001000.
Proof.
  assert (Hi : trx_inv state) by check_inv.
  assert (Hwf : trigger_wf (call 2 1000) state).
  { split; [intros _; split; [by vm_compute|done]|]. intros r vw E.
    change (call_run (call 2 1000) state = Ok (r, vw)) in E. rewrite store_run in E. injection E as _ <-.
    by vm_compute. }
  pose proof (contract_call_settles (call 2 1000) state Hi Hwf) as Hc.
  assert (Ev : TriggerSmartContractActuator.validate (call 2 1000) state = Ok 0) by (by vm_compute).
  cbv zeta in Hc. rewrite (trigger_apply_run _ _ 0 _ Ev store_run) in Hc |- *. cbv zeta in Hc |- *.
  destruct (charge_energy_fee _ _ _) as [[[]|e|] w1] eqn:Ec; [|by vm_compute in Ec..].
  destruct Hc as (r & Er & _ & _ & _ & Ht & Hb & _). rewrite store_run in Er. injection Er as <-.
  specialize (Hb ltac:(by vm_compute; eexists)).
  exists w1. split_and!; [done|exact Ht|exact (Hb (Sample.addr 1))|exact (Hb (Sample.addr 2))].
Defined.

(** The value is not compared with the balance: a call of free code overdraws the caller. *)
Lemma overdrawn_call :
  ∃ w', apply_contract (call 3 60000000) state = (Ok (mk_result 0), w') ∧
    balance_of (Sample.addr 1) w' = -10000000.
Proof.
  assert (Er : call_run (call 3 60000000) state = Ok (mk_call_result true HStop 0 [], (run 3 60000000).2)).
  { apply (trigger_run_fuel 20 _ _ _ _ _ _ (entered 3 60000000) (mk_exec HStop 0 [] None));
      [unfold TRIGGER_ENERGY_LIMIT; lia|done|].
    rewrite (surjective_pairing (run_frame_fuel _ _ _ _ _ _ _)). apply pair_equal_spec. split; [by vm_compute|done]. }
  assert (Ev : TriggerSmartContractActuator.validate (call 3 60000000) state = Ok 0) by (by vm_compute).
  eexists. split; [rewrite (trigger_apply_run _ _ 0 _ Ev Er); reflexivity|]. by vm_compute.
Qed.

(** Undoing a balance writes the old value out instead of removing the entry: the flush after a
    reverted transfer creates an empty account for the receiver. *)
Lemma reverted_transfer_creates_account :
  let w := World.with_state (H := MemoryHost) (WorldStateBackend state) in
  let w1 := (World.transfer (E := exit) (Sample.addr 1) (Sample.addr 9) 5 w).2 in
  let r := World.revert_to (World.checkpoint w) w1 in
  get_account (Sample.addr 9) state = None ∧
  Account.balance <$> get_account (Sample.addr 9) (flush_world (from_world r) state) = Some 0.
Proof. split; by vm_compute. Qed.

