(* ===== verification/Executor.v ===== *)
(** * The executor (crates/actuators/src/executor.rs)

    Decoding of the packed contract, dispatch to the actuators, application of
    transactions and blocks, and the supply of TRX over a whole chain.

    The protobuf decoders are third-party code: one [Decode] instance per message. *)

From stdpp Require Import gmap strings pretty numbers fin_maps prelude.
From S2P Require Import Prelude Types Proto State Actuator Transfer Stake StakeV1 Delegate Accounts.
From S2P Require Import Governance Assets F64 Exchanges OrderBook Market Chain Contracts.
Open Scope Z_scope.

(** ** The contract types ([transaction::contract::ContractType]) *)

Module ContractType.
Inductive t :=
| AccountCreateContract
| TransferContract
| TransferAssetContract
| VoteAssetContract
| VoteWitnessContract
| WitnessCreateContract
| AssetIssueContract
| WitnessUpdateContract
| ParticipateAssetIssueContract
| AccountUpdateContract
| FreezeBalanceContract
| UnfreezeBalanceContract
| WithdrawBalanceContract
| UnfreezeAssetContract
| UpdateAssetContract
| ProposalCreateContract
| ProposalApproveContract
| ProposalDeleteContract
| SetAccountIdContract
| CustomContract
| CreateSmartContract
| TriggerSmartContract
| GetContract
| UpdateSettingContract
| ExchangeCreateContract
| ExchangeInjectContract
| ExchangeWithdrawContract
| ExchangeTransactionContract
| UpdateEnergyLimitContract
| AccountPermissionUpdateContract
| ClearAbiContract
| UpdateBrokerageContract
| ShieldedTransferContract
| MarketSellAssetContract
| MarketCancelOrderContract
| FreezeBalanceV2Contract
| UnfreezeBalanceV2Contract
| WithdrawExpireUnfreezeContract
| DelegateResourceContract
| UnDelegateResourceContract
| CancelAllUnfreezeV2Contract
.
Definition from_i32 (n : Z) : option t :=
  match n with
  | 0 => Some AccountCreateContract
  | 1 => Some TransferContract
  | 2 => Some TransferAssetContract
  | 3 => Some VoteAssetContract
  | 4 => Some VoteWitnessContract
  | 5 => Some WitnessCreateContract
  | 6 => Some AssetIssueContract
  | 8 => Some WitnessUpdateContract
  | 9 => Some ParticipateAssetIssueContract
  | 10 => Some AccountUpdateContract
  | 11 => Some FreezeBalanceContract
  | 12 => Some UnfreezeBalanceContract
  | 13 => Some WithdrawBalanceContract
  | 14 => Some UnfreezeAssetContract
  | 15 => Some UpdateAssetContract
  | 16 => Some ProposalCreateContract
  | 17 => Some ProposalApproveContract
  | 18 => Some ProposalDeleteContract
  | 19 => Some SetAccountIdContract
  | 20 => Some CustomContract
  | 30 => Some CreateSmartContract
  | 31 => Some TriggerSmartContract
  | 32 => Some GetContract
  | 33 => Some UpdateSettingContract
  | 41 => Some ExchangeCreateContract
  | 42 => Some ExchangeInjectContract
  | 43 => Some ExchangeWithdrawContract
  | 44 => Some ExchangeTransactionContract
  | 45 => Some UpdateEnergyLimitContract
  | 46 => Some AccountPermissionUpdateContract
  | 48 => Some ClearAbiContract
  | 49 => Some UpdateBrokerageContract
  | 51 => Some ShieldedTransferContract
  | 52 => Some MarketSellAssetContract
  | 53 => Some MarketCancelOrderContract
  | 54 => Some FreezeBalanceV2Contract
  | 55 => Some UnfreezeBalanceV2Contract
  | 56 => Some WithdrawExpireUnfreezeContract
  | 57 => Some DelegateResourceContract
  | 58 => Some UnDelegateResourceContract
  | 59 => Some CancelAllUnfreezeV2Contract
  | _ => None
  end.
(** The [Debug] name. *)
Definition name (x : t) : string :=
  match x with
  | AccountCreateContract => "AccountCreateContract"
  | TransferContract => "TransferContract"
  | TransferAssetContract => "TransferAssetContract"
  | VoteAssetContract => "VoteAssetContract"
  | VoteWitnessContract => "VoteWitnessContract"
  | WitnessCreateContract => "WitnessCreateContract"
  | AssetIssueContract => "AssetIssueContract"
  | WitnessUpdateContract => "WitnessUpdateContract"
  | ParticipateAssetIssueContract => "ParticipateAssetIssueContract"
  | AccountUpdateContract => "AccountUpdateContract"
  | FreezeBalanceContract => "FreezeBalanceContract"
  | UnfreezeBalanceContract => "UnfreezeBalanceContract"
  | WithdrawBalanceContract => "WithdrawBalanceContract"
  | UnfreezeAssetContract => "UnfreezeAssetContract"
  | UpdateAssetContract => "UpdateAssetContract"
  | ProposalCreateContract => "ProposalCreateContract"
  | ProposalApproveContract => "ProposalApproveContract"
  | ProposalDeleteContract => "ProposalDeleteContract"
  | SetAccountIdContract => "SetAccountIdContract"
  | CustomContract => "CustomContract"
  | CreateSmartContract => "CreateSmartContract"
  | TriggerSmartContract => "TriggerSmartContract"
  | GetContract => "GetContract"
  | UpdateSettingContract => "UpdateSettingContract"
  | ExchangeCreateContract => "ExchangeCreateContract"
  | ExchangeInjectContract => "ExchangeInjectContract"
  | ExchangeWithdrawContract => "ExchangeWithdrawContract"
  | ExchangeTransactionContract => "ExchangeTransactionContract"
  | UpdateEnergyLimitContract => "UpdateEnergyLimitContract"
  | AccountPermissionUpdateContract => "AccountPermissionUpdateContract"
  | ClearAbiContract => "ClearAbiContract"
  | UpdateBrokerageContract => "UpdateBrokerageContract"
  | ShieldedTransferContract => "ShieldedTransferContract"
  | MarketSellAssetContract => "MarketSellAssetContract"
  | MarketCancelOrderContract => "MarketCancelOrderContract"
  | FreezeBalanceV2Contract => "FreezeBalanceV2Contract"
  | UnfreezeBalanceV2Contract => "UnfreezeBalanceV2Contract"
  | WithdrawExpireUnfreezeContract => "WithdrawExpireUnfreezeContract"
  | DelegateResourceContract => "DelegateResourceContract"
  | UnDelegateResourceContract => "UnDelegateResourceContract"
  | CancelAllUnfreezeV2Contract => "CancelAllUnfreezeV2Contract"
  end.
End ContractType.

(** prost's accessor: an unknown number reads as the default value of the enum. *)
Definition contract_type (c : Contract.t) : ContractType.t :=
  default ContractType.AccountCreateContract (ContractType.from_i32 (Contract.type c)).

Definition unpack {C} `{Decode C} (contract : Contract.t) : R C :=
  any ← ok_or (Validate "contract parameter missing") (Contract.parameter contract);
  match decode any with
  | inr m => Ok m
  | inl e => Err (Validate ("cannot unpack contract: " +:+ e))
  end.

(** ** The contract of a transaction *)

(** A decoded contract, one constructor per arm of the dispatch. *)
Inductive message :=
| MTransferContract (c : TransferContract.t)
| MTransferAssetContract (c : TransferAssetContract.t)
| MFreezeBalanceV2Contract (c : FreezeBalanceV2Contract.t)
| MUnfreezeBalanceV2Contract (c : UnfreezeBalanceV2Contract.t)
| MVoteWitnessContract (c : VoteWitnessContract.t)
| MWithdrawBalanceContract (c : WithdrawBalanceContract.t)
| MUpdateBrokerageContract (c : UpdateBrokerageContract.t)
| MWithdrawExpireUnfreezeContract (c : WithdrawExpireUnfreezeContract.t)
| MCancelAllUnfreezeV2Contract (c : CancelAllUnfreezeV2Contract.t)
| MProposalCreateContract (c : ProposalCreateContract.t)
| MProposalApproveContract (c : ProposalApproveContract.t)
| MProposalDeleteContract (c : ProposalDeleteContract.t)
| MAccountCreateContract (c : AccountCreateContract.t)
| MAccountUpdateContract (c : AccountUpdateContract.t)
| MSetAccountIdContract (c : SetAccountIdContract.t)
| MAccountPermissionUpdateContract (c : AccountPermissionUpdateContract.t)
| MWitnessCreateContract (c : WitnessCreateContract.t)
| MWitnessUpdateContract (c : WitnessUpdateContract.t)
| MExchangeCreateContract (c : ExchangeCreateContract.t)
| MExchangeInjectContract (c : ExchangeInjectContract.t)
| MExchangeWithdrawContract (c : ExchangeWithdrawContract.t)
| MExchangeTransactionContract (c : ExchangeTransactionContract.t)
| MDelegateResourceContract (c : DelegateResourceContract.t)
| MUnDelegateResourceContract (c : UnDelegateResourceContract.t)
| MTriggerSmartContract (c : TriggerSmartContract.t)
| MCreateSmartContract (c : CreateSmartContract.t)
| MClearAbiContract (c : ClearAbiContract.t)
| MUpdateSettingContract (c : UpdateSettingContract.t)
| MUpdateEnergyLimitContract (c : UpdateEnergyLimitContract.t)
| MUpdateAssetContract (c : UpdateAssetContract.t)
| MUnfreezeAssetContract (c : UnfreezeAssetContract.t)
| MAssetIssueContract (c : AssetIssueContract.t)
| MParticipateAssetIssueContract (c : ParticipateAssetIssueContract.t)
| MFreezeBalanceContract (c : FreezeBalanceContract.t)
| MUnfreezeBalanceContract (c : UnfreezeBalanceContract.t)
| MMarketSellAssetContract (c : MarketSellAssetContract.t)
| MMarketCancelOrderContract (c : MarketCancelOrderContract.t)
.

(** The generated decoders of the contract messages. *)
Class Codec := {
  decode_TransferContract :: Decode TransferContract.t;
  decode_TransferAssetContract :: Decode TransferAssetContract.t;
  decode_FreezeBalanceV2Contract :: Decode FreezeBalanceV2Contract.t;
  decode_UnfreezeBalanceV2Contract :: Decode UnfreezeBalanceV2Contract.t;
  decode_VoteWitnessContract :: Decode VoteWitnessContract.t;
  decode_WithdrawBalanceContract :: Decode WithdrawBalanceContract.t;
  decode_UpdateBrokerageContract :: Decode UpdateBrokerageContract.t;
  decode_WithdrawExpireUnfreezeContract :: Decode WithdrawExpireUnfreezeContract.t;
  decode_CancelAllUnfreezeV2Contract :: Decode CancelAllUnfreezeV2Contract.t;
  decode_ProposalCreateContract :: Decode ProposalCreateContract.t;
  decode_ProposalApproveContract :: Decode ProposalApproveContract.t;
  decode_ProposalDeleteContract :: Decode ProposalDeleteContract.t;
  decode_AccountCreateContract :: Decode AccountCreateContract.t;
  decode_AccountUpdateContract :: Decode AccountUpdateContract.t;
  decode_SetAccountIdContract :: Decode SetAccountIdContract.t;
  decode_AccountPermissionUpdateContract :: Decode AccountPermissionUpdateContract.t;
  decode_WitnessCreateContract :: Decode WitnessCreateContract.t;
  decode_WitnessUpdateContract :: Decode WitnessUpdateContract.t;
  decode_ExchangeCreateContract :: Decode ExchangeCreateContract.t;
  decode_ExchangeInjectContract :: Decode ExchangeInjectContract.t;
  decode_ExchangeWithdrawContract :: Decode ExchangeWithdrawContract.t;
  decode_ExchangeTransactionContract :: Decode ExchangeTransactionContract.t;
  decode_DelegateResourceContract :: Decode DelegateResourceContract.t;
  decode_UnDelegateResourceContract :: Decode UnDelegateResourceContract.t;
  decode_TriggerSmartContract :: Decode TriggerSmartContract.t;
  decode_CreateSmartContract :: Decode CreateSmartContract.t;
  decode_ClearAbiContract :: Decode ClearAbiContract.t;
  decode_UpdateSettingContract :: Decode UpdateSettingContract.t;
  decode_UpdateEnergyLimitContract :: Decode UpdateEnergyLimitContract.t;
  decode_UpdateAssetContract :: Decode UpdateAssetContract.t;
  decode_UnfreezeAssetContract :: Decode UnfreezeAssetContract.t;
  decode_AssetIssueContract :: Decode AssetIssueContract.t;
  decode_ParticipateAssetIssueContract :: Decode ParticipateAssetIssueContract.t;
  decode_FreezeBalanceContract :: Decode FreezeBalanceContract.t;
  decode_UnfreezeBalanceContract :: Decode UnfreezeBalanceContract.t;
  decode_MarketSellAssetContract :: Decode MarketSellAssetContract.t;
  decode_MarketCancelOrderContract :: Decode MarketCancelOrderContract.t;
}.

Section Executor.
Context {libm : Libm} `{Hashes} `{Secp} `{!Encode HeaderRaw.t} `{!Encode TxRaw.t}.
Context {codec : Codec}.

(** [match contract.type() { ... }]: the [unpack] of each arm. *)
Definition unpack_message (contract : Contract.t) : R message :=
  match contract_type contract with
  | ContractType.TransferContract => c ← unpack (C:=TransferContract.t) contract; Ok (MTransferContract c)
  | ContractType.TransferAssetContract => c ← unpack (C:=TransferAssetContract.t) contract; Ok (MTransferAssetContract c)
  | ContractType.FreezeBalanceV2Contract => c ← unpack (C:=FreezeBalanceV2Contract.t) contract; Ok (MFreezeBalanceV2Contract c)
  | ContractType.UnfreezeBalanceV2Contract => c ← unpack (C:=UnfreezeBalanceV2Contract.t) contract; Ok (MUnfreezeBalanceV2Contract c)
  | ContractType.VoteWitnessContract => c ← unpack (C:=VoteWitnessContract.t) contract; Ok (MVoteWitnessContract c)
  | ContractType.WithdrawBalanceContract => c ← unpack (C:=WithdrawBalanceContract.t) contract; Ok (MWithdrawBalanceContract c)
  | ContractType.UpdateBrokerageContract => c ← unpack (C:=UpdateBrokerageContract.t) contract; Ok (MUpdateBrokerageContract c)
  | ContractType.WithdrawExpireUnfreezeContract => c ← unpack (C:=WithdrawExpireUnfreezeContract.t) contract; Ok (MWithdrawExpireUnfreezeContract c)
  | ContractType.CancelAllUnfreezeV2Contract => c ← unpack (C:=CancelAllUnfreezeV2Contract.t) contract; Ok (MCancelAllUnfreezeV2Contract c)
  | ContractType.ProposalCreateContract => c ← unpack (C:=ProposalCreateContract.t) contract; Ok (MProposalCreateContract c)
  | ContractType.ProposalApproveContract => c ← unpack (C:=ProposalApproveContract.t) contract; Ok (MProposalApproveContract c)
  | ContractType.ProposalDeleteContract => c ← unpack (C:=ProposalDeleteContract.t) contract; Ok (MProposalDeleteContract c)
  | ContractType.AccountCreateContract => c ← unpack (C:=AccountCreateContract.t) contract; Ok (MAccountCreateContract c)
  | ContractType.AccountUpdateContract => c ← unpack (C:=AccountUpdateContract.t) contract; Ok (MAccountUpdateContract c)
  | ContractType.SetAccountIdContract => c ← unpack (C:=SetAccountIdContract.t) contract; Ok (MSetAccountIdContract c)
  | ContractType.AccountPermissionUpdateContract => c ← unpack (C:=AccountPermissionUpdateContract.t) contract; Ok (MAccountPermissionUpdateContract c)
  | ContractType.WitnessCreateContract => c ← unpack (C:=WitnessCreateContract.t) contract; Ok (MWitnessCreateContract c)
  | ContractType.WitnessUpdateContract => c ← unpack (C:=WitnessUpdateContract.t) contract; Ok (MWitnessUpdateContract c)
  | ContractType.ExchangeCreateContract => c ← unpack (C:=ExchangeCreateContract.t) contract; Ok (MExchangeCreateContract c)
  | ContractType.ExchangeInjectContract => c ← unpack (C:=ExchangeInjectContract.t) contract; Ok (MExchangeInjectContract c)
  | ContractType.ExchangeWithdrawContract => c ← unpack (C:=ExchangeWithdrawContract.t) contract; Ok (MExchangeWithdrawContract c)
  | ContractType.ExchangeTransactionContract => c ← unpack (C:=ExchangeTransactionContract.t) contract; Ok (MExchangeTransactionContract c)
  | ContractType.DelegateResourceContract => c ← unpack (C:=DelegateResourceContract.t) contract; Ok (MDelegateResourceContract c)
  | ContractType.UnDelegateResourceContract => c ← unpack (C:=UnDelegateResourceContract.t) contract; Ok (MUnDelegateResourceContract c)
  | ContractType.TriggerSmartContract => c ← unpack (C:=TriggerSmartContract.t) contract; Ok (MTriggerSmartContract c)
  | ContractType.CreateSmartContract => c ← unpack (C:=CreateSmartContract.t) contract; Ok (MCreateSmartContract c)
  | ContractType.ClearAbiContract => c ← unpack (C:=ClearAbiContract.t) contract; Ok (MClearAbiContract c)
  | ContractType.UpdateSettingContract => c ← unpack (C:=UpdateSettingContract.t) contract; Ok (MUpdateSettingContract c)
  | ContractType.UpdateEnergyLimitContract => c ← unpack (C:=UpdateEnergyLimitContract.t) contract; Ok (MUpdateEnergyLimitContract c)
  | ContractType.UpdateAssetContract => c ← unpack (C:=UpdateAssetContract.t) contract; Ok (MUpdateAssetContract c)
  | ContractType.UnfreezeAssetContract => c ← unpack (C:=UnfreezeAssetContract.t) contract; Ok (MUnfreezeAssetContract c)
  | ContractType.AssetIssueContract => c ← unpack (C:=AssetIssueContract.t) contract; Ok (MAssetIssueContract c)
  | ContractType.ParticipateAssetIssueContract => c ← unpack (C:=ParticipateAssetIssueContract.t) contract; Ok (MParticipateAssetIssueContract c)
  | ContractType.FreezeBalanceContract => c ← unpack (C:=FreezeBalanceContract.t) contract; Ok (MFreezeBalanceContract c)
  | ContractType.UnfreezeBalanceContract => c ← unpack (C:=UnfreezeBalanceContract.t) contract; Ok (MUnfreezeBalanceContract c)
  | ContractType.MarketSellAssetContract => c ← unpack (C:=MarketSellAssetContract.t) contract; Ok (MMarketSellAssetContract c)
  | ContractType.MarketCancelOrderContract => c ← unpack (C:=MarketCancelOrderContract.t) contract; Ok (MMarketCancelOrderContract c)
  | other => Err (Validate ("unsupported contract type: " +:+ ContractType.name other))
  end.

(** The actuator of each arm: [validate] then [execute]. *)
Definition apply_message (m : message) : M ExecutionResult :=
  match m with
  | MTransferContract c => apply_contract c
  | MTransferAssetContract c => apply_contract c
  | MFreezeBalanceV2Contract c => apply_contract c
  | MUnfreezeBalanceV2Contract c => apply_contract c
  | MVoteWitnessContract c => apply_contract c
  | MWithdrawBalanceContract c => apply_contract c
  | MUpdateBrokerageContract c => apply_contract c
  | MWithdrawExpireUnfreezeContract c => apply_contract c
  | MCancelAllUnfreezeV2Contract c => apply_contract c
  | MProposalCreateContract c => apply_contract c
  | MProposalApproveContract c => apply_contract c
  | MProposalDeleteContract c => apply_contract c
  | MAccountCreateContract c => apply_contract c
  | MAccountUpdateContract c => apply_contract c
  | MSetAccountIdContract c => apply_contract c
  | MAccountPermissionUpdateContract c => apply_contract c
  | MWitnessCreateContract c => apply_contract c
  | MWitnessUpdateContract c => apply_contract c
  | MExchangeCreateContract c => apply_contract c
  | MExchangeInjectContract c => apply_contract c
  | MExchangeWithdrawContract c => apply_contract c
  | MExchangeTransactionContract c => apply_contract c
  | MDelegateResourceContract c => apply_contract c
  | MUnDelegateResourceContract c => apply_contract c
  | MTriggerSmartContract c => apply_contract c
  | MCreateSmartContract c => apply_contract c
  | MClearAbiContract c => apply_contract c
  | MUpdateSettingContract c => apply_contract c
  | MUpdateEnergyLimitContract c => apply_contract c
  | MUpdateAssetContract c => apply_contract c
  | MUnfreezeAssetContract c => apply_contract c
  | MAssetIssueContract c => apply_contract c
  | MParticipateAssetIssueContract c => apply_contract c
  | MFreezeBalanceContract c => apply_contract c
  | MUnfreezeBalanceContract c => apply_contract c
  | MMarketSellAssetContract c => apply_contract c
  | MMarketCancelOrderContract c => apply_contract c
  end.

Definition tx_contract (tx : Transaction.t) : R Contract.t :=
  raw ← ok_or (Validate "transaction has no raw_data") (Transaction.raw_data tx);
  ok_or (Validate "transaction has no contract") (head (TxRaw.contract raw)).

Definition apply_transaction (tx : Transaction.t) : M ExecutionResult :=
  contract ← lift (tx_contract tx);
  m ← lift (unpack_message contract);
  apply_message m.

Fixpoint apply_transactions (txs : list Transaction.t) : M (list ExecutionResult) :=
  match txs with
  | [] => mret []
  | tx :: txs =>
      r ← apply_transaction tx;
      rs ← apply_transactions txs;
      mret (r :: rs)
  end.
Definition apply_block (block : Block.t) : M (list ExecutionResult) :=
  apply_transactions (Block.transactions block).

Definition process_block (block : Block.t) : M (list ExecutionResult) :=
  results ← apply_block block;
  _ ← modify (put_block block);
  _ ← modify (index_block_transactions block);
  mret results.

(** ** Conservation *)

(** What the actuator of the message takes for granted. *)
Definition message_wf (m : message) (w : world) : Prop :=
  match m with
  | MTransferContract c => conserve_wf c w
  | MTransferAssetContract c => conserve_wf c w
  | MFreezeBalanceV2Contract c => conserve_wf c w
  | MUnfreezeBalanceV2Contract c => conserve_wf c w
  | MVoteWitnessContract c => conserve_wf c w
  | MWithdrawBalanceContract c => conserve_wf c w
  | MUpdateBrokerageContract c => conserve_wf c w
  | MWithdrawExpireUnfreezeContract c => conserve_wf c w
  | MCancelAllUnfreezeV2Contract c => conserve_wf c w
  | MProposalCreateContract c => conserve_wf c w
  | MProposalApproveContract c => conserve_wf c w
  | MProposalDeleteContract c => conserve_wf c w
  | MAccountCreateContract c => conserve_wf c w
  | MAccountUpdateContract c => conserve_wf c w
  | MSetAccountIdContract c => conserve_wf c w
  | MAccountPermissionUpdateContract c => conserve_wf c w
  | MWitnessCreateContract c => conserve_wf c w
  | MWitnessUpdateContract c => conserve_wf c w
  | MExchangeCreateContract c => conserve_wf c w
  | MExchangeInjectContract c => conserve_wf c w
  | MExchangeWithdrawContract c => conserve_wf c w
  | MExchangeTransactionContract c => conserve_wf c w
  | MDelegateResourceContract c => conserve_wf c w
  | MUnDelegateResourceContract c => conserve_wf c w
  | MTriggerSmartContract c => conserve_wf c w
  | MCreateSmartContract c => conserve_wf c w
  | MClearAbiContract c => conserve_wf c w
  | MUpdateSettingContract c => conserve_wf c w
  | MUpdateEnergyLimitContract c => conserve_wf c w
  | MUpdateAssetContract c => conserve_wf c w
  | MUnfreezeAssetContract c => conserve_wf c w
  | MAssetIssueContract c => conserve_wf c w
  | MParticipateAssetIssueContract c => conserve_wf c w
  | MFreezeBalanceContract c => conserve_wf c w
  | MUnfreezeBalanceContract c => conserve_wf c w
  | MMarketSellAssetContract c => conserve_wf c w
  | MMarketCancelOrderContract c => conserve_wf c w
  end.

Lemma message_conserves m w :
  message_wf m w → trx_inv w → conserves (apply_message m w) w.
Proof. intros Hm Hi. destruct m; by apply apply_conserves. Qed.

(** A transaction satisfies the assumptions of the actuator it is dispatched to. *)
Definition tx_wf (tx : Transaction.t) (w : world) : Prop :=
  ∀ contract m, tx_contract tx = Ok contract → unpack_message contract = Ok m → message_wf m w.

(** ... each one in the state its predecessors leave. *)
Fixpoint txs_wf (txs : list Transaction.t) (w : world) : Prop :=
  match txs with
  | [] => True
  | tx :: txs =>
      tx_wf tx w ∧
      match apply_transaction tx w with
      | (Ok _, w') => txs_wf txs w'
      | _ => True
      end
  end.

(** A header whose number is an [i64] and whose timestamp is not negative. *)
Definition header_wf (block : Block.t) : Prop :=
  is_i64 (block_number block) ∧
  ∀ raw, header_raw block = Some raw → nonneg_i64 (HeaderRaw.timestamp raw).

Lemma apply_transaction_conserves tx w :
  tx_wf tx w → trx_inv w → conserves (apply_transaction tx w) w.
Proof.
  intros Hw Hi. unfold apply_transaction.
  destruct (tx_contract tx) as [c| |] eqn:Ec; [|done..]. rewrite run_lift.
  destruct (unpack_message c) as [m| |] eqn:Em; [|done..]. rewrite run_lift.
  apply message_conserves; [|done]. by apply (Hw c m).
Qed.

Lemma apply_transactions_conserve txs w rs w' :
  txs_wf txs w → trx_inv w → apply_transactions txs w = (Ok rs, w') →
  length rs = length txs ∧ trx_inv w' ∧ total_trx w' = total_trx w.
Proof.
  revert w rs. induction txs as [|tx txs IH]; intros w rs Hw Hi E.
  - by injection E as <- <-.
  - destruct Hw as [Htx Hw]. pose proof (apply_transaction_conserves _ _ Htx Hi) as Hc.
    simpl in E. apply ST_bind_Ok in E as (r & w1 & E1 & E).
    rewrite E1 in Hw, Hc. destruct Hc as [Hi1 Ht1].
    apply ST_bind_Ok in E as (rs1 & w2 & E2 & E). injection E as <- <-.
    destruct (IH w1 rs1 Hw Hi1 E2) as (Hl & Hi2 & Ht2). simpl. split_and!; [lia|done|lia].
Qed.

(** The first transaction that fails ends the block. *)
Lemma apply_transactions_Err txs w e w' :
  apply_transactions txs w = (Err e, w') ↔
  ∃ pre tx post rs w1, txs = pre ++ tx :: post ∧
    apply_transactions pre w = (Ok rs, w1) ∧ apply_transaction tx w1 = (Err e, w').
Proof.
  revert w. induction txs as [|tx txs IH]; intros w; simpl.
  { split; [done|]. intros ([] & ? & ? & ? & ? & E & _); discriminate E. }
  unfold mbind at 1, ST_bind. destruct (apply_transaction tx w) as [[r|e1|] w1] eqn:E1.
  - unfold mbind at 1, ST_bind. split.
    + destruct (apply_transactions txs w1) as [[rs|e2|] w2] eqn:E2; intros E; try discriminate E.
      injection E as <- <-. apply IH in E2 as (pre & tx' & post & rs & w3 & -> & Ea & Eb).
      exists (tx :: pre), tx', post, (r :: rs), w3. split_and!; [done| |done].
      simpl. unfold mbind, ST_bind. rewrite E1. by rewrite Ea.
    + intros (pre & tx' & post & rs & w3 & El & Ea & Eb). destruct pre as [|tx0 pre].
      { injection El as <- <-. injection Ea as <- <-. congruence. }
      injection El as <- ->. simpl in Ea. unfold mbind, ST_bind in Ea. rewrite E1 in Ea.
      destruct (apply_transactions pre w1) as [[rs1|?|] w4] eqn:E4; try discriminate Ea.
      injection Ea as <- <-. by rewrite (proj2 (IH w1)); [|exists pre, tx', post, rs1, w4].
  - split.
    + intros [= <- <-]. by exists [], tx, txs, [], w.
    + intros (pre & tx' & post & rs & w3 & El & Ea & Eb). destruct pre as [|tx0 pre].
      { injection El as <- <-. injection Ea as <- <-. congruence. }
      injection El as <- ->. simpl in Ea. unfold mbind, ST_bind in Ea. by rewrite E1 in Ea.
  - split; [done|]. intros (pre & tx' & post & rs & w3 & El & Ea & Eb). destruct pre as [|tx0 pre].
    { injection El as <- <-. injection Ea as <- <-. congruence. }
    injection El as <- ->. simpl in Ea. unfold mbind, ST_bind in Ea. by rewrite E1 in Ea.
Qed.

(** Storing a block and indexing its transactions touches no balance. *)
Lemma put_block_trx block w :
  header_wf block → trx_inv w →
  trx_inv (put_block block w) ∧ total_trx (put_block block w) = total_trx w.
Proof.
  intros [Hn Ht] [Hw Hi]. destruct (put_block_maps block w) as (_ & _ & Ea & Ee & Ed & Em).
  assert (Hb : burned (put_block block w) = burned w).
  { unfold burned. rewrite put_block_props. by case_match. }
  assert (Etot : total_trx (put_block block w) = total_trx w)
    by (unfold total_trx; by rewrite Ea, Ee, Ed, Em, Hb).
  split; [|done]. split; [|by rewrite Etot].
  assert (Hc : ∀ k, k ∈ counter_keys → get_prop_i64 k (put_block block w) = get_prop_i64 k w).
  { intros k Hk. rewrite put_block_props. case_match; [|done].
    rewrite !bool_decide_eq_false_2; [done|intros ->; revert Hk; not_weight..]. }
  destruct Hw. constructor; rewrite ?Ea, ?Ee, ?Ed, ?Em, ?Hc by (unfold counter_keys; set_solver); try done.
  intros k Hk. rewrite put_block_props. case_match eqn:Hle; [|by apply inv_props].
  apply Z.leb_le in Hle.
  assert (0 ≤ get_prop_i64 LATEST_BLOCK_NUMBER w) by (apply inv_props; not_weight).
  case_bool_decide.
  - destruct (header_raw block) as [raw|] eqn:Er; [|by apply inv_props].
    specialize (Ht _ eq_refl). unfold nonneg_i64 in Ht. rewrite wrap_i64_id by i64_lia. lia.
  - case_bool_decide; [|by apply inv_props]. rewrite wrap_i64_id by done. lia.
Qed.

Lemma index_frame_fields txs w :
  let w' := foldl (λ w tx, put_transaction (tx_id tx) tx w) w txs in
  w_account w' = w_account w ∧ w_exchange w' = w_exchange w ∧ w_delegation w' = w_delegation w ∧
  w_market_order w' = w_market_order w ∧ w_properties w' = w_properties w ∧
  w_block w' = w_block w ∧ w_block_index w' = w_block_index w.
Proof.
  revert w. induction txs as [|tx txs IH]; intros w; [done|]. simpl.
  destruct (IH (put_transaction (tx_id tx) tx w)) as (?&?&?&?&?&?&?). by split_and!.
Qed.

Lemma index_trx block w :
  trx_inv w → trx_inv (index_block_transactions block w) ∧
  total_trx (index_block_transactions block w) = total_trx w.
Proof.
  intros [Hw Hi]. unfold index_block_transactions.
  destruct (index_frame_fields (Block.transactions block) w) as (Ea & Ee & Ed & Em & Ep & _).
  set (w' := foldl _ _ _) in *.
  assert (Hp : ∀ k, get_prop_i64 k w' = get_prop_i64 k w) by (intros; unfold get_prop_i64; by rewrite Ep).
  assert (total_trx w' = total_trx w) as Et by (unfold total_trx, burned; by rewrite Ea, Ee, Ed, Em, Hp).
  split; [|done]. split; [|by rewrite Et].
  destruct Hw. constructor; rewrite ?Ea, ?Ee, ?Ed, ?Em, ?Hp; try done. intros k. by rewrite Hp; auto.
Qed.

(** Every indexed transaction is found under its id, as one of the block's. *)
Lemma index_lookup txs w tx :
  tx ∈ txs → ∃ tx', tx' ∈ txs ∧ tx_id tx' = tx_id tx ∧
    get_transaction (tx_id tx) (foldl (λ w tx, put_transaction (tx_id tx) tx w) w txs) = Some tx'.
Proof.
  revert w. induction txs as [|t txs IH] using rev_ind; intros w Hin; [by apply elem_of_nil in Hin|].
  rewrite foldl_app. simpl. unfold get_transaction, put_transaction at 1. simpl.
  destruct (decide (tx_id t = tx_id tx)) as [E|Hne].
  - exists t. rewrite E, lookup_insert_eq. split_and!; [set_solver|done|done].
  - rewrite lookup_insert_ne by done. apply elem_of_app in Hin as [Hin|Hin].
    + destruct (IH w Hin) as (tx' & ? & ? & ?). exists tx'. split_and!; [set_solver|done|done].
    + apply list_elem_of_singleton in Hin. congruence.
Qed.

Lemma NoDup_fmap_elem {A B} (f : A → B) (l : list A) x y :
  NoDup (f <$> l) → x ∈ l → y ∈ l → f x = f y → x = y.
Proof.
  induction l as [|z l IH]; intros Hd Hx Hy E; [by apply elem_of_nil in Hx|].
  apply NoDup_cons in Hd as [Hz Hd]. apply elem_of_cons in Hx as [-> | Hx], Hy as [-> | Hy]; [done| | |auto].
  - destruct Hz. rewrite E. by apply list_elem_of_fmap_2.
  - destruct Hz. rewrite <-E. by apply list_elem_of_fmap_2.
Qed.

(** A prefix of well-formed transactions is well-formed. *)
Lemma txs_wf_app pre post w : txs_wf (pre ++ post) w → txs_wf pre w.
Proof.
  revert w. induction pre as [|tx pre IH]; intros w; [done|]. simpl. intros [Ht H1].
  split; [done|]. destruct (apply_transaction tx w) as [[] w1]; [by apply IH|done..].
Qed.

Lemma process_block_Ok block w rs w' :
  header_wf block → txs_wf (Block.transactions block) w → trx_inv w →
  process_block block w = (Ok rs, w') →
  length rs = length (Block.transactions block) ∧ trx_inv w' ∧ total_trx w' = total_trx w ∧
  get_block_by_num (block_number block) w' = Some block ∧
  ∀ tx, tx ∈ Block.transactions block → ∃ tx', tx' ∈ Block.transactions block ∧
    tx_id tx' = tx_id tx ∧ get_transaction (tx_id tx) w' = Some tx'.
Proof.
  intros Hh Hw Hi E. unfold process_block in E. apply ST_bind_Ok in E as (rs1 & w1 & E1 & E).
  rewrite !run_modify in E. injection E as <- <-.
  destruct (apply_transactions_conserve _ _ _ _ Hw Hi E1) as (Hl & Hi1 & Ht1).
  destruct (put_block_trx _ _ Hh Hi1) as [Hi2 Ht2]. destruct (index_trx block _ Hi2) as [Hi3 Ht3].
  split_and!; [done|done|congruence| |].
  - unfold get_block_by_num, index_block_transactions.
    destruct (index_frame_fields (Block.transactions block) (put_block block w1))
      as (_ & _ & _ & _ & _ & -> & _).
    destruct (put_block_maps block w1) as (-> & _). apply lookup_insert_eq.
  - intros tx Htx. by apply index_lookup.
Qed.

Lemma process_block_Err block w e w' :
  txs_wf (Block.transactions block) w → trx_inv w → process_block block w = (Err e, w') →
  ∃ pre tx post rs w1, Block.transactions block = pre ++ tx :: post ∧
    apply_transactions pre w = (Ok rs, w1) ∧ trx_inv w1 ∧ total_trx w1 = total_trx w ∧
    apply_transaction tx w1 = (Err e, w').
Proof.
  intros Hw Hi E. unfold process_block, apply_block, mbind, ST_bind in E.
  destruct (apply_transactions (Block.transactions block) w) as [[]] eqn:E1; simpl in E; try discriminate E.
  injection E as <- <-. apply apply_transactions_Err in E1 as (pre & tx & post & rs & w1 & El & Ea & Eb).
  rewrite El in Hw. apply txs_wf_app in Hw.
  destruct (apply_transactions_conserve _ _ _ _ Hw Hi Ea) as (_ & ? & ?).
  exists pre, tx, post, rs, w1. by split_and!.
Qed.

(** C2: a block.  Let the state satisfy the supply invariant, the header hold an [i64] number
    and a timestamp that is not negative, and each transaction, in the state its predecessors
    leave, meet the assumptions of its actuator ([txs_wf]: the numbers of the message are of
    their type, a swap is covered by the pool, a sell order meets resting orders of other
    accounts only, on the opposite pair and with quotients of 64 bits, a call with a value is
    covered and goes to another account, no run deletes an account, an issued asset starts
    early enough for its frozen lots to expire within 64 bits).
    When every transaction is applied, there is one result per transaction, the invariant and
    the TRX supply are preserved, the block is found by its number, and under the id of each
    transaction a transaction of the block with that id is found: the transaction itself, if
    the ids of the block are distinct.  When the block is rejected with an error, the
    transactions before the failing one have been applied and stay applied, the error is that
    of the failing transaction and so is the state left behind: the block is neither stored
    nor rolled back. *)
Theorem process_block_conserves (block : Block.t) (w : world) :
  header_wf block → txs_wf (Block.transactions block) w → trx_inv w →
  match process_block block w with
  | (Ok rs, w') =>
      length rs = length (Block.transactions block) ∧ trx_inv w' ∧ total_trx w' = total_trx w ∧
      get_block_by_num (block_number block) w' = Some block ∧
      (∀ tx, tx ∈ Block.transactions block → ∃ tx', tx' ∈ Block.transactions block ∧
         tx_id tx' = tx_id tx ∧ get_transaction (tx_id tx) w' = Some tx') ∧
      (NoDup (tx_id <$> Block.transactions block) →
         ∀ tx, tx ∈ Block.transactions block → get_transaction (tx_id tx) w' = Some tx)
  | (Err e, w') => ∃ pre tx post rs w1, Block.transactions block = pre ++ tx :: post ∧
      apply_transactions pre w = (Ok rs, w1) ∧ trx_inv w1 ∧ total_trx w1 = total_trx w ∧
      apply_transaction tx w1 = (Err e, w')
  | (Panic, _) => True
  end.
Proof.
  intros Hh Hw Hi. destruct (process_block block w) as [[rs|e|] w'] eqn:E; [| |done].
  - apply process_block_Ok in E as (H1 & H2 & H3 & H4 & H5); [|done..]. split_and!; [done..|].
    intros Hd tx Htx. destruct (H5 tx Htx) as (tx' & Htx' & Eid & ->). f_equal.
    by apply (NoDup_fmap_elem tx_id (Block.transactions block)).
  - by apply process_block_Err.
Qed.

End Executor.

(** ** A concrete node *)

(** Toy codecs: a transfer is its two addresses and its amount, every other message is
    refused. *)
Module ExecSample.
Definition transfer : Decode TransferContract.t := λ bs,
  if bool_decide (length bs = 50%nat)
  then inr (TransferContract.mk (take 21 bs) (take 21 (drop 21 bs)) (i64_from_be_bytes (drop 42 bs)))
  else inl "failed to decode".
Definition none {C} : Decode C := λ _, inl "failed to decode".
#[export] Instance codec : Codec :=
  Build_Codec transfer none none none none none none none none none none none none none none
    none none none none none none none none none none none none none none none none none none
    none none none none.
#[export] Instance secp : Secp := {|
  PublicKey := bytes; secp_recover _ s := Some (rs s); serialize_uncompressed k := 4 :: k |}.
#[export] Instance libm : Libm := λ x _, x.
#[export] Instance hashes : Hashes := toy_hashes.
#[export] Instance encode_header : Encode HeaderRaw.t := BlockSample.encode_header.
#[export] Instance encode_raw : Encode TxRaw.t := BlockSample.encode_raw.

Definition pay (from to amount : Z) : Transaction.t :=
  let param := Sample.addr from ++ Sample.addr to ++ i64_to_be_bytes amount in
  Transaction.default <| Transaction.raw_data := Some (TxRaw.default
    <| TxRaw.data := param |>
    <| TxRaw.contract := [Contract.default <| Contract.type := 1 |>
         <| Contract.parameter := Some param |>] |>) |>.
Definition block (n t : Z) (txs : list Transaction.t) : Block.t :=
  (BlockSample.block n t) <| Block.transactions := txs |>.
Definition payments : Block.t := block 1 3000 [pay 1 2 7000; pay 2 1 500].

Lemma payments_wf w : txs_wf (Block.transactions payments) w.
Proof.
  simpl. split; [intros c m [= <-] [= <-]; done|]. case_match. case_match; [|done..].
  split; [intros ? ? [= <-] [= <-]; done|]. by repeat case_match.
Qed.
Lemma payments_header_wf : header_wf payments.
Proof. split; [by vm_compute|]. intros raw [= <-]. by vm_compute. Qed.
End ExecSample.
Import ExecSample.

Lemma process_block_conserves_witness :
  is_Ok (process_block ExecSample.payments Sample.state).1 = true ∧
  total_trx (process_block ExecSample.payments Sample.state).2 = total_trx Sample.state.
Proof.
  assert (Hok : is_Ok (process_block ExecSample.payments Sample.state).1 = true) by (by vm_compute).
  split; [done|].
  pose proof (process_block_conserves ExecSample.payments Sample.state ExecSample.payments_header_wf
    (ExecSample.payments_wf _) ltac:(check_inv)) as H.
  destruct (process_block ExecSample.payments Sample.state) as [[rs|e|] w']; [|done..].
  by destruct H as (_ & _ & ? & _).
Defined.
