(* ===== verification/Ledger.v ===== *)
(** * The ledger from genesis on (crates/state/src/genesis.rs, actuators/src/executor.rs)

    The genesis block puts exactly the configured supply into circulation, and every
    state a chain of accepted blocks reaches from there still holds it: the conservation
    theorems of the actuators, composed over blocks. *)

From stdpp Require Import gmap strings pretty numbers fin_maps prelude.
From S2P Require Import Prelude Types Proto State Actuator Transfer Chain F64 Maintenance Executor.
Open Scope Z_scope.

(** ** Genesis *)

(** A configuration without the negative-balance sentinel, whose accounts are distinct
    and whose supply is an [i64]. *)
Record genesis_ok (c : GenesisConfig) : Prop := {
  ok_timestamp : nonneg_i64 (gc_timestamp c);
  ok_balances : Forall (λ ga, 0 ≤ ga_balance ga) (gc_accounts c);
  ok_distinct : NoDup (ga_address <$> gc_accounts c);
  ok_witnesses : Forall (λ gw, length (gw_address gw) = ADDRESS_LEN) (gc_witnesses c);
  ok_supply : total_supply c ≤ I64_MAX;
}.

Section Genesis.
Context (c : GenesisConfig).
Implicit Types (w : world) (a : Address) (gas : list GenesisAccount) (gws : list GenesisWitness).

Lemma empty_world_inv : trx_inv empty_world ∧ total_trx empty_world = 0.
Proof.
  assert (total_trx empty_world = 0) as E by done. split; [|done]. split; [|by rewrite E].
  constructor; try (by apply map_Forall_empty). intros k _. unfold get_prop_i64. simpl.
  by rewrite lookup_empty.
Qed.

Lemma plain_account_wf acc :
  acc = Account.default <| Account.address := Account.address acc |>
    <| Account.account_name := Account.account_name acc |>
    <| Account.balance := Account.balance acc |>
    <| Account.create_time := Account.create_time acc |> →
  0 ≤ Account.balance acc → acc_wf acc ∧ acc_trx acc = Account.balance acc.
Proof.
  intros E Hb. revert Hb. rewrite E. simpl. set (b := Account.balance acc). intros Hb. split.
  - constructor; simpl; try done; try (by constructor).
  - unfold acc_trx, opt_frozen, energy_frozen. simpl. lia.
Qed.

Lemma genesis_accounts_run gas w :
  Forall (λ ga, 0 ≤ ga_balance ga) gas → NoDup (ga_address <$> gas) →
  (∀ ga, ga ∈ gas → get_account (ga_address ga) w = None) → trx_wf w →
  let w' := foldl (apply_genesis_account c) w gas in
  trx_wf w' ∧ total_trx w' = total_trx w + sum_list ga_balance gas ∧
  w_properties w' = w_properties w ∧
  (∀ ga, ga ∈ gas → get_account (ga_address ga) w' = Some (genesis_account c ga)) ∧
  (∀ a, a ∉ ga_address <$> gas → get_account a w' = get_account a w).
Proof.
  revert w. induction gas as [|ga gas IH]; intros w Hb Hd Hn Hw; simpl.
  { split_and!; [done|lia|done|by intros ? ?%elem_of_nil|done]. }
  apply Forall_cons in Hb as [Hb0 Hb]. simpl in Hd. apply NoDup_cons in Hd as [Hd0 Hd].
  destruct (plain_account_wf (genesis_account c ga)) as [Hg Et]; [done|done|].
  set (w1 := apply_genesis_account c w ga).
  destruct (IH w1) as (H1 & H2 & H3 & H4 & H5); [done|done| |by apply trx_wf_put_account|].
  { intros g Hg'. unfold w1, apply_genesis_account. rewrite get_put_account_ne.
    - apply Hn. set_solver.
    - intros E. apply Hd0. rewrite E. by apply list_elem_of_fmap_2. }
  split_and!; [done| |done| |].
  - rewrite H2. unfold w1, apply_genesis_account. rewrite total_trx_put_account_None by (apply Hn; set_solver).
    rewrite Et. simpl. lia.
  - intros g [->|Hin]%elem_of_cons; [|by apply H4]. rewrite H5 by done. apply get_put_account_eq.
  - intros a Ha. apply not_elem_of_cons in Ha as [Hne Ha]. rewrite H5 by done.
    apply get_put_account_ne. done.
Qed.

Lemma genesis_witness_run gw w :
  trx_wf w →
  let w' := apply_genesis_witness c w gw in
  trx_wf w' ∧ total_trx w' = total_trx w ∧ w_properties w' = w_properties w ∧
  (∀ a acc, get_account a w = Some acc → get_account a w' = Some acc) ∧
  (∀ a, witness_exists a w = true → witness_exists a w' = true) ∧
  account_exists (gw_address gw) w' = true ∧ witness_exists (gw_address gw) w' = true.
Proof.
  intros Hw w'. set (w0 := put_witness (gw_address gw) (genesis_witness gw) w).
  assert (Hw0 : trx_wf w0) by (by destruct Hw; constructor).
  assert (Hx : ∀ a, witness_exists a w = true ∨ a = gw_address gw → witness_exists a w0 = true).
  { intros a. unfold witness_exists, w0, put_witness. simpl.
    rewrite !bool_decide_eq_true, lookup_insert_is_Some'. intros [?| ->]; [by right|by left]. }
  subst w'. unfold apply_genesis_witness. fold w0.
  destruct (account_exists (gw_address gw) w0) eqn:Ee; cbn [negb]; [by split_and!; auto using or_introl, or_intror|].
  apply account_exists_false in Ee.
  destruct (plain_account_wf (Account.default <| Account.address := gw_address gw |>
    <| Account.create_time := gc_timestamp c |>)) as [Hg Et]; [done|done|].
  split_and!; [by apply trx_wf_put_account| |done| |exact (λ a Ha, Hx a (or_introl Ha))
    | |exact (Hx _ (or_intror eq_refl))].
  - rewrite total_trx_put_account_None, Et by done. simpl. by rewrite Z.add_0_r.
  - intros a acc Ha. rewrite get_put_account_ne; [done|]. intros <-. change (get_account (gw_address gw) w = None) in Ee. congruence.
  - apply account_exists_spec. eexists. apply get_put_account_eq.
Qed.

Lemma genesis_witnesses_run gws w :
  trx_wf w →
  let w' := foldl (apply_genesis_witness c) w gws in
  trx_wf w' ∧ total_trx w' = total_trx w ∧ w_properties w' = w_properties w ∧
  (∀ a acc, get_account a w = Some acc → get_account a w' = Some acc) ∧
  (∀ a, witness_exists a w = true → witness_exists a w' = true) ∧
  (∀ gw, gw ∈ gws → account_exists (gw_address gw) w' = true ∧ witness_exists (gw_address gw) w' = true).
Proof.
  revert w. induction gws as [|gw gws IH]; intros w Hw; simpl.
  { by split_and!; [..|intros ? ?%elem_of_nil]. }
  set (w1 := apply_genesis_witness c w gw).
  assert (H1 : trx_wf w1 ∧ total_trx w1 = total_trx w ∧ w_properties w1 = w_properties w ∧
    (∀ a acc, get_account a w = Some acc → get_account a w1 = Some acc) ∧
    (∀ a, witness_exists a w = true → witness_exists a w1 = true) ∧
    account_exists (gw_address gw) w1 = true ∧ witness_exists (gw_address gw) w1 = true).
  { apply genesis_witness_run, Hw. }
  destruct H1 as (Hw1 & Ht1 & Hp1 & Ha1 & Hx1 & Hg1 & Hg2).
  destruct (IH w1 Hw1) as (Hw2 & Ht2 & Hp2 & Ha2 & Hx2 & Hg).
  split_and!; [done|congruence|congruence|by eauto|by eauto|].
  intros g [->|Hin]%elem_of_cons; [|by apply Hg]. split; [|by apply Hx2].
  apply account_exists_spec in Hg1 as [acc Hg1]. apply account_exists_spec. eauto.
Qed.

Lemma total_supply_sum :
  Forall (λ ga, 0 ≤ ga_balance ga) (gc_accounts c) → total_supply c = sum_list ga_balance (gc_accounts c).
Proof.
  unfold total_supply. induction 1 as [|ga gas Hga _ IH]; [done|].
  rewrite filter_cons_True by done. simpl. lia.
Qed.
End Genesis.

(** The state before the active set is written. *)
Lemma genesis_steps (c : GenesisConfig) :
  genesis_ok c → ∃ w,
  apply_genesis c empty_world = put_active_witnesses (gw_address <$> gc_witnesses c) w ∧
  trx_wf w ∧ total_trx w = total_supply c ∧
  (∀ ga, ga ∈ gc_accounts c → get_account (ga_address ga) w = Some (genesis_account c ga)) ∧
  (∀ gw, gw ∈ gc_witnesses c →
     account_exists (gw_address gw) w = true ∧ witness_exists (gw_address gw) w = true) ∧
  get_prop_i64 props.LATEST_BLOCK_HEADER_TIMESTAMP w = gc_timestamp c.
Proof.
  intros [Ht Hb Hd Hl Hs]. destruct empty_world_inv as [[He _] Et].
  set (w0 := put_prop_i64 props.LATEST_BLOCK_HEADER_TIMESTAMP (gc_timestamp c) empty_world).
  assert (Hw0 : trx_wf w0) by (apply trx_wf_put_prop; [done|not_weight|by right]).
  destruct (genesis_accounts_run c (gc_accounts c) w0) as (H1 & T1 & P1 & A1 & _); [done..| |done|].
  { intros ga _. apply lookup_empty. }
  set (w1 := foldl _ _ _) in *.
  destruct (genesis_witnesses_run c (gc_witnesses c) w1 H1) as (H2 & T2 & P2 & A2 & _ & X2).
  set (w2 := foldl _ _ (gc_witnesses c)) in *.
  exists w2. split_and!; [done|done| |by auto|done|].
  - rewrite T2, T1. unfold w0. rewrite total_trx_put_prop, Et, total_supply_sum by done. lia.
  - unfold get_prop_i64 in *. rewrite P2, P1. apply get_put_prop_eq. unfold nonneg_i64 in Ht. i64_lia.
Qed.

Lemma witness_addresses_length (c : GenesisConfig) :
  genesis_ok c → Forall (λ a, length a = ADDRESS_LEN) (gw_address <$> gc_witnesses c).
Proof. intros []. by apply Forall_fmap. Qed.

Lemma genesis_inv (c : GenesisConfig) :
  genesis_ok c →
  trx_inv (apply_genesis c empty_world) ∧ total_trx (apply_genesis c empty_world) = total_supply c.
Proof.
  intros Hc. destruct (genesis_steps c Hc) as (w & -> & Hw & Ht & _).
  destruct (put_active_witnesses_trx _ _ (witness_addresses_length c Hc) Hw) as [? E].
  split; [split; [done|]|]; rewrite E, Ht; [apply Hc|done].
Qed.

(** Genesis.  Applied to a fresh store, a configuration with distinct accounts and no
    negative balance puts exactly its total supply into circulation and establishes the
    state invariant; every account has the configured balance, every witness is registered
    and has an account, and the active set is the configured one in order. *)
Theorem genesis_establishes_ledger (c : GenesisConfig) :
  genesis_ok c →
  let w := apply_genesis c empty_world in
  trx_inv w ∧ total_trx w = total_supply c ∧
  (∀ ga, ga ∈ gc_accounts c → get_account (ga_address ga) w = Some (genesis_account c ga)) ∧
  (∀ gw, gw ∈ gc_witnesses c →
     account_exists (gw_address gw) w = true ∧ witness_exists (gw_address gw) w = true) ∧
  get_active_witnesses w = gw_address <$> gc_witnesses c ∧
  get_prop_i64 props.LATEST_BLOCK_HEADER_TIMESTAMP w = gc_timestamp c.
Proof.
  intros Hc w. destruct (genesis_inv c Hc) as [Hi Ht]. pose proof (witness_addresses_length c Hc).
  destruct (genesis_steps c Hc) as (w2 & E & _ & _ & HA & HX & HT). subst w.
  split_and!; [done|done| | | |].
  1-2: by rewrite E.
  - rewrite E. unfold get_active_witnesses, put_active_witnesses. simpl. rewrite lookup_insert_eq.
    by apply chunks_exact_concat; [unfold ADDRESS_LEN; lia|].
  - by rewrite E, put_active_witnesses_prop, bool_decide_eq_false_2.
Qed.

(** ** Chains *)

Section Chains.
Context {libm : Libm} {hashes : Hashes} `{Secp} `{!Encode HeaderRaw.t} `{!Encode TxRaw.t} {codec : Codec}.

(** A block the ledger theorems speak of: its header and, in the state they meet, its
    transactions are regular, see [header_wf] and [txs_wf]. *)
Definition regular (block : Block.t) (w : world) : Prop :=
  header_wf block ∧ txs_wf (Block.transactions block) w.

(** The states of a node that applies the blocks of a list in order, runs maintenance
    cycles over distinct witnesses in between, and stops at the first block it rejects;
    [ok] restricts the blocks. *)
Inductive reachable (ok : Block.t → world → Prop) (c : GenesisConfig) : list Block.t → world → Prop :=
| reach_genesis : reachable ok c [] (apply_genesis c empty_world)
| reach_block blocks block w rs w' :
    reachable ok c blocks w → ok block w →
    process_block block w = (Ok rs, w') → reachable ok c (blocks ++ [block]) w'
| reach_maintenance blocks w ws vs elected w' :
    reachable ok c blocks w → NoDup ws → Forall (λ a, is_address a = true) ws →
    run_maintenance ws vs w = (Ok elected, w') → reachable ok c blocks w'.

(** C1: conservation of the TRX supply.  Start from a genesis with distinct accounts, no
    negative balance and a supply of 64 bits ([genesis_ok]), and apply accepted blocks that
    are regular, with maintenance cycles in between.  Regular: the header holds an [i64]
    number and a timestamp that is not negative, and each transaction, in the state it is
    applied to, has numbers of their types; if it is a swap, the pool covers it; if it is a
    sell order, the orders it meets belong to other accounts, trade the opposite pair and have
    quotients of 64 bits; if it is a contract call, its value is covered by the caller and
    goes to another account; no contract run deletes an account; and an issued asset starts
    early enough for its frozen lots to expire within 64 bits.  In every state reached, the
    balances, allowances, stakes, pending withdrawals, pool reserves, delegations, open
    orders and burned TRX add up to the genesis supply, and none of them is negative. *)
Theorem chain_conserves_supply (c : GenesisConfig) (blocks : list Block.t) (w : world) :
  genesis_ok c → reachable regular c blocks w → trx_inv w ∧ total_trx w = total_supply c.
Proof.
  intros Hc Hr. induction Hr as [|blocks block w rs w' Hr [Hi Ht] [Hh Hw] E
    |blocks w ws vs elected w' Hr [Hi Ht] Hd Ha E].
  - by apply genesis_inv.
  - destruct (process_block_Ok _ _ _ _ Hh Hw Hi E) as (_ & ? & ? & _). by split; [|congruence].
  - destruct (run_maintenance_trx _ _ _ _ _ Hd Ha E Hi). by split; [|congruence].
Qed.
End Chains.

(** ** A concrete chain *)

Module LedgerSample.
Import ExecSample.
Definition config : GenesisConfig := mk_genesis_config 0
  [mk_genesis_account (Sample.addr 1) "Zion" 50000000; mk_genesis_account (Sample.addr 2) "Sun" 3000000]
  [mk_genesis_witness (Sample.addr 3) "http://witness.org" 10].
Lemma config_ok : genesis_ok config.
Proof. by constructor; apply (bool_decide_unpack _); vm_compute. Qed.
Definition genesis : world := apply_genesis config empty_world.
Definition head : world := (process_block payments genesis).2.
Lemma head_reachable : reachable regular config [payments] head.
Proof.
  apply (reach_block regular config [] payments genesis
    (match (process_block payments genesis).1 with Ok rs => rs | _ => [] end) head).
  - apply reach_genesis.
  - split; [apply payments_header_wf|apply payments_wf].
  - rewrite (surjective_pairing (process_block payments genesis)). f_equal; by vm_compute.
Qed.
End LedgerSample.

Lemma genesis_establishes_ledger_witness :
  total_trx LedgerSample.genesis = 53000000 ∧
  get_active_witnesses LedgerSample.genesis = [Sample.addr 3].
Proof.
  destruct (genesis_establishes_ledger LedgerSample.config LedgerSample.config_ok)
    as (_ & Ht & _ & _ & Ha & _).
  split; [exact Ht|exact Ha].
Defined.

Lemma chain_conserves_supply_witness :
  total_trx LedgerSample.head = 53000000 ∧
  Account.balance <$> get_account (Sample.addr 2) LedgerSample.head = Some 3006500.
Proof.
  split; [|by vm_compute].
  exact (proj2 (chain_conserves_supply LedgerSample.config [ExecSample.payments] LedgerSample.head
    LedgerSample.config_ok LedgerSample.head_reachable)).
Defined.
