(* ===== verification/Mempool.v ===== *)
(** * The transaction pool (crates/consensus/src/mempool.rs)

    An insertion-ordered, deduplicated, bounded pool of pending transactions, and the
    admission pipeline in front of it.  The actuator check is the caller's closure. *)

From stdpp Require Import gmap strings pretty numbers fin_maps prelude.
From S2P Require Import Prelude Types Proto State Chain.
Open Scope Z_scope.

Definition DEFAULT_CAPACITY : nat := 10000.
Definition MAX_TX_SIZE : Z := 512 * 1024.
Definition MAX_FUTURE_EXPIRATION_MS : Z := 24 * 60 * 60 * 1000.

Inductive AdmitError :=
| TooLarge (size : Z)
| NoRawData
| NoContract
| BadSignature
| Expired (expiration now : Z)
| TooFarInFuture (expiration now : Z)
| RefBlockMismatch
| Duplicate
| AlreadyIncluded
| Invalid (msg : string)
| PoolFull.

Module Mempool.
Record t := mk {
  order : list (bytes * Transaction.t);
  seen : gset bytes;
  capacity : nat
}.
#[export] Instance eta_t : Eta t := λ p, mk (order p) (seen p) (capacity p).

Definition new (capacity : nat) : t := mk [] ∅ capacity.
Definition len (p : t) : nat := length (order p).
Definition is_empty (p : t) : bool := bool_decide (order p = []).
Definition contains (id : bytes) (p : t) : bool := bool_decide (id ∈ seen p).

(** [order.remove(pos)] at the first entry with the id. *)
Fixpoint remove_entry (id : bytes) (l : list (bytes * Transaction.t)) : list (bytes * Transaction.t) :=
  match l with
  | [] => []
  | e :: l => if bool_decide (e.1 = id) then l else e :: remove_entry id l
  end.
Definition remove (id : bytes) (p : t) : t * bool :=
  if negb (contains id p) then (p, false)
  else (p <| seen := seen p ∖ {[id]} |> <| order := remove_entry id (order p) |>, true).

Definition peek (n : nat) (p : t) : list Transaction.t := (take n (order p)).*2.

(** [keep] of [evict_expired]. *)
Definition live (now_ms : Z) (e : bytes * Transaction.t) : Prop :=
  let exp := match Transaction.raw_data e.2 with Some r => TxRaw.expiration r | None => 0 end in
  exp = 0 ∨ now_ms < exp.
#[export] Instance live_dec now_ms e : Decision (live now_ms e).
Proof. unfold live. apply _. Defined.
Definition evict_expired (now_ms : Z) (p : t) : t * nat :=
  let kept := filter (live now_ms) (order p) in
  let dropped := filter (λ e, ¬ live now_ms e) (order p) in
  (p <| seen := seen p ∖ list_to_set dropped.*1 |> <| order := kept |>,
   (length (order p) - length kept)%nat).

Section Ids.
Context `{Hashes} `{!Encode TxRaw.t}.
Definition add (tx : Transaction.t) (p : t) : t * bool :=
  if bool_decide (capacity p ≤ length (order p))%nat then (p, false) else
  let id := tx_id tx in
  if bool_decide (id ∈ seen p) then (p, false)
  else (p <| seen := {[id]} ∪ seen p |> <| order := order p ++ [(id, tx)] |>, true).
Definition evict_included (block : Block.t) (p : t) : t :=
  foldl (λ p tx, (remove (tx_id tx) p).1) p (Block.transactions block).
End Ids.
End Mempool.
Import Mempool.

(** ** Admission *)

Section Admit.
Context `{Hashes} `{Secp} `{!Encode TxRaw.t} `{!Encode HeaderRaw.t} `{!Encode Transaction.t}.

Definition verify_ref_block (w : world) (raw : TxRaw.t) : res AdmitError () :=
  if bool_decide (TxRaw.ref_block_hash raw = []) then Ok () else
  let head := get_prop_i64 LATEST_BLOCK_NUMBER w in
  if (head <=? 0) || negb (bool_decide (length (TxRaw.ref_block_bytes raw) = 2%nat)) then Ok () else
  let ref16 := from_be_unsigned (TxRaw.ref_block_bytes raw) in
  let diff := (head - ref16) mod 65536 in
  let candidate := head - diff in
  block ← ok_or RefBlockMismatch (get_block_by_num candidate w);
  id ← ok_or RefBlockMismatch (block_id_of block);
  if bool_decide (take 8 (drop 8 id) = TxRaw.ref_block_hash raw) then Ok () else Err RefBlockMismatch.

(** A panic of [tx_owner_address] is one of the caller. *)
Definition owner_of (tx : Transaction.t) : res AdmitError (option bytes) :=
  match tx_owner_address tx with Ok o => Ok o | _ => Panic end.

Definition check_owner (tx : Transaction.t) (signer : Address) : res AdmitError () :=
  o ← owner_of tx;
  match o with
  | Some owner => if bool_decide (signer = owner) then Ok () else Err BadSignature
  | None => Ok ()
  end.

Definition check_expiration (now_ms expiration : Z) : res AdmitError () :=
  if expiration =? 0 then Ok () else
  if expiration <=? now_ms then Err (Expired expiration now_ms) else
  limit ← add_i64 now_ms MAX_FUTURE_EXPIRATION_MS;
  if limit <? expiration then Err (TooFarInFuture expiration now_ms) else Ok ().

Definition admit_transaction (w : world) (tx : Transaction.t) (now_ms : Z)
    (validate : world → Transaction.t → string + ()) : ST Mempool.t AdmitError bytes :=
  let size := Z.of_nat (length (encode_to_vec tx)) in
  _ ← lift (if MAX_TX_SIZE <? size then Err (TooLarge size) else Ok ());
  raw ← lift (ok_or NoRawData (Transaction.raw_data tx));
  _ ← lift (if bool_decide (TxRaw.contract raw = []) then Err NoContract else Ok ());
  signer ← lift (ok_or BadSignature (recover_tx_signer tx));
  _ ← lift (check_owner tx signer);
  _ ← lift (check_expiration now_ms (TxRaw.expiration raw));
  _ ← lift (verify_ref_block w raw);
  let id := tx_id tx in
  pooled ← gets (contains id);
  _ ← lift (if (pooled : bool) then Err Duplicate else Ok ());
  _ ← lift (if bool_decide (is_Some (get_transaction id w)) then Err AlreadyIncluded else Ok ());
  _ ← lift (match validate w tx with inl e => Err (Invalid e) | inr _ => Ok () end);
  r ← gets (add tx);
  if (r.2 : bool) then _ ← modify (λ _, r.1); mret id else lift (Err PoolFull).
End Admit.

(** ** The pool invariant *)

Section Inv.
Context `{Hashes} `{!Encode TxRaw.t}.
Implicit Types (p : Mempool.t) (tx : Transaction.t) (id : bytes) (l : list (bytes * Transaction.t)).

(** The set mirrors the list, every entry is filed under its own id, ids are distinct and
    the pool is within its capacity. *)
Record pool_inv p : Prop := {
  pool_ids : Forall (λ e, e.1 = tx_id e.2) (order p);
  pool_nodup : NoDup (order p).*1;
  pool_seen : seen p = list_to_set (order p).*1;
  pool_bound : (length (order p) ≤ capacity p)%nat;
}.

Lemma new_inv n : pool_inv (new n).
Proof. constructor; simpl; [done|constructor|done|lia]. Qed.

Lemma contains_spec id p : pool_inv p → contains id p = true ↔ id ∈ (order p).*1.
Proof.
  intros []. unfold contains. rewrite bool_decide_eq_true, pool_seen0. apply elem_of_list_to_set.
Qed.

Lemma remove_entry_ids id l :
  NoDup l.*1 → (remove_entry id l).*1 = filter (λ i, i ≠ id) l.*1.
Proof.
  induction l as [|e l IH]; [done|]. simpl. intros [He Hd]%NoDup_cons. rewrite filter_cons.
  case_bool_decide as E.
  - rewrite decide_False by naive_solver. rewrite E in He.
    clear -He. induction l as [|x l IH]; [done|]. simpl in *. apply not_elem_of_cons in He as [? ?].
    rewrite filter_cons, decide_True by done. f_equal. by apply IH.
  - rewrite decide_True by done. simpl. f_equal. by apply IH.
Qed.
Lemma remove_entry_sublist id l : sublist (remove_entry id l) l.
Proof.
  induction l as [|e l IH]; [done|]. simpl. case_bool_decide; by constructor.
Qed.

Lemma sublist_inv p l (n : nat) (s : gset bytes) :
  pool_inv p → sublist l (order p) → s = list_to_set l.*1 → capacity p = n →
  pool_inv (Mempool.mk l s n).
Proof.
  intros [] Hs Hseen <-. constructor; simpl; [| |done|].
  - rewrite Forall_forall in *. intros e He. apply pool_ids0. by eapply elem_of_sublist.
  - eapply sublist_NoDup; [done|]. by apply fmap_sublist.
  - etrans; [by apply sublist_length|done].
Qed.

Lemma remove_inv id p : pool_inv p → pool_inv (remove id p).1.
Proof.
  intros Hp. unfold remove. destruct (contains id p); [|done]. cbn [negb fst].
  apply (sublist_inv p); [done|apply remove_entry_sublist| |done].
  change (seen p ∖ {[id]} = list_to_set (remove_entry id (order p)).*1).
  rewrite remove_entry_ids by apply Hp. rewrite (pool_seen p Hp). apply set_eq. intros i.
  rewrite elem_of_difference, !elem_of_list_to_set, list_elem_of_filter, elem_of_singleton. tauto.
Qed.

Lemma evict_included_inv block p : pool_inv p → pool_inv (evict_included block p).
Proof.
  unfold evict_included. revert p. induction (Block.transactions block) as [|tx txs IH]; [done|].
  intros p Hp. simpl. by apply IH, remove_inv.
Qed.

Lemma evict_expired_inv now p : pool_inv p → pool_inv (evict_expired now p).1.
Proof.
  intros Hp. unfold evict_expired. cbn [fst].
  apply (sublist_inv p); [done|apply sublist_filter| |done].
  change (seen p ∖ list_to_set (filter (λ e, ¬ live now e) (order p)).*1
    = list_to_set (filter (live now) (order p)).*1).
  rewrite (pool_seen p Hp). apply set_eq. intros i.
  rewrite elem_of_difference, !elem_of_list_to_set, !list_elem_of_fmap.
  setoid_rewrite list_elem_of_filter. split.
  - intros [(e & -> & He) Hn]. exists e. split_and!; [done| |done].
    destruct (decide (live now e)); [done|]. exfalso. apply Hn. by exists e.
  - intros (e & -> & Hl & He). split; [by exists e|]. intros (e' & E & Hl' & He').
    apply Hl'. enough (e' = e) as -> by done. pose proof (pool_nodup p Hp) as Hd.
    apply list_elem_of_lookup in He as [j Hj], He' as [k Hk].
    assert (j = k) as ->; [|congruence].
    eapply (NoDup_lookup _ _ _ e.1 Hd); rewrite list_lookup_fmap; [by rewrite Hj|by rewrite Hk; simpl; rewrite E].
Qed.

Lemma add_spec tx p :
  pool_inv p →
  match add tx p with
  | (p', true) => order p' = order p ++ [(tx_id tx, tx)] ∧ capacity p' = capacity p ∧
      (length (order p) < capacity p)%nat ∧ tx_id tx ∉ (order p).*1 ∧ pool_inv p'
  | (p', false) => p' = p ∧ ((capacity p ≤ length (order p))%nat ∨ tx_id tx ∈ (order p).*1)
  end.
Proof.
  intros Hp. unfold add. case_bool_decide as Hc; [by auto|].
  rewrite (pool_seen p Hp). case_bool_decide as Hs.
  - split; [done|]. right. by apply elem_of_list_to_set in Hs.
  - rewrite elem_of_list_to_set in Hs. split_and!; [done|done|lia|done|].
    destruct Hp. constructor; simpl.
    + apply Forall_app_2; [done|]. by constructor.
    + rewrite fmap_app. apply NoDup_app. split_and!; [done| |by apply NoDup_singleton].
      intros i Hi Hi'. apply list_elem_of_singleton in Hi' as ->. done.
    + rewrite fmap_app, list_to_set_app_L. simpl. set_solver.
    + rewrite length_app. simpl. lia.
Qed.
End Inv.

(** ** Runs of the pool *)

Section Runs.
Context `{Hashes} `{Secp} `{!Encode TxRaw.t} `{!Encode HeaderRaw.t} `{!Encode Transaction.t}.
Implicit Types (p : Mempool.t) (tx : Transaction.t) (w : world).

(** What the node does to its pool, in any order. *)
Inductive pool_reach (n : nat) : Mempool.t → Prop :=
| reach_new : pool_reach n (new n)
| reach_add p tx : pool_reach n p → pool_reach n (add tx p).1
| reach_remove p id : pool_reach n p → pool_reach n (remove id p).1
| reach_included p block : pool_reach n p → pool_reach n (evict_included block p)
| reach_expired p now : pool_reach n p → pool_reach n (evict_expired now p).1
| reach_admit p w tx now validate :
    pool_reach n p → pool_reach n (admit_transaction w tx now validate p).2.

(** The reference block of a transaction: there is nothing to check without a reference hash,
    without blocks, or if the reference is not of two bytes; otherwise the last block up to
    the head whose number ends in the two bytes is stored and its id has the hash inside. *)
Definition ref_block_ok w (raw : TxRaw.t) : Prop :=
  let head := get_prop_i64 LATEST_BLOCK_NUMBER w in
  TxRaw.ref_block_hash raw = [] ∨ head ≤ 0 ∨ length (TxRaw.ref_block_bytes raw) ≠ 2%nat ∨
  ∃ n b id, n ≤ head < n + 65536 ∧ (n - from_be_unsigned (TxRaw.ref_block_bytes raw)) mod 65536 = 0 ∧
    get_block_by_num n w = Some b ∧ block_id_of b = Some id ∧ take 8 (drop 8 id) = TxRaw.ref_block_hash raw.

Lemma ref_candidate head x n :
  n ≤ head < n + 65536 ∧ (n - x) mod 65536 = 0 ↔ n = head - (head - x) mod 65536.
Proof.
  pose proof (Z.mod_pos_bound (head - x) 65536 ltac:(lia)) as Hb.
  pose proof (Z.div_mod (head - x) 65536 ltac:(lia)) as Hd. split.
  - intros [Hn Hm]. pose proof (Z.div_mod (n - x) 65536 ltac:(lia)) as Hd'. rewrite Hm in Hd'. nia.
  - intros ->. split; [lia|]. replace (head - (head - x) mod 65536 - x) with ((head - x) / 65536 * 65536) by lia.
    by apply Z.mod_mul.
Qed.
Lemma verify_ref_block_iff w raw : verify_ref_block w raw = Ok () ↔ ref_block_ok w raw.
Proof.
  unfold verify_ref_block, ref_block_ok. case_bool_decide as Hh; [by split; [left|]|].
  destruct (Z.leb_spec (get_prop_i64 LATEST_BLOCK_NUMBER w) 0) as [Hl|Hl]; [by split; [right; left|]|].
  case_bool_decide as H2; cbn [orb negb]; [|by split; [right; right; left|]]. cbv zeta.
  set (n := _ - _ mod _). split.
  - intros (b & Eb%ok_or_Ok & (id & Ei%ok_or_Ok & E)%res_bind_Ok)%res_bind_Ok. case_bool_decide; [|done].
    right; right; right. exists n, b, id. pose proof (proj2 (ref_candidate _ _ n) eq_refl) as [??]. by repeat (split; [done|]).
  - intros [?|[?|[?|(m & b & id & Hm & Hx & Eb & Ei & Et)]]]; [done|lia|done|].
    assert (m = n) as -> by (by apply ref_candidate). rewrite Eb. cbn. rewrite Ei. cbn. by rewrite bool_decide_eq_true_2.
Qed.

(** Everything a transaction that is admitted has passed.  [validate] is the caller's check;
    an owner that cannot be read off the contract is not compared with the signer. *)
Record admissible w tx (now : Z) (validate : world → Transaction.t → string + ()) : Prop := {
  adm_size : Z.of_nat (length (encode_to_vec tx)) ≤ MAX_TX_SIZE;
  adm_contract : ∃ raw, Transaction.raw_data tx = Some raw ∧ TxRaw.contract raw ≠ [] ∧
    (TxRaw.expiration raw = 0 ∨ now < TxRaw.expiration raw ≤ now + MAX_FUTURE_EXPIRATION_MS) ∧
    ref_block_ok w raw;
  adm_signer : ∃ signer, recover_tx_signer tx = Some signer ∧
    (tx_owner_address tx = Ok (Some signer) ∨ tx_owner_address tx = Ok None);
  adm_fresh : get_transaction (tx_id tx) w = None;
  adm_valid : validate w tx = inr ();
}.

(** Values of [()] in equations. *)
Ltac destruct_unit := repeat match goal with u : () |- _ => destruct u end.

Lemma check_expiration_Ok now e :
  check_expiration now e = Ok () → e = 0 ∨ now < e ≤ now + MAX_FUTURE_EXPIRATION_MS.
Proof.
  unfold check_expiration. destruct (Z.eqb_spec e 0); [by left|].
  destruct (Z.leb_spec e now); [done|]. intros (l & [-> _]%add_i64_Ok & E)%res_bind_Ok.
  destruct (Z.ltb_spec (now + MAX_FUTURE_EXPIRATION_MS) e); [done|]. right. lia.
Qed.
Lemma check_expiration_run now e :
  is_i64 (now + MAX_FUTURE_EXPIRATION_MS) → e = 0 ∨ now < e ≤ now + MAX_FUTURE_EXPIRATION_MS →
  check_expiration now e = Ok ().
Proof.
  intros Hi He. unfold check_expiration. destruct (Z.eqb_spec e 0); [done|].
  rewrite (proj2 (Z.leb_gt e now)) by lia. unfold add_i64. rewrite exact_i64_ok by done. cbn.
  by rewrite (proj2 (Z.ltb_ge _ _)) by lia.
Qed.

Lemma check_owner_iff tx signer :
  check_owner tx signer = Ok () ↔ tx_owner_address tx = Ok (Some signer) ∨ tx_owner_address tx = Ok None.
Proof.
  unfold check_owner, owner_of. destruct (tx_owner_address tx) as [[o|]| |]; cbn; [|by split; [right|]|split; [done|by intros [?|?]]..].
  case_bool_decide; split; [by left; subst|done|done|]. intros [[= ->]|]; done.
Qed.

Lemma admit_Ok w tx now validate p id p' :
  admit_transaction w tx now validate p = (Ok id, p') →
  id = tx_id tx ∧ admissible w tx now validate ∧ add tx p = (p', true).
Proof.
  unfold admit_transaction. intros E. inv_run. destruct (validate w tx) as [|[]] eqn:Ev; [done|].
  split_and!; [done| |by rewrite (surjective_pairing (add tx p)); f_equal].
  match goal with H : bool_decide (TxRaw.contract ?raw = []) = false |- _ =>
    rename raw into raw0; apply bool_decide_eq_false in H end.
  constructor.
  - by apply Z.ltb_ge.
  - exists raw0. split_and!; [done|done|by apply check_expiration_Ok; destruct_unit|].
    apply verify_ref_block_iff. by destruct_unit.
  - eexists. split; [done|]. apply check_owner_iff. by destruct_unit.
  - apply eq_None_not_Some. by eapply bool_decide_eq_false.
  - done.
Qed.

Lemma admit_run w tx now validate p :
  is_i64 (now + MAX_FUTURE_EXPIRATION_MS) → admissible w tx now validate → contains (tx_id tx) p = false →
  (add tx p).2 = true → admit_transaction w tx now validate p = (Ok (tx_id tx), (add tx p).1).
Proof.
  intros Hi [Hs (raw & Er & Hc & He & Hb) (signer & Es & Ho) Hf Hv] Hn Ha. unfold admit_transaction. cbv zeta.
  rewrite (proj2 (Z.ltb_ge _ _)), run_lift by done. rewrite Er, run_lift_some.
  rewrite (bool_decide_eq_false_2 (TxRaw.contract raw = [])), run_lift, Es, run_lift_some by done.
  rewrite (proj2 (check_owner_iff _ _) Ho), run_lift, check_expiration_run, run_lift by done.
  rewrite (proj2 (verify_ref_block_iff _ _) Hb), run_lift, run_gets, Hn, run_lift.
  rewrite bool_decide_eq_false_2, run_lift by (by rewrite Hf; intros []).
  rewrite Hv, run_lift, run_gets, Ha, run_modify. done.
Qed.

Lemma admit_not_Ok w tx now validate p r p' :
  admit_transaction w tx now validate p = (r, p') → is_Ok r = false → p' = p.
Proof.
  unfold admit_transaction. intros E Hr. destruct r; [done| |]; inv_run; done.
Qed.

Lemma pool_capacity n p : pool_reach n p → capacity p = n ∧ pool_inv p.
Proof.
  induction 1 as [|p tx _ [IHc IH]|p id _ [IHc IH]|p block _ [IHc IH]|p now _ [IHc IH]
    |p w tx now validate _ [IHc IH]].
  - split; [done|apply new_inv].
  - pose proof (add_spec tx p IH) as Hs. destruct (add tx p) as [p' []]; [naive_solver congruence|].
    destruct Hs as [-> _]. done.
  - split; [|by apply remove_inv]. unfold remove. by destruct (negb _).
  - split; [|by apply evict_included_inv]. unfold evict_included. clear IH. revert p IHc.
    induction (Block.transactions block) as [|tx txs IH]; intros p IHc; [done|]. simpl. apply IH.
    unfold remove. by destruct (negb _).
  - split; [done|by apply evict_expired_inv].
  - destruct (admit_transaction w tx now validate p) as [r p'] eqn:E. simpl.
    destruct (is_Ok r) eqn:Er; [|by apply admit_not_Ok in E as ->].
    destruct r as [id| |]; [|done..]. apply admit_Ok in E as (_ & _ & E).
    pose proof (add_spec tx p IH) as Hs. rewrite E in Hs. naive_solver congruence.
Qed.

(** C21: the mempool.  Whatever sequence of additions, removals, evictions and admissions
    built it, the pool holds each transaction once, under its own id, in insertion order,
    never more than its capacity, and its id set is exactly the ids of its list.  An admission
    succeeds only for a transaction that is not pooled, is of bounded size, has a contract and
    a recoverable signature, whose signer is the owner wherever an owner can be read off the
    contract (a contract from which none can be read is admitted under any signature), inside
    its expiration window, with a matching reference block where there is one to check, in no
    block yet, and accepted by the check the caller passes (the node passes one that accepts
    everything); it appends that transaction.  Conversely such a transaction is admitted if
    the pool has room and the clock is not within a day of the end of 64 bits.  A refused
    admission leaves the pool as it was. *)
Theorem mempool_admission (n : nat) p w tx (now : Z) (validate : world → Transaction.t → string + ()) :
  pool_reach n p →
  pool_inv p ∧ (len p ≤ n)%nat ∧ (∀ id, contains id p = true ↔ id ∈ (order p).*1) ∧
  match admit_transaction w tx now validate p with
  | (Ok id, p') => id = tx_id tx ∧ admissible w tx now validate ∧ id ∉ (order p).*1 ∧
      order p' = order p ++ [(id, tx)]
  | (_, p') => p' = p
  end ∧
  (is_i64 (now + MAX_FUTURE_EXPIRATION_MS) → admissible w tx now validate → tx_id tx ∉ (order p).*1 →
   (len p < n)%nat → (admit_transaction w tx now validate p).1 = Ok (tx_id tx)).
Proof.
  intros Hr. destruct (pool_capacity n p Hr) as [Hc Hp]. split_and!; [done| | | |].
  - unfold len. rewrite <-Hc. apply Hp.
  - intros id. by apply contains_spec.
  - destruct (admit_transaction w tx now validate p) as [r p'] eqn:E.
    destruct (is_Ok r) eqn:Er.
    + destruct r as [id| |]; [|done..]. apply admit_Ok in E as (-> & Ha & E).
      pose proof (add_spec tx p Hp) as Hs. rewrite E in Hs. naive_solver.
    + apply admit_not_Ok in E; [|done]. by destruct r.
  - intros Hi Ha Hn Hl. pose proof (add_spec tx p Hp) as Hs. unfold len in Hl.
    assert ((add tx p).2 = true) as Ht by (destruct (add tx p) as [? []]; [done|]; destruct Hs as [_ [?|?]]; [lia|done]).
    rewrite admit_run; [done..| |done]. apply not_true_iff_false. by rewrite contains_spec.
Qed.
End Runs.

(** ** A concrete pool *)

(** Toy cryptography: the recovered key is the signature itself. *)
Module PoolSample.
#[export] Instance hashes : Hashes := toy_hashes.
#[export] Instance secp : Secp := {|
  PublicKey := bytes; secp_recover _ s := Some (rs s); serialize_uncompressed k := 4 :: k |}.
#[export] Instance encode_raw : Encode TxRaw.t := λ r, TxRaw.data r.
#[export] Instance encode_tx : Encode Transaction.t := λ tx,
  match Transaction.raw_data tx with Some r => TxRaw.data r | None => [] end.
#[export] Instance encode_header : Encode HeaderRaw.t := BlockSample.encode_header.

Definition sig (n : Z) : bytes := replicate 65 n.
Definition owner (n : Z) : Address := address_from_public_key (replicate 64 n).
(** A transaction of owner [n] whose contract starts with the owner's address. *)
Definition tx (n expiration : Z) : Transaction.t :=
  Transaction.default <| Transaction.signature := [sig n] |>
    <| Transaction.raw_data := Some (TxRaw.default <| TxRaw.data := [n] |>
         <| TxRaw.expiration := expiration |>
         <| TxRaw.contract := [Contract.default <| Contract.type := 1 |>
              <| Contract.parameter := Some ([10; 21] ++ owner n) |>] |>) |>.
Definition accept (_ : world) (_ : Transaction.t) : string + () := inr ().
Definition pool : Mempool.t := (add (tx 1 0) (new 2)).1.
End PoolSample.
Import PoolSample.

Lemma mempool_admission_witness :
  ∃ p', admit_transaction empty_world (tx 2 5000) 1000 accept pool = (Ok (tx_id (tx 2 5000)), p') ∧
    order p' = [(tx_id (tx 1 0), tx 1 0); (tx_id (tx 2 5000), tx 2 5000)] ∧
    (admit_transaction empty_world (tx 1 0) 1000 accept p').1 = Err Duplicate.
Proof.
  destruct (mempool_admission 2 pool empty_world (tx 2 5000) 1000 accept) as (_ & _ & _ & H & _).
  - apply reach_add, reach_new.
  - destruct (admit_transaction empty_world (tx 2 5000) 1000 accept pool) as [r p'] eqn:E.
    assert (Er : r = Ok (tx_id (tx 2 5000))).
    { change r with ((r, p').1). rewrite <-E. by vm_compute. }
    subst r. destruct H as (_ & _ & _ & Ho). exists p'. split_and!; [done|exact Ho|].
    assert (p' = (admit_transaction empty_world (tx 2 5000) 1000 accept pool).2) as -> by (by rewrite E).
    by vm_compute.
Defined.
