(* ===== verification/Intake.v ===== *)
(** * Block validation, production and sync (crates/consensus/src/lib.rs [validation],
    producer.rs, crates/node/src/production.rs, sync.rs)

    What a peer's block must satisfy before it is stored, how a witness builds a block for
    its slot, and the two meeting: a produced block passes the intake gate. *)

From stdpp Require Import gmap strings pretty numbers fin_maps prelude.
From S2P Require Import Prelude Types Proto State Chain Consensus Mempool.
Open Scope Z_scope.

(** ** Validation *)

Inductive BlockValidationError :=
| MissingHeader
| TxTrieRootMismatch (header computed : string)
| BadWitnessSignature (len : nat)
| WitnessMismatch (recovered header : string)
| BadParentLink (got expected : Z)
| SignerNotActiveWitness (producer : string).

Record ValidationOptions := mk_options { require_witness_signature : bool }.

Section Validation.
Context `{Hashes} `{Secp} `{!Encode TxRaw.t} `{!Encode HeaderRaw.t} `{!Encode Transaction.t}.

Definition validate_block (block : Block.t) (opts : ValidationOptions) : res BlockValidationError () :=
  header ← ok_or MissingHeader (Block.block_header block);
  raw ← ok_or MissingHeader (BlockHeader.raw_data header);
  let computed := tx_trie_root block in
  if negb (bool_decide (computed = HeaderRaw.tx_trie_root raw))
  then Err (TxTrieRootMismatch (hex (HeaderRaw.tx_trie_root raw)) (hex computed)) else
  let got := i64_from_be_bytes (take 8 (HeaderRaw.parent_hash raw)) in
  if (0 <? HeaderRaw.number raw) && bool_decide (length (HeaderRaw.parent_hash raw) = 32%nat)
     && negb (got =? HeaderRaw.number raw - 1)
  then Err (BadParentLink got (HeaderRaw.number raw - 1)) else
  let sig := BlockHeader.witness_signature header in
  if bool_decide (sig = []) && negb (require_witness_signature opts) then Ok () else
  if negb (bool_decide (length sig = 65%nat)) then Err (BadWitnessSignature (length sig)) else
  recovered ← ok_or (BadWitnessSignature (length sig)) (recover_witness block);
  if negb (bool_decide (recovered = HeaderRaw.witness_address raw))
  then Err (WitnessMismatch (hex recovered) (hex (HeaderRaw.witness_address raw)))
  else Ok ().

Definition validate_block_intake (block : Block.t) (active_witnesses : list bytes) :
    res BlockValidationError () :=
  _ ← validate_block block (mk_options true);
  recovered ← ok_or (BadWitnessSignature 0) (recover_witness block);
  if negb (bool_decide (recovered ∈ active_witnesses))
  then Err (SignerNotActiveWitness (hex recovered)) else Ok ().

(** ** Sync *)

Inductive SyncError :=
| DecodeError (msg : string)
| InvalidBlock (e : BlockValidationError)
| OutOfOrder (expected got : Z)
| StateError (msg : string).

Definition map_err {E E' A} (f : E → E') (r : res E A) : res E' A :=
  match r with Ok a => Ok a | Err e => Err (f e) | Panic => Panic end.

Context `{!Decode Block.t}.

Definition decode_block (bs : bytes) : res SyncError Block.t :=
  match decode bs with inr b => Ok b | inl e => Err (DecodeError e) end.

Definition gate (require_sig : bool) (active_witnesses : option (list bytes)) (block : Block.t) :
    res SyncError () :=
  map_err InvalidBlock
    match active_witnesses with
    | Some ws => validate_block_intake block ws
    | None => validate_block block (mk_options require_sig)
    end.

(** The number of a block without a header reads as -1 here. *)
Definition synced_number (block : Block.t) : Z :=
  match header_raw block with Some r => HeaderRaw.number r | None => -1 end.

Fixpoint apply_synced_loop (require_sig : bool) (active_witnesses : option (list bytes))
    (applied : nat) (blocks : list bytes) : ST world SyncError nat :=
  match blocks with
  | [] => mret applied
  | bs :: blocks =>
      block ← lift (decode_block bs);
      _ ← lift (gate require_sig active_witnesses block);
      head ← gets (get_prop_i64 LATEST_BLOCK_NUMBER);
      expected ← lift (add_i64 head 1);
      _ ← lift (if negb (synced_number block =? expected)
                then Err (OutOfOrder expected (synced_number block)) else Ok ());
      _ ← modify (put_block block);
      apply_synced_loop require_sig active_witnesses (S applied) blocks
  end.
Definition apply_synced_blocks_gated (blocks : list bytes) (require_sig : bool)
    (active_witnesses : option (list bytes)) : ST world SyncError nat :=
  apply_synced_loop require_sig active_witnesses O blocks.
Definition apply_synced_blocks (blocks : list bytes) (require_sig : bool) : ST world SyncError nat :=
  apply_synced_blocks_gated blocks require_sig None.
(** The last part of [sync_from_best_peer]: blocks a peer served go through the gate of the
    stored active set, unless it is empty. *)
Definition apply_from_peer (blocks : list bytes) (require_sig : bool) : ST world SyncError nat :=
  witnesses ← gets get_active_witnesses;
  apply_synced_blocks_gated blocks require_sig
    (if bool_decide (witnesses = []) then None else Some witnesses).

(** ** Production *)

Context `{!SecpSign}.

Definition produce_block (parent : Block.t) (witness_key : SecretKey) (timestamp : Z)
    (transactions : list Transaction.t) (version : Z) : res () Block.t :=
  let parent_number := match header_raw parent with Some r => HeaderRaw.number r | None => 0 end in
  let parent_id := default (replicate 32 0) (block_id_of parent) in
  let witness_address := address_from_public_key (public_key witness_key) in
  let block := Block.mk transactions None in
  let tx_root := tx_trie_root block in
  number ← add_i64 parent_number 1;
  let raw := HeaderRaw.default <| HeaderRaw.timestamp := timestamp |>
    <| HeaderRaw.tx_trie_root := tx_root |> <| HeaderRaw.parent_hash := parent_id |>
    <| HeaderRaw.number := number |> <| HeaderRaw.witness_address := witness_address |>
    <| HeaderRaw.version := version |> in
  let digest := sha256 (encode_to_vec raw) in
  let sig := sign_digest witness_key digest in
  Ok (Block.mk transactions
    (Some (BlockHeader.mk (Some raw) (rs sig ++ [27 + recovery_id sig])))).

Definition produce_from_pool (parent : Block.t) (witness_key : SecretKey) (timestamp : Z)
    (pool : Mempool.t) (max_txs : nat) (version : Z) : res () Block.t :=
  produce_block parent witness_key timestamp (Mempool.peek max_txs pool) version.

Definition MAX_BLOCK_TXS : nat := 1000.
Definition BLOCK_VERSION : Z := 30.

Definition header_ts_num (block : Block.t) : option (Z * Z) :=
  raw ← header_raw block; Some (HeaderRaw.timestamp raw, HeaderRaw.number raw).

(** The blocks and times [try_produce] starts from: head, genesis time, head time. *)
Definition produce_context (w : world) : option (Block.t * Z * Z) :=
  head ← get_now_block w;
  genesis ← get_block_by_num 0 w;
  g ← header_ts_num genesis;
  h ← header_ts_num head;
  Some (head, g.1, h.1).

Definition try_produce (w : world) (pool : Mempool.t) (witness_key : SecretKey) (now_ms : Z) :
    res () (option Block.t) :=
  match produce_context w with
  | None => Ok None
  | Some (head, genesis_ts, head_ts) =>
      if now_ms <=? genesis_ts then Ok None else
      let now_slot := slot_of (wrap_u64 now_ms) (wrap_u64 genesis_ts) in
      let head_slot := slot_of (wrap_u64 head_ts) (wrap_u64 genesis_ts) in
      if now_slot <=? head_slot then Ok None else
      scheduled ← scheduled_witness (get_active_witnesses w) head_slot (now_slot - head_slot);
      match scheduled with
      | None => Ok None
      | Some scheduled =>
          let our := address_from_public_key (public_key witness_key) in
          if negb (bool_decide (scheduled = our)) then Ok None else
          off ← mul_i64 (wrap_i64 now_slot) BLOCK_INTERVAL_MS;
          block_ts ← add_i64 genesis_ts off;
          block ← produce_from_pool head witness_key block_ts pool MAX_BLOCK_TXS BLOCK_VERSION;
          Ok (Some block)
      end
  end.

Definition apply_produced (block : Block.t) (w : world) (pool : Mempool.t) :
    world * Mempool.t * option Z :=
  (index_block_transactions block (put_block block w), Mempool.evict_included block pool,
   snd <$> header_ts_num block).
End Validation.

(** ** The intake gate *)

Section Gate.
Context `{Hashes} `{Secp} `{!Encode TxRaw.t} `{!Encode HeaderRaw.t} `{!Encode Transaction.t}.
Implicit Types (block : Block.t) (ws : list bytes) (w : world).

(** What the gate lets through: a header whose transaction root and parent height match,
    signed by the active witness it names. *)
Record intake_ok ws block (raw : HeaderRaw.t) (a : Address) : Prop := {
  gate_raw : header_raw block = Some raw;
  gate_root : HeaderRaw.tx_trie_root raw = tx_trie_root block;
  gate_parent : 0 < HeaderRaw.number raw → length (HeaderRaw.parent_hash raw) = 32%nat →
    i64_from_be_bytes (take 8 (HeaderRaw.parent_hash raw)) = HeaderRaw.number raw - 1;
  gate_signer : recover_witness block = Some a;
  gate_witness : a = HeaderRaw.witness_address raw;
  gate_active : a ∈ ws;
}.

Lemma header_raw_Some block header raw :
  Block.block_header block = Some header → BlockHeader.raw_data header = Some raw →
  header_raw block = Some raw.
Proof. unfold header_raw. intros -> E. exact E. Qed.

Lemma recover_witness_length block header a :
  Block.block_header block = Some header → recover_witness block = Some a →
  length (BlockHeader.witness_signature header) = 65%nat.
Proof.
  unfold recover_witness. intros ->. simpl. unfold parse_signature. by case_bool_decide.
Qed.

Lemma intake_iff block ws :
  validate_block_intake block ws = Ok () ↔ ∃ raw a, intake_ok ws block raw a.
Proof.
  split.
  - unfold validate_block_intake, validate_block. intros E. inv_run.
    all: repeat match goal with
    | H : negb _ = false |- _ => apply negb_false_iff in H
    | H : bool_decide _ = true |- _ => apply bool_decide_eq_true in H end.
    all: match goal with H1 : BlockHeader.raw_data ?h = Some ?raw, H2 : Block.block_header _ = Some ?h |- _ =>
      pose proof (header_raw_Some _ _ _ H2 H1) as Er end.
    + match goal with H : _ && negb (require_witness_signature _) = true |- _ =>
        by rewrite andb_false_r in H end.
    + eexists _, _. constructor; [exact Er|done| |done|congruence|congruence].
      intros Hn Hl. match goal with H : _ && negb (_ =? _) = false |- _ => revert H end.
      rewrite (proj2 (Z.ltb_lt _ _) Hn), bool_decide_eq_true_2 by done. simpl.
      rewrite negb_false_iff. apply Z.eqb_eq.
  - intros (raw & a & [Hr Hroot Hp Hs -> Ha]). unfold validate_block_intake, validate_block.
    unfold header_raw in Hr. destruct (Block.block_header block) as [header|] eqn:Eh; [|done].
    simpl in Hr. simpl. rewrite Hr. simpl. rewrite (bool_decide_eq_true_2 (_ = _)) by done. simpl.
    pose proof (recover_witness_length _ _ _ Eh Hs) as Hl.
    rewrite Hl, Hs. simpl. rewrite (bool_decide_eq_false_2 (_ = [])) by (intros E; by rewrite E in Hl). simpl.
    rewrite !(bool_decide_eq_true_2 (HeaderRaw.witness_address raw = _)) by done. simpl.
    rewrite (bool_decide_eq_true_2 (_ ∈ _)) by done. simpl.
    destruct (Z.ltb_spec 0 (HeaderRaw.number raw)) as [Hn|Hn]; [|done]. simpl.
    case_bool_decide as Hl'; [|done]. simpl. by rewrite Hp, Z.eqb_refl by done.
Qed.

(** What passes without an active set: the root and the parent height as above, signed by
    the witness it names, or not signed at all unless a signature is required. *)
Record linked block (raw : HeaderRaw.t) : Prop := {
  link_raw : header_raw block = Some raw;
  link_root : HeaderRaw.tx_trie_root raw = tx_trie_root block;
  link_parent : 0 < HeaderRaw.number raw → length (HeaderRaw.parent_hash raw) = 32%nat →
    i64_from_be_bytes (take 8 (HeaderRaw.parent_hash raw)) = HeaderRaw.number raw - 1;
}.
Definition unsigned block : Prop := BlockHeader.witness_signature <$> Block.block_header block = Some [].
Definition passes (sig : bool) (gt : option (list bytes)) block : Prop :=
  match gt with
  | Some ws => ∃ raw a, intake_ok ws block raw a
  | None => ∃ raw, linked block raw ∧
      (sig = false ∧ unsigned block ∨ recover_witness block = Some (HeaderRaw.witness_address raw))
  end.

Lemma validate_iff block sig :
  validate_block block (mk_options sig) = Ok () ↔ passes sig None block.
Proof.
  unfold passes, unsigned, validate_block, header_raw. split.
  - intros E. destruct (Block.block_header block) as [header|] eqn:Eh; [|done]. simpl in E.
    destruct (BlockHeader.raw_data header) as [raw|] eqn:Er; [|done]. simpl in E.
    case_bool_decide as Hroot; [|done]. simpl in E. destruct (_ && negb (_ =? _)) eqn:Ep in E; [done|].
    exists raw. split.
    { constructor; [unfold header_raw; by rewrite Eh|done|]. intros Hn Hl.
      rewrite (proj2 (Z.ltb_lt _ _) Hn), bool_decide_eq_true_2 in Ep by done. simpl in Ep.
      by apply negb_false_iff, Z.eqb_eq in Ep. }
    case_bool_decide as Hs; simpl in E.
    + destruct sig; simpl in E; [by rewrite Hs in E|]. left. simpl. by rewrite Hs.
    + case_bool_decide; [|done]. simpl in E. destruct (recover_witness block) as [a|]; [|done]. simpl in E.
      right. case_bool_decide; [by subst|done].
  - intros (raw & [Hr Hroot Hp] & Hs). unfold header_raw in Hr.
    destruct (Block.block_header block) as [header|] eqn:Eh; [|done]. simpl in Hr |- *. rewrite Hr. simpl.
    rewrite (bool_decide_eq_true_2 (_ = _)) by done. simpl.
    destruct (_ && negb (_ =? _)) eqn:Ep.
    { apply andb_true_iff in Ep as [[Hn%Z.ltb_lt Hl%bool_decide_eq_true]%andb_true_iff Hne].
      by rewrite Hp, Z.eqb_refl in Hne. }
    destruct Hs as [[-> [= ->]]|Hs]; [done|]. pose proof (recover_witness_length _ _ _ Eh Hs) as Hl.
    rewrite Hl, Hs. simpl. rewrite (bool_decide_eq_false_2 (_ = [])) by (intros E; by rewrite E in Hl). simpl.
    by rewrite bool_decide_eq_true_2.
Qed.
Lemma gate_iff sig gt block : gate sig gt block = Ok () ↔ passes sig gt block.
Proof.
  unfold gate, map_err. destruct gt as [ws|].
  - unfold passes. rewrite <-intake_iff. by destruct (validate_block_intake block ws) as [[]| |].
  - rewrite <-validate_iff. by destruct (validate_block _ _) as [[]| |].
Qed.
Lemma passes_linked sig gt block : passes sig gt block → ∃ raw, linked block raw.
Proof. destruct gt; [intros (raw & a & [])|intros (raw & Hl & _)]; exists raw; [by constructor|done]. Qed.
Lemma passes_weaken sig gt block : passes sig gt block → passes false gt block.
Proof. destruct gt; [done|]. intros (raw & Hl & Hs). exists raw. split; [done|]. destruct Hs as [[_ ?]|?]; auto. Qed.
End Gate.

(** ** Synced batches *)

Section Sync.
Context `{Hashes} `{Secp} `{!Encode TxRaw.t} `{!Encode HeaderRaw.t} `{!Encode Transaction.t}
  `{!Decode Block.t}.
Implicit Types (block : Block.t) (ws : list bytes) (w : world) (bl : list Block.t).

Abbreviation head_of w := (get_prop_i64 LATEST_BLOCK_NUMBER w).

(** A batch of stored blocks: each passed the gate and continues the head by one. *)
Fixpoint stored sig gt w bl w' : Prop :=
  match bl with
  | [] => w' = w
  | b :: bl =>
      passes sig gt b ∧ block_number b = head_of w + 1 ∧ is_i64 (head_of w + 1) ∧
      stored sig gt (put_block b w) bl w'
  end.

Lemma stored_head sig gt w bl w' :
  stored sig gt w bl w' → head_of w' = head_of w + Z.of_nat (length bl).
Proof.
  revert w. induction bl as [|b bl IH]; intros w; simpl; [by intros ->; rewrite Z.add_0_r|].
  intros (_ & Hn & Hi & Hs). rewrite (IH _ Hs), put_block_head by (by rewrite Hn). lia.
Qed.

Lemma stored_get_old sig gt w bl w' n :
  stored sig gt w bl w' → is_i64 n → n ≤ head_of w → get_block_by_num n w' = get_block_by_num n w.
Proof.
  revert w. induction bl as [|b bl IH]; intros w; simpl; [by intros ->|].
  intros (_ & Hn & Hi & Hs) Hin Hle. rewrite (IH _ Hs), put_block_lookup_ne; try done; try lia.
  - by rewrite Hn.
  - rewrite put_block_head by (by rewrite Hn). lia.
Qed.

Lemma stored_get sig gt w bl w' i b :
  stored sig gt w bl w' → bl !! i = Some b →
  block_number b = head_of w + 1 + Z.of_nat i ∧ get_block_by_num (block_number b) w' = Some b ∧
  passes sig gt b.
Proof.
  revert w i. induction bl as [|b0 bl IH]; intros w i; simpl; [done|].
  intros (Hg & Hn & Hi & Hs). assert (Hh : head_of (put_block b0 w) = head_of w + 1)
    by (rewrite put_block_head by (by rewrite Hn); lia).
  destruct i as [|i]; simpl.
  - intros [= <-]. split_and!; [lia| |done]. erewrite stored_get_old; [apply put_block_lookup_eq|done| |].
    + by rewrite Hn.
    + lia.
  - intros Hb. destruct (IH _ _ Hs Hb) as (E & H1 & H2). split_and!; [lia|done|done].
Qed.

(** What is wrong with the next bytes of a batch when the head is [head]. *)
Definition fault sig gt (head : Z) (bs : bytes) (e : SyncError) : Prop :=
  match decode bs with
  | inl msg => e = DecodeError msg
  | inr b =>
      ¬ passes sig gt b ∧ gate sig gt b = Err e ∨
      passes sig gt b ∧ block_number b ≠ head + 1 ∧ e = OutOfOrder (head + 1) (block_number b)
  end.

Lemma gate_no_panic sig gt b : gate sig gt b ≠ Panic.
Proof.
  assert (∀ opts, validate_block b opts ≠ Panic) as Hv.
  { intros opts. unfold validate_block. destruct (Block.block_header b) as [h|]; [|done]. simpl.
    destruct (BlockHeader.raw_data h) as [raw|]; [|done]. simpl. repeat case_match; try done.
    destruct (recover_witness b); [|done]. simpl. by case_match. }
  unfold gate, map_err. destruct gt as [ws|].
  - unfold validate_block_intake. specialize (Hv (mk_options true)).
    destruct (validate_block b _); simpl; [|done|done]. destruct (recover_witness b); simpl; [|done].
    by destruct (bool_decide _).
  - specialize (Hv (mk_options sig)). by destruct (validate_block b _).
Qed.

Lemma passes_number sig gt b : passes sig gt b → synced_number b = block_number b.
Proof.
  intros (raw & [Hr _ _])%passes_linked. unfold synced_number, block_number. by rewrite Hr.
Qed.

Lemma apply_synced_loop_spec sig gt n blocks w r w' :
  apply_synced_loop sig gt n blocks w = (r, w') →
  ∃ bl, Forall2 (λ bs b, decode bs = inr b) (take (length bl) blocks) bl ∧ stored sig gt w bl w' ∧
    match r with
    | Ok m => m = (n + length blocks)%nat ∧ length bl = length blocks
    | Err e => ∃ bs, blocks !! length bl = Some bs ∧ fault sig gt (head_of w') bs e
    | Panic => (length bl < length blocks)%nat ∧ head_of w' = I64_MAX
    end.
Proof.
  revert n w. induction blocks as [|bs blocks IH]; intros n w; simpl.
  { intros [= <- <-]. exists []. simpl. split_and!; [constructor|done|lia|done]. }
  assert (Hstop : ∀ r', match r' with Ok _ => False | Err e => fault sig gt (head_of w) bs e
      | Panic => head_of w = I64_MAX end → (r', w) = (r, w') → ∃ bl,
    Forall2 (λ bs b, decode bs = inr b) (take (length bl) (bs :: blocks)) bl ∧ stored sig gt w bl w' ∧
    match r with
    | Ok m => m = (n + S (length blocks))%nat ∧ length bl = S (length blocks)
    | Err e => ∃ bs', (bs :: blocks) !! length bl = Some bs' ∧ fault sig gt (head_of w') bs' e
    | Panic => (length bl < S (length blocks))%nat ∧ head_of w' = I64_MAX
    end).
  { intros r' Hr [= -> ->]. exists []. simpl. split_and!; [constructor|done|].
    destruct r; [done|by exists bs|split; [lia|done]]. }
  unfold mbind, ST_bind, lift, gets, modify. unfold decode_block.
  destruct (decode bs) as [e|b] eqn:Eb; [apply Hstop; unfold fault; by rewrite Eb|].
  destruct (gate sig gt b) as [[]|e|] eqn:Eg; [| |by apply gate_no_panic in Eg].
  2: { apply Hstop. unfold fault. rewrite Eb. left. split; [|done]. rewrite <-gate_iff. congruence. }
  apply gate_iff in Eg. destruct (add_i64 (head_of w) 1) as [x|e|] eqn:Ex.
  2: by apply exact_i64_Err in Ex.
  2: { apply Hstop. pose proof (get_prop_is_i64 LATEST_BLOCK_NUMBER w). revert Ex. unfold add_i64, exact_i64.
       case_bool_decide; [done|]. intros _. i64_lia. }
  apply add_i64_Ok in Ex as [-> Hi]. rewrite (passes_number _ _ _ Eg).
  destruct (Z.eqb_spec (block_number b) (head_of w + 1)) as [En|Hne]; simpl.
  2: { apply Hstop. unfold fault. rewrite Eb. by right. }
  intros E. destruct (IH _ _ E) as (bl & Hd & Hst & Hr).
  exists (b :: bl). simpl. split_and!; [by constructor|done|done|done|done|].
  destruct r; [|done|]; [|split; [|apply Hr]]; lia.
Qed.

(** C20: intake of synced blocks.  Take a batch served by a peer and a gate, either the set of
    active witnesses or, as while a node has none, no set.  A prefix of the batch is stored:
    the whole batch if the call succeeds; if it reports an error, exactly the blocks before
    the first faulty one, which does not decode, does not pass the gate, or does not continue
    the head, and the error says which; and it panics only at the last height of 64 bits.
    Every stored block is the decoding of the bytes received, continues the head by exactly
    one, passes the gate and is found under its number afterwards; the head moves by the
    number of stored blocks and the blocks below it are untouched.  To pass the gate is to
    carry the Merkle root of its transactions, to name the height before it as its parent, if
    the parent hash has 32 bytes, and to be signed by the active witness it names; without an
    active set, by the witness it names, or not at all where no signature is required. *)
Theorem sync_intake gt (blocks : list bytes) (sig : bool) w r w' :
  apply_synced_blocks_gated blocks sig gt w = (r, w') →
  ∃ bl, Forall2 (λ bs b, decode bs = inr b) (take (length bl) blocks) bl ∧
    match r with
    | Ok n => n = length blocks ∧ length bl = n
    | Err e => ∃ bs, blocks !! length bl = Some bs ∧ fault sig gt (head_of w') bs e
    | Panic => (length bl < length blocks)%nat ∧ head_of w' = I64_MAX
    end ∧
    head_of w' = head_of w + Z.of_nat (length bl) ∧
    (∀ i b, bl !! i = Some b →
       block_number b = head_of w + 1 + Z.of_nat i ∧ get_block_by_num (block_number b) w' = Some b ∧
       passes sig gt b) ∧
    ∀ n, is_i64 n → n ≤ head_of w → get_block_by_num n w' = get_block_by_num n w.
Proof.
  intros E. destruct (apply_synced_loop_spec sig gt O blocks w r w' E) as (bl & Hd & Hs & Hr).
  exists bl. split_and!; [done| |by eapply stored_head|by intros; eapply stored_get|].
  - destruct r; [|done..]. lia.
  - intros n Hn Hle. by eapply stored_get_old.
Qed.
End Sync.

(** ** Produced blocks *)

Section Produce.
Context `{HashLaws} `{SecpLaws} `{!Encode TxRaw.t} `{!Encode HeaderRaw.t} `{!Encode Transaction.t}
  `{!Encode Block.t} `{!Decode Block.t}.
Implicit Types (block parent : Block.t) (w : world) (sk : SecretKey).

Abbreviation head_of w := (get_prop_i64 LATEST_BLOCK_NUMBER w).
Abbreviation me sk := (address_from_public_key (public_key sk)).

(** The block stored under the head number carries that number. *)
Definition numbered w : Prop :=
  ∀ b, get_now_block w = Some b → block_number b = head_of w.

Lemma numbered_put_block block w :
  block_number block = head_of w + 1 → is_i64 (head_of w + 1) → numbered (put_block block w).
Proof.
  intros En Hi. assert (Eh : head_of (put_block block w) = head_of w + 1).
  { rewrite put_block_head by (by rewrite En). lia. }
  intros b. unfold get_now_block.
  rewrite Eh, <-En, put_block_lookup_eq. by intros [= <-].
Qed.

Lemma block_id_length (n : Z) (h : bytes) : length h = 32%nat → length (block_id n h) = 32%nat.
Proof. intros E. unfold block_id. rewrite length_app, length_drop, i64_to_be_bytes_length, E. done. Qed.

Lemma block_id_number (n : Z) (h : bytes) : is_i64 n → i64_from_be_bytes (take 8 (block_id n h)) = n.
Proof.
  intros Hn. unfold block_id. rewrite take_app_length' by (by rewrite i64_to_be_bytes_length).
  by apply i64_be_roundtrip.
Qed.

(** The parent hash a producer writes names the height it builds on. *)
Lemma parent_hash_links parent :
  is_i64 (block_number parent) →
  i64_from_be_bytes (take 8 (default (replicate 32 0) (block_id_of parent))) = block_number parent.
Proof.
  intros Hn. unfold block_id_of, block_hash, block_number in *.
  destruct (header_raw parent) as [raw|]; simpl.
  - by apply block_id_number.
  - by vm_compute.
Qed.

Lemma signed_recover (block : Block.t) raw sk :
  Block.block_header block = Some (BlockHeader.mk (Some raw)
    (rs (sign_digest sk (sha256 (encode_to_vec raw))) ++
     [27 + recovery_id (sign_digest sk (sha256 (encode_to_vec raw)))])) →
  recover_witness block = Some (me sk).
Proof.
  intros Eh. unfold recover_witness, block_hash, header_raw. rewrite Eh. simpl.
  set (d := sha256 (encode_to_vec raw)). unfold sign_digest.
  set (s := sign_ecdsa_recoverable d sk).
  assert (Hl : length (rs s) = 64%nat) by apply sign_length.
  assert (Hv : 0 ≤ recovery_id s < 4) by apply sign_recovery_id.
  assert (Hr : secp_recover d s = Some (from_secret_key sk)) by apply sign_recover.
  unfold parse_signature. rewrite bool_decide_eq_true_2 by (rewrite length_app, Hl; done). simpl.
  rewrite lookup_app_r, Hl by lia. rewrite take_app_length' by done. simpl.
  rewrite (proj2 (Z.leb_le 27 (27 + recovery_id s))) by lia.
  replace (27 + recovery_id s - 27) with (recovery_id s) by lia.
  replace (mk_signature (rs s) (recovery_id s)) with s by (by destruct s).
  unfold recover. by rewrite Hr.
Qed.

(** Whatever [produce_block] returns passes the gate of any set its key belongs to. *)
Lemma produce_block_intake parent sk ts txs v block (ws : list bytes) :
  is_i64 (block_number parent) → me sk ∈ ws →
  produce_block parent sk ts txs v = Ok block →
  ∃ raw, intake_ok ws block raw (me sk) ∧ HeaderRaw.number raw = block_number parent + 1 ∧
    is_i64 (HeaderRaw.number raw) ∧ HeaderRaw.timestamp raw = ts ∧
    HeaderRaw.parent_hash raw = default (replicate 32 0) (block_id_of parent) ∧
    Block.transactions block = txs.
Proof.
  intros Hn Hw. unfold produce_block. intros (n & En & [= <-])%res_bind_Ok.
  apply add_i64_Ok in En as [En Hi].
  eexists. split; [constructor|]; try reflexivity; cbn [HeaderRaw.number HeaderRaw.parent_hash].
  - intros _ _. change (i64_from_be_bytes (take 8 (default (replicate 32 0) (block_id_of parent))) = n - 1).
    rewrite parent_hash_links by done. subst n. unfold block_number. lia.
  - eapply signed_recover. reflexivity.
  - done.
  - split_and!; [exact En|by rewrite En|done..].
Qed.

Lemma scheduled_witness_active (ws : list bytes) h s a :
  scheduled_witness ws h s = Ok (Some a) → a ∈ ws.
Proof.
  unfold scheduled_witness. case_bool_decide; [done|].
  intros (c & _ & (m & _ & [= E])%res_bind_Ok)%res_bind_Ok. by eapply list_elem_of_lookup_2.
Qed.

(** What [try_produce] did when it returned a block. *)
Record production w (pool : Mempool.t) sk (now : Z) block (head : Block.t) (genesis_ts head_ts : Z) : Prop := {
  prod_context : produce_context w = Some (head, genesis_ts, head_ts);
  prod_started : genesis_ts < now;
  prod_slot : slot_of (wrap_u64 head_ts) (wrap_u64 genesis_ts)
    < slot_of (wrap_u64 now) (wrap_u64 genesis_ts);
  prod_turn : scheduled_witness (get_active_witnesses w)
    (slot_of (wrap_u64 head_ts) (wrap_u64 genesis_ts))
    (slot_of (wrap_u64 now) (wrap_u64 genesis_ts) - slot_of (wrap_u64 head_ts) (wrap_u64 genesis_ts))
    = Ok (Some (me sk));
  prod_block : ∃ ts, produce_block head sk ts (Mempool.peek MAX_BLOCK_TXS pool) BLOCK_VERSION = Ok block;
}.

Lemma try_produce_inv w pool sk now block :
  try_produce w pool sk now = Ok (Some block) →
  ∃ head g h, production w pool sk now block head g h.
Proof.
  unfold try_produce. destruct (produce_context w) as [[[head g] h]|] eqn:Ec; [|done].
  destruct (Z.leb_spec now g); [done|].
  destruct (Z.leb_spec (slot_of (wrap_u64 now) (wrap_u64 g)) (slot_of (wrap_u64 h) (wrap_u64 g))); [done|].
  intros ([a|] & Es & E)%res_bind_Ok; [|done].
  case_bool_decide as Ea; [|done]. subst a. cbn [negb] in E.
  apply res_bind_Ok in E as (off & _ & (ts & _ & (b & Eb & [= ->])%res_bind_Ok)%res_bind_Ok).
  exists head, g, h. constructor; try done. by exists ts.
Qed.

(** C16: a produced block is accepted.  When the node produces a block it is its turn in
    the schedule and the slot is after the head's; the block takes its transactions from
    the front of the pool and continues the head by one with a parent hash that names the
    head; and a peer in the same state that receives its encoding lets it through the
    gate, stores it and moves its head to it. *)
Theorem produced_block_accepted w pool sk (now : Z) block (sig : bool) :
  numbered w → try_produce w pool sk now = Ok (Some block) →
  decode (encode_to_vec block) = inr block →
  (∃ head g h, production w pool sk now block head g h ∧
     HeaderRaw.parent_hash <$> header_raw block = Some (default (replicate 32 0) (block_id_of head))) ∧
  Block.transactions block = Mempool.peek MAX_BLOCK_TXS pool ∧
  block_number block = head_of w + 1 ∧
  apply_from_peer [encode_to_vec block] sig w = (Ok 1%nat, put_block block w) ∧
  numbered (put_block block w) ∧ get_now_block (put_block block w) = Some block.
Proof.
  intros Hnum E Hdec. pose proof (get_prop_is_i64 LATEST_BLOCK_NUMBER w) as Hi. apply try_produce_inv in E as (head & g & h & P).
  pose proof (scheduled_witness_active _ _ _ _ (prod_turn _ _ _ _ _ _ _ _ P)) as Hw.
  destruct (prod_block _ _ _ _ _ _ _ _ P) as [ts Eb].
  assert (Eh : block_number head = head_of w).
  { apply Hnum. pose proof (prod_context _ _ _ _ _ _ _ _ P) as Ec. unfold produce_context in Ec.
    destruct (get_now_block w) as [b|]; [|done]. simpl in Ec.
    repeat case_match; simplify_option_eq; done. }
  destruct (produce_block_intake _ _ _ _ _ _ (get_active_witnesses w) ltac:(by rewrite Eh) Hw Eb)
    as (raw & Hok & En & Hin & _ & Ep & Etx).
  pose proof (gate_raw _ _ _ _ Hok) as Er. rewrite Eh in En.
  assert (Ebn : block_number block = head_of w + 1) by (unfold block_number; by rewrite Er).
  assert (Hn' : numbered (put_block block w)) by (apply numbered_put_block; [done|by rewrite <-En]).
  split_and!; [|done|done| |done|].
  - exists head, g, h. split; [done|]. rewrite Er. simpl. by rewrite Ep.
  - unfold apply_from_peer, apply_synced_blocks_gated. unfold mbind at 1, ST_bind at 1, gets at 1.
    cbn iota beta. rewrite bool_decide_eq_false_2 by (intros E; rewrite E in Hw; by apply elem_of_nil in Hw).
    simpl. unfold mbind, ST_bind, lift, gets, modify, decode_block. rewrite Hdec. unfold gate.
    rewrite (proj2 (intake_iff _ _) (ex_intro _ raw (ex_intro _ _ Hok))). simpl.
    unfold add_i64. rewrite exact_i64_ok by (by rewrite <-En). unfold synced_number. rewrite Er, En, Z.eqb_refl. done.
  - unfold get_now_block. rewrite put_block_head by (rewrite Ebn; by rewrite <-En).
    rewrite Z.max_r by lia. apply put_block_lookup_eq.
Qed.
End Produce.

(** ** Samples *)

(** A toy curve whose public key is the secret key and whose signature is the key. *)
Module IntakeSample.
#[export] Instance hashes : Hashes := toy_hashes.
#[export] Instance hash_laws : HashLaws := toy_hash_laws.
#[export] Instance secp : Secp := {|
  PublicKey := nat; secp_recover _ s := Some (Z.to_nat (default 0 (rs s !! 0%nat)));
  serialize_uncompressed k := 4 :: replicate 64 (Z.of_nat k) |}.
#[export] Instance secp_sign : SecpSign := {|
  SecretKey := nat; from_secret_key k := k;
  sign_ecdsa_recoverable _ k := mk_signature (replicate 64 (Z.of_nat k)) 1 |}.
#[export] Instance secp_laws : SecpLaws.
Proof.
  split; intros d k; cbn; [done|lia|]. by rewrite Nat2Z.id.
Qed.
#[export] Instance encode_raw : Encode TxRaw.t := PoolSample.encode_raw.
#[export] Instance encode_tx : Encode Transaction.t := PoolSample.encode_tx.
#[export] Instance encode_header : Encode HeaderRaw.t := BlockSample.encode_header.

(** Genesis at time 0, one active witness with key 7, its block for slot 2. *)
Definition key : SecretKey := 7%nat.
Definition world0 : world :=
  put_active_witnesses [address_from_public_key (public_key key)] (put_block (BlockSample.block 0 0) empty_world).
Definition pool : Mempool.t := PoolSample.pool.
Definition produced : Block.t := Eval vm_compute in
  match try_produce world0 pool key 7000 with Ok (Some b) => b | _ => BlockSample.block 0 0 end.
#[export] Instance encode_block : Encode Block.t := λ b, i64_to_be_bytes (block_number b).
#[export] Instance decode_block : Decode Block.t := λ bs,
  if bool_decide (bs = i64_to_be_bytes 1) then inr produced else inl "failed to decode"%string.
End IntakeSample.
Import IntakeSample.

Lemma produced_block_accepted_witness :
  try_produce IntakeSample.world0 IntakeSample.pool IntakeSample.key 7000
    = Ok (Some IntakeSample.produced) ∧
  apply_from_peer [encode_to_vec IntakeSample.produced] true IntakeSample.world0
    = (Ok 1%nat, put_block IntakeSample.produced IntakeSample.world0).
Proof.
  split; [by vm_compute|].
  destruct (produced_block_accepted IntakeSample.world0 IntakeSample.pool IntakeSample.key 7000
    IntakeSample.produced true) as (_ & _ & _ & E & _).
  - intros b. vm_compute. by intros [= <-].
  - by vm_compute.
  - by vm_compute.
  - exact E.
Defined.

(** A batch of the produced block and one that does not decode: the first is stored. *)
Lemma sync_intake_witness :
  let ws := [address_from_public_key (public_key IntakeSample.key)] in
  ∃ w', apply_synced_blocks_gated [i64_to_be_bytes 1; []] true (Some ws) IntakeSample.world0
      = (Err (DecodeError "failed to decode"), w') ∧
    get_prop_i64 LATEST_BLOCK_NUMBER w' ≤ 1.
Proof.
  intros ws.
  destruct (apply_synced_blocks_gated [i64_to_be_bytes 1; []] true (Some ws) IntakeSample.world0)
    as [r w'] eqn:E.
  destruct (sync_intake _ _ _ _ _ _ E) as (bl & _ & Hr & Hh & _).
  assert (Er : r = Err (DecodeError "failed to decode")).
  { change r with (r, w').1. rewrite <-E. by vm_compute. }
  subst r. exists w'. split; [done|]. rewrite Hh. destruct Hr as (bs & Hbs%lookup_lt_Some & _).
  change (get_prop_i64 LATEST_BLOCK_NUMBER IntakeSample.world0) with 0. simpl in Hbs. lia.
Defined.
