(* ===== verification/Node.v ===== *)
(** * The node's channel handler (crates/node/src/net.rs)

    What the node does with messages of its peers: blocks go through the intake gate,
    transactions into the pool, PBFT commits into the confirmation map that advances the
    solidified block; a witness node signs a commit for every block it accepts. *)

From stdpp Require Import gmap strings pretty numbers fin_maps prelude.
From S2P Require Import Prelude Types Proto State Chain Consensus Mempool Intake.
Open Scope Z_scope.

Abbreviation head_of w := (get_prop_i64 LATEST_BLOCK_NUMBER w).

Record WitnessCommitter `{SecpSign} := mk_committer { committer_key : SecretKey; committer_address : Address }.
Arguments mk_committer {_ _} _ _.
Arguments committer_key {_ _} _.
Arguments committer_address {_ _} _.

(** [NodeChannelHandler]: the shared world and pool, the confirmations per height, and the
    commits handed to the broadcast handle, if one was injected. *)
Record NodeChannelHandler `{SecpSign} := mk_node {
  n_world : world;
  n_mempool : Mempool.t;
  n_require_sig : bool;
  n_confirmations : gmap Z (gset bytes);
  n_witness : option WitnessCommitter;
  n_commit_out : option (list bytes);
}.
Arguments mk_node {_ _} _ _ _ _ _ _.
Arguments n_world {_ _} _.
Arguments n_mempool {_ _} _.
Arguments n_require_sig {_ _} _.
Arguments n_confirmations {_ _} _.
Arguments n_witness {_ _} _.
Arguments n_commit_out {_ _} _.
#[export] Instance eta_node `{SecpSign} : Eta NodeChannelHandler := λ n,
  mk_node (n_world n) (n_mempool n) (n_require_sig n) (n_confirmations n) (n_witness n) (n_commit_out n).

Section Handler.
Context `{Hashes} `{SecpSign} `{!Encode TxRaw.t} `{!Encode HeaderRaw.t} `{!Encode Transaction.t}
  `{!Encode Block.t} `{!Decode Block.t} `{!Decode Transaction.t}.
Implicit Types (n : NodeChannelHandler).

Definition new_node (w : world) (pool : Mempool.t) (require_sig : bool) : NodeChannelHandler :=
  mk_node w pool require_sig ∅ None None.
Definition with_witness (key : option SecretKey) n : NodeChannelHandler :=
  n <| n_witness := (λ k, mk_committer k (address_from_public_key (public_key k))) <$> key |>.
(** [OnceLock::set]: only the first handle stays. *)
Definition set_commit_handle n : NodeChannelHandler :=
  match n_commit_out n with None => n <| n_commit_out := Some [] |> | Some _ => n end.

Definition head n : Z := head_of (n_world n).

Definition on_pbft_commit (commit_bytes : bytes) n : NodeChannelHandler * bool :=
  let allow_pbft := get_prop_i64 props.ALLOW_PBFT (n_world n) =? 1 in
  if negb allow_pbft then (n, false) else
  match PbftCommit.decode commit_bytes with
  | None => (n, false)
  | Some commit =>
  match PbftCommit.recover_signer commit with
  | None => (n, false)
  | Some signer =>
  let active := get_active_witnesses (n_world n) in
  if negb (bool_decide (signer ∈ active)) then (n, false) else
  let head := head n in
  let solidified := get_solidified_block (n_world n) in
  let block_num := PbftCommit.block_num commit in
  if negb (accept_pbft_message allow_pbft block_num head solidified) then (n, false) else
  let at_block := default ∅ (n_confirmations n !! block_num) in
  if bool_decide (signer ∈ at_block)
  then (n <| n_confirmations ::= insert block_num at_block |>, false) else
  let conf := <[block_num := {[signer]} ∪ at_block]> (n_confirmations n) in
  let n := n <| n_confirmations := conf |> in
  if is_finalized (size ({[signer]} ∪ at_block)) (length active) then
    let counts := size <$> conf in
    match solidified_block counts head (length active) with
    | Some solid =>
        if solidified <? solid then
          (n <| n_world ::= put_solidified_block solid |>
             <| n_confirmations ::= filter (λ kv, solid ≤ kv.1) |>, true)
        else (n, true)
    | None => (n, true)
    end
  else (n, true)
  end
  end.

(** The signed commit [emit_commit] builds. *)
Definition own_commit (w : WitnessCommitter) (block_num : Z) (block_id : bytes) : bytes :=
  let digest := PbftCommit.digest block_num block_id in
  let sig := sign_digest (committer_key w) digest in
  PbftCommit.encode (PbftCommit.mk block_num block_id (rs sig ++ [27 + recovery_id sig])).
Definition emit_commit (block_num : Z) (block_id : bytes) n : NodeChannelHandler :=
  match n_witness n with
  | None => n
  | Some w =>
      if negb (get_prop_i64 props.ALLOW_PBFT (n_world n) =? 1) then n else
      if negb (bool_decide (committer_address w ∈ get_active_witnesses (n_world n))) then n else
      let commit := own_commit w block_num block_id in
      let n := (on_pbft_commit commit n).1 in
      n <| n_commit_out ::= fmap (λ out, out ++ [commit]) |>
  end.

Definition on_block (block_bytes : bytes) : ST NodeChannelHandler () (option Z) := λ n,
  let witnesses := get_active_witnesses (n_world n) in
  let gate := if bool_decide (witnesses = []) then None else Some witnesses in
  match apply_synced_blocks_gated [block_bytes] (n_require_sig n) gate (n_world n) with
  | (Panic, w) => (Panic, n <| n_world := w |>)
  | (Err _, w) => (Ok None, n <| n_world := w |>)
  | (Ok applied, w) =>
      let n := n <| n_world := w |> in
      if bool_decide (1 ≤ applied)%nat then
        let n := match decode block_bytes with
          | inr block =>
              match header_raw block, block_id_of block with
              | Some raw, Some id => emit_commit (HeaderRaw.number raw) id n
              | _, _ => n
              end
          | inl _ => n
          end in
        (Ok (Some (head n)), n)
      else (Ok None, n)
  end.

Definition on_transaction (tx_bytes : bytes) (now_ms : Z) : ST NodeChannelHandler () () := λ n,
  match decode (M := Transaction.t) tx_bytes with
  | inr tx =>
      let r := admit_transaction (n_world n) tx now_ms (λ _ _, inr ()) (n_mempool n) in
      (match r.1 with Panic => Panic | _ => Ok () end, n <| n_mempool := r.2 |>)
  | inl _ => (Ok (), n)
  end.

Definition block_bytes (number : Z) n : option bytes :=
  encode_to_vec <$> get_block_by_num number (n_world n).
End Handler.

(** ** Finality *)

(** The messages a node handles, and what a sequence of them does to it. *)
Inductive event := CommitMsg (bs : bytes) | BlockMsg (bs : bytes) | TransactionMsg (bs : bytes) (now_ms : Z).

Section Finality.
Context `{Hashes} `{SecpSign} `{!Encode TxRaw.t} `{!Encode HeaderRaw.t} `{!Encode Transaction.t}
  `{!Encode Block.t} `{!Decode Block.t} `{!Decode Transaction.t}.
Implicit Types (n : NodeChannelHandler) (a : bytes) (e : event).

Definition handle e n : NodeChannelHandler :=
  match e with
  | CommitMsg bs => (on_pbft_commit bs n).1
  | BlockMsg bs => (on_block bs n).2
  | TransactionMsg bs now => (on_transaction bs now n).2
  end.
Definition handle_all (es : list event) n : NodeChannelHandler := foldl (λ n e, handle e n) n es.

Definition solidified n : Z := get_solidified_block (n_world n).
Definition active n : list bytes := get_active_witnesses (n_world n).

(** The commit counting of one message: rejected, recorded, or recorded and finality
    advanced. *)
Lemma on_pbft_commit_cases bs n :
  on_pbft_commit bs n = (n, false) ∨
  ∃ c a S, PbftCommit.decode bs = Some c ∧ PbftCommit.recover_signer c = Some a ∧
    a ∈ active n ∧ solidified n < PbftCommit.block_num c ∧
    default ∅ (n_confirmations n !! PbftCommit.block_num c) = S ∧ (a ∉ S) ∧
    let conf := <[PbftCommit.block_num c := {[a]} ∪ S]> (n_confirmations n) in
    (on_pbft_commit bs n = (n <| n_confirmations := conf |>, true) ∨
     ∃ s, solidified_block (size <$> conf) (head n) (length (active n)) = Some s ∧ solidified n < s ∧
       on_pbft_commit bs n = (n <| n_confirmations := conf |> <| n_world ::= put_solidified_block s |>
         <| n_confirmations ::= filter (λ kv, s ≤ kv.1) |>, true)).
Proof.
  unfold on_pbft_commit, solidified, active. destruct (_ =? 1) eqn:Ea; [|by left]. cbn [negb].
  destruct (PbftCommit.decode bs) as [c|] eqn:Ec; [|by left].
  destruct (PbftCommit.recover_signer c) as [a|] eqn:Es; [|by left].
  case_bool_decide as Hin; [|by left]. cbn [negb].
  destruct (accept_pbft_message _ _ _ _) eqn:Eg; [|by left]. cbn [negb].
  unfold accept_pbft_message in Eg. bool_prop.
  set (S := default ∅ (n_confirmations n !! PbftCommit.block_num c)).
  case_bool_decide as HS.
  { left. f_equal. destruct n as [w p rq conf wi out]. cbn in *. f_equal.
    unfold upd. cbn. f_equal. apply insert_id. subst S. by destruct (conf !! _). }
  right. exists c, a, S. do 6 (split; [done || lia|]). cbv zeta.
  destruct (is_finalized _ _); [|by left].
  destruct (solidified_block _ _ _) as [s|]; [|by left].
  destruct (Z.ltb_spec (get_solidified_block (n_world n)) s); [|by left].
  right. exists s. done.
Qed.

(** A batch of one block: stored next to the head, or nothing happens. *)
Lemma apply_one_block (bs : bytes) sig g w r w' :
  apply_synced_blocks_gated [bs] sig g w = (r, w') →
  (r = Ok 1%nat ∧ ∃ b, decode bs = inr b ∧ gate sig g b = Ok () ∧
     synced_number b = head_of w + 1 ∧ is_i64 (head_of w + 1) ∧ w' = put_block b w) ∨
  (is_Ok r = false ∧ w' = w).
Proof.
  unfold apply_synced_blocks_gated. cbn [apply_synced_loop].
  unfold mbind, ST_bind, lift, gets, modify, mret, ST_ret, decode_block.
  destruct (decode bs) as [|b]; [intros [= <- <-]; by right|].
  destruct (gate sig g b) as [[]| |] eqn:Eg; [|intros [= <- <-]; by right..].
  destruct (add_i64 _ _) as [x| |] eqn:Ex; [|intros [= <- <-]; by right..].
  apply add_i64_Ok in Ex as [-> Hi].
  destruct (Z.eqb_spec (synced_number b) (head_of w + 1)); cbn [negb]; intros [= <- <-]; [|by right].
  left. split; [done|]. by exists b.
Qed.

Lemma synced_block_number (b : Block.t) h :
  synced_number b = h + 1 → is_i64 (h + 1) → h < block_number b ∧ is_i64 (block_number b).
Proof. unfold synced_number, block_number. destruct (header_raw b); intros E; [rewrite E|]; i64_lia. Qed.

Lemma put_block_active (b : Block.t) w : get_active_witnesses (put_block b w) = get_active_witnesses w.
Proof.
  unfold get_active_witnesses, put_block, put_prop_i64.
  destruct (block_id_of b), (_ <=? _), (header_raw b); cbn; rewrite ?lookup_insert_ne by done; done.
Qed.

(** ** What the node's messages keep *)

(** A relation between two states of the node that every counted commit and every stored
    block respects holds between the states before and after any message. *)
Lemma handle_preserved (P : NodeChannelHandler → Prop) e n :
  P n →
  (∀ bs n, P n → (e = CommitMsg bs ∨ ∃ w num id, n_witness n = Some w ∧ bs = own_commit w num id) →
     P (on_pbft_commit bs n).1) →
  (∀ bs b n, P n → decode bs = inr b → synced_number b = head n + 1 → is_i64 (head n + 1) →
     P (n <| n_world := put_block b (n_world n) |>)) →
  (∀ p n, P n → P (n <| n_mempool := p |>)) →
  (∀ o n, P n → P (n <| n_commit_out := o |>)) →
  P (handle e n).
Proof.
  intros HP Hc Hb Hm Ho. destruct e as [bs|bs|bs now]; cbn [handle].
  - apply Hc; by auto.
  - unfold on_block. destruct (apply_synced_blocks_gated _ _ _ _) as [r w] eqn:E.
    apply apply_one_block in E as [(-> & b & Eb & _ & En & Hi & ->)|[Hr ->]].
    + cbn. rewrite Eb. specialize (Hb bs b n HP Eb En Hi).
      destruct (header_raw b), (block_id_of b); try done. unfold emit_commit.
      destruct (n_witness _) as [w|] eqn:Ew; [|done]. repeat (case_match; try done).
      apply Ho, Hc; [done|]. right. by eexists _, _, _.
    + destruct r; [done|..]; by destruct n.
  - unfold on_transaction. destruct (decode bs); [done|]. by apply Hm.
Qed.

Lemma handle_all_app es es' n : handle_all (es ++ es') n = handle_all es' (handle_all es n).
Proof. apply foldl_app. Qed.

(** ** Stalling *)

(** Block 1 is no longer counted although the chain is final past it. *)
Definition stalled (s : Z) n : Prop :=
  1 ≤ s ∧ solidified n = s ∧ n_confirmations n !! 1 = None.

Lemma solidified_block_from_1 (conf : gmap Z nat) h t : conf !! 1 = None → solidified_block conf h t = None.
Proof. unfold solidified_block. intros E. destruct (Z.to_nat h); simpl; [done|]. rewrite E. by destruct (_ <=? _). Qed.

Lemma stalled_commit s bs n : stalled s n → stalled s (on_pbft_commit bs n).1.
Proof.
  intros (Hone & Hs & Hn).
  destruct (on_pbft_commit_cases bs n) as [->|(c & a & S & _ & _ & _ & Hlt & _ & _ & [->|(s' & E & _)])]; [done|..].
  - split_and!; [done|done|]. cbn. rewrite lookup_insert_ne by lia. done.
  - rewrite solidified_block_from_1 in E; [done|].
    rewrite lookup_fmap, lookup_insert_ne by lia. by rewrite Hn.
Qed.

Lemma solidified_put_block (b : Block.t) w : get_solidified_block (put_block b w) = get_solidified_block w.
Proof.
  unfold get_solidified_block. rewrite put_block_props, !bool_decide_eq_false_2 by done. by destruct (_ <=? _).
Qed.

Lemma stalled_handle_all s es n : stalled s n → stalled s (handle_all es n).
Proof.
  revert n. induction es as [|e es IH]; intros n Hn; [done|]. apply IH. clear IH.
  apply handle_preserved; [done| | | |].
  - intros bs m Hm _. by apply stalled_commit.
  - intros bs b m (Hone & Hs & Hc) _ _ _. split_and!; [done| |done].
    unfold solidified in *. cbn. by rewrite solidified_put_block.
  - intros p m. destruct m. done.
  - intros o m. destruct m. done.
Qed.

(** ** Quorums *)

(** A commit the node counted: received, or signed by itself. *)
Definition counted (es : list event) n (h : Z) a : Prop :=
  ∃ bs c, (CommitMsg bs ∈ es ∨ ∃ w num id, n_witness n = Some w ∧ bs = own_commit w num id) ∧
    PbftCommit.decode bs = Some c ∧ PbftCommit.block_num c = h ∧ PbftCommit.recover_signer c = Some a.
(** A quorum of active witnesses whose commits for the height were counted. *)
Definition quorum (es : list event) n (h : Z) : Prop :=
  ∃ A : gset bytes, is_finalized (size A) (length (active n)) = true ∧
    ∀ a, a ∈ A → a ∈ active n ∧ counted es n h a.

(** The counting state reached from a node without confirmations. *)
Record counting (es : list event) (n0 n : NodeChannelHandler) : Prop := {
  ct_witness : n_witness n = n_witness n0;
  ct_active : active n = active n0;
  ct_conf : ∀ h A, n_confirmations n !! h = Some A → ∀ a, a ∈ A → a ∈ active n0 ∧ counted es n0 h a;
  ct_solid : solidified n = solidified n0 ∨
    solidified n0 < solidified n ≤ head n ∧ 1 ≤ solidified n ∧
    (∀ h, is_Some (n_confirmations n !! h) → solidified n ≤ h) ∧
    ∀ h, 1 ≤ h ≤ solidified n → quorum es n0 h;
}.

Lemma solidified_put (s : Z) n :
  is_i64 s → solidified (n <| n_world ::= put_solidified_block s |>) = s ∧
  head (n <| n_world ::= put_solidified_block s |>) = head n ∧
  active (n <| n_world ::= put_solidified_block s |>) = active n.
Proof.
  intros Hs. unfold solidified, head, active. cbn. unfold put_solidified_block, get_solidified_block.
  split_and!; [by apply get_put_prop_eq|by apply get_put_prop_ne|].
  unfold get_active_witnesses, put_prop_i64. cbn. by rewrite lookup_insert_ne by done.
Qed.

Lemma counting_commit es n0 bs n :
  counting es n0 n → (CommitMsg bs ∈ es ∨ ∃ w num id, n_witness n = Some w ∧ bs = own_commit w num id) →
  counting es n0 (on_pbft_commit bs n).1.
Proof.
  intros [Hw Ha Hc Hs] Hbs. rewrite Hw in Hbs.
  destruct (on_pbft_commit_cases bs n) as [->|(c & a & S & Ec & Er & Hin & Hlt & ES & _ & Hcase)]; [done|].
  set (conf := <[PbftCommit.block_num c := {[a]} ∪ S]> (n_confirmations n)) in *.
  assert (Hconf : ∀ h A, conf !! h = Some A → ∀ x, x ∈ A → x ∈ active n0 ∧ counted es n0 h x).
  { intros h A. unfold conf. rewrite lookup_insert. case_decide as Eh; [|by apply Hc].
    intros [= <-] x [->%elem_of_singleton|Hx]%elem_of_union.
    - rewrite <-Ha. split; [done|]. exists bs, c. by split_and!.
    - apply (Hc h S); [|done]. rewrite <-Eh. subst S. by destruct (n_confirmations n !! _). }
  cbv zeta in Hcase. destruct Hcase as [->|(s & Es & Hs' & ->)].
  - constructor; [done|done|done|]. destruct Hs as [Hs|(H1' & H2' & H3' & H4')]; [by left|right].
    change (solidified n0 < solidified n ≤ head n ∧ 1 ≤ solidified n ∧
      (∀ h, is_Some (conf !! h) → solidified n ≤ h) ∧ ∀ h, 1 ≤ h ≤ solidified n → quorum es n0 h).
    split_and!; [lia|lia|lia| |done]. intros h. unfold conf. rewrite lookup_insert_is_Some.
    intros [Eh|[_ Eh]]; [lia|by apply H3'].
  - destruct (solidified_loop_spec (size <$> conf) (head n) (length (active n)) (Z.to_nat (head n)) None 1)
      as (m & _ & Hm & _ & Hl); [lia|].
    unfold solidified_block in Es. rewrite Hl in Es.
    destruct (Z.leb_spec 1 m) as [H1m|]; [|done]. injection Es as <-.
    assert (Hh : m ≤ head n) by (apply Hm; lia).
    pose proof (get_prop_is_i64 LATEST_BLOCK_NUMBER (n_world n)) as Hi.
    destruct (solidified_put m (n <| n_confirmations := conf |>)) as (E1 & E2 & E3); [unfold head in Hh; i64_lia|].
    constructor; [done|by rewrite <-Ha| |right].
    + intros h A. cbn. intros [EA _]%map_lookup_filter_Some. by apply Hconf.
    + assert (Hmono : solidified n0 ≤ solidified n) by (destruct Hs as [->|[]]; lia).
      change (solidified n0 < solidified (n <| n_confirmations := conf |> <| n_world ::= put_solidified_block m |>)
        ≤ head (n <| n_confirmations := conf |> <| n_world ::= put_solidified_block m |>) ∧
        1 ≤ solidified (n <| n_confirmations := conf |> <| n_world ::= put_solidified_block m |>) ∧
        (∀ h, is_Some (filter (λ kv, m ≤ kv.1) conf !! h) →
          solidified (n <| n_confirmations := conf |> <| n_world ::= put_solidified_block m |>) ≤ h) ∧
        ∀ h, 1 ≤ h ≤ solidified (n <| n_confirmations := conf |> <| n_world ::= put_solidified_block m |>) →
          quorum es n0 h).
      rewrite E1, E2. split_and!; [lia|exact Hh|done| |].
      * intros h [A [_ Hge]%map_lookup_filter_Some]. exact Hge.
      * intros h Hrange. destruct (Hm h Hrange) as [_ (k & Ek & Hfin)].
        rewrite lookup_fmap in Ek. apply fmap_Some in Ek as (A & EA & ->).
        exists A. rewrite <-Ha. split; [done|]. intros x Hx. rewrite Ha. by apply (Hconf h A).
Qed.

Lemma counted_mono es es' n h a : (∀ e, e ∈ es → e ∈ es') → counted es n h a → counted es' n h a.
Proof. intros Hs (bs & c & Hbs & Hc). exists bs, c. split; [|done]. destruct Hbs; [left|right]; auto. Qed.

Lemma counting_mono es es' n0 n : (∀ e, e ∈ es → e ∈ es') → counting es n0 n → counting es' n0 n.
Proof.
  intros Hs [Hw Ha Hc Hd]. constructor; [done|done| |].
  - intros h A E a Hin. destruct (Hc h A E a Hin). eauto using counted_mono.
  - destruct Hd as [|(? & ? & ? & Hq)]; [by left|right]. split_and!; try done || lia.
    intros h Hh. destruct (Hq h Hh) as (A & HA & Hm). exists A. split; [done|].
    intros a Hin. destruct (Hm a Hin). eauto using counted_mono.
Qed.

Lemma counting_handle es n0 e n : e ∈ es → counting es n0 n → counting es n0 (handle e n).
Proof.
  intros He Hn. apply handle_preserved; [done| | | |].
  - intros bs m Hm Hbs. apply counting_commit; [done|]. destruct Hbs as [->|]; auto.
  - intros bs b m [Hw Ha Hc Hs] _ En Hi. destruct (synced_block_number _ _ En Hi) as [Hlt Hib].
    assert (Hh : head m ≤ head (m <| n_world := put_block b (n_world m) |>)).
    { unfold head. cbn. rewrite put_block_head by done. lia. }
    assert (Es : solidified (m <| n_world := put_block b (n_world m) |>) = solidified m)
      by (apply solidified_put_block).
    constructor; [done| |done|].
    + rewrite <-Ha. apply put_block_active.
    + rewrite Es. destruct Hs as [|(? & ? & ? & ?)]; [by left|right]. split_and!; try done || lia.
  - intros p m []. by constructor.
  - intros p m []. by constructor.
Qed.

Lemma counting_handle_all es n0 : n_confirmations n0 = ∅ → counting es n0 (handle_all es n0).
Proof.
  intros Hc. induction es as [|e es IH] using rev_ind.
  - constructor; [done|done| |by left]. intros h A. cbn. by rewrite Hc, lookup_empty.
  - rewrite handle_all_app. cbn. apply counting_handle; [set_solver|].
    eapply counting_mono; [|exact IH]. set_solver.
Qed.
End Finality.

(** ** Accepting a block *)

Section Accept.
Context `{HashLaws} `{SecpLaws} `{!Encode TxRaw.t} `{!Encode HeaderRaw.t} `{!Encode Transaction.t}
  `{!Encode Block.t} `{!Decode Block.t} `{!Decode Transaction.t}.
Implicit Types (n : NodeChannelHandler) (b : Block.t).

(** The commit a witness signs decodes to what it signed and names its signer. *)
Lemma own_commit_valid (w : WitnessCommitter) (num : Z) (id : bytes) :
  is_i64 num → length id = 32%nat →
  ∃ c, PbftCommit.decode (own_commit w num id) = Some c ∧ PbftCommit.block_num c = num ∧
    PbftCommit.block_id c = id ∧
    PbftCommit.recover_signer c = Some (address_from_public_key (public_key (committer_key w))).
Proof.
  intros Hn Hi. unfold own_commit, sign_digest. set (d := PbftCommit.digest num id).
  set (s := sign_ecdsa_recoverable d (committer_key w)).
  assert (Hl : length (rs s) = 64%nat) by apply sign_length.
  assert (Hv : 0 ≤ recovery_id s < 4) by apply sign_recovery_id.
  assert (Hr : secp_recover d s = Some (from_secret_key (committer_key w))) by apply sign_recover.
  eexists. rewrite pbft_decode_encode; [|done|done|by rewrite length_app, Hl]. split_and!; [done..|].
  unfold PbftCommit.recover_signer. cbn [PbftCommit.block_num PbftCommit.block_id PbftCommit.signature].
  rewrite lookup_app_r, Hl, take_app_length' by (done || lia). simpl.
  rewrite (proj2 (Z.leb_le 27 (27 + recovery_id s))) by lia.
  replace (27 + recovery_id s - 27) with (recovery_id s) by lia.
  replace (mk_signature (rs s) (recovery_id s)) with s by (by destruct s).
  unfold recover. fold d. by rewrite Hr.
Qed.

Lemma on_pbft_commit_frame bs n :
  let n' := (on_pbft_commit bs n).1 in
  n_mempool n' = n_mempool n ∧ n_commit_out n' = n_commit_out n ∧ head n' = head n ∧
  w_block (n_world n') = w_block (n_world n).
Proof.
  intros n'. subst n'.
  destruct (on_pbft_commit_cases bs n) as [->|(c & a & S & _ & _ & _ & _ & _ & _ & [->|(s & _ & _ & ->)])];
    [done|done|]. split_and!; [done|done| |done].
  unfold head. cbn. by apply get_put_prop_ne.
Qed.

Lemma emit_commit_frame num id n :
  let n' := emit_commit num id n in
  n_mempool n' = n_mempool n ∧ head n' = head n ∧ w_block (n_world n') = w_block (n_world n).
Proof.
  intros n'. subst n'. unfold emit_commit. destruct (n_witness n) as [w|]; [|done].
  destruct (_ =? 1); [|done]. case_bool_decide; [|done]. cbn [negb].
  destruct (on_pbft_commit_frame (own_commit w num id) n) as (? & _ & ? & ?). done.
Qed.

(** What the node sends when it commits to a block. *)
Lemma emit_commit_sends (w : WitnessCommitter) num id n out :
  n_witness n = Some w → get_prop_i64 props.ALLOW_PBFT (n_world n) = 1 →
  committer_address w ∈ active n → n_commit_out n = Some out →
  n_commit_out (emit_commit num id n) = Some (out ++ [own_commit w num id]).
Proof.
  intros Ew Ep Ea Eo. unfold emit_commit. rewrite Ew, Ep, bool_decide_eq_true_2 by done.
  change (((λ out, out ++ [own_commit w num id]) <$> n_commit_out (on_pbft_commit (own_commit w num id) n).1)
    = Some (out ++ [own_commit w num id])).
  destruct (on_pbft_commit_frame (own_commit w num id) n) as (_ & -> & _). by rewrite Eo.
Qed.

(** A node that accepts a peer's block stores it as its new head, one above the old
    one, signed by an active witness (unless it knows no active set), serves it to peers
    from then on, and leaves its pool alone; if it is itself an active witness and PBFT is
    on, it broadcasts a commit that decodes to this block's number and id and recovers to
    its own address.  A refused block leaves the node as it was. *)
Theorem node_accepts_block (bs : bytes) n r n' :
  on_block bs n = (r, n') →
  match r with
  | Ok (Some h) =>
      ∃ b raw id, decode bs = inr b ∧ header_raw b = Some raw ∧ block_id_of b = Some id ∧
        h = head n + 1 ∧ HeaderRaw.number raw = h ∧ head n' = h ∧
        (active n ≠ [] → ∃ a, intake_ok (active n) b raw a) ∧
        get_block_by_num h (n_world n') = Some b ∧ block_bytes h n' = Some (encode_to_vec b) ∧
        n_mempool n' = n_mempool n ∧
        (∀ k out, n_witness n = Some (mk_committer k (address_from_public_key (public_key k))) →
           get_prop_i64 props.ALLOW_PBFT (n_world n) = 1 →
           address_from_public_key (public_key k) ∈ active n → n_commit_out n = Some out →
           ∃ m c, n_commit_out n' = Some (out ++ [m]) ∧ PbftCommit.decode m = Some c ∧
             PbftCommit.block_num c = h ∧ PbftCommit.block_id c = id ∧
             PbftCommit.recover_signer c = Some (address_from_public_key (public_key k)))
  | _ => n' = n
  end.
Proof.
  unfold on_block. fold (active n). set (g := if bool_decide (active n = []) then None else Some (active n)).
  destruct (apply_synced_blocks_gated _ _ _ _) as [r' w'] eqn:E.
  apply apply_one_block in E as [(-> & b & Eb & Eg & En & Hi & ->)|[Hr ->]].
  2: { destruct r'; [done|..]; intros [= <- <-]; by destruct n. }
  assert (∃ raw, header_raw b = Some raw) as [raw Er].
  { unfold gate in Eg. unfold header_raw. destruct g; simpl in Eg; revert Eg.
    - destruct (validate_block_intake b l) as [[]| |] eqn:Ev; try done. intros _.
      apply intake_iff in Ev as (raw & a & Hok). exists raw. exact (gate_raw _ _ _ _ Hok).
    - unfold validate_block, ok_or. destruct (Block.block_header b) as [hd|]; [|done]. simpl.
      destruct (BlockHeader.raw_data hd) as [raw|]; [|done]. by exists raw. }
  assert (∃ id, block_id_of b = Some id ∧ length id = 32%nat) as (id & Ei & Hl).
  { unfold block_id_of, block_hash. rewrite Er. simpl. eexists. split; [done|].
    apply block_id_length, sha256_length. }
  set (n1 := n <| n_world := put_block b (n_world n) |>).
  rewrite bool_decide_eq_true_2 by lia. cbv zeta. rewrite Eb, Er, Ei. intros [= <- <-].
  destruct (emit_commit_frame (HeaderRaw.number raw) id n1) as (Em & Eh & Ebl).
  assert (Enum : HeaderRaw.number raw = head n + 1) by (unfold synced_number in En; by rewrite Er in En).
  assert (Ebn : block_number b = head n + 1) by (unfold block_number; by rewrite Er).
  assert (Eh1 : head n1 = head n + 1).
  { unfold head, n1. cbn. rewrite put_block_head by (by rewrite Ebn). rewrite Ebn. unfold head. lia. }
  assert (Eget : get_block_by_num (head n + 1) (n_world (emit_commit (HeaderRaw.number raw) id n1)) = Some b).
  { unfold get_block_by_num. rewrite Ebl. rewrite <-Ebn. apply put_block_lookup_eq. }
  exists b, raw, id. rewrite Eh, Eh1. split_and!; try done.
  - intros Ha. unfold g in Eg. rewrite bool_decide_eq_false_2 in Eg by done. unfold gate in Eg.
    destruct (validate_block_intake b (active n)) as [[]| |] eqn:Ev; try done.
    apply intake_iff in Ev as (raw' & a & Hok). pose proof (gate_raw _ _ _ _ Hok) as Er'.
    rewrite Er in Er'. injection Er' as <-. by exists a.
  - unfold block_bytes. by rewrite Eget.
  - intros k out Ew Ep Ea Eo.
    destruct (own_commit_valid (mk_committer k (address_from_public_key (public_key k)))
      (HeaderRaw.number raw) id) as (c & Ec & Ecn & Eci & Ecs); [by rewrite Enum|done|].
    eexists _, c. split_and!; [|exact Ec|congruence|done|done].
    apply emit_commit_sends; try done.
    + unfold n1. cbn. rewrite put_block_props, !bool_decide_eq_false_2 by done. by destruct (_ <=? _).
    + cbn. unfold active, n1. cbn. by rewrite put_block_active.
Qed.

(** C15: finality is earned.  Whatever blocks, transactions and commits a node without
    confirmations handles, its solidified block never moves back; if it moved, every
    height from 1 up to it has a quorum of distinct active witnesses whose commits for
    that height the node received or signed itself, and it is not above the head. *)
Theorem solidified_has_quorum (es : list event) n :
  n_confirmations n = ∅ →
  let n' := handle_all es n in
  active n' = active n ∧ solidified n ≤ solidified n' ∧
  (solidified n < solidified n' →
     solidified n' ≤ head n' ∧ ∀ h, 1 ≤ h ≤ solidified n' → quorum es n h).
Proof.
  intros Hc n'. destruct (counting_handle_all es n Hc) as [_ Ha _ Hs]. split; [done|].
  fold n' in Hs. destruct Hs as [Hs|(Hlt & _ & _ & Hq)]; [|split; [lia|]; by split; [lia|]].
  rewrite Hs. split; [lia|]. intros. lia.
Qed.

(** Finality stalls.  Finality is recounted from block 1, whose confirmations are
    pruned once block 2 is final: as soon as a node has advanced its solidified block to 2
    or more, no further message, commits of every witness included, moves it again. *)
Theorem finality_stalls (es es' : list event) n :
  n_confirmations n = ∅ →
  let n1 := handle_all es n in
  solidified n < solidified n1 → 2 ≤ solidified n1 →
  solidified (handle_all es' n1) = solidified n1.
Proof.
  intros Hc n1 Hlt H2'. apply (stalled_handle_all (solidified n1)).
  destruct (counting_handle_all es n Hc) as [_ _ _ Hs]. fold n1 in Hs.
  destruct Hs as [Hs|(_ & _ & Hp & _)]; [lia|]. split_and!; [lia|done|].
  destruct (n_confirmations n1 !! 1) eqn:E; [|done]. specialize (Hp 1). rewrite E in Hp.
  specialize (Hp ltac:(by eexists)). lia.
Qed.
End Accept.

(** ** Samples *)

Module NodeSample.
Export IntakeSample.
#[export] Instance decode_tx : Decode Transaction.t := λ _, inl "failed to decode"%string.
(** A witness node at genesis with PBFT on, and one whose head is already 3. *)
Definition committer : WitnessCommitter := mk_committer key (address_from_public_key (public_key key)).
Definition pbft_world : world := put_prop_i64 props.ALLOW_PBFT 1 world0.
Definition node : NodeChannelHandler :=
  set_commit_handle (with_witness (Some key) (new_node pbft_world pool true)).
Definition node3 : NodeChannelHandler :=
  new_node (put_prop_i64 LATEST_BLOCK_NUMBER 3 pbft_world) pool true.
Definition commits : list event :=
  [CommitMsg (own_commit committer 1 (replicate 32 0)); CommitMsg (own_commit committer 2 (replicate 32 0))].
Definition commit3 : event := CommitMsg (own_commit committer 3 (replicate 32 0)).
End NodeSample.
Import NodeSample.

Lemma node_accepts_block_witness :
  ∃ n', on_block (i64_to_be_bytes 1) node = (Ok (Some 1), n') ∧
    block_bytes 1 n' = Some (encode_to_vec produced).
Proof.
  destruct (on_block (i64_to_be_bytes 1) node) as [r n'] eqn:E.
  pose proof (node_accepts_block (i64_to_be_bytes 1) node r n' E) as H.
  assert (Er : r = Ok (Some 1)).
  { change r with (r, n').1. rewrite <-E. by vm_compute. }
  subst r. destruct H as (b & raw & id & Eb & _ & _ & _ & _ & _ & _ & _ & Es & _).
  exists n'. split; [done|]. assert (b = produced) as -> by (vm_compute in Eb; by injection Eb as <-).
  exact Es.
Defined.

Lemma solidified_has_quorum_witness :
  solidified (handle_all commits node3) = 2 ∧ quorum commits node3 2.
Proof.
  split; [by vm_compute|].
  destruct (solidified_has_quorum commits node3) as (_ & _ & H); [done|].
  apply H; [by vm_compute|]. split; by vm_compute.
Defined.

(** The single active witness commits to block 3 as well, and nothing happens. *)
Lemma finality_stalls_witness :
  (on_pbft_commit (own_commit committer 3 (replicate 32 0)) (handle_all commits node3)).2 = true ∧
  solidified (handle_all [commit3] (handle_all commits node3)) = 2.
Proof.
  split; [by vm_compute|].
  pose proof (finality_stalls commits [commit3] node3 eq_refl) as H. cbv zeta in H. rewrite H.
  - by vm_compute.
  - by vm_compute.
  - by vm_compute.
Defined.
