(* ===== verification/Wire.v ===== *)
(** * Frames and the block-sync protocol (crates/p2p/src/message.rs, channel.rs, sync.rs)

    A message is a type byte and a payload, framed on a TCP stream by a 4-byte length.  The
    two sides of a connection are programs that write and read a byte stream ([proc]); a
    connection is the pair of them with the bytes in flight, and [step] interleaves the two
    sides in any order.  The session theorems hold for every interleaving. *)

From stdpp Require Import gmap strings pretty numbers fin_maps prelude relations.
From S2P Require Import Prelude.
Open Scope Z_scope.

(** ** Messages (message.rs) *)

Module MessageType.
Inductive t :=
| Trx | Block | Trxs | Blocks | BlockHeaders | Inventory | FetchInvData | SyncBlockChain
| BlockChainInventory | FetchBlockHeaders | BlockInventory | TrxInventory
| PbftCommit
| P2pHello | P2pDisconnect | P2pPing | P2pPong.

Definition as_u8 (k : t) : Z :=
  match k with
  | Trx => 1 | Block => 2 | Trxs => 3 | Blocks => 4 | BlockHeaders => 5 | Inventory => 6
  | FetchInvData => 7 | SyncBlockChain => 8 | BlockChainInventory => 9
  | FetchBlockHeaders => 17 | BlockInventory => 18 | TrxInventory => 19 | PbftCommit => 20
  | P2pHello => 32 | P2pDisconnect => 33 | P2pPing => 34 | P2pPong => 35
  end.
Definition from_u8 (b : Z) : option t :=
  match b with
  | 1 => Some Trx | 2 => Some Block | 3 => Some Trxs | 4 => Some Blocks
  | 5 => Some BlockHeaders | 6 => Some Inventory | 7 => Some FetchInvData
  | 8 => Some SyncBlockChain | 9 => Some BlockChainInventory
  | 17 => Some FetchBlockHeaders | 18 => Some BlockInventory | 19 => Some TrxInventory
  | 20 => Some PbftCommit
  | 32 => Some P2pHello | 33 => Some P2pDisconnect | 34 => Some P2pPing | 35 => Some P2pPong
  | _ => None
  end.

#[global] Instance eq_dec : EqDecision t.
Proof. solve_decision. Defined.

Lemma kind_from_as_u8 k : from_u8 (as_u8 k) = Some k.
Proof. by destruct k. Qed.
Lemma kind_as_from_u8 b k : from_u8 b = Some k → as_u8 k = b.
Proof. intros E. unfold from_u8 in E. repeat (case_match; try done); by injection E as <-. Qed.
End MessageType.

Definition MAX_MESSAGE_SIZE : Z := 5 * 1024 * 1024.

Inductive FrameError :=
| Empty
| UnknownType (b : Z)
| FrameTooLarge (n : Z).

Module Frame.
Record t := mk { kind : MessageType.t; payload : bytes }.

Definition encode (f : t) : bytes := MessageType.as_u8 (kind f) :: payload f.
Definition decode (bs : bytes) : res FrameError t :=
  match bs with
  | [] => Err Empty
  | first :: rest =>
      if MAX_MESSAGE_SIZE <? Z.of_nat (length rest) then Err (FrameTooLarge (Z.of_nat (length rest))) else
      kind ← ok_or (UnknownType first) (MessageType.from_u8 first);
      Ok (mk kind rest)
  end.
End Frame.
Abbreviation Frame := Frame.t.

(** ** Stream programs

    The asynchronous functions of channel.rs use their stream through [write_all] and
    [read_exact] only: a program writes bytes, waits for an exact number of bytes, or has
    returned. *)

Inductive io_error := UnexpectedEof | BrokenPipe.

Inductive proc (A : Type) : Type :=
| Done (a : A)
| WriteAll (bs : bytes) (k : option io_error → proc A)
| ReadExact (n : nat) (k : bytes + io_error → proc A).
Arguments Done {A} a.
Arguments WriteAll {A} bs k.
Arguments ReadExact {A} n k.

Fixpoint proc_bind_def {A B} (f : A → proc B) (p : proc A) : proc B :=
  match p with
  | Done a => f a
  | WriteAll bs k => WriteAll bs (λ r, proc_bind_def f (k r))
  | ReadExact n k => ReadExact n (λ r, proc_bind_def f (k r))
  end.

Inductive ChannelError :=
| Io (e : io_error)
| FrameErr (e : FrameError)
| TooLarge (n : Z).

(** A stream program with a [Result]; [?] stops it. *)
Definition chan (A : Type) : Type := proc (res ChannelError A).
#[export] Instance chan_ret : MRet chan := λ A a, Done (Ok a).
#[export] Instance chan_bind : MBind chan := λ A B f p,
  proc_bind_def (λ r : res ChannelError A,
    match r with Ok a => f a | Err e => Done (Err e) | Panic => Done Panic end) p.
(** [match p.await { .. }] *)
Definition match_result {A B} (f : res ChannelError A → chan B) (p : chan A) : chan B :=
  proc_bind_def f p.
Definition fail {A} (e : ChannelError) : chan A := Done (Err e).

Definition write_all (bs : bytes) : chan () :=
  WriteAll bs (λ r, match r with None => Done (Ok ()) | Some e => Done (Err (Io e)) end).
Definition read_exact (n : nat) : chan bytes :=
  ReadExact n (λ r, match r with inl bs => Done (Ok bs) | inr e => Done (Err (Io e)) end).

(** ** Framed I/O (channel.rs) *)

Definition write_frame (f : Frame) : chan () :=
  let body := Frame.encode f in
  _ ← write_all (to_be_bytes 4 (Z.of_nat (length body)));
  write_all body.

Definition read_frame : chan Frame :=
  len_buf ← read_exact 4;
  let len := from_be_unsigned len_buf in
  if MAX_MESSAGE_SIZE + 1 <? len then fail (TooLarge len) else
  body ← read_exact (Z.to_nat len);
  match Frame.decode body with
  | Ok f => mret f
  | Err e => fail (FrameErr e)
  | Panic => Done Panic
  end.

(** [if f.kind != kind { return Err(..UnknownType(f.kind as u8)) }] *)
Definition expect (kind : MessageType.t) (f : Frame) : chan () :=
  if bool_decide (Frame.kind f = kind) then mret ()
  else fail (FrameErr (UnknownType (MessageType.as_u8 (Frame.kind f)))).

Definition accept_handshake (our_hello : bytes) : chan bytes :=
  peer ← read_frame;
  _ ← expect MessageType.P2pHello peer;
  _ ← write_frame (Frame.mk MessageType.P2pHello our_hello);
  mret (Frame.payload peer).

Definition encode_numbers (nums : list Z) : bytes := nums ≫= i64_to_be_bytes.
(** [chunks_exact(8)]: a shorter rest is dropped. *)
Fixpoint decode_numbers (bs : bytes) : list Z :=
  match bs with
  | b0 :: b1 :: b2 :: b3 :: b4 :: b5 :: b6 :: b7 :: rest =>
      i64_from_be_bytes [b0; b1; b2; b3; b4; b5; b6; b7] :: decode_numbers rest
  | _ => []
  end.
Definition first_number (bs : bytes) : Z := default (-1) (head (decode_numbers bs)).

(** ** Block sync (channel.rs, sync.rs) *)

(** The request loop of [serve_sync]; [fuel] bounds the requests it waits for, and running
    out of it (reported as [Panic]) is excluded by the session theorem. *)
Fixpoint serve_loop (fuel : nat) (block_bytes : Z → option bytes) (served : nat) : chan nat :=
  match fuel with
  | O => Done Panic
  | S fuel =>
      match_result (λ r : res ChannelError Frame,
        match r with
        | Ok f =>
            if bool_decide (Frame.kind f = MessageType.FetchInvData) then
              _ ← write_frame (Frame.mk MessageType.Block
                    (default [] (block_bytes (first_number (Frame.payload f)))));
              serve_loop fuel block_bytes (S served)
            else mret served
        | Err (Io UnexpectedEof) => mret served
        | Err e => fail e
        | Panic => Done Panic
        end) read_frame
  end.
Definition serve_sync (fuel : nat) (have : list Z) (block_bytes : Z → option bytes) : chan nat :=
  req ← read_frame;
  _ ← expect MessageType.SyncBlockChain req;
  let peer_head := first_number (Frame.payload req) in
  let offer := filter (λ n, peer_head < n) have in
  _ ← write_frame (Frame.mk MessageType.BlockInventory (encode_numbers offer));
  serve_loop fuel block_bytes 0.

(** The fetch loop of [sync_from], with the blocks received so far. *)
Fixpoint fetch_loop (numbers : list Z) (out : list (Z * bytes)) : chan (list (Z * bytes)) :=
  match numbers with
  | [] => mret out
  | n :: numbers =>
      _ ← write_frame (Frame.mk MessageType.FetchInvData (encode_numbers [n]));
      block ← read_frame;
      fetch_loop numbers (out ++ [(n, Frame.payload block)])
  end.
Definition sync_from (our_head : Z) : chan (list (Z * bytes)) :=
  _ ← write_frame (Frame.mk MessageType.SyncBlockChain (encode_numbers [our_head]));
  inv ← read_frame;
  _ ← expect MessageType.BlockInventory inv;
  fetch_loop (decode_numbers (Frame.payload inv)) [].

Definition MAX_FETCH_PER_ROUND : nat := 2000.
Definition blocks_to_fetch (our_head : Z) (peer_inventory : list Z) : list Z :=
  take MAX_FETCH_PER_ROUND (filter (λ n, our_head < n) peer_inventory).
Definition peer_is_ahead (our_head peer_head : Z) : bool := our_head <? peer_head.

(** ** A connection *)

(** What a party does next, given the bytes waiting for it and whether the other side has
    closed: the rest of its program, the bytes still waiting, and the bytes it sent.  [None]
    when it has returned or must wait. *)
Definition pstep {A} (p : proc A) (inbox : bytes) (closed : bool) : option (proc A * bytes * bytes) :=
  match p with
  | Done _ => None
  | WriteAll bs k => Some (k None, inbox, bs)
  | ReadExact n k =>
      if bool_decide (n ≤ length inbox)%nat then Some (k (inl (take n inbox)), drop n inbox, [])
      else if closed then Some (k (inr UnexpectedEof), [], []) else None
  end.
Definition is_done {A} (p : proc A) : bool := match p with Done _ => true | _ => false end.

Record net (A B : Type) := mk_net { client : proc A; server : proc B; to_server : bytes; to_client : bytes }.
Arguments mk_net {A B} _ _ _ _.
Arguments client {A B} _.
Arguments server {A B} _.
Arguments to_server {A B} _.
Arguments to_client {A B} _.

Inductive step {A B} : net A B → net A B → Prop :=
| step_client c s cs sc c' sc' sent :
    pstep c sc (is_done s) = Some (c', sc', sent) →
    step (mk_net c s cs sc) (mk_net c' s (cs ++ sent) sc')
| step_server c s cs sc s' cs' sent :
    pstep s cs (is_done c) = Some (s', cs', sent) →
    step (mk_net c s cs sc) (mk_net c s' cs' (sc ++ sent)).

(** ** Interleavings *)

Section Uniform.
Context {S : Type} (R : relation S).
(** Two different steps can be followed by one step each to the same state. *)
Definition uniform : Prop := ∀ x y z, R x y → R x z → y = z ∨ ∃ u, R y u ∧ R z u.

Lemma uniform_step n x y z :
  uniform → nsteps R n x y → nf R y → R x z → ∃ m, n = Datatypes.S m ∧ nsteps R m z y.
Proof.
  intros Hu. revert x z. induction n as [|n IH]; intros x z Hn Hf Hz.
  { inversion Hn; subst. destruct Hf. by exists z. }
  inversion Hn as [|? ? x1 ? Hx1 Hn1]; subst. exists n. split; [done|].
  destruct (Hu x x1 z Hx1 Hz) as [->|(u & Hu1 & Hu2)]; [done|].
  destruct (IH x1 u Hn1 Hf Hu1) as (m & -> & Hm). by eapply nsteps_l.
Qed.

(** One run to a normal form decides the fate of all runs. *)
Lemma uniform_all x y :
  uniform → rtc R x y → nf R y → sn R x ∧ ∀ z, rtc R x z → rtc R z y ∧ (nf R z → z = y).
Proof.
  intros Hu [n Hn]%rtc_nsteps_1 Hf. split.
  - revert x Hn. induction n as [|n IH]; intros x Hn; constructor; intros z Hz;
      destruct (uniform_step _ _ _ _ Hu Hn Hf Hz) as (m & E & Hm); [done|].
    injection E as ->. by apply IH.
  - intros z Hz. revert n Hn. induction Hz as [x|x w z Hxw _ IH]; intros n Hn.
    + split; [by eapply rtc_nsteps_2|]. intros Hx. inversion Hn; subst; [done|]. destruct Hx. by eexists.
    + destruct (uniform_step _ _ _ _ Hu Hn Hf Hxw) as (m & -> & Hm). by eapply IH.
Qed.
End Uniform.

Section Net.
Context {A B : Type}.
Implicit Types (c : proc A) (s : proc B) (x y z : net A B).

(** What a party does is not affected by bytes that arrive later. *)
Lemma pstep_mono {C} (p : proc C) inbox closed p' inbox' sent more :
  pstep p inbox closed = Some (p', inbox', sent) → (closed = true → more = []) →
  ∀ closed', (closed = true → closed' = true) →
  pstep p (inbox ++ more) closed' = Some (p', inbox' ++ more, sent).
Proof.
  intros E Hm closed' Hc. destruct p as [|bs k|n k]; simpl in *; [done|by injection E as <- <- <-|].
  case_bool_decide as Hn.
  - injection E as <- <- <-. rewrite bool_decide_eq_true_2 by (rewrite length_app; lia).
    by rewrite take_app_le, drop_app_le by done.
  - destruct closed; [|done]. injection E as <- <- <-. rewrite Hm, app_nil_r by done.
    rewrite bool_decide_eq_false_2 by done. by rewrite Hc.
Qed.

Lemma pstep_not_done {C} (p : proc C) inbox closed r : pstep p inbox closed = Some r → is_done p = false.
Proof. by destruct p. Qed.

Lemma step_uniform : uniform (@step A B).
Proof.
  intros x y z Hy Hz.
  inversion Hy as [c s cs sc c' sc' sent E|c s cs sc s' cs' sent E]; subst;
    inversion Hz as [????????E'|????????E']; subst.
  - left. rewrite E in E'. by injection E' as <- <- <-.
  - right. eexists. split; [apply step_server; eapply (pstep_mono _ _ _ _ _ _ sent E')
      |apply step_client; eapply (pstep_mono _ _ _ _ _ _ sent0 E)];
      intros Hd; apply pstep_not_done in E, E'; congruence.
  - right. eexists. split; [apply step_client; eapply (pstep_mono _ _ _ _ _ _ sent E')
      |apply step_server; eapply (pstep_mono _ _ _ _ _ _ sent0 E)];
      intros Hd; apply pstep_not_done in E, E'; congruence.
  - left. rewrite E in E'. by injection E' as <- <- <-.
Qed.
End Net.

(** ** Runs of one party *)

Inductive pruns {A} (closed : bool) : proc A → bytes → proc A → bytes → bytes → Prop :=
| pruns_nil p i : pruns closed p i p i []
| pruns_cons p i p1 i1 o1 p2 i2 o2 :
    pstep p i closed = Some (p1, i1, o1) → pruns closed p1 i1 p2 i2 o2 →
    pruns closed p i p2 i2 (o1 ++ o2).

Section Runs.
Context {A B : Type}.

Lemma pruns_trans closed (p1 p2 p3 : proc A) i1 i2 i3 o1 o2 :
  pruns closed p1 i1 p2 i2 o1 → pruns closed p2 i2 p3 i3 o2 → pruns closed p1 i1 p3 i3 (o1 ++ o2).
Proof.
  induction 1 as [|????????? IH]; intros Hr; [done|]. rewrite <-app_assoc. eapply pruns_cons; eauto.
Qed.

Lemma pruns_one closed (p p1 : proc A) i i1 o1 :
  pstep p i closed = Some (p1, i1, o1) → pruns closed p i p1 i1 o1.
Proof. intros E. rewrite <-(app_nil_r o1). eapply pruns_cons; [done|apply pruns_nil]. Qed.

(** A program inside a larger one takes the same steps. *)
Lemma pruns_bind closed (f : A → proc B) (p p' : proc A) i i' o :
  pruns closed p i p' i' o → pruns closed (proc_bind_def f p) i (proc_bind_def f p') i' o.
Proof.
  induction 1 as [|p i p1 i1 o1 p2 i2 o2 E _ IH]; [apply pruns_nil|]. eapply pruns_cons; [|exact IH].
  destruct p as [|bs k|n k]; cbn in *; [done|by injection E as <- <- <-|].
  repeat case_match; simplify_eq; done.
Qed.

Lemma client_runs (c c' : proc A) (s : proc B) cs sc sc' out :
  pruns (is_done s) c sc c' sc' out → rtc step (mk_net c s cs sc) (mk_net c' s (cs ++ out) sc').
Proof.
  intros H. revert cs. induction H as [|p i p1 i1 o1 p2 i2 o2 E _ IH]; intros cs.
  - by rewrite app_nil_r.
  - rewrite app_assoc. eapply rtc_l; [by apply step_client|apply IH].
Qed.
Lemma server_runs (c : proc A) (s s' : proc B) cs cs' sc out :
  pruns (is_done c) s cs s' cs' out → rtc step (mk_net c s cs sc) (mk_net c s' cs' (sc ++ out)).
Proof.
  intros H. revert sc. induction H as [|p i p1 i1 o1 p2 i2 o2 E _ IH]; intros sc.
  - by rewrite app_nil_r.
  - rewrite app_assoc. eapply rtc_l; [by apply step_server|apply IH].
Qed.
Lemma net_done_nf (a : A) (b : B) cs sc : nf step (mk_net (Done a) (Done b) cs sc).
Proof. intros [y Hy]. by inversion Hy. Qed.
End Runs.

(** The bytes of a frame on the stream. *)
Definition frame_bytes (f : Frame) : bytes :=
  to_be_bytes 4 (Z.of_nat (length (Frame.encode f))) ++ Frame.encode f.
Definition frame_ok (f : Frame) : Prop := Z.of_nat (length (Frame.payload f)) ≤ MAX_MESSAGE_SIZE.

Lemma frame_decode_encode f : frame_ok f → Frame.decode (Frame.encode f) = Ok f.
Proof.
  intros Hf. destruct f as [k p]. unfold Frame.decode, Frame.encode. cbn [Frame.kind Frame.payload].
  rewrite (proj2 (Z.ltb_ge _ _)) by done. by rewrite MessageType.kind_from_as_u8.
Qed.
Lemma frame_encode_decode bs f : Frame.decode bs = Ok f → Frame.encode f = bs ∧ frame_ok f.
Proof.
  unfold Frame.decode. destruct bs as [|b rest]; [done|].
  destruct (Z.ltb_spec MAX_MESSAGE_SIZE (Z.of_nat (length rest))); [done|].
  destruct (MessageType.from_u8 b) as [k|] eqn:E; [|done]. intros [= <-].
  unfold Frame.encode. cbn. by rewrite (MessageType.kind_as_from_u8 _ _ E).
Qed.

Lemma frame_header_length f : length (to_be_bytes 4 (Z.of_nat (length (Frame.encode f)))) = 4%nat.
Proof. apply to_be_bytes_length. Qed.
Lemma frame_header_value f :
  Z.of_nat (length (Frame.payload f)) + 1 < 2 ^ 32 →
  from_be_unsigned (to_be_bytes 4 (Z.of_nat (length (Frame.encode f))))
    = Z.of_nat (length (Frame.payload f)) + 1.
Proof.
  intros Hl. rewrite from_to_be_bytes. change (8 * Z.of_nat 4) with 32.
  unfold Frame.encode. cbn [length]. rewrite Z.mod_small; lia.
Qed.

Section FrameRuns.
Context {A : Type}.

Lemma write_frame_runs closed f (k : () → chan A) i :
  pruns closed (write_frame f ≫= k) i (k ()) i (frame_bytes f).
Proof.
  unfold frame_bytes. eapply pruns_cons; [done|]. by apply pruns_one.
Qed.

(** Reading the header: the declared length decides. *)
Definition read_body : bytes + io_error → chan Frame := λ r,
  match r with
  | inl len_buf =>
      let len := from_be_unsigned len_buf in
      if MAX_MESSAGE_SIZE + 1 <? len then fail (TooLarge len) else
      body ← read_exact (Z.to_nat len);
      match Frame.decode body with Ok f => mret f | Err e => fail (FrameErr e) | Panic => Done Panic end
  | inr e => fail (Io e)
  end.
Lemma read_frame_header closed (g : res ChannelError Frame → chan A) hd i :
  length hd = 4%nat →
  pruns closed (match_result g read_frame) (hd ++ i) (match_result g (read_body (inl hd))) i [].
Proof.
  intros Hl. apply pruns_one. simpl.
  rewrite bool_decide_eq_true_2 by (rewrite length_app; lia).
  by rewrite take_app_length', drop_app_length' by done.
Qed.

Lemma read_frame_runs closed (g : res ChannelError Frame → chan A) f i :
  frame_ok f → pruns closed (match_result g read_frame) (frame_bytes f ++ i) (g (Ok f)) i [].
Proof.
  intros Hf. unfold frame_bytes. rewrite <-app_assoc.
  eapply (pruns_trans _ _ _ _ _ _ _ [] []); [apply read_frame_header, frame_header_length|].
  unfold frame_ok, MAX_MESSAGE_SIZE in Hf. unfold read_body. rewrite frame_header_value by lia.
  cbv zeta. rewrite (proj2 (Z.ltb_ge _ _)) by (unfold MAX_MESSAGE_SIZE; lia).
  assert (Hl : Z.to_nat (Z.of_nat (length (Frame.payload f)) + 1) = length (Frame.encode f))
    by (unfold Frame.encode; cbn [length]; lia).
  rewrite Hl. apply pruns_one. unfold match_result, read_exact. cbn [proc_bind_def mbind chan_bind pstep].
  rewrite bool_decide_eq_true_2 by (rewrite length_app; lia).
  rewrite take_app_length, drop_app_length, frame_decode_encode by done. done.
Qed.

Lemma read_frame_bind closed f (k : Frame → chan A) i :
  frame_ok f → pruns closed (read_frame ≫= k) (frame_bytes f ++ i) (k f) i [].
Proof.
  exact (read_frame_runs closed
    (λ r, match r with Ok a => k a | Err e => Done (Err e) | Panic => Done Panic end) f i).
Qed.

Lemma read_frame_eof (g : res ChannelError Frame → chan A) :
  pruns true (match_result g read_frame) [] (g (Err (Io UnexpectedEof))) [] [].
Proof. by apply pruns_one. Qed.

Lemma read_frame_too_large closed (g : res ChannelError Frame → chan A) f i :
  MAX_MESSAGE_SIZE < Z.of_nat (length (Frame.payload f)) < 2 ^ 32 - 1 →
  pruns closed (match_result g read_frame) (frame_bytes f ++ i)
    (g (Err (TooLarge (Z.of_nat (length (Frame.payload f)) + 1)))) (Frame.encode f ++ i) [].
Proof.
  intros Hf. unfold frame_bytes. rewrite <-app_assoc.
  eapply (pruns_trans _ _ _ _ _ _ _ [] []); [apply read_frame_header, frame_header_length|].
  unfold read_body. rewrite frame_header_value by lia.
  cbv zeta. rewrite (proj2 (Z.ltb_lt _ _)) by lia. apply pruns_nil.
Qed.
Lemma read_frame_bind_too_large closed f (k : Frame → chan A) i :
  MAX_MESSAGE_SIZE < Z.of_nat (length (Frame.payload f)) < 2 ^ 32 - 1 →
  pruns closed (read_frame ≫= k) (frame_bytes f ++ i)
    (fail (TooLarge (Z.of_nat (length (Frame.payload f)) + 1))) (Frame.encode f ++ i) [].
Proof.
  exact (read_frame_too_large closed
    (λ r, match r with Ok a => k a | Err e => Done (Err e) | Panic => Done Panic end) f i).
Qed.
End FrameRuns.

(** ** Sync sessions *)

Lemma encode_numbers_length l : length (encode_numbers l) = (8 * length l)%nat.
Proof.
  induction l as [|n l IH]; [done|]. unfold encode_numbers in *. cbn [mbind list_bind].
  rewrite length_app, i64_to_be_bytes_length. cbn [length]. lia.
Qed.
Lemma decode_encode_numbers l : Forall is_i64 l → decode_numbers (encode_numbers l) = l.
Proof.
  induction 1 as [|n l Hn _ IH]; [done|]. unfold encode_numbers in *. cbn [mbind list_bind].
  pose proof (i64_to_be_bytes_length n) as Hl. pose proof (i64_be_roundtrip n Hn) as Hr.
  destruct (i64_to_be_bytes n) as [|? [|? [|? [|? [|? [|? [|? [|? [|]]]]]]]]]; try done.
  cbn [app decode_numbers]. by rewrite Hr, IH.
Qed.
Lemma first_number_encode n : is_i64 n → first_number (encode_numbers [n]) = n.
Proof. intros. unfold first_number. by rewrite decode_encode_numbers by (by constructor). Qed.

(** The blocks above [h] a peer has, and what it answers to a request. *)
Definition offered (have : list Z) (h : Z) : list Z := filter (λ n, h < n) have.
Definition answer (block_bytes : Z → option bytes) (n : Z) : Z * bytes := (n, default [] (block_bytes n)).

Section Session.
Context (block_bytes : Z → option bytes).

(** One request and its answer. *)
Lemma fetch_round n ns out fuel served :
  is_i64 n → Z.of_nat (length (answer block_bytes n).2) ≤ MAX_MESSAGE_SIZE →
  rtc step (mk_net (fetch_loop (n :: ns) out) (serve_loop (S fuel) block_bytes served) [] [])
    (mk_net (fetch_loop ns (out ++ [answer block_bytes n])) (serve_loop fuel block_bytes (S served)) [] []).
Proof.
  intros Hn Hb.
  set (req := Frame.mk MessageType.FetchInvData (encode_numbers [n])).
  set (blk := Frame.mk MessageType.Block (answer block_bytes n).2).
  assert (Hreq : frame_ok req) by (unfold frame_ok; cbn [req Frame.payload]; rewrite encode_numbers_length; done).
  etrans; [apply client_runs, (write_frame_runs _ req)|].
  etrans; [apply server_runs|].
  { rewrite app_nil_l, <-(app_nil_r (frame_bytes req)).
    eapply pruns_trans; [by apply (read_frame_runs _ _ req)|].
    cbn [req Frame.kind Frame.payload]. rewrite bool_decide_eq_true_2, first_number_encode by done.
    apply (write_frame_runs _ blk). }
  rewrite !app_nil_l. apply (client_runs _ _ _ [] (frame_bytes blk) [] []).
  rewrite <-(app_nil_r (frame_bytes blk)). by apply (read_frame_bind _ blk
    (λ block, fetch_loop ns (out ++ [(n, Frame.payload block)]))).
Qed.

Lemma fetch_rounds ns out fuel served :
  Forall is_i64 ns → Forall (λ n, Z.of_nat (length (answer block_bytes n).2) ≤ MAX_MESSAGE_SIZE) ns →
  rtc step (mk_net (fetch_loop ns out) (serve_loop (length ns + fuel) block_bytes served) [] [])
    (mk_net (Done (Ok (out ++ (answer block_bytes <$> ns))))
       (serve_loop fuel block_bytes (length ns + served)) [] []).
Proof.
  intros Hn. revert out served. induction Hn as [|n ns Hn _ IH]; intros out served Hb.
  { cbn. by rewrite app_nil_r. }
  inversion Hb; subst. cbn [length Nat.add]. etrans; [by apply fetch_round|].
  rewrite <-Nat.add_succ_r. replace (out ++ (answer block_bytes <$> n :: ns))
    with ((out ++ [answer block_bytes n]) ++ (answer block_bytes <$> ns)) by (by rewrite <-app_assoc).
  by apply IH.
Qed.

(** The whole session, up to the client's answer and the server's end of file. *)
Lemma sync_session_run h have fuel :
  is_i64 h → Forall is_i64 have → let offer := offered have h in
  8 * Z.of_nat (length offer) ≤ MAX_MESSAGE_SIZE →
  Forall (λ n, Z.of_nat (length (answer block_bytes n).2) ≤ MAX_MESSAGE_SIZE) offer →
  (length offer < fuel)%nat →
  rtc step (mk_net (sync_from h) (serve_sync fuel have block_bytes) [] [])
    (mk_net (Done (Ok (answer block_bytes <$> offer))) (Done (Ok (length offer))) [] []).
Proof.
  intros Hh Hhave offer Hsize Hb Hfuel.
  set (req := Frame.mk MessageType.SyncBlockChain (encode_numbers [h])).
  set (inv := Frame.mk MessageType.BlockInventory (encode_numbers offer)).
  assert (Hreq : frame_ok req) by (unfold frame_ok; cbn [req Frame.payload]; rewrite encode_numbers_length; done).
  assert (Hinv : frame_ok inv) by (unfold frame_ok; cbn [inv Frame.payload]; rewrite encode_numbers_length; lia).
  assert (Hoffer : Forall is_i64 offer).
  { apply Forall_forall. intros n Hn. apply list_elem_of_filter in Hn as [_ Hn].
    by apply (Forall_forall is_i64 have). }
  etrans; [apply client_runs, (write_frame_runs _ req)|].
  etrans; [apply server_runs|].
  { rewrite app_nil_l, <-(app_nil_r (frame_bytes req)).
    eapply pruns_trans; [by apply (read_frame_bind _ req)|].
    cbn [req Frame.kind Frame.payload]. unfold expect. cbn [Frame.kind].
    rewrite bool_decide_eq_true_2, first_number_encode by done. apply (write_frame_runs _ inv). }
  rewrite !app_nil_l. etrans.
  { eapply (client_runs _ _ _ [] (frame_bytes inv) [] []).
    rewrite <-(app_nil_r (frame_bytes inv)). by apply (read_frame_bind _ inv). }
  unfold expect. cbn [inv Frame.kind Frame.payload].
  rewrite bool_decide_eq_true_2, decode_encode_numbers by done.
  replace fuel with (length offer + S (fuel - length offer - 1))%nat by lia.
  etrans; [by apply (fetch_rounds offer [])|]. rewrite Nat.add_0_r.
  apply (server_runs _ _ _ [] [] [] []), read_frame_eof.
Qed.
End Session.

(** A sync session delivers the peer's chain, whatever the interleaving.  A client that
    announces head [h] to a peer serving [have], with an inventory and blocks within the
    message limit: every schedule of the two sides ends, in one state, where the client
    holds the encoded block of every number above [h] the peer has, in the peer's order, the
    server has counted exactly those, and no byte is left in flight. *)
Theorem sync_session (block_bytes : Z → option bytes) (h : Z) (have : list Z) (fuel : nat) :
  is_i64 h → Forall is_i64 have → 8 * Z.of_nat (length (offered have h)) ≤ MAX_MESSAGE_SIZE →
  Forall (λ n, Z.of_nat (length (answer block_bytes n).2) ≤ MAX_MESSAGE_SIZE) (offered have h) →
  (length (offered have h) < fuel)%nat →
  let start := mk_net (sync_from h) (serve_sync fuel have block_bytes) [] [] in
  let final := mk_net (Done (Ok (answer block_bytes <$> offered have h)))
                 (Done (Ok (length (offered have h)))) [] [] in
  sn step start ∧ ∀ x, rtc step start x → rtc step x final ∧ (nf step x → x = final).
Proof.
  intros Hh Hhave Hs Hb Hf start final. apply uniform_all; [apply step_uniform| |apply net_done_nf].
  by apply sync_session_run.
Qed.

Lemma sync_session_witness :
  let block_bytes := λ n, if n =? 3 then None else Some [n; n] in
  let start := mk_net (sync_from 1) (serve_sync 3 [0; 1; 2; 3] block_bytes) [] [] in
  sn step start ∧
  rtc step start (mk_net (Done (Ok [(2, [2; 2]); (3, [])])) (Done (Ok 2%nat)) [] []).
Proof.
  intros block_bytes start.
  destruct (sync_session block_bytes 1 [0; 1; 2; 3] 3) as [Hsn Hall];
    [by apply (bool_decide_unpack _)..|].
  split; [exact Hsn|]. by apply (Hall start).
Defined.

(** An inventory over the message limit is refused by the client before any block is
    fetched. *)
Lemma sync_session_oversized (block_bytes : Z → option bytes) (h : Z) (have : list Z) (fuel : nat) :
  is_i64 h → MAX_MESSAGE_SIZE < 8 * Z.of_nat (length (offered have h)) < 2 ^ 32 - 1 → (0 < fuel)%nat →
  let start := mk_net (sync_from h) (serve_sync fuel have block_bytes) [] [] in
  sn step start ∧ ∀ x, rtc step start x → nf step x →
    client x = Done (Err (TooLarge (8 * Z.of_nat (length (offered have h)) + 1))) ∧
    server x = Done (Ok 0%nat).
Proof.
  intros Hh Hsize Hf start. destruct fuel as [|fuel]; [lia|].
  set (req := Frame.mk MessageType.SyncBlockChain (encode_numbers [h])).
  set (inv := Frame.mk MessageType.BlockInventory (encode_numbers (offered have h))).
  assert (Hreq : frame_ok req) by (unfold frame_ok; cbn [req Frame.payload]; rewrite encode_numbers_length; done).
  assert (Hl : Z.of_nat (length (Frame.payload inv)) = 8 * Z.of_nat (length (offered have h)))
    by (cbn [inv Frame.payload]; rewrite encode_numbers_length; lia).
  assert (Hrun : rtc step start (mk_net (Done (Err (TooLarge (8 * Z.of_nat (length (offered have h)) + 1))))
    (Done (Ok 0%nat)) [] ((Frame.encode inv ++ []) ++ []))).
  { etrans; [apply client_runs, (write_frame_runs _ req)|]. etrans; [apply server_runs|].
    { rewrite app_nil_l, <-(app_nil_r (frame_bytes req)).
      eapply pruns_trans; [by apply (read_frame_bind _ req)|].
      cbn [req Frame.kind Frame.payload]. unfold expect. cbn [Frame.kind].
      rewrite bool_decide_eq_true_2, first_number_encode by done. apply (write_frame_runs _ inv). }
    rewrite !app_nil_l, <-(app_nil_r (frame_bytes inv)), <-Hl. etrans.
    { eapply (client_runs _ _ _ [] (frame_bytes inv ++ []) (Frame.encode inv ++ []) []).
      apply read_frame_bind_too_large. lia. }
    apply (server_runs _ _ _ [] [] _ []), read_frame_eof. }
  destruct (uniform_all _ _ _ step_uniform Hrun (net_done_nf _ _ _ _)) as [Hsn Hall].
  split; [done|]. intros x Hx Hnf. by rewrite (proj2 (Hall x Hx) Hnf).
Qed.
