(* ===== verification/Peers.v ===== *)
(** * Node discovery and the peer set
      (crates/p2p/src/lib.rs, peer.rs, discovery.rs, discovery_codec.rs, discovery_service.rs)

    The Kademlia metric and routing table, the discovery datagrams and their codec, the peer
    manager, and the discovery service as transitions of its table, peer set and outgoing
    datagrams. *)

From stdpp Require Import gmap strings pretty numbers fin_maps prelude sorting.
From S2P Require Import Prelude.
Open Scope Z_scope.

(** ** Peers (lib.rs, peer.rs) *)

Definition DEFAULT_P2P_PORT : Z := 18888.

Record PeerAddr := mk_peer_addr { host : string; port : Z }.
#[export] Instance PeerAddr_eq_dec : EqDecision PeerAddr.
Proof. solve_decision. Defined.

Module PeerInfo.
Record t := mk { addr : PeerAddr; head : Z; last_seen : Z }.
#[global] Instance eta : Eta t := λ p, mk (addr p) (head p) (last_seen p).
End PeerInfo.
Abbreviation PeerInfo := PeerInfo.t.

(** [HashMap] iteration visits every entry once, in an order that is not specified. *)
Class MapIter := map_values : gmap string PeerInfo → list PeerInfo.
Class MapIterLaws `{MapIter} := map_values_perm : ∀ m, map_values m ≡ₚ (map_to_list m).*2.

Module PeerManager.
Abbreviation t := (gmap string PeerInfo).

Definition new : t := ∅.
Definition key (a : PeerAddr) : string := host a +:+ ":" +:+ pretty (port a).
Definition len (pm : t) : nat := size pm.
Definition is_empty (pm : t) : bool := bool_decide (size pm = 0%nat).
Definition upsert (a : PeerAddr) (head now : Z) (pm : t) : t :=
  <[key a := PeerInfo.mk a head now]> pm.
Definition update_head (a : PeerAddr) (h now : Z) (pm : t) : t :=
  match pm !! key a with
  | Some p => <[key a := p <| PeerInfo.head := h |> <| PeerInfo.last_seen := now |>]> pm
  | None => pm
  end.
Definition remove (a : PeerAddr) (pm : t) : t * bool :=
  (delete (key a) pm, bool_decide (is_Some (pm !! key a))).

(** [max_by_key] keeps the later of two equal maxima. *)
Definition max_by_head (best : option PeerInfo) (p : PeerInfo) : option PeerInfo :=
  match best with
  | Some b => if PeerInfo.head b <=? PeerInfo.head p then Some p else Some b
  | None => Some p
  end.
Definition best_sync_target `{MapIter} (our_head : Z) (pm : t) : option PeerInfo :=
  foldl max_by_head None (filter (λ p, our_head < PeerInfo.head p) (map_values pm)).
Definition addr_list `{MapIter} (pm : t) : list PeerAddr := PeerInfo.addr <$> map_values pm.
Definition prune_older_than (cutoff : Z) (pm : t) : t * nat :=
  let pm' := filter (λ kv, cutoff ≤ PeerInfo.last_seen kv.2) pm in
  (pm', (size pm - size pm')%nat).
End PeerManager.

(** ** The metric (discovery.rs) *)

Definition NODE_ID_LEN : nat := 32.
Definition ID_BITS : nat := NODE_ID_LEN * 8.
Definition K_BUCKET_SIZE : nat := 16.

Definition NodeId : Type := bytes.

(** [u8::leading_zeros]. *)
Definition leading_zeros_u8 (b : Z) : nat := Z.to_nat (if b =? 0 then 8 else 7 - Z.log2 b).

Fixpoint common_prefix_bits (a b : bytes) : nat :=
  match a, b with
  | x :: a, y :: b =>
      if x =? y then (8 + common_prefix_bits a b)%nat else leading_zeros_u8 (Z.lxor x y)
  | _, _ => 0%nat
  end.
Definition is_closer (target a b : bytes) : bool :=
  (common_prefix_bits target b <? common_prefix_bits target a)%nat.

(** [sort_by] on a key, largest first, is a stable sort: equal keys keep their order. *)
Section SortBy.
Context {A : Type} (key : A → nat).
Fixpoint insert_by (x : A) (l : list A) : list A :=
  match l with
  | [] => [x]
  | y :: l => if (key y <=? key x)%nat then x :: y :: l else y :: insert_by x l
  end.
Fixpoint sort_by_key (l : list A) : list A :=
  match l with
  | [] => []
  | x :: l => insert_by x (sort_by_key l)
  end.
End SortBy.

Definition sort_by_distance (target : bytes) (candidates : list bytes) : list bytes :=
  sort_by_key (common_prefix_bits target) candidates.

(** ** The routing table (discovery.rs) *)

Record Endpoint := mk_endpoint { ip : bytes; udp_port : Z; tcp_port : Z }.
#[export] Instance Endpoint_eq_dec : EqDecision Endpoint.
Proof. solve_decision. Defined.

(** [Ipv4Addr::to_string]. *)
Definition ip_string (ip : bytes) : string := String.concat "." (pretty <$> ip).
Definition peer_addr (e : Endpoint) : PeerAddr := mk_peer_addr (ip_string (ip e)) (tcp_port e).

Record Node := mk_peer_node { node_id : NodeId; node_endpoint : Endpoint }.
#[export] Instance Node_eq_dec : EqDecision Node.
Proof. solve_decision. Defined.
#[export] Instance eta_Node : Eta Node := λ n, mk_peer_node (node_id n) (node_endpoint n).

Inductive InsertOutcome :=
| Added
| Refreshed
| EvictedOldest (i : NodeId)
| Ignored.
#[export] Instance InsertOutcome_eq_dec : EqDecision InsertOutcome.
Proof. solve_decision. Defined.

Module RoutingTable.
Record t := mk { local : NodeId; buckets : list (list Node); k : nat }.
#[global] Instance eta : Eta t := λ rt, mk (local rt) (buckets rt) (k rt).
Implicit Types rt : t.

Definition with_k (local : NodeId) (k : nat) : t := mk local (replicate ID_BITS []) k.
Definition new (local : NodeId) : t := with_k local K_BUCKET_SIZE.
Definition local_id rt : NodeId := local rt.

Definition bucket_index (i : NodeId) rt : option nat :=
  let cpb := common_prefix_bits (local rt) i in
  if (ID_BITS <=? cpb)%nat then None else Some (ID_BITS - 1 - cpb)%nat.

(** [Vec::remove(0)] of a full bucket panics when the capacity is zero, and the indexing
    when there is no such bucket. *)
Definition insert (node : Node) : ST t () InsertOutcome := λ rt,
  match bucket_index (node_id node) rt with
  | None => (Ok Ignored, rt)
  | Some idx =>
      match buckets rt !! idx with
      | None => (Panic, rt)
      | Some bucket =>
          let set_bucket b := rt <| buckets := <[idx := b]> (buckets rt) |> in
          match list_find (λ n, node_id n = node_id node) bucket with
          | Some (pos, existing) =>
              (Ok Refreshed,
               set_bucket (delete pos bucket ++ [existing <| node_endpoint := node_endpoint node |>]))
          | None =>
              if (length bucket <? k rt)%nat then (Ok Added, set_bucket (bucket ++ [node])) else
              match bucket with
              | [] => (Panic, rt)
              | evicted :: rest => (Ok (EvictedOldest (node_id evicted)), set_bucket (rest ++ [node]))
              end
          end
      end
  end.

Definition all_nodes rt : list Node := concat (buckets rt).
Definition closest (target : NodeId) (count : nat) rt : list Node :=
  take count (sort_by_key (λ n, common_prefix_bits target (node_id n)) (all_nodes rt)).
Definition len rt : nat := sum_list_with length (buckets rt).
Definition is_empty rt : bool := (len rt =? 0)%nat.
Definition contains (i : NodeId) rt : bool :=
  match bucket_index i rt with
  | Some idx => existsb (λ n, bool_decide (node_id n = i)) (default [] (buckets rt !! idx))
  | None => false
  end.
End RoutingTable.

(** ** Datagrams (discovery_codec.rs) *)

Definition T_PING : Z := 1.
Definition T_PONG : Z := 2.
Definition T_FIND_NODE : Z := 3.
Definition T_NEIGHBORS : Z := 4.
Definition NODE_WIRE_LEN : nat := NODE_ID_LEN + 4 + 2 + 2.
Definition MAX_NEIGHBORS : nat := 16.

Inductive CodecError :=
| Empty
| UnknownType (b : Z)
| Truncated
| TooManyNodes (n : nat)
| TrailingBytes.

Definition put_node (n : Node) : bytes :=
  node_id n ++ ip (node_endpoint n) ++ to_be_bytes 2 (udp_port (node_endpoint n)) ++ to_be_bytes 2 (tcp_port (node_endpoint n)).

Definition take_node (bs : bytes) : res CodecError (Node * bytes) :=
  if (length bs <? NODE_WIRE_LEN)%nat then Err Truncated else
  let node_bytes := take NODE_WIRE_LEN bs in
  let rest := drop NODE_WIRE_LEN bs in
  let i := take NODE_ID_LEN node_bytes in
  let ip := take 4 (drop NODE_ID_LEN node_bytes) in
  let udp := from_be_unsigned (take 2 (drop (NODE_ID_LEN + 4) node_bytes)) in
  let tcp := from_be_unsigned (take 2 (drop (NODE_ID_LEN + 6) node_bytes)) in
  Ok (mk_peer_node i (mk_endpoint ip udp tcp), rest).

(** The loop that reads [count] nodes. *)
Fixpoint take_nodes (count : nat) (bs : bytes) : res CodecError (list Node * bytes) :=
  match count with
  | O => Ok ([], bs)
  | S count =>
      '(n, bs) ← take_node bs;
      '(ns, bs) ← take_nodes count bs;
      Ok (n :: ns, bs)
  end.

Module DiscoveryMessage.
Inductive t :=
| Ping (from : Node)
| Pong (from : Node)
| FindNode (from : Node) (target : NodeId)
| Neighbors (from : Node) (nodes : list Node).

Definition encode (m : t) : bytes :=
  match m with
  | Ping from => T_PING :: put_node from
  | Pong from => T_PONG :: put_node from
  | FindNode from target => T_FIND_NODE :: put_node from ++ target
  | Neighbors from nodes =>
      let count := (length nodes `min` MAX_NEIGHBORS)%nat in
      T_NEIGHBORS :: put_node from ++ to_be_bytes 2 (Z.of_nat count) ++ (take count nodes ≫= put_node)
  end.

Definition decode (bs : bytes) : res CodecError t :=
  match bs with
  | [] => Err Empty
  | kind :: rest =>
      if (kind =? T_PING) || (kind =? T_PONG) then
        '(from, rest) ← take_node rest;
        if bool_decide (rest ≠ []) then Err TrailingBytes else
        Ok (if kind =? T_PING then Ping from else Pong from)
      else if kind =? T_FIND_NODE then
        '(from, rest) ← take_node rest;
        if (length rest <? NODE_ID_LEN)%nat then Err Truncated else
        let target := take NODE_ID_LEN rest in
        let rest := drop NODE_ID_LEN rest in
        if bool_decide (rest ≠ []) then Err TrailingBytes else
        Ok (FindNode from target)
      else if kind =? T_NEIGHBORS then
        '(from, rest) ← take_node rest;
        if (length rest <? 2)%nat then Err Truncated else
        let count := Z.to_nat (from_be_unsigned (take 2 rest)) in
        if (MAX_NEIGHBORS <? count)%nat then Err (TooManyNodes count) else
        '(nodes, rest) ← take_nodes count (drop 2 rest);
        if bool_decide (rest ≠ []) then Err TrailingBytes else
        Ok (Neighbors from nodes)
      else Err (UnknownType kind)
  end.
End DiscoveryMessage.

(** ** The service (discovery_service.rs) *)

(** [Discovery]: our node, the shared table and peer set, the datagrams sent so far with
    their destinations, and the readings the clock will give. *)
Record Discovery := mk_discovery {
  d_local : Node;
  d_table : RoutingTable.t;
  d_peers : PeerManager.t;
  d_sent : list (bytes * (bytes * Z));
  d_clock : list Z;
}.
#[export] Instance eta_Discovery : Eta Discovery := λ d,
  mk_discovery (d_local d) (d_table d) (d_peers d) (d_sent d) (d_clock d).

Section Service.
Import DiscoveryMessage.
Implicit Types (d : Discovery) (n : Node).

(** [Discovery::bind], once the socket is bound to an address. *)
Definition bind (local_ip : bytes) (local_port : Z) (i : NodeId) (peers : PeerManager.t)
    (clock : list Z) : Discovery :=
  mk_discovery (mk_peer_node i (mk_endpoint local_ip local_port local_port)) (RoutingTable.new i) peers [] clock.

Definition now_millis : ST Discovery () Z := λ d,
  match d_clock d with
  | t :: ts => (Ok t, d <| d_clock := ts |>)
  | [] => (Ok 0, d)
  end.

Definition send (msg : DiscoveryMessage.t) (to : Endpoint) : ST Discovery () () :=
  modify (λ d, d <| d_sent ::= λ s, s ++ [(encode msg, (ip to, udp_port to))] |>).

Definition insert_table n : ST Discovery () InsertOutcome := λ d,
  let '(r, table) := RoutingTable.insert n (d_table d) in (r, d <| d_table := table |>).

Definition add n : ST Discovery () bool :=
  local ← gets d_local;
  if bool_decide (node_id n = node_id local) then mret false else
  outcome ← insert_table n;
  now ← now_millis;
  _ ← modify (λ d, d <| d_peers ::= PeerManager.upsert (peer_addr (node_endpoint n)) (-1) now |>);
  mret (bool_decide (outcome = Added)).

(** The loop over the nodes of a NEIGHBORS message. *)
Fixpoint learn (nodes : list Node) : ST Discovery () () :=
  match nodes with
  | [] => mret ()
  | n :: nodes =>
      local ← gets d_local;
      _ ← (if bool_decide (node_id n ≠ node_id local) then
             fresh ← add n;
             if (fresh : bool) then send (Ping local) (node_endpoint n) else mret ()
           else mret ());
      learn nodes
  end.

Definition handle (msg : DiscoveryMessage.t) : ST Discovery () () :=
  local ← gets d_local;
  match msg with
  | Ping from => _ ← add from; send (Pong local) (node_endpoint from)
  | Pong from => _ ← add from; send (FindNode local (node_id local)) (node_endpoint from)
  | FindNode from target =>
      _ ← add from;
      nodes ← gets (λ d, RoutingTable.closest target K_BUCKET_SIZE (d_table d));
      send (Neighbors local nodes) (node_endpoint from)
  | Neighbors from nodes => _ ← add from; learn nodes
  end.

Fixpoint send_each (msg : DiscoveryMessage.t) (targets : list Endpoint) : ST Discovery () () :=
  match targets with
  | [] => mret ()
  | ep :: targets => _ ← send msg ep; send_each msg targets
  end.
Definition refresh : ST Discovery () () :=
  local ← gets d_local;
  targets ← gets (λ d, node_endpoint <$> RoutingTable.closest (node_id local) 3 (d_table d));
  send_each (FindNode local (node_id local)) targets.

(** One turn of [run]: a refresh tick or a datagram; one that does not decode is dropped. *)
Inductive turn := Refresh | Datagram (bs : bytes).
Definition run_turn (t : turn) : ST Discovery () () :=
  match t with
  | Refresh => refresh
  | Datagram bs =>
      match decode bs with
      | Ok msg => handle msg
      | Err _ => mret ()
      | Panic => lift Panic
      end
  end.
(** [run]: ping every seed, then take the turns. *)
Fixpoint run_turns (ts : list turn) : ST Discovery () () :=
  match ts with
  | [] => mret ()
  | t :: ts => _ ← run_turn t; run_turns ts
  end.
Definition run (seeds : list Endpoint) (ts : list turn) : ST Discovery () () :=
  local ← gets d_local;
  _ ← send_each (Ping local) seeds;
  run_turns ts.
End Service.

(** ** The metric *)

Lemma common_prefix_bits_refl a : common_prefix_bits a a = (8 * length a)%nat.
Proof. induction a as [|x a IH]; [done|]. cbn [common_prefix_bits length]. rewrite Z.eqb_refl, IH. lia. Qed.
Lemma common_prefix_bits_lt a b :
  length a = length b → a ≠ b → (common_prefix_bits a b < 8 * length a)%nat.
Proof.
  revert b. induction a as [|x a IH]; intros [|y b]; cbn [common_prefix_bits length]; try done.
  intros [= Hl] Hne. destruct (Z.eqb_spec x y) as [->|Hxy].
  - assert (a ≠ b) as Hab by congruence. specialize (IH b Hl Hab). lia.
  - unfold leading_zeros_u8. destruct (Z.eqb_spec (Z.lxor x y) 0) as [E%Z.lxor_eq|]; [done|].
    pose proof (Z.log2_nonneg (Z.lxor x y)). lia.
Qed.

Section SortByLemmas.
Context {A : Type} (key : A → nat).
Implicit Types l : list A.

Lemma insert_by_perm x l : insert_by key x l ≡ₚ x :: l.
Proof.
  induction l as [|y l IH]; [done|]. cbn. destruct (_ <=? _)%nat; [done|].
  rewrite IH. apply Permutation_swap.
Qed.
Lemma sort_by_key_perm l : sort_by_key key l ≡ₚ l.
Proof. induction l as [|x l IH]; [done|]. cbn. by rewrite insert_by_perm, IH. Qed.

Lemma insert_by_sorted x l :
  StronglySorted (λ a b, key b ≤ key a)%nat l → StronglySorted (λ a b, key b ≤ key a)%nat (insert_by key x l).
Proof.
  induction 1 as [|y l Hs IH Hy]; cbn; [by repeat constructor|].
  destruct (Nat.leb_spec (key y) (key x)) as [Hle|Hlt].
  - constructor; [by constructor|]. constructor; [done|].
    eapply Forall_impl; [exact Hy|]. intros z Hz. cbn in *. lia.
  - constructor; [done|]. rewrite insert_by_perm. constructor; [lia|done].
Qed.
Lemma sort_by_key_sorted l : StronglySorted (λ a b, key b ≤ key a)%nat (sort_by_key key l).
Proof. induction l; [constructor|by apply insert_by_sorted]. Qed.

(** Stability: elements with the same key keep their order. *)
Lemma insert_by_stable x l c :
  filter (λ a, key a = c) (insert_by key x l) = filter (λ a, key a = c) (x :: l).
Proof.
  induction l as [|y l IH]; [done|]. cbn [insert_by]. destruct (Nat.leb_spec (key y) (key x)); [done|].
  rewrite !filter_cons in *. rewrite IH. repeat case_decide; done || lia.
Qed.
Lemma sort_by_key_stable l c :
  filter (λ a, key a = c) (sort_by_key key l) = filter (λ a, key a = c) l.
Proof. induction l as [|x l IH]; [done|]. cbn [sort_by_key]. by rewrite insert_by_stable, !filter_cons, IH. Qed.
End SortByLemmas.

(** ** The table as an LRU cache *)

Definition lastn {A} (k : nat) (l : list A) : list A := drop (length l - k) l.

Section Lastn.
Context {A : Type}.
Implicit Types l m : list A.
Lemma lastn_all k l : (length l ≤ k)%nat → lastn k l = l.
Proof. intros. unfold lastn. by replace (length l - k)%nat with 0%nat by lia. Qed.
Lemma lastn_app k l m : length m = k → lastn k (l ++ m) = m.
Proof. intros <-. unfold lastn. rewrite length_app, Nat.add_sub. apply drop_app_length. Qed.
Lemma lastn_length k l : length (lastn k l) = (length l `min` k)%nat.
Proof. unfold lastn. rewrite length_drop. lia. Qed.
(** The last [k] elements are all of them or are preceded by others. *)
Lemma lastn_split k l : ∃ p, l = p ++ lastn k l ∧ ((length (lastn k l) < k)%nat → p = []).
Proof.
  exists (take (length l - k) l). split; [unfold lastn; by rewrite take_drop|]. rewrite lastn_length.
  intros. by replace (length l - k)%nat with 0%nat by lia.
Qed.
End Lastn.

(** The nodes seen, least recently first, each with its latest endpoint. *)
Definition see (local : NodeId) (hist : list Node) (n : Node) : list Node :=
  if bool_decide (node_id n = local) then hist
  else filter (λ m, node_id m ≠ node_id n) hist ++ [n].
Definition seen (local : NodeId) (ns : list Node) : list Node := foldl (see local) [] ns.

Section Lru.
Import RoutingTable.
Implicit Types (rt : t) (n : Node).

Definition in_bucket (local : NodeId) (i : nat) n : Prop :=
  bucket_index (node_id n) (mk local [] 0) = Some i.
#[export] Instance in_bucket_dec local i n : Decision (in_bucket local i n).
Proof. unfold in_bucket. apply _. Defined.

(** The table holds, per bucket, the [k] most recently seen nodes. *)
Record lru rt (hist : list Node) : Prop := {
  lru_local : length (local rt) = NODE_ID_LEN;
  lru_k : (0 < k rt)%nat;
  lru_len : length (buckets rt) = ID_BITS;
  lru_bucket : ∀ i, (i < ID_BITS)%nat →
    buckets rt !! i = Some (lastn (k rt) (filter (in_bucket (local rt) i) hist));
  lru_nodup : NoDup (node_id <$> hist);
  lru_ids : Forall (λ n, length (node_id n) = NODE_ID_LEN ∧ node_id n ≠ local rt) hist;
}.

Lemma bucket_index_eq i rt : bucket_index i rt = bucket_index i (mk (local rt) [] 0).
Proof. done. Qed.
Lemma bucket_index_Some i rt :
  length (local rt) = NODE_ID_LEN → length i = NODE_ID_LEN → i ≠ local rt →
  ∃ idx, bucket_index i rt = Some idx ∧ (idx < ID_BITS)%nat.
Proof.
  intros Hl Hi Hne. unfold bucket_index.
  pose proof (common_prefix_bits_lt (local rt) i ltac:(congruence) ltac:(done)) as Hlt.
  rewrite Hl in Hlt. unfold ID_BITS in *.
  destruct (Nat.leb_spec (NODE_ID_LEN * 8) (common_prefix_bits (local rt) i)); [lia|].
  eexists. split; [done|]. lia.
Qed.
Lemma bucket_index_local rt : length (local rt) = NODE_ID_LEN → bucket_index (local rt) rt = None.
Proof.
  intros Hl. unfold bucket_index. rewrite common_prefix_bits_refl, Hl. done.
Qed.

Lemma lru_new local k : length local = NODE_ID_LEN → (0 < k)%nat → lru (with_k local k) [].
Proof.
  intros Hl Hk. constructor; try done.
  - intros i Hi. apply lookup_replicate. by rewrite lastn_all by (cbn; lia).
  - constructor.
Qed.

(** What [insert] does to a bucket, and what that means for the last [k] nodes. *)
Definition bucket_insert (k : nat) (bucket : list Node) n : list Node :=
  match list_find (λ m, node_id m = node_id n) bucket with
  | Some (pos, existing) => delete pos bucket ++ [existing <| node_endpoint := node_endpoint n |>]
  | None => if (length bucket <? k)%nat then bucket ++ [n] else tail bucket ++ [n]
  end.

Lemma filter_ne_absent (l : list Node) i :
  (∀ m, m ∈ l → node_id m ≠ i) → filter (λ m, node_id m ≠ i) l = l.
Proof.
  induction l as [|m l IH]; intros Hl; [done|]. rewrite filter_cons, decide_True by (apply Hl; left).
  f_equal. apply IH. intros x Hx. apply Hl. by right.
Qed.
Lemma filter_ne_delete (l : list Node) pos m i :
  NoDup (node_id <$> l) → list_find (λ m, node_id m = i) l = Some (pos, m) →
  filter (λ m, node_id m ≠ i) l = delete pos l.
Proof.
  revert pos. induction l as [|x l IH]; intros pos Hnd Hf; [done|].
  cbn [fmap list_fmap] in Hnd. apply NoDup_cons in Hnd as [Hx Hnd]. cbn [list_find] in Hf.
  rewrite filter_cons. case_decide as E.
  - injection Hf as <- <-. rewrite decide_False by (by intros []). cbn. apply filter_ne_absent.
    intros m Hm Em. apply Hx. rewrite E, <-Em. by apply list_elem_of_fmap_2.
  - rewrite decide_True by done. destruct (list_find _ l) as [[p y]|] eqn:Ef; [|done].
    cbn in Hf. injection Hf as <- <-. cbn. f_equal. by apply (IH p).
Qed.

Lemma refresh_node (m n : Node) : node_id m = node_id n → m <| node_endpoint := node_endpoint n |> = n.
Proof. destruct m, n. cbn. by intros ->. Qed.

Lemma bucket_insert_lastn k (H : list Node) n :
  (0 < k)%nat → NoDup (node_id <$> H) →
  bucket_insert k (lastn k H) n = lastn k (filter (λ m, node_id m ≠ node_id n) H ++ [n]).
Proof.
  intros Hk Hnd. destruct (lastn_split k H) as (p & E & Hp).
  pose proof (lastn_length k H) as Hlen. set (b := lastn k H) in *.
  rewrite E in Hnd |- *. rewrite fmap_app in Hnd. apply NoDup_app in Hnd as (_ & _ & Hb).
  rewrite filter_app, <-app_assoc. set (p' := filter _ p).
  assert (Hp' : (length b < k)%nat → p' = []) by (intros Hlt; unfold p'; by rewrite (Hp Hlt)).
  unfold bucket_insert. destruct (list_find _ b) as [[pos m]|] eqn:Ef.
  - rewrite (filter_ne_delete _ _ _ _ Hb Ef). pose proof Ef as (Hm & Em & _)%list_find_Some.
    rewrite (refresh_node m n Em).
    assert (Hd : length (delete pos b ++ [n]) = length b).
    { rewrite length_app, length_delete by eauto. apply lookup_lt_Some in Hm. cbn. lia. }
    destruct (decide (length b < k)%nat) as [Hlt|].
    + rewrite (Hp' Hlt). symmetry. apply lastn_all. cbn. lia.
    + symmetry. apply lastn_app. lia.
  - apply list_find_None in Ef. rewrite Forall_forall in Ef. rewrite filter_ne_absent by exact Ef.
    destruct (Nat.ltb_spec (length b) k) as [Hlt|Hge].
    + rewrite (Hp' Hlt). symmetry. apply lastn_all. cbn. rewrite length_app. cbn. lia.
    + destruct b as [|e rest]; cbn in Hge, Hlen |- *; [lia|].
      change (e :: rest ++ [n]) with ([e] ++ rest ++ [n]). rewrite app_assoc. symmetry. apply lastn_app. rewrite length_app. cbn. lia.
Qed.

Lemma filter_bucket_see local (hist : list Node) n idx i :
  in_bucket local idx n →
  filter (in_bucket local i) (filter (λ m, node_id m ≠ node_id n) hist ++ [n]) =
  if decide (i = idx) then filter (λ m, node_id m ≠ node_id n) (filter (in_bucket local i) hist) ++ [n]
  else filter (in_bucket local i) hist.
Proof.
  intros Hn. rewrite filter_app, (list_filter_filter (in_bucket local i)), filter_cons, filter_nil.
  destruct (decide (i = idx)) as [->|Ei].
  - rewrite decide_True by done. rewrite list_filter_filter. f_equal. apply list_filter_iff. naive_solver.
  - rewrite decide_False by (unfold in_bucket in *; congruence). rewrite app_nil_r. apply list_filter_iff.
    intros m. split; [by intros []|]. intros Hm. split; [done|]. intros E. unfold in_bucket in *. congruence.
Qed.

(** The outcome tells where the node went. *)
Definition outcome_of rt n : InsertOutcome :=
  match bucket_index (node_id n) rt with
  | None => Ignored
  | Some idx =>
      let bucket := default [] (buckets rt !! idx) in
      match list_find (λ m, node_id m = node_id n) bucket with
      | Some _ => Refreshed
      | None => if (length bucket <? k rt)%nat then Added
                else EvictedOldest (default [] (node_id <$> (bucket !! 0%nat)))
      end
  end.

Lemma insert_lru rt hist n :
  lru rt hist → length (node_id n) = NODE_ID_LEN →
  ∃ rt', insert n rt = (Ok (outcome_of rt n), rt') ∧ lru rt' (see (local rt) hist n) ∧
    local rt' = local rt ∧ k rt' = k rt.
Proof.
  intros [Hl Hk Hlen Hb Hnd Hids] Hn. unfold insert, outcome_of, see.
  case_bool_decide as Eid.
  { rewrite Eid, bucket_index_local by done. by exists rt. }
  destruct (bucket_index_Some (node_id n) rt Hl Hn Eid) as (idx & Ei & Hi). rewrite Ei, (Hb idx Hi).
  set (b := lastn (k rt) (filter (in_bucket (local rt) idx) hist)).
  change (default [] (Some b)) with b.
  exists (rt <| buckets := <[idx := bucket_insert (k rt) b n]> (buckets rt) |>). split.
  { unfold bucket_insert. destruct (list_find _ b) as [[pos m]|]; [done|].
    destruct (Nat.ltb_spec (length b) (k rt)); [done|]. destruct b; cbn in *; [lia|done]. }
  split; [|done]. constructor; try done.
  - cbn. by rewrite length_insert.
  - intros i Hi'. cbn. rewrite (filter_bucket_see _ _ _ idx) by done. case_decide as Eq.
    + subst i. rewrite list_lookup_insert_eq by lia. f_equal. apply bucket_insert_lastn; [done|].
      eapply sublist_NoDup; [exact Hnd|]. apply fmap_sublist, sublist_filter.
    + rewrite list_lookup_insert_ne by done. by apply Hb.
  - rewrite fmap_app. apply NoDup_app. split_and!.
    + eapply sublist_NoDup; [exact Hnd|]. apply fmap_sublist, sublist_filter.
    + intros x (m & -> & [Hm _]%list_elem_of_filter)%list_elem_of_fmap Hx. by apply list_elem_of_singleton in Hx.
    + apply NoDup_singleton.
  - apply Forall_app. split; [|by constructor]. apply Forall_forall. intros m [_ Hm]%list_elem_of_filter.
    rewrite Forall_forall in Hids. by apply Hids.
Qed.

(** Insert nodes one after the other. *)
Fixpoint insert_all (ns : list Node) : ST t () () :=
  match ns with
  | [] => mret ()
  | n :: ns => _ ← insert n; insert_all ns
  end.

Lemma insert_all_lru ns rt hist :
  lru rt hist → Forall (λ n, length (node_id n) = NODE_ID_LEN) ns →
  ∃ rt', insert_all ns rt = (Ok (), rt') ∧ lru rt' (foldl (see (local rt)) hist ns) ∧
    local rt' = local rt ∧ k rt' = k rt.
Proof.
  intros Hrt Hns. revert rt hist Hrt. induction Hns as [|n ns Hn _ IH]; intros rt hist Hrt; [by exists rt|].
  destruct (insert_lru _ _ _ Hrt Hn) as (rt1 & E1 & H1 & El & Ek).
  destruct (IH _ _ H1) as (rt2 & E2 & H2 & El2 & Ek2). rewrite El in H2. exists rt2.
  cbn [insert_all]. rewrite (ST_bind_run _ _ _ _ _ E1). split_and!; [done|done|congruence|congruence].
Qed.

Lemma elem_of_lastn {A} (x : A) k l : x ∈ lastn k l → x ∈ l.
Proof. intros Hx. destruct (lastn_split k l) as (p & E & _). rewrite E. set_solver. Qed.

(** The most recently seen node is in the table. *)
Lemma lru_contains_last rt hist n :
  lru rt (hist ++ [n]) → contains (node_id n) rt = true.
Proof.
  intros [Hl Hk _ Hb _ Hids]. apply Forall_app in Hids as [_ Hn]. apply Forall_singleton in Hn as [Hn Hne].
  destruct (bucket_index_Some (node_id n) rt Hl Hn Hne) as (idx & Ei & Hi).
  unfold contains. rewrite Ei, (Hb idx Hi). apply existsb_exists. exists n. rewrite bool_decide_eq_true_2 by done.
  split; [|done]. apply list_elem_of_In. cbn. rewrite filter_app, filter_cons, decide_True, filter_nil by done.
  unfold lastn. rewrite length_app, drop_app_le by (cbn; lia). set_solver.
Qed.
Lemma contains_local rt hist : lru rt hist → contains (local rt) rt = false.
Proof. intros [Hl _ _ _ _ _]. unfold contains. by rewrite bucket_index_local. Qed.

Lemma sum_list_with_bound (f : list Node → nat) (l : list (list Node)) c :
  (∀ b, b ∈ l → f b ≤ c)%nat → (sum_list_with f l ≤ length l * c)%nat.
Proof.
  induction l as [|b l IH]; intros Hl; cbn; [lia|].
  pose proof (Hl b ltac:(left)). assert (sum_list_with f l ≤ length l * c)%nat; [|lia].
  apply IH. intros x Hx. apply Hl. by right.
Qed.
Lemma lru_size rt hist : lru rt hist → (len rt ≤ ID_BITS * k rt)%nat.
Proof.
  intros [_ _ Hlen Hb _ _]. unfold len. rewrite <-Hlen. apply sum_list_with_bound.
  intros b [i Hi]%list_elem_of_lookup. pose proof (lookup_lt_Some _ _ _ Hi) as Hlt.
  rewrite Hb in Hi by lia. injection Hi as <-. rewrite lastn_length. lia.
Qed.

Lemma all_nodes_length rt : length (all_nodes rt) = len rt.
Proof. unfold all_nodes, len. induction (buckets rt); cbn; [done|]. rewrite length_app. lia. Qed.

(** [closest] returns the nearest nodes: nothing left out is closer than anything returned. *)
Lemma closest_spec target count rt :
  ∃ rest, closest target count rt ++ rest ≡ₚ all_nodes rt ∧
    length (closest target count rt) = (count `min` len rt)%nat ∧
    StronglySorted (λ a b, is_closer target (node_id b) (node_id a) = false) (closest target count rt) ∧
    ∀ a b, a ∈ closest target count rt → b ∈ rest → is_closer target (node_id b) (node_id a) = false.
Proof.
  unfold closest. set (key := λ n, common_prefix_bits target (node_id n)).
  set (l := sort_by_key key (all_nodes rt)). exists (drop count l).
  assert (Hs : StronglySorted (λ a b, is_closer target (node_id b) (node_id a) = false) l).
  { pose proof (sort_by_key_sorted key (all_nodes rt)) as Hsort. fold l in Hsort.
    induction Hsort as [|a l' _ IH Ha]; constructor; [done|]. eapply Forall_impl; [exact Ha|].
    intros b Hab. unfold is_closer. apply Nat.ltb_ge. exact Hab. }
  rewrite <-(take_drop count l) in Hs. split_and!.
  - rewrite take_drop. apply sort_by_key_perm.
  - rewrite length_take. unfold l. by rewrite (sort_by_key_perm key), all_nodes_length.
  - by apply StronglySorted_app_1_l in Hs.
  - intros a b Ha Hb. exact (StronglySorted_app_1_elem_of _ _ _ a b Hs Ha Hb).
Qed.
End Lru.

(** The routing table is a bank of LRU caches.  Whatever nodes are inserted, in any
    order and with repetitions, nothing panics and bucket [i] holds exactly the [k] most
    recently seen nodes whose id first differs from ours at bit [i], least recent first and
    each with its latest endpoint; the last node inserted is found, our own id never is,
    and the table never holds more than [256 * k] nodes.  [closest] lists the [count]
    nearest of them, nearest first: no node left out is closer than one returned. *)
Theorem routing_table_lru (local : NodeId) (k : nat) (ns : list Node) (n : Node) :
  length local = NODE_ID_LEN → (0 < k)%nat →
  Forall (λ m, length (node_id m) = NODE_ID_LEN) (ns ++ [n]) → node_id n ≠ local →
  ∃ rt, insert_all (ns ++ [n]) (RoutingTable.with_k local k) = (Ok (), rt) ∧
    (∀ i, (i < ID_BITS)%nat →
       RoutingTable.buckets rt !! i = Some (lastn k (filter (in_bucket local i) (seen local (ns ++ [n]))))) ∧
    NoDup (node_id <$> seen local (ns ++ [n])) ∧
    RoutingTable.contains (node_id n) rt = true ∧ RoutingTable.contains local rt = false ∧
    (RoutingTable.len rt ≤ ID_BITS * k)%nat ∧
    ∀ target count, ∃ rest, RoutingTable.closest target count rt ++ rest ≡ₚ RoutingTable.all_nodes rt ∧
      length (RoutingTable.closest target count rt) = (count `min` RoutingTable.len rt)%nat ∧
      StronglySorted (λ a b, is_closer target (node_id b) (node_id a) = false)
        (RoutingTable.closest target count rt) ∧
      ∀ a b, a ∈ RoutingTable.closest target count rt → b ∈ rest →
        is_closer target (node_id b) (node_id a) = false.
Proof.
  intros Hl Hk Hns Hne. destruct (insert_all_lru _ _ _ (lru_new local k Hl Hk) Hns) as (rt & E & Hrt & El & Ek).
  cbn in El, Ek, Hrt. fold (seen local (ns ++ [n])) in Hrt. exists rt. split_and!; [done| | | | | |].
  - intros i Hi. rewrite (lru_bucket _ _ Hrt) by done. by rewrite El, Ek.
  - apply (lru_nodup _ _ Hrt).
  - unfold seen in Hrt. rewrite foldl_app in Hrt. cbn in Hrt. unfold see at 1 in Hrt.
    rewrite bool_decide_eq_false_2 in Hrt by done. by apply lru_contains_last in Hrt.
  - rewrite <-El. by eapply contains_local.
  - rewrite <-Ek. by eapply lru_size.
  - intros target count. apply closest_spec.
Qed.

(** ** The codec *)

Definition is_u16 (z : Z) : Prop := 0 ≤ z < 2 ^ 16.
(** What the fixed-size types of [Node] enforce. *)
Record node_wf (n : Node) : Prop := {
  nw_id : length (node_id n) = NODE_ID_LEN;
  nw_id_bytes : Forall is_byte (node_id n);
  nw_ip : length (ip (node_endpoint n)) = 4%nat;
  nw_ip_bytes : Forall is_byte (ip (node_endpoint n));
  nw_udp : is_u16 (udp_port (node_endpoint n));
  nw_tcp : is_u16 (tcp_port (node_endpoint n));
}.
#[export] Instance node_wf_dec n : Decision (node_wf n).
Proof.
  refine (cast_if (decide (length (node_id n) = NODE_ID_LEN ∧
    Forall (λ b, 0 ≤ b < 256) (node_id n) ∧ length (ip (node_endpoint n)) = 4%nat ∧
    Forall (λ b, 0 ≤ b < 256) (ip (node_endpoint n)) ∧ (0 ≤ udp_port (node_endpoint n) < 2 ^ 16) ∧
    (0 ≤ tcp_port (node_endpoint n) < 2 ^ 16)))).
  - abstract (by destruct_and!; constructor).
  - abstract (intros []; naive_solver).
Defined.

Definition msg_wf (m : DiscoveryMessage.t) : Prop :=
  match m with
  | DiscoveryMessage.Ping from | DiscoveryMessage.Pong from => node_wf from
  | DiscoveryMessage.FindNode from target =>
      node_wf from ∧ length target = NODE_ID_LEN ∧ Forall is_byte target
  | DiscoveryMessage.Neighbors from nodes => node_wf from ∧ Forall node_wf nodes
  end.
(** The message a receiver can see: at most [MAX_NEIGHBORS] neighbours are carried. *)
Definition capped (m : DiscoveryMessage.t) : DiscoveryMessage.t :=
  match m with
  | DiscoveryMessage.Neighbors from nodes => DiscoveryMessage.Neighbors from (take MAX_NEIGHBORS nodes)
  | m => m
  end.

Lemma u16_bytes z : is_u16 z → from_be_unsigned (to_be_bytes 2 z) = z.
Proof. intros Hz. rewrite from_to_be_bytes. by apply Z.mod_small. Qed.
Lemma to_be_bytes_is_byte n z : Forall is_byte (to_be_bytes n z).
Proof. apply be_split_is_byte. Qed.
Lemma u16_of_bytes bs : Forall is_byte bs → length bs = 2%nat → is_u16 (from_be_unsigned bs).
Proof. intros Hb Hl. pose proof (be_combine_bound bs Hb) as H. rewrite Hl in H. exact H. Qed.

Ltac wire_lia := unfold NODE_WIRE_LEN, NODE_ID_LEN in *; lia.

Lemma put_node_length n : node_wf n → length (put_node n) = NODE_WIRE_LEN.
Proof. intros Hn. unfold put_node. rewrite !length_app, !to_be_bytes_length, (nw_id _ Hn), (nw_ip _ Hn). done. Qed.

Lemma take_put_node n rest : node_wf n → take_node (put_node n ++ rest) = Ok (n, rest).
Proof.
  intros Hn. pose proof (put_node_length n Hn) as Hl. unfold take_node.
  rewrite (proj2 (Nat.ltb_ge _ _)) by (rewrite length_app; lia).
  rewrite take_app_length', drop_app_length' by done. unfold put_node.
  set (i := node_id n). set (a := ip (node_endpoint n)).
  set (u := to_be_bytes 2 (udp_port (node_endpoint n))). set (c := to_be_bytes 2 (tcp_port (node_endpoint n))).
  assert (Hi : NODE_ID_LEN = length i) by (symmetry; apply Hn).
  assert (Ha : 4%nat = length a) by (symmetry; apply Hn).
  assert (Hu : 2%nat = length u) by (symmetry; apply to_be_bytes_length).
  assert (Hc : 2%nat = length c) by (symmetry; apply to_be_bytes_length).
  replace (NODE_ID_LEN + 6)%nat with (NODE_ID_LEN + 4 + 2)%nat by done. rewrite <-!drop_drop.
  rewrite (take_app_length' i), (drop_app_length' i), (take_app_length' a), (drop_app_length' a),
    (take_app_length' u), (drop_app_length' u), (take_ge c) by (done || lia).
  unfold u, c. rewrite !u16_bytes by apply Hn. by destruct n as [? []].
Qed.

Lemma put_take_node bs n rest :
  Forall is_byte bs → take_node bs = Ok (n, rest) → bs = put_node n ++ rest ∧ node_wf n ∧ Forall is_byte rest.
Proof.
  intros Hb. unfold take_node. destruct (Nat.ltb_spec (length bs) NODE_WIRE_LEN) as [|Hl]; [done|].
  intros [= <- <-]. set (nb := take NODE_WIRE_LEN bs).
  assert (Hnl : length nb = NODE_WIRE_LEN) by (unfold nb; rewrite length_take; lia).
  assert (Hnb : Forall is_byte nb) by (by apply Forall_take).
  assert (Hs : ∀ k n, Forall is_byte (take k (drop n nb))) by (intros; by apply Forall_take, Forall_drop).
  assert (Hsl : ∀ k n, (n + k ≤ NODE_WIRE_LEN)%nat → length (take k (drop n nb)) = k)
    by (intros; rewrite length_take, length_drop; lia).
  split_and!; [|constructor; cbn|by apply Forall_drop].
  - unfold put_node. cbn [node_id node_endpoint ip udp_port tcp_port]. rewrite !to_from_be_bytes by (apply Hs || apply Hsl; wire_lia).
    rewrite <-(take_drop NODE_WIRE_LEN bs) at 1. fold nb. f_equal.
    rewrite <-(take_drop NODE_ID_LEN nb) at 1. f_equal.
    rewrite <-(take_drop 4 (drop NODE_ID_LEN nb)) at 1. f_equal. rewrite drop_drop.
    rewrite <-(take_drop 2 (drop (NODE_ID_LEN + 4) nb)) at 1. f_equal. rewrite drop_drop.
    symmetry. apply take_ge. rewrite length_drop. cbn in Hnl |- *. lia.
  - apply (Hsl NODE_ID_LEN 0%nat). wire_lia.
  - by apply Forall_take.
  - apply Hsl. wire_lia.
  - apply Hs.
  - apply u16_of_bytes; [apply Hs|apply Hsl]. wire_lia.
  - apply u16_of_bytes; [apply Hs|apply Hsl]. wire_lia.
Qed.

Lemma take_put_nodes ns rest :
  Forall node_wf ns → take_nodes (length ns) ((ns ≫= put_node) ++ rest) = Ok (ns, rest).
Proof.
  induction 1 as [|n ns Hn _ IH]; [done|]. cbn [length take_nodes mbind list_bind].
  rewrite <-app_assoc, take_put_node by done. simpl. by rewrite IH.
Qed.
Lemma put_take_nodes count bs ns rest :
  Forall is_byte bs → take_nodes count bs = Ok (ns, rest) →
  bs = (ns ≫= put_node) ++ rest ∧ length ns = count ∧ Forall node_wf ns ∧ Forall is_byte rest.
Proof.
  revert bs ns. induction count as [|count IH]; intros bs ns Hb.
  { intros [= <- <-]. by split_and!. }
  cbn [take_nodes]. intros ((n & bs1) & E1 & E)%res_bind_Ok. apply res_bind_Ok in E as ((ns' & bs2) & E2 & [= <- <-]).
  destruct (put_take_node _ _ _ Hb E1) as (-> & Hn & Hb1).
  destruct (IH _ _ Hb1 E2) as (-> & Hl & Hns & Hb2). cbn [mbind list_bind].
  split_and!; [by rewrite <-app_assoc|cbn; by rewrite Hl|by constructor|done].
Qed.

Definition RECV_BUF : nat := 2048.

Section Codec.
Import DiscoveryMessage.

Lemma encode_neighbors_count (nodes : list Node) :
  Z.to_nat (from_be_unsigned (to_be_bytes 2 (Z.of_nat (length nodes `min` MAX_NEIGHBORS))))
    = (length nodes `min` MAX_NEIGHBORS)%nat.
Proof.
  rewrite u16_bytes; [lia|]. unfold is_u16. assert (length nodes `min` MAX_NEIGHBORS ≤ 16)%nat by apply Nat.le_min_r. lia.
Qed.

Lemma decode_encode_msg m : msg_wf m → decode (encode m) = Ok (capped m).
Proof.
  destruct m as [from|from|from target|from nodes]; cbn [msg_wf encode decode capped].
  - intros Hn. rewrite <-(app_nil_r (put_node from)), take_put_node by done. done.
  - intros Hn. rewrite <-(app_nil_r (put_node from)), take_put_node by done. done.
  - intros (Hn & Ht & _). change ((T_FIND_NODE =? T_PING) || (T_FIND_NODE =? T_PONG)) with false.
    change (T_FIND_NODE =? T_FIND_NODE) with true. cbv iota. rewrite take_put_node by done. simpl.
    by rewrite (proj2 (Nat.ltb_ge _ _)), take_ge, drop_ge by (rewrite Ht; done).
  - intros (Hn & Hns). change ((T_NEIGHBORS =? T_PING) || (T_NEIGHBORS =? T_PONG)) with false.
    change (T_NEIGHBORS =? T_FIND_NODE) with false. change (T_NEIGHBORS =? T_NEIGHBORS) with true.
    cbv iota zeta. rewrite take_put_node by done. unfold mbind at 1, res_bind at 1. cbv iota beta.
    set (cnt := (length nodes `min` MAX_NEIGHBORS)%nat).
    assert (Hc : 2%nat = length (to_be_bytes 2 (Z.of_nat cnt))) by (symmetry; apply to_be_bytes_length).
    rewrite (proj2 (Nat.ltb_ge _ _)) by (rewrite length_app, <-Hc; lia).
    rewrite (take_app_length' (to_be_bytes 2 _)), (drop_app_length' (to_be_bytes 2 _)) by done.
    assert (Hcnt : Z.to_nat (from_be_unsigned (to_be_bytes 2 (Z.of_nat cnt))) = cnt)
      by apply encode_neighbors_count. rewrite !Hcnt.
    rewrite (proj2 (Nat.ltb_ge _ _)) by apply Nat.le_min_r.
    assert (Ht : take cnt nodes = take MAX_NEIGHBORS nodes).
    { unfold cnt. destruct (Nat.min_spec (length nodes) MAX_NEIGHBORS) as [[? ->]|[? ->]]; [|done].
      rewrite !take_ge by lia. done. }
    assert (Hl : cnt = length (take MAX_NEIGHBORS nodes)) by (rewrite length_take; unfold cnt; lia).
    rewrite Ht, Hl, <-(app_nil_r (_ ≫= put_node)), take_put_nodes by (by apply Forall_take). done.
Qed.

Lemma encode_decode_msg bs m :
  Forall is_byte bs → decode bs = Ok m → encode m = bs ∧ msg_wf m ∧ capped m = m.
Proof.
  intros Hb. unfold decode. destruct bs as [|kind rest]; [done|]. apply Forall_cons in Hb as [_ Hb].
  destruct ((kind =? T_PING) || (kind =? T_PONG)) eqn:Ek.
  { intros ((from & rest1) & E1 & E)%res_bind_Ok. apply put_take_node in E1 as (-> & Hn & _); [|done].
    case_bool_decide as Er; [done|]. subst rest1. rewrite app_nil_r.
    destruct (Z.eqb_spec kind T_PING) as [->|]; injection E as <-; [done|].
    cbn in Ek. apply Z.eqb_eq in Ek as ->. done. }
  destruct (Z.eqb_spec kind T_FIND_NODE) as [->|_].
  { intros ((from & rest1) & E1 & E)%res_bind_Ok. apply put_take_node in E1 as (-> & Hn & Hb1); [|done].
    destruct (Nat.ltb_spec (length rest1) NODE_ID_LEN) as [|Hl]; [done|].
    case_bool_decide as Er; [done|]. injection E as <-.
    assert (Et : take NODE_ID_LEN rest1 = rest1) by (rewrite <-(take_drop NODE_ID_LEN rest1) at 2; by rewrite Er, app_nil_r).
    cbn [encode msg_wf capped]. rewrite Et. split_and!; try done. rewrite <-Et, length_take. lia. }
  destruct (Z.eqb_spec kind T_NEIGHBORS) as [->|_]; [|done].
  intros ((from & rest1) & E1 & E)%res_bind_Ok. apply put_take_node in E1 as (-> & Hn & Hb1); [|done].
  destruct (Nat.ltb_spec (length rest1) 2) as [|Hl]; [done|].
  destruct (Nat.ltb_spec MAX_NEIGHBORS (Z.to_nat (from_be_unsigned (take 2 rest1)))) as [|Hc]; [done|].
  apply res_bind_Ok in E as ((nodes & rest2) & E2 & E). case_bool_decide as Er; [done|].
  subst rest2. injection E as <-.
  apply put_take_nodes in E2 as (E2 & Hln & Hns & _); [|by apply Forall_drop]. rewrite app_nil_r in E2.
  assert (Ht : take MAX_NEIGHBORS nodes = nodes) by (apply take_ge; lia).
  cbn [encode msg_wf capped]. rewrite Ht. split_and!; try done. cbv zeta. f_equal. f_equal.
  rewrite Nat.min_l, take_ge, <-E2 by lia. rewrite Hln, Z2Nat.id.
  - rewrite to_from_be_bytes, take_drop; [done|by apply Forall_take|rewrite length_take; lia].
  - apply u16_of_bytes; [by apply Forall_take|rewrite length_take; lia].
Qed.

Lemma take_node_no_panic bs : take_node bs ≠ Panic.
Proof. unfold take_node. by destruct (_ <? _)%nat. Qed.
Lemma take_nodes_no_panic count bs : take_nodes count bs ≠ Panic.
Proof.
  revert bs. induction count as [|count IH]; intros bs; [done|]. cbn [take_nodes].
  intros [H|((n & bs1) & _ & [H|((ns & bs2) & _ & H)]%res_bind_Panic)]%res_bind_Panic; [|by apply (IH bs1)|done].
  by apply take_node_no_panic in H.
Qed.
Lemma decode_no_panic bs : decode bs ≠ Panic.
Proof.
  unfold decode. intros H. repeat (case_match; try done);
    repeat (apply res_bind_Panic in H as [H|([] & _ & H)];
      [by apply take_node_no_panic in H || by apply take_nodes_no_panic in H|]; repeat (case_match; try done)).
Qed.

Lemma encode_msg_length m : msg_wf m → (length (encode m) ≤ 683)%nat.
Proof.
  assert (Hns : ∀ ns, Forall node_wf ns → (length ns ≤ 16)%nat → (length (ns ≫= put_node) ≤ 640)%nat).
  { intros ns Hns. assert (length (ns ≫= put_node) = 40 * length ns)%nat as ->; [|lia].
    induction Hns as [|n ns Hn _ IH]; [done|]. cbn [mbind list_bind length].
    rewrite length_app, put_node_length, IH by done. wire_lia. }
  destruct m as [from|from|from target|from nodes]; cbn [msg_wf encode]; cbv zeta; cbn [length].
  - intros Hn. rewrite put_node_length by done. wire_lia.
  - intros Hn. rewrite put_node_length by done. wire_lia.
  - intros (Hn & Ht & _). rewrite length_app, put_node_length, Ht by done. wire_lia.
  - intros (Hn & Hw). rewrite !length_app, put_node_length, to_be_bytes_length by done.
    pose proof (Nat.le_min_r (length nodes) MAX_NEIGHBORS) as Hm.
    specialize (Hns (take (length nodes `min` MAX_NEIGHBORS) nodes) ltac:(by apply Forall_take)).
    rewrite length_take in Hns. unfold MAX_NEIGHBORS in *. wire_lia.
Qed.
End Codec.

(** The discovery codec is exact.  A well-formed message decodes to itself, with at most
    sixteen neighbours carried, and fits the receive buffer; and every datagram that decodes
    is the encoding of its message, which is well-formed and within the cap: there is one
    encoding per message and no slack to hide bytes in. *)
Theorem discovery_codec (m : DiscoveryMessage.t) (bs : bytes) :
  msg_wf m → Forall is_byte bs →
  DiscoveryMessage.decode (DiscoveryMessage.encode m) = Ok (capped m) ∧
  (length (DiscoveryMessage.encode m) ≤ RECV_BUF)%nat ∧
  (∀ m', DiscoveryMessage.decode bs = Ok m' →
     DiscoveryMessage.encode m' = bs ∧ msg_wf m' ∧ capped m' = m').
Proof.
  intros Hm Hb. split_and!; [by apply decode_encode_msg| |].
  - pose proof (encode_msg_length m Hm). unfold RECV_BUF. lia.
  - intros m'. by apply encode_decode_msg.
Qed.

(** ** The service *)

Section ServiceSafe.
Import DiscoveryMessage.
Implicit Types (d : Discovery) (n : Node).

(** A datagram any receiver decodes to a message from this node. *)
Definition from_of (m : DiscoveryMessage.t) : Node :=
  match m with Ping from | Pong from | FindNode from _ | Neighbors from _ => from end.
Definition datagram_ok (local : Node) (bs : bytes) : Prop :=
  (length bs ≤ RECV_BUF)%nat ∧ ∃ m, decode bs = Ok m ∧ from_of m = local.

(** The state of the service after it has heard of the nodes of [hist]. *)
Record disc_ok (local : Node) d (hist : list Node) : Prop := {
  dk_local : d_local d = local;
  dk_wf : node_wf local;
  dk_table_local : RoutingTable.local (d_table d) = node_id local;
  dk_k : RoutingTable.k (d_table d) = K_BUCKET_SIZE;
  dk_lru : lru (d_table d) hist;
  dk_hist : Forall node_wf hist;
  dk_mirror : Forall (λ n, is_Some (d_peers d !! PeerManager.key (peer_addr (node_endpoint n)))) hist;
  dk_sent : Forall (λ s, datagram_ok local s.1) (d_sent d);
}.

Lemma send_ok local d hist msg to :
  disc_ok local d hist → msg_wf msg → from_of msg = local →
  ∃ d', send msg to d = (Ok (), d') ∧ disc_ok local d' hist ∧
    d_sent d' = d_sent d ++ [(encode msg, (ip to, udp_port to))] ∧ d_table d' = d_table d.
Proof.
  intros Hd Hm Hf. eexists. split; [done|]. split; [|done]. destruct Hd. constructor; try done.
  cbn. apply Forall_app. split; [done|]. constructor; [|done]. cbn. split.
  - pose proof (encode_msg_length msg Hm). unfold RECV_BUF. lia.
  - exists (capped msg). split; [by apply decode_encode_msg|]. by destruct msg.
Qed.

Lemma mirror_upsert (pm : PeerManager.t) a h t k :
  is_Some (pm !! k) → is_Some (PeerManager.upsert a h t pm !! k).
Proof.
  intros. unfold PeerManager.upsert. destruct (decide (PeerManager.key a = k)) as [<-|].
  - rewrite lookup_insert_eq. by eexists.
  - by rewrite lookup_insert_ne.
Qed.

Lemma add_ok local d hist n :
  disc_ok local d hist → node_wf n →
  ∃ b d', add n d = (Ok b, d') ∧ disc_ok local d' (see (node_id local) hist n) ∧ d_sent d' = d_sent d.
Proof.
  intros [Hl Hw Htl Hk Hlru Hh Hmir Hs] Hn. unfold add. rewrite run_gets, Hl. unfold see.
  case_bool_decide as E. { exists false, d. split_and!; [done| |done]. by constructor. }
  destruct (insert_lru _ _ _ Hlru (nw_id _ Hn)) as (rt & Ei & Hrt & Erl & Erk).
  assert (Eins : insert_table n d = (Ok (outcome_of (d_table d) n), d <| d_table := rt |>))
    by (unfold insert_table; by rewrite Ei).
  rewrite (ST_bind_run _ _ _ _ _ Eins). unfold see in Hrt. rewrite Htl, bool_decide_eq_false_2 in Hrt by done.
  assert (∃ t d1, now_millis (d <| d_table := rt |>) = (Ok t, d1) ∧ d_local d1 = d_local d ∧
    d_table d1 = rt ∧ d_peers d1 = d_peers d ∧ d_sent d1 = d_sent d) as (t & d1 & Et & E1 & E2 & E3 & E4).
  { unfold now_millis. cbn. destruct (d_clock d); eexists _, _; split; done. }
  rewrite (ST_bind_run _ _ _ _ _ Et), run_modify. eexists _, _. split; [done|]. split; [|done].
  constructor; cbn; try congruence.
  - apply Forall_app. split; [|by constructor]. apply Forall_forall. intros m [_ Hm]%list_elem_of_filter.
    rewrite Forall_forall in Hh. by apply Hh.
  - rewrite E3. apply Forall_app. split.
    + apply Forall_forall. intros m [_ Hm]%list_elem_of_filter. rewrite Forall_forall in Hmir.
      by apply mirror_upsert, Hmir.
    + constructor; [|done]. unfold PeerManager.upsert. rewrite lookup_insert_eq. by eexists.
Qed.

Lemma see_wf local hist n : Forall node_wf hist → node_wf n → Forall node_wf (see local hist n).
Proof.
  intros Hh Hn. unfold see. case_bool_decide; [done|]. apply Forall_app. split; [|by constructor].
  apply Forall_forall. intros m [_ Hm]%list_elem_of_filter. rewrite Forall_forall in Hh. by apply Hh.
Qed.

(** The nodes [closest] returns come from the table, hence are well-formed. *)
Lemma all_nodes_hist rt hist n : lru rt hist → n ∈ RoutingTable.all_nodes rt → n ∈ hist.
Proof.
  intros Hrt Hn. unfold RoutingTable.all_nodes in Hn. apply list_elem_of_In, in_concat in Hn as (b & Hb & Hn).
  apply list_elem_of_In in Hb, Hn. apply list_elem_of_lookup in Hb as [i Hi].
  pose proof (lookup_lt_Some _ _ _ Hi) as Hlt. rewrite (lru_len _ _ Hrt) in Hlt.
  rewrite (lru_bucket _ _ Hrt i Hlt) in Hi. injection Hi as <-. apply elem_of_lastn in Hn.
  by apply list_elem_of_filter in Hn as [_ ?].
Qed.
Lemma closest_wf rt hist target count :
  lru rt hist → Forall node_wf hist → Forall node_wf (RoutingTable.closest target count rt).
Proof.
  intros Hrt Hh. apply Forall_forall. intros n Hn. rewrite Forall_forall in Hh. apply Hh, (all_nodes_hist rt); [done|].
  destruct (closest_spec target count rt) as (rest & Hp & _). rewrite <-Hp. set_solver.
Qed.

Lemma learn_ok local nodes d hist :
  disc_ok local d hist → Forall node_wf nodes →
  ∃ d', learn nodes d = (Ok (), d') ∧ disc_ok local d' (foldl (see (node_id local)) hist nodes).
Proof.
  intros Hd Hns. revert d hist Hd. induction Hns as [|n ns Hn _ IH]; intros d hist Hd; [by exists d|].
  cbn [learn foldl]. rewrite run_gets, (dk_local _ _ _ Hd). case_bool_decide as E.
  - destruct (add_ok _ _ _ _ Hd Hn) as (b & d1 & E1 & Hd1 & _).
    assert (∃ d2, (fresh ← add n; (if (fresh : bool) then send (Ping local) (node_endpoint n) else mret ()) :
        ST Discovery () ()) d = (Ok (), d2) ∧ disc_ok local d2 (see (node_id local) hist n))
      as (d2 & E2 & Hd2).
    { rewrite (ST_bind_run _ _ _ _ _ E1). destruct b; [|by exists d1].
      destruct (send_ok _ _ _ (Ping local) (node_endpoint n) Hd1) as (d2 & E2 & Hd2 & _); [apply Hd|done|].
      by exists d2. }
    rewrite (ST_bind_run _ _ _ _ _ E2). by apply IH.
  - rewrite run_ret. unfold see at 2. rewrite bool_decide_eq_true_2 by done. by apply IH.
Qed.

(** The nodes a message tells about, in the order they are added. *)
Definition heard (m : DiscoveryMessage.t) : list Node :=
  match m with
  | Neighbors from nodes => from :: nodes
  | m => [from_of m]
  end.
Definition heard_turn (t : turn) : list Node :=
  match t with
  | Datagram bs => match decode bs with Ok m => heard m | _ => [] end
  | Refresh => []
  end.

Lemma handle_ok local d hist msg :
  disc_ok local d hist → msg_wf msg →
  ∃ d', handle msg d = (Ok (), d') ∧ disc_ok local d' (foldl (see (node_id local)) hist (heard msg)).
Proof.
  intros Hd Hm. unfold handle. rewrite run_gets, (dk_local _ _ _ Hd).
  assert (Hfrom : node_wf (from_of msg)) by (by destruct msg; destruct_and?; cbn in *; destruct_and?).
  destruct (add_ok _ _ _ _ Hd Hfrom) as (b & d1 & E1 & Hd1 & _).
  pose proof (dk_wf _ _ _ Hd) as Hw.
  destruct msg as [from|from|from target|from nodes]; cbn [from_of heard foldl] in *;
    rewrite (ST_bind_run _ _ _ _ _ E1).
  - destruct (send_ok _ _ _ (Pong local) (node_endpoint from) Hd1) as (d2 & E2 & Hd2 & _); [done..|]. by exists d2.
  - destruct (send_ok _ _ _ (FindNode local (node_id local)) (node_endpoint from) Hd1)
      as (d2 & E2 & Hd2 & _); [|done|by exists d2]. split_and!; [done|apply Hw..].
  - rewrite run_gets. destruct (send_ok _ _ _ (Neighbors local
        (RoutingTable.closest target K_BUCKET_SIZE (d_table d1))) (node_endpoint from) Hd1)
      as (d2 & E2 & Hd2 & _); [|done|by exists d2].
    split; [done|]. eapply closest_wf; apply Hd1.
  - apply learn_ok; [done|]. apply Hm.
Qed.

Lemma send_each_ok local msg targets d hist :
  disc_ok local d hist → msg_wf msg → from_of msg = local →
  ∃ d', send_each msg targets d = (Ok (), d') ∧ disc_ok local d' hist.
Proof.
  intros Hd Hm Hf. revert d Hd. induction targets as [|ep ts IH]; intros d Hd; [by exists d|].
  cbn [send_each]. destruct (send_ok _ _ _ msg ep Hd Hm Hf) as (d1 & E1 & Hd1 & _).
  rewrite (ST_bind_run _ _ _ _ _ E1). by apply IH.
Qed.

Definition turn_wf (t : turn) : Prop := match t with Datagram bs => Forall is_byte bs | Refresh => True end.

Lemma run_turn_ok local d hist t :
  disc_ok local d hist → turn_wf t →
  ∃ d', run_turn t d = (Ok (), d') ∧ disc_ok local d' (foldl (see (node_id local)) hist (heard_turn t)).
Proof.
  intros Hd Ht. destruct t as [|bs]; cbn [run_turn heard_turn].
  - unfold refresh. rewrite run_gets, run_gets, (dk_local _ _ _ Hd). apply send_each_ok; [done| |done].
    pose proof (dk_wf _ _ _ Hd) as Hw. split_and!; [done|apply Hw..].
  - destruct (decode bs) as [m|e|] eqn:E; [|by exists d|].
    + destruct (encode_decode_msg _ _ Ht E) as (_ & Hm & _). by apply handle_ok.
    + destruct (decode_no_panic _ E).
Qed.

Lemma run_turns_ok local ts d hist :
  disc_ok local d hist → Forall turn_wf ts →
  ∃ d', run_turns ts d = (Ok (), d') ∧ disc_ok local d' (foldl (see (node_id local)) hist (ts ≫= heard_turn)).
Proof.
  intros Hd Hts. revert d hist Hd. induction Hts as [|t ts Ht _ IH]; intros d hist Hd; [by exists d|].
  destruct (run_turn_ok _ _ _ _ Hd Ht) as (d1 & E1 & Hd1). cbn [run_turns mbind list_bind].
  rewrite (ST_bind_run _ _ _ _ _ E1), foldl_app. by apply IH.
Qed.

Lemma bind_ok (addr : bytes) (p : Z) (i : NodeId) peers clock :
  node_wf (mk_peer_node i (mk_endpoint addr p p)) →
  disc_ok (mk_peer_node i (mk_endpoint addr p p)) (bind addr p i peers clock) [].
Proof.
  intros Hw. constructor; try done. apply lru_new; [apply Hw|]. unfold K_BUCKET_SIZE. lia.
Qed.
End ServiceSafe.

(** C35: the discovery service only learns what it hears, and speaks intelligibly.  Bound to
    a well-formed address with any seeds, whatever datagrams arrive (any bytes) and whenever
    it refreshes, it never panics; its routing table holds in each bucket the sixteen most
    recently heard-of nodes, where a node is heard of as the sender or as a listed neighbour
    of a datagram that decodes; each of these is mirrored in the peer set; and every
    datagram it sends fits the receive buffer and decodes to a message naming it as sender. *)
Theorem discovery_service (addr : bytes) (p : Z) (i : NodeId) (peers : PeerManager.t) (clock : list Z)
    (seeds : list Endpoint) (ts : list turn) :
  let local := mk_peer_node i (mk_endpoint addr p p) in
  node_wf local → Forall turn_wf ts →
  ∃ d, run seeds ts (bind addr p i peers clock) = (Ok (), d) ∧
    (∀ b, (b < ID_BITS)%nat → RoutingTable.buckets (d_table d) !! b =
       Some (lastn K_BUCKET_SIZE (filter (in_bucket i b) (seen i (ts ≫= heard_turn))))) ∧
    (∀ n, n ∈ RoutingTable.all_nodes (d_table d) →
       node_wf n ∧ is_Some (d_peers d !! PeerManager.key (peer_addr (node_endpoint n)))) ∧
    Forall (λ s, datagram_ok local s.1) (d_sent d).
Proof.
  intros local Hw Hts. pose proof (bind_ok addr p i peers clock Hw) as Hd0. unfold run. rewrite run_gets.
  destruct (send_each_ok _ (DiscoveryMessage.Ping local) seeds _ _ Hd0 Hw eq_refl) as (d1 & E1 & Hd1).
  rewrite (ST_bind_run _ _ _ _ _ E1). destruct (run_turns_ok _ _ _ _ Hd1 Hts) as (d & E & Hd).
  exists d. split_and!; [done| | |apply Hd].
  - intros b Hb. rewrite (lru_bucket _ _ (dk_lru _ _ _ Hd)) by done.
    by rewrite (dk_k _ _ _ Hd), (dk_table_local _ _ _ Hd).
  - intros n Hn%(all_nodes_hist _ _ _ (dk_lru _ _ _ Hd)).
    pose proof (dk_hist _ _ _ Hd) as H1. pose proof (dk_mirror _ _ _ Hd) as H2.
    rewrite Forall_forall in H1, H2. auto.
Qed.

(** ** The peer manager *)

(** The target is a peer with the highest head above ours; there is none exactly when no
    peer is ahead. *)
Lemma best_sync_target_spec `{MapIterLaws} our_head (pm : PeerManager.t) :
  match PeerManager.best_sync_target our_head pm with
  | Some p => our_head < PeerInfo.head p ∧ (∃ k, pm !! k = Some p) ∧
      ∀ k q, pm !! k = Some q → PeerInfo.head q ≤ PeerInfo.head p
  | None => ∀ k q, pm !! k = Some q → PeerInfo.head q ≤ our_head
  end.
Proof.
  unfold PeerManager.best_sync_target.
  set (l := filter (λ p, our_head < PeerInfo.head p) (map_values pm)).
  assert (Hl : ∀ q, q ∈ l ↔ our_head < PeerInfo.head q ∧ ∃ k, pm !! k = Some q).
  { intros q. unfold l. rewrite list_elem_of_filter, map_values_perm, list_elem_of_fmap.
    setoid_rewrite <-elem_of_map_to_list. split.
    - intros (Hq & [k q'] & -> & Hk). eauto.
    - intros (Hq & k & Hk). split; [done|]. by exists (k, q). }
  assert (Hb : ∀ best, match foldl PeerManager.max_by_head best l with
    | Some p => (best = Some p ∨ p ∈ l) ∧ ∀ q, best = Some q ∨ q ∈ l → PeerInfo.head q ≤ PeerInfo.head p
    | None => best = None ∧ l = []
    end).
  { clear. induction l as [|x l IH]; intros best; cbn [foldl].
    { destruct best; [|done]. split; [by left|]. intros q [[= <-]|Hq]; [done|by apply elem_of_nil in Hq]. }
    specialize (IH (PeerManager.max_by_head best x)). destruct (foldl _ _ l) as [p|].
    - destruct IH as [Hin Hmax]. destruct best as [b|]; cbn in Hin, Hmax.
      + destruct (Z.leb_spec (PeerInfo.head b) (PeerInfo.head x)); split.
        * set_solver.
        * intros q Hq. assert (PeerInfo.head x ≤ PeerInfo.head p) by (apply Hmax; by left).
          destruct Hq as [[= ->]|[->|Hq]%elem_of_cons]; [lia|done|apply Hmax; by right].
        * set_solver.
        * intros q Hq. assert (PeerInfo.head b ≤ PeerInfo.head p) by (apply Hmax; by left).
          destruct Hq as [[= ->]|[->|Hq]%elem_of_cons]; [done|lia|apply Hmax; by right].
      + split; [set_solver|]. intros q [|[->|Hq]%elem_of_cons]; [done|apply Hmax; by left|apply Hmax; by right].
    - destruct IH as [IH _]. destruct best as [b|]; cbn in IH; [by destruct (_ <=? _)|done]. }
  specialize (Hb None). destruct (foldl _ _ l) as [p|].
  - destruct Hb as [[[=]|Hp] Hmax]. apply Hl in Hp as [Hp Hk]. split_and!; [done|done|].
    intros k q Hq. destruct (decide (our_head < PeerInfo.head q)); [|lia]. apply Hmax. right. apply Hl. eauto.
  - destruct Hb as [_ Hnil]. intros k q Hq. destruct (decide (our_head < PeerInfo.head q)); [|lia].
    assert (Hq' : q ∈ l) by (apply Hl; eauto). rewrite Hnil in Hq'. by apply elem_of_nil in Hq'.
Qed.

(** ** Samples *)

Module PeersSample.
Definition id_of (b : Z) : NodeId := b :: replicate 31 0.
Definition node_of (b : Z) : Node := mk_peer_node (id_of b) (mk_endpoint [10; 0; 0; b] 18888 18888).
Definition ping : DiscoveryMessage.t := DiscoveryMessage.Ping (node_of 1).
Definition many : DiscoveryMessage.t := DiscoveryMessage.Neighbors (node_of 1) (node_of <$> seqZ 2 20).
End PeersSample.
Import PeersSample.

Lemma routing_table_lru_witness :
  ∃ rt, insert_all ([node_of 128; node_of 129] ++ [node_of 130]) (RoutingTable.with_k (id_of 0) 2) = (Ok (), rt) ∧
    RoutingTable.buckets rt !! 255%nat = Some [node_of 129; node_of 130].
Proof.
  destruct (routing_table_lru (id_of 0) 2 [node_of 128; node_of 129] (node_of 130)) as (rt & E & Hb & _).
  - done.
  - lia.
  - by apply (bool_decide_unpack _).
  - done.
  - exists rt. split; [exact E|]. rewrite Hb; [by vm_compute|]. by apply (bool_decide_unpack _).
Defined.

Lemma discovery_codec_witness :
  DiscoveryMessage.decode (DiscoveryMessage.encode many) = Ok (capped many) ∧
  DiscoveryMessage.encode ping = 1 :: id_of 1 ++ [10; 0; 0; 1; 73; 200; 73; 200].
Proof.
  destruct (discovery_codec many (1 :: id_of 1 ++ [10; 0; 0; 1; 73; 200; 73; 200])) as (E & _ & Hd).
  - split; by apply (bool_decide_unpack _).
  - by apply (bool_decide_unpack (Forall (λ b, 0 ≤ b < 256) _)).
  - split; [exact E|]. apply Hd. by vm_compute.
Defined.

Lemma discovery_service_witness :
  ∃ d, run [mk_endpoint [10; 0; 0; 9] 18888 18888]
      [Datagram (DiscoveryMessage.encode ping); Refresh; Datagram [9; 9]] (bind [10; 0; 0; 0] 18888 (id_of 0) ∅ []) = (Ok (), d) ∧
    RoutingTable.buckets (d_table d) !! 248%nat = Some [node_of 1].
Proof.
  destruct (discovery_service [10; 0; 0; 0] 18888 (id_of 0) ∅ [] [mk_endpoint [10; 0; 0; 9] 18888 18888]
    [Datagram (DiscoveryMessage.encode ping); Refresh; Datagram [9; 9]]) as (d & E & Hb & _).
  - by apply (bool_decide_unpack _).
  - repeat constructor; done.
  - exists d. split; [exact E|]. rewrite Hb; [by vm_compute|]. by apply (bool_decide_unpack _).
Defined.
