(* ===== verification/Gossip.v ===== *)
(** * The channel service (crates/p2p/src/service.rs)

    Persistent peer connections: the handshake, the frames a peer task answers, the
    broadcast channel that fans announcements out to every peer, and the service as a state
    machine over the wake-ups of its tasks.  The node's handler (net.rs, [Node]) is one
    instance of the interface the service is written against. *)

From stdpp Require Import gmap strings pretty numbers fin_maps prelude relations.
From S2P Require Import Prelude Types Proto State Chain Consensus Mempool Intake Node Wire.
Open Scope Z_scope.

(** ** The interface ([ChannelHandler]) *)

(** The node's side of the service.  [ch_take_commits] empties what the handler has passed
    to the broadcast handle injected into it. *)
Class ChannelHandler (H : Type) := {
  ch_head : H → Z;
  ch_on_block : bytes → ST H () (option Z);
  ch_on_transaction : bytes → Z → ST H () ();
  ch_block_bytes : Z → H → option bytes;
  ch_on_pbft_commit : bytes → H → H * bool;
  ch_take_commits : H → H * list bytes;
}.

#[export] Instance node_channel_handler `{Hashes} `{SecpSign} `{!Encode TxRaw.t} `{!Encode HeaderRaw.t}
    `{!Encode Transaction.t} `{!Encode Block.t} `{!Decode Block.t} `{!Decode Transaction.t} :
    ChannelHandler NodeChannelHandler := {|
  ch_head := Node.head;
  ch_on_block := on_block;
  ch_on_transaction := on_transaction;
  ch_block_bytes := block_bytes;
  ch_on_pbft_commit := on_pbft_commit;
  ch_take_commits n :=
    match n_commit_out n with
    | Some out => (n <| n_commit_out := Some [] |>, out)
    | None => (n, [])
    end;
|}.

(** ** The handshake ([handle_peer], first part) *)

Definition handshake (initiator : bool) (hello : bytes) : chan () :=
  if initiator then
    _ ← write_frame (Wire.Frame.mk MessageType.P2pHello hello);
    peer ← read_frame;
    expect MessageType.P2pHello peer
  else
    _ ← accept_handshake hello;
    mret ().

(** ** A peer task *)

Inductive Advertise :=
| AdvBlock (n : Z)
| AdvTx (bs : bytes)
| AdvPbftCommit (bs : bytes).

(** A connection: its place in the broadcast channel, the frames written to it, and how
    many more writes it takes before it breaks ([None]: it does not). *)
Record conn := mk_conn { c_pos : nat; c_out : list Wire.Frame.t; c_left : option nat }.
#[export] Instance eta_conn : Eta conn := λ c, mk_conn (c_pos c) (c_out c) (c_left c).

(** What a task works on: the shared handler and broadcast channel, and its connection. *)
Record task (H : Type) := mk_task { t_handler : H; t_log : list Advertise; t_conn : conn }.
Arguments mk_task {H} _ _ _.
Arguments t_handler {H} _.
Arguments t_log {H} _.
Arguments t_conn {H} _.
#[export] Instance eta_task H : Eta (task H) := λ t, mk_task (t_handler t) (t_log t) (t_conn t).

(** [broadcast::channel(256)]. *)
Definition ADVERTISE_CAPACITY : nat := 256.

Inductive recv_result := Received (a : Advertise) | Lagged | NotReady.
(** [adv_rx.recv()]: a receiver that fell behind by more than the capacity skips ahead. *)
Definition recv (log : list Advertise) (pos : nat) : recv_result * nat :=
  let oldest := (length log - ADVERTISE_CAPACITY)%nat in
  if (pos <? oldest)%nat then (Lagged, oldest) else
  match log !! pos with
  | Some a => (Received a, S pos)
  | None => (NotReady, pos)
  end.

Section Task.
Context {H : Type} `{!ChannelHandler H}.
Abbreviation TM := (ST (task H) ChannelError).

Definition peer_write (f : Wire.Frame.t) : TM () := λ t,
  match c_left (t_conn t) with
  | Some O => (Err (Io BrokenPipe), t)
  | more => (Ok (), t <| t_conn ::= λ c, c <| c_out ::= λ o, o ++ [f] |> <| c_left := pred <$> more |> |>)
  end.
Definition advertise (a : Advertise) : TM () := modify (λ t, t <| t_log ::= λ l, l ++ [a] |>).

(** Run the handler, whose methods do not fail; the commits it broadcasts meanwhile enter
    the channel. *)
Definition with_handler {A} (m : ST H () A) : TM A := λ t,
  let '(r, h) := m (t_handler t) in
  let '(h, commits) := ch_take_commits h in
  (match r with Ok a => Ok a | Err _ => Panic | Panic => Panic end,
   t <| t_handler := h |> <| t_log ::= λ l, l ++ (AdvPbftCommit <$> commits) |>).

(** The inventory loop: ask for every block above our head. *)
Fixpoint request_missing (head : Z) (numbers : list Z) : TM () :=
  match numbers with
  | [] => mret ()
  | n :: numbers =>
      _ ← (if head <? n then peer_write (Wire.Frame.mk MessageType.FetchInvData (encode_numbers [n])) else mret ());
      request_missing head numbers
  end.

Definition handle_frame (f : Wire.Frame.t) (now_ms : Z) : TM () :=
  let payload := Wire.Frame.payload f in
  match Wire.Frame.kind f with
  | MessageType.P2pPing => peer_write (Wire.Frame.mk MessageType.P2pPong [])
  | MessageType.P2pPong => mret ()
  | MessageType.BlockInventory =>
      head ← gets (λ t, ch_head (t_handler t));
      request_missing head (decode_numbers payload)
  | MessageType.FetchInvData =>
      match decode_numbers payload with
      | n :: _ =>
          bs ← gets (λ t, default [] (ch_block_bytes n (t_handler t)));
          peer_write (Wire.Frame.mk MessageType.Block bs)
      | [] => mret ()
      end
  | MessageType.Block =>
      if bool_decide (payload ≠ []) then
        r ← with_handler (ch_on_block payload);
        match r with
        | Some new_head => advertise (AdvBlock new_head)
        | None => mret ()
        end
      else mret ()
  | MessageType.Trx => with_handler (ch_on_transaction payload now_ms)
  | MessageType.PbftCommit =>
      if bool_decide (payload ≠ []) then
        accepted ← with_handler (λ h, let '(h, b) := ch_on_pbft_commit payload h in (Ok b, h));
        if (accepted : bool) then advertise (AdvPbftCommit payload) else mret ()
      else mret ()
  | _ => mret ()
  end.

(** The turns of the select loop of [handle_peer]; [false] leaves the loop. *)
Inductive wakeup := Cancelled | Keepalive | Advertised | Inbound (f : option Wire.Frame.t).

(** [if op.await.is_err() { break }] *)
Definition or_break (m : TM ()) : TM bool := λ t,
  match m t with
  | (Ok _, t) => (Ok true, t)
  | (Err _, t) => (Ok false, t)
  | (Panic, t) => (Panic, t)
  end.

Definition adv_frame (a : Advertise) : Wire.Frame.t :=
  match a with
  | AdvBlock n => Wire.Frame.mk MessageType.BlockInventory (encode_numbers [n])
  | AdvTx bs => Wire.Frame.mk MessageType.Trx bs
  | AdvPbftCommit bs => Wire.Frame.mk MessageType.PbftCommit bs
  end.

Definition peer_turn (k : wakeup) (now_ms : Z) : TM bool :=
  match k with
  | Cancelled => mret false
  | Keepalive => or_break (peer_write (Wire.Frame.mk MessageType.P2pPing []))
  | Advertised =>
      adv ← gets (λ t, recv (t_log t) (c_pos (t_conn t)));
      _ ← modify (λ t, t <| t_conn ::= λ c, c <| c_pos := adv.2 |> |>);
      match adv.1 with
      | Received a => or_break (peer_write (adv_frame a))
      | Lagged | NotReady => mret true
      end
  | Inbound (Some f) => or_break (handle_frame f now_ms)
  | Inbound None => mret false
  end.
End Task.

(** ** The service *)

Record service (H : Type) := mk_service {
  s_handler : H; s_log : list Advertise; s_peers : gmap nat conn }.
Arguments mk_service {H} _ _ _.
Arguments s_handler {H} _.
Arguments s_log {H} _.
Arguments s_peers {H} _.
#[export] Instance eta_service H : Eta (service H) := λ s, mk_service (s_handler s) (s_log s) (s_peers s).

(** The task of a peer is spawned and subscribes to the channel ([spawn_peer]), or wakes up
    once its handshake is done. *)
Inductive sevent := Connected (pid : nat) (writes : option nat) | Wake (pid : nat) (k : wakeup) (now_ms : Z).

Section Service.
Context {H : Type} `{!ChannelHandler H}.

Definition service_step (e : sevent) : ST (service H) () () := λ s,
  match e with
  | Connected pid writes =>
      (Ok (), s <| s_peers ::= insert pid (mk_conn (length (s_log s)) [] writes) |>)
  | Wake pid k now_ms =>
      match s_peers s !! pid with
      | None => (Ok (), s)
      | Some c =>
          match peer_turn k now_ms (mk_task (s_handler s) (s_log s) c) with
          | (Ok true, t) => (Ok (), mk_service (t_handler t) (t_log t) (<[pid := t_conn t]> (s_peers s)))
          | (Ok false, t) => (Ok (), mk_service (t_handler t) (t_log t) (delete pid (s_peers s)))
          | (_, t) => (Panic, mk_service (t_handler t) (t_log t) (delete pid (s_peers s)))
          end
      end
  end.
Fixpoint run_service (es : list sevent) : ST (service H) () () :=
  match es with
  | [] => mret ()
  | e :: es => _ ← service_step e; run_service es
  end.
End Service.

(** ** Handshakes *)

Lemma hello_ok (hello : bytes) :
  Z.of_nat (length hello) ≤ MAX_MESSAGE_SIZE → frame_ok (Wire.Frame.mk MessageType.P2pHello hello).
Proof. done. Qed.

(** Two services complete their handshake in every interleaving. *)
Lemma handshake_completes (hello hello' : bytes) :
  Z.of_nat (length hello) ≤ MAX_MESSAGE_SIZE → Z.of_nat (length hello') ≤ MAX_MESSAGE_SIZE →
  let start := mk_net (handshake true hello) (handshake false hello') [] [] in
  sn step start ∧ ∀ x, rtc step start x → nf step x → x = mk_net (Done (Ok ())) (Done (Ok ())) [] [].
Proof.
  intros Hh Hh' start.
  set (f := Wire.Frame.mk MessageType.P2pHello hello). set (f' := Wire.Frame.mk MessageType.P2pHello hello').
  assert (Hrun : rtc step start (mk_net (Done (Ok ())) (Done (Ok ())) [] [])).
  { etrans; [apply client_runs, (write_frame_runs _ f)|]. etrans; [apply server_runs|].
    { rewrite app_nil_l, <-(app_nil_r (frame_bytes f)). unfold handshake, accept_handshake.
      eapply (pruns_trans _ _ _ _ _ _ _ []).
      - eapply pruns_bind. by apply (read_frame_bind _ f).
      - unfold expect. cbn [f Wire.Frame.kind]. rewrite bool_decide_eq_true_2 by done.
        eapply pruns_bind. apply (write_frame_runs _ f'). }
    rewrite !app_nil_l. etrans.
    { eapply (client_runs _ _ _ [] (frame_bytes f') [] []).
      rewrite <-(app_nil_r (frame_bytes f')). by apply (read_frame_bind _ f'). }
    unfold expect. cbn [f' Wire.Frame.kind]. by rewrite bool_decide_eq_true_2. }
  destruct (uniform_all _ _ _ step_uniform Hrun (net_done_nf _ _ _ _)) as [Hsn Hall].
  split; [done|]. intros x Hx Hnf. by apply Hall.
Qed.

(** A sync client that reaches the channel service is turned away: the service waits for a
    hello and hangs up on the [SyncBlockChain] request. *)
Lemma sync_refused (h : Z) (hello : bytes) :
  let start := mk_net (sync_from h) (handshake false hello) [] [] in
  sn step start ∧ ∀ x, rtc step start x → nf step x →
    client x = Done (Err (Io UnexpectedEof)) ∧ server x = Done (Err (FrameErr (UnknownType 8))).
Proof.
  intros start. set (req := Wire.Frame.mk MessageType.SyncBlockChain (encode_numbers [h])).
  assert (Hreq : frame_ok req) by (unfold frame_ok; cbn [req Wire.Frame.payload]; rewrite encode_numbers_length; done).
  assert (Hrun : rtc step start (mk_net (Done (Err (Io UnexpectedEof)))
    (Done (Err (FrameErr (UnknownType 8)))) [] [])).
  { etrans; [apply client_runs, (write_frame_runs _ req)|].
    etrans; [eapply (server_runs _ _ _ (frame_bytes req) [] [] [])|].
    { rewrite <-(app_nil_r (frame_bytes req)). unfold handshake, accept_handshake.
      eapply pruns_bind. by apply (read_frame_bind _ req). }
    apply (client_runs _ _ _ [] [] [] []). by apply pruns_one. }
  destruct (uniform_all _ _ _ step_uniform Hrun (net_done_nf _ _ _ _)) as [Hsn Hall].
  split; [done|]. intros x Hx Hnf. by rewrite (proj2 (Hall x Hx) Hnf).
Qed.

(** ** What the node announces *)

(** The height and signer of an encoded commit. *)
Definition commit_key `{Hashes} `{Secp} (bs : bytes) : option (Z * bytes) :=
  match PbftCommit.decode bs with
  | Some c => pair (PbftCommit.block_num c) <$> PbftCommit.recover_signer c
  | None => None
  end.
Definition block_adverts (log : list Advertise) : list Z :=
  omap (λ a, match a with AdvBlock n => Some n | _ => None end) log.
(** The commits announced, except those the witness [me] signed itself. *)
Definition foreign_key `{Hashes} `{Secp} (me : option Address) (a : Advertise) : option (Z * bytes) :=
  match a with
  | AdvPbftCommit bs => opt_filter (λ k, negb (bool_decide (Some k.2 = me))) (commit_key bs)
  | _ => None
  end.
Definition foreign_keys `{Hashes} `{Secp} (me : option Address) (log : list Advertise) : list (Z * bytes) :=
  omap (foreign_key me) log.

Section Announce.
Context `{HashLaws} `{SecpLaws} `{!Encode TxRaw.t} `{!Encode HeaderRaw.t} `{!Encode Transaction.t}
  `{!Encode Block.t} `{!Decode Block.t} `{!Decode Transaction.t}.
Implicit Types (n : NodeChannelHandler) (k : Z * bytes).

(** A commit that cannot be counted again: final height, or recorded signer. *)
Definition handled n k : Prop :=
  k.1 ≤ solidified n ∨ k.2 ∈ default ∅ (n_confirmations n !! k.1).

Lemma solidified_block_range (conf : gmap Z nat) h total s :
  is_i64 h → solidified_block conf h total = Some s → 1 ≤ s ≤ h ∧ is_i64 s.
Proof.
  intros Hh Es. destruct (solidified_loop_spec conf h total (Z.to_nat h) None 1)
    as (m & _ & Hm & _ & Hl); [lia|]. unfold solidified_block in Es. rewrite Hl in Es.
  destruct (Z.leb_spec 1 m) as [H1m|]; [|done]. injection Es as <-.
  assert (m ≤ h) by (apply Hm; lia). i64_lia.
Qed.

(** What one commit message does to the node. *)
Lemma on_pbft_commit_handled bs n :
  let '(n', accepted) := on_pbft_commit bs n in
  (∀ k, handled n k → handled n' k) ∧ head n' = head n ∧ active n' = active n ∧
  solidified n ≤ solidified n' ∧ n_witness n' = n_witness n ∧ n_commit_out n' = n_commit_out n ∧
  (accepted = true → ∃ k, commit_key bs = Some k ∧ ¬ handled n k ∧ handled n' k ∧
     k.2 ∈ active n ∧ solidified n < k.1).
Proof.
  destruct (on_pbft_commit_cases bs n)
    as [->|(c & a & S & Ec & Er & Ha & Hlt & ES & HaS & Hcase)]; [by split_and!|].
  set (conf := <[PbftCommit.block_num c := {[a]} ∪ S]> (n_confirmations n)) in *.
  set (k := (PbftCommit.block_num c, a)).
  assert (Hk : commit_key bs = Some k) by (unfold commit_key; by rewrite Ec, Er).
  assert (Hnot : ¬ handled n k) by (intros [?|?]; cbn in *; [lia|by rewrite ES in *]).
  assert (Hconf : ∀ k', k'.2 ∈ default ∅ (n_confirmations n !! k'.1) ∨ k' = k → k'.2 ∈ default ∅ (conf !! k'.1)).
  { intros [h b] Hb. cbn in *. unfold conf. rewrite lookup_insert. case_decide as Eh.
    - subst h. cbn. rewrite ES in Hb. destruct Hb as [Hb|[= ->]]; set_solver.
    - destruct Hb as [Hb|[= -> ->]]; done. }
  destruct Hcase as [->|(s & Es & Hs & ->)].
  - split_and!; try done.
    + intros k' [?|?]; [by left|]. right. apply Hconf. by left.
    + intros _. exists k. split_and!; try done. right. apply Hconf. by right.
  - apply solidified_block_range in Es as [Hrange Hi]; [|apply get_prop_is_i64].
    destruct (solidified_put s (n <| n_confirmations := conf |>) Hi) as (E1 & E2 & E3).
    set (n' := _ <| n_confirmations ::= _ |>).
    change (solidified n' = s) in E1. change (head n' = head n) in E2. change (active n' = active n) in E3.
    assert (Hfilter : ∀ k', k'.2 ∈ default ∅ (conf !! k'.1) → handled n' k').
    { intros [h b] Hb. cbn in Hb. destruct (decide (s ≤ h)) as [Hle|].
      - right. cbn. destruct (conf !! h) as [B|] eqn:EB; [|done].
        by rewrite (map_lookup_filter_Some_2 _ _ _ B).
      - left. rewrite E1. cbn. lia. }
    split_and!; try done.
    + intros k' [Hle|Hk']; [left; lia|]. apply Hfilter, Hconf. by left.
    + lia.
    + intros _. exists k. split_and!; try done. apply Hfilter, Hconf. by right.
Qed.

(** What stays of the counting state over any message. *)
Record evolves n n' : Prop := {
  ev_handled : ∀ k, handled n k → handled n' k;
  ev_active : active n' = active n;
  ev_solid : solidified n ≤ solidified n';
  ev_witness : n_witness n' = n_witness n;
}.
Lemma node_evolves_refl n : evolves n n.
Proof. by split. Qed.
Lemma node_evolves_trans n1 n2 n3 : evolves n1 n2 → evolves n2 n3 → evolves n1 n3.
Proof. intros [] []. split; [auto|congruence|lia|congruence]. Qed.
Lemma node_evolves_commit bs n : evolves n (on_pbft_commit bs n).1.
Proof.
  pose proof (on_pbft_commit_handled bs n) as Hc. destruct (on_pbft_commit bs n) as [n' b].
  destruct Hc as (? & _ & ? & ? & ? & _). by split.
Qed.
Lemma evolves_put_block (b : Block.t) n : evolves n (n <| n_world := put_block b (n_world n) |>).
Proof.
  assert (Es : solidified (n <| n_world := put_block b (n_world n) |>) = solidified n) by apply solidified_put_block.
  split; [|apply put_block_active|lia|done]. intros k [?|?]; [left; lia|by right].
Qed.

Definition me n : option Address := committer_address <$> n_witness n.
(** The witness configured by [with_witness]. *)
Definition witness_wf n : Prop :=
  ∀ w, n_witness n = Some w → committer_address w = address_from_public_key (public_key (committer_key w)).
Definition outbox n : list bytes := default [] (n_commit_out n).

Lemma own_commit_foreign (w : WitnessCommitter) n (num : Z) (i : bytes) :
  n_witness n = Some w → witness_wf n → is_i64 num → length i = 32%nat →
  foreign_key (me n) (AdvPbftCommit (own_commit w num i)) = None.
Proof.
  intros Ew Hw Hn Hi. destruct (own_commit_valid w num i Hn Hi) as (c & Ec & En & _ & Er).
  unfold foreign_key, commit_key. rewrite Ec, Er. simpl.
  unfold me. rewrite Ew. simpl. rewrite (Hw w Ew). by rewrite bool_decide_eq_true_2.
Qed.

Lemma emit_commit_announces num i n :
  witness_wf n → outbox n = [] → is_i64 num → length i = 32%nat →
  let n' := emit_commit num i n in
  evolves n n' ∧ head n' = head n ∧
  Forall (λ bs, foreign_key (me n) (AdvPbftCommit bs) = None) (outbox n').
Proof.
  intros Hw Ho Hn Hi n'. subst n'. unfold emit_commit.
  assert (Hsame : evolves n n ∧ head n = head n ∧
    Forall (λ bs, foreign_key (me n) (AdvPbftCommit bs) = None) (outbox n)).
  { rewrite Ho. split_and!; [apply node_evolves_refl|done|done]. }
  destruct (n_witness n) as [w|] eqn:Ew; [|done].
  destruct (_ =? 1); [|done]. case_bool_decide; [|done]. cbn [negb].
  pose proof (on_pbft_commit_handled (own_commit w num i) n) as Hc.
  destruct (on_pbft_commit (own_commit w num i) n) as [n' b]. cbn [fst].
  destruct Hc as (Hh & Ehead & Ea & Hs & Ewit & Eout & _). split_and!; [by split|done|].
  unfold outbox in *. cbn. rewrite Eout. destruct (n_commit_out n); cbn in *; [|done]. subst l.
  constructor; [|done]. by apply own_commit_foreign.
Qed.

(** What one block does to the node. *)
Lemma on_block_announces bs n :
  witness_wf n → outbox n = [] →
  let '(r, n') := on_block bs n in
  evolves n n' ∧ Forall (λ bs, foreign_key (me n) (AdvPbftCommit bs) = None) (outbox n') ∧
  match r with
  | Ok (Some h) => h = head n + 1 ∧ head n' = h
  | _ => head n' = head n
  end.
Proof.
  intros Hw Ho. unfold on_block. set (g := if bool_decide (_ = []) then None else Some _).
  destruct (apply_synced_blocks_gated _ _ g _) as [r w'] eqn:E.
  apply apply_one_block in E as [(-> & b & Eb & Eg & En & Hi & ->)|[Hr ->]].
  2: { assert (Hn : n <| n_world := n_world n |> = n) by (by destruct n).
       destruct r; [done|..]; rewrite Hn, Ho; (split_and!; [apply node_evolves_refl|done|done]). }
  rewrite bool_decide_eq_true_2, Eb by lia. cbv zeta.
  set (n1 := n <| n_world := put_block b (n_world n) |>).
  pose proof (evolves_put_block b n) as Hev. fold n1 in Hev.
  assert (Ho1 : outbox n1 = []) by done. assert (Hw1 : witness_wf n1) by done.
  destruct (synced_block_number _ _ En Hi) as [Hlt Hib].
  assert (Eh1 : head n1 = Z.max (head n) (block_number b)) by (unfold head, n1; cbn; by apply put_block_head).
  assert (Enum : head n1 = head n + 1 ∨ header_raw b = None).
  { rewrite Eh1. unfold head. unfold synced_number, block_number in *. destruct (header_raw b); [|by right]. left. lia. }
  destruct (header_raw b) as [raw|] eqn:Eraw.
  - assert (∃ i, block_id_of b = Some i ∧ length i = 32%nat) as (i & Ei & Hl).
    { unfold block_id_of, block_hash. rewrite Eraw. simpl. eexists. split; [done|].
      apply block_id_length, sha256_length. }
    rewrite Ei. destruct Enum as [Enum|]; [|done].
    destruct (emit_commit_announces (HeaderRaw.number raw) i n1 Hw1 Ho1) as (Hev2 & Eh2 & Hout); [|done|].
    { unfold synced_number in En. rewrite Eraw in En. by rewrite En. }
    split_and!; [by eapply node_evolves_trans|done|by rewrite Eh2|done].
  - (* a block without a header does not pass the gate *)
    exfalso. unfold gate, header_raw in *. destruct g; simpl in Eg; revert Eg.
    + destruct (validate_block_intake b l) as [[]| |] eqn:Ev; try done. intros _.
      apply intake_iff in Ev as (raw & a & Hok). pose proof (gate_raw _ _ _ _ Hok) as Er.
      unfold header_raw in Er. by rewrite Eraw in Er.
    + unfold validate_block, ok_or. destruct (Block.block_header b) as [hd|]; [|done]. simpl in *.
      by rewrite Eraw.
Qed.

(** The announcements since the node was in state [n0]. *)
Record gossip n0 (log0 : list Advertise) n (log : list Advertise) : Prop := {
  gs_evolves : evolves n0 n;
  gs_head : head n0 ≤ head n;
  gs_outbox : outbox n = [];
  gs_log : ∃ new, log = log0 ++ new ∧
    block_adverts new = seqZ (head n0 + 1) (head n - head n0) ∧
    NoDup (foreign_keys (me n0) new) ∧
    ∀ k, k ∈ foreign_keys (me n0) new → handled n k ∧ k.2 ∈ active n0 ∧ solidified n0 < k.1;
}.

Lemma gossip_refl n log : outbox n = [] → gossip n log n log.
Proof.
  intros Ho. split; [apply node_evolves_refl|done|done|]. exists []. rewrite app_nil_r, Z.sub_diag.
  split_and!; [done|done|constructor|]. intros k Hk. by apply elem_of_nil in Hk.
Qed.

Lemma block_adverts_app l l' : block_adverts (l ++ l') = block_adverts l ++ block_adverts l'.
Proof. apply omap_app. Qed.
Lemma foreign_keys_app m l l' : foreign_keys m (l ++ l') = foreign_keys m l ++ foreign_keys m l'.
Proof. apply omap_app. Qed.
Lemma block_adverts_commits l : block_adverts (AdvPbftCommit <$> l) = [].
Proof. by induction l. Qed.
Lemma foreign_keys_own m l :
  Forall (λ bs, foreign_key m (AdvPbftCommit bs) = None) l → foreign_keys m (AdvPbftCommit <$> l) = [].
Proof. induction 1 as [|bs l Hb _ IH]; [done|]. unfold foreign_keys in *. cbn [fmap list_fmap omap list_omap]. by rewrite Hb. Qed.

Lemma me_evolves n0 n : evolves n0 n → me n = me n0.
Proof. intros []. unfold me. congruence. Qed.
Lemma witness_wf_evolves n0 n : evolves n0 n → witness_wf n0 → witness_wf n.
Proof. intros [] Hw w. rewrite ev_witness0. apply Hw. Qed.

(** Messages that announce nothing but the node's own commits. *)
Lemma gossip_quiet n0 log0 n log n' own :
  gossip n0 log0 n log → evolves n n' → head n' = head n → outbox n' = [] →
  Forall (λ bs, foreign_key (me n0) (AdvPbftCommit bs) = None) own →
  gossip n0 log0 n' (log ++ (AdvPbftCommit <$> own)).
Proof.
  intros [Hev Hh Ho (new & -> & Hb & Hnd & Hk)] Hev' Eh Ho' Hown.
  split; [by eapply node_evolves_trans|lia|done|]. exists (new ++ (AdvPbftCommit <$> own)).
  rewrite block_adverts_app, block_adverts_commits, foreign_keys_app, foreign_keys_own, !app_nil_r by done.
  split_and!; [by rewrite app_assoc|by rewrite Eh|done|]. intros k Hin. destruct (Hk k Hin) as (? & ? & ?).
  split_and!; [by apply Hev'|done|done].
Qed.

Lemma gossip_new_block n0 log0 n log n' own :
  gossip n0 log0 n log → evolves n n' → head n' = head n + 1 → outbox n' = [] →
  Forall (λ bs, foreign_key (me n0) (AdvPbftCommit bs) = None) own →
  gossip n0 log0 n' ((log ++ (AdvPbftCommit <$> own)) ++ [AdvBlock (head n + 1)]).
Proof.
  intros [Hev Hh Ho (new & -> & Hb & Hnd & Hk)] Hev' Eh Ho' Hown.
  split; [by eapply node_evolves_trans|lia|done|].
  exists ((new ++ (AdvPbftCommit <$> own)) ++ [AdvBlock (head n + 1)]).
  rewrite !block_adverts_app, block_adverts_commits, !foreign_keys_app, foreign_keys_own, !app_nil_r, Hb by done.
  split_and!; [by rewrite !app_assoc| |done|].
  - rewrite Eh. replace (head n + 1 - head n0) with ((head n - head n0) + 1) by lia.
    rewrite seqZ_app by lia. f_equal. by replace (head n0 + 1 + (head n - head n0)) with (head n + 1) by lia.
  - intros k Hin. destruct (Hk k Hin) as (? & ? & ?). split_and!; [by apply Hev'|done|done].
Qed.

Lemma gossip_new_commit n0 log0 n log n' bs :
  gossip n0 log0 n log → evolves n n' → head n' = head n → outbox n' = [] →
  (∃ k, commit_key bs = Some k ∧ ¬ handled n k ∧ handled n' k ∧ k.2 ∈ active n ∧ solidified n < k.1) →
  gossip n0 log0 n' (log ++ [AdvPbftCommit bs]).
Proof.
  intros [Hev Hh Ho (new & -> & Hb & Hnd & Hk)] Hev' Eh Ho' (k & Ek & Hnot & Hk' & Ha & Hs).
  split; [by eapply node_evolves_trans|lia|done|]. exists (new ++ [AdvPbftCommit bs]).
  rewrite block_adverts_app, foreign_keys_app, app_nil_r.
  assert (Hone : foreign_keys (me n0) [AdvPbftCommit bs] = [] ∨ foreign_keys (me n0) [AdvPbftCommit bs] = [k]).
  { unfold foreign_keys. cbn. rewrite Ek. cbn. destruct (negb _); auto. }
  split_and!; [by rewrite app_assoc|by rewrite Eh| |].
  - destruct Hone as [->| ->]; [by rewrite app_nil_r|]. apply NoDup_app. split_and!; [done| |apply NoDup_singleton].
    intros x Hx ->%list_elem_of_singleton. by apply Hnot, Hk.
  - intros x [Hx|Hx]%elem_of_app.
    + destruct (Hk x Hx) as (? & ? & ?). split_and!; [by apply Hev'|done|done].
    + assert (x = k) as -> by (destruct Hone as [E|E]; rewrite E in Hx;
        [by apply elem_of_nil in Hx|by apply list_elem_of_singleton in Hx]).
      split_and!; [done|by rewrite <-(ev_active _ _ Hev)|]. destruct Hev. lia.
Qed.

(** Draining the outbox changes nothing else. *)
Lemma take_commits_spec n :
  ∃ n', ch_take_commits n = (n', outbox n) ∧ outbox n' = [] ∧ evolves n n' ∧ head n' = head n.
Proof.
  cbn. unfold outbox. destruct (n_commit_out n) eqn:E; eexists; split; try done.
  rewrite E. split_and!; [done|apply node_evolves_refl|done].
Qed.

Abbreviation gossip_task n0 log0 t := (gossip n0 log0 (t_handler t) (t_log t)).

Lemma with_handler_quiet {A} n0 log0 (m : ST NodeChannelHandler () A) (t : task NodeChannelHandler) :
  gossip_task n0 log0 t →
  (let n' := (m (t_handler t)).2 in evolves (t_handler t) n' ∧ head n' = head (t_handler t) ∧
     Forall (λ bs, foreign_key (me n0) (AdvPbftCommit bs) = None) (outbox n')) →
  gossip_task n0 log0 (with_handler m t).2.
Proof.
  intros Hg. unfold with_handler. destruct (m (t_handler t)) as [r n']. cbv zeta. cbn [snd]. intros (He & Eh & Hown).
  destruct (take_commits_spec n') as (n2 & -> & Ho2 & He2 & Eh2). cbn.
  eapply gossip_quiet; [done|by eapply node_evolves_trans|congruence|done|done].
Qed.

Lemma handle_frame_gossip n0 log0 f now (t : task NodeChannelHandler) :
  witness_wf n0 → gossip_task n0 log0 t → gossip_task n0 log0 (handle_frame f now t).2.
Proof.
  intros Hw0 Hg. pose proof (gs_evolves _ _ _ _ Hg) as Hev. pose proof (gs_outbox _ _ _ _ Hg) as Ho.
  pose proof (witness_wf_evolves _ _ Hev Hw0) as Hw. pose proof (me_evolves _ _ Hev) as Eme.
  unfold handle_frame. destruct (Wire.Frame.kind f); try done.
  - (* Trx *)
    apply with_handler_quiet; [done|]. set (p := Wire.Frame.payload f).
    change (ch_on_transaction p now) with (on_transaction p now). unfold on_transaction.
    destruct (decode p) as [|tx]; cbv zeta; cbn [snd].
    + rewrite Ho. split_and!; [apply node_evolves_refl|done|done].
    + split_and!; [by split|done|]. unfold outbox in Ho |- *. cbn. by rewrite Ho.
  - (* Block *)
    case_bool_decide; [|done]. unfold mbind, ST_bind, with_handler.
    change (ch_on_block (Wire.Frame.payload f)) with (on_block (Wire.Frame.payload f)).
    pose proof (on_block_announces (Wire.Frame.payload f) (t_handler t) Hw Ho) as Hb.
    destruct (on_block _ _) as [r n']. destruct Hb as (He & Hown & Hr).
    destruct (take_commits_spec n') as (n2 & -> & Ho2 & He2 & Eh2). rewrite Eme in Hown.
    destruct r as [[h|]| |]; cbn.
    + destruct Hr as [-> Eh]. eapply gossip_new_block; [done|by eapply node_evolves_trans|congruence|done|done].
    + eapply gossip_quiet; [done|by eapply node_evolves_trans|congruence|done|done].
    + eapply gossip_quiet; [done|by eapply node_evolves_trans|congruence|done|done].
    + eapply gossip_quiet; [done|by eapply node_evolves_trans|congruence|done|done].
  - (* FetchInvData *)
    destruct (decode_numbers _); [done|]. rewrite run_gets. unfold peer_write. by repeat case_match.
  - (* BlockInventory *)
    rewrite run_gets. generalize (ch_head (t_handler t)) as h. intros h.
    generalize (decode_numbers (Wire.Frame.payload f)) as ns. intros ns. clear Hev Ho Hw Eme.
    revert t Hg. induction ns as [|m ns IH]; intros t Hg; [done|]. cbn [request_missing].
    unfold mbind, ST_bind. destruct (h <? m); [|by apply IH]. unfold peer_write.
    repeat case_match; simplify_eq; try done; by apply IH.
  - (* PbftCommit *)
    case_bool_decide; [|done]. unfold mbind, ST_bind, with_handler. set (p := Wire.Frame.payload f).
    change (ch_on_pbft_commit p) with (on_pbft_commit p).
    pose proof (on_pbft_commit_handled p (t_handler t)) as Hc. destruct (on_pbft_commit _ _) as [n' b].
    destruct Hc as (Hh & Eh & Ea & Hs & Ewit & Eout & Hacc).
    assert (He : evolves (t_handler t) n') by by split.
    destruct (take_commits_spec n') as (n2 & -> & Ho2 & He2 & Eh2).
    assert (Ho' : outbox n' = []) by (unfold outbox in *; by rewrite Eout). rewrite Ho'.
    destruct b; cbn; rewrite app_nil_r.
    + eapply gossip_new_commit; [done|by eapply node_evolves_trans|congruence|done|].
      destruct (Hacc eq_refl) as (k & ? & ? & ? & ? & ?). exists k. split_and!; try done. by apply He2.
    + rewrite <-(app_nil_r (t_log t)). eapply (gossip_quiet _ _ _ _ _ []);
        [done|by eapply node_evolves_trans|congruence|done|done].
  - (* P2pPing *) unfold peer_write. by repeat case_match.
Qed.

Lemma or_break_snd (m : ST (task NodeChannelHandler) ChannelError ()) t : (or_break m t).2 = (m t).2.
Proof. unfold or_break. by destruct (m t) as [[]]. Qed.
Lemma peer_write_gossip n0 log0 f (t : task NodeChannelHandler) :
  gossip_task n0 log0 t → gossip_task n0 log0 (peer_write f t).2.
Proof. unfold peer_write. by repeat case_match. Qed.

Lemma peer_turn_gossip n0 log0 (k : wakeup) now (t : task NodeChannelHandler) :
  witness_wf n0 → gossip_task n0 log0 t → gossip_task n0 log0 (peer_turn k now t).2.
Proof.
  intros Hw Hg. destruct k as [| | |[f|]]; cbn [peer_turn]; rewrite ?or_break_snd.
  - done.
  - by apply peer_write_gossip.
  - rewrite run_gets, run_modify. destruct (recv _ _) as [[a| |] pos]; cbn [fst snd]; rewrite ?or_break_snd; [|done..].
    by apply peer_write_gossip.
  - by apply handle_frame_gossip.
  - done.
Qed.

Lemma service_step_gossip n0 log0 e (s : service NodeChannelHandler) :
  witness_wf n0 → gossip n0 log0 (s_handler s) (s_log s) →
  gossip n0 log0 (s_handler (service_step e s).2) (s_log (service_step e s).2).
Proof.
  intros Hw Hg. destruct e as [pid writes|pid k now]; cbn [service_step]; [done|].
  destruct (s_peers s !! pid) as [c|]; [|done].
  pose proof (peer_turn_gossip n0 log0 k now (mk_task (s_handler s) (s_log s) c) Hw Hg) as Ht.
  by destruct (peer_turn _ _ _) as [[[]| |] t].
Qed.

Lemma run_service_gossip n0 log0 es (s : service NodeChannelHandler) :
  witness_wf n0 → gossip n0 log0 (s_handler s) (s_log s) →
  gossip n0 log0 (s_handler (run_service es s).2) (s_log (run_service es s).2).
Proof.
  intros Hw. revert s. induction es as [|e es IH]; intros s Hg; [done|]. cbn [run_service].
  pose proof (service_step_gossip n0 log0 e s Hw Hg) as He. unfold mbind, ST_bind.
  destruct (service_step e s) as [[u| |] s1]; [by apply IH|done..].
Qed.

(** C18: gossip terminates.  Over any sequence of connections, pings, announcements, frames
    and broken connections, the service announces exactly the blocks its node accepted,
    each once and in chain order from the old head to the new one; and it relays a commit
    of another witness at most once per height and signer, only for active witnesses and
    heights that were not final: nothing a peer repeats is announced again. *)
Theorem gossip_once (es : list sevent) (s s' : service NodeChannelHandler) r :
  witness_wf (s_handler s) → outbox (s_handler s) = [] → run_service es s = (r, s') →
  let n := s_handler s in let n' := s_handler s' in
  ∃ new, s_log s' = s_log s ++ new ∧
    block_adverts new = seqZ (head n + 1) (head n' - head n) ∧ head n ≤ head n' ∧
    NoDup (foreign_keys (me n) new) ∧
    ∀ k, k ∈ foreign_keys (me n) new → k.2 ∈ active n ∧ solidified n < k.1 ∧ handled n' k.
Proof.
  intros Hw Ho E n n'. pose proof (run_service_gossip n (s_log s) es s Hw (gossip_refl _ _ Ho)) as Hg.
  rewrite E in Hg. destruct Hg as [_ Hh _ (new & El & Hb & Hnd & Hk)]. exists new.
  split_and!; [done|done|done|done|]. intros k Hin. destruct (Hk k Hin) as (? & ? & ?). by split_and!.
Qed.
End Announce.

(** ** Sample *)

Module GossipSample.
Export NodeSample.
(** A peer sends the same block twice and the same commit twice. *)
Definition frames : list Wire.Frame.t :=
  [Wire.Frame.mk MessageType.Block (i64_to_be_bytes 1); Wire.Frame.mk MessageType.Block (i64_to_be_bytes 1);
   Wire.Frame.mk MessageType.P2pPing []].
Definition events : list sevent :=
  Connected 0 None :: ((λ f, Wake 0 (Inbound (Some f)) 0) <$> frames).
Definition start : service NodeChannelHandler := mk_service node [] ∅.
End GossipSample.
Import GossipSample.

Lemma gossip_once_witness :
  ∃ s', run_service events start = (Ok (), s') ∧ block_adverts (s_log s') = [1].
Proof.
  destruct (run_service events start) as [r s'] eqn:E.
  destruct (gossip_once events start s' r) as (new & El & Hb & _).
  - intros w [= <-]. done.
  - done.
  - exact E.
  - assert (Er : r = Ok ()) by (change r with (r, s').1; rewrite <-E; by vm_compute).
    subst r. exists s'. split; [done|]. change (s_log start) with (@nil Advertise) in El. rewrite El, app_nil_l, Hb.
    assert (Eh : head (s_handler s') = 1).
    { change s' with (@Ok () () tt, s').2. rewrite <-E. by vm_compute. }
    rewrite Eh. by vm_compute.
Defined.
