(* ===== verification/Reader.v ===== *)
(** * The inbound side of a peer connection (src/crates/p2p/src/service.rs)

    A task of its own reads frames from the stream and hands them to the select loop through
    a bounded channel.  Bytes arrive in pieces of any size, the reader and the select loop
    take turns in any order, the peer may close and the service may be cancelled: the frames
    handled are the frames of the stream, whole and in order.  The channel service's
    configuration and its first connections are here too. *)

From stdpp Require Import gmap strings pretty numbers fin_maps prelude relations.
From S2P Require Import Prelude Types Proto State Chain Wire Node Gossip.
Open Scope Z_scope.

(** ** Configuration and first connections *)

Module ChannelConfig.
(** [keepalive] in milliseconds. *)
Record t := mk { keepalive : Z; hello : bytes }.
Definition default : t := mk 10000 (bytes_of_string "tron-rs/p2p").
End ChannelConfig.

(** [ChannelHandle::live_peers]: the subscribed peer tasks. *)
Definition live_peers {H} (s : service H) : nat := size (s_peers s).

(** The first loop of [ChannelService::run]: a task for each address that can be connected,
    [connect] giving how many writes the connection takes. *)
Fixpoint dial_peers {A} (connect : A → option (option nat)) (dial : list A) (pid : nat) : list sevent :=
  match dial with
  | [] => []
  | addr :: dial =>
      match connect addr with
      | Some writes => Connected pid writes :: dial_peers connect dial (S pid)
      | None => dial_peers connect dial pid
      end
  end.

(** ** The read task *)

(** [mpsc::channel(64)]. *)
Definition INBOUND_CAPACITY : nat := 64.

(** The task waits in [read_frame], waits in [in_tx.send], or has left its loop. *)
Inductive read_task := Reading (p : chan Wire.Frame.t) | Sending (f : Wire.Frame.t) | Ended.

(** The bytes that arrived and are not read yet, whether the peer has closed, whether the
    task was stopped, the task, the channel, and the frames the select loop has taken. *)
Record inbound := mk_inbound {
  i_wire : bytes; i_closed : bool; i_stopped : bool; i_task : read_task;
  i_queue : list Wire.Frame.t; i_handled : list Wire.Frame.t }.
Definition new_inbound : inbound := mk_inbound [] false false (Reading read_frame) [] [].

(** A turn of the reader or of the receiving end. *)
Inductive read_step : inbound → inbound → Prop :=
| read_bytes wire closed stopped p p' wire' sent q h :
    pstep p wire closed = Some (p', wire', sent) →
    read_step (mk_inbound wire closed stopped (Reading p) q h)
      (mk_inbound wire' closed stopped (Reading p') q h)
| read_parsed wire closed stopped f q h :
    read_step (mk_inbound wire closed stopped (Reading (Done (Ok f))) q h)
      (mk_inbound wire closed stopped (Sending f) q h)
| read_failed wire closed stopped e q h :
    read_step (mk_inbound wire closed stopped (Reading (Done (Err e))) q h)
      (mk_inbound wire closed stopped Ended q h)
| read_send wire closed stopped f q h :
    (length q < INBOUND_CAPACITY)%nat →
    read_step (mk_inbound wire closed stopped (Sending f) q h)
      (mk_inbound wire closed stopped (Reading read_frame) (q ++ [f]) h)
| read_recv wire closed stopped t f q h :
    read_step (mk_inbound wire closed stopped t (f :: q) h)
      (mk_inbound wire closed stopped t q (h ++ [f])).

(** A connection after its handshake and the bytes the peer has sent on it: besides the turns
    above, bytes arrive, the peer closes, or the task is stopped: the token is cancelled while
    it waits for a frame, or the select loop has ended and aborts it. *)
Inductive received : bytes → inbound → Prop :=
| recv_new : received [] new_inbound
| recv_step total x y : received total x → read_step x y → received total y
| recv_bytes total more wire stopped t q h :
    received total (mk_inbound wire false stopped t q h) →
    received (total ++ more) (mk_inbound (wire ++ more) false stopped t q h)
| recv_close total wire stopped t q h :
    received total (mk_inbound wire false stopped t q h) →
    received total (mk_inbound wire true stopped t q h)
| recv_stop total wire closed c t q h :
    received total (mk_inbound wire closed c t q h) →
    received total (mk_inbound wire closed true Ended q h).

(** ** Frames on a stream *)

Definition stream (fs : list Wire.Frame.t) : bytes := fs ≫= frame_bytes.

Lemma stream_app fs gs : stream (fs ++ gs) = stream fs ++ stream gs.
Proof. apply bind_app. Qed.
Lemma stream_cons f fs : stream (f :: fs) = frame_bytes f ++ stream fs.
Proof. done. Qed.

Lemma frame_length f : frame_ok f → (length (frame_bytes f) = 5 + length (Wire.Frame.payload f))%nat.
Proof. intros _. unfold frame_bytes. rewrite length_app, frame_header_length. done. Qed.

(** The first bytes of a frame are its length. *)
Lemma frame_split hd body f rest :
  frame_ok f → length hd = 4%nat → hd ++ body = frame_bytes f ++ rest →
  from_be_unsigned hd = Z.of_nat (length (Wire.Frame.encode f)) ∧ body = Wire.Frame.encode f ++ rest.
Proof.
  intros Hf Hl. unfold frame_bytes. rewrite <-app_assoc. intros [-> ->]%app_inj_1.
  2: by rewrite frame_header_length.
  unfold frame_ok, MAX_MESSAGE_SIZE in Hf. rewrite frame_header_value by lia.
  unfold Wire.Frame.encode. cbn [length]. split; [lia|done].
Qed.

Lemma frame_bytes_inj f g r r' :
  frame_ok f → frame_ok g → frame_bytes f ++ r = frame_bytes g ++ r' → f = g ∧ r = r'.
Proof.
  intros Hf Hg. unfold frame_bytes at 1. rewrite <-app_assoc. intros [Hl E]%frame_split; [|done|apply frame_header_length].
  unfold frame_ok, MAX_MESSAGE_SIZE in Hf. rewrite frame_header_value in Hl by lia.
  apply app_inj_1 in E as [E ->].
  2: { unfold Wire.Frame.encode in *. cbn [length] in *. lia. }
  pose proof (frame_decode_encode f Hf) as Ef. rewrite E, frame_decode_encode in Ef by done. by injection Ef as ->.
Qed.

(** A stream starts with its frames in one way. *)
Lemma stream_unique fs gs r r' :
  Forall frame_ok fs → Forall frame_ok gs → stream fs ++ r = stream gs ++ r' →
  fs `prefix_of` gs ∨ ∃ f fs', frame_ok f ∧ fs = gs ++ f :: fs' ∧ r' = frame_bytes f ++ stream fs' ++ r.
Proof.
  intros Hf. revert gs. induction Hf as [|f fs Hf Hfs IH]; intros gs Hg E.
  { left. apply prefix_nil. }
  destruct gs as [|g gs].
  { right. exists f, fs. split_and!; [done|done|]. rewrite stream_cons, <-app_assoc in E. done. }
  inversion Hg; subst. rewrite !stream_cons, <-!app_assoc in E. apply frame_bytes_inj in E as [-> E]; [|done..].
  destruct (IH gs) as [Hp|(f0 & fs' & Hf0 & -> & ->)]; [done|done| |].
  - left. by apply prefix_cons.
  - right. by exists f0, fs'.
Qed.

(** ** Where the reader is *)

(** No frame starts with [bs], nor with what may follow it. *)
Definition no_frame (closed : bool) (bs : bytes) : Prop :=
  ∀ f more rest, (closed = true → more = []) → frame_ok f → bs ++ more ≠ frame_bytes f ++ rest.

(** What the task has consumed of the frame it works on, and how far it is. *)
Inductive phase (closed stopped : bool) (wire : bytes) : read_task → bytes → nat → Prop :=
| ph_header : phase closed stopped wire (Reading read_frame) [] 2
| ph_body hd :
    length hd = 4%nat → from_be_unsigned hd ≤ MAX_MESSAGE_SIZE + 1 →
    phase closed stopped wire (Reading (read_body (inl hd))) hd 6
| ph_frame f : frame_ok f → phase closed stopped wire (Reading (Done (Ok f))) (frame_bytes f) 5
| ph_sending f : frame_ok f → phase closed stopped wire (Sending f) (frame_bytes f) 4
| ph_error e c : no_frame closed (c ++ wire) → phase closed stopped wire (Reading (Done (Err e))) c 1
| ph_ended c : stopped = true ∨ no_frame closed (c ++ wire) → phase closed stopped wire Ended c 0.

Record inbound_inv (total : bytes) (x : inbound) (n : nat) : Prop := {
  inv_frames : Forall frame_ok (i_handled x ++ i_queue x);
  inv_room : (length (i_queue x) ≤ INBOUND_CAPACITY)%nat;
  inv_bytes : Forall is_byte total;
  inv_phase : ∃ c k, phase (i_closed x) (i_stopped x) (i_wire x) (i_task x) c k ∧
    total = stream (i_handled x ++ i_queue x) ++ c ++ i_wire x ∧
    n = (8 * length (i_wire x) + k + length (i_queue x))%nat
}.

Lemma no_frame_more bs more : no_frame false bs → no_frame false (bs ++ more).
Proof. intros Hb f m rest _ Hf. rewrite <-app_assoc. by apply Hb. Qed.
Lemma no_frame_closed closed bs : no_frame false bs → no_frame closed bs.
Proof. intros Hb f m rest _. by apply Hb. Qed.
Lemma no_frame_short bs : (length bs < 5)%nat → no_frame true bs.
Proof.
  intros Hl f m rest Hm Hf E. rewrite (Hm eq_refl), app_nil_r in E. subst.
  rewrite length_app, frame_length in Hl by done. lia.
Qed.

(** A header that declares too much, a body that is cut off or does not decode. *)
Lemma no_frame_large hd closed wire :
  length hd = 4%nat → MAX_MESSAGE_SIZE + 1 < from_be_unsigned hd → no_frame closed (hd ++ wire).
Proof.
  intros Hl Hb f m rest _ Hf. rewrite <-app_assoc. intros [E _]%frame_split; [|done..].
  unfold frame_ok, Wire.Frame.encode in *. cbn [length] in E. lia.
Qed.
Lemma no_frame_cut hd wire :
  length hd = 4%nat → (length wire < Z.to_nat (from_be_unsigned hd))%nat → no_frame true (hd ++ wire).
Proof.
  intros Hl Hb f m rest Hm Hf. rewrite (Hm eq_refl), app_nil_r. intros [E ->]%frame_split; [|done..].
  rewrite length_app in Hb. lia.
Qed.
Lemma no_frame_garbled hd body e closed wire :
  length hd = 4%nat → length body = Z.to_nat (from_be_unsigned hd) → Wire.Frame.decode body = Err e →
  no_frame closed ((hd ++ body) ++ wire).
Proof.
  intros Hl Hb He f m rest _ Hf. rewrite <-!app_assoc. intros [E Ew]%frame_split; [|done..].
  apply app_inj_1 in Ew as [-> _]; [|lia]. by rewrite frame_decode_encode in He.
Qed.

(** A decoded body is that of the frame with its header. *)
Lemma frame_of_body hd body f :
  Forall is_byte hd → length hd = 4%nat → length body = Z.to_nat (from_be_unsigned hd) →
  Wire.Frame.decode body = Ok f → frame_bytes f = hd ++ body ∧ frame_ok f.
Proof.
  intros Hh Hl Hb [<- Hf]%frame_encode_decode. split; [|done]. unfold frame_bytes. f_equal. rewrite Hb.
  pose proof (be_combine_bound hd Hh). unfold from_be_unsigned in *. rewrite Z2Nat.id by lia.
  by apply to_from_be_bytes.
Qed.
Lemma frame_decode_no_panic body : Wire.Frame.decode body ≠ Panic.
Proof. unfold Wire.Frame.decode. destruct body; [done|]. case_match; [done|]. by destruct (MessageType.from_u8 _). Qed.

(** ** Invariant *)

Lemma pstep_header wire closed :
  pstep read_frame wire closed =
    if bool_decide (4 ≤ length wire)%nat then Some (read_body (inl (take 4 wire)), drop 4 wire, [])
    else if closed then Some (fail (Io UnexpectedEof), [], []) else None.
Proof. done. Qed.
Lemma pstep_body hd wire closed :
  from_be_unsigned hd ≤ MAX_MESSAGE_SIZE + 1 →
  let n := Z.to_nat (from_be_unsigned hd) in
  pstep (read_body (inl hd)) wire closed =
    if bool_decide (n ≤ length wire)%nat
    then Some (match Wire.Frame.decode (take n wire) with
               | Ok f => Done (Ok f) | Err e => Done (Err (FrameErr e)) | Panic => Done Panic end, drop n wire, [])
    else if closed then Some (fail (Io UnexpectedEof), [], []) else None.
Proof.
  intros Hl n. unfold read_body. rewrite (proj2 (Z.ltb_ge _ _)) by done. reflexivity.
Qed.

Lemma phase_done closed stopped wire r c k :
  phase closed stopped wire (Reading (Done r)) c k →
  match r with
  | Ok f => c = frame_bytes f ∧ frame_ok f ∧ k = 5%nat
  | Err _ => no_frame closed (c ++ wire) ∧ k = 1%nat
  | Panic => False
  end.
Proof.
  intros Hp. inversion Hp as [|hd Hl Hm E| | | |]; subst; [|done..].
  change (read_body (inl c) = Done r) in E. pose proof (pstep_body c [] true Hm) as Ep. rewrite E in Ep.
  cbn in Ep. by case_bool_decide.
Qed.

(** A turn on the stream goes to a later phase. *)
Lemma phase_bytes closed stopped wire p c k p' wire' sent :
  Forall is_byte (c ++ wire) → phase closed stopped wire (Reading p) c k →
  pstep p wire closed = Some (p', wire', sent) →
  ∃ c' k', phase closed stopped wire' (Reading p') c' k' ∧ c ++ wire = c' ++ wire' ∧
    (8 * length wire' + k' < 8 * length wire + k)%nat.
Proof.
  intros Hb Hp E. inversion Hp as [|hd Hl Hm| | | |]; subst; [| |done..].
  - rewrite pstep_header in E. case_bool_decide as Hn.
    + injection E as <- <- <-. set (hd := take 4 wire).
      assert (length hd = 4%nat) as Hl by (unfold hd; rewrite length_take; lia).
      exists hd. destruct (Z.leb_spec (from_be_unsigned hd) (MAX_MESSAGE_SIZE + 1)) as [Hs|Hs].
      * exists 6%nat. split_and!; [by constructor|unfold hd; by rewrite take_drop|rewrite length_drop; lia].
      * exists 1%nat. split_and!; [|unfold hd; by rewrite take_drop|rewrite length_drop; lia].
        cbn [read_body]. rewrite (proj2 (Z.ltb_lt _ _)) by done. constructor. by apply no_frame_large.
    + destruct closed; [|done]. injection E as <- <- <-. exists wire, 1%nat. rewrite app_nil_r.
      split_and!; [|done|cbn; lia]. constructor. rewrite app_nil_r. apply no_frame_short. lia.
  - change (pstep (read_body (inl c)) wire closed = Some (p', wire', sent)) in E.
    rewrite pstep_body in E by done. case_bool_decide as Hn.
    + injection E as <- <- <-. set (n := Z.to_nat (from_be_unsigned c)) in *.
      assert (length (take n wire) = n) as Ht by (rewrite length_take; lia).
      exists (c ++ take n wire). destruct (Wire.Frame.decode (take n wire)) as [f|e|] eqn:Ed.
      * apply Forall_app in Hb as [Hb _]. destruct (frame_of_body c (take n wire) f) as [<- Hf]; [done..|].
        exists 5%nat. split_and!; [by constructor| |rewrite length_drop; lia].
        destruct (frame_of_body c (take n wire) f) as [-> _]; [done..|]. by rewrite <-app_assoc, take_drop.
      * exists 1%nat. split_and!; [|by rewrite <-app_assoc, take_drop|rewrite length_drop; lia].
        constructor. by eapply no_frame_garbled.
      * by apply frame_decode_no_panic in Ed.
    + destruct closed; [|done]. injection E as <- <- <-. exists (c ++ wire), 1%nat. rewrite app_nil_r.
      split_and!; [|done|cbn; lia]. constructor. rewrite app_nil_r. apply no_frame_cut; [done|lia].
Qed.

Ltac inbound_simpl := cbn [i_wire i_closed i_stopped i_task i_queue i_handled] in *.

Lemma read_step_inv total x y n :
  inbound_inv total x n → read_step x y → ∃ m, inbound_inv total y m ∧ (m < n)%nat.
Proof.
  intros [Hf Hr Hb (c & k & Hp & Et & En)] Hs.
  destruct Hs as [wire closed stopped p p' wire' sent q h E|wire closed stopped f q h|wire closed stopped e q h
    |wire closed stopped f q h Hq|wire closed stopped t f q h]; inbound_simpl.
  - assert (Forall is_byte (c ++ wire)) as Hcw by (by rewrite Et, Forall_app in Hb; destruct Hb).
    destruct (phase_bytes _ _ _ _ _ _ _ _ _ Hcw Hp E) as (c' & k' & Hp' & Ec & Hlt).
    eexists. split; [split; inbound_simpl; [done..|]|]. { exists c', k'. by rewrite <-Ec. } lia.
  - apply phase_done in Hp as (-> & Hf' & ->). eexists. split; [split; inbound_simpl; [done..|]|].
    { eexists _, _. by split; [by constructor|]. } lia.
  - apply phase_done in Hp as [Hn ->]. eexists. split; [split; inbound_simpl; [done..|]|].
    { eexists _, _. split; [by constructor; right|done]. } lia.
  - inversion Hp; subst. eexists. split; [split; inbound_simpl|].
    + rewrite app_assoc. by apply Forall_app; split; [|constructor].
    + rewrite length_app. cbn. lia.
    + done.
    + eexists _, _. split; [by constructor|]. split; [|done].
      by rewrite (app_assoc h q [f]), (stream_app (h ++ q)), stream_cons, <-!app_assoc.
    + rewrite length_app. cbn. lia.
  - eexists. split; [split; inbound_simpl|].
    + by rewrite <-app_assoc.
    + cbn in Hr. lia.
    + done.
    + exists c, k. split; [done|]. by rewrite <-app_assoc.
    + rewrite En. cbn [length]. lia.
Qed.

Lemma phase_more stopped wire t c k more :
  phase false stopped wire t c k → phase false stopped (wire ++ more) t c k.
Proof.
  intros Hp. destruct Hp as [| | | |e c Hn|c Hn]; try by constructor.
  - constructor. rewrite app_assoc. by apply no_frame_more.
  - constructor. rewrite app_assoc. destruct Hn; [by left|right; by apply no_frame_more].
Qed.
Lemma phase_close stopped wire t c k : phase false stopped wire t c k → phase true stopped wire t c k.
Proof.
  intros Hp. destruct Hp as [| | | |e c Hn|c Hn]; try by constructor.
  - constructor. by apply no_frame_closed.
  - constructor. destruct Hn; [by left|right; by apply no_frame_closed].
Qed.

Lemma received_inv total x : Forall is_byte total → received total x → ∃ n, inbound_inv total x n.
Proof.
  intros Hb Hx. induction Hx as [|total x y _ IH Hs|total more wire stopped t q h _ IH|total wire stopped t q h _ IH
    |total wire closed stopped t q h _ IH].
  - exists 2%nat. split; inbound_simpl; [done|cbn; lia|done|]. exists [], 2%nat. split; [constructor|done].
  - destruct (IH Hb) as [n Hn]. destruct (read_step_inv _ _ _ _ Hn Hs) as (m & Hm & _). by exists m.
  - pose proof (Forall_app is_byte total more) as [Ha _]. destruct (Ha Hb) as [Ht _].
    destruct (IH Ht) as [n [Hf Hr _ (c & k & Hp & Et & _)]]. inbound_simpl.
    eexists. split; inbound_simpl; [done..|]. exists c, k.
    split_and!; [by apply phase_more|by rewrite Et, <-!app_assoc|done].
  - destruct (IH Hb) as [n [Hf Hr _ (c & k & Hp & Et & _)]]. inbound_simpl.
    eexists. split; inbound_simpl; [done..|]. exists c, k. split_and!; [by apply phase_close|done|done].
  - destruct (IH Hb) as [n [Hf Hr _ (c & k & Hp & Et & _)]]. inbound_simpl.
    eexists. split; inbound_simpl; [done..|]. exists c, 0%nat. split_and!; [constructor; by left|done|done].
Qed.

Lemma inbound_sn total x n : inbound_inv total x n → sn read_step x.
Proof.
  revert x. induction (lt_wf n) as [n _ IH]. intros x Hx. constructor. intros y Hs.
  destruct (read_step_inv _ _ _ _ Hx Hs) as (m & Hm & Hlt). by apply (IH m Hlt).
Qed.

(** The task does not touch whether the peer has closed or the task was stopped. *)
Lemma read_steps_flags x y :
  rtc read_step x y → i_closed y = i_closed x ∧ i_stopped y = i_stopped x.
Proof. induction 1 as [|x y z Hs _ IH]; [done|]. destruct IH as [-> ->]. by destruct Hs. Qed.
Lemma read_steps_inv total x y n :
  inbound_inv total x n → rtc read_step x y → ∃ m, inbound_inv total y m.
Proof.
  intros Hx Hr. revert n Hx. induction Hr as [|x y z Hs _ IH]; intros n Hx; [by exists n|].
  destruct (read_step_inv _ _ _ _ Hx Hs) as (m & Hm & _). by eapply IH.
Qed.

(** When no turn is left, nothing waits in the channel, and no complete frame on the wire. *)
Lemma idle_inbound total x n :
  inbound_inv total x n → nf read_step x → i_stopped x = false →
  i_queue x = [] ∧ (∀ f rest, frame_ok f → total ≠ stream (i_handled x) ++ frame_bytes f ++ rest) ∧
  (i_closed x = true → i_task x = Ended).
Proof.
  intros [Hf Hr Hb (c & k & Hp & -> & _)] Hn Hs. destruct x as [wire closed stopped t q h]. inbound_simpl. subst stopped.
  destruct q as [|f q]; [|destruct Hn; eexists; constructor].
  split; [done|]. rewrite app_nil_r.
  assert (∀ p, t = Reading p → is_Some (pstep p wire closed) → False) as Hstuck.
  { intros p -> [[[p' w'] s] E]. destruct Hn. eexists. by eapply read_bytes. }
  destruct Hp as [|hd Hl Hm|f Hf'|f Hf'|e c Hno|c [?|Hno]].
  - split; [|intros ->; exfalso; eapply Hstuck; [done|rewrite pstep_header; case_bool_decide; by eexists]].
    intros f rest Hf' E%app_inv_head. eapply Hstuck; [done|]. rewrite pstep_header, bool_decide_eq_true_2; [by eexists|].
    rewrite app_nil_l in E. rewrite E, length_app, frame_length by done. lia.
  - pose proof (pstep_body hd wire closed Hm) as Ep. cbv zeta in Ep. split.
    + intros f rest Hf' [E ->]%app_inv_head%frame_split; [|done..]. eapply Hstuck; [done|].
      rewrite Ep, bool_decide_eq_true_2; [by eexists|]. rewrite length_app. lia.
    + intros ->. exfalso. eapply Hstuck; [done|]. rewrite Ep. case_bool_decide; by eexists.
  - destruct Hn. eexists. constructor.
  - destruct Hn. eexists. constructor. cbn. unfold INBOUND_CAPACITY. lia.
  - destruct Hn. eexists. constructor.
  - done.
  - split; [|done]. intros f rest Hf' E%app_inv_head. apply (Hno f [] rest); [done|done|]. by rewrite app_nil_r.
Qed.

(** C19: inbound frames are neither lost, torn nor reordered.  Whatever pieces the bytes of a
    connection arrive in and however the read task, the select loop, closing and stopping
    interleave: the frames handled so far and those waiting, in order, are exactly the first
    frames of the bytes received, and at most 64 wait.  The turns of the two tasks end; and
    unless the task was stopped, when no turn is left nothing waits, every complete frame
    received has been handled, and if the peer has closed the read task has ended, so that
    the select loop ends too. *)
Theorem inbound_frames total x :
  Forall is_byte total → received total x →
  (∃ rest, total = stream (i_handled x ++ i_queue x) ++ rest) ∧
  Forall frame_ok (i_handled x ++ i_queue x) ∧ (length (i_queue x) ≤ INBOUND_CAPACITY)%nat ∧
  sn read_step x ∧
  (i_stopped x = false → ∀ y, rtc read_step x y → nf read_step y →
     i_queue y = [] ∧ (i_closed x = true → i_task y = Ended) ∧
     ∀ fs rest, Forall frame_ok fs → total = stream fs ++ rest → fs `prefix_of` i_handled y).
Proof.
  intros Hb Hx. destruct (received_inv total x Hb Hx) as [n Hi]. pose proof Hi as [Hf Hr _ (c & k & _ & Et & _)].
  split_and!; [by eexists|done|done|by eapply inbound_sn|].
  intros Hs y Hxy Hn. destruct (read_steps_flags _ _ Hxy) as [Hc Hs']. destruct (read_steps_inv _ _ _ _ Hi Hxy) as [m Hy].
  destruct (idle_inbound _ _ _ Hy Hn) as (Hq & Hmax & He); [by rewrite Hs'|].
  split_and!; [done|by rewrite <-Hc|]. intros fs rest Hfs E.
  destruct Hy as [Hfy _ _ (c' & k' & _ & Ey & _)]. rewrite Hq, app_nil_r in *.
  destruct (stream_unique fs (i_handled y) rest (c' ++ i_wire y)) as [?|(f & fs' & Hf' & -> & Ec)]; [done|done|congruence|done|].
  exfalso. apply (Hmax f (stream fs' ++ rest)); [done|]. by rewrite Ey, Ec.
Qed.

(** ** The first connections *)

(** Dialling spawns a task for each address that answers, and changes neither the handler nor
    the broadcast channel. *)
Lemma dial_live {H A} `{!ChannelHandler H} (connect : A → option (option nat)) dial pid (s : service H) :
  (∀ i, (pid ≤ i)%nat → s_peers s !! i = None) →
  ∃ s', run_service (dial_peers connect dial pid) s = (Ok (), s') ∧
    live_peers s' = (live_peers s + length (omap connect dial))%nat ∧
    s_handler s' = s_handler s ∧ s_log s' = s_log s.
Proof.
  revert pid s. induction dial as [|a dial IH]; intros pid s Hs.
  { exists s. split_and!; [done|cbn; lia|done|done]. }
  cbn [dial_peers omap list_omap]. destruct (connect a) as [writes|]; [|by apply IH].
  cbn [run_service]. unfold mbind, ST_bind. cbn [service_step].
  destruct (IH (S pid) (s <| s_peers ::= insert pid (mk_conn (length (s_log s)) [] writes) |>)) as (s' & E & Hl & Hh & Hg).
  - intros i Hi. cbn. rewrite lookup_insert_ne by lia. apply Hs. lia.
  - exists s'. split_and!; [exact E| |done|done]. rewrite Hl. unfold live_peers. cbn.
    rewrite map_size_insert_None by by apply Hs. lia.
Qed.

(** ** A sample connection *)

(** A ping and an announcement, the second cut in two. *)
Definition sample_frames : list Wire.Frame.t :=
  [Wire.Frame.mk MessageType.P2pPing []; Wire.Frame.mk MessageType.BlockInventory (encode_numbers [7])].
Lemma inbound_frames_witness :
  let x := mk_inbound (take 7 (stream sample_frames) ++ drop 7 (stream sample_frames)) false false
             (Reading read_frame) [] [] in
  sn read_step x ∧
  ∀ y, rtc read_step x y → nf read_step y → sample_frames `prefix_of` i_handled y.
Proof.
  intros x.
  destruct (inbound_frames (take 7 (stream sample_frames) ++ drop 7 (stream sample_frames)) x)
    as (_ & _ & _ & Hsn & Hall).
  - apply (bool_decide_unpack _). by vm_compute.
  - apply recv_bytes, (recv_bytes [] _ []), recv_new.
  - split; [done|]. intros y Hy Hn. destruct (Hall eq_refl y Hy Hn) as (_ & _ & Hp).
    apply (Hp sample_frames []); [|by rewrite take_drop, app_nil_r].
    repeat constructor; by vm_compute.
Defined.
