(* ===== verification/Sync.v ===== *)
(** * Start-up data and peer sync (crates/node/src/lib.rs, sync.rs)

    How the node reads its seeds and derives its discovery id, and one round of
    [sync_from_best_peer]: choose a peer, run the sync session with it, and pass what it
    served through the intake gate. *)

From stdpp Require Import gmap strings pretty numbers fin_maps prelude relations.
From S2P Require Import Prelude Types Proto State Chain Consensus Mempool Intake Wire Peers Node Gossip.
Open Scope Z_scope.

(** ** Seeds (lib.rs) *)

(** [str::rsplit_once]. *)
Fixpoint rsplit_once (sep : Ascii.ascii) (s : string) : option (string * string) :=
  match s with
  | EmptyString => None
  | String c s =>
      match rsplit_once sep s with
      | Some (l, r) => Some (String c l, r)
      | None => if bool_decide (c = sep) then Some (EmptyString, s) else None
      end
  end.

Definition COLON : Ascii.ascii := Ascii.ascii_of_nat 58.

(** [str::parse::<u16>]: decimal digits, at least one, after an optional plus sign. *)
Definition parse_u16 (s : string) : option Z :=
  let bs := bytes_of_string s in
  let ds := match bs with 43 :: ds => ds | _ => bs end in
  match ds with
  | [] => None
  | _ => v ← digits_value 0 ds; if v <? 65536 then Some v else None
  end.

(** [str::parse::<Ipv4Addr>]: four decimal octets of at most three digits, without leading
    zeros. *)
Definition parse_octet (ds : bytes) : option Z :=
  if bool_decide (ds = []) || (3 <? length ds)%nat
     || (bool_decide (ds !! 0%nat = Some 48) && (1 <? length ds)%nat) then None else
  v ← digits_value 0 ds; if v <? 256 then Some v else None.
Fixpoint split_dots (bs : bytes) (cur : bytes) : list bytes :=
  match bs with
  | [] => [cur]
  | b :: bs => if b =? 46 then cur :: split_dots bs [] else split_dots bs (cur ++ [b])
  end.
Definition parse_ipv4 (s : string) : option bytes :=
  let parts := split_dots (bytes_of_string s) [] in
  if negb (bool_decide (length parts = 4%nat)) then None else mapM parse_octet parts.

Definition seeded_peer (pm : PeerManager.t) (i : nat) (node : string) : PeerManager.t :=
  match rsplit_once COLON node with
  | Some (host, port) =>
      match parse_u16 port with
      | Some port => PeerManager.upsert (mk_peer_addr host port) (-1) (Z.of_nat i) pm
      | None => pm
      end
  | None => pm
  end.
Fixpoint seeded_from (i : nat) (seed_nodes : list string) (pm : PeerManager.t) : PeerManager.t :=
  match seed_nodes with
  | [] => pm
  | node :: seed_nodes => seeded_from (S i) seed_nodes (seeded_peer pm i node)
  end.
Definition seeded_peers (seed_nodes : list string) : PeerManager.t := seeded_from 0 seed_nodes PeerManager.new.

Definition discovery_seed (node : string) : option Endpoint :=
  match rsplit_once COLON node with
  | Some (host, port) =>
      match parse_ipv4 host, parse_u16 port with
      | Some ip, Some port => Some (mk_endpoint ip port port)
      | _, _ => None
      end
  | None => None
  end.
Definition discovery_seeds (seed_nodes : list string) : list Endpoint := omap discovery_seed seed_nodes.

(** ** The discovery id (lib.rs) *)

(** One splitmix64 output and the next state. *)
Definition splitmix64 (state : Z) : Z * Z :=
  let state := wrap_u64 (state + 0x9e3779b97f4a7c15) in
  let z := state in
  let z := wrap_u64 (Z.lxor z (Z.shiftr z 30) * 0xbf58476d1ce4e5b9) in
  let z := wrap_u64 (Z.lxor z (Z.shiftr z 27) * 0x94d049bb133111eb) in
  (Z.lxor z (Z.shiftr z 31), state).
Fixpoint id_chunks (n : nat) (state : Z) : bytes :=
  match n with
  | O => []
  | S n => let '(z, state) := splitmix64 state in to_be_bytes 8 z ++ id_chunks n state
  end.
Definition ephemeral_node_id (port nanos : Z) : NodeId :=
  id_chunks 4 (Z.lxor (Z.lxor (wrap_u64 nanos) (wrap_u64 (Z.shiftl port 48))) 0x9e3779b97f4a7c15).

(** ** One sync round (sync.rs) *)

Section Round.
Context `{MapIter} `{Hashes} `{Secp} `{!Encode TxRaw.t} `{!Encode HeaderRaw.t} `{!Encode Transaction.t}
  `{!Decode Block.t}.
(** Whether a TCP connection opens (the error otherwise), and the [Debug] text of an error. *)
Context (connect : PeerAddr → option string) (debug : ChannelError → string).

Definition sync_from_best_peer (w : world) (peers : PeerManager.t) (require_sig : bool) :
    proc (res SyncError nat * world) :=
  let our_head := get_prop_i64 LATEST_BLOCK_NUMBER w in
  match PeerManager.best_sync_target our_head peers with
  | None => Done (Ok O, w)
  | Some target =>
      let addr := PeerManager.key (PeerInfo.addr target) in
      match connect (PeerInfo.addr target) with
      | Some e => Done (Err (StateError ("connect " +:+ addr +:+ ": " +:+ e)), w)
      | None =>
          proc_bind_def (λ r : res ChannelError (list (Z * bytes)), Done
            match r with
            | Ok fetched => apply_from_peer (fetched.*2) require_sig w
            | Err e => (Err (StateError ("sync " +:+ addr +:+ ": " +:+ debug e)), w)
            | Panic => (Panic, w)
            end) (sync_from our_head)
      end
  end.
End Round.

(** ** Seeds and ids *)

Lemma id_chunks_length n state : length (id_chunks n state) = (8 * n)%nat.
Proof.
  revert state. induction n as [|n IH]; intros state; [done|]. cbn [id_chunks].
  destruct (splitmix64 state) as [z state']. rewrite length_app, to_be_bytes_length, IH. lia.
Qed.
Lemma id_chunks_bytes n state : Forall is_byte (id_chunks n state).
Proof.
  revert state. induction n as [|n IH]; intros state; [constructor|]. cbn [id_chunks].
  destruct (splitmix64 state) as [z state']. apply Forall_app. split; [apply to_be_bytes_is_byte|apply IH].
Qed.

Lemma digits_value_nonneg ds acc v : 0 ≤ acc → digits_value acc ds = Some v → 0 ≤ v.
Proof.
  revert acc. induction ds as [|d ds IH]; intros acc Ha; cbn; [by intros [= <-]|].
  destruct (in_range 48 57 d) eqn:E; [|done]. apply IH. unfold in_range in E. bool_prop. lia.
Qed.
Lemma parse_u16_is_u16 s p : parse_u16 s = Some p → is_u16 p.
Proof.
  unfold parse_u16. set (ds := match bytes_of_string s with 43 :: _ => _ | _ => _ end).
  destruct ds as [|d ds']; [done|]. destruct (digits_value 0 (d :: ds')) as [v|] eqn:E; [|done]. simpl.
  apply digits_value_nonneg in E; [|done]. destruct (Z.ltb_spec v 65536); [|done]. intros [= <-]. by split.
Qed.
Lemma parse_octet_byte ds v : parse_octet ds = Some v → is_byte v.
Proof.
  unfold parse_octet. destruct (_ || _); [done|]. destruct (digits_value 0 ds) as [x|] eqn:E; [|done]. simpl.
  apply digits_value_nonneg in E; [|done]. destruct (Z.ltb_spec x 256); [|done]. intros [= <-]. by split.
Qed.
Lemma parse_ipv4_wf s a : parse_ipv4 s = Some a → length a = 4%nat ∧ Forall is_byte a.
Proof.
  unfold parse_ipv4. case_bool_decide as Hl; [|done]. cbn [negb]. intros Ha%mapM_Some_1.
  split; [apply Forall2_length in Ha; congruence|]. clear Hl.
  induction Ha as [|ds v l k Hv _ IH]; constructor; [|done]. by eapply parse_octet_byte.
Qed.

(** Seeds that are kept have well-formed endpoints, and the id the node draws is a
    well-formed discovery id. *)
Lemma discovery_seeds_wf (seeds : list string) e :
  e ∈ discovery_seeds seeds → length (ip e) = 4%nat ∧ Forall is_byte (ip e) ∧ is_u16 (udp_port e) ∧ is_u16 (tcp_port e).
Proof.
  unfold discovery_seeds. intros (s & _ & Hs)%list_elem_of_omap. unfold discovery_seed in Hs.
  destruct (rsplit_once COLON s) as [[host port]|]; [|done].
  destruct (parse_ipv4 host) as [a|] eqn:Ea; [|done]. destruct (parse_u16 port) as [p|] eqn:Ep; [|done].
  injection Hs as <-. apply parse_ipv4_wf in Ea as [? ?]. apply parse_u16_is_u16 in Ep. by split_and!.
Qed.
Lemma ephemeral_node_id_wf (port nanos : Z) :
  length (ephemeral_node_id port nanos) = NODE_ID_LEN ∧ Forall is_byte (ephemeral_node_id port nanos).
Proof. split; [apply id_chunks_length|apply id_chunks_bytes]. Qed.

(** Every seed enters with an unknown head. *)
Lemma seeded_from_heads i seeds (pm : PeerManager.t) :
  (∀ k p, pm !! k = Some p → PeerInfo.head p = -1) →
  ∀ k p, seeded_from i seeds pm !! k = Some p → PeerInfo.head p = -1.
Proof.
  revert i pm. induction seeds as [|s seeds IH]; intros i pm Hpm; cbn [seeded_from]; [done|].
  apply IH. unfold seeded_peer. destruct (rsplit_once COLON s) as [[host port]|]; [|done].
  destruct (parse_u16 port); [|done]. intros k p. unfold PeerManager.upsert.
  rewrite lookup_insert. case_decide; [by intros [= <-]|by apply Hpm].
Qed.

Section Idle.
Context `{MapIterLaws} `{Hashes} `{Secp} `{!Encode TxRaw.t} `{!Encode HeaderRaw.t} `{!Encode Transaction.t}
  `{!Decode Block.t}.

(** The periodic sync of the node never starts: its peers are the seeds, whose heads stay
    unknown, so none is ever ahead of a chain that has its genesis block. *)
Lemma sync_service_idle connect debug (w : world) (seeds : list string) (sig : bool) :
  0 ≤ get_prop_i64 LATEST_BLOCK_NUMBER w →
  sync_from_best_peer connect debug w (seeded_peers seeds) sig = Done (Ok O, w).
Proof.
  intros Hw. unfold sync_from_best_peer.
  pose proof (best_sync_target_spec (get_prop_i64 LATEST_BLOCK_NUMBER w) (seeded_peers seeds)) as Hb.
  destruct (PeerManager.best_sync_target _ _) as [p|]; [|done]. destruct Hb as (Hlt & (k & Hk) & _).
  apply (seeded_from_heads 0 seeds PeerManager.new) in Hk; [lia|]. intros k' p'. unfold PeerManager.new. by rewrite lookup_empty.
Qed.
End Idle.

(** ** Catching up *)

Section CatchUp.
Context `{MapIterLaws} `{Hashes} `{Secp} `{!Encode TxRaw.t} `{!Encode HeaderRaw.t} `{!Encode Transaction.t}
  `{!Encode Block.t} `{!Decode Block.t}.
Implicit Types (w : world) (bl : list Block.t) (ws : list bytes).

Abbreviation head_of w := (get_prop_i64 LATEST_BLOCK_NUMBER w).

(** The continuation of our chain a peer has: numbered from our head on, and every block
    signed by an active witness. *)
Definition continues ws w bl : Prop :=
  is_i64 (head_of w + Z.of_nat (length bl)) ∧
  ∀ i b, bl !! i = Some b →
    block_number b = head_of w + 1 + Z.of_nat i ∧ ∃ raw a, intake_ok ws b raw a.
Definition put_blocks bl w : world := foldl (λ w b, put_block b w) w bl.

Lemma continues_stored sig ws w bl : continues ws w bl → stored sig (Some ws) w bl (put_blocks bl w).
Proof.
  revert w. induction bl as [|b bl IH]; intros w [Hi Hb]; [done|]. cbn [length] in Hi.
  pose proof (get_prop_is_i64 LATEST_BLOCK_NUMBER w) as Hw.
  destruct (Hb 0%nat b eq_refl) as [En Hok]. assert (Hi1 : is_i64 (head_of w + 1)) by i64_lia.
  assert (Eh : head_of (put_block b w) = head_of w + 1) by (rewrite put_block_head; rewrite En; [lia|i64_lia]).
  cbn [stored]. split_and!; [done|lia|done|]. apply IH. split.
  - rewrite Eh. i64_lia.
  - intros i b' Hb'. destruct (Hb (S i) b' Hb') as [En' Hok']. rewrite Eh. split; [lia|done].
Qed.

Lemma apply_stored sig gt w bl w' n :
  stored sig gt w bl w' → Forall (λ b, decode (encode_to_vec b) = inr b) bl →
  apply_synced_loop sig gt n (encode_to_vec <$> bl) w = (Ok (n + length bl)%nat, w').
Proof.
  revert n w. induction bl as [|b bl IH]; intros n w; cbn [stored fmap list_fmap apply_synced_loop length].
  { intros -> _. by rewrite Nat.add_0_r. }
  intros (Hok & En & Hi & Hs) [Hd Hds]%Forall_cons.
  unfold mbind, ST_bind, lift, gets, modify, decode_block. rewrite Hd.
  rewrite (proj2 (gate_iff _ _ _) Hok). unfold add_i64. rewrite exact_i64_ok by done.
  rewrite (passes_number _ _ _ Hok), En, Z.eqb_refl. cbn [negb]. rewrite IH by done. f_equal. f_equal. lia.
Qed.

Lemma client_context {A B C} (f : A → C) (c c' : proc A) (s s' : proc B) cs cs' sc sc' :
  rtc step (mk_net c s cs sc) (mk_net c' s' cs' sc') →
  rtc step (mk_net (proc_bind_def (λ a, Done (f a)) c) s cs sc)
    (mk_net (proc_bind_def (λ a, Done (f a)) c') s' cs' sc').
Proof.
  set (g := λ x : net A B, mk_net (proc_bind_def (λ a, Done (f a)) (client x)) (server x) (to_server x) (to_client x)).
  intros Hr. change (rtc step (g (mk_net c s cs sc)) (g (mk_net c' s' cs' sc'))).
  eapply (rtc_congruence g); [|exact Hr]. intros x y Hxy. destruct Hxy as [c1 s1 cs1 sc1 c2 sc2 o E|c1 s1 cs1 sc1 s2 cs2 o E].
  - apply step_client. destruct c1 as [|bs k|m k]; cbn in *; [done|by injection E as <- <- <-|].
    repeat case_match; simplify_eq; done.
  - apply step_server. cbn. replace (is_done (proc_bind_def _ c1)) with (is_done c1) by (by destruct c1). done.
Qed.

Lemma fmap_answer (bb : Z → option bytes) bl :
  Forall (λ b, bb (block_number b) = Some (encode_to_vec b)) bl →
  (answer bb <$> (block_number <$> bl)).*2 = encode_to_vec <$> bl.
Proof. induction 1 as [|b bl Hb _ IH]; [done|]. cbn [fmap list_fmap] in *. unfold answer at 1. cbn. by rewrite Hb, IH. Qed.

Lemma continues_i64 ws w bl : continues ws w bl → Forall is_i64 (block_number <$> bl).
Proof.
  intros [Hi Hb]. apply Forall_fmap, Forall_forall. intros b [i Hbi]%list_elem_of_lookup.
  destruct (Hb i b Hbi) as [En _]. apply lookup_lt_Some in Hbi. pose proof (get_prop_is_i64 LATEST_BLOCK_NUMBER w).
  cbn. rewrite En. i64_lia.
Qed.

(** C17: syncing from an honest peer catches up with it.  If the best peer is reachable and
    serves, in order, blocks that continue our chain and are signed by active witnesses, all
    within the message limit, then whatever the interleaving of the connection the round
    ends, reports the number of blocks served, and leaves our state with all of them: the
    head has moved by that number, and each block is found under its number. *)
Theorem peer_sync_catches_up connect debug w (peers : PeerManager.t) (sig : bool) target
    (have : list Z) (bb : Z → option bytes) bl (fuel : nat) :
  PeerManager.best_sync_target (head_of w) peers = Some target → connect (PeerInfo.addr target) = None →
  get_active_witnesses w ≠ [] → continues (get_active_witnesses w) w bl →
  Forall is_i64 have → offered have (head_of w) = block_number <$> bl →
  Forall (λ b, bb (block_number b) = Some (encode_to_vec b) ∧ decode (encode_to_vec b) = inr b ∧
    Z.of_nat (length (encode_to_vec b)) ≤ MAX_MESSAGE_SIZE) bl →
  8 * Z.of_nat (length bl) ≤ MAX_MESSAGE_SIZE → (length bl < fuel)%nat →
  let start := mk_net (sync_from_best_peer connect debug w peers sig) (serve_sync fuel have bb) [] [] in
  let w' := put_blocks bl w in
  sn step start ∧
  (∀ x, rtc step start x → nf step x →
     client x = Done (Ok (length bl), w') ∧ server x = Done (Ok (length bl))) ∧
  head_of w' = head_of w + Z.of_nat (length bl) ∧
  ∀ i b, bl !! i = Some b → get_block_by_num (head_of w + 1 + Z.of_nat i) w' = Some b.
Proof.
  intros Ht Hc Hne Hcont Hhave Hoff Hbl Hsize Hfuel start w'.
  pose proof (continues_stored sig _ _ _ Hcont) as Hst. fold w' in Hst.
  assert (Hlen : length (offered have (head_of w)) = length bl) by (by rewrite Hoff, length_fmap).
  assert (Hans : (answer bb <$> offered have (head_of w)).*2 = encode_to_vec <$> bl).
  { rewrite Hoff. apply fmap_answer. eapply Forall_impl; [exact Hbl|]. by intros b (? & _). }
  assert (Hrun : rtc step start (mk_net (Done (Ok (length bl), w')) (Done (Ok (length bl))) [] [])).
  { unfold start, sync_from_best_peer. rewrite Ht, Hc. rewrite <-Hlen at 2.
    replace (Done (Ok (length bl), w')) with (proc_bind_def (λ r : res ChannelError (list (Z * bytes)),
      Done (match r with
            | Ok fetched => apply_from_peer (fetched.*2) sig w
            | Err e => (Err (StateError ("sync " +:+ PeerManager.key (PeerInfo.addr target) +:+ ": " +:+ debug e)), w)
            | Panic => (Panic, w)
            end)) (Done (Ok (answer bb <$> offered have (head_of w))))).
    - apply client_context, sync_session_run.
      + apply get_prop_is_i64.
      + done.
      + by rewrite Hlen.
      + rewrite Hoff. apply Forall_fmap. eapply Forall_impl; [exact Hbl|]. intros b (Hb & _ & Hl). cbn. by rewrite Hb.
      + by rewrite Hlen.
    - cbn [proc_bind_def]. rewrite Hans. unfold apply_from_peer, apply_synced_blocks_gated.
      rewrite run_gets, bool_decide_eq_false_2 by done. rewrite (apply_stored _ _ _ _ _ _ Hst); [done|].
      eapply Forall_impl; [exact Hbl|]. by intros b (_ & ? & _). }
  destruct (uniform_all _ _ _ step_uniform Hrun (net_done_nf _ _ _ _)) as [Hsn Hall].
  split_and!; [done| |by eapply stored_head|].
  - intros x Hx Hnf. by rewrite (proj2 (Hall x Hx) Hnf).
  - intros i b Hi. destruct (stored_get _ _ _ _ _ _ _ Hst Hi) as (En & Hg & _). by rewrite <-En.
Qed.
End CatchUp.

(** ** Sample *)

Module SyncSample.
Export IntakeSample.
#[export] Instance iter : MapIter := λ m, (map_to_list m).*2.
#[export] Instance iter_laws : MapIterLaws.
Proof. by intros m. Qed.
Definition peers : PeerManager.t := PeerManager.upsert (mk_peer_addr "10.0.0.1" 18888) 5 0 ∅.
Definition target : PeerInfo := PeerInfo.mk (mk_peer_addr "10.0.0.1" 18888) 5 0.
Definition bb (n : Z) : option bytes := Some (i64_to_be_bytes n).
End SyncSample.
Import SyncSample.

Lemma peer_sync_catches_up_witness :
  let start := mk_net (sync_from_best_peer (λ _, None) (λ _, EmptyString) world0 peers true)
                 (serve_sync 2 [0; 1] bb) [] [] in
  sn step start ∧
  (∀ x, rtc step start x → nf step x → client x = Done (Ok 1%nat, put_block produced world0)) ∧
  get_block_by_num 1 (put_block produced world0) = Some produced.
Proof.
  intros start.
  destruct (peer_sync_catches_up (λ _, None) (λ _, EmptyString) world0 peers true target [0; 1] bb [produced] 2)
    as (Hsn & Hall & _ & Hg).
  - by vm_compute.
  - done.
  - by vm_compute.
  - split; [by vm_compute|]. intros [|[|]] b; [|done..]. intros [= <-]. split; [by vm_compute|].
    apply intake_iff. by vm_compute.
  - repeat constructor; by vm_compute.
  - by vm_compute.
  - constructor; [|constructor]. split_and!; by vm_compute.
  - by vm_compute.
  - cbn; lia.
  - split; [exact Hsn|]. split; [intros x Hx Hnf; exact (proj1 (Hall x Hx Hnf))|]. exact (Hg 0%nat produced eq_refl).
Defined.
