(* ===== verification/Storage.v ===== *)
(** * Storage backends (crates/storage/src/lib.rs, rocks.rs)

    [KvStore] is the interface the world state is written against; the node runs on RocksDB,
    the tests on the in-memory store.  An abstract store, a map from family and key to
    value, specifies both, and both refine it on the families the node declares. *)

From stdpp Require Import gmap strings pretty numbers fin_maps prelude.
From S2P Require Import Prelude.
Open Scope Z_scope.

Definition ALL_CFS : list string := [
  "account"; "contract"; "contract_code"; "contract_storage"; "witness"; "votes"; "asset";
  "proposal"; "exchange"; "block"; "transaction"; "block_index"; "brokerage"; "delegation";
  "market_order"; "market_pair_price"; "market_pair"; "market_account_order"; "market_pairs";
  "properties"]%string.

(** The families named by the state layer ([tron_state::cf]). *)
Module cf.
Definition ACCOUNT : string := "account".
Definition CONTRACT : string := "contract".
Definition CONTRACT_CODE : string := "contract_code".
Definition CONTRACT_STORAGE : string := "contract_storage".
Definition WITNESS : string := "witness".
Definition VOTES : string := "votes".
Definition ASSET : string := "asset".
Definition PROPOSAL : string := "proposal".
Definition EXCHANGE : string := "exchange".
Definition BLOCK : string := "block".
Definition TRANSACTION : string := "transaction".
Definition BLOCK_INDEX : string := "block_index".
Definition BROKERAGE : string := "brokerage".
Definition DELEGATION : string := "delegation".
Definition MARKET_ORDER : string := "market_order".
Definition MARKET_PAIR_PRICE : string := "market_pair_price".
Definition MARKET_PAIR : string := "market_pair".
Definition MARKET_ACCOUNT_ORDER : string := "market_account_order".
Definition MARKET_PAIRS : string := "market_pairs".
Definition DYNAMIC_PROPERTIES : string := "properties".
Definition ALL : list string := ALL_CFS.
End cf.

Inductive StorageError :=
| UnknownCf (name : string)
| Backend (msg : string).

(** ** The interface *)

Class KvStore (St : Type) := {
  kv_get : string → bytes → St → res StorageError (option bytes);
  kv_put : string → bytes → bytes → ST St StorageError ();
  kv_delete : string → bytes → ST St StorageError ();
}.
Definition kv_exists {St} `{!KvStore St} (name : string) (key : bytes) (s : St) : res StorageError bool :=
  v ← kv_get name key s; Ok (bool_decide (is_Some v)).

(** ** [MemoryStore] *)

Abbreviation Cf := (gmap bytes bytes).
Abbreviation MemoryStore := (gmap string Cf).

Definition memory_new : MemoryStore := ∅.
Definition memory_get (name : string) (key : bytes) (m : MemoryStore) : res StorageError (option bytes) :=
  Ok (match m !! name with Some c => c !! key | None => None end).
Definition memory_put (name : string) (key value : bytes) : ST MemoryStore StorageError () := λ m,
  (Ok (), <[name := <[key := value]> (default ∅ (m !! name))]> m).
Definition memory_delete (name : string) (key : bytes) : ST MemoryStore StorageError () := λ m,
  (Ok (), match m !! name with Some c => <[name := delete key c]> m | None => m end).
#[export] Instance memory_store : KvStore MemoryStore := {|
  kv_get := memory_get; kv_put := memory_put; kv_delete := memory_delete |}.

(** ** [RocksStore] *)

(** The rocksdb crate: a database with its open families. *)
Class RocksDb (DB : Type) := {
  open_cf_descriptors : list string → res string DB;
  cf_handle : string → DB → bool;
  get_cf : string → bytes → DB → res string (option bytes);
  put_cf : string → bytes → bytes → ST DB string ();
  delete_cf : string → bytes → ST DB string ();
}.

Definition DEFAULT_CFS : list string := ALL_CFS.

Section Rocks.
Context {DB : Type} `{!RocksDb DB}.

Definition backend {A} (r : res string A) : res StorageError A :=
  match r with Ok a => Ok a | Err e => Err (Backend e) | Panic => Panic end.

(** [existing] is what [DB::list_cf] found at the path. *)
Definition open_names (existing : list string) : list string :=
  foldl (λ names c, if bool_decide (c ∈ names) then names else names ++ [c]) DEFAULT_CFS existing.
Definition rocks_open (existing : list string) : res StorageError DB :=
  backend (open_cf_descriptors (open_names existing)).

Definition rocks_cf (name : string) (db : DB) : res StorageError string :=
  if cf_handle name db then Ok name else Err (UnknownCf name).
Definition rocks_get (name : string) (key : bytes) (db : DB) : res StorageError (option bytes) :=
  c ← rocks_cf name db; backend (get_cf c key db).
Definition rocks_put (name : string) (key value : bytes) : ST DB StorageError () := λ db,
  match rocks_cf name db with
  | Ok c => let '(r, db) := put_cf c key value db in (backend r, db)
  | Err e => (Err e, db)
  | Panic => (Panic, db)
  end.
Definition rocks_delete (name : string) (key : bytes) : ST DB StorageError () := λ db,
  match rocks_cf name db with
  | Ok c => let '(r, db) := delete_cf c key db in (backend r, db)
  | Err e => (Err e, db)
  | Panic => (Panic, db)
  end.
#[export] Instance rocks_store : KvStore DB := {|
  kv_get := rocks_get; kv_put := rocks_put; kv_delete := rocks_delete |}.
End Rocks.

(** ** The abstract store *)

(** A store refines the abstract map [spec] through the relation [sim]: on the declared
    families every operation succeeds and does what the map does. *)
Abbreviation spec := (gmap (string * bytes) bytes).
Class KvRefines (St : Type) `{!KvStore St} (sim : St → spec → Prop) : Prop := {
  ref_get c k s m : c ∈ ALL_CFS → sim s m → kv_get c k s = Ok (m !! (c, k));
  ref_put c k v s m : c ∈ ALL_CFS → sim s m →
    ∃ s', kv_put c k v s = (Ok (), s') ∧ sim s' (<[(c, k) := v]> m);
  ref_delete c k s m : c ∈ ALL_CFS → sim s m →
    ∃ s', kv_delete c k s = (Ok (), s') ∧ sim s' (delete (c, k) m);
}.

(** Documented behaviour of a RocksDB whose disk works: [db_view] is its content. *)
Class RocksLaws (DB : Type) `{!RocksDb DB} (db_view : DB → spec) : Prop := {
  open_handles names db : open_cf_descriptors names = Ok db → ∀ c, c ∈ names → cf_handle c db = true;
  get_view c k db : cf_handle c db = true → get_cf c k db = Ok (db_view db !! (c, k));
  put_view c k v db : cf_handle c db = true → ∃ db', put_cf c k v db = (Ok (), db') ∧
    db_view db' = <[(c, k) := v]> (db_view db) ∧ ∀ c', cf_handle c' db' = cf_handle c' db;
  delete_view c k db : cf_handle c db = true → ∃ db', delete_cf c k db = (Ok (), db') ∧
    db_view db' = delete (c, k) (db_view db) ∧ ∀ c', cf_handle c' db' = cf_handle c' db;
}.

Definition memory_sim (m : MemoryStore) (a : spec) : Prop :=
  ∀ c k, a !! (c, k) = match m !! c with Some f => f !! k | None => None end.
Definition rocks_sim `{RocksDb DB} (db_view : DB → spec) (db : DB) (a : spec) : Prop :=
  db_view db = a ∧ ∀ c, c ∈ ALL_CFS → cf_handle c db = true.

#[export] Instance memory_refines : KvRefines MemoryStore memory_sim.
Proof.
  split; intros c k.
  - intros s m _ Hs. cbn. unfold memory_get. by rewrite Hs.
  - intros v s m _ Hs. eexists. split; [done|]. intros c' k'. rewrite !lookup_insert.
    destruct (decide (c = c')) as [->|Hc]; [|rewrite decide_False by congruence; apply Hs].
    rewrite lookup_insert. destruct (decide (k = k')) as [->|Hk]; [by rewrite decide_True|].
    rewrite decide_False by congruence. rewrite Hs. by destruct (s !! c').
  - intros s m _ Hs. eexists. split; [done|]. intros c' k'. rewrite lookup_delete.
    destruct (decide ((c, k) = (c', k'))) as [[= <- <-]|Hne].
    + destruct (s !! c) eqn:E; [|by rewrite E]. by rewrite lookup_insert_eq, lookup_delete_eq.
    + rewrite Hs. destruct (s !! c) as [f|] eqn:E; [|done]. destruct (decide (c = c')) as [<-|Hc].
      * rewrite lookup_insert_eq, E, lookup_delete_ne by congruence. done.
      * by rewrite lookup_insert_ne.
Qed.

#[export] Instance rocks_refines `{RocksLaws DB db_view} : KvRefines DB (rocks_sim db_view).
Proof.
  split; intros c k.
  - intros s m Hc [<- Hh]. cbn. unfold rocks_get, rocks_cf. rewrite Hh by done. simpl.
    by rewrite get_view by auto.
  - intros v s m Hc [<- Hh]. cbn. unfold rocks_put, rocks_cf. rewrite Hh by done.
    destruct (put_view c k v s) as (s' & -> & Hv & Hh'); [auto|]. exists s'. split; [done|]. split; [done|].
    intros c' Hc'. rewrite Hh'. auto.
  - intros s m Hc [<- Hh]. cbn. unfold rocks_delete, rocks_cf. rewrite Hh by done.
    destruct (delete_view c k s) as (s' & -> & Hv & Hh'); [auto|]. exists s'. split; [done|]. split; [done|].
    intros c' Hc'. rewrite Hh'. auto.
Qed.

(** ** Clients *)

(** A client of the store, with the answers it collects. *)
Inductive kv_op := Get (c : string) (k : bytes) | Put (c : string) (k v : bytes)
  | Delete (c : string) (k : bytes) | Exists_ (c : string) (k : bytes).
Definition op_cf (o : kv_op) : string :=
  match o with Get c _ | Put c _ _ | Delete c _ | Exists_ c _ => c end.
Inductive kv_answer := Value (v : option bytes) | Written | Present (b : bool).

Definition run_op {St} `{!KvStore St} (o : kv_op) : ST St StorageError kv_answer := λ s,
  match o with
  | Get c k => (v ← kv_get c k s; Ok (Value v), s)
  | Put c k v => (_ ← (kv_put c k v : ST St StorageError ()); mret Written) s
  | Delete c k => (_ ← (kv_delete c k : ST St StorageError ()); mret Written) s
  | Exists_ c k => (b ← kv_exists c k s; Ok (Present b), s)
  end.
Fixpoint run_ops {St} `{!KvStore St} (os : list kv_op) : ST St StorageError (list kv_answer) :=
  match os with
  | [] => mret []
  | o :: os => a ← run_op o; l ← run_ops os; mret (a :: l)
  end.
Definition spec_op (o : kv_op) (m : spec) : kv_answer * spec :=
  match o with
  | Get c k => (Value (m !! (c, k)), m)
  | Put c k v => (Written, <[(c, k) := v]> m)
  | Delete c k => (Written, delete (c, k) m)
  | Exists_ c k => (Present (bool_decide (is_Some (m !! (c, k)))), m)
  end.
Fixpoint spec_ops (os : list kv_op) (m : spec) : list kv_answer * spec :=
  match os with
  | [] => ([], m)
  | o :: os => let '(a, m) := spec_op o m in let '(l, m) := spec_ops os m in (a :: l, m)
  end.

Section Refinement.
Context {St : Type} `{!KvStore St} {sim : St → spec → Prop} `{!KvRefines St sim}.

Lemma run_op_refines o s m :
  op_cf o ∈ ALL_CFS → sim s m →
  ∃ s', run_op o s = (Ok (spec_op o m).1, s') ∧ sim s' (spec_op o m).2.
Proof.
  intros Hc Hs. destruct o as [c k|c k v|c k|c k]; cbn [op_cf run_op spec_op] in *.
  - exists s. by rewrite (ref_get c k s m).
  - destruct (ref_put c k v s m) as (s' & E & Hs'); [done..|]. exists s'. by rewrite (ST_bind_run _ _ _ _ _ E).
  - destruct (ref_delete c k s m) as (s' & E & Hs'); [done..|]. exists s'. by rewrite (ST_bind_run _ _ _ _ _ E).
  - exists s. unfold kv_exists. by rewrite (ref_get c k s m).
Qed.

Lemma run_ops_refines os s m :
  Forall (λ o, op_cf o ∈ ALL_CFS) os → sim s m →
  ∃ s', run_ops os s = (Ok (spec_ops os m).1, s') ∧ sim s' (spec_ops os m).2.
Proof.
  intros Hos. revert s m. induction Hos as [|o os Ho _ IH]; intros s m Hs; [by exists s|].
  destruct (run_op_refines o s m Ho Hs) as (s1 & E1 & H1). cbn [run_ops spec_ops].
  destruct (spec_op o m) as [a m1]. destruct (IH s1 m1 H1) as (s2 & E2 & H2). exists s2.
  rewrite (ST_bind_run _ _ _ _ _ E1), (ST_bind_run _ _ _ _ _ E2). by destruct (spec_ops os m1).
Qed.
End Refinement.

Lemma open_names_all existing c : c ∈ ALL_CFS ∨ c ∈ existing → c ∈ open_names existing.
Proof.
  unfold open_names. change ALL_CFS with DEFAULT_CFS. generalize DEFAULT_CFS as names.
  induction existing as [|x l IH]; intros names Hc; cbn [foldl].
  - destruct Hc as [Hc|Hc]; [done|by apply elem_of_nil in Hc].
  - apply IH. destruct Hc as [Hc|[->|Hc]%elem_of_cons]; [left|left|by right]; case_bool_decide; set_solver.
Qed.

(** C37: the backends are interchangeable.  For a rocksdb that opens the families it is given
    and whose reads and writes on an open family succeed as a map's do, a database opened over
    any existing families and an in-memory store with the same content answer every sequence
    of reads, writes, deletions and membership tests on the declared families identically:
    every operation succeeds with the answer the abstract map gives, and the contents agree
    afterwards; and every family the state layer names is one of those the backend declares. *)
Theorem backends_agree `{RocksLaws DB db_view} (existing : list string) (db : DB) (m : MemoryStore)
    (os : list kv_op) :
  rocks_open existing = Ok db → memory_sim m (db_view db) → Forall (λ o, op_cf o ∈ ALL_CFS) os →
  ∃ m' db', run_ops os m = (Ok (spec_ops os (db_view db)).1, m') ∧
    run_ops os db = (Ok (spec_ops os (db_view db)).1, db') ∧
    memory_sim m' (db_view db') ∧
    Forall (λ c, c ∈ ALL_CFS ∧ cf_handle c db' = true) [cf.ACCOUNT; cf.CONTRACT; cf.CONTRACT_CODE;
      cf.CONTRACT_STORAGE; cf.WITNESS; cf.VOTES; cf.ASSET; cf.PROPOSAL; cf.EXCHANGE; cf.BLOCK; cf.TRANSACTION;
      cf.BLOCK_INDEX; cf.BROKERAGE; cf.DELEGATION; cf.MARKET_ORDER; cf.MARKET_PAIR_PRICE; cf.MARKET_PAIR;
      cf.MARKET_ACCOUNT_ORDER; cf.MARKET_PAIRS; cf.DYNAMIC_PROPERTIES].
Proof.
  intros Ho Hm Hos. assert (Hdb : rocks_sim db_view db (db_view db)).
  { split; [done|]. intros c Hc. unfold rocks_open, backend in Ho.
    destruct (open_cf_descriptors _) as [db0| |] eqn:E; try done. injection Ho as <-.
    eapply open_handles; [exact E|]. apply open_names_all. by left. }
  destruct (run_ops_refines os m _ Hos Hm) as (m' & E1 & H1).
  destruct (run_ops_refines os db _ Hos Hdb) as (db' & E2 & [E3 H3]). exists m', db'.
  split_and!; [done|done|by rewrite E3|]. apply Forall_forall. intros c Hc.
  assert (Hin : c ∈ ALL_CFS); [|auto]. revert c Hc. apply Forall_forall. by apply (bool_decide_unpack _).
Qed.

(** ** Sample *)

Module StorageSample.
(** A database kept as its families and its content. *)
Definition db : Type := list string * spec.
#[export] Instance toy_rocks : RocksDb db := {|
  open_cf_descriptors names := Ok (names, ∅);
  cf_handle c d := bool_decide (c ∈ d.1);
  get_cf c k d := Ok (d.2 !! (c, k));
  put_cf c k v d := (Ok (), (d.1, <[(c, k) := v]> d.2));
  delete_cf c k d := (Ok (), (d.1, delete (c, k) d.2));
|}.
#[export] Instance toy_rocks_laws : RocksLaws db snd.
Proof.
  split.
  - intros names d [= <-] c Hc. by apply bool_decide_eq_true_2.
  - done.
  - intros c k v d _. by eexists.
  - intros c k d _. by eexists.
Qed.
Definition ops : list kv_op :=
  [Put cf.ACCOUNT [1] [2]; Get cf.ACCOUNT [1]; Exists_ cf.BLOCK [1]; Delete cf.ACCOUNT [1]; Get cf.ACCOUNT [1]].
End StorageSample.
Import StorageSample.

Lemma backends_agree_witness :
  ∃ m' d', run_ops ops memory_new = (Ok [Written; Value (Some [2]); Present false; Written; Value None], m') ∧
    run_ops ops ((open_names ["votes2"%string], ∅) : db) =
      (Ok [Written; Value (Some [2]); Present false; Written; Value None], d') ∧ memory_sim m' d'.2.
Proof.
  destruct (backends_agree (DB := db) (db_view := snd) ["votes2"%string] (open_names ["votes2"%string], ∅) memory_new ops)
    as (m' & d' & E1 & E2 & Hs & _).
  - done.
  - intros c k. cbn [snd]. unfold memory_new. by rewrite !lookup_empty.
  - by apply (bool_decide_unpack _).
  - exists m', d'. split; [rewrite E1; by vm_compute|]. split; [rewrite E2; by vm_compute|exact Hs].
Defined.
