(* ===== verification/Kv.v ===== *)
(** * The world state on a key-value store (crates/state/src/lib.rs, blocks.rs, genesis.rs)

    [State] and [Chain] describe the state as typed maps.  The code keeps it as bytes in the
    column families of a [KvStore]: this file has the same operations on bytes, over any store,
    with the errors of the store and of the codec as results.  A store represents a typed world
    when every family holds encodings of the world's records; the operations on bytes then do
    what the typed ones do, for every client and on both backends, and a block that is only
    partly written never leaves the head without its block. *)

From stdpp Require Import gmap strings pretty numbers fin_maps prelude.
From S2P Require Import Prelude Types Proto State Chain Storage.
Open Scope Z_scope.

Inductive StateError :=
| StorageFailure (e : StorageError)
| DecodeFailure (e : string).

(** ** The operations on bytes *)

Module WorldState.
Section Ops.
Context {St : Type} `{!KvStore St}.
Abbreviation SM := (ST St StateError).

Definition storage {A} (r : res StorageError A) : res StateError A :=
  match r with Ok a => Ok a | Err e => Err (StorageFailure e) | Panic => Panic end.
Definition db_get (c : string) (k : bytes) : SM (option bytes) := λ s, (storage (kv_get c k s), s).
Definition db_put (c : string) (k v : bytes) : SM () := λ s,
  let '(r, s) := kv_put c k v s in (storage r, s).
Definition db_exists (c : string) (k : bytes) : SM bool := λ s, (storage (kv_exists c k s), s).

(** The match the readers of messages share: absent, decoded, or an error. *)
Definition get_message {M} `{!Decode M} (c : string) (k : bytes) : SM (option M) :=
  v ← db_get c k;
  lift match v with
       | Some bs => match decode bs with inr x => Ok (Some x) | inl e => Err (DecodeFailure e) end
       | None => Ok None
       end.
(** An eight-byte record, or the default for anything else. *)
Definition read_i64 (default : Z) (v : option bytes) : Z :=
  match v with
  | Some bs => if bool_decide (length bs = 8%nat) then i64_from_be_bytes bs else default
  | None => default
  end.

Definition get_prop_i64 (key : string) : SM Z :=
  v ← db_get cf.DYNAMIC_PROPERTIES (bytes_of_string key); mret (read_i64 0 v).
Definition put_prop_i64 (key : string) (value : Z) : SM () :=
  db_put cf.DYNAMIC_PROPERTIES (bytes_of_string key) (i64_to_be_bytes value).
Definition add_prop_i64 (key : string) (delta : Z) : SM Z :=
  cur ← get_prop_i64 key;
  let v := saturating_add cur delta in
  _ ← put_prop_i64 key v; mret v.
Definition burn_trx (amount : Z) : SM () :=
  total ← get_prop_i64 props.BURN_TRX_AMOUNT;
  put_prop_i64 props.BURN_TRX_AMOUNT (saturating_add total amount).
(** [self.get_prop_i64(key).unwrap_or(0) == 1]: an error reads as off. *)
Definition feature_enabled (key : string) (s : St) : bool :=
  (match (get_prop_i64 key s).1 with Ok v => v | _ => 0 end) =? 1.

Section Accounts.
Context `{!Encode Account.t} `{!Decode Account.t}.
Definition get_account (addr : Address) : SM (option Account.t) := get_message cf.ACCOUNT addr.
Definition put_account (addr : Address) (account : Account.t) : SM () :=
  db_put cf.ACCOUNT addr (encode_to_vec account).
Definition account_exists (addr : Address) : SM bool := db_exists cf.ACCOUNT addr.
Definition create_account (addr : Address) : SM Account.t :=
  create_time ← get_prop_i64 props.LATEST_BLOCK_HEADER_TIMESTAMP;
  let account := Account.default <| Account.address := addr |> <| Account.type := 0 |>
    <| Account.create_time := create_time |> in
  _ ← put_account addr account; mret account.
End Accounts.

Definition put_brokerage (addr : Address) (pct : Z) : SM () :=
  db_put cf.BROKERAGE addr (i64_to_be_bytes pct).
Definition get_brokerage (addr : Address) : SM Z := v ← db_get cf.BROKERAGE addr; mret (read_i64 20 v).
Definition put_code (addr : Address) (code : bytes) : SM () := db_put cf.CONTRACT_CODE addr code.
Definition get_code (addr : Address) : SM bytes := v ← db_get cf.CONTRACT_CODE addr; mret (default [] v).

Definition put_contract `{!Encode SmartContract.t} (addr : Address) (contract : SmartContract.t) : SM () :=
  db_put cf.CONTRACT addr (encode_to_vec contract).
Definition get_contract `{!Decode SmartContract.t} (addr : Address) : SM (option SmartContract.t) :=
  get_message cf.CONTRACT addr.
Definition put_asset_issue `{!Encode AssetIssueContract.t} (id : Z) (asset : AssetIssueContract.t) : SM () :=
  db_put cf.ASSET (bytes_of_string (dec id)) (encode_to_vec asset).
Definition get_asset_issue `{!Decode AssetIssueContract.t} (id : Z) : SM (option AssetIssueContract.t) :=
  get_message cf.ASSET (bytes_of_string (dec id)).

Definition get_token_id_num : SM Z :=
  v ← get_prop_i64 props.TOKEN_ID_NUM; mret (if v =? 0 then TOKEN_ID_BASE else v).
Definition save_token_id_num (num : Z) : SM () := put_prop_i64 props.TOKEN_ID_NUM num.
Definition allocate_token_id : SM Z :=
  cur ← get_token_id_num;
  next ← lift (add_i64 cur 1);
  _ ← save_token_id_num next; mret next.

Definition get_active_witnesses : SM (list bytes) :=
  v ← db_get cf.DYNAMIC_PROPERTIES (bytes_of_string props.ACTIVE_WITNESSES);
  mret (chunks_exact ADDRESS_LEN (default [] v)).
Definition put_active_witnesses (ws : list Address) : SM () :=
  db_put cf.DYNAMIC_PROPERTIES (bytes_of_string props.ACTIVE_WITNESSES) (concat ws).
Definition get_solidified_block : SM Z := get_prop_i64 props.LATEST_SOLIDIFIED_BLOCK.
Definition put_solidified_block (number : Z) : SM () := put_prop_i64 props.LATEST_SOLIDIFIED_BLOCK number.

(** *** blocks.rs *)

Section Blocks.
Context `{Hashes} `{!Encode HeaderRaw.t} `{!Encode TxRaw.t} `{!Encode Block.t} `{!Decode Block.t}
  `{!Encode Transaction.t} `{!Decode Transaction.t}.

Definition put_block (block : Block.t) : SM () :=
  let number := block_number block in
  _ ← db_put cf.BLOCK (i64_to_be_bytes number) (encode_to_vec block);
  _ ← match block_id_of block with
      | Some id => db_put cf.BLOCK_INDEX id (i64_to_be_bytes number)
      | None => mret ()
      end;
  latest ← get_prop_i64 LATEST_BLOCK_NUMBER;
  if latest <=? number then
    _ ← put_prop_i64 LATEST_BLOCK_NUMBER number;
    match header_raw block with
    | Some raw => put_prop_i64 props.LATEST_BLOCK_HEADER_TIMESTAMP (HeaderRaw.timestamp raw)
    | None => mret ()
    end
  else mret ().
Definition get_block_by_num (number : Z) : SM (option Block.t) := get_message cf.BLOCK (i64_to_be_bytes number).
Definition put_transaction (txid : bytes) (tx : Transaction.t) : SM () :=
  db_put cf.TRANSACTION txid (encode_to_vec tx).
Definition get_transaction (txid : bytes) : SM (option Transaction.t) := get_message cf.TRANSACTION txid.
Fixpoint index_transactions (txs : list Transaction.t) : SM () :=
  match txs with
  | [] => mret ()
  | tx :: txs => _ ← put_transaction (tx_id tx) tx; index_transactions txs
  end.
Definition index_block_transactions (block : Block.t) : SM () := index_transactions (Block.transactions block).
Definition get_block_by_id (id : bytes) : SM (option Block.t) :=
  v ← db_get cf.BLOCK_INDEX id;
  match v with
  | Some bs => if bool_decide (length bs = 8%nat) then get_block_by_num (i64_from_be_bytes bs) else mret None
  | None => mret None
  end.
Definition get_now_block : SM (option Block.t) :=
  head ← get_prop_i64 LATEST_BLOCK_NUMBER; get_block_by_num head.
End Blocks.

(** *** genesis.rs *)

Section Genesis.
Context `{!Encode Account.t} `{!Encode Witness.t}.

Fixpoint genesis_accounts (c : GenesisConfig) (l : list GenesisAccount) : SM () :=
  match l with
  | [] => mret ()
  | ga :: l => _ ← put_account (ga_address ga) (genesis_account c ga); genesis_accounts c l
  end.
Fixpoint genesis_witnesses (c : GenesisConfig) (l : list GenesisWitness) : SM () :=
  match l with
  | [] => mret ()
  | gw :: l =>
      _ ← db_put cf.WITNESS (gw_address gw) (encode_to_vec (genesis_witness gw));
      known ← account_exists (gw_address gw);
      _ ← (if negb known then
             put_account (gw_address gw) (Account.default <| Account.address := gw_address gw |>
               <| Account.create_time := gc_timestamp c |>)
           else mret ());
      genesis_witnesses c l
  end.
Definition apply_genesis (c : GenesisConfig) : SM () :=
  _ ← put_prop_i64 props.LATEST_BLOCK_HEADER_TIMESTAMP (gc_timestamp c);
  _ ← genesis_accounts c (gc_accounts c);
  _ ← genesis_witnesses c (gc_witnesses c);
  put_active_witnesses (gw_address <$> gc_witnesses c).
End Genesis.
End Ops.
End WorldState.

(** ** Representation *)

(** A family of the store holds the map [g]: keys through [key], values through [R]. *)
Definition fam `{Countable K} {V} (key : K → bytes) (R : bytes → V → Prop) (c : string) (m : spec)
    (g : gmap K V) : Prop :=
  ∀ k, option_Forall2 R (m !! (c, key k)) (g !! k).
Definition message {M} `{!Decode M} (bs : bytes) (x : M) : Prop := decode bs = inr x.

Section Fam.
Context `{Countable K} {V : Type} (key : K → bytes) `{!Inj (=) (=) key} (R : bytes → V → Prop).
Implicit Types (m : spec) (g : gmap K V).

Lemma fam_insert c m g k bs v : R bs v → fam key R c m g → fam key R c (<[(c, key k) := bs]> m) (<[k := v]> g).
Proof.
  intros Hr Hf k'. destruct (decide (k = k')) as [<-|Hne].
  - rewrite !lookup_insert_eq. by constructor.
  - rewrite lookup_insert_ne by (intros [= E]; by apply (inj key) in E).
    rewrite lookup_insert_ne by done. apply Hf.
Qed.
Lemma fam_other c c' k bs m g : c' ≠ c → fam key R c m g → fam key R c (<[(c', k) := bs]> m) g.
Proof. intros Hc Hf k'. rewrite lookup_insert_ne by congruence. apply Hf. Qed.
Lemma fam_empty c : fam key R c ∅ (∅ : gmap K V).
Proof. intros k. rewrite !lookup_empty. constructor. Qed.
End Fam.

#[export] Instance bytes_of_string_inj : Inj (=) (=) bytes_of_string.
Proof.
  intros s. induction s as [|a s IH]; intros [|b t]; try done. intros [= E Es].
  f_equal; [|by apply IH]. unfold ascii_to_byte in E. apply (inj _) in E.
  by rewrite <-(Ascii.ascii_N_embedding a), E, Ascii.ascii_N_embedding.
Qed.

Section Repr.
Context `{!Decode Account.t} `{!Decode SmartContract.t} `{!Decode Witness.t} `{!Decode AssetIssueContract.t}
  `{!Decode Proposal.t} `{!Decode Exchange.t} `{!Decode Block.t} `{!Decode Transaction.t}
  `{!Decode DelegatedResource.t} `{!Decode MarketOrder.t}.

(** The content of the store is the world, family by family. *)
Record represents (m : spec) (w : world) : Prop := {
  rep_account : fam id message cf.ACCOUNT m (w_account w);
  rep_contract : fam id message cf.CONTRACT m (w_contract w);
  rep_contract_code : fam id eq cf.CONTRACT_CODE m (w_contract_code w);
  rep_contract_storage : fam id eq cf.CONTRACT_STORAGE m (w_contract_storage w);
  rep_witness : fam id message cf.WITNESS m (w_witness w);
  rep_asset : fam bytes_of_string message cf.ASSET m (w_asset w);
  rep_proposal : fam id message cf.PROPOSAL m (w_proposal w);
  rep_exchange : fam id message cf.EXCHANGE m (w_exchange w);
  rep_block : fam id message cf.BLOCK m (w_block w);
  rep_transaction : fam id message cf.TRANSACTION m (w_transaction w);
  rep_block_index : fam id eq cf.BLOCK_INDEX m (w_block_index w);
  rep_brokerage : fam id eq cf.BROKERAGE m (w_brokerage w);
  rep_delegation : fam id message cf.DELEGATION m (w_delegation w);
  rep_market_order : fam id message cf.MARKET_ORDER m (w_market_order w);
  rep_market_pair_price : fam id eq cf.MARKET_PAIR_PRICE m (w_market_pair_price w);
  rep_market_pair : fam id eq cf.MARKET_PAIR m (w_market_pair w);
  rep_market_account_order : fam id eq cf.MARKET_ACCOUNT_ORDER m (w_market_account_order w);
  rep_market_pairs : fam id eq cf.MARKET_PAIRS m (w_market_pairs w);
  rep_properties : fam bytes_of_string eq cf.DYNAMIC_PROPERTIES m (w_properties w);
}.

Lemma represents_empty : represents ∅ empty_world.
Proof. split; apply fam_empty. Qed.

(** One write: the family it belongs to is extended, the others are untouched. *)
Ltac family := intros Hr; destruct Hr; split;
  first [apply fam_other; [discriminate|done] | apply (fam_insert id); done | apply (fam_insert bytes_of_string); done].

Lemma rep_put_account m w a bs x :
  message bs x → represents m w → represents (<[(cf.ACCOUNT, a) := bs]> m) (put_account a x w).
Proof. intros Hx. family. Qed.
Lemma rep_put_prop m w k v :
  represents m w →
  represents (<[(cf.DYNAMIC_PROPERTIES, bytes_of_string k) := v]> m) (w <| w_properties ::= insert k v |>).
Proof. family. Qed.
Lemma rep_put_brokerage m w a pct :
  represents m w → represents (<[(cf.BROKERAGE, a) := i64_to_be_bytes pct]> m) (put_brokerage a pct w).
Proof. family. Qed.
Lemma rep_put_code m w a code :
  represents m w → represents (<[(cf.CONTRACT_CODE, a) := code]> m) (put_code a code w).
Proof. family. Qed.
Lemma rep_put_contract m w a bs x :
  message bs x → represents m w → represents (<[(cf.CONTRACT, a) := bs]> m) (put_contract a x w).
Proof. intros Hx. family. Qed.
Lemma rep_put_asset m w i bs x :
  message bs x → represents m w →
  represents (<[(cf.ASSET, bytes_of_string (dec i)) := bs]> m) (put_asset_issue i x w).
Proof. intros Hx. family. Qed.
Lemma rep_put_witness m w a bs x :
  message bs x → represents m w → represents (<[(cf.WITNESS, a) := bs]> m) (put_witness a x w).
Proof. intros Hx. family. Qed.
Lemma rep_put_block m w k bs x :
  message bs x → represents m w → represents (<[(cf.BLOCK, k) := bs]> m) (w <| w_block ::= insert k x |>).
Proof. intros Hx. family. Qed.
Lemma rep_put_index m w k v :
  represents m w → represents (<[(cf.BLOCK_INDEX, k) := v]> m) (w <| w_block_index ::= insert k v |>).
Proof. family. Qed.
Lemma rep_put_transaction m w k bs x :
  message bs x → represents m w → represents (<[(cf.TRANSACTION, k) := bs]> m) (put_transaction k x w).
Proof. intros Hx. family. Qed.
End Repr.

(** ** Simulation *)

(** What prost promises of a message: its encoding decodes to it. *)
Definition codec_ok {M} `{!Encode M} `{!Decode M} (x : M) : Prop := message (encode_to_vec x) x.

(** On related states, [p] ends as [q] does, with the same result and related states. *)
Section Sim.
Context {S T E : Type} (R : S → T → Prop).
Definition simulates {A} (p : ST S E A) (q : ST T E A) (t : T) : Prop :=
  ∀ s, R s t → ∃ s', p s = ((q t).1, s') ∧ R s' (q t).2.

Lemma sim_bind_Ok {A B} (p : ST S E A) (q : ST T E A) (f : A → ST S E B) g t :
  simulates p q t → (∀ a, (q t).1 = Ok a → simulates (f a) (g a) (q t).2) → simulates (p ≫= f) (q ≫= g) t.
Proof.
  intros Hp Hf s Hs. destruct (Hp s Hs) as (s1 & E1 & H1). unfold mbind, ST_bind. rewrite E1.
  destruct (q t) as [[a|e|] w1]; cbn [fst snd] in *; [by apply Hf|by exists s1|by exists s1].
Qed.
Lemma sim_bind {A B} (p : ST S E A) (q : ST T E A) (f : A → ST S E B) g t :
  simulates p q t → (∀ a, simulates (f a) (g a) (q t).2) → simulates (p ≫= f) (q ≫= g) t.
Proof. intros Hp Hf. apply sim_bind_Ok; auto. Qed.
Lemma sim_lift {A} (r : res E A) t : simulates (lift r) (lift r) t.
Proof. intros s Hs. by exists s. Qed.
Lemma sim_ret {A} (a : A) t : simulates (mret a) (mret a) t.
Proof. apply (sim_lift (Ok a)). Qed.
Lemma sim_ext {A} (p : ST S E A) (q q' : ST T E A) t : q t = q' t → simulates p q t → simulates p q' t.
Proof. intros Eq Hp s Hs. rewrite <-Eq. by apply Hp. Qed.
End Sim.

Section Simulation.
Context {St : Type} `{!KvStore St} {sim : St → spec → Prop} `{!KvRefines St sim}.
Context `{!Decode Account.t} `{!Decode SmartContract.t} `{!Decode Witness.t} `{!Decode AssetIssueContract.t}
  `{!Decode Proposal.t} `{!Decode Exchange.t} `{!Decode Block.t} `{!Decode Transaction.t}
  `{!Decode DelegatedResource.t} `{!Decode MarketOrder.t}.
Implicit Types (s : St) (w : world) (m : spec).

(** The store [s] holds the typed world [w]. *)
Definition repr s w : Prop := ∃ m, sim s m ∧ represents m w.
Abbreviation simulates := (simulates (E := StateError) repr).

(** A read: the typed value is a function of the record. *)
Lemma sim_read {A} c k (f : option bytes → res StateError A) (g : world → A) w :
  c ∈ ALL_CFS → (∀ m, represents m w → f (m !! (c, k)) = Ok (g w)) →
  simulates (v ← WorldState.db_get c k; lift (f v)) (gets g) w.
Proof.
  intros Hc Hf s (m & Hs & Hm). exists s. unfold mbind, ST_bind, WorldState.db_get.
  rewrite (ref_get c k s m Hc Hs). cbn. rewrite (Hf m Hm). split; [done|]. by exists m.
Qed.
Lemma sim_write c k v (g : world → world) w :
  c ∈ ALL_CFS → (∀ m, represents m w → represents (<[(c, k) := v]> m) (g w)) →
  simulates (WorldState.db_put c k v) (modify g) w.
Proof.
  intros Hc Hf s (m & Hs & Hm). unfold WorldState.db_put.
  destruct (ref_put c k v s m Hc Hs) as (s' & -> & Hs'). exists s'. split; [done|]. exists (<[(c, k) := v]> m). auto.
Qed.

Lemma message_read {M} `{!Decode M} `{Countable K} (key : K → bytes) c m (g : gmap K M) k :
  fam key message c m g →
  match m !! (c, key k) with
  | Some bs => match decode bs with inr x => Ok (Some x) | inl e => Err (DecodeFailure e) end
  | None => Ok None
  end = Ok (g !! k).
Proof.
  intros Hf. specialize (Hf k). destruct Hf as [bs x Hx|]; [|done]. unfold message in Hx. by rewrite Hx.
Qed.
Lemma raw_read `{Countable K} (key : K → bytes) c m (g : gmap K bytes) k :
  fam key eq c m g → m !! (c, key k) = g !! k.
Proof. intros Hf. specialize (Hf k). by destruct Hf; subst. Qed.

(** *** Properties, codes, rates *)

Lemma sim_get_prop k w : simulates (WorldState.get_prop_i64 k) (gets (get_prop_i64 k)) w.
Proof.
  apply (sim_read _ _ (λ v, Ok (WorldState.read_i64 0 v))); [by apply (bool_decide_unpack _)|].
  intros m Hm. by rewrite (raw_read _ _ _ _ _ (rep_properties _ _ Hm)).
Qed.
Lemma sim_put_prop k v w : simulates (WorldState.put_prop_i64 k v) (modify (put_prop_i64 k v)) w.
Proof. apply sim_write; [by apply (bool_decide_unpack _)|]. intros m. apply rep_put_prop. Qed.
Lemma sim_get_active w : simulates WorldState.get_active_witnesses (gets get_active_witnesses) w.
Proof.
  apply (sim_read _ _ (λ v, Ok (chunks_exact ADDRESS_LEN (default [] v)))); [by apply (bool_decide_unpack _)|].
  intros m Hm. by rewrite (raw_read _ _ _ _ _ (rep_properties _ _ Hm)).
Qed.
Lemma sim_put_active ws w : simulates (WorldState.put_active_witnesses ws) (modify (put_active_witnesses ws)) w.
Proof. apply sim_write; [by apply (bool_decide_unpack _)|]. intros m. apply rep_put_prop. Qed.
End Simulation.

(** ** Clients of the state *)

(** The interface of the state crate, with the type of each answer. *)
Inductive sop : Type → Type :=
| GetProp (key : string) : sop Z
| PutProp (key : string) (value : Z) : sop ()
| AddProp (key : string) (delta : Z) : sop Z
| BurnTrx (amount : Z) : sop ()
| FeatureEnabled (key : string) : sop bool
| GetAccount (addr : Address) : sop (option Account.t)
| PutAccount (addr : Address) (account : Account.t) : sop ()
| AccountExists (addr : Address) : sop bool
| CreateAccount (addr : Address) : sop Account.t
| PutBrokerage (addr : Address) (pct : Z) : sop ()
| GetBrokerage (addr : Address) : sop Z
| PutCode (addr : Address) (code : bytes) : sop ()
| GetCode (addr : Address) : sop bytes
| PutContract (addr : Address) (contract : SmartContract.t) : sop ()
| GetContract (addr : Address) : sop (option SmartContract.t)
| PutAssetIssue (id : Z) (asset : AssetIssueContract.t) : sop ()
| GetAssetIssue (id : Z) : sop (option AssetIssueContract.t)
| GetTokenIdNum : sop Z
| SaveTokenIdNum (num : Z) : sop ()
| AllocateTokenId : sop Z
| GetActiveWitnesses : sop (list bytes)
| PutActiveWitnesses (ws : list Address) : sop ()
| GetSolidifiedBlock : sop Z
| PutSolidifiedBlock (number : Z) : sop ()
| PutBlock (block : Block.t) : sop ()
| GetBlockByNum (number : Z) : sop (option Block.t)
| PutTransaction (txid : bytes) (tx : Transaction.t) : sop ()
| GetTransaction (txid : bytes) : sop (option Transaction.t)
| IndexBlockTransactions (block : Block.t) : sop ()
| GetBlockById (id : bytes) : sop (option Block.t)
| GetNowBlock : sop (option Block.t)
| ApplyGenesis (c : GenesisConfig) : sop ().

(** A client: it may choose each operation by the answers so far. *)
Inductive client (A : Type) : Type :=
| Return (a : A)
| Call {B : Type} (o : sop B) (k : B → client A).
Arguments Return {A} a.
Arguments Call {A B} o k.

Section Clients.
Context `{Hashes} `{!Encode HeaderRaw.t} `{!Encode TxRaw.t}
  `{!Encode Account.t} `{!Decode Account.t} `{!Encode SmartContract.t} `{!Decode SmartContract.t}
  `{!Encode Witness.t} `{!Decode Witness.t} `{!Encode AssetIssueContract.t} `{!Decode AssetIssueContract.t}
  `{!Encode Block.t} `{!Decode Block.t} `{!Encode Transaction.t} `{!Decode Transaction.t}.

Definition on_bytes {St} `{!KvStore St} {A} (o : sop A) : ST St StateError A :=
  match o with
  | GetProp k => WorldState.get_prop_i64 k
  | PutProp k v => WorldState.put_prop_i64 k v
  | AddProp k d => WorldState.add_prop_i64 k d
  | BurnTrx n => WorldState.burn_trx n
  | FeatureEnabled k => gets (WorldState.feature_enabled k)
  | GetAccount a => WorldState.get_account a
  | PutAccount a x => WorldState.put_account a x
  | AccountExists a => WorldState.account_exists a
  | CreateAccount a => WorldState.create_account a
  | PutBrokerage a p => WorldState.put_brokerage a p
  | GetBrokerage a => WorldState.get_brokerage a
  | PutCode a c => WorldState.put_code a c
  | GetCode a => WorldState.get_code a
  | PutContract a c => WorldState.put_contract a c
  | GetContract a => WorldState.get_contract a
  | PutAssetIssue i x => WorldState.put_asset_issue i x
  | GetAssetIssue i => WorldState.get_asset_issue i
  | GetTokenIdNum => WorldState.get_token_id_num
  | SaveTokenIdNum n => WorldState.save_token_id_num n
  | AllocateTokenId => WorldState.allocate_token_id
  | GetActiveWitnesses => WorldState.get_active_witnesses
  | PutActiveWitnesses ws => WorldState.put_active_witnesses ws
  | GetSolidifiedBlock => WorldState.get_solidified_block
  | PutSolidifiedBlock n => WorldState.put_solidified_block n
  | PutBlock b => WorldState.put_block b
  | GetBlockByNum n => WorldState.get_block_by_num n
  | PutTransaction i t => WorldState.put_transaction i t
  | GetTransaction i => WorldState.get_transaction i
  | IndexBlockTransactions b => WorldState.index_block_transactions b
  | GetBlockById i => WorldState.get_block_by_id i
  | GetNowBlock => WorldState.get_now_block
  | ApplyGenesis c => WorldState.apply_genesis c
  end.

Definition on_world {A} (o : sop A) : ST world StateError A :=
  match o with
  | GetProp k => gets (get_prop_i64 k)
  | PutProp k v => modify (put_prop_i64 k v)
  | AddProp k d => λ w, (Ok (saturating_add (get_prop_i64 k w) d), add_prop_i64 k d w)
  | BurnTrx n => modify (burn_trx n)
  | FeatureEnabled k => gets (feature_enabled k)
  | GetAccount a => gets (get_account a)
  | PutAccount a x => modify (put_account a x)
  | AccountExists a => gets (account_exists a)
  | CreateAccount a => λ w, (Ok (fresh_account a w), create_account a w)
  | PutBrokerage a p => modify (put_brokerage a p)
  | GetBrokerage a => gets (get_brokerage a)
  | PutCode a c => modify (put_code a c)
  | GetCode a => gets (get_code a)
  | PutContract a c => modify (put_contract a c)
  | GetContract a => gets (get_contract a)
  | PutAssetIssue i x => modify (put_asset_issue i x)
  | GetAssetIssue i => gets (get_asset_issue i)
  | GetTokenIdNum => gets get_token_id_num
  | SaveTokenIdNum n => modify (save_token_id_num n)
  | AllocateTokenId => allocate_token_id
  | GetActiveWitnesses => gets get_active_witnesses
  | PutActiveWitnesses ws => modify (put_active_witnesses ws)
  | GetSolidifiedBlock => gets get_solidified_block
  | PutSolidifiedBlock n => modify (put_solidified_block n)
  | PutBlock b => modify (put_block b)
  | GetBlockByNum n => gets (get_block_by_num n)
  | PutTransaction i t => modify (put_transaction i t)
  | GetTransaction i => gets (get_transaction i)
  | IndexBlockTransactions b => modify (index_block_transactions b)
  | GetBlockById i => gets (get_block_by_id i)
  | GetNowBlock => gets get_now_block
  | ApplyGenesis c => modify (apply_genesis c)
  end.

(** The messages an operation writes are ones the codec carries. *)
Definition genesis_witness_account (c : GenesisConfig) (gw : GenesisWitness) : Account.t :=
  Account.default <| Account.address := gw_address gw |> <| Account.create_time := gc_timestamp c |>.
Definition writes_ok {A} (o : sop A) (w : world) : Prop :=
  match o with
  | PutAccount _ x => codec_ok x
  | CreateAccount a => codec_ok (fresh_account a w)
  | PutContract _ c => codec_ok c
  | PutAssetIssue _ x => codec_ok x
  | PutBlock b => codec_ok b
  | PutTransaction _ t => codec_ok t
  | IndexBlockTransactions b => Forall codec_ok (Block.transactions b)
  | ApplyGenesis c =>
      Forall (λ ga, codec_ok (genesis_account c ga)) (gc_accounts c) ∧
      Forall (λ gw, codec_ok (genesis_witness gw) ∧ codec_ok (genesis_witness_account c gw)) (gc_witnesses c)
  | _ => True
  end.

Fixpoint run_bytes {St} `{!KvStore St} {A} (p : client A) : ST St StateError A :=
  match p with
  | Return a => mret a
  | Call o k => b ← on_bytes o; run_bytes (k b)
  end.
Fixpoint run_world {A} (p : client A) : ST world StateError A :=
  match p with
  | Return a => mret a
  | Call o k => b ← on_world o; run_world (k b)
  end.
Fixpoint client_ok {A} (p : client A) (w : world) : Prop :=
  match p with
  | Return _ => True
  | Call o k => writes_ok o w ∧
      match on_world o w with (Ok b, w') => client_ok (k b) w' | _ => True end
  end.
End Clients.

Section Refine.
Context {St : Type} `{!KvStore St} {sim : St → spec → Prop} `{!KvRefines St sim}.
Context `{Hashes} `{!Encode HeaderRaw.t} `{!Encode TxRaw.t}
  `{!Encode Account.t} `{!Decode Account.t} `{!Encode SmartContract.t} `{!Decode SmartContract.t}
  `{!Encode Witness.t} `{!Decode Witness.t} `{!Encode AssetIssueContract.t} `{!Decode AssetIssueContract.t}
  `{!Encode Block.t} `{!Decode Block.t} `{!Encode Transaction.t} `{!Decode Transaction.t}
  `{!Decode Proposal.t} `{!Decode Exchange.t} `{!Decode DelegatedResource.t} `{!Decode MarketOrder.t}.
Implicit Types (s : St) (w : world).
Abbreviation simulates := (simulates (E := StateError) (repr (sim := sim))).

Ltac declared := by apply (bool_decide_unpack _).

Lemma sim_get_message {M} `{!Decode M} c k (g : world → option M) w :
  c ∈ ALL_CFS →
  (∀ m, represents m w → option_Forall2 message (m !! (c, k)) (g w)) →
  simulates (WorldState.get_message c k) (gets g) w.
Proof.
  intros Hc Hg. apply sim_read; [done|]. intros m Hm.
  destruct (Hg m Hm) as [bs x Hx|]; [|done]. unfold message in Hx. by rewrite Hx.
Qed.

Lemma sim_put_account a x w :
  codec_ok x → simulates (WorldState.put_account a x) (modify (put_account a x)) w.
Proof. intros Hx. apply sim_write; [declared|]. intros m. by apply rep_put_account. Qed.

Lemma sim_exists a w : simulates (WorldState.account_exists a) (gets (account_exists a)) w.
Proof.
  intros s (m & Hs & Hm). exists s. unfold WorldState.account_exists, WorldState.db_exists, kv_exists.
  rewrite (ref_get _ _ s m) by (done || declared). cbn.
  pose proof (rep_account _ _ Hm a) as Ha. cbn in Ha. split; [|by exists m]. unfold gets, account_exists.
  destruct Ha; [by rewrite !bool_decide_eq_true_2 by by eexists|done].
Qed.

Lemma sim_put_block b w : codec_ok b → simulates (WorldState.put_block b) (modify (put_block b)) w.
Proof.
  intros Hb. set (n := i64_to_be_bytes (block_number b)).
  eapply (sim_ext _ _ (_ ← modify (λ w, w <| w_block ::= insert n b |>);
    _ ← match block_id_of b with
        | Some id => modify (λ w, w <| w_block_index ::= insert id n |>)
        | None => mret ()
        end;
    latest ← gets (get_prop_i64 LATEST_BLOCK_NUMBER);
    if latest <=? block_number b then
      _ ← modify (put_prop_i64 LATEST_BLOCK_NUMBER (block_number b));
      match header_raw b with
      | Some raw => modify (put_prop_i64 props.LATEST_BLOCK_HEADER_TIMESTAMP (HeaderRaw.timestamp raw))
      | None => mret ()
      end
    else mret ())).
  { unfold put_block, mbind, ST_bind, modify, gets. fold n. cbn.
    destruct (block_id_of b); cbn; destruct (_ <=? _); cbn; by destruct (header_raw b). }
  apply sim_bind; [apply sim_write; [declared|]; intros m; by apply rep_put_block|intros _].
  apply sim_bind; [destruct (block_id_of b); [|apply sim_ret]; apply sim_write; [declared|]; intros m; apply rep_put_index|intros _].
  apply sim_bind; [apply sim_get_prop|intros latest]. destruct (_ <=? _); [|apply sim_ret].
  apply sim_bind; [apply sim_put_prop|intros _]. destruct (header_raw b); [apply sim_put_prop|apply sim_ret].
Qed.

Lemma sim_get_block n w : simulates (WorldState.get_block_by_num n) (gets (get_block_by_num n)) w.
Proof. apply sim_get_message; [declared|]. intros m Hm. apply (rep_block _ _ Hm). Qed.

Lemma sim_get_block_by_id i w : simulates (WorldState.get_block_by_id i) (gets (get_block_by_id i)) w.
Proof.
  eapply (sim_ext _ _ (v ← gets (λ w, w_block_index w !! i);
    match v with
    | Some bs => if bool_decide (length bs = 8%nat) then gets (get_block_by_num (i64_from_be_bytes bs)) else mret None
    | None => mret None
    end)).
  { unfold get_block_by_id, mbind, ST_bind, gets. cbn. by repeat case_match. }
  apply sim_bind.
  - intros s (m & Hs & Hm). exists s. unfold WorldState.db_get. rewrite (ref_get _ _ s m) by (done || declared).
    split; [|by exists m]. cbn. by rewrite (raw_read id _ _ _ i (rep_block_index _ _ Hm) : m !! (cf.BLOCK_INDEX, i) = _).
  - intros [bs|]; [|apply sim_ret]. case_bool_decide; [apply sim_get_block|apply sim_ret].
Qed.

Lemma sim_index txs w :
  Forall codec_ok txs →
  simulates (WorldState.index_transactions txs) (modify (λ w, foldl (λ w tx, put_transaction (tx_id tx) tx w) w txs)) w.
Proof.
  intros Hf. revert w. induction Hf as [|tx txs Hx _ IH]; intros w; [apply sim_ret|]. cbn [WorldState.index_transactions].
  eapply (sim_ext _ _ (_ ← modify (put_transaction (tx_id tx) tx);
    modify (λ w, foldl (λ w tx, put_transaction (tx_id tx) tx w) w txs))); [done|].
  apply sim_bind; [|intros _; apply IH]. apply sim_write; [declared|]. intros m. by apply rep_put_transaction.
Qed.

Lemma sim_genesis_accounts c l w :
  Forall (λ ga, codec_ok (genesis_account c ga)) l →
  simulates (WorldState.genesis_accounts c l) (modify (λ w, foldl (apply_genesis_account c) w l)) w.
Proof.
  intros Hf. revert w. induction Hf as [|ga l Hx _ IH]; intros w; [apply sim_ret|]. cbn [WorldState.genesis_accounts].
  eapply (sim_ext _ _ (_ ← modify (λ w, apply_genesis_account c w ga); modify (λ w, foldl (apply_genesis_account c) w l))); [done|].
  apply sim_bind; [|intros _; apply IH]. by apply sim_put_account.
Qed.

Lemma sim_genesis_witnesses c l w :
  Forall (λ gw, codec_ok (genesis_witness gw) ∧ codec_ok (genesis_witness_account c gw)) l →
  simulates (WorldState.genesis_witnesses c l) (modify (λ w, foldl (apply_genesis_witness c) w l)) w.
Proof.
  intros Hf. revert w. induction Hf as [|gw l [Hx Ha] _ IH]; intros w; [apply sim_ret|]. cbn [WorldState.genesis_witnesses].
  eapply (sim_ext _ _ (_ ← modify (put_witness (gw_address gw) (genesis_witness gw));
    known ← gets (account_exists (gw_address gw));
    _ ← (if negb known then modify (put_account (gw_address gw) (genesis_witness_account c gw)) else mret ());
    modify (λ w, foldl (apply_genesis_witness c) w l))).
  { unfold mbind, ST_bind, modify, gets. cbn [foldl]. unfold apply_genesis_witness at 3.
    by destruct (account_exists _ _). }
  apply sim_bind; [apply sim_write; [declared|]; intros m; by apply rep_put_witness|intros _].
  apply sim_bind; [apply sim_exists|intros known].
  apply sim_bind; [|intros _; apply IH]. destruct known; [apply sim_ret|by apply sim_put_account].
Qed.

Lemma sim_genesis c w :
  writes_ok (ApplyGenesis c) w → simulates (WorldState.apply_genesis c) (modify (apply_genesis c)) w.
Proof.
  intros [Ha Hw].
  eapply (sim_ext _ _ (_ ← modify (put_prop_i64 props.LATEST_BLOCK_HEADER_TIMESTAMP (gc_timestamp c));
    _ ← modify (λ w, foldl (apply_genesis_account c) w (gc_accounts c));
    _ ← modify (λ w, foldl (apply_genesis_witness c) w (gc_witnesses c));
    modify (put_active_witnesses (gw_address <$> gc_witnesses c)))); [done|].
  apply sim_bind; [apply sim_put_prop|intros _]. apply sim_bind; [by apply sim_genesis_accounts|intros _].
  apply sim_bind; [by apply sim_genesis_witnesses|intros _]. apply sim_put_active.
Qed.

Lemma sim_feature k w : simulates (gets (WorldState.feature_enabled k)) (gets (feature_enabled k)) w.
Proof.
  intros s Hs. exists s. split; [|done]. unfold gets, WorldState.feature_enabled, feature_enabled.
  destruct (sim_get_prop k w s Hs) as (s' & -> & _). done.
Qed.

Lemma sim_token_id_num w : simulates WorldState.get_token_id_num (gets get_token_id_num) w.
Proof.
  eapply (sim_ext _ _ (v ← gets (get_prop_i64 props.TOKEN_ID_NUM); mret (if v =? 0 then TOKEN_ID_BASE else v))); [done|].
  apply sim_bind; [apply sim_get_prop|intros v; apply sim_ret].
Qed.

(** Typed operations do not fail. *)
Lemma op_no_error {A} (o : sop A) w e : (on_world o w).1 ≠ Err e.
Proof.
  destruct o; try done. cbn [on_world]. unfold allocate_token_id, mbind, ST_bind, gets, lift, add_i64, exact_i64.
  by destruct (bool_decide _).
Qed.

(** Every operation on bytes does what the typed one does. *)
Lemma sim_op {A} (o : sop A) w : writes_ok o w → simulates (on_bytes o) (on_world o) w.
Proof.
  intros Hok. destruct o; cbn [on_bytes on_world writes_ok] in *.
  - apply sim_get_prop.
  - apply sim_put_prop.
  - eapply (sim_ext _ _ (cur ← gets (get_prop_i64 key); _ ← modify (put_prop_i64 key (saturating_add cur delta));
      mret (saturating_add cur delta))); [done|].
    apply sim_bind; [apply sim_get_prop|intros cur]. apply sim_bind; [apply sim_put_prop|intros _; apply sim_ret].
  - eapply (sim_ext _ _ (t ← gets (get_prop_i64 props.BURN_TRX_AMOUNT); modify (put_prop_i64 _ (saturating_add t amount)))); [done|].
    apply sim_bind; [apply sim_get_prop|intros t; apply sim_put_prop].
  - apply sim_feature.
  - apply sim_get_message; [declared|]. intros m Hm. apply (rep_account _ _ Hm).
  - by apply sim_put_account.
  - apply sim_exists.
  - set (fresh := λ t, Account.default <| Account.address := addr |> <| Account.type := 0 |> <| Account.create_time := t |>).
    eapply (sim_ext _ _ (t ← gets (get_prop_i64 props.LATEST_BLOCK_HEADER_TIMESTAMP);
      _ ← modify (put_account addr (fresh t)); mret (fresh t))); [done|].
    apply sim_bind_Ok; [apply sim_get_prop|]. intros t [= <-].
    apply sim_bind; [by apply sim_put_account|intros _; apply sim_ret].
  - apply sim_write; [declared|]. intros m. apply rep_put_brokerage.
  - apply (sim_read _ _ (λ v, Ok (WorldState.read_i64 20 v))); [declared|].
    intros m Hm. by rewrite (raw_read id _ _ _ addr (rep_brokerage _ _ Hm) : m !! (cf.BROKERAGE, addr) = _).
  - apply sim_write; [declared|]. intros m. apply rep_put_code.
  - apply (sim_read _ _ (λ v, Ok (default [] v))); [declared|].
    intros m Hm. by rewrite (raw_read id _ _ _ addr (rep_contract_code _ _ Hm) : m !! (cf.CONTRACT_CODE, addr) = _).
  - apply sim_write; [declared|]. intros m. by apply rep_put_contract.
  - apply sim_get_message; [declared|]. intros m Hm. apply (rep_contract _ _ Hm).
  - apply sim_write; [declared|]. intros m. by apply rep_put_asset.
  - apply sim_get_message; [declared|]. intros m Hm. apply (rep_asset _ _ Hm).
  - apply sim_token_id_num.
  - apply sim_put_prop.
  - apply sim_bind; [apply sim_token_id_num|intros cur]. apply sim_bind; [apply sim_lift|intros next].
    apply sim_bind; [apply sim_put_prop|intros _; apply sim_ret].
  - apply sim_get_active.
  - apply sim_put_active.
  - apply sim_get_prop.
  - apply sim_put_prop.
  - by apply sim_put_block.
  - apply sim_get_block.
  - apply sim_write; [declared|]. intros m. by apply rep_put_transaction.
  - apply sim_get_message; [declared|]. intros m Hm. apply (rep_transaction _ _ Hm).
  - by apply sim_index.
  - apply sim_get_block_by_id.
  - eapply (sim_ext _ _ (h ← gets (get_prop_i64 LATEST_BLOCK_NUMBER); gets (get_block_by_num h))); [done|].
    apply sim_bind; [apply sim_get_prop|intros h; apply sim_get_block].
  - by apply sim_genesis.
Qed.

(** C13: the typed state is what the bytes hold.  On every store that refines the key-value
    interface and represents a typed world, in particular on both backends, any client of the
    state runs on the bytes exactly as on the typed maps: each operation returns the same
    answer (a panic of the token counter included), no storage or decoding error occurs, and
    the store represents the typed world the operations lead to. *)
Theorem state_on_bytes {A} (p : client A) s w :
  repr (sim := sim) s w → client_ok p w →
  ∃ s', run_bytes p s = ((run_world p w).1, s') ∧ repr (sim := sim) s' (run_world p w).2 ∧
    ∀ e, (run_bytes p s).1 ≠ Err e.
Proof.
  revert s w. induction p as [a|B o k IH]; intros s w Hs Hp; [by exists s|].
  destruct Hp as [Ho Hk]. destruct (sim_op o w Ho s Hs) as (s1 & E1 & H1).
  cbn [run_bytes run_world]. unfold mbind, ST_bind. rewrite E1. pose proof (op_no_error o w) as He.
  destruct (on_world o w) as [[b|e|] w1]; cbn [fst snd] in *; [by apply IH|by destruct (He e)|by exists s1].
Qed.
End Refine.

(** ** Damaged records and failing reads *)

Section Damage.
Context {St : Type} `{!KvStore St} `{!Decode Account.t}.

(** What the readers make of a store that does not hold a typed world: an undecodable account
    is an error of its reader although it exists; a failing read is an error of every reader
    except a feature gate, which reads as off; a counter of the wrong length reads as its
    default.  No reader changes the store or panics when the backend does not. *)
Lemma reads_of_damage (s : St) (a : Address) (k : string) :
  (∀ bs e, kv_get cf.ACCOUNT a s = Ok (Some bs) → decode (M := Account.t) bs = inl e →
     WorldState.get_account a s = (Err (DecodeFailure e), s) ∧ WorldState.account_exists a s = (Ok true, s)) ∧
  (∀ e, kv_get cf.ACCOUNT a s = Err e →
     WorldState.get_account a s = (Err (StorageFailure e), s) ∧
     WorldState.account_exists a s = (Err (StorageFailure e), s)) ∧
  (∀ e, kv_get cf.DYNAMIC_PROPERTIES (bytes_of_string k) s = Err e →
     WorldState.get_prop_i64 k s = (Err (StorageFailure e), s) ∧ WorldState.feature_enabled k s = false) ∧
  (∀ bs, kv_get cf.DYNAMIC_PROPERTIES (bytes_of_string k) s = Ok (Some bs) → length bs ≠ 8%nat →
     WorldState.get_prop_i64 k s = (Ok 0, s)) ∧
  (∀ bs, kv_get cf.BROKERAGE a s = Ok (Some bs) → length bs ≠ 8%nat → WorldState.get_brokerage a s = (Ok 20, s)).
Proof.
  unfold WorldState.get_account, WorldState.get_message, WorldState.account_exists, WorldState.db_exists,
    WorldState.feature_enabled, WorldState.get_prop_i64, WorldState.get_brokerage, WorldState.db_get, kv_exists,
    mbind, ST_bind, res_bind.
  split_and!.
  - intros bs e -> He. cbn. by rewrite He.
  - by intros e ->.
  - by intros e ->.
  - intros bs -> Hl. cbn. by rewrite bool_decide_eq_false_2.
  - intros bs -> Hl. cbn. by rewrite bool_decide_eq_false_2.
Qed.
End Damage.

(** ** A write that fails *)

(** A store whose writes succeed [f_left] more times and then fail, as when its disk is full. *)
Record faulty (St : Type) := mk_faulty { f_store : St; f_left : nat }.
Arguments mk_faulty {St} _ _.
Arguments f_store {St} _.
Arguments f_left {St} _.
Definition no_space : StorageError := Backend "No space left on device".

Section Faulty.
Context {St : Type} `{!KvStore St}.
Definition faulty_write (m : ST St StorageError ()) : ST (faulty St) StorageError () := λ f,
  match f_left f with
  | O => (Err no_space, f)
  | S n => let '(r, s) := m (f_store f) in (r, mk_faulty s n)
  end.
#[export] Instance faulty_kv : KvStore (faulty St) := {|
  kv_get c k f := kv_get c k (f_store f);
  kv_put c k v := faulty_write (kv_put c k v);
  kv_delete c k := faulty_write (kv_delete c k);
|}.
End Faulty.

Section Crash.
Context {St : Type} `{!KvStore St} {sim : St → spec → Prop} `{!KvRefines St sim}.
Context `{Hashes} `{!Encode HeaderRaw.t} `{!Encode Block.t}
  `{!Decode Account.t} `{!Decode SmartContract.t} `{!Decode Witness.t} `{!Decode AssetIssueContract.t}
  `{!Decode Proposal.t} `{!Decode Exchange.t} `{!Decode Block.t} `{!Decode Transaction.t}
  `{!Decode DelegatedResource.t} `{!Decode MarketOrder.t}.
Implicit Types (w : world) (b : Block.t).

(** The typed world with the writes that are left. *)
Definition faulty_repr (f : faulty St) (t : world * nat) : Prop :=
  repr (sim := sim) (f_store f) t.1 ∧ f_left f = t.2.
Definition try_write (g : world → world) : ST (world * nat) StateError () := λ t,
  match t.2 with O => (Err (StorageFailure no_space), t) | S n => (Ok (), (g t.1, n)) end.

Lemma faulty_write_sim c k v (g : world → world) t :
  c ∈ ALL_CFS → (∀ m, represents m t.1 → represents (<[(c, k) := v]> m) (g t.1)) →
  simulates faulty_repr (WorldState.db_put c k v) (try_write g) t.
Proof.
  intros Hc Hf [s n] [(m & Hs & Hm) E]. cbn in E. subst n. destruct t as [w [|n]]; cbn [fst snd] in *.
  { eexists. split; [done|]. split; [by exists m|done]. }
  unfold WorldState.db_put. cbn. destruct (ref_put c k v s m Hc Hs) as (s' & -> & Hs').
  eexists. split; [done|]. split; [|done]. exists (<[(c, k) := v]> m). auto.
Qed.

Lemma faulty_prop_sim k t :
  simulates faulty_repr (WorldState.get_prop_i64 k) (gets (λ t, get_prop_i64 k t.1)) t.
Proof.
  intros f [Hs E]. destruct (sim_get_prop k t.1 (f_store f) Hs) as (s' & E' & _).
  exists f. split; [|by split]. unfold WorldState.get_prop_i64, WorldState.db_get, mbind, ST_bind in *.
  cbn [kv_get faulty_kv]. destruct (kv_get _ _ (f_store f)); cbn in *; [|done..].
  unfold mret, ST_ret in *. by injection E' as -> _.
Qed.

(** The writes of [put_block], one by one: the head, and before it the block and its index. *)
Definition put_head_steps b : ST (world * nat) StateError () :=
  latest ← gets (λ t, get_prop_i64 LATEST_BLOCK_NUMBER t.1);
  if latest <=? block_number b then
    _ ← try_write (put_prop_i64 LATEST_BLOCK_NUMBER (block_number b));
    match header_raw b with
    | Some raw => try_write (put_prop_i64 props.LATEST_BLOCK_HEADER_TIMESTAMP (HeaderRaw.timestamp raw))
    | None => mret ()
    end
  else mret ().
Definition put_block_steps b : ST (world * nat) StateError () :=
  let n := i64_to_be_bytes (block_number b) in
  _ ← try_write (λ w, w <| w_block ::= insert n b |>);
  _ ← match block_id_of b with
      | Some id => try_write (λ w, w <| w_block_index ::= insert id n |>)
      | None => mret ()
      end;
  put_head_steps b.

Lemma put_block_steps_sim b t :
  codec_ok b → simulates faulty_repr (WorldState.put_block b) (put_block_steps b) t.
Proof.
  intros Hb. unfold WorldState.put_block, put_block_steps, put_head_steps.
  apply sim_bind; [apply faulty_write_sim; [by apply (bool_decide_unpack _)|]; intros m; by apply rep_put_block|intros _].
  apply sim_bind; [destruct (block_id_of b); [|apply sim_ret]; apply faulty_write_sim;
    [by apply (bool_decide_unpack _)|]; intros m; apply rep_put_index|intros _].
  apply sim_bind; [apply faulty_prop_sim|intros latest]. destruct (_ <=? _); [|apply sim_ret].
  assert (∀ k v t, simulates faulty_repr (WorldState.put_prop_i64 k v) (try_write (put_prop_i64 k v)) t) as Hp.
  { intros k v t'. apply faulty_write_sim; [by apply (bool_decide_unpack _)|]. intros m. apply rep_put_prop. }
  apply sim_bind; [apply Hp|intros _]. destruct (header_raw b); [apply Hp|apply sim_ret].
Qed.

(** How far [put_block] got: nothing, the block, the block and its index, the head too, or all
    of it. *)
Definition partly_put b w w' : Prop :=
  w_account w' = w_account w ∧
  ((w_block w' = w_block w ∨ w_block w' = <[i64_to_be_bytes (block_number b) := b]> (w_block w)) ∧
   get_prop_i64 LATEST_BLOCK_NUMBER w' = get_prop_i64 LATEST_BLOCK_NUMBER w ∨
   w_block w' = <[i64_to_be_bytes (block_number b) := b]> (w_block w) ∧
   get_prop_i64 LATEST_BLOCK_NUMBER w ≤ block_number b ∧
   get_prop_i64 LATEST_BLOCK_NUMBER w' = block_number b).

Definition put_head b w : world :=
  if get_prop_i64 LATEST_BLOCK_NUMBER w <=? block_number b then
    let w := put_prop_i64 LATEST_BLOCK_NUMBER (block_number b) w in
    match header_raw b with
    | Some raw => put_prop_i64 props.LATEST_BLOCK_HEADER_TIMESTAMP (HeaderRaw.timestamp raw) w
    | None => w
    end
  else w.

(** The outcome of a step: done, or out of writes. *)
Ltac outcome := split_and?; auto 10; try (right; split; [done|lia]).

Lemma put_head_steps_spec b w n r w' n' :
  is_i64 (block_number b) → put_head_steps b (w, n) = (r, (w', n')) →
  w_account w' = w_account w ∧ w_block w' = w_block w ∧
  (get_prop_i64 LATEST_BLOCK_NUMBER w' = get_prop_i64 LATEST_BLOCK_NUMBER w ∨
   get_prop_i64 LATEST_BLOCK_NUMBER w ≤ block_number b ∧ get_prop_i64 LATEST_BLOCK_NUMBER w' = block_number b) ∧
  (r = Ok () ∧ w' = put_head b w ∨ r = Err (StorageFailure no_space) ∧ (n < 2)%nat).
Proof.
  intros Hi. unfold put_head_steps, put_head, try_write, mbind, ST_bind, gets. cbv zeta. cbn [fst snd].
  pose proof (get_put_prop_eq LATEST_BLOCK_NUMBER (block_number b) w Hi) as Hn.
  destruct (Z.leb_spec (get_prop_i64 LATEST_BLOCK_NUMBER w) (block_number b)) as [Hle|_]; cbn [fst snd].
  2:{ intros [= <- <- <-]. outcome. }
  destruct n as [|n]; cbn [fst snd]; [intros [= <- <- <-]; outcome|].
  destruct (header_raw b) as [raw|]; cbn [fst snd]; [|intros [= <- <- <-]; outcome].
  destruct n as [|n]; cbn [fst snd]; intros [= <- <- <-]; [outcome|].
  rewrite get_put_prop_ne by done. outcome.
Qed.

Lemma put_block_steps_spec b w n r w' n' :
  is_i64 (block_number b) → put_block_steps b (w, n) = (r, (w', n')) →
  partly_put b w w' ∧ (r = Ok () ∧ w' = put_block b w ∨ r = Err (StorageFailure no_space) ∧ (n < 4)%nat).
Proof.
  intros Hi. unfold put_block_steps. cbv zeta. set (k := i64_to_be_bytes (block_number b)).
  destruct n as [|n]; [intros [= <- <- <-]; unfold partly_put; outcome|].
  rewrite (ST_bind_run _ _ (w, S n) () (w <| w_block ::= insert k b |>, n)) by done.
  set (w1 := w <| w_block ::= insert k b |>).
  destruct (block_id_of b) as [id|] eqn:Eid.
  - destruct n as [|n]; [intros [= <- <- <-]; unfold partly_put; outcome|].
    rewrite (ST_bind_run _ _ (w1, S n) () (w1 <| w_block_index ::= insert id k |>, n)) by done.
    intros (Ea & Eb & Eh & Er)%put_head_steps_spec; [|done]. split; [by split; [|destruct Eh as [|[]]; auto]|].
    destruct Er as [[-> ->]|[-> Hlt]]; [left|outcome]. split; [done|].
    unfold put_block. by rewrite Eid.
  - rewrite (ST_bind_run _ _ (w1, n) () (w1, n)) by done.
    intros (Ea & Eb & Eh & Er)%put_head_steps_spec; [|done]. split; [by split; [|destruct Eh as [|[]]; auto]|].
    destruct Er as [[-> ->]|[-> Hlt]]; [left|outcome]. split; [done|].
    unfold put_block. by rewrite Eid.
Qed.

(** The head names a stored block of its own number. *)
Definition head_stored w : Prop :=
  ∃ b, get_now_block w = Some b ∧ block_number b = get_prop_i64 LATEST_BLOCK_NUMBER w.

Lemma partly_put_head b w w' :
  is_i64 (block_number b) → partly_put b w w' → head_stored w → head_stored w'.
Proof.
  intros Hi [_ Hp] (b0 & E0 & Hn). unfold head_stored, get_now_block, get_block_by_num in *.
  pose proof (get_prop_is_i64 LATEST_BLOCK_NUMBER w) as Hh.
  destruct Hp as [[[->| ->] ->]|(-> & _ & ->)]; [by exists b0| |exists b; by rewrite lookup_insert_eq].
  destruct (decide (get_prop_i64 LATEST_BLOCK_NUMBER w = block_number b)) as [E|Hne].
  - exists b. rewrite E, lookup_insert_eq. by split.
  - exists b0. rewrite lookup_insert_ne; [done|]. intros E. by apply i64_to_be_bytes_inj in E.
Qed.

(** C36: a block that is only partly written does not break the chain.  When storing a block
    fails at any of its writes, the error is reported; what is stored then is the old state,
    or the old state with the block added and the head still the old one or already the new
    block; so the head still names a stored block of its own number, blocks at other heights
    are as before, and accounts are untouched.  Enough successful writes give the complete
    [put_block]. *)
Theorem put_block_crash b w (s : St) n :
  codec_ok b → is_i64 (block_number b) → repr (sim := sim) s w →
  ∃ r f' w', WorldState.put_block b (mk_faulty s n) = (r, f') ∧ repr (sim := sim) (f_store f') w' ∧
    (r = Ok () ∧ w' = put_block b w ∨ r = Err (StorageFailure no_space) ∧ (n < 4)%nat) ∧
    (head_stored w → head_stored w') ∧
    get_prop_i64 LATEST_BLOCK_NUMBER w ≤ get_prop_i64 LATEST_BLOCK_NUMBER w' ∧
    (get_prop_i64 LATEST_BLOCK_NUMBER w' ≠ get_prop_i64 LATEST_BLOCK_NUMBER w → get_now_block w' = Some b) ∧
    (∀ m, is_i64 m → m ≠ block_number b → get_block_by_num m w' = get_block_by_num m w) ∧
    w_account w' = w_account w.
Proof.
  intros Hb Hi Hs. destruct (put_block_steps_sim b (w, n) Hb (mk_faulty s n)) as (f' & E & Hr & _); [done|].
  destruct (put_block_steps b (w, n)) as [r [w' n']] eqn:Es. cbn [fst snd] in *.
  apply put_block_steps_spec in Es as [Hp Er]; [|done]. exists r, f', w'.
  split_and!; [done|done|done|by apply (partly_put_head b)| | | |apply Hp].
  - destruct Hp as [_ [[_ ->]|(_ & ? & ->)]]; lia.
  - intros Hne. destruct Hp as [_ [[_ ?]|(Eb & _ & Eh)]]; [done|].
    unfold get_now_block, get_block_by_num. by rewrite Eh, Eb, lookup_insert_eq.
  - intros m Hm Hne. unfold get_block_by_num. destruct Hp as [_ [[[->| ->] _]|(-> & _)]]; [done|..].
    all: rewrite lookup_insert_ne; [done|]; intros E'; by apply i64_to_be_bytes_inj in E'.
Qed.
End Crash.

(** ** Sample *)

Module KvSample.
(** Codecs for the fields the sample uses. *)
#[export] Instance hashes : Hashes := {| sha256 x := take 32 (x ++ replicate 32 0); keccak256 x := take 32 (x ++ replicate 32 0) |}.
#[export] Instance encode_account : Encode Account.t := λ x,
  Account.address x ++ i64_to_be_bytes (Account.balance x) ++ i64_to_be_bytes (Account.create_time x).
#[export] Instance decode_account : Decode Account.t := λ bs,
  if bool_decide (length bs = 37%nat) then
    inr (Account.default <| Account.address := take 21 bs |>
      <| Account.balance := i64_from_be_bytes (take 8 (drop 21 bs)) |>
      <| Account.create_time := i64_from_be_bytes (drop 29 bs) |>)
  else inl "invalid wire type"%string.
#[export] Instance encode_witness : Encode Witness.t := λ x, Witness.address x.
#[export] Instance decode_witness : Decode Witness.t := λ bs,
  inr (Witness.default <| Witness.address := bs |> <| Witness.is_jobs := true |>).
#[export] Instance encode_header : Encode HeaderRaw.t := λ h, i64_to_be_bytes (HeaderRaw.number h).
#[export] Instance encode_raw : Encode TxRaw.t := λ r, TxRaw.data r.
Definition block (n : Z) : Block.t := Block.mk [] (Some (BlockHeader.mk (Some (HeaderRaw.default <| HeaderRaw.number := n |>)) [])).
#[export] Instance encode_block : Encode Block.t := λ b, i64_to_be_bytes (block_number b).
#[export] Instance decode_block : Decode Block.t := λ bs, inr (block (i64_from_be_bytes bs)).
#[export] Instance encode_tx : Encode Transaction.t := λ _, [].
#[export] Instance decode_tx : Decode Transaction.t := λ _, inr Transaction.default.
#[export] Instance encode_contract : Encode SmartContract.t := λ _, [].
#[export] Instance decode_contract : Decode SmartContract.t := λ _, inr SmartContract.default.
#[export] Instance encode_asset : Encode AssetIssueContract.t := λ _, [].
#[export] Instance decode_asset : Decode AssetIssueContract.t := λ _, inr AssetIssueContract.default.
#[export] Instance decode_proposal : Decode Proposal.t := λ _, inr Proposal.default.
#[export] Instance decode_exchange : Decode Exchange.t := λ _, inr Exchange.default.
#[export] Instance decode_delegation : Decode DelegatedResource.t := λ _, inr DelegatedResource.default.
#[export] Instance decode_order : Decode MarketOrder.t := λ _, inr MarketOrder.default.

Definition addr (b : Z) : Address := 65 :: replicate 20 b.
Definition config : GenesisConfig :=
  mk_genesis_config 1000 [mk_genesis_account (addr 1) "" 99] [mk_genesis_witness (addr 2) "" 0].
(** Genesis, a first block, and a look at the head and at the witness's account. *)
Definition start_chain : client (option Block.t * option Account.t) :=
  Call (ApplyGenesis config) (λ _,
  Call (PutBlock (block 1)) (λ _,
  Call GetNowBlock (λ head,
  Call (GetAccount (addr 2)) (λ acc, Return (head, acc))))).
End KvSample.
Import KvSample StorageSample.

Lemma empty_store_represents : repr (sim := rocks_sim snd) (open_names [], ∅) empty_world.
Proof.
  exists ∅. split; [|apply represents_empty]. split; [done|]. intros c Hc. cbn.
  by apply bool_decide_eq_true_2.
Qed.

Lemma state_on_bytes_witness :
  ∃ d', run_bytes start_chain ((open_names [], ∅) : db)
    = (Ok (Some (block 1), Some (genesis_witness_account config (mk_genesis_witness (addr 2) "" 0))), d').
Proof.
  destruct (state_on_bytes (sim := rocks_sim snd) start_chain (open_names [], ∅) empty_world) as (d' & E & _).
  - apply empty_store_represents.
  - unfold start_chain. cbn [client_ok writes_ok on_world modify]. split.
    { split; repeat constructor; by vm_compute. }
    split; [by vm_compute|]. by repeat split.
  - exists d'. exact E.
Defined.

(** The disk fills up between the block and its index. *)
Lemma put_block_crash_witness :
  ∃ r f' w', WorldState.put_block (block 0) (mk_faulty (memory_new : MemoryStore) 1) = (r, f') ∧
    repr (sim := memory_sim) (f_store f') w' ∧ r = Err (StorageFailure no_space) ∧ w_account w' = ∅.
Proof.
  destruct (put_block_crash (sim := memory_sim) (block 0) empty_world (memory_new : MemoryStore) 1)
    as (r & f' & w' & E & Hr & Ho & _ & _ & _ & _ & Ha).
  - by vm_compute.
  - apply (bool_decide_unpack _). by vm_compute.
  - exists ∅. split; [|apply represents_empty]. intros c k. unfold memory_new. by rewrite !lookup_empty.
  - exists r, f', w'. split_and!; [done|done| |done].
    assert (r = (WorldState.put_block (block 0) (mk_faulty (memory_new : MemoryStore) 1)).1) as -> by by rewrite E.
    by vm_compute.
Defined.
