(* ===== verification/Text.v ===== *)
(** * Text forms of addresses and JSON values

    The textual half of [crates/types/src/lib.rs] (hexadecimal and Base58Check
    addresses) and the two helpers of [crates/rpc/src/http/mod.rs] on top of it,
    with the interfaces of the three crates this code only calls: [hex], [bs58]
    and [serde_json].  Their functions are the fields of [TextCodec] and [Json];
    what their documentation promises and the node relies on is [TextLaws] and
    [JsonLaws]. *)

From Stdlib Require Import Ascii.
From stdpp Require Import gmap strings pretty numbers fin_maps prelude.
From S2P Require Import Prelude Types.
Open Scope Z_scope.

(** ** The [hex] and [bs58] crates *)

(** [hex::decode], [bs58::encode(..).with_check()] and
    [bs58::decode(..).with_check(None)]; a decoder answers the bytes or the text
    of its error.  [hex::encode] is [hex]. *)
Class TextCodec := {
  hex_decode : string → string + bytes;
  b58check_encode : bytes → string;
  b58check_decode : string → string + bytes
}.

(** Documented behaviour: both decoders undo their encoder and produce bytes,
    hexadecimal has two digits per byte, and the Base58Check form of 21 bytes
    has at most 35 characters. *)
Class TextLaws `{TextCodec} : Prop := {
  hex_decode_encode bs : Forall is_byte bs → hex_decode (hex bs) = inr bs;
  hex_decode_length s bs : hex_decode s = inr bs → String.length s = (2 * length bs)%nat;
  hex_decode_bytes s bs : hex_decode s = inr bs → Forall is_byte bs;
  b58check_decode_encode bs : Forall is_byte bs → b58check_decode (b58check_encode bs) = inr bs;
  b58check_decode_bytes s bs : b58check_decode s = inr bs → Forall is_byte bs;
  b58check_length bs : length bs = ADDRESS_LEN → (String.length (b58check_encode bs) ≤ 35)%nat
}.

(** ** The [serde_json] crate

    [Value] with what [json!] builds ([v_obj] is an object literal, [v_arr] an
    array), the accessors [get], [as_str], [as_i64], [as_bool] and the
    assignment [v[k] = x] on an object. *)

Class Json := {
  Value : Type;
  v_null : Value;
  v_bool : bool → Value;
  v_num : Z → Value;
  v_str : string → Value;
  v_arr : list Value → Value;
  v_obj : list (string * Value) → Value;
  jset : Value → string → Value → Value;
  jget : Value → string → option Value;
  as_str : Value → option string;
  as_i64 : Value → option Z;
  as_bool : Value → option bool
}.

(** The value of a key in an object literal. *)
Fixpoint field {A} (fs : list (string * A)) (k : string) : option A :=
  match fs with
  | [] => None
  | (k', v) :: fs => if bool_decide (k = k') then Some v else field fs k
  end.

(** The fields after an assignment: in place when the key is there, at the end
    when it is new. *)
Fixpoint upsert {A} (k : string) (x : A) (fs : list (string * A)) : list (string * A) :=
  match fs with
  | [] => [(k, x)]
  | (k', v) :: fs => if bool_decide (k = k') then (k, x) :: fs else (k', v) :: upsert k x fs
  end.

(** Documented behaviour: a literal with distinct keys has the fields it lists,
    an assignment changes one of them, an accessor reads what the constructor
    put there, numbers are read as [i64] only when they fit. *)
Class JsonLaws `{Json} : Prop := {
  jget_obj fs k : NoDup fs.*1 → jget (v_obj fs) k = field fs k;
  jset_obj fs k x : jset (v_obj fs) k x = v_obj (upsert k x fs);
  as_bool_bool b : as_bool (v_bool b) = Some b;
  as_str_str s : as_str (v_str s) = Some s;
  as_i64_num z : is_i64 z → as_i64 (v_num z) = Some z;
  as_i64_range v z : as_i64 v = Some z → is_i64 z;
  v_bool_inj a b : v_bool a = v_bool b → a = b;
  v_num_inj a b : v_num a = v_num b → a = b;
  v_str_inj a b : v_str a = v_str b → a = b
}.

(** [json!(o)] for an [Option<String>]. *)
Definition v_opt_str `{Json} (o : option string) : Value :=
  match o with Some s => v_str s | None => v_null end.

(** [req.get(k).and_then(Value::as_str)] and its two siblings. *)
Definition get_str `{Json} (req : Value) (k : string) : option string := jget req k ≫= as_str.
Definition get_i64 `{Json} (req : Value) (k : string) : option Z := jget req k ≫= as_i64.
Definition get_bool `{Json} (req : Value) (k : string) : option bool := jget req k ≫= as_bool.

(** ** [str::trim_start_matches("0x")]: every leading occurrence goes. *)

Fixpoint trim_0x (s : string) : string :=
  match s with
  | String a (String b r) =>
      if bool_decide (a = "0"%char) && bool_decide (b = "x"%char) then trim_0x r else s
  | _ => s
  end.

Lemma trim_0x_length s : (String.length (trim_0x s) ≤ String.length s)%nat.
Proof.
  revert s. fix IH 1. intros [|a [|b r]]; simpl; [done|done|].
  destruct (_ && _); simpl; [|done]. etrans; [apply IH|lia].
Qed.

(** ** Addresses as text *)

(** [TypeError] with the two variants that carry a decoder's message. *)
Inductive TextError :=
| Malformed (e : TypeError)
| Hex (msg : string)
| Base58 (msg : string).

Section AddressText.
Context `{TextCodec}.

Definition address_of (bs : bytes) : res TextError Address :=
  match try_into ADDRESS_LEN bs with
  | None => Err (Malformed (InvalidLength ADDRESS_LEN (length bs)))
  | Some arr =>
      match Addr.from_bytes arr with
      | Ok a => Ok a
      | Err e => Err (Malformed e)
      | Panic => Panic
      end
  end.

Definition from_hex (s : string) : res TextError Address :=
  match hex_decode (trim_0x s) with
  | inl e => Err (Hex e)
  | inr bs => address_of bs
  end.

Definition to_base58check (a : Address) : string := b58check_encode a.

Definition from_base58check (s : string) : res TextError Address :=
  match b58check_decode s with
  | inl e => Err (Base58 e)
  | inr bs => address_of bs
  end.

(** [Result::ok]. *)
Definition res_ok {E A} (r : res E A) : option A :=
  match r with Ok a => Some a | _ => None end.

(** *** rpc/src/http/mod.rs *)

Definition parse_req_address (addr_str : string) : option Address :=
  match res_ok (from_hex addr_str) with
  | Some a => Some a
  | None => res_ok (from_base58check addr_str)
  end.

Definition address_text (visible : bool) (a : Address) : string :=
  if visible then to_base58check a else Addr.to_hex a.

Definition render_address (addr : bytes) (visible : bool) : option string :=
  address_text visible <$> parse_address_opt addr.
End AddressText.

(** ** Lemmas *)

Lemma field_upsert {A} (fs : list (string * A)) k x k' :
  field (upsert k x fs) k' = if bool_decide (k' = k) then Some x else field fs k'.
Proof.
  induction fs as [|[k1 v] fs IH]; simpl; [done|].
  repeat (case_bool_decide; simplify_eq/=; try done).
Qed.

Lemma upsert_keys {A} (fs : list (string * A)) k x k' :
  k' ∈ (upsert k x fs).*1 ↔ k' = k ∨ k' ∈ fs.*1.
Proof.
  induction fs as [|[k1 v] fs IH]; simpl; [set_solver|].
  case_bool_decide; simplify_eq/=; set_solver.
Qed.

Lemma NoDup_upsert {A} (fs : list (string * A)) k x :
  NoDup fs.*1 → NoDup (upsert k x fs).*1.
Proof.
  induction fs as [|[k1 v] fs IH]; simpl; [intros; apply NoDup_singleton|].
  rewrite NoDup_cons. intros [Hn Hd]. case_bool_decide; simplify_eq/=; apply NoDup_cons.
  - done.
  - rewrite upsert_keys. naive_solver.
Qed.

Lemma address_of_Ok bs a : address_of bs = Ok a ↔ a = bs ∧ is_address bs = true.
Proof.
  rewrite <-parse_address_opt_Some. unfold address_of, parse_address_opt.
  destruct (try_into _ _) as [arr|]; [|done].
  destruct (Addr.from_bytes arr); split; congruence.
Qed.

Lemma is_address_spec a :
  is_address a = true ↔ length a = ADDRESS_LEN ∧ ∃ body, a = Addr.from_body body.
Proof.
  unfold is_address. rewrite andb_true_iff, !bool_decide_eq_true. split.
  - intros [Hl Hh]. split; [done|]. destruct a as [|x body]; [done|]. exists body.
    simpl in Hh. by subst x.
  - intros [Hl [body ->]]. done.
Qed.

Lemma hex_length bs : String.length (hex bs) = (2 * length bs)%nat.
Proof. induction bs as [|b bs IH]; simpl; [done|]. rewrite IH. lia. Qed.

(** No hexadecimal digit is an [x], so an encoding is never trimmed. *)
Lemma hex_digit_not_x n : 0 ≤ n < 16 → hex_digit n ≠ "x"%char.
Proof.
  intros Hn E. apply (f_equal ascii_to_byte) in E. unfold hex_digit, ascii_to_byte, byte_to_ascii in E.
  rewrite Ascii.N_ascii_embedding in E by (destruct (Z.ltb_spec n 10); lia).
  change (Ascii.N_of_ascii "x") with 120%N in E. destruct (Z.ltb_spec n 10); lia.
Qed.

Lemma trim_0x_hex bs : Forall is_byte bs → trim_0x (hex bs) = hex bs.
Proof.
  intros [|b r Hb Hr]; [done|]. cbn [hex trim_0x].
  rewrite (bool_decide_eq_false_2 (hex_digit (b mod 16) = _)).
  - by rewrite andb_false_r.
  - apply hex_digit_not_x, Z.mod_pos_bound. lia.
Qed.

Section TextLemmas.
Context `{TextLaws}.

Lemma from_hex_to_hex a :
  is_address a = true → Forall is_byte a → from_hex (Addr.to_hex a) = Ok a.
Proof.
  intros Ha Hb. unfold from_hex, Addr.to_hex. rewrite trim_0x_hex, hex_decode_encode by done.
  by apply address_of_Ok.
Qed.

Lemma from_base58check_to_base58check a :
  is_address a = true → Forall is_byte a → from_base58check (to_base58check a) = Ok a.
Proof.
  intros Ha Hb. unfold from_base58check, to_base58check. rewrite b58check_decode_encode by done.
  by apply address_of_Ok.
Qed.

(** What either parser accepts is 21 bytes behind the prefix. *)
Lemma parse_req_address_typed s a :
  parse_req_address s = Some a → is_address a = true ∧ Forall is_byte a.
Proof.
  unfold parse_req_address, from_hex, from_base58check. intros Hp.
  destruct (hex_decode (trim_0x s)) as [e|bs] eqn:Eh;
    [|destruct (address_of bs) eqn:Eb]; simpl in Hp; simplify_eq;
    try (apply address_of_Ok in Eb as [-> ?]; split; [done|by eapply hex_decode_bytes]);
    (destruct (b58check_decode s) as [e'|bs'] eqn:E58; [done|];
     destruct (address_of bs') eqn:Eb'; simplify_eq/=;
     apply address_of_Ok in Eb' as [-> ?]; split; [done|by eapply b58check_decode_bytes]).
Qed.

(** A Base58Check address is too short to be the hexadecimal form of one. *)
Lemma from_hex_base58 a b :
  length a = ADDRESS_LEN → from_hex (to_base58check a) ≠ Ok b.
Proof.
  intros Ha. unfold from_hex, to_base58check.
  destruct (hex_decode _) as [e|bs] eqn:E; [done|].
  intros [-> [Hl _]%is_address_spec]%address_of_Ok.
  pose proof (hex_decode_length _ _ E). pose proof (trim_0x_length (b58check_encode a)).
  pose proof (b58check_length a Ha). unfold ADDRESS_LEN in *. lia.
Qed.

(** Both renderings of an address are read back as the address. *)
Lemma parse_address_text a visible :
  is_address a = true → Forall is_byte a → parse_req_address (address_text visible a) = Some a.
Proof.
  intros Ha Hb. unfold parse_req_address, address_text. destruct visible.
  - destruct (from_hex (to_base58check a)) as [b|e|] eqn:E; simpl.
    + apply from_hex_base58 in E; [done|]. by apply is_address_spec in Ha as [].
    + by rewrite from_base58check_to_base58check.
    + by rewrite from_base58check_to_base58check.
  - by rewrite from_hex_to_hex.
Qed.

(** C38: an address in a request is well formed, and every well-formed address can be written.
    A text the API reads as an address, in hexadecimal or Base58Check, denotes 21 bytes that
    start with the network prefix; bytes of any other form have no rendering; and both
    renderings of a well-formed address are read back as that address. *)
Theorem address_text_typed (visible : bool) :
  (∀ s a, parse_req_address s = Some a → is_address a = true ∧ Forall is_byte a ∧
     is_Some (render_address a visible)) ∧
  (∀ bs, Forall is_byte bs →
     match render_address bs visible with
     | Some t => is_address bs = true ∧ parse_req_address t = Some bs
     | None => is_address bs = false
     end).
Proof.
  split.
  - intros s a Hp. destruct (parse_req_address_typed s a Hp) as [Ha Hb]. split_and!; [done|done|].
    unfold render_address. rewrite (proj2 (parse_address_opt_Some a a)); [by eexists|done].
  - intros bs Hb. unfold render_address. destruct (parse_address_opt bs) as [a|] eqn:E; simpl.
    + apply parse_address_opt_Some in E as [-> Ha]. split; [done|by apply parse_address_text].
    + destruct (is_address bs) eqn:Ha; [|done].
      by rewrite (proj2 (parse_address_opt_Some bs bs)) in E.
Qed.
End TextLemmas.

(** ** Instances that satisfy the laws

    Hexadecimal as the crate documents it; a Base58 stand-in that writes one
    character per byte after a leading [T]; JSON values as the tree they are. *)

Module TextSample.
Definition hex_value (a : ascii) : option Z :=
  let b := ascii_to_byte a in
  if in_range 48 57 b then Some (b - 48)
  else if in_range 97 102 b then Some (b - 87)
  else if in_range 65 70 b then Some (b - 55)
  else None.

Fixpoint unhex (s : string) : string + bytes :=
  match s with
  | EmptyString => inr []
  | String a (String b r) =>
      match hex_value a, hex_value b, unhex r with
      | Some x, Some y, inr bs => inr (16 * x + y :: bs)
      | _, _, _ => inl "Invalid character"
      end
  | String _ EmptyString => inl "Odd number of digits"
  end.

Definition unT (s : string) : string + bytes :=
  match s with
  | String "T" r => inr (bytes_of_string r)
  | _ => inl "provided string contained invalid character"
  end.

#[export] Instance codec : TextCodec := {|
  hex_decode := unhex;
  b58check_encode := λ bs, String "T" (string_of_bytes bs);
  b58check_decode := unT
|}.

Lemma hex_value_digit n : 0 ≤ n < 16 → hex_value (hex_digit n) = Some n.
Proof.
  intros Hn. assert (∀ m, (m < 16)%nat → hex_value (hex_digit (Z.of_nat m)) = Some (Z.of_nat m)) as Hm.
  { intros m Hm. do 16 (destruct m as [|m]; [done|]). lia. }
  rewrite <-(Z2Nat.id n) by lia. apply Hm. lia.
Qed.

Lemma hex_value_range a n : hex_value a = Some n → 0 ≤ n < 16.
Proof.
  unfold hex_value, in_range. intros Hv.
  repeat (destruct (_ && _) eqn:E in Hv; [bool_prop; simplify_eq; lia|clear E]). congruence.
Qed.

Lemma unhex_hex bs : Forall is_byte bs → unhex (hex bs) = inr bs.
Proof.
  induction 1 as [|b bs Hb _ IH]; [done|]. simpl. unfold is_byte in Hb.
  assert (0 ≤ b / 16 < 16) by (split; [apply Z.div_pos|apply Z.div_lt_upper_bound]; lia).
  assert (0 ≤ b mod 16 < 16) by (apply Z.mod_pos_bound; lia).
  rewrite !hex_value_digit, IH by done. by rewrite <-Z_div_mod_eq_full.
Qed.

Lemma unhex_spec s bs :
  unhex s = inr bs → String.length s = (2 * length bs)%nat ∧ Forall is_byte bs.
Proof.
  revert s bs. fix IH 1. intros [|a [|b r]] bs; simpl; [by intros [= <-]|done|].
  destruct (hex_value a) as [x|] eqn:Ea; [|done]. destruct (hex_value b) as [y|] eqn:Eb; [|done].
  destruct (unhex r) as [|cs] eqn:Er; [done|]. intros [= <-].
  apply IH in Er as [-> Hcs]. apply hex_value_range in Ea, Eb. simpl.
  split; [lia|]. constructor; [|done]. unfold is_byte. lia.
Qed.

Lemma bytes_of_string_bytes s : Forall is_byte (bytes_of_string s).
Proof.
  induction s as [|a s IH]; simpl; constructor; [|done].
  unfold is_byte, ascii_to_byte. pose proof (Ascii.N_ascii_bounded a). lia.
Qed.

Lemma bytes_of_string_of_bytes bs : Forall is_byte bs → bytes_of_string (string_of_bytes bs) = bs.
Proof.
  induction 1 as [|b bs Hb _ IH]; [done|]. simpl. rewrite IH. f_equal.
  unfold ascii_to_byte, byte_to_ascii, is_byte in *. rewrite Ascii.N_ascii_embedding by lia. lia.
Qed.

#[export] Instance laws : TextLaws.
Proof.
  split.
  - apply unhex_hex.
  - by intros s bs [? _]%unhex_spec.
  - by intros s bs [_ ?]%unhex_spec.
  - intros bs Hb. simpl. by rewrite bytes_of_string_of_bytes.
  - intros [|a s] bs; [done|]. simpl. intros Hd.
    assert (bs = bytes_of_string s) as ->; [|apply bytes_of_string_bytes].
    destruct a as [[] [] [] [] [] [] [] []]; by simplify_eq/=.
  - intros bs Hl. simpl. assert (String.length (string_of_bytes bs) = length bs) as ->;
      [|unfold ADDRESS_LEN in *; lia]. clear Hl. by induction bs; simpl; f_equal.
Qed.

(** JSON values. *)
#[warnings="-register-all"]
Inductive jvalue :=
| Null
| Bool (b : bool)
| Number (z : Z)
| Str (s : string)
| Array (vs : list jvalue)
| Object (fs : list (string * jvalue)).

#[export] Instance json : Json := {|
  Value := jvalue;
  v_null := Null; v_bool := Bool; v_num := Number; v_str := Str; v_arr := Array; v_obj := Object;
  jset := λ v k x, match v with Object fs => Object (upsert k x fs) | _ => v end;
  jget := λ v k, match v with Object fs => field fs k | _ => None end;
  as_str := λ v, match v with Str s => Some s | _ => None end;
  as_i64 := λ v, match v with Number z => checked_i64 z | _ => None end;
  as_bool := λ v, match v with Bool b => Some b | _ => None end
|}.

#[export] Instance json_laws : JsonLaws.
Proof.
  split.
  1-4: done.
  - intros z ?. by apply checked_i64_Some.
  - intros [| |x| | |] z Hz; try done. by apply checked_i64_Some in Hz as [-> ?].
  - by intros a b [= ->].
  - by intros a b [= ->].
  - by intros a b [= ->].
Qed.

Definition address : Address := Addr.from_body (replicate 20 17).
End TextSample.
Import TextSample.

Lemma address_text_typed_witness :
  parse_req_address (String "0" (String "x" (hex address))) = Some address ∧
  is_address address = true ∧ parse_req_address (b58check_encode address) = Some address ∧
  render_address [65; 1] true = None.
Proof.
  destruct (address_text_typed true) as [Hp Hr].
  assert (parse_req_address (String "0" (String "x" (hex address))) = Some address) as E by by vm_compute.
  destruct (Hp _ _ E) as (Ha & Hb & _). specialize (Hr _ Hb). split_and!; [done|done| |by vm_compute].
  destruct (render_address address true) as [t|] eqn:Et; [|by rewrite Ha in Hr].
  destruct Hr as [_ Hr]. replace (b58check_encode address) with t; [done|].
  vm_compute in Et. injection Et as <-. by vm_compute.
Defined.
