(* ===== verification/Rpc.v ===== *)
(** * The HTTP API: request handlers (crates/rpc/src/http)

    The handlers are functions from the world and a JSON request to a JSON reply, one Module
    per source file.  A handler that computes with unchecked [i64] arithmetic answers a
    [reply], whose [Panic] is an overflow.  A read of the typed column families cannot fail,
    so the [state error] replies have no counterpart. *)

From stdpp Require Import gmap strings pretty numbers fin_maps prelude sorting.
From S2P Require Import Prelude Types Text Proto State Chain Consensus OrderBook.
Open Scope Z_scope.

Abbreviation reply := (res () Value).

(** [Iterator::filter_map] followed by [collect]. *)
Definition filter_map {A B} (f : A → option B) (l : list A) : list B := omap f l.
(** [Option::or_else]. *)
Definition or_else {A} (a b : option A) : option A := match a with Some x => Some x | None => b end.
(** [a..=b]. *)
Definition range_incl (a b : Z) : list Z := seqZ a (b - a + 1).
Definition lossy (bs : bytes) : string := string_of_bytes (from_utf8_lossy bs).

(** ** http/mod.rs *)

Section Common.
Context `{Json}.

Definition error (msg : string) : Value := v_obj [("Error", v_str msg)].
Definition empty_obj : Value := v_obj [].
(** [req.get("visible").and_then(Value::as_bool).unwrap_or(false)] *)
Definition visible_of (req : Value) : bool := default false (get_bool req "visible").

Context `{Hashes} `{!Encode HeaderRaw.t}.

Definition block_to_json (block : Block.t) : Value :=
  match header_raw block with
  | None => empty_obj
  | Some raw =>
      let header := v_obj [
        ("number", v_num (HeaderRaw.number raw));
        ("timestamp", v_num (HeaderRaw.timestamp raw));
        ("txTrieRoot", v_str (hex (HeaderRaw.tx_trie_root raw)));
        ("parentHash", v_str (hex (HeaderRaw.parent_hash raw)));
        ("witness_address", v_str (hex (HeaderRaw.witness_address raw)));
        ("version", v_num (HeaderRaw.version raw))] in
      let block_id := default "" (hex <$> block_id_of block) in
      v_obj [
        ("blockID", v_str block_id);
        ("block_header", v_obj [("raw_data", header)]);
        ("transactions_count", v_num (Z.of_nat (length (Block.transactions block))))]
  end.
End Common.

(** ** http/accounts_info.rs *)

Module accounts_info.
Section Handlers.
Context `{TextCodec} `{Json}.
Implicit Types (w : world) (req : Value).

(** [req.get("address").and_then(Value::as_str).and_then(parse_req_address)] *)
Definition req_address req (k : string) : option Address := get_str req k ≫= parse_req_address.

Definition account_json (account : Account.t) (visible : bool) : Value :=
  let out := v_obj [
    ("balance", v_num (Account.balance account));
    ("create_time", v_num (Account.create_time account));
    ("type", v_num (Account.type account))] in
  let out := match render_address (Account.address account) visible with
             | Some a => jset out "address" (v_str a)
             | None => out
             end in
  if bool_decide (Account.account_name account = []) then out
  else jset out "account_name" (v_str (hex (Account.account_name account))).

Definition get_account w req : Value :=
  let visible := visible_of req in
  match get_str req "address" with
  | None => error "invalid address"
  | Some addr_str =>
  match parse_req_address addr_str with
  | None => error "invalid address"
  | Some addr =>
  match State.get_account addr w with
  | Some account => account_json account visible
  | None => empty_obj
  end
  end
  end.

(** The loop over [frozen_v2]: the sums for bandwidth and energy. *)
Fixpoint frozen_sums (fs : list FreezeV2.t) (frozen_bandwidth frozen_energy : Z) : res () (Z * Z) :=
  match fs with
  | [] => Ok (frozen_bandwidth, frozen_energy)
  | f :: fs =>
      if FreezeV2.type f =? 1 then
        e ← add_i64 frozen_energy (FreezeV2.amount f); frozen_sums fs frozen_bandwidth e
      else
        b ← add_i64 frozen_bandwidth (FreezeV2.amount f); frozen_sums fs b frozen_energy
  end.

Definition get_account_resource w req : reply :=
  match get_str req "address" with
  | None => Ok (error "invalid address")
  | Some addr_str =>
  match parse_req_address addr_str with
  | None => Ok (error "invalid address")
  | Some addr =>
  match State.get_account addr w with
  | None => Ok empty_obj
  | Some account =>
      p ← frozen_sums (Account.frozen_v2 account) 0 0;
      total ← add_i64 p.1 p.2;
      Ok (v_obj [
        ("tronPowerLimit", v_num (div_i64 total 1000000));
        ("netLimit", v_num p.1);
        ("EnergyLimit", v_num p.2)])
  end
  end
  end.

Definition get_reward w req : Value :=
  let allowance := default 0
    (Account.allowance <$> (req_address req "address" ≫= λ a, State.get_account a w)) in
  v_obj [("reward", v_num allowance)].

Definition get_brokerage w req : Value :=
  let b := default DEFAULT_BROKERAGE ((λ a, State.get_brokerage a w) <$> req_address req "address") in
  v_obj [("brokerage", v_num b)].

(** [req.get("owner_address").or_else(|| req.get("address"))], as a string and
    parsed; a present but ill-typed first key is not replaced by the second. *)
Definition owner_address req : option Address :=
  (or_else (jget req "owner_address") (jget req "address") ≫= as_str) ≫= parse_req_address.

Definition MAX_UNFREEZE : Z := 32.
Definition get_available_unfreeze_count w req : Value :=
  let used := default 0%nat
    ((λ acc, length (Account.unfrozen_v2 acc)) <$> (owner_address req ≫= λ a, State.get_account a w)) in
  v_obj [("count", v_num (Z.max 0 (MAX_UNFREEZE - Z.of_nat used)))].

Definition get_delegated_resource_v2 (_ : Value) : Value := v_obj [("delegatedResource", v_arr [])].

(** [match o { Some(acc) => f(acc), None => 0 }] for a sum that may overflow. *)
Definition map_or_zero {A} (f : A → res () Z) (o : option A) : res () Z :=
  match o with Some a => f a | None => Ok 0 end.

Definition get_account_net w req : reply :=
  net_staked ← map_or_zero (λ acc, sum_i64
      (FreezeV2.amount <$> filter (λ f, FreezeV2.type f = 0) (Account.frozen_v2 acc)))
    (req_address req "address" ≫= λ a, State.get_account a w);
  Ok (v_obj [("freeNetLimit", v_num 600); ("NetLimit", v_num net_staked); ("NetUsed", v_num 0)]).
End Handlers.
End accounts_info.

(** ** http/accounts.rs *)

Module accounts.
Section Handlers.
Context `{TextCodec} `{Json}.
Implicit Types (w : world) (req : Value).

(** [as i32]. *)
Definition wrap_i32 (z : Z) : Z := (z + 2 ^ 31) mod 2 ^ 32 - 2 ^ 31.

Definition owner_address req : option Address := accounts_info.owner_address req.

Definition get_can_withdraw_unfreeze_amount w req : reply :=
  let ts := default 0 (get_i64 req "timestamp") in
  amount ← accounts_info.map_or_zero (λ acc, sum_i64
      (UnFreezeV2.unfreeze_amount <$>
         filter (λ u, UnFreezeV2.unfreeze_expire_time u ≤ ts) (Account.unfrozen_v2 acc)))
    (owner_address req ≫= λ a, State.get_account a w);
  Ok (v_obj [("amount", v_num amount)]).

Definition get_can_delegated_max_size w req : reply :=
  let resource := wrap_i32 (default 0 (get_i64 req "type")) in
  max_size ← accounts_info.map_or_zero (λ acc, sum_i64
      (FreezeV2.amount <$> filter (λ f, FreezeV2.type f = resource) (Account.frozen_v2 acc)))
    (owner_address req ≫= λ a, State.get_account a w);
  Ok (v_obj [("max_size", v_num max_size)]).

Definition get_delegated_resource_account_index_v2 (_ : world) req : Value :=
  let visible := visible_of req in
  let account := default ""
    (address_text visible <$> (get_str req "value" ≫= parse_req_address)) in
  v_obj [("account", v_str account); ("fromAccounts", v_arr []); ("toAccounts", v_arr []);
         ("timestamp", v_num 0)].
End Handlers.
End accounts.

(** ** http/assets.rs *)

Module assets.
Section Handlers.
Context `{TextCodec} `{Json}.
Implicit Types (w : world) (req : Value) (a : AssetIssueContract.t).

Definition asset_to_json (visible : bool) a : Value :=
  v_obj [
    ("id", v_str (AssetIssueContract.id a));
    ("owner_address", v_opt_str (render_address (AssetIssueContract.owner_address a) visible));
    ("name", v_str (lossy (AssetIssueContract.name a)));
    ("abbr", v_str (lossy (AssetIssueContract.abbr a)));
    ("total_supply", v_num (AssetIssueContract.total_supply a));
    ("trx_num", v_num (AssetIssueContract.trx_num a));
    ("num", v_num (AssetIssueContract.num a));
    ("precision", v_num (AssetIssueContract.precision a));
    ("start_time", v_num (AssetIssueContract.start_time a));
    ("end_time", v_num (AssetIssueContract.end_time a));
    ("description", v_str (lossy (AssetIssueContract.description a)));
    ("url", v_str (lossy (AssetIssueContract.url a)))].

Definition all_assets w : list AssetIssueContract.t :=
  let latest := get_token_id_num w in
  filter_map (λ id, get_asset_issue id w) (range_incl (TOKEN_ID_BASE + 1) latest).

Definition get_asset_issue_by_id w req : Value :=
  let visible := visible_of req in
  match get_str req "value" ≫= (λ s, parse_i64 (bytes_of_string s)) with
  | None => error "invalid asset id"
  | Some id =>
      match get_asset_issue id w with
      | Some a => asset_to_json visible a
      | None => empty_obj
      end
  end.

Definition named (name : string) a : bool :=
  bool_decide (AssetIssueContract.name a = bytes_of_string name).

Definition get_asset_issue_by_name w req : Value :=
  let visible := visible_of req in
  match get_str req "value" with
  | None => error "invalid asset name"
  | Some name =>
      match List.find (named name) (all_assets w) with
      | Some a => asset_to_json visible a
      | None => empty_obj
      end
  end.

Definition get_asset_issue_list_by_name w req : Value :=
  let visible := visible_of req in
  let name := default "" (get_str req "value") in
  v_obj [("assetIssue", v_arr (asset_to_json visible <$> List.filter (named name) (all_assets w)))].

Definition get_asset_issue_list w : Value :=
  v_obj [("assetIssue", v_arr (asset_to_json false <$> all_assets w))].

(** [while id <= end { ..; id += 1; }]; [fuel] bounds the rounds. *)
Fixpoint collect_assets (fuel : nat) w (id end_ : Z) : res () (list Value) :=
  match fuel with
  | O => Ok []
  | S fuel =>
      if id <=? end_ then
        let here := match get_asset_issue id w with Some a => [asset_to_json false a] | None => [] end in
        next ← add_i64 id 1;
        rest ← collect_assets fuel w next end_;
        Ok (here ++ rest)
      else Ok []
  end.

Definition get_paginated_asset_issue_list w req : reply :=
  let offset := Z.max (default 0 (get_i64 req "offset")) 0 in
  let limit := Z.min (Z.max (default 0 (get_i64 req "limit")) 0) 100 in
  let base := TOKEN_ID_BASE in
  let latest := get_token_id_num w in
  start ← add_i64 (base + 1) offset;
  past ← add_i64 base offset;
  last ← add_i64 past limit;
  let end_ := Z.min last latest in
  assets ← collect_assets (Z.to_nat (end_ - start + 1)) w start end_;
  Ok (v_obj [("assetIssue", v_arr assets)]).
End Handlers.
End assets.

(** ** http/blocks.rs *)

Module blocks.
Section Handlers.
Context `{TextCodec} `{Json} `{Hashes} `{!Encode HeaderRaw.t}.
Implicit Types (w : world) (req : Value).

Definition block_or_empty (o : option Block.t) : Value :=
  match o with Some b => block_to_json b | None => empty_obj end.

Definition get_now_block w : Value := block_or_empty (Chain.get_now_block w).

Definition get_block_by_num w req : Value :=
  match get_i64 req "num" with
  | None => error "invalid num"
  | Some num => block_or_empty (Chain.get_block_by_num num w)
  end.

Definition blocks_of w (nums : list Z) : list Value :=
  filter_map (λ num, block_to_json <$> Chain.get_block_by_num num w) nums.

Definition get_block_by_latest_num w req : reply :=
  let n := Z.min (Z.max (default 0 (get_i64 req "num")) 0) 100 in
  let head := get_prop_i64 LATEST_BLOCK_NUMBER w in
  d ← sub_i64 head n;
  d ← add_i64 d 1;
  let start := Z.max d 0 in
  Ok (v_obj [("block", v_arr (blocks_of w (range_incl start head)))]).

Definition get_block_by_id w req : Value :=
  match get_str req "value" with
  | None => error "invalid block id"
  | Some id_hex =>
  match hex_decode (trim_0x id_hex) with
  | inl _ => error "invalid block id"
  | inr id => block_or_empty (Chain.get_block_by_id id w)
  end
  end.

Definition get_transaction_count_by_block_num w req : Value :=
  let num := default (-1) (get_i64 req "num") in
  v_obj [("count", v_num (match Chain.get_block_by_num num w with
                          | Some b => Z.of_nat (length (Block.transactions b))
                          | None => 0
                          end))].

(** [end - start] is computed only when [end > start]. *)
Definition get_block_by_limit_next w req : reply :=
  let start := default 0 (get_i64 req "startNum") in
  let end_ := default 0 (get_i64 req "endNum") in
  if end_ <=? start then Ok (error "request block num error") else
  span ← sub_i64 end_ start;
  if 100 <? span then Ok (error "request block num error") else
  Ok (v_obj [("block", v_arr (blocks_of w (seqZ start (end_ - start))))]).
End Handlers.
End blocks.

(** ** http/chain.rs *)

Module chain.
Section Handlers.
Context `{TextCodec} `{Json}.
Implicit Types (w : world) (req : Value).

Definition validate_address req : Value :=
  let addr_str := default "" (get_str req "address") in
  let ok := is_Ok (from_hex addr_str) || is_Ok (from_base58check addr_str) in
  v_obj [("result", v_bool ok);
         ("message", v_str (if ok then "Base58check or Hex string format error" else "Invalid address"))].

Definition CHAIN_PARAM_KEYS : list string :=
  ["getEnergyFee"; "getCreateAccountFee"; "getCreateNewAccountFeeInSystemContract";
   "getWitnessPayPerBlock"; "getMaintenanceTimeInterval"].

Definition prop_for_param (key : string) : string :=
  if bool_decide (key = "getEnergyFee") then "ENERGY_FEE"
  else if bool_decide (key = "getCreateAccountFee") then "CREATE_ACCOUNT_FEE"
  else if bool_decide (key = "getCreateNewAccountFeeInSystemContract")
       then "CREATE_NEW_ACCOUNT_FEE_IN_SYSTEM_CONTRACT"
  else if bool_decide (key = "getWitnessPayPerBlock") then "WITNESS_PAY_PER_BLOCK"
  else if bool_decide (key = "getMaintenanceTimeInterval") then "MAINTENANCE_TIME_INTERVAL"
  else key.

Definition get_chain_parameters w : Value :=
  v_obj [("chainParameter", v_arr
    ((λ k, v_obj [("key", v_str k); ("value", v_num (get_prop_i64 (prop_for_param k) w))])
       <$> CHAIN_PARAM_KEYS))].

Definition get_burn_trx w : Value := v_obj [("amount", v_num (get_prop_i64 "BURN_TRX_AMOUNT" w))].
Definition get_next_maintenance_time w : Value :=
  v_obj [("num", v_num (get_prop_i64 "NEXT_MAINTENANCE_TIME" w))].
Definition total_transaction w : Value := v_obj [("num", v_num (get_prop_i64 "TOTAL_TRANSACTION" w))].

(** [format!("0:{price}")] *)
Definition price_history (price : Z) : Value := v_obj [("prices", v_str ("0:" +:+ dec price))].
Definition get_energy_prices w : Value :=
  let p := get_prop_i64 "ENERGY_FEE" w in price_history (if 0 <? p then p else 100).
Definition get_bandwidth_prices w : Value :=
  let p := get_prop_i64 "TRANSACTION_FEE" w in price_history (if 0 <? p then p else 1000).
Definition get_memo_fee w : Value := price_history (get_prop_i64 "MEMO_FEE" w).
End Handlers.
End chain.

(** ** http/contracts.rs *)

Module contracts.
Section Handlers.
Context `{TextCodec} `{Json} `{Hashes} `{!Encode TxRaw.t} `{!Decode Transaction.t}.
Implicit Types (w : world) (req : Value).

Definition get_contract w req : Value :=
  match get_str req "value" with
  | None => error "invalid address"
  | Some addr_str =>
  match parse_req_address addr_str with
  | None => error "invalid address"
  | Some addr =>
      let code := get_code addr w in
      if bool_decide (code = []) then empty_obj
      else v_obj [("contract_address", v_str (Addr.to_hex addr)); ("bytecode", v_str (hex code))]
  end
  end.

Definition get_transaction_by_id w req : Value :=
  match get_str req "value" with
  | None => error "invalid txid"
  | Some id_hex =>
  match hex_decode (trim_0x id_hex) with
  | inl _ => error "invalid txid"
  | inr id =>
  match Chain.get_transaction id w with
  | None => empty_obj
  | Some tx =>
      let raw := Transaction.raw_data tx in
      v_obj [
        ("txID", v_str id_hex);
        ("raw_data", v_obj [
          ("ref_block_num", v_num (default 0 (TxRaw.ref_block_num <$> raw)));
          ("timestamp", v_num (default 0 (TxRaw.timestamp <$> raw)));
          ("contract_count", v_num (default 0 ((λ r, Z.of_nat (length (TxRaw.contract r))) <$> raw)))]);
        ("signature_count", v_num (Z.of_nat (length (Transaction.signature tx))))]
  end
  end
  end.

Definition refused (msg : string) : Value := v_obj [("result", v_bool false); ("message", v_str msg)].

Definition broadcast_hex req : Value :=
  match get_str req "transaction" with
  | None => refused "missing transaction"
  | Some hex_str =>
  match hex_decode (trim_0x hex_str) with
  | inl _ => refused "invalid hex"
  | inr bytes =>
  match decode (M := Transaction.t) bytes with
  | inl e => refused ("decode error: " +:+ e)
  | inr tx =>
      if negb (bool_decide (is_Some (Transaction.raw_data tx))) then refused "SIGERROR: no raw_data" else
      if bool_decide (Transaction.signature tx = []) then refused "SIGERROR: no signature" else
      v_obj [("result", v_bool true); ("txid", v_str (hex (tx_id tx))); ("message", v_str "")]
  end
  end
  end.
End Handlers.
End contracts.

(** ** http/governance.rs *)

Module governance.
Definition LATEST_PROPOSAL_NUM : string := "LATEST_PROPOSAL_NUM".
Definition LATEST_EXCHANGE_NUM : string := "LATEST_EXCHANGE_NUM".

Definition read_proposal (id : Z) (w : world) : option Proposal.t := w_proposal w !! i64_to_be_bytes id.
Definition read_exchange (id : Z) (w : world) : option Exchange.t := w_exchange w !! i64_to_be_bytes id.

(** The order of [(i64, i64)]. *)
Definition pair_le (a b : Z * Z) : Prop := a.1 < b.1 ∨ a.1 = b.1 ∧ a.2 ≤ b.2.
#[global] Instance pair_le_dec a b : Decision (pair_le a b).
Proof. unfold pair_le. apply _. Defined.

(** Ids [offset+1 ..= offset+limit] clamped to [..= latest]. *)
Definition page_range (offset limit latest : Z) : res () (list Z) :=
  start ← add_i64 (Z.max offset 0) 1;
  past ← add_i64 (Z.max offset 0) (Z.max limit 0);
  Ok (range_incl start (Z.min past latest)).

Section Handlers.
Context `{TextCodec} `{Json}.
Implicit Types (w : world) (req : Value).

Definition proposal_to_json (visible : bool) (p : Proposal.t) : Value :=
  let params := merge_sort pair_le (map_to_list (Proposal.parameters p)) in
  let parameters := (λ kv, v_obj [("key", v_num kv.1); ("value", v_num kv.2)]) <$> params in
  let approvals := filter_map (λ a, v_str <$> render_address a visible) (Proposal.approvals p) in
  v_obj [
    ("proposal_id", v_num (Proposal.proposal_id p));
    ("proposer_address", v_opt_str (render_address (Proposal.proposer_address p) visible));
    ("parameters", v_arr parameters);
    ("expiration_time", v_num (Proposal.expiration_time p));
    ("create_time", v_num (Proposal.create_time p));
    ("approvals", v_arr approvals);
    ("state", v_num (Proposal.state p))].

Definition exchange_to_json (visible : bool) (e : Exchange.t) : Value :=
  v_obj [
    ("exchange_id", v_num (Exchange.exchange_id e));
    ("creator_address", v_opt_str (render_address (Exchange.creator_address e) visible));
    ("create_time", v_num (Exchange.create_time e));
    ("first_token_id", v_str (lossy (Exchange.first_token_id e)));
    ("first_token_balance", v_num (Exchange.first_token_balance e));
    ("second_token_id", v_str (lossy (Exchange.second_token_id e)));
    ("second_token_balance", v_num (Exchange.second_token_balance e))].

Definition get_proposal_by_id w req : Value :=
  let visible := visible_of req in
  match get_i64 req "id" with
  | None => error "invalid id"
  | Some id =>
      match read_proposal id w with
      | Some p => v_obj [("proposal", proposal_to_json visible p)]
      | None => empty_obj
      end
  end.

Definition proposals_of w (ids : list Z) : list Value :=
  filter_map (λ id, proposal_to_json false <$> read_proposal id w) ids.
Definition exchanges_of w (ids : list Z) : list Value :=
  filter_map (λ id, exchange_to_json false <$> read_exchange id w) ids.

Definition list_proposals w : Value :=
  let latest := get_prop_i64 LATEST_PROPOSAL_NUM w in
  v_obj [("proposals", v_arr (proposals_of w (range_incl 1 latest)))].

Definition get_paginated_proposal_list w req : reply :=
  let offset := default 0 (get_i64 req "offset") in
  let limit := Z.min (default 0 (get_i64 req "limit")) 100 in
  let latest := get_prop_i64 LATEST_PROPOSAL_NUM w in
  ids ← page_range offset limit latest;
  Ok (v_obj [("proposals", v_arr (proposals_of w ids))]).

Definition get_exchange_by_id w req : Value :=
  let visible := visible_of req in
  match get_i64 req "id" with
  | None => error "invalid id"
  | Some id =>
      match read_exchange id w with
      | Some e => exchange_to_json visible e
      | None => empty_obj
      end
  end.

Definition list_exchanges w : Value :=
  let latest := get_prop_i64 LATEST_EXCHANGE_NUM w in
  v_obj [("exchanges", v_arr (exchanges_of w (range_incl 1 latest)))].

Definition get_paginated_exchange_list w req : reply :=
  let offset := default 0 (get_i64 req "offset") in
  let limit := Z.min (default 0 (get_i64 req "limit")) 100 in
  let latest := get_prop_i64 LATEST_EXCHANGE_NUM w in
  ids ← page_range offset limit latest;
  Ok (v_obj [("exchanges", v_arr (exchanges_of w ids))]).
End Handlers.
End governance.

(** ** http/market.rs *)

Module market.
Definition pair_key (sell buy : bytes) : bytes := sell ++ [0] ++ buy.
Definition price16 (sell buy : Z) : bytes := i64_to_be_bytes sell ++ i64_to_be_bytes buy.

Definition read_order (id : bytes) (w : world) : option MarketOrder.t :=
  if negb (bool_decide (length id = 32%nat)) then None else w_market_order w !! id.

Definition read_prices (pair : bytes) (w : world) : list (Z * Z) :=
  let bs := default [] (w_market_pair w !! pair) in
  (λ c, (i64_from_be_bytes (take 8 c), i64_from_be_bytes (drop 8 c))) <$> chunks_exact 16 bs.

Definition read_order_ids (pair : bytes) (sell buy : Z) (w : world) : list bytes :=
  let key := pair ++ price16 sell buy in
  chunks_exact 32 (default [] (w_market_pair_price w !! key)).

(** [pk.iter().position(|&b| b == 0x00)], with what is before and after it. *)
Fixpoint split_at_zero (pk : bytes) : option (bytes * bytes) :=
  match pk with
  | [] => None
  | b :: pk => if b =? 0 then Some ([], pk)
               else match split_at_zero pk with Some (s, r) => Some (b :: s, r) | None => None end
  end.

(** The loop over the length-prefixed keys; [fuel] bounds its rounds, each of
    which consumes at least two bytes. *)
Fixpoint pair_keys (fuel : nat) (bs : bytes) : list bytes :=
  match fuel with
  | O => []
  | S fuel =>
      match bs with
      | b0 :: b1 :: rest =>
          let len := Z.to_nat (from_be_unsigned [b0; b1]) in
          if bool_decide (length rest < len)%nat then []
          else take len rest :: pair_keys fuel (drop len rest)
      | _ => []
      end
  end.

Section Handlers.
Context `{TextCodec} `{Json}.
Implicit Types (w : world) (req : Value).

Definition order_to_json (visible : bool) (o : MarketOrder.t) : Value :=
  v_obj [
    ("order_id", v_str (hex (MarketOrder.order_id o)));
    ("owner_address", v_opt_str (render_address (MarketOrder.owner_address o) visible));
    ("create_time", v_num (MarketOrder.create_time o));
    ("sell_token_id", v_str (lossy (MarketOrder.sell_token_id o)));
    ("sell_token_quantity", v_num (MarketOrder.sell_token_quantity o));
    ("buy_token_id", v_str (lossy (MarketOrder.buy_token_id o)));
    ("buy_token_quantity", v_num (MarketOrder.buy_token_quantity o));
    ("sell_token_quantity_remain", v_num (MarketOrder.sell_token_quantity_remain o))].

Definition pair_from_req req : bytes * bytes :=
  (bytes_of_string (default "" (get_str req "sell_token_id")),
   bytes_of_string (default "" (get_str req "buy_token_id"))).

Definition get_market_order_by_id w req : Value :=
  let visible := visible_of req in
  match get_str req "value" with
  | None => empty_obj
  | Some s =>
  match hex_decode (trim_0x s) with
  | inl _ => empty_obj
  | inr id =>
      match read_order id w with
      | Some o => order_to_json visible o
      | None => empty_obj
      end
  end
  end.

Definition get_market_price_by_pair w req : Value :=
  let '(sell, buy) := pair_from_req req in
  let prices := (λ p, v_obj [("sell_token_quantity", v_num p.1); ("buy_token_quantity", v_num p.2)])
                  <$> read_prices (pair_key sell buy) w in
  v_obj [("sell_token_id", v_str (lossy sell)); ("buy_token_id", v_str (lossy buy));
         ("prices", v_arr prices)].

Definition orders_json (visible : bool) w (ids : list bytes) : list Value :=
  filter_map (λ id, order_to_json visible <$> read_order id w) ids.

Definition get_market_order_list_by_pair w req : Value :=
  let visible := visible_of req in
  let '(sell, buy) := pair_from_req req in
  let pair := pair_key sell buy in
  let orders := flat_map (λ p, orders_json visible w (read_order_ids pair p.1 p.2 w))
                  (read_prices pair w) in
  v_obj [("orders", v_arr orders)].

Definition get_market_order_by_account w req : Value :=
  let visible := visible_of req in
  match (or_else (jget req "value") (jget req "address") ≫= as_str) ≫= parse_req_address with
  | None => v_obj [("orders", v_arr [])]
  | Some addr =>
      let bs := default [] (w_market_account_order w !! addr) in
      v_obj [("orders", v_arr (orders_json visible w (chunks_exact 32 bs)))]
  end.

Definition pair_json (p : bytes * bytes) : Value :=
  v_obj [("sell_token_id", v_str (lossy p.1)); ("buy_token_id", v_str (lossy p.2))].
Definition get_market_pair_list w : Value :=
  let bs := default [] (w_market_pairs w !! PAIRS_KEY) in
  v_obj [("orderPair", v_arr (filter_map (λ pk, pair_json <$> split_at_zero pk) (pair_keys (length bs) bs)))].
End Handlers.
End market.

(** ** http/node.rs *)

Module node.
Section Handlers.
Context `{Json}.

(** [env!("CARGO_PKG_VERSION")] is the workspace's. *)
Definition CARGO_PKG_VERSION : string := "0.0.1".
Definition get_node_info (network : string) (p2p_port : Z) : Value :=
  v_obj [
    ("configNodeInfo", v_obj [
      ("codeVersion", v_str CARGO_PKG_VERSION);
      ("p2pVersion", v_str network);
      ("listenPort", v_num p2p_port)]);
    ("solidityBlock", v_str "");
    ("activeConnectCount", v_num 0)].

Definition list_nodes (nodes : list (string * Z)) : Value :=
  v_obj [("nodes", v_arr
    ((λ n, v_obj [("address", v_obj [("host", v_str n.1); ("port", v_num n.2)])]) <$> nodes))].

Definition list_witnesses : Value := v_obj [("witnesses", v_arr [])].
End Handlers.
End node.
