(* ===== verification/Server.v ===== *)
(** * The HTTP server (crates/rpc/src/server.rs)

    The router over the shared node state: which handler serves which path, the shared
    handles it reads, and the one handler that changes something, [broadcast_hex].  Sockets
    and the extraction of the body are axum's: a request is its path and the JSON body the
    extractor found, if any. *)

From stdpp Require Import gmap strings pretty numbers fin_maps prelude.
From S2P Require Import Prelude Types Text Proto State Chain Consensus Mempool OrderBook Peers Rpc.
Open Scope Z_scope.

(** ** [std::sync::Mutex]

    A panic while the guard is held poisons the lock, and every later [lock] fails. *)
Record mutex (A : Type) := mk_mutex { m_data : A; m_poisoned : bool }.
Arguments mk_mutex {A} _ _.
Arguments m_data {A} _.
Arguments m_poisoned {A} _.
Definition mutex_new {A} (a : A) : mutex A := mk_mutex a false.
Definition lock {A} (m : mutex A) : option A := if m_poisoned m then None else Some (m_data m).
(** A critical section: it leaves the data it computes, and poisons the lock when it panics. *)
Definition critical {A E B} (f : ST A E B) (m : mutex A) : res E B * mutex A :=
  let '(r, a) := f (m_data m) in
  (r, mk_mutex a (match r with Panic => true | _ => m_poisoned m end)).

(** ** [NodeState] *)

Record NodeState := mk_state {
  ns_world : world;
  ns_mempool : mutex Mempool.t;
  ns_peers : PeerManager.t
}.
#[export] Instance eta_state : Eta NodeState := λ s, mk_state (ns_world s) (ns_mempool s) (ns_peers s).

Definition new_state (w : world) : NodeState :=
  mk_state w (mutex_new (Mempool.new DEFAULT_CAPACITY)) PeerManager.new.
Definition with_peers (pm : PeerManager.t) (s : NodeState) : NodeState := s <| ns_peers := pm |>.
Definition with_mempool (m : mutex Mempool.t) (s : NodeState) : NodeState := s <| ns_mempool := m |>.

(** ** Requests and responses *)

Section Server.
Context `{TextCodec} `{Json} `{Hashes} `{Secp} `{!Encode TxRaw.t} `{!Encode HeaderRaw.t}
  `{!Encode Transaction.t} `{!Decode Transaction.t} `{MapIter}.
Implicit Types (s : NodeState) (req : Value) (now : Z).

(** No route, a body the [Json] extractor rejects, a reply, or a handler that panicked. *)
Inductive response := NotFound | Rejected | Reply (v : Value) | Aborted.

Definition handler : Type := NodeState → option Value → Z → response * NodeState.

Definition respond (r : reply) : response :=
  match r with Ok v => Reply v | _ => Aborted end.

(** Handlers that read the world only, without and with a JSON body. *)
Definition on_world (f : world → Value) : handler := λ s _ _, (Reply (f (ns_world s)), s).
Definition on_json (f : world → Value → Value) : handler := λ s body _,
  match body with Some req => (Reply (f (ns_world s) req), s) | None => (Rejected, s) end.
Definition on_json_reply (f : world → Value → reply) : handler := λ s body _,
  match body with Some req => (respond (f (ns_world s) req), s) | None => (Rejected, s) end.

Definition tron_p2p_port : Z := 18888.
Definition get_node_info : handler := on_world (λ _, node.get_node_info "nile" tron_p2p_port).
Definition list_witnesses : handler := on_world (λ _, node.list_witnesses).
Definition list_nodes : handler := λ s _ _,
  let nodes := (λ a, (host a, port a)) <$> PeerManager.addr_list (ns_peers s) in
  (Reply (node.list_nodes nodes), s).

(** The admission of a structurally valid transaction: the second half of [broadcast_hex]. *)
Definition admit_broadcast (w : world) (tx : Transaction.t) now (m : mutex Mempool.t) :
    option (res AdmitError bytes * mutex Mempool.t) :=
  match lock m with
  | None => None
  | Some _ => Some (critical (admit_transaction w tx now (λ _ _, inr ())) m)
  end.

Definition broadcast_hex : handler := λ s body now,
  match body with
  | None => (Rejected, s)
  | Some req =>
      let result := contracts.broadcast_hex req in
      if bool_decide (get_bool result "result" = Some true) then
        match get_str req "transaction" with
        | None => (Reply result, s)
        | Some hex_str =>
        match hex_decode (trim_0x hex_str) with
        | inl _ => (Reply result, s)
        | inr bytes =>
        match decode (M := Transaction.t) bytes with
        | inl _ => (Reply result, s)
        | inr tx =>
        match admit_broadcast (ns_world s) tx now (ns_mempool s) with
        | None => (Reply result, s)
        | Some (r, m) =>
            (match r with Panic => Aborted | _ => Reply result end, s <| ns_mempool := m |>)
        end
        end
        end
        end
      else (Reply result, s)
  end.

(** The route table of [router_with_state]. *)
Definition routes : list (string * handler) := [
  ("/wallet/getaccount", on_json accounts_info.get_account);
  ("/wallet/getaccountresource", on_json_reply accounts_info.get_account_resource);
  ("/wallet/getReward", on_json accounts_info.get_reward);
  ("/wallet/getBrokerage", on_json accounts_info.get_brokerage);
  ("/wallet/getenergyprices", on_world chain.get_energy_prices);
  ("/wallet/getbandwidthprices", on_world chain.get_bandwidth_prices);
  ("/wallet/getmemofee", on_world chain.get_memo_fee);
  ("/wallet/listexchanges", on_world governance.list_exchanges);
  ("/wallet/listproposals", on_world governance.list_proposals);
  ("/wallet/getproposalbyid", on_json governance.get_proposal_by_id);
  ("/wallet/getpaginatedproposallist", on_json_reply governance.get_paginated_proposal_list);
  ("/wallet/getexchangebyid", on_json governance.get_exchange_by_id);
  ("/wallet/getpaginatedexchangelist", on_json_reply governance.get_paginated_exchange_list);
  ("/wallet/getassetissuelist", on_world assets.get_asset_issue_list);
  ("/wallet/getassetissuebyid", on_json assets.get_asset_issue_by_id);
  ("/wallet/getassetissuebyname", on_json assets.get_asset_issue_by_name);
  ("/wallet/getassetissuelistbyname", on_json assets.get_asset_issue_list_by_name);
  ("/wallet/getpaginatedassetissuelist", on_json_reply assets.get_paginated_asset_issue_list);
  ("/wallet/getavailableunfreezecount", on_json accounts_info.get_available_unfreeze_count);
  ("/wallet/getdelegatedresourcev2", on_json (λ _, accounts_info.get_delegated_resource_v2));
  ("/wallet/getcanwithdrawunfreezeamount", on_json_reply accounts.get_can_withdraw_unfreeze_amount);
  ("/wallet/getcandelegatedmaxsize", on_json_reply accounts.get_can_delegated_max_size);
  ("/wallet/getdelegatedresourceaccountindexv2",
    on_json accounts.get_delegated_resource_account_index_v2);
  ("/wallet/getmarketorderbyid", on_json market.get_market_order_by_id);
  ("/wallet/getmarketorderbyaccount", on_json market.get_market_order_by_account);
  ("/wallet/getmarketpricebypair", on_json market.get_market_price_by_pair);
  ("/wallet/getmarketorderlistbypair", on_json market.get_market_order_list_by_pair);
  ("/wallet/getmarketpairlist", on_world market.get_market_pair_list);
  ("/wallet/getaccountnet", on_json_reply accounts_info.get_account_net);
  ("/wallet/listwitnesses", list_witnesses);
  ("/wallet/getnowblock", on_world blocks.get_now_block);
  ("/wallet/getblockbynum", on_json blocks.get_block_by_num);
  ("/wallet/getblockbylatestnum", on_json_reply blocks.get_block_by_latest_num);
  ("/wallet/getblockbyid", on_json blocks.get_block_by_id);
  ("/wallet/gettransactioncountbyblocknum", on_json blocks.get_transaction_count_by_block_num);
  ("/wallet/getblockbylimitnext", on_json_reply blocks.get_block_by_limit_next);
  ("/wallet/getcontract", on_json contracts.get_contract);
  ("/wallet/gettransactionbyid", on_json contracts.get_transaction_by_id);
  ("/wallet/getchainparameters", on_world chain.get_chain_parameters);
  ("/wallet/getnodeinfo", get_node_info);
  ("/wallet/listnodes", list_nodes);
  ("/wallet/validateaddress", on_json (λ _, chain.validate_address));
  ("/wallet/getburntrx", on_world chain.get_burn_trx);
  ("/wallet/getnextmaintenancetime", on_world chain.get_next_maintenance_time);
  ("/wallet/totaltransaction", on_world chain.total_transaction);
  ("/wallet/broadcasthex", broadcast_hex)].

Definition serve (path : string) (body : option Value) now s : response * NodeState :=
  match field routes path with
  | Some h => h s body now
  | None => (NotFound, s)
  end.
End Server.

(** ** What requests do to the node *)

Section Requests.
Context `{TextCodec} `{Json} `{Hashes} `{Secp} `{!Encode TxRaw.t} `{!Encode HeaderRaw.t}
  `{!Encode Transaction.t} `{!Decode Transaction.t} `{MapIter}.
Implicit Types (s : NodeState) (req : Value) (now : Z) (m : mutex Mempool.t).

Record request := mk_request { r_path : string; r_body : option Value; r_now : Z }.

(** The responses of a sequence of requests, and the node after it. *)
Fixpoint serve_all (rs : list request) s : list response * NodeState :=
  match rs with
  | [] => ([], s)
  | r :: rs =>
      let '(a, s) := serve (r_path r) (r_body r) (r_now r) s in
      let '(l, s) := serve_all rs s in (a :: l, s)
  end.

(** The pool after a run of requests: admissible transactions were appended. *)
Record pool_grew (w : world) m m' : Prop := {
  grew_order : ∃ new, Mempool.order (m_data m') = Mempool.order (m_data m) ++ new ∧
    Forall (λ e, e.1 = tx_id e.2 ∧ ∃ now, admissible w e.2 now (λ _ _, inr ())) new;
  grew_reach n : pool_reach n (m_data m) → pool_reach n (m_data m');
  grew_poisoned : m_poisoned m = true → m' = m
}.

Lemma pool_grew_refl w m : pool_grew w m m.
Proof. constructor; [|done|done]. exists []. by rewrite app_nil_r. Qed.

Lemma pool_grew_trans w m1 m2 m3 : pool_grew w m1 m2 → pool_grew w m2 m3 → pool_grew w m1 m3.
Proof.
  intros [(n1 & E1 & F1) R1 P1] [(n2 & E2 & F2) R2 P2]. constructor.
  - exists (n1 ++ n2). rewrite E2, E1, (assoc_L _). split; [done|by apply Forall_app].
  - auto.
  - intros Hp. rewrite (P1 Hp) in P2. rewrite (P2 Hp). auto.
Qed.

Lemma add_order tx p p' : Mempool.add tx p = (p', true) →
  Mempool.order p' = Mempool.order p ++ [(tx_id tx, tx)].
Proof. unfold Mempool.add. repeat case_bool_decide; by intros [= <-]. Qed.

Lemma admit_broadcast_grew w tx now m r m' :
  admit_broadcast w tx now m = Some (r, m') → pool_grew w m m'.
Proof.
  unfold admit_broadcast, lock, critical. destruct (m_poisoned m) eqn:Em; [done|].
  destruct (admit_transaction _ _ _ _ _) as [r' p'] eqn:E. intros [= -> <-]. constructor; simpl.
  - destruct (is_Ok r) eqn:Er.
    + destruct r as [id| |]; [|done..]. apply admit_Ok in E as (_ & Ha & E). apply add_order in E.
      exists [(tx_id tx, tx)]. split; [done|]. apply Forall_singleton. eauto.
    + apply admit_not_Ok in E as ->; [|done]. exists []. by rewrite app_nil_r.
  - intros n Hr. replace p' with (admit_transaction w tx now (λ _ _, inr ()) (m_data m)).2 by by rewrite E.
    by apply reach_admit.
  - congruence.
Qed.

Lemma broadcast_hex_effect body now s :
  let s' := (broadcast_hex s body now).2 in
  ns_world s' = ns_world s ∧ ns_peers s' = ns_peers s ∧
  pool_grew (ns_world s) (ns_mempool s) (ns_mempool s').
Proof.
  unfold broadcast_hex. destruct body as [req|]; simpl; [|by auto using pool_grew_refl].
  case_bool_decide; simpl; [|by auto using pool_grew_refl].
  destruct (get_str req _) as [t|]; simpl; [|by auto using pool_grew_refl].
  destruct (hex_decode _) as [|bs]; simpl; [by auto using pool_grew_refl|].
  destruct (decode bs) as [|tx]; simpl; [by auto using pool_grew_refl|].
  destruct (admit_broadcast _ _ _ _) as [[r m]|] eqn:E; simpl; [|by auto using pool_grew_refl].
  split_and!; [done|done|by eapply admit_broadcast_grew].
Qed.

(** A handler other than [broadcast_hex] returns the state it got. *)
Definition reads_only (h : handler) : Prop := ∀ s body now, (h s body now).2 = s.

Lemma on_world_reads f : reads_only (on_world f).
Proof. done. Qed.
Lemma on_json_reads f : reads_only (on_json f).
Proof. by intros s [req|] now. Qed.
Lemma on_json_reply_reads f : reads_only (on_json_reply f).
Proof. by intros s [req|] now. Qed.
Lemma list_nodes_reads : reads_only list_nodes.
Proof. done. Qed.

Lemma field_forall {A} (P : string → A → Prop) (fs : list (string * A)) k v :
  Forall (λ e, P e.1 e.2) fs → field fs k = Some v → P k v.
Proof.
  induction 1 as [|[k' x] fs Hx _ IH]; simpl; [done|].
  case_bool_decide as E; [|done]. subst k'. by intros [= <-].
Qed.

Lemma routes_read path h :
  field routes path = Some h → path ≠ "/wallet/broadcasthex" → reads_only h.
Proof.
  apply (field_forall (λ p h, p ≠ "/wallet/broadcasthex" → reads_only h)).
  unfold routes.
  repeat (apply Forall_cons; split;
    [intros; first [apply on_json_reads|apply on_json_reply_reads|apply on_world_reads|apply list_nodes_reads|done]|]).
  done.
Qed.

Lemma route_broadcast : field routes "/wallet/broadcasthex" = Some broadcast_hex.
Proof. reflexivity. Qed.

Lemma serve_effect path body now s :
  let s' := (serve path body now s).2 in
  ns_world s' = ns_world s ∧ ns_peers s' = ns_peers s ∧
  pool_grew (ns_world s) (ns_mempool s) (ns_mempool s').
Proof.
  unfold serve. destruct (field routes path) as [h|] eqn:E; [|by auto using pool_grew_refl].
  destruct (decide (path = "/wallet/broadcasthex")) as [->|Hne].
  - rewrite route_broadcast in E. injection E as <-. apply broadcast_hex_effect.
  - rewrite (routes_read _ _ E Hne). by auto using pool_grew_refl.
Qed.

(** The request carries a structurally valid transaction. *)
Definition carries req (tx : Transaction.t) : Prop :=
  ∃ text bs, get_str req "transaction" = Some text ∧ hex_decode (trim_0x text) = inr bs ∧
    decode bs = inr tx ∧ is_Some (Transaction.raw_data tx) ∧ Transaction.signature tx ≠ [].

Lemma get_bool_obj `{!JsonLaws} fs k b :
  NoDup fs.*1 → field fs k = Some (v_bool b) → get_bool (v_obj fs) k = Some b.
Proof. intros Hd E. unfold get_bool. rewrite jget_obj, E by done. apply as_bool_bool. Qed.
Lemma get_str_obj `{!JsonLaws} fs k t :
  NoDup fs.*1 → field fs k = Some (v_str t) → get_str (v_obj fs) k = Some t.
Proof. intros Hd E. unfold get_str. rewrite jget_obj, E by done. apply as_str_str. Qed.

Lemma refused_spec `{!JsonLaws} msg :
  get_bool (contracts.refused msg) "result" = Some false ∧
  get_str (contracts.refused msg) "message" = Some msg.
Proof.
  assert (NoDup ["result"; "message"]) by (apply (bool_decide_unpack _); by vm_compute).
  split; [by apply get_bool_obj|by apply get_str_obj].
Qed.

(** The verdict of the pure handler. *)
Lemma broadcast_verdict `{!JsonLaws} req :
  (∃ tx, carries req tx ∧ get_bool (contracts.broadcast_hex req) "result" = Some true ∧
     get_str (contracts.broadcast_hex req) "txid" = Some (hex (tx_id tx))) ∨
  (∀ tx, ¬ carries req tx) ∧ get_bool (contracts.broadcast_hex req) "result" = Some false ∧
     ∃ msg, get_str (contracts.broadcast_hex req) "message" = Some msg ∧ msg ≠ "".
Proof.
  unfold contracts.broadcast_hex, carries.
  destruct (get_str req "transaction") as [t|] eqn:Et;
    [|right; split; [intros ? (? & ? & ? & ? & ? & ? & ?); congruence|destruct (refused_spec "missing transaction"); eauto]].
  destruct (hex_decode (trim_0x t)) as [e|bs] eqn:Eh;
    [right; split; [intros ? (? & ? & ? & ? & ? & ? & ?); congruence|destruct (refused_spec "invalid hex"); eauto]|].
  destruct (decode bs) as [e|tx] eqn:Ed;
    [right; split; [intros ? (? & ? & ? & ? & ? & ? & ?); congruence|destruct (refused_spec ("decode error: " +:+ e)); eauto]|].
  case_bool_decide as Hr; simpl;
    [|right; split; [intros ? (? & ? & ? & ? & ? & ? & ?); congruence|destruct (refused_spec "SIGERROR: no raw_data"); eauto]].
  case_bool_decide as Hs;
    [right; split; [intros ? (? & ? & ? & ? & ? & ? & ?); congruence|destruct (refused_spec "SIGERROR: no signature"); eauto]|].
  left. exists tx. assert (NoDup ["result"; "txid"; "message"])
    by (apply (bool_decide_unpack _); by vm_compute).
  split_and!; [by eauto 10|by apply get_bool_obj|by apply get_str_obj].
Qed.

(** C23: the API only reads, except that a broadcast may enter the pool.  After any sequence of
    HTTP requests, whatever their paths and bodies, there is one response per request, the
    world state and the peer set are the ones before, and the pool is the one before followed
    by admissible transactions under their own ids: it is still a reachable pool, and a pool
    whose lock is poisoned has not changed at all. *)
Theorem http_only_admits (rs : list request) s :
  let '(responses, s') := serve_all rs s in
  length responses = length rs ∧ ns_world s' = ns_world s ∧ ns_peers s' = ns_peers s ∧
  pool_grew (ns_world s) (ns_mempool s) (ns_mempool s').
Proof.
  revert s. induction rs as [|[path body now] rs IH]; intros s; simpl.
  { by auto using pool_grew_refl. }
  pose proof (serve_effect path body now s) as He.
  destruct (serve path body now s) as [a s1]; simpl in He. destruct He as (Hw & Hp & Hg).
  specialize (IH s1). destruct (serve_all rs s1) as [l s2]. destruct IH as (Hl & Hw2 & Hp2 & Hg2).
  split_and!; [simpl; congruence|congruence|congruence|].
  eapply pool_grew_trans; [done|]. by rewrite <-Hw.
Qed.

Lemma broadcast_outcome_lemma `{!JsonLaws} req now s :
  let '(r, s') := serve "/wallet/broadcasthex" (Some req) now s in
  let admitted tx := admit_transaction (ns_world s) tx now (λ _ _, inr ()) (m_data (ns_mempool s)) in
  (∃ v, r = Reply v ∧ get_bool v "result" = Some false ∧ (∀ tx, ¬ carries req tx) ∧ s' = s ∧
     ∃ msg, get_str v "message" = Some msg ∧ msg ≠ "") ∨
  ∃ tx, carries req tx ∧
    ((∃ v, r = Reply v ∧ get_bool v "result" = Some true ∧ get_str v "txid" = Some (hex (tx_id tx)) ∧
        (lock (ns_mempool s) = None → s' = s) ∧
        (is_Some (lock (ns_mempool s)) → (admitted tx).1 ≠ Panic ∧
           s' = s <| ns_mempool := mutex_new (admitted tx).2 |>)) ∨
     (r = Aborted ∧ is_Some (lock (ns_mempool s)) ∧ (admitted tx).1 = Panic ∧
        s' = s <| ns_mempool := mk_mutex (m_data (ns_mempool s)) true |>)).
Proof.
  unfold serve. rewrite route_broadcast. unfold broadcast_hex.
  destruct (broadcast_verdict req) as [(tx & Hc & Hv & Ht)|(Hc & Hv & Hm)].
  - rewrite bool_decide_eq_true_2 by done.
    pose proof Hc as (text & bs & -> & -> & -> & _).
    unfold admit_broadcast, lock, critical. destruct s as [w [p b] pm]; simpl.
    destruct b; [right; exists tx; split; [done|]; left; eexists; split_and!; try done; by intros []|].
    destruct (admit_transaction w tx now _ p) as [r p'] eqn:E. right. exists tx. split; [done|].
    rewrite E. simpl. destruct r as [id|e|].
    + left. eexists. split_and!; done.
    + left. eexists. split_and!; done.
    + right. apply admit_not_Ok in E as ->; [|done]. by split_and!; eauto.
  - rewrite bool_decide_eq_false_2 by congruence. left. eauto 10.
Qed.

(** C22: what a broadcast answers.  A request that carries no structurally valid transaction is
    refused: the reply says so with a reason, and the node is unchanged.  One that does gets
    its transaction id; if the lock of the pool is sound its transaction has been put to the
    admission of the pool, whose outcome the reply does not depend on, and if the lock is
    poisoned the reply is the same and the node is unchanged.  When the admission panics the
    client gets no reply, and the pool is as it was but can never be locked again. *)
Theorem broadcast_outcome `{!JsonLaws} req now s :
  let '(r, s') := serve "/wallet/broadcasthex" (Some req) now s in
  let admitted tx := admit_transaction (ns_world s) tx now (λ _ _, inr ()) (m_data (ns_mempool s)) in
  (∃ v, r = Reply v ∧ get_bool v "result" = Some false ∧ (∀ tx, ¬ carries req tx) ∧ s' = s ∧
     ∃ msg, get_str v "message" = Some msg ∧ msg ≠ "") ∨
  ∃ tx, carries req tx ∧
    ((∃ v, r = Reply v ∧ get_bool v "result" = Some true ∧ get_str v "txid" = Some (hex (tx_id tx)) ∧
        (lock (ns_mempool s) = None → s' = s) ∧
        (is_Some (lock (ns_mempool s)) → (admitted tx).1 ≠ Panic ∧
           s' = s <| ns_mempool := mutex_new (admitted tx).2 |>)) ∨
     (r = Aborted ∧ is_Some (lock (ns_mempool s)) ∧ (admitted tx).1 = Panic ∧
        s' = s <| ns_mempool := mk_mutex (m_data (ns_mempool s)) true |>)).
Proof. apply broadcast_outcome_lemma. Qed.
End Requests.

(** ** A concrete node *)

Module ServerSample.
Import PoolSample TextSample.

#[export] Instance iter : MapIter := λ m, (map_to_list m).*2.

(** [n] is a transaction of owner [n]; [n, 1] one whose contract names another owner; [n, 255]
    one whose owner field has a length that never ends. *)
Definition with_parameter (n : Z) (p : bytes) : Transaction.t :=
  Transaction.default <| Transaction.signature := [sig n] |> <| Transaction.raw_data := Some (TxRaw.default <| TxRaw.data := [n] |>
    <| TxRaw.contract := [Contract.default <| Contract.type := 1 |>
         <| Contract.parameter := Some p |>] |>) |>.
Definition foreign (n : Z) : Transaction.t := with_parameter n ([10; 21] ++ owner (n + 1)).
Definition endless (n : Z) : Transaction.t := with_parameter n (10 :: replicate 11 255).
#[export] Instance decode_tx : Decode Transaction.t := λ bs,
  match bs with
  | [n] => inr (tx n 0)
  | [n; 1] => inr (foreign n)
  | [n; 255] => inr (endless n)
  | _ => inl "buffer underflow"%string
  end.

Definition state : NodeState := with_mempool (mutex_new (Mempool.new 2)) (new_state empty_world).
Definition broadcast (text : string) : Value := Object [("transaction", Str text)].
Definition send (text : string) : NodeState → response * NodeState :=
  serve "/wallet/broadcasthex" (Some (broadcast text)) 1000.
End ServerSample.
Import TextSample PoolSample ServerSample.

Lemma broadcast_outcome_witness :
  ∃ v s', send "0x02" state = (Reply v, s') ∧ get_bool v "result" = Some true ∧
    Mempool.order (m_data (ns_mempool s')) = [(tx_id (tx 2 0), tx 2 0)].
Proof.
  pose proof (broadcast_outcome (broadcast "0x02") 1000 state) as Ho.
  unfold send. destruct (serve _ _ _ _) as [r s'] eqn:E. simpl in Ho.
  assert (carries (broadcast "0x02") (tx 2 0)) as Hc.
  { exists "0x02", [2]. by split_and!; eauto. }
  destruct Ho as [(v & _ & _ & Hn & _)|(t & Ht & [(v & -> & Hv & _ & _ & Hs)|(_ & _ & Hp & _)])].
  - by destruct (Hn _ Hc).
  - exists v, s'. split_and!; [done|done|].
    assert (t = tx 2 0) as ->.
    { destruct Ht as (a & b & Ha & Hb & Hd & _). vm_compute in Ha. injection Ha as <-.
      vm_compute in Hb. injection Hb as <-. by injection Hd as <-. }
    destruct Hs as [_ ->]; [by eexists|]. by vm_compute.
  - assert (t = tx 2 0) as ->.
    { destruct Ht as (a & b & Ha & Hb & Hd & _). vm_compute in Ha. injection Ha as <-.
      vm_compute in Hb. injection Hb as <-. by injection Hd as <-. }
    by vm_compute in Hp.
Defined.

(** A broadcast is answered as a success although the pool refused its signature. *)
Lemma broadcast_success_not_pooled :
  ∃ v, send "0201" state = (Reply v, state) ∧ get_bool v "result" = Some true ∧
    admit_transaction empty_world (foreign 2) 1000 (λ _ _, inr ()) (Mempool.new 2) = (Err BadSignature, Mempool.new 2).
Proof.
  exists (Object [("result", Bool true); ("txid", Str (hex (tx_id (foreign 2)))); ("message", Str "")]).
  split_and!; reflexivity.
Qed.

(** One crafted broadcast turns every later one away from the pool. *)
Lemma broadcast_poisons :
  let s := (send "02ff" state).2 in
  (send "02ff" state).1 = Aborted ∧ m_poisoned (ns_mempool s) = true ∧ (send "02" s).2 = s ∧
  Mempool.order (m_data (ns_mempool (send "02" state).2)) ≠ [].
Proof. split_and!; [reflexivity|reflexivity|reflexivity|]. by vm_compute. Qed.
