(* ===== verification/Api.v ===== *)
(** * What the HTTP API promises (crates/rpc/src/http)

    The handlers of [Rpc] against the components whose state they report: the amounts they
    quote are what the staking and reward actuators pay, pages tile the listings, the market
    endpoints show the order book, a stored block is served under its number and its id, and
    on a state of the ledger a request with reasonable numbers never panics. *)

From stdpp Require Import gmap strings pretty numbers fin_maps prelude sorting.
From S2P Require Import Prelude Types Text Proto State Actuator Stake Delegate Accounts Chain Consensus Mempool OrderBook Market Peers Rpc Server.
Open Scope Z_scope.

Lemma bind_Ok {E A B} (a : A) (f : A → res E B) : (Ok a : res E A) ≫= f = f a.
Proof. done. Qed.
Lemma bind_ok_or {E A B} e (a : A) o (f : A → res E B) : o = Some a → ok_or e o ≫= f = f a.
Proof. by intros ->. Qed.

(** ** Sums of stakes stay in range on a state of the ledger *)

Section Sums.
Context {E : Type}.

Lemma sum_i64_list {A} (f : A → Z) l :
  Forall (λ x, 0 ≤ f x) l → sum_list f l ≤ I64_MAX → sum_i64 (E := E) (f <$> l) = Ok (sum_list f l).
Proof.
  intros Hl Hb. rewrite <-sum_list_map in *. apply sum_i64_ok; [|done]. by apply Forall_fmap.
Qed.

Lemma sum_list_filter_le {A} (f : A → Z) (P : A → Prop) `{!∀ x, Decision (P x)} l :
  Forall (λ x, 0 ≤ f x) l → 0 ≤ sum_list f (filter P l) ≤ sum_list f l.
Proof.
  intros Hl. pose proof (sum_list_filter f P l).
  pose proof (sum_list_nonneg f _ (Forall_filter _ P _ Hl)).
  pose proof (sum_list_nonneg f _ (Forall_filter _ (λ x, ¬ P x) _ Hl)). lia.
Qed.

(** The two queues of an account of the ledger can be summed, whole or filtered. *)
Lemma stakes_bounded w a acc :
  trx_inv w → get_account a w = Some acc →
  acc_wf acc ∧ sum_list FreezeV2.amount (Account.frozen_v2 acc) ≤ I64_MAX ∧
  sum_list UnFreezeV2.unfreeze_amount (Account.unfrozen_v2 acc) ≤ I64_MAX.
Proof.
  intros Hi Ea. pose proof (get_account_wf _ _ _ (proj1 Hi) Ea) as Ha.
  pose proof (acc_trx_bound _ _ _ Hi Ea) as [_ Hb]. pose proof (burned_nonneg _ (proj1 Hi)).
  pose proof (acc_trx_parts _ Ha) as (? & ? & ? & ? & ? & ?). pose proof (wf_tron_power _ Ha).
  pose proof (wf_energy _ Ha). unfold acc_trx in Hb. split_and!; [done|lia|lia].
Qed.

Lemma sum_frozen_filter (P : FreezeV2.t → Prop) `{!∀ x, Decision (P x)} w a acc :
  trx_inv w → get_account a w = Some acc →
  sum_i64 (E := E) (FreezeV2.amount <$> filter P (Account.frozen_v2 acc))
  = Ok (sum_list FreezeV2.amount (filter P (Account.frozen_v2 acc))).
Proof.
  intros Hi Ea. destruct (stakes_bounded w a acc Hi Ea) as (Ha & Hf & _).
  pose proof (sum_list_filter_le FreezeV2.amount P _ (wf_frozen_v2 _ Ha)).
  apply sum_i64_list; [|lia]. apply Forall_filter, (wf_frozen_v2 _ Ha).
Qed.

Lemma sum_unfrozen_filter (P : UnFreezeV2.t → Prop) `{!∀ x, Decision (P x)} w a acc :
  trx_inv w → get_account a w = Some acc →
  sum_i64 (E := E) (UnFreezeV2.unfreeze_amount <$> filter P (Account.unfrozen_v2 acc))
  = Ok (sum_list UnFreezeV2.unfreeze_amount (filter P (Account.unfrozen_v2 acc))).
Proof.
  intros Hi Ea. destruct (stakes_bounded w a acc Hi Ea) as (Ha & _ & Hu).
  pose proof (sum_list_filter_le UnFreezeV2.unfreeze_amount P _ (wf_unfrozen_v2 _ Ha)).
  apply sum_i64_list; [|lia]. apply Forall_filter, (wf_unfrozen_v2 _ Ha).
Qed.
End Sums.

(** A saturating sum of non-negative amounts that fit is their sum. *)
Lemma foldl_saturating acc l :
  0 ≤ acc → Forall (λ x, 0 ≤ x) l → acc + foldr Z.add 0 l ≤ I64_MAX →
  foldl saturating_add acc l = acc + foldr Z.add 0 l.
Proof.
  intros Ha Hl. revert acc Ha. induction Hl as [|x l Hx Hl IH]; intros acc Ha Hb; simpl in *; [lia|].
  assert (0 ≤ foldr Z.add 0 l) by (clear -Hl; induction Hl; simpl; lia).
  unfold saturating_add at 2. rewrite sat_i64_id by i64_lia. rewrite IH; lia.
Qed.

Lemma frozen_v2_amount_sum w a acc r :
  trx_inv w → get_account a w = Some acc →
  frozen_v2_amount acc r = sum_list FreezeV2.amount (filter (λ f, FreezeV2.type f = r) (Account.frozen_v2 acc)).
Proof.
  intros Hi Ea. destruct (stakes_bounded w a acc Hi Ea) as (Ha & Hf & _).
  pose proof (sum_list_filter_le FreezeV2.amount (λ f, FreezeV2.type f = r) _ (wf_frozen_v2 _ Ha)).
  unfold frozen_v2_amount. rewrite foldl_saturating; rewrite ?sum_list_map; [lia|lia| |lia].
  apply Forall_fmap, Forall_filter, (wf_frozen_v2 _ Ha).
Qed.

(** ** Quotes *)

Section Quotes.
Context `{TextLaws} `{Json}.
Implicit Types (w : world) (req : Value).

Lemma owner_address_typed req a : accounts.owner_address req = Some a → is_address a = true.
Proof.
  unfold accounts.owner_address, accounts_info.owner_address.
  intros (s & _ & Hp)%bind_Some. by apply parse_req_address_typed in Hp as [? _].
Qed.

Lemma withdraw_quote w req a acc :
  trx_inv w → accounts.owner_address req = Some a → get_account a w = Some acc →
  get_i64 req "timestamp" = Some (get_prop_i64 props.LATEST_BLOCK_HEADER_TIMESTAMP w) →
  ∃ q, accounts.get_can_withdraw_unfreeze_amount w req = Ok (v_obj [("amount", v_num q)]) ∧
    match apply_contract (WithdrawExpireUnfreezeContract.mk a) w with
    | (Ok _, w') => 0 < q ∧ ∃ acc', get_account a w' = Some acc' ∧
        Account.balance acc' = Account.balance acc + q
    | (Err _, w') => q = 0 ∧ w' = w
    | (Panic, _) => False
    end.
Proof.
  intros Hi Ho Ea Et. set (now := get_prop_i64 _ w) in *.
  exists (pending_sum (matured now) (Account.unfrozen_v2 acc)). split.
  - unfold accounts.get_can_withdraw_unfreeze_amount. rewrite Ho, Et. simpl.
    change (State.get_account a w) with (get_account a w). rewrite Ea. simpl.
    by rewrite (sum_unfrozen_filter _ _ _ _ Hi Ea).
  - pose proof (withdraw_expire_run (WithdrawExpireUnfreezeContract.mk a) w Hi) as Hr.
    pose proof (withdraw_expire_accepts (WithdrawExpireUnfreezeContract.mk a) w acc Hi
      (owner_address_typed _ _ Ho) Ea) as Hok.
    fold now in Hr, Hok. unfold applies in Hr.
    destruct (apply_contract _ _) as [[r|e|] w']; simpl in *; [..|done].
    + destruct Hr as (_ & acc0 & E0 & Hp & ->). simplify_eq. split; [done|].
      eexists. split; [apply get_put_account_eq|]. done.
    + split; [|done]. symmetry in Hok. apply Z.ltb_ge in Hok.
      pose proof (pending_sum_nonneg (matured now) _
        (wf_unfrozen_v2 _ (get_account_wf _ _ _ (proj1 Hi) Ea))). lia.
Qed.

Lemma delegate_quote w req a acc resource receiver racc :
  trx_inv w → accounts.owner_address req = Some a → get_account a w = Some acc →
  get_i64 req "type" = Some resource → resource_valid resource = true →
  is_address receiver = true → receiver ≠ a → get_account receiver w = Some racc →
  Account.type racc ≠ ACCOUNT_TYPE_CONTRACT →
  ∃ q, accounts.get_can_delegated_max_size w req = Ok (v_obj [("max_size", v_num q)]) ∧
    (∀ amount, is_Ok (validate (DelegateResourceContract.mk a resource amount receiver false 0) w)
       = (TRX_PRECISION <=? amount) && (amount <=? q)) ∧
    (∀ amount lock period, q < amount →
       is_Ok (validate (DelegateResourceContract.mk a resource amount receiver lock period) w) = false).
Proof.
  intros Hi Ho Ea Et Hv Hr Hne Er Hc. pose proof (owner_address_typed _ _ Ho) as Hoa.
  exists (frozen_v2_amount acc resource). split.
  { unfold accounts.get_can_delegated_max_size. rewrite Ho, Et. simpl.
    change (State.get_account a w) with (get_account a w). rewrite Ea. simpl.
    assert (accounts.wrap_i32 resource = resource) as ->.
    { unfold resource_valid in Hv. apply orb_prop in Hv as [Hv|Hv]; apply Z.eqb_eq in Hv; by subst. }
    rewrite (sum_frozen_filter _ _ _ _ Hi Ea). by rewrite <-(frozen_v2_amount_sum w a acc). }
  split; [intros amount|intros amount lock period Hq]; change (validate ?c w) with (DelegateResourceActuator.validate c w);
    unfold DelegateResourceActuator.validate;
    cbn [DelegateResourceContract.owner_address DelegateResourceContract.balance DelegateResourceContract.resource
      DelegateResourceContract.receiver_address DelegateResourceContract.lock];
    rewrite (parse_address_ok _ a), bind_Ok by done; erewrite bind_ok_or by done; rewrite Hv, ?(Z.leb_antisym amount);
    cbn [negb]; (destruct (Z.ltb_spec amount TRX_PRECISION); [done|]); cbn [negb andb].
  - rewrite (Z.leb_antisym (frozen_v2_amount acc resource)).
    destruct (Z.ltb_spec (frozen_v2_amount acc resource) amount); [done|].
    rewrite (parse_address_ok _ receiver), bind_Ok, bool_decide_eq_false_2 by done. erewrite bind_ok_or by done.
    rewrite bind_Ok. by destruct (Z.eqb_spec (Account.type racc) ACCOUNT_TYPE_CONTRACT).
  - by rewrite (proj2 (Z.ltb_lt (frozen_v2_amount acc resource) amount)).
Qed.

Lemma unfreeze_count_quote w req a acc :
  accounts.owner_address req = Some a → get_account a w = Some acc →
  ∃ n, accounts_info.get_available_unfreeze_count w req = v_obj [("count", v_num n)] ∧ 0 ≤ n ∧
    (0 < n → ∀ amount resource,
      validate (UnfreezeBalanceV2Contract.mk a amount resource) w
      ≠ Err (Validate "Invalid unfreeze operation, unfreezing times is over limit")).
Proof.
  intros Ho Ea. eexists. split_and!.
  - unfold accounts_info.get_available_unfreeze_count.
    change (accounts_info.owner_address req) with (accounts.owner_address req). rewrite Ho. simpl.
    change (State.get_account a w) with (get_account a w). by rewrite Ea.
  - simpl. lia.
  - intros Hn amount resource. unfold accounts_info.MAX_UNFREEZE in Hn. cbn in Hn.
    change (validate ?c w) with (UnfreezeBalanceV2Actuator.validate c w).
    unfold UnfreezeBalanceV2Actuator.validate. cbv zeta.
    cbn [UnfreezeBalanceV2Contract.owner_address UnfreezeBalanceV2Contract.resource
      UnfreezeBalanceV2Contract.unfreeze_balance].
    destruct (_ <=? 0); [done|]. intros [Hv%ok_or_Err|(o & [-> _]%parse_address_Ok & Hv)]%res_bind_Err.
    { by destruct Hv as [_ [=]]. }
    erewrite bind_ok_or in Hv by done. apply res_bind_Err in Hv as [Hv|(u & _ & Hv)].
    { repeat case_match; try done; by destruct (has_frozen _ _). }
    destruct (negb _); [done|]. case_bool_decide as Hc; [|done].
    pose proof (length_filter (λ u, get_prop_i64 props.LATEST_BLOCK_HEADER_TIMESTAMP w <
      UnFreezeV2.unfreeze_expire_time u) (Account.unfrozen_v2 acc)).
    unfold UNFREEZE_MAX_TIMES in Hc. lia.
Qed.

Lemma reward_quote w req a acc :
  trx_inv w → accounts_info.req_address req "address" = Some a → get_account a w = Some acc →
  ∃ q, accounts_info.get_reward w req = v_obj [("reward", v_num q)] ∧
    match apply_contract (WithdrawBalanceContract.mk a) w with
    | (Ok _, w') => 0 < q ∧ ∃ acc', get_account a w' = Some acc' ∧
        Account.balance acc' = Account.balance acc + q ∧ Account.allowance acc' = 0
    | (Err _, w') => w' = w
    | (Panic, _) => True
    end.
Proof.
  intros Hi Ho Ea. exists (Account.allowance acc). split.
  - unfold accounts_info.get_reward. rewrite Ho. simpl.
    change (State.get_account a w) with (get_account a w). by rewrite Ea.
  - pose proof (withdraw_safe_outcome (WithdrawBalanceContract.mk a) w Hi) as Hs.
    destruct (apply_contract _ _) as [[r|e|] w'] eqn:E; [|done|done].
    unfold apply_contract in E. simpl in E.
    unfold WithdrawBalanceActuator.validate, WithdrawBalanceActuator.execute in E.
    inv_run. parse_facts. bool_prop. cbn [WithdrawBalanceContract.owner_address] in *. simplify_eq.
    split; [done|]. eexists. by split; [apply get_put_account_eq|].
Qed.

(** C24: quotes are honoured.  For an account of a ledger state (one that satisfies the
    invariant) and a request that names it, the API quotes what the actuators then do.  Asked
    at the time of the latest block, the matured amount is what a withdrawal credits, and when
    it is zero the withdrawal is refused.  For a valid resource and a receiver that is another
    existing account and not a contract, a delegation without a lock is accepted exactly for
    the amounts from one TRX up to the quoted size, so for none when the quote is below one
    TRX, and a delegation above the quote is refused with or without a lock.  A positive
    number of free unfreeze slots means that no unfreeze is refused for having too many.  And
    a reward withdrawal that succeeds adds the quoted reward to the balance and clears it; one
    that is refused changes nothing. *)
Theorem quotes_honoured w req a acc :
  trx_inv w → get_account a w = Some acc → accounts.owner_address req = Some a →
  accounts_info.req_address req "address" = Some a →
  (get_i64 req "timestamp" = Some (get_prop_i64 props.LATEST_BLOCK_HEADER_TIMESTAMP w) →
   ∃ q, accounts.get_can_withdraw_unfreeze_amount w req = Ok (v_obj [("amount", v_num q)]) ∧
     match apply_contract (WithdrawExpireUnfreezeContract.mk a) w with
     | (Ok _, w') => 0 < q ∧ ∃ acc', get_account a w' = Some acc' ∧
         Account.balance acc' = Account.balance acc + q
     | (Err _, w') => q = 0 ∧ w' = w
     | (Panic, _) => False
     end) ∧
  (∀ resource receiver racc,
     get_i64 req "type" = Some resource → resource_valid resource = true →
     is_address receiver = true → receiver ≠ a → get_account receiver w = Some racc →
     Account.type racc ≠ ACCOUNT_TYPE_CONTRACT →
     ∃ q, accounts.get_can_delegated_max_size w req = Ok (v_obj [("max_size", v_num q)]) ∧
       (∀ amount, is_Ok (validate (DelegateResourceContract.mk a resource amount receiver false 0) w)
          = (TRX_PRECISION <=? amount) && (amount <=? q)) ∧
       (∀ amount lock period, q < amount →
          is_Ok (validate (DelegateResourceContract.mk a resource amount receiver lock period) w) = false)) ∧
  (∃ n, accounts_info.get_available_unfreeze_count w req = v_obj [("count", v_num n)] ∧ 0 ≤ n ∧
     (0 < n → ∀ amount resource,
       validate (UnfreezeBalanceV2Contract.mk a amount resource) w
       ≠ Err (Validate "Invalid unfreeze operation, unfreezing times is over limit"))) ∧
  (∃ q, accounts_info.get_reward w req = v_obj [("reward", v_num q)] ∧
     match apply_contract (WithdrawBalanceContract.mk a) w with
     | (Ok _, w') => 0 < q ∧ ∃ acc', get_account a w' = Some acc' ∧
         Account.balance acc' = Account.balance acc + q ∧ Account.allowance acc' = 0
     | (Err _, w') => w' = w
     | (Panic, _) => True
     end).
Proof.
  intros Hi Ea Ho Hr. split_and!.
  - intros Et. by eapply withdraw_quote.
  - intros resource receiver racc Et. by eapply delegate_quote.
  - by eapply unfreeze_count_quote.
  - by eapply reward_quote.
Qed.
End Quotes.

(** ** Listings and pages *)

Lemma range_incl_app a b c : a ≤ b + 1 → b ≤ c → range_incl a b ++ range_incl (b + 1) c = range_incl a c.
Proof.
  intros. unfold range_incl. replace (c - a + 1) with ((b - a + 1) + (c - (b + 1) + 1)) by lia.
  rewrite (seqZ_app a (b - a + 1)) by lia. by replace (a + (b - a + 1)) with (b + 1) by lia.
Qed.
Lemma range_incl_nil a b : b < a → range_incl a b = [].
Proof. intros. unfold range_incl. apply seqZ_nil. lia. Qed.
Lemma elem_of_range_incl x a b : x ∈ range_incl a b ↔ a ≤ x ≤ b.
Proof. unfold range_incl. rewrite elem_of_seqZ. lia. Qed.
Lemma range_incl_cons a b : a ≤ b → range_incl a b = a :: range_incl (a + 1) b.
Proof.
  intros. unfold range_incl. rewrite seqZ_cons by lia. unfold Z.succ.
  by replace (Z.pred (b - a + 1)) with (b - (a + 1) + 1) by lia.
Qed.

(** The ids of page [k], for pages of [l] ids counted from [base]. *)
Definition page_ids (base l latest : Z) (k : nat) : list Z :=
  range_incl (base + Z.of_nat k * l + 1) (Z.min (base + Z.of_nat k * l + l) latest).

Lemma pages_concat base l latest n :
  0 < l → base ≤ latest →
  concat (page_ids base l latest <$> seq 0 n) = range_incl (base + 1) (Z.min (base + Z.of_nat n * l) latest).
Proof.
  intros Hl Hb. induction n as [|n IH]; [simpl; symmetry; apply range_incl_nil; lia|].
  rewrite seq_S, fmap_app, concat_app, IH. simpl. rewrite app_nil_r. unfold page_ids.
  destruct (decide (base + Z.of_nat n * l ≤ latest)).
  - rewrite (Z.min_l (base + _) latest) by lia. rewrite range_incl_app by lia. f_equal. lia.
  - rewrite (range_incl_nil (base + Z.of_nat n * l + 1)) by lia. rewrite app_nil_r. f_equal. lia.
Qed.

Lemma filter_map_app {A B} (f : A → option B) (l k : list A) :
  filter_map f (l ++ k) = filter_map f l ++ filter_map f k.
Proof. apply omap_app. Qed.
Lemma fmap_filter_map {A B C} (g : B → C) (f : A → option B) (l : list A) :
  g <$> filter_map f l = filter_map (λ x, g <$> f x) l.
Proof.
  unfold filter_map. induction l as [|x l IH]; simpl; [done|]. destruct (f x); simpl; [by f_equal|done].
Qed.
Lemma filter_map_concat {A B} (f : A → option B) (ls : list (list A)) :
  filter_map f (concat ls) = concat (filter_map f <$> ls).
Proof. induction ls as [|l ls IH]; simpl; [done|]. by rewrite filter_map_app, IH. Qed.

Section Pages.
Context `{TextCodec} `{Json}.
Implicit Types (w : world) (req : Value).

Lemma page_range_ids (k : nat) l latest :
  0 < l → Z.of_nat k * l + l ≤ I64_MAX - TOKEN_ID_BASE - 1 →
  governance.page_range (Z.of_nat k * l) l latest = Ok (page_ids 0 l latest k).
Proof.
  intros Hl Hb. unfold TOKEN_ID_BASE in Hb. unfold governance.page_range. rewrite !Z.max_l by lia.
  unfold add_i64. rewrite !exact_i64_ok by i64_lia. done.
Qed.

Lemma collect_assets_map fuel w id end_ :
  end_ < I64_MAX → I64_MIN ≤ id → fuel = Z.to_nat (end_ - id + 1) →
  assets.collect_assets fuel w id end_
  = Ok (filter_map (λ id, assets.asset_to_json false <$> get_asset_issue id w) (range_incl id end_)).
Proof.
  intros He. revert id. induction fuel as [|fuel IH]; intros id Hid Hf.
  { by rewrite range_incl_nil by lia. }
  cbn [assets.collect_assets]. destruct (Z.leb_spec id end_); [|lia].
  unfold add_i64. rewrite exact_i64_ok, bind_Ok by i64_lia. rewrite IH by lia. rewrite bind_Ok.
  rewrite (range_incl_cons id) by lia. simpl. by destruct (get_asset_issue id w).
Qed.

(** The request asks for a page. *)
Definition asks req (offset limit : Z) : Prop :=
  get_i64 req "offset" = Some offset ∧ get_i64 req "limit" = Some limit.

(** [get_page] serves the listing of [whole] under the name [key] in pages of [l]. *)
Definition tiles (key : string) (whole : Value) (get_page : Value → reply) (l : Z) (n : nat)
    (items : list Value) : Prop :=
  whole = v_obj [(key, v_arr items)] ∧
  ∃ pages, length pages = n ∧ items = concat pages ∧
    ∀ k page req, pages !! k = Some page → asks req (Z.of_nat k * l) l →
      get_page req = Ok (v_obj [(key, v_arr page)]).

Lemma tiles_ids key whole get_page l n (f : Z → option Value) base latest :
  0 < l → base ≤ latest → latest ≤ base + Z.of_nat n * l →
  whole = v_obj [(key, v_arr (filter_map f (range_incl (base + 1) latest)))] →
  (∀ k req, (k < n)%nat → asks req (Z.of_nat k * l) l →
    get_page req = Ok (v_obj [(key, v_arr (filter_map f (page_ids base l latest k)))])) →
  tiles key whole get_page l n (filter_map f (range_incl (base + 1) latest)).
Proof.
  intros Hl Hb Hn Hw Hp. split; [done|].
  exists (filter_map f <$> (page_ids base l latest <$> seq 0 n)). split_and!.
  - by rewrite !length_fmap, length_seq.
  - rewrite <-filter_map_concat, pages_concat, Z.min_r by lia. done.
  - intros k page req Hk Ha. apply list_lookup_fmap_Some in Hk as (ids & -> & Hk).
    apply list_lookup_fmap_Some in Hk as (k' & -> & Hk).
    apply lookup_seq in Hk as [-> Hk]. by apply Hp.
Qed.

Lemma pages_capped w req req' offset limit :
  100 < limit → asks req offset limit → asks req' offset 100 →
  governance.get_paginated_proposal_list w req = governance.get_paginated_proposal_list w req' ∧
  governance.get_paginated_exchange_list w req = governance.get_paginated_exchange_list w req' ∧
  assets.get_paginated_asset_issue_list w req = assets.get_paginated_asset_issue_list w req'.
Proof.
  intros Hl [Ho Hli] [Ho' Hli']. unfold governance.get_paginated_proposal_list,
    governance.get_paginated_exchange_list, assets.get_paginated_asset_issue_list.
  rewrite Ho, Hli, Ho', Hli'. cbn [default from_option id]. rewrite (Z.max_l limit), (Z.min_r limit) by lia.
  done.
Qed.

(** C25: pages tile the listings.  On a ledger state, for a page size from 1 to 100 (the
    cap) and enough pages to reach the latest proposal, exchange and token, inside the 64-bit
    ids and with the token counter at or above its base: asking for the proposals, the exchanges or the assets page by page, at the offsets
    that are multiples of the size, gives, put together, exactly the whole listing, with
    nothing repeated or lost at the page borders; and the listing of exchanges contains every
    exchange of the ledger.  A request for more than 100 items is answered as one for 100. *)
Theorem pages_tile w (l : Z) (n : nat) :
  trx_inv w → 0 < l ≤ 100 → Z.of_nat n * l + l ≤ I64_MAX - TOKEN_ID_BASE - 1 →
  get_prop_i64 governance.LATEST_PROPOSAL_NUM w ≤ Z.of_nat n * l →
  get_prop_i64 governance.LATEST_EXCHANGE_NUM w ≤ Z.of_nat n * l →
  TOKEN_ID_BASE ≤ get_token_id_num w ≤ TOKEN_ID_BASE + Z.of_nat n * l →
  (∃ items, tiles "proposals" (governance.list_proposals w)
     (governance.get_paginated_proposal_list w) l n items) ∧
  (∃ items, tiles "exchanges" (governance.list_exchanges w)
     (governance.get_paginated_exchange_list w) l n items ∧
     ∀ key e, w_exchange w !! key = Some e → governance.exchange_to_json false e ∈ items) ∧
  (∃ items, tiles "assetIssue" (assets.get_asset_issue_list w)
     (assets.get_paginated_asset_issue_list w) l n items) ∧
  (∀ req req' offset limit, 100 < limit → asks req offset limit → asks req' offset 100 →
     governance.get_paginated_proposal_list w req = governance.get_paginated_proposal_list w req' ∧
     governance.get_paginated_exchange_list w req = governance.get_paginated_exchange_list w req' ∧
     assets.get_paginated_asset_issue_list w req = assets.get_paginated_asset_issue_list w req').
Proof.
  intros Hi [Hl Hl'] Hn Hp He Ha. pose proof (get_prop_is_i64 props.TOKEN_ID_NUM w) as Ht.
  assert (0 ≤ get_prop_i64 governance.LATEST_PROPOSAL_NUM w)
    by (apply (inv_props _ (proj1 Hi)); not_weight).
  assert (0 ≤ get_prop_i64 governance.LATEST_EXCHANGE_NUM w)
    by (apply (inv_props _ (proj1 Hi)); not_weight).
  split_and!; [eexists|eexists; split|eexists|by apply pages_capped].
  - apply (tiles_ids _ _ _ _ _
      (λ id, governance.proposal_to_json false <$> governance.read_proposal id w)
      0 (get_prop_i64 governance.LATEST_PROPOSAL_NUM w)); [done|done|lia|done|]. intros k req Hk [Ho Hli].
    unfold governance.get_paginated_proposal_list. rewrite Ho, Hli. cbn [default from_option id].
    rewrite Z.min_l, page_range_ids by nia. done.
  - apply (tiles_ids _ _ _ _ _
      (λ id, governance.exchange_to_json false <$> governance.read_exchange id w)
      0 (get_prop_i64 governance.LATEST_EXCHANGE_NUM w)); [done|done|lia|done|]. intros k req Hk [Ho Hli].
    unfold governance.get_paginated_exchange_list. rewrite Ho, Hli. cbn [default from_option id].
    rewrite Z.min_l, page_range_ids by nia. done.
  - intros key e Hk. pose proof (inv_exchange _ (proj1 Hi) _ _ Hk) as [-> Hnum _ _ _ _ _].
    apply list_elem_of_omap. exists (Exchange.exchange_id e).
    split; [apply elem_of_range_incl; unfold LATEST_EXCHANGE_NUM, governance.LATEST_EXCHANGE_NUM in *; lia|].
    unfold governance.read_exchange. by rewrite Hk.
  - apply (tiles_ids _ _ _ _ _ (λ id, assets.asset_to_json false <$> get_asset_issue id w)
      TOKEN_ID_BASE (get_token_id_num w)); [done|lia|lia| |].
    + unfold assets.get_asset_issue_list, assets.all_assets. by rewrite fmap_filter_map.
    + intros k req Hk [Ho Hli].
      assert (0 ≤ Z.of_nat k * l ∧ Z.of_nat k * l + l ≤ Z.of_nat n * l) as [Hk0 Hkn] by nia.
      unfold assets.get_paginated_asset_issue_list.
      rewrite Ho, Hli. cbn [default from_option id].
      rewrite (Z.max_l (_ * _)), (Z.max_l l), (Z.min_l l) by lia.
      unfold TOKEN_ID_BASE, add_i64 in *. cbv zeta.
      do 2 (rewrite !exact_i64_ok by i64_lia; rewrite !bind_Ok).
      rewrite collect_assets_map; [|i64_lia|i64_lia|done]. unfold page_ids. rewrite bind_Ok.
      by replace (1000000 + 1 + Z.of_nat k * l) with (1000000 + Z.of_nat k * l + 1) by lia.
Qed.
End Pages.

(** ** The market endpoints *)

Lemma chunks_exact_lengths n bs : Forall (λ c, length c = n) (chunks_exact n bs).
Proof.
  unfold chunks_exact. generalize (length bs) as fuel. intros fuel. revert bs.
  induction fuel as [|fuel IH]; intros bs; simpl; [done|].
  case_bool_decide; constructor; [|done]. rewrite length_take. lia.
Qed.

Lemma get_put_account_orders owner ids w :
  Forall (λ id, length id = 32%nat) ids → get_account_orders owner (put_account_orders owner ids w) = ids.
Proof.
  intros Hi. unfold get_account_orders, put_account_orders. case_bool_decide as Hn; simpl.
  - by rewrite lookup_delete_eq, Hn.
  - rewrite lookup_insert_eq. apply chunks_exact_concat; [lia|done].
Qed.

(** A stored pair key has a 16-bit length. *)
Definition pair_fits (p : bytes) : Prop := Z.of_nat (length p) < 65536.

Lemma decode_pairs_concat ps fuel :
  Forall pair_fits ps → (length (concat (encode_pair <$> ps)) ≤ fuel)%nat →
  decode_pairs fuel (concat (encode_pair <$> ps)) = ps.
Proof.
  intros Hp. revert fuel. induction Hp as [|q ps Hq Hp IH]; intros fuel Hf; [by destruct fuel|].
  rewrite fmap_cons in *. cbn [concat] in *. set (rest := concat (encode_pair <$> ps)) in *.
  unfold encode_pair in Hf |- *. rewrite <-(assoc_L (++)). rewrite !length_app in Hf.
  pose proof (from_to_be_bytes 2 (Z.of_nat (length q))) as Hv.
  rewrite Z.mod_small in Hv by (change (2 ^ (8 * Z.of_nat 2)) with 65536; unfold pair_fits in Hq; lia).
  pose proof (to_be_bytes_length 2 (Z.of_nat (length q))) as Hl. rewrite Hl in Hf.
  destruct (to_be_bytes 2 _) as [|b0 [|b1 [|]]]; [done..| |done].
  destruct fuel as [|fuel]; [lia|]. cbn [decode_pairs app]. rewrite Hv, Nat2Z.id.
  rewrite bool_decide_eq_false_2 by (rewrite length_app; lia).
  rewrite take_app_length, drop_app_length. f_equal. apply IH. lia.
Qed.

Lemma get_put_pairs ps w : Forall pair_fits ps → get_pairs (put_pairs ps w) = ps.
Proof.
  intros Hp. unfold get_pairs, put_pairs. case_bool_decide as Hn; simpl.
  - by rewrite lookup_delete_eq, Hn.
  - rewrite lookup_insert_eq. by apply decode_pairs_concat.
Qed.

Lemma get_pairs_add pair w :
  Forall pair_fits (get_pairs w) → pair_fits pair → pair ∈ get_pairs (add_pair pair w).
Proof.
  intros Hw Hp. unfold add_pair. case_bool_decide; [done|]. rewrite get_put_pairs; [set_solver|].
  apply Forall_app. split; [done|by apply Forall_singleton].
Qed.

(** The keys the API walks are the ones the actuators maintain, and a key splits
    back into its two tokens. *)
Lemma pair_keys_decode fuel bs : market.pair_keys fuel bs = decode_pairs fuel bs.
Proof.
  revert bs. induction fuel as [|fuel IH]; intros bs; [done|].
  destruct bs as [|b0 [|b1 rest]]; [done..|]. cbn [market.pair_keys decode_pairs].
  case_bool_decide; [done|]. by rewrite IH.
Qed.

Lemma split_pair_key sell buy :
  0 ∉ sell → market.split_at_zero (pair_key sell buy) = Some (sell, buy).
Proof.
  unfold pair_key. induction sell as [|b sell IH]; intros Hs; [done|]. cbn [app market.split_at_zero].
  rewrite not_elem_of_cons in Hs. destruct Hs as [Hb Hs].
  destruct (Z.eqb_spec b 0); [congruence|]. cbn [app] in IH. by rewrite IH.
Qed.

(** The index each operation writes, and the ones it leaves alone. *)
Lemma put_order_ids_frame pair p ids w :
  w_market_pair (put_order_ids pair p ids w) = w_market_pair w ∧
  w_market_pairs (put_order_ids pair p ids w) = w_market_pairs w.
Proof. unfold put_order_ids. by case_bool_decide. Qed.
Lemma insert_price_frame pair p w :
  w_market_pair_price (insert_price pair p w) = w_market_pair_price w ∧
  w_market_pairs (insert_price pair p w) = w_market_pairs w.
Proof. unfold insert_price, put_prices. destruct (existsb _ _); [done|]. by case_bool_decide. Qed.
Lemma add_pair_frame pair w :
  w_market_pair (add_pair pair w) = w_market_pair w ∧
  w_market_pair_price (add_pair pair w) = w_market_pair_price w ∧
  w_market_account_order (add_pair pair w) = w_market_account_order w.
Proof. unfold add_pair, put_pairs. by repeat case_bool_decide. Qed.
Lemma add_account_order_frame owner id w :
  w_market_pair (add_account_order owner id w) = w_market_pair w ∧
  w_market_pair_price (add_account_order owner id w) = w_market_pair_price w ∧
  w_market_pairs (add_account_order owner id w) = w_market_pairs w.
Proof. unfold add_account_order, put_account_orders. by repeat case_bool_decide. Qed.

Section Resting.
Context (w w1 : world) (o : MarketOrder.t).
Let p : price := (MarketOrder.sell_token_quantity o, MarketOrder.buy_token_quantity o).
Let id : OrderId := MarketOrder.order_id o.
Let pair : bytes := pair_key (MarketOrder.sell_token_id o) (MarketOrder.buy_token_id o).
(** The order is stored, entered in the book of its pair and in its owner's index. *)
Definition rest_order (w1 : world) (o : MarketOrder.t) : world :=
  let p := (MarketOrder.sell_token_quantity o, MarketOrder.buy_token_quantity o) in
  let pair := pair_key (MarketOrder.sell_token_id o) (MarketOrder.buy_token_id o) in
  add_account_order (MarketOrder.owner_address o) (MarketOrder.order_id o)
    (add_order_to_book pair p (MarketOrder.order_id o) w1).

Hypothesis Hput : put_order o w = (Ok (), w1).

Lemma resting_id : length id = 32%nat ∧ w1 = w <| w_market_order ::= insert id o |>.
Proof.
  unfold put_order in Hput. case_bool_decide; [|done]. by injection Hput as <-.
Qed.

Lemma resting_read : market.read_order id (rest_order w1 o) = Some o.
Proof.
  destruct resting_id as [Hl ->]. unfold market.read_order. rewrite bool_decide_eq_true_2 by done. cbn [negb].
  assert (index_frame (w <| w_market_order ::= insert id o |>)
    (rest_order (w <| w_market_order ::= insert id o |>) o)) as (_ & _ & _ & -> & _).
  { etrans; [apply frame_add_order_to_book|apply frame_add_account_order]. }
  apply lookup_insert_eq.
Qed.

Lemma resting_prices :
  get_prices pair (rest_order w1 o) = get_prices pair (insert_price pair p w).
Proof.
  destruct resting_id as [Hl ->]. unfold get_prices at 1, rest_order. fold pair p id.
  rewrite (proj1 (add_account_order_frame _ _ _)). unfold add_order_to_book. rewrite (proj1 (add_pair_frame _ _)).
  set (w2 := put_order_ids _ _ _ _).
  assert (w_market_pair w2 = w_market_pair w) as E2 by (unfold w2; by rewrite (proj1 (put_order_ids_frame _ _ _ _))).
  assert (get_prices pair w2 = get_prices pair w) as E3 by (unfold get_prices; by rewrite E2).
  fold (get_prices pair (insert_price pair p w2)). unfold insert_price. rewrite E3.
  destruct (existsb _ _); [done|]. unfold put_prices, get_prices.
  case_bool_decide; simpl; by rewrite E2.
Qed.

Lemma resting_order_ids : id ∈ get_order_ids pair p (rest_order w1 o).
Proof.
  destruct resting_id as [Hl E1].
  assert (get_order_ids pair p (rest_order w1 o)
    = get_order_ids pair p (put_order_ids pair p (get_order_ids pair p w1 ++ [id]) w1)) as ->.
  { unfold get_order_ids at 1, rest_order, add_order_to_book. fold pair p id.
    rewrite (proj1 (proj2 (add_account_order_frame _ _ _))), (proj1 (proj2 (add_pair_frame _ _))).
    by rewrite (proj1 (insert_price_frame _ _ _)). }
  rewrite get_put_order_ids, decide_True by first [done|apply Forall_app; split; [apply chunks_exact_lengths|by apply Forall_singleton]].
  apply elem_of_app; right; by apply list_elem_of_singleton.
Qed.

Lemma resting_account : id ∈ get_account_orders (MarketOrder.owner_address o) (rest_order w1 o).
Proof.
  destruct resting_id as [Hl _]. unfold rest_order. fold pair p id.
  set (w2 := add_order_to_book _ _ _ _). unfold add_account_order. case_bool_decide; [done|].
  rewrite get_put_account_orders; [apply elem_of_app; right; by apply list_elem_of_singleton|]. apply Forall_app.
  split; [apply chunks_exact_lengths|by apply Forall_singleton].
Qed.

Lemma resting_pairs :
  Forall pair_fits (get_pairs w) → pair_fits pair → pair ∈ get_pairs (rest_order w1 o).
Proof.
  destruct resting_id as [Hl ->]. intros Hw Hp. unfold rest_order, add_order_to_book. fold pair p id.
  set (w2 := insert_price _ _ _).
  assert (get_pairs w2 = get_pairs w) as E.
  { unfold w2, get_pairs. rewrite (proj2 (insert_price_frame _ _ _)).
    by rewrite (proj2 (put_order_ids_frame _ _ _ _)). }
  unfold get_pairs at 1. rewrite (proj2 (proj2 (add_account_order_frame _ _ _))).
  fold (get_pairs (add_pair pair w2)). apply get_pairs_add; [by rewrite E|done].
Qed.
End Resting.

Section MarketViews.
Context `{TextLaws} `{Json}.
Implicit Types (w : world) (req : Value) (o : MarketOrder.t).

Lemma orders_json_elem visible w o ids :
  MarketOrder.order_id o ∈ ids → market.read_order (MarketOrder.order_id o) w = Some o →
  market.order_to_json visible o ∈ market.orders_json visible w ids.
Proof.
  intros Hin Hr. apply list_elem_of_omap. exists (MarketOrder.order_id o). split; [done|]. by rewrite Hr.
Qed.

(** The request names the pair of the order. *)
Definition names_pair req o : Prop :=
  market.pair_from_req req = (MarketOrder.sell_token_id o, MarketOrder.buy_token_id o).

(** The market endpoints show the book.  Once an order is stored and entered in the book of
    its pair and the index of its owner, every endpoint shows it: it is found by its id, it is
    among its owner's orders, its price is in the price list of the pair, which is sorted
    best first, it is in the order list of the pair, and the pair is among the active ones. *)
Theorem market_shows_order w w1 o :
  put_order o w = (Ok (), w1) → Forall is_byte (MarketOrder.order_id o) →
  let p := (MarketOrder.sell_token_quantity o, MarketOrder.buy_token_quantity o) in
  let pair := pair_key (MarketOrder.sell_token_id o) (MarketOrder.buy_token_id o) in
  price_ok p → book_sorted pair w →
  p ∈ get_prices pair w ∨ existsb (λ q, price_eq q p) (get_prices pair w) = false →
  0 ∉ MarketOrder.sell_token_id o → Forall pair_fits (get_pairs w) → pair_fits pair →
  let w' := rest_order w1 o in
  (∀ req, get_str req "value" = Some (hex (MarketOrder.order_id o)) →
     market.get_market_order_by_id w' req = market.order_to_json (visible_of req) o) ∧
  (∀ req v, jget req "value" = Some v → as_str v ≫= parse_req_address = Some (MarketOrder.owner_address o) →
     ∃ orders, market.get_market_order_by_account w' req = v_obj [("orders", v_arr orders)] ∧
       market.order_to_json (visible_of req) o ∈ orders) ∧
  (∀ req, names_pair req o →
     (∃ prices, market.get_market_price_by_pair w' req = v_obj [
          ("sell_token_id", v_str (lossy (MarketOrder.sell_token_id o)));
          ("buy_token_id", v_str (lossy (MarketOrder.buy_token_id o)));
          ("prices", v_arr ((λ q, v_obj [("sell_token_quantity", v_num q.1);
             ("buy_token_quantity", v_num q.2)]) <$> prices))] ∧
        StronglySorted price_lt prices ∧ p ∈ prices) ∧
     ∃ orders, market.get_market_order_list_by_pair w' req = v_obj [("orders", v_arr orders)] ∧
       market.order_to_json (visible_of req) o ∈ orders) ∧
  ∃ pairs, market.get_market_pair_list w' = v_obj [("orderPair", v_arr (market.pair_json <$> pairs))] ∧
    (MarketOrder.sell_token_id o, MarketOrder.buy_token_id o) ∈ pairs.
Proof.
  intros Hput Hb p pair Hp Hs Hl Hz Hw Hf w'.
  pose proof (resting_read w w1 o Hput) as Hread. pose proof (resting_prices w w1 o Hput) as Hprices.
  pose proof (resting_order_ids w w1 o Hput) as Hids. pose proof (resting_account w w1 o Hput) as Hacc.
  pose proof (resting_pairs w w1 o Hput Hw Hf) as Hpairs. fold pair p w' in Hread, Hprices, Hids, Hacc, Hpairs.
  destruct (insert_price_sorted pair p w Hs Hp) as [[Hs' _] Hperm].
  assert (p ∈ get_prices pair w') as Hpin.
  { rewrite Hprices, Hperm. destruct Hl as [Hl| ->]; [|by left].
    destruct (existsb _ _); [done|by right]. }
  assert (StronglySorted price_lt (get_prices pair w')) as Hsorted by by rewrite Hprices.
  clearbody w'. split_and!.
  - intros req Hv. unfold market.get_market_order_by_id. rewrite Hv, trim_0x_hex, hex_decode_encode by done.
    by rewrite Hread.
  - intros req v Hv Hpa. unfold market.get_market_order_by_account. rewrite Hv. cbn [or_else].
    change (Some v ≫= as_str) with (as_str v). rewrite Hpa. eexists. split; [done|].
    by apply orders_json_elem.
  - intros req Hn. unfold names_pair in Hn. split.
    + exists (get_prices pair w'). unfold market.get_market_price_by_pair. by rewrite Hn.
    + unfold market.get_market_order_list_by_pair. rewrite Hn. eexists. split; [done|].
      apply list_elem_of_In, in_flat_map. exists p. split; [by apply list_elem_of_In|].
      apply list_elem_of_In. by apply orders_json_elem.
  - exists (filter_map market.split_at_zero (get_pairs w')). split.
    + unfold market.get_market_pair_list. rewrite pair_keys_decode, fmap_filter_map. done.
    + apply list_elem_of_omap. exists pair. split; [done|]. by apply split_pair_key.
Qed.
End MarketViews.

(** ** No request brings a handler down *)

Section Total.
Context `{TextCodec} `{Json}.
Implicit Types (w : world) (req : Value).

Lemma frozen_sums_ok fs b e :
  Forall (λ f, 0 ≤ FreezeV2.amount f) fs → 0 ≤ b → 0 ≤ e →
  b + e + sum_list FreezeV2.amount fs ≤ I64_MAX →
  accounts_info.frozen_sums fs b e
  = Ok (b + sum_list FreezeV2.amount (filter (λ f, FreezeV2.type f ≠ 1) fs),
        e + sum_list FreezeV2.amount (filter (λ f, FreezeV2.type f = 1) fs)).
Proof.
  intros Hf. revert b e. induction Hf as [|f fs Hx Hf IH]; intros b e Hb He Hs;
    [simpl; by rewrite !Z.add_0_r|]. cbn [accounts_info.frozen_sums sum_list] in *.
  pose proof (sum_list_nonneg FreezeV2.amount fs Hf). rewrite !filter_cons.
  unfold add_i64. destruct (Z.eqb_spec (FreezeV2.type f) 1) as [E|E].
  - rewrite exact_i64_ok, bind_Ok by i64_lia. rewrite IH by lia.
    rewrite decide_False by tauto. rewrite decide_True by done. cbn [sum_list]. by rewrite Z.add_assoc.
  - rewrite exact_i64_ok, bind_Ok by i64_lia. rewrite IH by lia.
    rewrite decide_True by done. rewrite decide_False by done. cbn [sum_list]. by rewrite Z.add_assoc.
Qed.

Lemma get_account_resource_ok w req : trx_inv w → ∃ v, accounts_info.get_account_resource w req = Ok v.
Proof.
  intros Hi. unfold accounts_info.get_account_resource.
  destruct (get_str req _) as [t|]; [|by eexists]. destruct (parse_req_address t) as [a|]; [|by eexists].
  destruct (State.get_account a w) as [acc|] eqn:Ea; [|by eexists].
  destruct (stakes_bounded w a acc Hi Ea) as (Ha & Hf & _).
  rewrite frozen_sums_ok by (apply (wf_frozen_v2 _ Ha) || lia). rewrite bind_Ok. cbn [fst snd].
  pose proof (sum_list_filter FreezeV2.amount (λ f, FreezeV2.type f = 1) (Account.frozen_v2 acc)).
  pose proof (sum_list_nonneg _ _ (wf_frozen_v2 _ Ha)).
  unfold add_i64. rewrite exact_i64_ok, bind_Ok by i64_lia. by eexists.
Qed.

Lemma map_or_zero_ok {A} (f : A → res () Z) (o : option A) :
  (∀ a, o = Some a → ∃ z, f a = Ok z) → ∃ z, accounts_info.map_or_zero f o = Ok z.
Proof. intros Hf. destruct o as [a|]; simpl; [by apply Hf|by eexists]. Qed.

(** The sums of the three stake endpoints. *)
Lemma stake_views_ok w req :
  trx_inv w →
  (∃ v, accounts_info.get_account_net w req = Ok v) ∧
  (∃ v, accounts.get_can_withdraw_unfreeze_amount w req = Ok v) ∧
  (∃ v, accounts.get_can_delegated_max_size w req = Ok v).
Proof.
  intros Hi. unfold accounts_info.get_account_net, accounts.get_can_withdraw_unfreeze_amount,
    accounts.get_can_delegated_max_size. split_and!.
  all: match goal with |- context [accounts_info.map_or_zero ?f ?o] =>
    destruct (map_or_zero_ok f o) as [z ->]; [|rewrite bind_Ok; by eexists] end.
  all: intros acc (a & _ & Ea)%bind_Some; eexists;
    first [by eapply sum_frozen_filter|by eapply sum_unfrozen_filter].
Qed.

(** Numbers of a request that the page arithmetic can hold. *)
Definition sane req : Prop :=
  default 0 (get_i64 req "offset") ≤ I64_MAX - TOKEN_ID_BASE - 101 ∧
  is_i64 (default 0 (get_i64 req "endNum") - default 0 (get_i64 req "startNum")).

Lemma pages_ok w req :
  sane req →
  (∃ v, governance.get_paginated_proposal_list w req = Ok v) ∧
  (∃ v, governance.get_paginated_exchange_list w req = Ok v) ∧
  (∃ v, assets.get_paginated_asset_issue_list w req = Ok v).
Proof.
  intros [Ho _]. unfold TOKEN_ID_BASE in Ho.
  unfold governance.get_paginated_proposal_list, governance.get_paginated_exchange_list,
    assets.get_paginated_asset_issue_list, governance.page_range, TOKEN_ID_BASE.
  set (o := default 0 (get_i64 req "offset")) in *. set (l := default 0 (get_i64 req "limit")).
  unfold add_i64. split_and!.
  - rewrite !exact_i64_ok by i64_lia. rewrite !bind_Ok. by eexists.
  - rewrite !exact_i64_ok by i64_lia. rewrite !bind_Ok. by eexists.
  - cbv zeta. do 2 (rewrite !exact_i64_ok by i64_lia; rewrite !bind_Ok).
    rewrite collect_assets_map; [|i64_lia|i64_lia|done]. rewrite bind_Ok. by eexists.
Qed.

Context `{Hashes} `{!Encode HeaderRaw.t}.

Lemma block_pages_ok w req :
  trx_inv w → get_prop_i64 LATEST_BLOCK_NUMBER w < I64_MAX → sane req →
  (∃ v, blocks.get_block_by_latest_num w req = Ok v) ∧
  (∃ v, blocks.get_block_by_limit_next w req = Ok v).
Proof.
  intros Hi Hh [_ Hs]. assert (0 ≤ get_prop_i64 LATEST_BLOCK_NUMBER w)
    by (apply (inv_props _ (proj1 Hi)); not_weight).
  pose proof (get_prop_is_i64 LATEST_BLOCK_NUMBER w).
  unfold blocks.get_block_by_latest_num, blocks.get_block_by_limit_next, add_i64, sub_i64. split.
  - cbv zeta. do 2 (rewrite exact_i64_ok by i64_lia; rewrite bind_Ok). by eexists.
  - destruct (_ <=? _); [by eexists|]. rewrite exact_i64_ok, bind_Ok by done.
    destruct (_ <? _); by eexists.
Qed.
End Total.

(** ** Blocks *)

Section Blocks.
Context `{TextLaws} `{JsonLaws} `{Hashes} `{!Encode TxRaw.t} `{!Encode HeaderRaw.t}.

(** A stored block is served under its number and its id, with its number of transactions,
    and as the current block when it is at the head. *)
Lemma stored_block_served b w :
  is_i64 (block_number b) →
  let w' := put_block b w in
  (∀ req, get_i64 req "num" = Some (block_number b) →
     blocks.get_block_by_num w' req = block_to_json b ∧
     blocks.get_transaction_count_by_block_num w' req
       = v_obj [("count", v_num (Z.of_nat (length (Block.transactions b))))]) ∧
  (∀ req id, block_id_of b = Some id → Forall is_byte id → get_str req "value" = Some (hex id) →
     blocks.get_block_by_id w' req = block_to_json b) ∧
  (get_prop_i64 LATEST_BLOCK_NUMBER w ≤ block_number b → blocks.get_now_block w' = block_to_json b).
Proof.
  intros Hn w'. destruct (block_store_lookup b w Hn) as (Hget & _ & _ & Hnow & Hid). fold w' in Hget, Hnow, Hid.
  split_and!.
  - intros req E. unfold blocks.get_block_by_num, blocks.get_transaction_count_by_block_num.
    rewrite E. unfold default, from_option, id. by rewrite Hget.
  - intros req id Eid Hb E. unfold blocks.get_block_by_id.
    rewrite E, trim_0x_hex, hex_decode_encode by done. by rewrite (Hid id Eid).
  - intros Hle. unfold blocks.get_now_block. by rewrite Hnow.
Qed.
End Blocks.

Section TotalServer.
Context `{TextCodec} `{Json} `{Hashes} `{Secp} `{!Encode TxRaw.t} `{!Encode HeaderRaw.t}
  `{!Encode Transaction.t} `{!Decode Transaction.t} `{MapIter}.
Implicit Types (s : NodeState) (req : Value) (now : Z).

Lemma respond_ok r : (∃ v, r = Ok v) → respond r ≠ Aborted.
Proof. by intros [v ->]. Qed.

(** The owner field of every transaction the request carries can be read. *)
Definition readable_owner req : Prop :=
  ∀ tx, carries req tx → is_Ok (tx_owner_address tx) = true.

Lemma lift_bind_returns {St E A B} (r : res E A) (f : A → ST St E B) (st : St) :
  r ≠ Panic → (∀ a, (f a st).1 ≠ Panic) → ((lift r ≫= f) st).1 ≠ Panic.
Proof. intros Hr Hf. destruct r; [apply Hf|done|done]. Qed.

(** The only ways for an admission to panic. *)
Lemma admit_returns w tx now validate p :
  is_Ok (tx_owner_address tx) = true → is_i64 now → now + MAX_FUTURE_EXPIRATION_MS ≤ I64_MAX →
  (admit_transaction w tx now validate p).1 ≠ Panic.
Proof.
  intros Ho Hn Hl. unfold admit_transaction.
  repeat (apply lift_bind_returns; [|intros ?]).
  - by destruct (_ <? _).
  - by destruct (Transaction.raw_data tx).
  - by case_bool_decide.
  - by destruct (recover_tx_signer tx).
  - unfold check_owner, owner_of. destruct (tx_owner_address tx) as [[o|]| |]; [|done..]. cbn. by case_bool_decide.
  - unfold check_expiration, add_i64. destruct (_ =? 0); [done|]. destruct (_ <=? _); [done|].
    rewrite exact_i64_ok by (unfold MAX_FUTURE_EXPIRATION_MS in *; i64_lia). cbn. by destruct (_ <? _).
  - unfold verify_ref_block. case_bool_decide; [done|]. cbv zeta. destruct (_ || _); [done|].
    destruct (get_block_by_num _ w) as [b|]; [|done]. cbn. destruct (block_id_of b); [|done]. cbn. by case_bool_decide.
  - by destruct (Mempool.contains _ p).
  - by case_bool_decide.
  - by destruct (validate w tx).
  - done.
  - by match goal with |- context [if snd ?r then _ else _] => destruct r as [q []] end.
Qed.

Definition stays_up (h : handler) : Prop := ∀ s req now,
  trx_inv (ns_world s) → get_prop_i64 LATEST_BLOCK_NUMBER (ns_world s) < I64_MAX → sane req →
  (h s (Some req) now).1 ≠ Aborted.

Lemma routes_stay_up path h :
  field routes path = Some h → path ≠ "/wallet/broadcasthex" → stays_up h.
Proof.
  apply (field_forall (λ p h, p ≠ "/wallet/broadcasthex" → stays_up h)). unfold routes.
  repeat (apply Forall_cons; split;
    [intros ? s req now Hi Hh Hsane; first
       [ done
       | apply respond_ok; first
           [ by apply get_account_resource_ok | by apply stake_views_ok | by apply pages_ok
           | by apply block_pages_ok ] ]|]).
  done.
Qed.

(** C26: the API stays up.  On a state of the ledger, no request on any path makes its handler
    panic, provided the page and block numbers in it, the head and the clock stay away from
    the end of the 64-bit range and the owner field of the transaction it broadcasts, if any,
    can be read without overflow. *)
Theorem api_stays_up `{!JsonLaws} path req now s :
  trx_inv (ns_world s) → get_prop_i64 LATEST_BLOCK_NUMBER (ns_world s) < I64_MAX →
  sane req → readable_owner req → is_i64 now → now + MAX_FUTURE_EXPIRATION_MS ≤ I64_MAX →
  (serve path (Some req) now s).1 ≠ Aborted.
Proof.
  intros Hi Hh Hs Ha Hn Hl. destruct (decide (path = "/wallet/broadcasthex")) as [->|Hne].
  - pose proof (broadcast_outcome_lemma req now s) as Ho.
    destruct (serve _ _ _ _) as [r s'].
    destruct Ho as [(v & -> & _)|(tx & Hc & [(v & -> & _)|(_ & _ & Hp & _)])]; [done|done|].
    by apply (admit_returns _ _ _ _ _ (Ha tx Hc) Hn Hl) in Hp.
  - unfold serve. destruct (field routes path) as [h|] eqn:E; [|done].
    by apply (routes_stay_up _ _ E Hne).
Qed.
End TotalServer.

(** Alice has 3 TRX staked for energy and 2 that have matured. *)
Module ApiSample.
Import TextSample.
Definition days14 : Z := 14 * 86400000.
Definition staked : world := put_prop_i64 props.LATEST_BLOCK_HEADER_TIMESTAMP days14 stake_sample.
Definition alice_req : Value := Object [
  ("address", Str (hex (Sample.addr 1))); ("timestamp", Number days14); ("type", Number 1)].
End ApiSample.
Import TextSample ApiSample.

Lemma quotes_honoured_witness :
  accounts.get_can_withdraw_unfreeze_amount staked alice_req = Ok (Object [("amount", Number 2000000)]) ∧
  is_Ok (apply_contract (WithdrawExpireUnfreezeContract.mk (Sample.addr 1)) staked).1 = true ∧
  is_Ok (validate (DelegateResourceContract.mk (Sample.addr 1) ENERGY 3000000 (Sample.addr 2) false 0) staked) = true.
Proof.
  destruct (get_account (Sample.addr 1) staked) as [acc|] eqn:Ea; [|by vm_compute in Ea].
  destruct (get_account (Sample.addr 2) staked) as [racc|] eqn:Er; [|by vm_compute in Er].
  assert (Hi : trx_inv staked) by check_inv.
  destruct (quotes_honoured staked alice_req (Sample.addr 1) acc) as (Hw & Hd & _); [done..|].
  assert (Account.type racc = 0) as Hty.
  { assert (Account.type <$> get_account (Sample.addr 2) staked = Some 0) as Ht by by vm_compute.
    rewrite Er in Ht. by injection Ht. }
  destruct (Hd ENERGY (Sample.addr 2) racc) as (q & Hq & Hv & _); [done..|by rewrite Hty|].
  assert (q = 3000000) as ->.
  { assert (accounts.get_can_delegated_max_size staked alice_req
      = Ok (Object [("max_size", Number 3000000)])) as E by by vm_compute.
    rewrite E in Hq. by injection Hq. }
  split_and!; [by vm_compute|by vm_compute|]. by rewrite Hv.
Defined.

Module PageSample.
Definition proposal (n : Z) : Proposal.t := Proposal.default <| Proposal.proposal_id := n |>.
Definition w : world :=
  put_prop_i64 governance.LATEST_PROPOSAL_NUM 3
    (Sample.state <| w_proposal := list_to_map ((λ n, (i64_to_be_bytes n, proposal n)) <$> [1; 2; 3]) |>).
Definition ask (offset : Z) : Value := Object [("offset", Number offset); ("limit", Number 2)].
End PageSample.

Lemma pages_tile_witness :
  ∃ page0 page1, length page0 = 2%nat ∧ length page1 = 1%nat ∧
    governance.list_proposals PageSample.w = Object [("proposals", Array (page0 ++ page1))] ∧
    governance.get_paginated_proposal_list PageSample.w (PageSample.ask 0) = Ok (Object [("proposals", Array page0)]) ∧
    governance.get_paginated_proposal_list PageSample.w (PageSample.ask 2) = Ok (Object [("proposals", Array page1)]).
Proof.
  destruct (pages_tile PageSample.w 2 2) as ((items & Hw & pages & Hl & -> & Hp) & _).
  - check_inv.
  - done.
  - done.
  - by vm_compute.
  - by vm_compute.
  - by vm_compute.
  - destruct pages as [|page0 [|page1 [|]]]; [done..| |done]. exists page0, page1.
    pose proof (Hp 0%nat page0 (PageSample.ask 0) eq_refl (conj eq_refl eq_refl)) as H0.
    pose proof (Hp 1%nat page1 (PageSample.ask 2) eq_refl (conj eq_refl eq_refl)) as H1.
    split_and!; [| |by rewrite Hw; simpl; rewrite app_nil_r|done|done].
    + assert (∀ r, governance.get_paginated_proposal_list PageSample.w (PageSample.ask 0)
        = Ok (Object [("proposals", Array r)]) → length r = 2%nat) as Hr; [|by apply Hr].
      intros r Hr. vm_compute in Hr. by injection Hr as <-.
    + assert (∀ r, governance.get_paginated_proposal_list PageSample.w (PageSample.ask 2)
        = Ok (Object [("proposals", Array r)]) → length r = 1%nat) as Hr; [|by apply Hr].
      intros r Hr. vm_compute in Hr. by injection Hr as <-.
Defined.

Module OrderSample.
Definition order : MarketOrder.t :=
  MarketOrder.default <| MarketOrder.order_id := order_key 1 |>
    <| MarketOrder.owner_address := Sample.addr 1 |>
    <| MarketOrder.sell_token_id := bytes_of_string "1000001" |> <| MarketOrder.sell_token_quantity := 100 |>
    <| MarketOrder.buy_token_id := bytes_of_string "_" |> <| MarketOrder.buy_token_quantity := 5 |>
    <| MarketOrder.sell_token_quantity_remain := 100 |>.
Definition ask_pair : Value :=
  Object [("sell_token_id", Str "1000001"); ("buy_token_id", Str "_")].
End OrderSample.

Lemma market_shows_order_witness :
  ∃ w1 orders, put_order OrderSample.order empty_world = (Ok (), w1) ∧
    market.get_market_order_list_by_pair (rest_order w1 OrderSample.order) OrderSample.ask_pair
      = Object [("orders", Array orders)] ∧
    market.order_to_json false OrderSample.order ∈ orders.
Proof.
  eexists. assert (book_sorted (pair_key (bytes_of_string "1000001") (bytes_of_string "_")) empty_world)
    as Hb by (split; constructor).
  destruct (market_shows_order empty_world _ OrderSample.order eq_refl) as (_ & _ & Hr & _).
  - apply (bool_decide_unpack _). by vm_compute.
  - by vm_compute.
  - done.
  - by right.
  - apply (bool_decide_unpack _). by vm_compute.
  - constructor.
  - by vm_compute.
  - destruct (Hr OrderSample.ask_pair eq_refl) as (_ & orders & Ho & Hin).
    exists orders. split_and!; [done|exact Ho|exact Hin].
Defined.

(** Near the end of the range, two endpoints overflow. *)
Lemma page_range_overflows :
  governance.get_paginated_proposal_list empty_world (Object [("offset", Number I64_MAX); ("limit", Number 1)])
  = Panic.
Proof. by vm_compute. Qed.
Lemma limit_next_overflows `{Hashes} `{!Encode HeaderRaw.t} :
  blocks.get_block_by_limit_next empty_world (Object [("startNum", Number I64_MIN); ("endNum", Number 100)])
  = Panic.
Proof. reflexivity. Qed.

Import Mempool.PoolSample ServerSample.

Lemma api_stays_up_witness :
  let s := new_state staked in
  (serve "/wallet/getaccountresource" (Some alice_req) 1000 s).1 ≠ Aborted ∧
  (serve "/wallet/getcanwithdrawunfreezeamount" (Some alice_req) 1000 s).1 ≠ Aborted.
Proof.
  assert (trx_inv staked) as Hi by check_inv.
  assert (get_prop_i64 LATEST_BLOCK_NUMBER staked < I64_MAX) as Hh by by vm_compute.
  assert (sane alice_req) as Hs by (unfold sane, is_i64; split_and!; by vm_compute).
  assert (readable_owner alice_req) as Ha by (by intros tx (t & bs & Ht & _)).
  assert (is_i64 1000 ∧ 1000 + MAX_FUTURE_EXPIRATION_MS ≤ I64_MAX) as [Hn Hl] by (unfold is_i64; split_and!; by vm_compute).
  split; exact (api_stays_up _ alice_req 1000 (new_state staked) Hi Hh Hs Ha Hn Hl).
Defined.
