(* ===== verification/Process.v ===== *)
(** * The node process (crates/node/src/lib.rs, main.rs)

    Start-up from the configuration, and the services [Node::run] spawns over one shared
    world, pool, peer set and broadcast channel: the HTTP server, the periodic sync, discovery,
    the channel service and the block producer.  A step of the process is one turn of one of
    them; the producer takes two, since it builds a block from the state it reads and stores it
    later, with nothing locked in between. *)

From stdpp Require Import gmap strings pretty numbers fin_maps prelude relations.
From S2P Require Import Prelude Types Text Proto State Chain Consensus Mempool Intake Node Wire Peers Gossip Sync Rpc Server.
Open Scope Z_scope.

(** ** Configuration *)

Definition DEFAULT_HTTP_PORT : Z := 8090.
Definition DEFAULT_GRPC_PORT : Z := 50051.
Definition DEFAULT_JSONRPC_PORT : Z := 8545.

Module Config.
Record t := mk {
  network : string;
  data_dir : string;
  p2p_port : Z;
  http_port : Z;
  grpc_port : Z;
  seed_nodes : list string;
  witness : bool;
  witness_key : option string
}.
#[global] Instance eta_t : Eta t := λ c, mk (network c) (data_dir c) (p2p_port c) (http_port c)
  (grpc_port c) (seed_nodes c) (witness c) (witness_key c).
Definition default : t :=
  mk "nile" "./data" DEFAULT_P2P_PORT DEFAULT_HTTP_PORT DEFAULT_GRPC_PORT [] false None.

Section Load.
(** Reading and parsing the file: [std::fs::read_to_string] and [toml::from_str]. *)
Context (read_toml : string → string + t).
Definition load (path : option string) : string + t :=
  match path with
  | Some p => read_toml p
  | None => inr default
  end.

(** [a.starts_with("--")] *)
Definition is_flag (a : string) : bool := String.prefix "--" a.
(** The configuration [main] runs: the first argument that is not a flag is the path, and
    [--witness] turns production on. *)
Definition main_config (args : list string) : string + t :=
  let witness_flag := existsb (λ a, bool_decide (a = "--witness")) args in
  let config_path := List.find (λ a, negb (is_flag a)) args in
  match load config_path with
  | inl e => inl e
  | inr config => inr (if witness_flag then config <| witness := true |> else config)
  end.
End Load.
End Config.

(** ** The shared state *)

(** The channel handler with the lock around its pool: a panic during an admission poisons
    the lock, and [on_transaction] then drops what it decodes. *)
Record handle `{SecpSign} := mk_handle { h_node : NodeChannelHandler; h_poisoned : bool }.
Arguments mk_handle {_ _} _ _.
Arguments h_node {_ _} _.
Arguments h_poisoned {_ _} _.
#[export] Instance eta_handle `{SecpSign} : Eta handle := λ h, mk_handle (h_node h) (h_poisoned h).

Section Handle.
Context `{Hashes} `{SecpSign} `{!Encode TxRaw.t} `{!Encode HeaderRaw.t} `{!Encode Transaction.t}
  `{!Encode Block.t} `{!Decode Block.t} `{!Decode Transaction.t}.
Implicit Types (h : handle).

Definition locked_on_transaction (tx_bytes : bytes) (now_ms : Z) : ST handle () () := λ h,
  if h_poisoned h then (Ok (), h) else
  let '(r, n) := on_transaction tx_bytes now_ms (h_node h) in
  (r, mk_handle n (match r with Panic => true | _ => false end)).

(** A method of the node that does not touch the pool. *)
Definition on_node {A} (m : ST NodeChannelHandler () A) : ST handle () A := λ h,
  let '(r, n) := m (h_node h) in (r, mk_handle n (h_poisoned h)).

#[export] Instance handle_channel_handler : ChannelHandler handle := {|
  ch_head h := Node.head (h_node h);
  ch_on_block bs := on_node (on_block bs);
  ch_on_transaction := locked_on_transaction;
  ch_block_bytes n h := block_bytes n (h_node h);
  ch_on_pbft_commit bs h :=
    let '(n, b) := on_pbft_commit bs (h_node h) in (mk_handle n (h_poisoned h), b);
  ch_take_commits h :=
    let '(n, out) := ch_take_commits (h_node h) in (mk_handle n (h_poisoned h), out);
|}.
End Handle.

(** The process: the channel service with the shared handler, the discovery service with the
    shared peer set, the key of the producer while its task lives, and the block it has built
    and not stored yet. *)
Record process `{SecpSign} := mk_process {
  p_service : service handle;
  p_disc : Discovery;
  p_key : option SecretKey;
  p_pending : option Block.t;
}.
Arguments mk_process {_ _} _ _ _ _.
Arguments p_service {_ _} _.
Arguments p_disc {_ _} _.
Arguments p_key {_ _} _.
Arguments p_pending {_ _} _.
#[export] Instance eta_process `{SecpSign} : Eta process := λ p,
  mk_process (p_service p) (p_disc p) (p_key p) (p_pending p).

(** [SecretKey::from_slice] of the [secp256k1] crate. *)
Class SecretKeyBytes `{SecpSign} := secret_key_from_slice : bytes → option SecretKey.

(** The services by the names they log. *)
Inductive Service := SvcRpc | SvcSync | SvcDiscovery | SvcChannel | SvcConsensus.

Section Process.
Context `{TextCodec} `{Json} `{MapIter} `{Hashes} `{SecpSign} `{!SecretKeyBytes}
  `{!Encode TxRaw.t} `{!Encode HeaderRaw.t} `{!Encode Transaction.t} `{!Encode Block.t}
  `{!Decode Block.t} `{!Decode Transaction.t}.
Implicit Types (p : process) (h : handle) (w : world) (cfg : Config.t).

Definition witness_secret_key cfg : option SecretKey :=
  hex ← Config.witness_key cfg;
  match hex_decode (trim_0x hex) with
  | inr bytes => secret_key_from_slice bytes
  | inl _ => None
  end.

(** [Node::run] up to the services: the shared handles over the opened state [w], the pool,
    the peers and the commit handle.  [clock] and [nanos] are what the system clock will give
    discovery and the id generator. *)
Definition boot cfg w (clock : list Z) (nanos : Z) : process :=
  let peers := seeded_peers (Config.seed_nodes cfg) in
  let mempool := Mempool.new DEFAULT_CAPACITY in
  let witness_key := opt_filter (λ _, Config.witness cfg) (witness_secret_key cfg) in
  let handler := set_commit_handle (with_witness witness_key (new_node w mempool true)) in
  let node_id := ephemeral_node_id (Config.p2p_port cfg) nanos in
  mk_process (mk_service (mk_handle handler false) [] ∅)
    (Peers.bind [0; 0; 0; 0] (Config.p2p_port cfg) node_id peers clock) witness_key None.

Definition p_handle p : handle := s_handler (p_service p).
Definition p_node p : NodeChannelHandler := h_node (p_handle p).
Definition p_world p : world := n_world (p_node p).
Definition p_pool p : mutex Mempool.t := mk_mutex (n_mempool (p_node p)) (h_poisoned (p_handle p)).

Definition set_handle (h : handle) p : process := p <| p_service ::= λ s, s <| s_handler := h |> |>.
Definition set_world w p : process :=
  let n := p_node p in set_handle (mk_handle (n <| n_world := w |>) (h_poisoned (p_handle p))) p.
Definition set_pool (m : mutex Mempool.t) p : process :=
  let n := p_node p in set_handle (mk_handle (n <| n_mempool := m_data m |>) (m_poisoned m)) p.

(** What the HTTP server sees: [NodeState::new(state).with_peers(peers).with_mempool(mempool)]. *)
Definition node_state p : NodeState :=
  with_mempool (p_pool p) (with_peers (d_peers (p_disc p)) (new_state (p_world p))).

(** *** The producer (node/src/production.rs with the lock, and its loop in lib.rs) *)

(** [try_produce]: the pool is locked last; a poisoned lock gives no block. *)
Definition try_produce_locked w (m : mutex Mempool.t) (key : SecretKey) (now_ms : Z) :
    res () (option Block.t) * mutex Mempool.t :=
  match produce_context w with
  | None => (Ok None, m)
  | Some (head, genesis_ts, head_ts) =>
      if now_ms <=? genesis_ts then (Ok None, m) else
      let now_slot := slot_of (wrap_u64 now_ms) (wrap_u64 genesis_ts) in
      let head_slot := slot_of (wrap_u64 head_ts) (wrap_u64 genesis_ts) in
      if now_slot <=? head_slot then (Ok None, m) else
      match scheduled_witness (get_active_witnesses w) head_slot (now_slot - head_slot) with
      | Ok (Some scheduled) =>
          let our := address_from_public_key (public_key key) in
          if negb (bool_decide (scheduled = our)) then (Ok None, m) else
          match (off ← mul_i64 (wrap_i64 now_slot) BLOCK_INTERVAL_MS; add_i64 genesis_ts off : res () Z) with
          | Ok block_ts =>
              match lock m with
              | None => (Ok None, m)
              | Some _ =>
                  critical (λ pool,
                    (block ← produce_from_pool head key block_ts pool MAX_BLOCK_TXS BLOCK_VERSION;
                     Ok (Some block), pool)) m
              end
          | _ => (Panic, m)
          end
      | Ok None => (Ok None, m)
      | _ => (Panic, m)
      end
  end.

(** A tick of the production loop; a panic ends its task. *)
Definition tick (key : SecretKey) (now_ms : Z) p : process :=
  let '(r, m) := try_produce_locked (p_world p) (p_pool p) key now_ms in
  let p := set_pool m p in
  match r with
  | Ok block => p <| p_pending := block |>
  | _ => p <| p_key := None |>
  end.

(** The rest of the tick: store the block, index and evict its transactions, announce it and
    commit to it. *)
Definition apply_pending (block : Block.t) p : process :=
  let w := index_block_transactions block (put_block block (p_world p)) in
  let p := set_world w (p <| p_pending := None |>) in
  let p := match lock (p_pool p) with
           | Some pool => set_pool (mutex_new (Mempool.evict_included block pool)) p
           | None => p
           end in
  match header_ts_num block with
  | None => p
  | Some (_, n) =>
      let p := p <| p_service ::= λ s, s <| s_log ::= λ l, l ++ [AdvBlock n] |> |> in
      match block_id_of block with
      | None => p
      | Some id =>
          let h := mk_handle (emit_commit n id (p_node p)) (h_poisoned (p_handle p)) in
          let '(h, commits) := ch_take_commits h in
          set_handle h (p <| p_service ::= λ s, s <| s_log ::= λ l, l ++ (AdvPbftCommit <$> commits) |> |>)
      end
  end.

(** *** Steps *)

Context (connect : PeerAddr → option string) (debug : ChannelError → string).

(** One turn of a service. *)
Inductive node_turn cfg p : Service → process → Prop :=
| step_http path body now r s :
    serve path body now (node_state p) = (r, s) → node_turn cfg p SvcRpc (set_pool (ns_mempool s) p)
| step_channel e r s :
    service_step e (p_service p) = (r, s) → node_turn cfg p SvcChannel (p <| p_service := s |>)
| step_discovery t r d :
    Peers.run_turn t (p_disc p) = (r, d) → node_turn cfg p SvcDiscovery (p <| p_disc := d |>)
| step_sync closed received rest sent r w :
    pruns closed (sync_from_best_peer connect debug (p_world p)
      (seeded_peers (Config.seed_nodes cfg)) false) received (Done (r, w)) rest sent →
    node_turn cfg p SvcSync (set_world w p)
| step_tick key now :
    p_key p = Some key → p_pending p = None → node_turn cfg p SvcConsensus (tick key now p)
| step_apply block :
    p_pending p = Some block → node_turn cfg p SvcConsensus (apply_pending block p).
Definition node_step cfg p p' : Prop := ∃ sv, node_turn cfg p sv p'.

(** The addresses the channel service dials at its start; [parse] is [SocketAddr]'s [FromStr]. *)
Definition dial {SocketAddr} (parse : string → option SocketAddr) (peers : PeerManager.t) : list SocketAddr :=
  filter_map (λ a, parse (host a +:+ ":" +:+ dec (port a))) (PeerManager.addr_list peers).
End Process.

(** ** What the service keeps of its handler *)

Section HandlerInv.
Context {H : Type} `{!ChannelHandler H} (I : H → Prop).
Hypothesis keep_block : ∀ bs h, I h → I (ch_on_block bs h).2.
Hypothesis keep_transaction : ∀ bs now h, I h → I (ch_on_transaction bs now h).2.
Hypothesis keep_commit : ∀ bs h, I h → I (ch_on_pbft_commit bs h).1.
Hypothesis keep_take : ∀ h, I h → I (ch_take_commits h).1.

Abbreviation TI m := (∀ t : task H, I (t_handler t) → I (t_handler (m t).2)).

Lemma keep_bind {A B} (m : ST (task H) ChannelError A) (f : A → ST (task H) ChannelError B) :
  TI m → (∀ a, TI (f a)) → TI (m ≫= f).
Proof.
  intros Hm Hf t Ht. unfold mbind, ST_bind. specialize (Hm t Ht). destruct (m t) as [[a|e|] t']; [|done|done].
  by apply Hf.
Qed.
Lemma keep_write f : TI (peer_write f).
Proof. intros t Ht. unfold peer_write. destruct (c_left (t_conn t)) as [[|n]|]; done. Qed.
Lemma keep_advertise a : TI (advertise a).
Proof. done. Qed.
Lemma keep_with_handler {A} (m : ST H () A) :
  (∀ h, I h → I (m h).2) → TI (with_handler m).
Proof.
  intros Hm t Ht. unfold with_handler. specialize (Hm _ Ht). destruct (m (t_handler t)) as [r h'].
  pose proof (keep_take h' Hm) as Hk. by destruct (ch_take_commits h').
Qed.
Lemma keep_request head ns : TI (request_missing head ns).
Proof.
  induction ns as [|n ns IH]; [done|]. cbn [request_missing]. apply keep_bind; [|done].
  destruct (head <? n); [apply keep_write|done].
Qed.

Lemma keep_handle_frame f now : TI (handle_frame f now).
Proof.
  assert (TI (with_handler (λ h, let '(h, b) := ch_on_pbft_commit (Wire.Frame.payload f) h in (Ok b, h)))).
  { apply keep_with_handler. intros h Hh. pose proof (keep_commit (Wire.Frame.payload f) h Hh) as Hk.
    by destruct (ch_on_pbft_commit _ h). }
  unfold handle_frame. destruct (Wire.Frame.kind f); try exact (λ t Ht, Ht).
  all: try apply keep_write.
  all: try (apply keep_with_handler; by auto).
  all: repeat case_match; try exact (λ t Ht, Ht).
  all: apply keep_bind; [first [done|by (apply keep_with_handler; auto)]|].
  all: intros x; first [apply keep_request|apply keep_write|by destruct x].
Qed.

Lemma keep_or_break (m : ST (task H) ChannelError ()) : TI m → TI (or_break m).
Proof. intros Hm t Ht. unfold or_break. specialize (Hm t Ht). by destruct (m t) as [[]]. Qed.

Lemma keep_turn k now : TI (peer_turn k now).
Proof.
  destruct k as [| | |[f|]]; cbn [peer_turn]; try done.
  - apply keep_or_break, keep_write.
  - apply keep_bind; [done|]. intros adv. apply keep_bind; [done|]. intros _.
    destruct adv.1; try done. apply keep_or_break, keep_write.
  - apply keep_or_break, keep_handle_frame.
Qed.

(** A predicate the handler's methods preserve is kept by every step of the service. *)
Lemma keep_service_step e (s : service H) : I (s_handler s) → I (s_handler (service_step e s).2).
Proof.
  intros Hs. destruct e as [pid writes|pid k now]; cbn [service_step]; [done|].
  destruct (s_peers s !! pid) as [c|]; [|done].
  pose proof (keep_turn k now (mk_task (s_handler s) (s_log s) c) Hs) as Hk.
  by destruct (peer_turn _ _ _) as [[[]| |] t].
Qed.
End HandlerInv.

(** ** The chain a process builds *)

(** The world without its block store and dynamic properties: the ledger. *)
Definition ledger_of (w : world) : world :=
  w <| w_block := ∅ |> <| w_block_index := ∅ |> <| w_transaction := ∅ |> <| w_properties := ∅ |>.
Definition chain_keys : list string :=
  [LATEST_BLOCK_NUMBER; props.LATEST_BLOCK_HEADER_TIMESTAMP; props.LATEST_SOLIDIFIED_BLOCK].

Section Chain.
Context `{Hashes} `{Secp} `{!Encode TxRaw.t} `{!Encode HeaderRaw.t} `{!Encode Transaction.t}.
Implicit Types (w : world) (b : Block.t).

(** The gate of a node: the active set of its state, or none while that is empty. *)
Definition active_gate w : option (list bytes) :=
  if bool_decide (get_active_witnesses w = []) then None else Some (get_active_witnesses w).
(** [b] is a block of height [n] the intake gate of [w0] lets through. *)
Definition valid_at w0 (n : Z) b : Prop := block_number b = n ∧ passes false (active_gate w0) b.

(** [w] is [w0] with valid blocks stored above its head. *)
Record extends w0 w : Prop := {
  ext_ledger : ledger_of w = ledger_of w0;
  ext_props : ∀ k, k ∉ chain_keys → get_prop_i64 k w = get_prop_i64 k w0;
  ext_active : get_active_witnesses w = get_active_witnesses w0;
  ext_head : head_of w0 ≤ head_of w;
  ext_old : ∀ n, is_i64 n → n ≤ head_of w0 → get_block_by_num n w = get_block_by_num n w0;
  ext_new : ∀ n, head_of w0 < n ≤ head_of w → ∃ b, get_block_by_num n w = Some b ∧ valid_at w0 n b;
}.

Lemma extends_refl w : extends w w.
Proof. split; [done|done|done|done|done|]. intros n Hn. exfalso. lia. Qed.

Lemma extends_head_block w0 w b :
  numbered w0 → extends w0 w → get_now_block w = Some b → block_number b = head_of w.
Proof.
  intros Hn He Hb. pose proof (get_prop_is_i64 LATEST_BLOCK_NUMBER w) as Hi.
  unfold get_now_block in Hb. destruct (decide (head_of w = head_of w0)) as [E|E].
  - rewrite (ext_old _ _ He) in Hb by (lia || done). rewrite E in Hb |- *. by apply Hn.
  - pose proof (ext_head _ _ He). destruct (ext_new _ _ He (head_of w)) as (b' & Hb' & Hv & _); [lia|].
    congruence.
Qed.

Lemma ledger_put_block b w : ledger_of (put_block b w) = ledger_of w.
Proof. unfold put_block, ledger_of. by destruct (block_id_of b), (_ <=? _), (header_raw b). Qed.

(** Storing a valid block at the next height, or over a block of the extension. *)
Lemma extends_put_block w0 w b n :
  extends w0 w → valid_at w0 n b → is_i64 n → head_of w0 < n ≤ head_of w + 1 →
  extends w0 (put_block b w).
Proof.
  intros He [Hn Hv] Hi Hle. assert (is_i64 (block_number b)) as Hib by by rewrite Hn.
  pose proof (put_block_head b w Hib) as Hh. split.
  - rewrite ledger_put_block. apply He.
  - intros k Hk. rewrite put_block_props, <-(ext_props _ _ He k Hk). unfold chain_keys in Hk.
    rewrite !not_elem_of_cons in Hk. rewrite !bool_decide_eq_false_2 by tauto.
    by destruct (_ <=? _).
  - rewrite put_block_active. apply He.
  - pose proof (ext_head _ _ He). lia.
  - intros m Hm Hle'. rewrite put_block_lookup_ne by (done || lia). by apply He.
  - intros m Hm. destruct (decide (m = block_number b)) as [->|Hne].
    + exists b. split; [apply put_block_lookup_eq|]. by split.
    + rewrite put_block_lookup_ne; [|done| |done].
      * apply He. lia.
      * pose proof (get_prop_is_i64 LATEST_BLOCK_NUMBER w).
        pose proof (get_prop_is_i64 LATEST_BLOCK_NUMBER w0). i64_lia.
Qed.

(** Any change outside the blocks and the other properties. *)
Lemma extends_frame w0 w w' :
  extends w0 w → ledger_of w' = ledger_of w → w_block w' = w_block w →
  (∀ k, k ≠ props.LATEST_SOLIDIFIED_BLOCK → w_properties w' !! k = w_properties w !! k) →
  extends w0 w'.
Proof.
  intros He Hl Hb Hp.
  assert (∀ k, k ≠ props.LATEST_SOLIDIFIED_BLOCK → get_prop_i64 k w' = get_prop_i64 k w) as Hg
    by (intros k Hk; unfold get_prop_i64; by rewrite Hp).
  split.
  - rewrite Hl. apply He.
  - intros k Hk. rewrite Hg; [by apply He|]. unfold chain_keys in Hk. set_solver.
  - unfold get_active_witnesses. rewrite Hp by done. apply He.
  - rewrite Hg by done. apply He.
  - intros n Hn Hle. unfold get_block_by_num. rewrite Hb. by apply (ext_old _ _ He).
  - rewrite Hg by done. intros n Hn. unfold get_block_by_num. rewrite Hb. by apply (ext_new _ _ He).
Qed.

Lemma extends_solidified w0 w n : extends w0 w → extends w0 (put_solidified_block n w).
Proof.
  intros He. eapply extends_frame; [done|done|done|]. intros k Hk.
  unfold put_solidified_block, put_prop_i64. by apply lookup_insert_ne.
Qed.

Lemma extends_index w0 w b : extends w0 w → extends w0 (index_block_transactions b w).
Proof.
  intros He. unfold index_block_transactions. revert w He.
  induction (Block.transactions b) as [|tx txs IH]; intros w He; [done|]. cbn [foldl].
  apply IH. by eapply extends_frame.
Qed.

Lemma extends_stored sig w0 w bl w' :
  extends w0 w → stored sig (active_gate w0) w bl w' → extends w0 w'.
Proof.
  revert w. induction bl as [|b bl IH]; intros w He; cbn [stored]; [by intros ->|].
  intros (Hv%passes_weaken & Hn & Hi & Hs). eapply IH; [|done].
  eapply (extends_put_block w0 w b (head_of w + 1)); try done. pose proof (ext_head _ _ He). lia.
Qed.
Lemma extends_gate w0 w : extends w0 w → active_gate w = active_gate w0.
Proof. intros He. unfold active_gate. by rewrite (ext_active _ _ He). Qed.

Context `{!Decode Block.t}.
Lemma extends_synced w0 w blocks sig r w' :
  extends w0 w → apply_synced_blocks_gated blocks sig (active_gate w0) w = (r, w') →
  extends w0 w'.
Proof.
  intros He E. apply apply_synced_loop_spec in E as (bl & _ & Hs & _). by eapply extends_stored.
Qed.
End Chain.

Section ProcessInv.
Context `{TextCodec} `{Json} `{MapIterLaws} `{HashLaws} `{SecpLaws} `{!SecretKeyBytes}
  `{!Encode TxRaw.t} `{!Encode HeaderRaw.t} `{!Encode Transaction.t} `{!Encode Block.t}
  `{!Decode Block.t} `{!Decode Transaction.t}.
Context (w0 : world) (Hgenesis : 0 ≤ head_of w0) (Hnumbered : numbered w0).
Implicit Types (p : process) (h : handle) (n : NodeChannelHandler) (w : world).

(** The node extends the chain it started from, to height [k] at least, and its pool is a
    run of pool operations. *)
Record good (k : Z) n : Prop := {
  good_chain : extends w0 (n_world n);
  good_pool : pool_reach DEFAULT_CAPACITY (n_mempool n);
  good_height : k ≤ head_of (n_world n);
}.

Lemma good_commit k bs n : good k n → good k (on_pbft_commit bs n).1.
Proof.
  intros [Hc Hp Hh]. pose proof (on_pbft_commit_handled bs n) as Hs.
  destruct (on_pbft_commit bs n) as [n' b] eqn:E. destruct Hs as (_ & Hhead & _). cbn [fst].
  assert (n_mempool n' = n_mempool n ∧ (n_world n' = n_world n ∨
    ∃ s, n_world n' = put_solidified_block s (n_world n))) as [Em Ew].
  { unfold on_pbft_commit in E. repeat case_match; simplify_eq/=; eauto. }
  split; [|by rewrite Em|unfold Node.head in Hhead; by rewrite Hhead].
  destruct Ew as [->|[s ->]]; [done|by apply extends_solidified].
Qed.

Lemma good_out k n out : good k n → good k (n <| n_commit_out := out |>).
Proof. by intros []. Qed.

Lemma good_emit k num i n : good k n → good k (emit_commit num i n).
Proof.
  intros Hg. unfold emit_commit. destruct (n_witness n) as [c|]; [|done].
  destruct (negb _); [done|]. destruct (negb _); [done|].
  destruct (good_commit k (own_commit c num i) n Hg). by split.
Qed.

Lemma good_world k n w : good k n → extends w0 w → head_of (n_world n) ≤ head_of w → good k (n <| n_world := w |>).
Proof. intros [] ? ?. split; [done|done|]. cbn. lia. Qed.

Lemma good_synced k blocks sig n r w :
  good k n → apply_synced_blocks_gated blocks sig (active_gate (n_world n)) (n_world n) = (r, w) →
  good k (n <| n_world := w |>).
Proof.
  intros Hg E. pose proof (good_chain _ _ Hg) as Hc. rewrite (extends_gate _ _ Hc) in E.
  apply good_world; [done|by eapply extends_synced|].
  apply apply_synced_loop_spec in E as (bl & _ & Hs & _). apply stored_head in Hs. lia.
Qed.

Lemma good_block k bs n : good k n → good k (on_block bs n).2.
Proof.
  intros Hg. unfold on_block. cbv zeta.
  destruct (apply_synced_blocks_gated _ _ _ _) as [r w] eqn:E.
  assert (good k (n <| n_world := w |>)) as Hw.
  { by eapply (good_synced k [bs] (n_require_sig n) n r w). }
  clear E. destruct r as [a| |]; [|done|done]. destruct (bool_decide (1 ≤ a)%nat); [|done]. cbn [snd].
  destruct (decode bs) as [|block]; [done|].
  destruct (header_raw block), (block_id_of block); try done. by apply good_emit.
Qed.

Lemma good_admit k w tx now n validate :
  good k n → good k (n <| n_mempool := (admit_transaction w tx now validate (n_mempool n)).2 |>).
Proof. intros [Hc Hp Hh]. split; [done| |done]. by apply reach_admit. Qed.

Lemma good_transaction k bs now n : good k n → good k (on_transaction bs now n).2.
Proof. intros Hg. unfold on_transaction. destruct (decode bs); [done|]. by apply good_admit. Qed.

Abbreviation good_handle k := (λ h, good k (h_node h)).

Lemma good_service k e s : good k (h_node (s_handler s)) → good k (h_node (s_handler (service_step e s).2)).
Proof.
  apply (keep_service_step (good_handle k)).
  - intros bs h Hh. cbn. unfold on_node. pose proof (good_block k bs _ Hh) as Hb.
    by destruct (on_block bs (h_node h)).
  - intros bs now h Hh. cbn. unfold locked_on_transaction. destruct (h_poisoned h); [done|].
    pose proof (good_transaction k bs now _ Hh) as Hb. by destruct (on_transaction bs now (h_node h)).
  - intros bs h Hh. cbn. pose proof (good_commit k bs _ Hh) as Hb. by destruct (on_pbft_commit bs (h_node h)).
  - intros h Hh. cbn. destruct (n_commit_out (h_node h)); [by apply good_out|done].
Qed.

(** The block the producer holds can be stored. *)
Definition pending_ok p : Prop :=
  ∀ b, p_pending p = Some b → ∃ m, valid_at w0 m b ∧ is_i64 m ∧ head_of w0 < m ≤ head_of (p_world p) + 1.
Definition process_inv p : Prop := good (head_of w0) (p_node p) ∧ pending_ok p.

Lemma no_pending p : p_pending p = None → pending_ok p.
Proof. intros Hn b Hb. congruence. Qed.

Lemma pending_mono p p' :
  p_pending p' = p_pending p → head_of (p_world p) ≤ head_of (p_world p') → pending_ok p → pending_ok p'.
Proof.
  intros Ep Hh Hp b Hb. rewrite Ep in Hb. destruct (Hp b Hb) as (m & ? & ? & ?).
  exists m. split_and!; [done|done|lia|lia].
Qed.

Lemma try_produce_locked_spec w m key now block m' :
  try_produce_locked w m key now = (Ok (Some block), m') →
  m' = m ∧ try_produce w (m_data m) key now = Ok (Some block).
Proof.
  unfold try_produce_locked, try_produce. destruct (produce_context w) as [[[hd g] ht]|]; [|done].
  destruct (now <=? g); [done|]. cbv zeta. destruct (_ <=? _); [done|].
  destruct (scheduled_witness _ _ _) as [[a|]| |]; [|done..].
  unfold mbind, res_bind.
  destruct (decide (a = address_from_public_key (public_key key))) as [Ea|Ea];
    [rewrite !bool_decide_eq_true_2 by done|by rewrite bool_decide_eq_false_2 by done]. cbn [negb].
  destruct (mul_i64 _ _) as [off| |]; [|done..]. destruct (add_i64 _ _) as [ts| |]; [|done..].
  unfold lock, critical. destruct m as [pool [|]]; [done|]. cbn [m_data m_poisoned].
  destruct (produce_from_pool _ _ _ _ _ _); [|done..]. intros [= -> <-]. by split.
Qed.

(** A tick whose block is not there yet changes the pool's lock at most. *)
Lemma try_produce_locked_pool w m key now r m' :
  try_produce_locked w m key now = (r, m') → m_data m' = m_data m.
Proof.
  unfold try_produce_locked. destruct (produce_context w) as [[[hd g] ht]|]; [|by intros [= _ <-]].
  destruct (now <=? g); [by intros [= _ <-]|]. cbv zeta. destruct (_ <=? _); [by intros [= _ <-]|].
  destruct (scheduled_witness _ _ _) as [[a|]| |]; try by intros [= _ <-].
  destruct (negb _); [by intros [= _ <-]|].
  destruct (mul_i64 _ _ ≫= _); try by intros [= _ <-].
  unfold lock, critical. destruct (m_poisoned m); by intros [= _ <-].
Qed.

(** The block a tick builds continues the head of the world it read. *)
Lemma produced_pending w pool key now block :
  extends w0 w → try_produce w pool key now = Ok (Some block) →
  valid_at w0 (head_of w + 1) block ∧ is_i64 (head_of w + 1).
Proof.
  intros He E. pose proof (get_prop_is_i64 LATEST_BLOCK_NUMBER w) as Hi.
  apply try_produce_inv in E as (hd & g & ht & P).
  pose proof (scheduled_witness_active _ _ _ _ (prod_turn _ _ _ _ _ _ _ _ P)) as Hw.
  destruct (prod_block _ _ _ _ _ _ _ _ P) as [ts Eb].
  assert (Eh : block_number hd = head_of w).
  { pose proof (prod_context _ _ _ _ _ _ _ _ P) as Ec. unfold produce_context in Ec.
    apply (extends_head_block w0); [done..|]. destruct (get_now_block w) as [b|]; [|done]. simpl in Ec.
    repeat case_match; simplify_option_eq; done. }
  rewrite (ext_active _ _ He) in Hw.
  destruct (produce_block_intake _ _ _ _ _ _ _ ltac:(by rewrite Eh) Hw Eb) as (raw & Hok & En & Hin & _).
  rewrite Eh in En. rewrite <-En. split; [|done].
  split; [unfold block_number; by rewrite (gate_raw _ _ _ _ Hok)|].
  unfold active_gate. rewrite bool_decide_eq_false_2; [by exists raw, (address_from_public_key (public_key key))|].
  intros E0. rewrite E0 in Hw. by apply elem_of_nil in Hw.
Qed.

Lemma good_set_pool k p m :
  good k (p_node p) → pool_reach DEFAULT_CAPACITY (m_data m) → good k (p_node (set_pool m p)).
Proof. by intros [Hc Hp Hh] Hm. Qed.

Lemma good_set_world k p w :
  good k (p_node p) → extends w0 w → head_of (p_world p) ≤ head_of w → good k (p_node (set_world w p)).
Proof. intros Hg He Hh. by apply (good_world k (p_node p)). Qed.

Lemma tick_inv key now p : p_pending p = None → process_inv p → process_inv (tick key now p).
Proof.
  intros Hnone [Hg Hp]. unfold tick. destruct (try_produce_locked _ _ _ _) as [r m] eqn:E.
  pose proof (try_produce_locked_pool _ _ _ _ _ _ E) as Em.
  assert (good (head_of w0) (p_node (set_pool m p))) as Hg'.
  { apply good_set_pool; [done|]. rewrite Em. apply Hg. }
  destruct r as [ob| |]; (split; [done|]); intros b Hb; cbn in Hb; [|congruence..].
  subst ob. apply try_produce_locked_spec in E as [-> E].
  apply produced_pending in E as [Hv Hi]; [|apply Hg].
  exists (head_of (p_world p) + 1). split_and!; [done|done| |].
  - pose proof (ext_head _ _ (good_chain _ _ Hg)). unfold p_world. lia.
  - change (p_world _) with (p_world p) at 2. lia.
Qed.

Lemma put_block_grows b w : is_i64 (block_number b) → head_of w ≤ head_of (put_block b w).
Proof. intros Hi. rewrite put_block_head by done. lia. Qed.

Lemma index_head b w : head_of (index_block_transactions b w) = head_of w.
Proof.
  unfold index_block_transactions. revert w.
  induction (Block.transactions b) as [|tx txs IH]; intros w; [done|]. cbn [foldl]. by rewrite IH.
Qed.

Lemma apply_inv block p : p_pending p = Some block → process_inv p → process_inv (apply_pending block p).
Proof.
  intros Hb [Hg Hp]. destruct (Hp block Hb) as (m & Hv & Hi & Hm).
  pose proof (good_chain _ _ Hg) as Hc. unfold apply_pending.
  set (w := index_block_transactions block (put_block block (p_world p))).
  assert (extends w0 w) as Hw by (by eapply extends_index, extends_put_block).
  assert (head_of (p_world p) ≤ head_of w) as Hh.
  { unfold w. rewrite index_head. apply put_block_grows. by rewrite (proj1 Hv). }
  set (p1 := set_world w (p <| p_pending := None |>)).
  assert (good (head_of w0) (p_node p1)) as Hg1 by (by apply good_set_world).
  set (p2 := match lock (p_pool p1) with Some pool => _ | None => p1 end).
  assert (good (head_of w0) (p_node p2) ∧ p_pending p2 = None) as [Hg2 Hn2].
  { unfold p2, lock. destruct (m_poisoned (p_pool p1)); (split; [|done]); [done|].
    apply good_set_pool; [done|]. apply reach_included, Hg1. }
  clearbody p2. destruct (header_ts_num block) as [[ts n]|]; [|by split; [|apply no_pending]].
  destruct (block_id_of block) as [id|]; [|by split; [|apply no_pending]].
  set (h := mk_handle _ _). assert (good (head_of w0) (h_node h)) as Hgh by (by apply good_emit).
  clearbody h. cbn. destruct (n_commit_out (h_node h)) as [out|].
  all: split; [first [by apply good_out|done]|by apply no_pending].
Qed.

Context (connect : PeerAddr → option string) (debug : ChannelError → string).

Lemma step_inv cfg p p' : node_step connect debug cfg p p' → process_inv p → process_inv p'.
Proof.
  intros [sv Hs] Hi. pose proof Hi as [Hg Hp]. destruct Hs as [path body now r s E|e r s E|t r d E|closed rc rest sent r w E|key now Hk Hn|block Hb].
  - pose proof (serve_effect path body now (node_state p)) as (_ & _ & Hgrew). rewrite E in Hgrew.
    split; [|done]. apply good_set_pool; [done|]. apply (grew_reach _ _ _ Hgrew), Hg.
  - pose proof (good_service (head_of (p_world p)) e (p_service p)) as Hs. rewrite E in Hs.
    destruct Hs as [Hc Hpl Hh]; [by destruct Hg|]. split.
    + split; [done|done|]. apply (ext_head _ _ Hc).
    + by apply (pending_mono p).
  - done.
  - rewrite sync_service_idle in E.
    + inversion E; subst; [|done]. split; [|done]. apply good_set_world; [done|apply Hg|done].
    + pose proof (ext_head _ _ (good_chain _ _ Hg)). unfold p_world. lia.
  - by apply tick_inv.
  - by apply apply_inv.
Qed.

Lemma boot_inv cfg clock nanos : process_inv (boot cfg w0 clock nanos).
Proof.
  split; [|done]. split; [apply extends_refl|apply reach_new|done].
Qed.

(** C14: the chain of a running node is valid.  Let a node start on a state [w0] whose head
    number is not negative and whose head block, if there is one, carries that number; an
    empty store is such a state.  Whatever requests, frames, datagrams and ticks the node
    meets, in whatever order its services take their turns, the blocks of its starting chain
    stay as they were, and every height above it up to the head holds a block with that number
    which passes the gate of [w0]: it carries the root of its transactions, names the height
    before it as its parent if its parent hash has 32 bytes, and is signed by the active
    witness it names; while [w0] has no active witnesses, it is signed by the witness it
    names, whoever that is, or not signed.  The accounts and every other part of the ledger
    are as at the start, and the pool is a run of pool operations within its capacity. *)
Theorem node_chain_valid cfg clock nanos p :
  rtc (node_step connect debug cfg) (boot cfg w0 clock nanos) p →
  extends w0 (p_world p) ∧ pool_reach DEFAULT_CAPACITY (m_data (p_pool p)) ∧
  ∀ b, p_pending p = Some b → ∃ m, valid_at w0 m b ∧ head_of w0 < m ≤ head_of (p_world p) + 1.
Proof.
  intros Hr. assert (process_inv p) as [[Hc Hp _] Hb].
  { pose proof (boot_inv cfg clock nanos) as Hi. revert Hi.
    induction Hr as [|p1 p2 p3 Hs _ IH]; [done|]. intros Hi. by eapply IH, step_inv. }
  split_and!; [done|done|]. intros b E. destruct (Hb b E) as (m & ? & _ & ?). eauto.
Qed.
End ProcessInv.

(** ** Storing the produced block *)

Section Store.
Context `{Hashes} `{SecpSign} `{!Encode TxRaw.t} `{!Encode HeaderRaw.t} `{!Encode Transaction.t}
  `{!Encode Block.t} `{!Decode Block.t} `{!Decode Transaction.t}.

Lemma index_blocks b w n : get_block_by_num n (index_block_transactions b w) = get_block_by_num n w.
Proof.
  unfold index_block_transactions. revert w.
  induction (Block.transactions b) as [|tx txs IH]; intros w; [done|]. cbn [foldl]. by rewrite IH.
Qed.

Lemma emit_commit_world num i (n : NodeChannelHandler) m :
  get_block_by_num m (n_world (emit_commit num i n)) = get_block_by_num m (n_world n).
Proof.
  unfold emit_commit. destruct (n_witness n) as [c|]; [|done]. destruct (negb _); [done|]. destruct (negb _); [done|].
  cbn. unfold on_pbft_commit. by repeat case_match; simplify_eq/=.
Qed.

(** The producer stores its block whatever its height holds by then: a block of a peer that
    the channel service stored since the tick is replaced, although it passed the same gate
    and may have been committed to. *)
Lemma apply_pending_replaces block (p : process) :
  get_block_by_num (block_number block) (p_world (apply_pending block p)) = Some block.
Proof.
  assert (∀ w, get_block_by_num (block_number block) (index_block_transactions block (put_block block w)) = Some block) as Hw
    by (intros w; rewrite index_blocks; apply put_block_lookup_eq).
  unfold apply_pending, lock. destruct (m_poisoned _).
  all: destruct (header_ts_num block) as [[ts n]|]; [|apply Hw].
  all: destruct (block_id_of block) as [id|]; [|apply Hw].
  all: set (h := mk_handle _ _).
  all: assert (get_block_by_num (block_number block) (n_world (h_node h)) = Some block) as Hh
    by (cbn [h h_node]; rewrite emit_commit_world; apply Hw).
  all: clearbody h; cbn; by destruct (n_commit_out (h_node h)).
Qed.
End Store.

(** ** A panic under the pool's lock *)

Section Poison.
Context `{TextCodec} `{Json} `{MapIter} `{Hashes} `{SecpSign} `{!SecretKeyBytes}
  `{!Encode TxRaw.t} `{!Encode HeaderRaw.t} `{!Encode Transaction.t} `{!Encode Block.t}
  `{!Decode Block.t} `{!Decode Transaction.t}.
Implicit Types (p : process) (h : handle) (n : NodeChannelHandler) (pool : Mempool.t).

Lemma on_pbft_commit_pool bs n : n_mempool (on_pbft_commit bs n).1 = n_mempool n.
Proof. unfold on_pbft_commit. by repeat case_match; simplify_eq/=. Qed.

Lemma emit_commit_pool num i n : n_mempool (emit_commit num i n) = n_mempool n.
Proof.
  unfold emit_commit. destruct (n_witness n); [|done]. destruct (negb _); [done|]. destruct (negb _); [done|].
  apply on_pbft_commit_pool.
Qed.

Lemma on_block_pool bs n : n_mempool (on_block bs n).2 = n_mempool n.
Proof.
  unfold on_block. cbv zeta. destruct (apply_synced_blocks_gated _ _ _ _) as [[a| |] w]; [|done|done].
  destruct (bool_decide (1 ≤ a)%nat); [|done]. cbn [snd].
  destruct (decode bs) as [|block]; [done|].
  destruct (header_raw block), (block_id_of block); try done. by rewrite emit_commit_pool.
Qed.

(** The lock of the pool is poisoned and the pool is as it was. *)
Definition stuck pool h : Prop := h_poisoned h = true ∧ n_mempool (h_node h) = pool.

Lemma stuck_service pool e (s : service handle) :
  stuck pool (s_handler s) → stuck pool (s_handler (service_step e s).2).
Proof.
  apply keep_service_step.
  - intros bs h [Hp <-]. cbn. unfold on_node. pose proof (on_block_pool bs (h_node h)) as E.
    by destruct (on_block bs (h_node h)).
  - intros bs now h [Hp <-]. cbn. unfold locked_on_transaction. by rewrite Hp.
  - intros bs h [Hp <-]. cbn. pose proof (on_pbft_commit_pool bs (h_node h)) as E.
    by destruct (on_pbft_commit bs (h_node h)).
  - intros h [Hp <-]. cbn. by destruct (n_commit_out (h_node h)).
Qed.

Lemma try_produce_locked_stuck w m key now r m' :
  m_poisoned m = true → try_produce_locked w m key now = (r, m') →
  m' = m ∧ ∀ b, r ≠ Ok (Some b).
Proof.
  intros Hm. unfold try_produce_locked, lock. rewrite Hm.
  destruct (produce_context w) as [[[hd g] ht]|]; [|by intros [= <- <-]].
  destruct (now <=? g); [by intros [= <- <-]|]. cbv zeta. destruct (_ <=? _); [by intros [= <- <-]|].
  destruct (scheduled_witness _ _ _) as [[a|]| |]; try by intros [= <- <-].
  destruct (negb _); [by intros [= <- <-]|].
  by destruct (mul_i64 _ _ ≫= _); intros [= <- <-].
Qed.

Lemma apply_pending_stuck pool block p :
  stuck pool (p_handle p) →
  stuck pool (p_handle (apply_pending block p)) ∧ p_pending (apply_pending block p) = None.
Proof.
  intros Hi. unfold apply_pending, lock.
  change (m_poisoned _) with (h_poisoned (p_handle p)). rewrite (proj1 Hi).
  destruct (header_ts_num block) as [[ts n]|]; [|done].
  destruct (block_id_of block) as [id|]; [|done].
  set (h := mk_handle _ _).
  assert (stuck pool h) as Hh by (split; [apply Hi|]; cbn; rewrite emit_commit_pool; apply Hi).
  clearbody h. cbn. by destruct (n_commit_out (h_node h)).
Qed.

Context (connect : PeerAddr → option string) (debug : ChannelError → string).

Lemma stuck_step cfg pool p p' :
  node_step connect debug cfg p p' → stuck pool (p_handle p) →
  stuck pool (p_handle p') ∧ (p_pending p = None → p_pending p' = None).
Proof.
  intros [sv Hs] Hi. destruct Hs as [path body now r s E|e r s E|t r d E|closed rc rest sent r w E|key now Hk Hn|block Hb].
  - pose proof (serve_effect path body now (node_state p)) as (_ & _ & Hgrew). rewrite E in Hgrew.
    pose proof (grew_poisoned _ _ _ Hgrew (proj1 Hi)) as Em. cbn [snd] in Em. rewrite Em. done.
  - pose proof (stuck_service pool e (p_service p) Hi) as Hs. by rewrite E in Hs.
  - done.
  - done.
  - unfold tick. destruct (try_produce_locked _ _ _ _) as [r m] eqn:E.
    apply try_produce_locked_stuck in E as [-> Hr]; [|apply Hi].
    destruct r as [[b|]| |]; [by destruct (Hr b)|done..].
  - pose proof (apply_pending_stuck pool block p Hi) as [Hs Hp]. by rewrite Hp.
Qed.

(** C39: a panic under the pool's lock is for ever.  Once the lock is poisoned, no request,
    frame or tick admits a transaction or evicts one, and a node that has no block ready to
    store never produces one again: the node keeps serving with the pool it had. *)
Theorem poison_is_forever cfg p p' :
  h_poisoned (p_handle p) = true → rtc (node_step connect debug cfg) p p' →
  p_pool p' = p_pool p ∧ (p_pending p = None → p_pending p' = None).
Proof.
  intros Hp Hr. assert (stuck (n_mempool (p_node p)) (p_handle p)) as Hs by done.
  assert (stuck (n_mempool (p_node p)) (p_handle p') ∧ (p_pending p = None → p_pending p' = None)) as [[Hp' Hm] Hn].
  { generalize dependent (n_mempool (p_node p)). intros pool Hs. clear Hp.
    induction Hr as [p|p1 p2 p3 Hst _ IH]; [done|].
    destruct (stuck_step _ _ _ _ Hst Hs) as [Hs2 Hn2]. destruct (IH Hs2). auto. }
  split; [|done]. unfold p_pool, p_node in *. by rewrite Hp, Hp', Hm.
Qed.
End Poison.

(** ** Samples *)

(** A witness node with key 7 on the chain of its genesis block. *)
Module ProcessSample.
Import TextSample IntakeSample ServerSample.
#[export] Instance iter_laws : MapIterLaws.
Proof. by intros m. Qed.
#[export] Instance secret_key : SecretKeyBytes := λ bs,
  match bs with [b] => Some (Z.to_nat b) | _ => None end.
Definition config : Config.t :=
  Config.default <| Config.witness := true |> <| Config.witness_key := Some "0x07" |>.
Definition start : process := boot config world0 [] 0.
Definition connect (_ : PeerAddr) : option string := Some "unreachable"%string.
Definition debug (_ : ChannelError) : string := "error".
Definition attack : response * NodeState :=
  serve "/wallet/broadcasthex" (Some (broadcast "02ff")) 1000 (node_state start).
Definition attacked : process := set_pool (ns_mempool attack.2) start.
Definition ticked (p : process) : process := tick key 7000 p.
Definition block1 : Block.t := Eval vm_compute in default (BlockSample.block 0 0) (p_pending (ticked start)).
End ProcessSample.
Import TextSample IntakeSample ServerSample ProcessSample.

(** The node produces block 1 and stores it. *)
Lemma node_chain_valid_witness :
  let p := apply_pending block1 (ticked start) in
  extends world0 (p_world p) ∧ get_prop_i64 LATEST_BLOCK_NUMBER (p_world p) = 1.
Proof.
  split; [|by vm_compute].
  refine (proj1 (node_chain_valid world0 _ _ connect debug config [] 0 _ _)).
  - by vm_compute.
  - intros b. vm_compute. by intros [= <-].
  - eapply rtc_l; [by eexists; apply (step_tick _ _ config start key 7000)|].
    apply rtc_once. eexists. by apply step_apply; vm_compute.
Defined.

(** One crafted broadcast, and the witness no longer produces the block it would have. *)
Lemma poison_is_forever_witness :
  rtc (node_step connect debug config) start attacked ∧
  p_pending (ticked start) = Some block1 ∧
  p_pool (ticked attacked) = p_pool attacked ∧ p_pending (ticked attacked) = None.
Proof.
  split_and!; [|by vm_compute|..].
  - apply rtc_once. eexists. eapply (step_http _ _ config start). apply surjective_pairing.
  - eapply (poison_is_forever connect debug config attacked (ticked attacked)); [by vm_compute|].
    apply rtc_once. eexists. by apply step_tick.
  - eapply (poison_is_forever connect debug config attacked (ticked attacked)); [by vm_compute| |done].
    apply rtc_once. eexists. by apply step_tick.
Defined.

(** Nothing in the process installs a genesis: a node that opens an empty store has no active
    witnesses, so it stores the block of whoever signed it and produces none itself. *)
Lemma fresh_node_unguarded :
  let n := p_node (boot config empty_world [] 0) in
  active n = [] ∧ (on_block (i64_to_be_bytes 1) n).1 = Ok (Some 1) ∧
  p_pending (ticked (boot config empty_world [] 0)) = None.
Proof. split_and!; by vm_compute. Qed.
