(* ===== verification/Fixture.v ===== *)
(** * Pre-state fixtures (verify/src/lib.rs, verify/src/bin/capture_contract_case.rs)

    The differential tests keep the state a contract call read in a file format of their own.
    This file has the writer and the cursor-based reader of that format, and the capture of a
    token transfer's pre-state from an archive node, whose answers are a parameter.  It shows
    that the reader accepts exactly the writer's output, whatever follows it, and that what a
    capture records are the slots the transfer touched. *)

From stdpp Require Import gmap strings pretty numbers fin_maps prelude.
From S2P Require Import Prelude Types Proto Chain.
Open Scope Z_scope.

Inductive FixtureError := BadMagic | Truncated | NotUtf8.

(** [String::from_utf8]: the well-formed byte sequences of UTF-8. *)
Definition cont (b : Z) : bool := (128 <=? b) && (b <=? 191).
Fixpoint utf8 (bs : bytes) : bool :=
  match bs with
  | [] => true
  | b :: r =>
      if b <=? 127 then utf8 r else
      match r with
      | c :: r1 =>
          if (194 <=? b) && (b <=? 223) then cont c && utf8 r1 else
          match r1 with
          | d :: r2 =>
              if (224 <=? b) && (b <=? 239) then
                cont c && cont d && implb (b =? 224) (160 <=? c) && implb (b =? 237) (c <=? 159) && utf8 r2
              else
              match r2 with
              | e :: r3 =>
                  (240 <=? b) && (b <=? 244) && cont c && cont d && cont e &&
                  implb (b =? 240) (144 <=? c) && implb (b =? 244) (c <=? 143) && utf8 r3
              | [] => false
              end
          | [] => false
          end
      | [] => false
      end
  end.

(** ** The cursor *)

Record Cursor := mk_cursor { c_b : bytes; c_pos : nat }.

Module Cursor.
Definition take (n : nat) : ST Cursor FixtureError bytes := λ c,
  if (c_pos c + n <=? length (c_b c))%nat
  then (Ok (take n (drop (c_pos c) (c_b c))), mk_cursor (c_b c) (c_pos c + n))
  else (Err Truncated, c).
Definition u8 : ST Cursor FixtureError Z :=
  x ← take 1; lift match x with b :: _ => Ok b | [] => Panic end.
End Cursor.

(** ** The format *)

(** The text of [source] is its UTF-8 bytes. *)
Module PreState.
Record t := mk {
  contract : bytes;
  block_number : Z;
  storage : list (bytes * bytes);
  accounts : list (bytes * Z);
  source : bytes
}.
Definition MAGIC : bytes := [84; 80; 83; 49].

Definition put_slot (e : bytes * bytes) : bytes := e.1 ++ e.2.
Definition put_account (e : bytes * Z) : bytes :=
  to_be_bytes 1 (Z.of_nat (length e.1)) ++ e.1 ++ i64_to_be_bytes e.2.
Definition encode (p : t) : bytes :=
  MAGIC ++ to_be_bytes 1 (Z.of_nat (length (contract p))) ++ contract p ++
  i64_to_be_bytes (block_number p) ++
  to_be_bytes 2 (Z.of_nat (length (source p))) ++ source p ++
  to_be_bytes 4 (Z.of_nat (length (storage p))) ++ concat (put_slot <$> storage p) ++
  to_be_bytes 4 (Z.of_nat (length (accounts p))) ++ concat (put_account <$> accounts p).

Definition take_slot : ST Cursor FixtureError (bytes * bytes) :=
  slot ← Cursor.take 32; value ← Cursor.take 32; mret (slot, value).
Definition take_account : ST Cursor FixtureError (bytes * Z) :=
  alen ← Cursor.u8;
  addr ← Cursor.take (Z.to_nat alen);
  bal ← Cursor.take 8;
  mret (addr, i64_from_be_bytes bal).
Fixpoint repeat_take {A} (n : nat) (m : ST Cursor FixtureError A) : ST Cursor FixtureError (list A) :=
  match n with
  | O => mret []
  | S n => x ← m; l ← repeat_take n m; mret (x :: l)
  end.

Definition read : ST Cursor FixtureError t :=
  magic ← Cursor.take 4;
  _ ← lift (guard_or BadMagic (bool_decide (magic = MAGIC)));
  clen ← Cursor.u8;
  contract ← Cursor.take (Z.to_nat clen);
  num ← Cursor.take 8;
  slen ← Cursor.take 2;
  source ← Cursor.take (Z.to_nat (from_be_unsigned slen));
  _ ← lift (guard_or NotUtf8 (utf8 source));
  scount ← Cursor.take 4;
  storage ← repeat_take (Z.to_nat (from_be_unsigned scount)) take_slot;
  acount ← Cursor.take 4;
  accounts ← repeat_take (Z.to_nat (from_be_unsigned acount)) take_account;
  mret (mk contract (i64_from_be_bytes num) storage accounts source).
Definition decode (bs : bytes) : res FixtureError t := (read (mk_cursor bs 0)).1.
End PreState.

(** ** What a parser accepts *)

Section Parses.
Context {A B : Type}.
Definition wf (c : Cursor) : Prop := (c_pos c ≤ length (c_b c))%nat ∧ Forall is_byte (c_b c).
Definition rest (c : Cursor) : bytes := drop (c_pos c) (c_b c).

(** [m] reads the [a]s that [P] says some bytes stand for: it reads no others, and it reads
    one wherever its bytes come first. *)
Record parses {A} (m : ST Cursor FixtureError A) (P : A → bytes → Prop) : Prop := {
  parses_sound c a c' : wf c → m c = (Ok a, c') → wf c' ∧ ∃ bs, P a bs ∧ rest c = bs ++ rest c';
  parses_complete c a bs tl : wf c → P a bs → rest c = bs ++ tl → ∃ c', m c = (Ok a, c') ∧ wf c' ∧ rest c' = tl;
  parses_total c : wf c → (m c).1 ≠ Panic;
}.

Lemma parses_bind (m : ST Cursor FixtureError A) (f : A → ST Cursor FixtureError B) P Q :
  parses m P → (∀ a, (∃ bs, P a bs) → parses (f a) (Q a)) →
  parses (m ≫= f) (λ b bs, ∃ a bs1 bs2, P a bs1 ∧ Q a b bs2 ∧ bs = bs1 ++ bs2).
Proof.
  intros Hm Hf. split.
  - intros c b c' Hc E. unfold mbind, ST_bind in E. destruct (m c) as [[a| |] c1] eqn:Em; try done.
    apply (parses_sound _ _ Hm) in Em as (Hc1 & bs1 & H1 & E1); [|done].
    apply (parses_sound _ _ (Hf a ltac:(eauto))) in E as (Hc' & bs2 & H2 & E2); [|done].
    split; [done|]. exists (bs1 ++ bs2). split; [by eauto 10|]. by rewrite E1, E2, (assoc_L (++)).
  - intros c b bs tl Hc (a & bs1 & bs2 & H1 & H2 & ->) E. rewrite <-(assoc_L (++)) in E.
    destruct (parses_complete _ _ Hm c a bs1 _ Hc H1 E) as (c1 & Em & Hc1 & E1).
    unfold mbind, ST_bind. rewrite Em. by eapply (parses_complete _ _ (Hf a ltac:(eauto))).
  - intros c Hc. unfold mbind, ST_bind. pose proof (parses_total _ _ Hm c Hc) as Ht.
    destruct (m c) as [[a| |] c1] eqn:Em; [|done|done].
    apply (parses_sound _ _ Hm) in Em as (Hc1 & bs1 & H1 & _); [|done].
    by apply (parses_total _ _ (Hf a ltac:(eauto))).
Qed.

Lemma parses_ret (a : A) : parses (mret a) (λ b bs, b = a ∧ bs = []).
Proof.
  split.
  - intros c b c' Hc [= -> ->]. split; [done|]. by exists [].
  - intros c b bs tl Hc [-> ->] E. by exists c.
  - done.
Qed.

Lemma parses_guard e (b : bool) : parses (lift (guard_or e b)) (λ _ bs, b = true ∧ bs = []).
Proof.
  split.
  - intros c [] c' Hc. destruct b; [|done]. intros [= <-]. split; [done|]. by exists [].
  - intros c [] bs tl Hc [-> ->] E. by exists c.
  - by destruct b.
Qed.

(** Another description of the same bytes. *)
Lemma parses_iff (m : ST Cursor FixtureError A) P Q :
  parses m P → (∀ a bs, P a bs ↔ Q a bs) → parses m Q.
Proof.
  intros Hm HPQ. split.
  - intros c a c' Hc E. destruct (parses_sound _ _ Hm c a c' Hc E) as (? & bs & Hb & ?).
    split; [done|]. exists bs. by rewrite <-HPQ.
  - intros c a bs tl Hc Hb. apply (parses_complete _ _ Hm); [done|by apply HPQ].
  - apply Hm.
Qed.
End Parses.

Lemma parses_take n : parses (Cursor.take n) (λ x bs, x = bs ∧ length bs = n ∧ Forall is_byte bs).
Proof.
  split; unfold Cursor.take, rest.
  - intros c a c' [Hp Hb]. case_match eqn:E; [|done]. intros [= <- <-]. apply Nat.leb_le in E.
    split; [split; [cbn; lia|done]|]. eexists. split_and!; [done| | |].
    + rewrite length_take, length_drop. lia.
    + by apply Forall_take, Forall_drop.
    + cbn. by rewrite <-drop_drop, take_drop.
  - intros c a bs tl [Hp Hb] (-> & Hl & _) E.
    assert (length (drop (c_pos c) (c_b c)) = (n + length tl)%nat) as El by by rewrite E, length_app, Hl.
    rewrite length_drop in El. rewrite (proj2 (Nat.leb_le _ _)) by lia. eexists. split_and!.
    + rewrite E, take_app_length'; done.
    + split; [cbn; lia|done].
    + cbn. by rewrite <-drop_drop, E, drop_app_length'.
  - intros c _. by case_match.
Qed.

Lemma parses_u8 : parses Cursor.u8 (λ z bs, is_byte z ∧ bs = [z]).
Proof.
  eapply parses_iff; [apply (parses_bind _ _ _ (λ x z bs, x = [z] ∧ bs = []) (parses_take 1))|].
  - intros x (bs & -> & Hl & _). destruct bs as [|b [|]]; try done.
    eapply parses_iff; [apply (parses_ret b)|]. intros z bs. naive_solver.
  - intros z bs. split.
    + intros (x & bs1 & bs2 & (-> & _ & Hb) & [-> ->] & ->). by rewrite Forall_singleton in Hb.
    + intros [Hz ->]. exists [z], [z], []. split_and!; [done|done|by apply Forall_singleton|done..].
Qed.

Section Repeat.
Context {A : Type} (m : ST Cursor FixtureError A) (ok : A → Prop) (enc : A → bytes).
Hypothesis Hm : parses m (λ a bs, ok a ∧ bs = enc a).

Lemma parses_repeat n :
  parses (PreState.repeat_take n m) (λ l bs, length l = n ∧ Forall ok l ∧ bs = concat (enc <$> l)).
Proof.
  induction n as [|n IH]; cbn [PreState.repeat_take].
  - eapply parses_iff; [apply parses_ret|]. intros l bs. split; [by intros [-> ->]|].
    intros (Hl & _ & ->). by destruct l.
  - eapply parses_iff.
    { eapply (parses_bind _ _ _ (λ x l bs, ∃ l', l = x :: l' ∧ length l' = n ∧ Forall ok l' ∧ bs = concat (enc <$> l')) Hm).
      intros x _. eapply parses_iff; [eapply (parses_bind _ _ _ (λ l' l bs, l = x :: l' ∧ bs = []) IH)|].
      - intros l' _. apply parses_ret.
      - intros l bs. split.
        + intros (l' & b1 & b2 & (Hl & Hf & ->) & (-> & ->) & ->). rewrite app_nil_r. by exists l'.
        + intros (l' & -> & Hl & Hf & ->). exists l', (concat (enc <$> l')), []. by rewrite app_nil_r. }
    intros l bs. split.
    + intros (x & b1 & b2 & (Hx & ->) & (l' & -> & Hl & Hf & ->) & ->). cbn. rewrite Hl. by repeat constructor.
    + intros (Hl & Hf & ->). destruct l as [|x l']; [done|]. apply Forall_cons in Hf as [Hx Hf]. injection Hl as Hl.
      exists x, (enc x), (concat (enc <$> l')). split_and!; [done|done| |done]. by exists l'.
Qed.
End Repeat.

(** ** The sizes the format has room for *)

Definition fits_slot (e : bytes * bytes) : Prop :=
  (length e.1 = 32%nat ∧ Forall is_byte e.1) ∧ length e.2 = 32%nat ∧ Forall is_byte e.2.
Definition fits_account (e : bytes * Z) : Prop :=
  Z.of_nat (length e.1) < 2 ^ 8 ∧ Forall is_byte e.1 ∧ is_i64 e.2.
Record fits (p : PreState.t) : Prop := {
  fits_contract : Z.of_nat (length (PreState.contract p)) < 2 ^ 8 ∧ Forall is_byte (PreState.contract p);
  fits_number : is_i64 (PreState.block_number p);
  fits_source : Z.of_nat (length (PreState.source p)) < 2 ^ 16 ∧ Forall is_byte (PreState.source p) ∧
    utf8 (PreState.source p) = true;
  fits_storage : Z.of_nat (length (PreState.storage p)) < 2 ^ 32 ∧ Forall fits_slot (PreState.storage p);
  fits_accounts : Z.of_nat (length (PreState.accounts p)) < 2 ^ 32 ∧ Forall fits_account (PreState.accounts p);
}.

(** A length field of [n] bytes. *)
Lemma len_field n bs x :
  (length bs = n ∧ Forall is_byte bs) ∧ x = Z.to_nat (from_be_unsigned bs) ↔
  bs = to_be_bytes n (Z.of_nat x) ∧ Z.of_nat x < 2 ^ (8 * Z.of_nat n).
Proof.
  split.
  - intros [[<- Hb] ->]. pose proof (be_combine_bound bs Hb) as Hr. fold (from_be_unsigned bs) in Hr.
    rewrite pow_256 in Hr. rewrite Z2Nat.id by lia. split; [|lia]. by rewrite to_from_be_bytes.
  - intros [-> Hx]. split; [split; [apply to_be_bytes_length|apply be_split_is_byte]|].
    rewrite from_to_be_bytes, Z.mod_small by lia. by rewrite Nat2Z.id.
Qed.

Lemma to_be_byte (x : nat) : Z.of_nat x < 2 ^ 8 → to_be_bytes 1 (Z.of_nat x) = [Z.of_nat x].
Proof. intros Hx. apply (to_from_be_bytes 1 [Z.of_nat x]); [|done]. apply Forall_singleton. unfold is_byte. lia. Qed.

Lemma i64_field bs x :
  (length bs = 8%nat ∧ Forall is_byte bs) ∧ x = i64_from_be_bytes bs ↔ bs = i64_to_be_bytes x ∧ is_i64 x.
Proof.
  split.
  - intros [[Hl Hb] ->]. rewrite i64_to_from_be_bytes by done. split; [done|]. apply wrap_i64_is_i64.
  - intros [-> Hx]. split; [split; [apply i64_to_be_bytes_length|apply be_split_is_byte]|].
    by rewrite i64_be_roundtrip.
Qed.

Ltac parse_binds := repeat first
  [ apply parses_take | apply parses_u8 | apply parses_guard | apply parses_ret
  | eapply parses_bind; [|intros ? ?] ].

Lemma parses_slot : parses PreState.take_slot (λ e bs, fits_slot e ∧ bs = PreState.put_slot e).
Proof.
  eapply parses_iff; [unfold PreState.take_slot; parse_binds|]. intros [s v] bs. cbn. split.
  - intros (x & b1 & b2 & (-> & Hl & Hb) & (y & b3 & b4 & (-> & Hl' & Hb') & ([= -> ->] & ->) & ->) & ->).
    rewrite app_nil_r. by repeat split.
  - intros [[[Hl Hb] [Hl' Hb']] ->]. exists s, s, v. split_and!; [done|done|done| |done].
    exists v, v, []. by rewrite app_nil_r.
Qed.

Lemma parses_account : parses PreState.take_account (λ e bs, fits_account e ∧ bs = PreState.put_account e).
Proof.
  eapply parses_iff; [unfold PreState.take_account; parse_binds|]. intros [a z] bs. cbv beta. split.
  - intros (n & b1 & b2 & (Hn & ->) & (x & b3 & b4 & (-> & Hl & Hb) & (y & b5 & b6 & (-> & Hl' & Hb') & ([= -> ->] & ->) & ->) & ->) & ->).
    destruct (proj1 (i64_field b5 _) (conj (conj Hl' Hb') eq_refl)) as [E8 Hi]. unfold is_byte in Hn.
    assert (n = Z.of_nat (length b3)) as -> by lia. split; [split_and!; [cbn; lia|done|done]|].
    unfold PreState.put_account. cbn [fst snd]. by rewrite to_be_byte, <-E8, app_nil_r by lia.
  - intros [(Hlt & Hb & Hi) ->]. cbn [fst snd] in *. unfold PreState.put_account. cbn [fst snd].
    destruct (proj2 (i64_field _ z) (conj eq_refl Hi)) as [[Hl8 Hb8] E8]. rewrite to_be_byte by done.
    exists (Z.of_nat (length a)), [Z.of_nat (length a)], (a ++ i64_to_be_bytes z).
    split_and!; [unfold is_byte; lia|done| |done].
    exists a, a, (i64_to_be_bytes z). split_and!; [done|by rewrite Nat2Z.id|done| |done].
    exists (i64_to_be_bytes z), (i64_to_be_bytes z), []. rewrite app_nil_r, <-E8. done.
Qed.

(** The next field of a chain of readers is [a]. *)
Ltac read_field a := refine (ex_intro _ a (ex_intro _ _ (ex_intro _ _ (conj _ (conj _ eq_refl))))).
Ltac read_check := refine (ex_intro _ tt (ex_intro _ [] (ex_intro _ _ (conj (conj _ eq_refl) (conj _ eq_refl))))).

Lemma parses_read : parses PreState.read (λ p bs, fits p ∧ bs = PreState.encode p).
Proof.
  eapply parses_iff.
  { unfold PreState.read. repeat first
      [ apply (parses_repeat _ _ _ parses_slot) | apply (parses_repeat _ _ _ parses_account)
      | progress parse_binds ]. }
  intros p bs. cbv beta. split.
  - intros (mg & ? & ? & (<- & _) & (? & ? & ? & (Hmg & ->) & (n & ? & ? & (Hn & ->) & (co & ? & ? & (<- & Hco & Hcb)
      & (nm & ? & ? & (<- & Hnm) & (sl & ? & ? & (<- & Hsl) & (so & ? & ? & (<- & Hso & Hsb) & (? & ? & ? & (Hu & ->)
      & (sc & ? & ? & (<- & Hsc) & (st & ? & ? & (Hst & Hsf & ->) & (ac & ? & ? & (<- & Hac) & (al & ? & ? & (Hal & Haf & ->)
      & (-> & ->) & ->) & ->) & ->) & ->) & ->) & ->) & ->) & ->) & ->) & ->) & ->) & ->).
    apply bool_decide_eq_true in Hmg as ->. unfold is_byte in Hn.
    assert (n = Z.of_nat (length co)) as -> by lia.
    destruct (proj1 (i64_field nm _) (conj Hnm eq_refl)) as [E8 Hi].
    destruct (proj1 (len_field 2 sl _) (conj Hsl Hso)) as [E2 H2].
    destruct (proj1 (len_field 4 sc _) (conj Hsc Hst)) as [E4 H4].
    destruct (proj1 (len_field 4 ac _) (conj Hac Hal)) as [E4' H4'].
    split; [by split; cbn; [split; [lia|]| | | |]|]. unfold PreState.encode. cbn [PreState.contract PreState.block_number PreState.storage PreState.accounts PreState.source].
    rewrite <-E8, <-E2, <-E4, <-E4', to_be_byte by lia. by rewrite app_nil_r.
  - intros [[[Hco Hcb] Hi [Hso [Hsb Hu]] [Hsc Hst] [Hac Hal]] ->]. unfold PreState.encode.
    destruct p as [co nm st al so]; cbn [PreState.contract PreState.block_number PreState.storage PreState.accounts PreState.source] in *.
    destruct (proj2 (i64_field _ nm) (conj eq_refl Hi)) as [Hl8 E8].
    destruct (proj2 (len_field 2 _ _) (conj eq_refl Hso)) as [Hl2 E2].
    destruct (proj2 (len_field 4 _ _) (conj eq_refl Hsc)) as [Hl4 E4].
    destruct (proj2 (len_field 4 _ _) (conj eq_refl Hac)) as [Hl4' E4']. rewrite to_be_byte by done.
    read_field PreState.MAGIC; [by repeat constructor|]. read_check; [by apply bool_decide_eq_true|].
    read_field (Z.of_nat (length co)); [by split; [unfold is_byte; lia|]|].
    read_field co; [by rewrite Nat2Z.id|]. read_field (i64_to_be_bytes nm); [by split|].
    read_field (to_be_bytes 2 (Z.of_nat (length so))); [by split|]. read_field so; [done|]. read_check; [done|].
    read_field (to_be_bytes 4 (Z.of_nat (length st))); [by split|]. read_field st; [done|].
    read_field (to_be_bytes 4 (Z.of_nat (length al))); [by split|].
    exists al, (concat (PreState.put_account <$> al)), []. by rewrite app_nil_r, <-E8.
Qed.

(** The reader accepts exactly what the writer writes.  A file reads as a pre-state
    precisely when it starts with the encoding of one that fits the format's length fields,
    and then as that one; the reader never panics; and no proper prefix of an encoding reads. *)
Theorem prestate_codec (bs : bytes) (p : PreState.t) :
  Forall is_byte bs →
  (PreState.decode bs = Ok p ↔ fits p ∧ ∃ tl, bs = PreState.encode p ++ tl) ∧
  PreState.decode bs ≠ Panic.
Proof.
  intros Hb. assert (wf (mk_cursor bs 0)) as Hw by (split; [cbn; lia|done]).
  unfold PreState.decode. split; [split|].
  - intros E. destruct (PreState.read _) as [r c] eqn:Er. cbn in E. subst r.
    apply (parses_sound _ _ parses_read) in Er as (_ & b & [Hf ->] & Er); [|done]. eauto.
  - intros [Hf [tl E]].
    destruct (parses_complete _ _ parses_read (mk_cursor bs 0) p (PreState.encode p) tl) as (c' & -> & _); done.
  - by apply (parses_total _ _ parses_read).
Qed.

(** ** Capturing a token transfer *)

(** [a - b] on big-endian digits, with the borrow out of the first one. *)
Fixpoint sub_loop (a b : bytes) : bytes * Z :=
  match a, b with
  | x :: a, y :: b =>
      let '(out, borrow) := sub_loop a b in
      let d := x - y - borrow in
      if d <? 0 then (d + 256 :: out, 1) else (d :: out, 0)
  | _, _ => ([], 0)
  end.
Definition sub_u256 (a b : bytes) : option bytes :=
  let '(out, borrow) := sub_loop a b in if borrow =? 0 then Some out else None.

Definition TRANSFER_SELECTOR : bytes := [169; 5; 156; 187].

Section Capture.
Context `{Hashes} `{!Decode TriggerSmartContract.t}.

Definition mapping_slot (key20 : bytes) (slot_index : Z) : bytes :=
  let key := take (Nat.min (length key20) 20) key20 in
  keccak256 (replicate (32 - length key) 0 ++ key ++ replicate 24 0 ++ to_be_bytes 8 slot_index).

(** The trigger of a transaction's first contract. *)
Definition first_trigger (tx : Transaction.t) : option (string + TriggerSmartContract.t) :=
  raw ← Transaction.raw_data tx;
  c ← head (TxRaw.contract raw);
  value ← Contract.parameter c;
  Some (decode value).

(** [ContractType::TriggerSmartContract] is 31. *)
Definition is_trc20_transfer (tx : Transaction.t) : bool :=
  match Transaction.raw_data tx with
  | None => false
  | Some raw =>
  match head (TxRaw.contract raw) with
  | None => false
  | Some c =>
      if negb (Contract.type c =? 31) then false else
      match first_trigger tx with
      | Some (inr trigger) =>
          (4 <=? length (TriggerSmartContract.data trigger))%nat &&
          bool_decide (take 4 (TriggerSmartContract.data trigger) = TRANSFER_SELECTOR)
      | _ => false
      end
  end
  end.

(** The last 20 bytes of an address. *)
Definition body20 (a : bytes) : bytes := drop (length a - 20) a.

(** The archive node: [eth_getStorageAt] of the contract for a slot and a block. *)
Context (get_storage_at : bytes → bytes → Z → string + bytes).

Inductive captured :=
| Unavailable (e : string)
| Captured (p : PreState.t).

(** The loop over the declaration slots. *)
Fixpoint locate (contract from20 to20 amount : bytes) (n : Z) (source : bytes) (idxs : list Z) :
    string + PreState.t :=
  let at_ := get_storage_at (body20 contract) in
  match idxs with
  | [] => inl "could not locate the _balances mapping slot in slots 0..=12"%string
  | i :: idxs =>
      let from_slot := mapping_slot from20 i in
      match at_ from_slot (n - 1) with
      | inl e => inl e
      | inr pre =>
      match at_ from_slot n with
      | inl e => inl e
      | inr post =>
          if bool_decide (sub_u256 pre post = Some amount) then
            let to_slot := mapping_slot to20 i in
            match at_ to_slot (n - 1) with
            | inl e => inl e
            | inr to_pre => inr (PreState.mk contract n [(from_slot, pre); (to_slot, to_pre)] [] source)
            end
          else locate contract from20 to20 amount n source idxs
      end
      end
  end.

Definition capture_prestate (block : Z) (contract_address : bytes) (tx : Transaction.t) (jsonrpc : bytes) :
    string + captured :=
  if negb (0 <? block) then inl "tx has no receipt"%string else
  match Transaction.raw_data tx with
  | None => inl "tx raw_data"%string
  | Some _ =>
  match first_trigger tx with
  | None => inl "contract"%string
  | Some (inl e) => inl e
  | Some (inr trigger) =>
      let data := TriggerSmartContract.data trigger in
      if negb ((68 <=? length data)%nat && bool_decide (take 4 data = TRANSFER_SELECTOR))
      then inl "not a TRC20 transfer(address,uint256)"%string else
      let from20 := body20 (TriggerSmartContract.owner_address trigger) in
      let to20 := take 20 (drop 16 data) in
      let amount := take 32 (drop 36 data) in
      match get_storage_at (body20 contract_address) (replicate 32 0) (block - 1) with
      | inl e => inr (Unavailable e)
      | inr _ =>
          match locate contract_address from20 to20 amount block
                  (bytes_of_string "archive:" ++ jsonrpc) (seqZ 0 13) with
          | inl e => inl e
          | inr p => inr (Captured p)
          end
      end
  end
  end.
End Capture.

(** ** What a capture records *)

Lemma be_combine_acc acc bs : be_combine acc bs = acc * 256 ^ Z.of_nat (length bs) + be_combine 0 bs.
Proof.
  revert acc. induction bs as [|b bs IH]; intros acc; cbn [be_combine length]; [change (256 ^ Z.of_nat 0) with 1; lia|].
  rewrite IH, (IH (0 * 256 + b)), Nat2Z.inj_succ, Z.pow_succ_r by lia. ring.
Qed.

Lemma sub_loop_spec a b out borrow :
  length a = length b → Forall is_byte a → Forall is_byte b → sub_loop a b = (out, borrow) →
  length out = length a ∧ Forall is_byte out ∧ (borrow = 0 ∨ borrow = 1) ∧
  be_combine 0 out = be_combine 0 a - be_combine 0 b + borrow * 256 ^ Z.of_nat (length a).
Proof.
  revert b out borrow. induction a as [|x a IH]; intros [|y b] out borrow Hl Ha Hb; try done.
  { intros [= <- <-]. split_and!; [done|done|by left|done]. }
  apply Forall_cons in Ha as [Hx Ha], Hb as [Hy Hb]. injection Hl as Hl. cbn [sub_loop].
  destruct (sub_loop a b) as [out' bo] eqn:E. destruct (IH b out' bo Hl Ha Hb E) as (El & Hf & Hbo & Ev).
  unfold is_byte in Hx, Hy.
  assert (∀ d bs, be_combine 0 (d :: bs) = d * 256 ^ Z.of_nat (length bs) + be_combine 0 bs) as Hc.
  { intros d bs. cbn [be_combine]. by rewrite be_combine_acc. }
  destruct (Z.ltb_spec (x - y - bo) 0); intros [= <- <-]; rewrite !Hc, El, Ev, <-Hl; cbn [length].
  all: rewrite Nat2Z.inj_succ, Z.pow_succ_r by lia.
  all: split_and!; [congruence|constructor; [unfold is_byte; lia|done]|lia|ring].
Qed.

(** [sub_u256] subtracts, and fails exactly on underflow. *)
Lemma sub_u256_spec a b :
  length a = length b → Forall is_byte a → Forall is_byte b →
  match sub_u256 a b with
  | Some c => length c = length a ∧ from_be_unsigned a = from_be_unsigned b + from_be_unsigned c
  | None => from_be_unsigned a < from_be_unsigned b
  end.
Proof.
  intros Hl Ha Hb. unfold sub_u256, from_be_unsigned. destruct (sub_loop a b) as [out bo] eqn:E.
  destruct (sub_loop_spec a b out bo Hl Ha Hb E) as (El & Hf & [-> | ->] & Ev); cbn.
  - split; [done|]. lia.
  - pose proof (be_combine_bound out Hf). rewrite El in *. lia.
Qed.

Section Captured.
Context `{HashLaws} `{!Decode TriggerSmartContract.t}.
Context (get_storage_at : bytes → bytes → Z → string + bytes).
Hypothesis storage_words : ∀ c s n v, get_storage_at c s n = inr v → length v = 32%nat ∧ Forall is_byte v.

Lemma locate_spec contract from20 to20 amount n source idxs p :
  locate get_storage_at contract from20 to20 amount n source idxs = inr p →
  ∃ i pre post to_pre, i ∈ idxs ∧
    PreState.storage p = [(mapping_slot from20 i, pre); (mapping_slot to20 i, to_pre)] ∧
    PreState.contract p = contract ∧ PreState.block_number p = n ∧ PreState.accounts p = [] ∧
    get_storage_at (body20 contract) (mapping_slot from20 i) (n - 1) = inr pre ∧
    get_storage_at (body20 contract) (mapping_slot from20 i) n = inr post ∧
    get_storage_at (body20 contract) (mapping_slot to20 i) (n - 1) = inr to_pre ∧
    from_be_unsigned pre = from_be_unsigned post + from_be_unsigned amount.
Proof.
  induction idxs as [|i idxs IH]; [done|]. cbn [locate]. cbv zeta.
  destruct (get_storage_at _ _ (n - 1)) as [|pre] eqn:E1; [done|].
  destruct (get_storage_at _ _ n) as [|post] eqn:E2; [done|]. case_bool_decide as Es.
  - destruct (get_storage_at _ (mapping_slot to20 i) _) as [|to_pre] eqn:E3; [done|]. intros [= <-].
    exists i, pre, post, to_pre. split_and!; try done; [by left|].
    destruct (storage_words _ _ _ _ E1) as [Hl1 Hb1]. destruct (storage_words _ _ _ _ E2) as [Hl2 Hb2].
    pose proof (sub_u256_spec pre post ltac:(congruence) Hb1 Hb2) as Hs. rewrite Es in Hs. apply Hs.
  - intros (j & ? & ? & ? & Hj & Hr)%IH. exists j. do 3 eexists. split; [by right|exact Hr].
Qed.

(** What a capture writes is the sender's slot, whose value fell by the transferred amount in
    the block of the transaction, and the receiver's, both as they were before it. *)
Lemma capture_records block contract tx jsonrpc p :
  capture_prestate get_storage_at block contract tx jsonrpc = inr (Captured p) →
  ∃ trigger i pre post to_pre, first_trigger tx = Some (inr trigger) ∧ 0 ≤ i ≤ 12 ∧ 0 < block ∧
    let data := TriggerSmartContract.data trigger in
    let from_slot := mapping_slot (body20 (TriggerSmartContract.owner_address trigger)) i in
    let to_slot := mapping_slot (take 20 (drop 16 data)) i in
    PreState.storage p = [(from_slot, pre); (to_slot, to_pre)] ∧ PreState.block_number p = block ∧
    get_storage_at (body20 contract) from_slot (block - 1) = inr pre ∧
    get_storage_at (body20 contract) from_slot block = inr post ∧
    get_storage_at (body20 contract) to_slot (block - 1) = inr to_pre ∧
    from_be_unsigned pre = from_be_unsigned post + from_be_unsigned (take 32 (drop 36 data)).
Proof.
  unfold capture_prestate. destruct (Z.ltb_spec 0 block); [|done]. cbn [negb].
  destruct (Transaction.raw_data tx); [|done]. destruct (first_trigger tx) as [[|trigger]|]; [done| |done].
  destruct (negb _); [done|]. destruct (get_storage_at _ _ _); [done|].
  destruct (locate _ _ _ _ _ _ _ _) as [|q] eqn:E; [done|]. intros [= ->].
  apply locate_spec in E as (i & pre & post & to_pre & Hi & E1 & _ & E2 & _ & E3 & E4 & E5 & E6).
  apply elem_of_seqZ in Hi. exists trigger, i, pre, post, to_pre. split_and!; try done; lia.
Qed.
End Captured.

(** The sample of [emit_controlled_sample]: storage slot 1 holds 1000. *)
Definition controlled_sample : PreState.t :=
  let contract := 65 :: replicate 20 204 in
  PreState.mk contract 0
    [(replicate 31 0 ++ [1], replicate 24 0 ++ to_be_bytes 8 1000)]
    [(contract, 0)]
    (bytes_of_string "hand-verified: controlled transfer-like contract (T03); real nile N-1 unavailable — public JSON-RPC is latest-only, full-chain replay of ~69.6M blocks infeasible offline").

(** The committed sample is what the tests read back. *)
Lemma controlled_sample_reads :
  PreState.decode (PreState.encode controlled_sample) = Ok controlled_sample.
Proof. by vm_compute. Qed.

Lemma prestate_codec_witness :
  PreState.decode (PreState.encode controlled_sample ++ [255]) = Ok controlled_sample.
Proof.
  apply (prestate_codec (PreState.encode controlled_sample ++ [255]) controlled_sample).
  - apply (bool_decide_unpack _). by vm_compute.
  - split; [|by exists [255]]. split; (apply (bool_decide_unpack _); by vm_compute).
Defined.
