(* ===== verification/Capture.v ===== *)
(** * Fixture files and capture programs (src/verify/src/lib.rs, src/verify/src/bin)

    The programs that record blocks, accounts, transactions and contract calls of a live node
    as fixture files, and the loaders the differential tests read them with.  The file system
    is a map from directory and name to content, the remote node a record of its answers, and
    the order of a directory listing a parameter.  What a capture writes is what the loaders
    give back, whatever the listing order. *)

From stdpp Require Import gmap strings pretty numbers fin_maps prelude sorting.
From S2P Require Import Prelude Types Text Proto Chain Consensus Rpc Fixture.
Open Scope Z_scope.

(** ** Text *)

(** [str::contains]. *)
Fixpoint contains (sub s : string) : bool :=
  String.prefix sub s || match s with EmptyString => false | String _ r => contains sub r end.
(** [str::strip_suffix]. *)
Definition strip_suffix (suf s : string) : option string :=
  let n := (String.length s - String.length suf)%nat in
  if bool_decide (String.length suf ≤ String.length s)%nat && bool_decide (String.substring n (String.length suf) s = suf)
  then Some (String.substring 0 n s) else None.

(** The network, inferred from the endpoint. *)
Definition network_of (endpoint : string) : string :=
  if contains "nile" endpoint then "nile" else if contains "shasta" endpoint then "shasta" else "mainnet".
Definition jsonrpc_url (endpoint : string) : string :=
  if contains "nile" endpoint then "https://nile.trongrid.io/jsonrpc"
  else if contains "shasta" endpoint then "https://api.shasta.trongrid.io/jsonrpc"
  else "https://api.trongrid.io/jsonrpc".
Definition DEFAULT_ENDPOINT : string := "http://grpc.nile.trongrid.io:50051".

Inductive CaptureError :=
| Usage
| BadNumber (arg : string)
| BadHex (e : string)
| BadAddress (arg : string) (e : TextError)
| Remote (e : string)
| NoHeader (num : Z)
| NoAccount (arg : string)
| NoReceipt
| NoTransfer (depth : Z)
| Io (path : string)
| Undecodable (e : string)
| BadFixture (e : FixtureError).

(** [--endpoint URL] taken out of the arguments; [Vec::remove] panics when the URL is missing. *)
Fixpoint take_endpoint (args : list string) : res CaptureError (string * list string) :=
  match args with
  | [] => Ok (DEFAULT_ENDPOINT, [])
  | a :: rest =>
      if bool_decide (a = "--endpoint") then
        match rest with url :: rest => Ok (url, rest) | [] => Panic end
      else '(url, rest) ← take_endpoint rest; Ok (url, a :: rest)
  end.

(** ** Files *)

(** Content by directory and file name. *)
Abbreviation files := (gmap (string * string) bytes).
(** [std::fs::read_dir]: the names in a directory, in an order the system chooses; [None] when
    the directory does not exist. *)
Class ReadDir := read_dir : string → files → option (list string).
Class ReadDirLaws `{ReadDir} := read_dir_names : ∀ dir fs name,
  is_Some (fs !! (dir, name)) ↔ ∃ names, read_dir dir fs = Some names ∧ name ∈ names.

Definition FIXTURE_DIR : string := "fixtures".
Definition CONTRACT_FIXTURE_SUBDIR : string := "fixtures/contracts".

(** [TransactionInfo] with the fields the programs read; [receipt] is its
    [energy_usage_total]. *)
Module TransactionInfo.
Record t := mk {
  id : bytes;
  blockNumber : Z;
  contract_address : bytes;
  receipt : option Z;
  result : Z
}.
End TransactionInfo.

(** The gRPC client of a node ([WalletClient]). *)
Record Wallet := mk_wallet {
  get_block_by_num : Z → string + Block.t;
  get_account : Address → string + Account.t;
  get_transaction_info_by_id : bytes → string + TransactionInfo.t;
  get_transaction_by_id : bytes → string + Transaction.t;
  get_contract_bytecode : bytes → string + bytes;
  get_transaction_info_by_block_num : Z → string + list TransactionInfo.t;
  get_now_block : string + Block.t
}.

Definition remote {A} (r : string + A) : res CaptureError A :=
  match r with inr a => Ok a | inl e => Err (Remote e) end.

Section Loaders.
Context `{ReadDir} `{!Decode Block.t} `{!Decode Transaction.t} `{!Decode TransactionInfo.t}.
Context (root : string).
Definition fixture_dir : string := root +:+ "/" +:+ FIXTURE_DIR.
Definition contract_dir : string := root +:+ "/" +:+ CONTRACT_FIXTURE_SUBDIR.

Definition read_file (dir name : string) (fs : files) : res CaptureError bytes :=
  ok_or (Io name) (fs !! (dir, name)).
Definition decode_file {M} `{!Decode M} (bs : bytes) : res CaptureError M :=
  match decode bs with inr x => Ok x | inl e => Err (Undecodable e) end.

Definition load_block (name : string) (fs : files) : res CaptureError Block.t :=
  bs ← read_file fixture_dir (name +:+ ".pb") fs; decode_file bs.

(** [Vec::sort] on strings: by their bytes. *)
Definition name_le (a b : string) : Prop := bytes_cmp (bytes_of_string a) (bytes_of_string b) ≠ Gt.
#[export] Instance name_le_dec : RelDecision name_le := λ a b, _.
Definition fixture_names (fs : files) : res CaptureError (list string) :=
  names ← ok_or (Io fixture_dir) (read_dir fixture_dir fs);
  Ok (merge_sort name_le (omap (strip_suffix ".pb") names)).

Record ContractCase := mk_case {
  label : string; tx : Transaction.t; info : TransactionInfo.t; code : bytes }.
Fixpoint read_cases (names : list string) (fs : files) : res CaptureError (list ContractCase) :=
  match names with
  | [] => Ok []
  | name :: names =>
      match strip_suffix ".info.pb" name with
      | None => read_cases names fs
      | Some label =>
          ibs ← read_file contract_dir (label +:+ ".info.pb") fs;
          info ← decode_file ibs;
          tbs ← read_file contract_dir (label +:+ ".tx.pb") fs;
          tx ← decode_file tbs;
          code ← read_file contract_dir (label +:+ ".code.bin") fs;
          rest ← read_cases names fs;
          Ok (mk_case label tx info code :: rest)
      end
  end.
Definition case_le (a b : ContractCase) : Prop := name_le (label a) (label b).
#[export] Instance case_le_dec : RelDecision case_le := λ a b, _.
Definition contract_cases (fs : files) : res CaptureError (list ContractCase) :=
  match read_dir contract_dir fs with
  | None => Ok []
  | Some names => cases ← read_cases names fs; Ok (merge_sort case_le cases)
  end.

Definition load_prestate (label : string) (fs : files) : res CaptureError PreState.t :=
  bs ← read_file contract_dir (label +:+ ".prestate.pb") fs;
  match PreState.decode bs with Ok p => Ok p | Err e => Err (BadFixture e) | Panic => Panic end.
End Loaders.

(** ** The programs *)

Section Programs.
Context `{TextCodec} `{Hashes} `{!Encode Block.t} `{!Encode Account.t} `{!Encode Transaction.t}
  `{!Encode TransactionInfo.t} `{!Decode TriggerSmartContract.t}.
Context (root : string) (connect : string → string + Wallet).
Abbreviation FS := (ST files CaptureError).

Definition write_file (dir name : string) (bs : bytes) : FS () := modify (insert (dir, name) bs).

(** [for x in l { f(x)? }] *)
Fixpoint each {A} (f : A → FS ()) (l : list A) : FS () :=
  match l with
  | [] => mret ()
  | x :: l => _ ← f x; each f l
  end.

Definition block_name (network : string) (height : Z) : string := network +:+ "-" +:+ dec height.

(** *** capture.rs *)

Definition capture_block (client : Wallet) (network arg : string) : FS () :=
  num ← lift (ok_or (BadNumber arg) (parse_i64 (bytes_of_string arg)));
  block ← lift (remote (get_block_by_num client num));
  raw ← lift (ok_or (NoHeader num) (header_raw block));
  write_file (fixture_dir root) (block_name network (HeaderRaw.number raw) +:+ ".pb") (encode_to_vec block).
Definition capture_main (args : list string) : FS () :=
  '(endpoint, args) ← lift (take_endpoint args);
  if bool_decide (args = []) then lift (Err Usage) else
  client ← lift (remote (connect endpoint));
  each (capture_block client (network_of endpoint)) args.

(** *** capture_accounts.rs *)

Definition capture_account (client : Wallet) (arg : string) : FS () :=
  addr ← lift match from_base58check arg with
              | Ok a => Ok a
              | Err _ => match from_hex arg with Ok a => Ok a | Err e => Err (BadAddress arg e) | Panic => Panic end
              | Panic => Panic
              end;
  account ← lift (remote (get_account client addr));
  if bool_decide (Account.address account = []) then lift (Err (NoAccount arg)) else
  write_file (fixture_dir root +:+ "/accounts") (to_base58check addr +:+ ".pb") (encode_to_vec account).
Definition capture_accounts_main (args : list string) : FS () :=
  '(endpoint, args) ← lift (take_endpoint args);
  if bool_decide (args = []) then lift (Err Usage) else
  client ← lift (remote (connect endpoint));
  each (capture_account client) args.

(** *** capture_txcase.rs *)

Definition parse_id (arg : string) : res CaptureError bytes :=
  match hex_decode (trim_0x arg) with inr id => Ok id | inl e => Err (BadHex e) end.
Definition capture_height (client : Wallet) (network : string) (height : Z) : FS () :=
  block ← lift (remote (get_block_by_num client height));
  write_file (fixture_dir root) (block_name network height +:+ ".pb") (encode_to_vec block).
Definition capture_txcase (client : Wallet) (network arg : string) : FS () :=
  id ← lift (parse_id arg);
  info ← lift (remote (get_transaction_info_by_id client id));
  let n := TransactionInfo.blockNumber info in
  if n <=? 0 then lift (Err NoReceipt) else
  each (capture_height client network) [n - 1; n].
Definition capture_txcase_main (args : list string) : FS () :=
  '(endpoint, args) ← lift (take_endpoint args);
  if bool_decide (args = []) then lift (Err Usage) else
  client ← lift (remote (connect endpoint));
  each (capture_txcase client (network_of endpoint)) args.

(** *** capture_contract_case.rs *)

(** [&hex::encode(id)[..16]]: a shorter id panics. *)
Definition case_label (network : string) (id : bytes) : res CaptureError string :=
  if (String.length (hex id) <? 16)%nat then Panic else Ok (network +:+ "-" +:+ String.substring 0 16 (hex id)).

Definition capture_one (client : Wallet) (network : string) (id : bytes) : FS () :=
  info ← lift (remote (get_transaction_info_by_id client id));
  if TransactionInfo.blockNumber info =? 0 then lift (Err NoReceipt) else
  tx ← lift (remote (get_transaction_by_id client id));
  bytecode ← lift (remote (get_contract_bytecode client (TransactionInfo.contract_address info)));
  label ← lift (case_label network id);
  _ ← write_file (contract_dir root) (label +:+ ".tx.pb") (encode_to_vec tx);
  _ ← write_file (contract_dir root) (label +:+ ".info.pb") (encode_to_vec info);
  write_file (contract_dir root) (label +:+ ".code.bin") bytecode.

(** The first transfer among the transactions of a block. *)
Fixpoint find_transfer (client : Wallet) (infos : list TransactionInfo.t) : res CaptureError (option bytes) :=
  match infos with
  | [] => Ok None
  | i :: infos =>
      if (default 0 (TransactionInfo.receipt i) =? 0) || negb (TransactionInfo.result i =? 0)
      then find_transfer client infos else
      tx ← remote (get_transaction_by_id client (TransactionInfo.id i));
      if is_trc20_transfer tx then Ok (Some (TransactionInfo.id i)) else find_transfer client infos
  end.
Fixpoint scan_blocks (client : Wallet) (nums : list Z) : res CaptureError (option bytes) :=
  match nums with
  | [] => Ok None
  | num :: nums =>
      infos ← remote (get_transaction_info_by_block_num client num);
      found ← find_transfer client infos;
      match found with Some id => Ok (Some id) | None => scan_blocks client nums end
  end.
Definition discover_transfer (client : Wallet) (depth : Z) : res CaptureError (option bytes) :=
  head ← remote (get_now_block client);
  let head_num := match header_raw head with Some raw => HeaderRaw.number raw | None => 0 end in
  first ← sub_i64 head_num depth;
  scan_blocks client (reverse (seqZ first (head_num - first))).

Definition position (flag : string) (args : list string) : option nat :=
  fst <$> list_find (λ a, a = flag) args.

(** [get_storage_at] is the JSON-RPC client at the URL. *)
Definition capture_contract_main (get_storage_at : string → bytes → bytes → Z → string + bytes)
    (args : list string) : FS () :=
  '(endpoint, args) ← lift (take_endpoint args);
  let network := network_of endpoint in
  if bool_decide ("--emit-sample" ∈ args) then
    write_file (contract_dir root) "controlled-transfer.prestate.pb" (PreState.encode controlled_sample)
  else
  client ← lift (remote (connect endpoint));
  match position "--prestate" args with
  | Some i =>
      match args !! S i with
      | None => lift (Err Usage)
      | Some tx_hex =>
          id ← lift (parse_id tx_hex);
          let url := jsonrpc_url endpoint in
          info ← lift (remote (get_transaction_info_by_id client id));
          _ ← lift (guard_or NoReceipt (0 <? TransactionInfo.blockNumber info));
          tx ← lift (remote (get_transaction_by_id client id));
          r ← lift (remote (capture_prestate (get_storage_at url) (TransactionInfo.blockNumber info)
                 (TransactionInfo.contract_address info) tx (bytes_of_string url)));
          match r with
          | Unavailable _ => mret ()
          | Captured p =>
              label ← lift (case_label network id);
              write_file (contract_dir root) (label +:+ ".prestate.pb") (PreState.encode p)
          end
      end
  | None =>
      ids ← match position "--discover" args with
            | Some i =>
                let depth := default 200 (args !! S i ≫= λ s, parse_i64 (bytes_of_string s)) in
                found ← lift (discover_transfer client depth);
                match found with Some id => mret [id] | None => lift (Err (NoTransfer depth)) end
            | None => if bool_decide (args = []) then lift (Err Usage)
                      else lift (mapM parse_id args)
            end;
      each (capture_one client network) ids
  end.
End Programs.

(** ** What is captured is what loads *)

Lemma substring_all (s : string) : String.substring 0 (String.length s) s = s.
Proof. induction s as [|a s IH]; [done|]. cbn. by rewrite IH. Qed.
Lemma substring_prefix (s t : string) : String.substring 0 (String.length s) (s +:+ t) = s.
Proof. induction s as [|a s IH]; [by destruct t|]. apply (f_equal (String a)), IH. Qed.
Lemma substring_suffix (s t : string) :
  String.substring (String.length s) (String.length t) (s +:+ t) = t.
Proof. induction s as [|a s IH]; [apply substring_all|done]. Qed.
Lemma length_append (s t : string) : String.length (s +:+ t) = (String.length s + String.length t)%nat.
Proof. induction s as [|a s IH]; [done|]. apply (f_equal S), IH. Qed.

Lemma strip_suffix_app (s suf : string) : strip_suffix suf (s +:+ suf) = Some s.
Proof.
  unfold strip_suffix. rewrite length_append, Nat.add_sub, substring_suffix, substring_prefix.
  rewrite !bool_decide_eq_true_2 by (done || lia). done.
Qed.

#[export] Instance name_le_trans : Transitive name_le.
Proof. intros a b c. apply bytes_cmp_trans. Qed.
#[export] Instance name_le_total : Total name_le.
Proof.
  intros a b. unfold name_le. rewrite (bytes_cmp_antisym (bytes_of_string a) (bytes_of_string b)).
  destruct (bytes_cmp _ _); cbn; auto.
Qed.

Section Names.
Context `{ReadDirLaws} (root : string).

(** A name is listed when its file is there, and the list is in order. *)
Lemma fixture_listed name fs :
  is_Some (fs !! (fixture_dir root, name +:+ ".pb")) →
  ∃ names, fixture_names root fs = Ok names ∧ name ∈ names ∧ Sorted name_le names.
Proof.
  intros (names & Hr & Hin)%read_dir_names. unfold fixture_names. rewrite Hr. cbn.
  eexists; split_and!; [done| |apply (Sorted_merge_sort _)].
  rewrite merge_sort_Permutation. apply list_elem_of_omap.
  exists (name +:+ ".pb"). by rewrite strip_suffix_app.
Qed.
End Names.

Lemma remote_Ok {A} (r : string + A) a : remote r = Ok a → r = inr a.
Proof. destruct r; [done|]. by intros [= ->]. Qed.

Section Captured.
Context `{ReadDirLaws} `{TextCodec} `{Hashes} `{!Encode Block.t} `{!Decode Block.t} `{!Encode Transaction.t}
  `{!Decode Transaction.t} `{!Encode TransactionInfo.t} `{!Decode TransactionInfo.t}.
Context (root : string) (client : Wallet) (network : string).

(** The node answers some request with [b], and [name] is the name of its height. *)
Definition answered (name : string) (b : Block.t) : Prop :=
  ∃ num raw, get_block_by_num client num = inr b ∧ header_raw b = Some raw ∧
    name = block_name network (HeaderRaw.number raw).
(** The file of [name] holds a block the node answered. *)
Definition recorded (name : string) (fs : files) : Prop :=
  ∃ b, fs !! (fixture_dir root, name +:+ ".pb") = Some (encode_to_vec b) ∧ answered name b.

Lemma captured_block arg fs fs' :
  capture_block root client network arg fs = (Ok (), fs') →
  ∃ num b raw, parse_i64 (bytes_of_string arg) = Some num ∧ get_block_by_num client num = inr b ∧
    header_raw b = Some raw ∧
    fs' = <[(fixture_dir root, block_name network (HeaderRaw.number raw) +:+ ".pb") := encode_to_vec b]> fs.
Proof.
  unfold capture_block, write_file, remote. intros Hc. inv_ok.
  destruct (get_block_by_num client _) eqn:Hb; [done|]. inv_ok. by do 3 eexists.
Qed.

Lemma append_inj_r (s t u : string) : s +:+ u = t +:+ u → s = t.
Proof. intros He. pose proof (strip_suffix_app s u) as Hs. rewrite He, strip_suffix_app in Hs. congruence. Qed.

Lemma recorded_keeps arg name fs fs' :
  capture_block root client network arg fs = (Ok (), fs') → recorded name fs → recorded name fs'.
Proof.
  intros (num & b & raw & _ & Hb & Hr & ->)%captured_block (b0 & Hf & Ha).
  destruct (decide (name = block_name network (HeaderRaw.number raw))) as [-> | Hne].
  - exists b. rewrite lookup_insert_eq. split; [done|]. by exists num, raw.
  - exists b0. rewrite lookup_insert_ne; [done|]. intros [= He%append_inj_r]. by subst.
Qed.

Lemma recorded_keeps_all args name fs fs' :
  each (capture_block root client network) args fs = (Ok (), fs') → recorded name fs → recorded name fs'.
Proof.
  revert fs. induction args as [|arg args IH]; intros fs Hc Hn; cbn in Hc.
  - by inv_ok.
  - apply ST_bind_Ok in Hc as ([] & fs1 & Ha1 & Hc). eapply IH; [done|]. by eapply recorded_keeps.
Qed.

Lemma recorded_loads name fs :
  (∀ num b, get_block_by_num client num = inr b → decode (encode_to_vec b) = inr b) →
  recorded name fs → ∃ b, load_block root name fs = Ok b ∧ answered name b.
Proof.
  intros Hok (b & Hf & Ha). exists b. unfold load_block, read_file, decode_file. rewrite Hf. cbn.
  destruct Ha as (num & raw & Hg & ?). rewrite (Hok num b Hg). split; [done|]. by exists num, raw.
Qed.

(** A capture run that ends well has recorded every block it was asked for: each argument
    is a number, the node answered it with a block that has a header, the name of that block's
    height is in the sorted list of fixtures whatever order the directory is read in, and the
    fixture of that name loads to a block of that height the node answered. *)
Theorem captured_blocks_load args fs fs' :
  (∀ num b, get_block_by_num client num = inr b → decode (encode_to_vec b) = inr b) →
  each (capture_block root client network) args fs = (Ok (), fs') →
  ∀ arg, arg ∈ args → ∃ num block raw names b,
    parse_i64 (bytes_of_string arg) = Some num ∧ get_block_by_num client num = inr block ∧
    header_raw block = Some raw ∧
    fixture_names root fs' = Ok names ∧ Sorted name_le names ∧
    block_name network (HeaderRaw.number raw) ∈ names ∧
    load_block root (block_name network (HeaderRaw.number raw)) fs' = Ok b ∧
    answered (block_name network (HeaderRaw.number raw)) b.
Proof.
  intros Hok. revert fs. induction args as [|a args IH]; intros fs Hc arg Hin; [by apply elem_of_nil in Hin|].
  cbn in Hc. apply ST_bind_Ok in Hc as ([] & fs1 & Ha1 & Hc).
  apply elem_of_cons in Hin as [-> | Hin]; [|by eapply IH].
  apply captured_block in Ha1 as (num & b & raw & Hn & Hb & Hr & ->).
  assert (recorded (block_name network (HeaderRaw.number raw)) fs') as Hrec.
  { eapply recorded_keeps_all; [done|]. exists b. rewrite lookup_insert_eq. split; [done|]. by exists num, raw. }
  destruct (recorded_loads _ _ Hok Hrec) as (b' & Hl & Ha).
  destruct Hrec as (? & Hf & _).
  destruct (fixture_listed root (block_name network (HeaderRaw.number raw)) fs') as (names & Hns & Hi & Hs); [by rewrite Hf|].
  by exists num, b, raw, names, b'.
Qed.

(** A captured contract call reads back as it was answered. *)
Lemma captured_case_loads id fs fs' :
  (∀ x, get_transaction_by_id client id = inr x → decode (encode_to_vec x) = inr x) →
  (∀ x, get_transaction_info_by_id client id = inr x → decode (encode_to_vec x) = inr x) →
  capture_one root client network id fs = (Ok (), fs') →
  ∃ l t i c, case_label network id = Ok l ∧ get_transaction_by_id client id = inr t ∧
    get_transaction_info_by_id client id = inr i ∧
    get_contract_bytecode client (TransactionInfo.contract_address i) = inr c ∧
    read_cases root [l +:+ ".info.pb"] fs' = Ok [mk_case l t i c].
Proof.
  unfold capture_one, write_file. intros Ht Hi Hc. inv_ok.
  apply remote_Ok in H3. destruct (TransactionInfo.blockNumber x =? 0); [done|]. inv_ok.
  apply remote_Ok in H4, H5. do 4 eexists. split_and!; [done..|]. cbn [read_cases].
  rewrite strip_suffix_app. unfold read_file, decode_file.
  repeat (rewrite lookup_insert_eq || rewrite lookup_insert_ne by by intros [= ?%(inj _)]).
  cbn. rewrite (Hi x), (Ht x0) by done. done.
Qed.
End Captured.

(** ** A sample run *)

Module CaptureSample.
Definition list_dir : ReadDir := λ dir fs,
  Some (omap (λ f : (string * string) * bytes, if bool_decide (f.1.1 = dir) then Some f.1.2 else None) (map_to_list fs)).
Definition block (n : Z) : Block.t :=
  Block.mk [] (Some (BlockHeader.mk (Some (HeaderRaw.default <| HeaderRaw.number := n |>)) [])).
Definition encode_block : Encode Block.t := λ b, match header_raw b with Some r => [HeaderRaw.number r] | None => [] end.
Definition decode_block : Decode Block.t := λ bs, match bs with [n] => inr (block n) | _ => inl "buffer underflow"%string end.
(** A node with two blocks. *)
Definition node : Wallet := {|
  get_block_by_num n := if bool_decide (n = 7 ∨ n = 8) then inr (block n) else inl "not found"%string;
  get_account _ := inl "unavailable"%string;
  get_transaction_info_by_id _ := inl "unavailable"%string;
  get_transaction_by_id _ := inl "unavailable"%string;
  get_contract_bytecode _ := inl "unavailable"%string;
  get_transaction_info_by_block_num _ := inl "unavailable"%string;
  get_now_block := inr (block 8)
|}.
End CaptureSample.

Lemma list_dir_laws : @ReadDirLaws CaptureSample.list_dir.
Proof.
  intros dir fs name. unfold read_dir, CaptureSample.list_dir. split.
  - intros [bs Hb]. eexists; split; [done|]. apply list_elem_of_omap. exists ((dir, name), bs).
    split; [by apply elem_of_map_to_list|]. cbn. by rewrite bool_decide_eq_true_2.
  - intros (names & [= <-] & ([[d n] bs] & Hin%elem_of_map_to_list & Hn)%list_elem_of_omap). cbn in *.
    case_bool_decide; simplify_eq. by exists bs.
Qed.

Lemma captured_blocks_load_witness :
  ∃ names b, @fixture_names CaptureSample.list_dir "."
      (each (@capture_block CaptureSample.encode_block "." CaptureSample.node "nile") ["8"; "7"] ∅).2 = Ok names ∧
    "nile-7" ∈ names ∧
    @load_block CaptureSample.decode_block "." "nile-7"
      (each (@capture_block CaptureSample.encode_block "." CaptureSample.node "nile") ["8"; "7"] ∅).2 = Ok b ∧
    block_number b = 7.
Proof.
  destruct (@captured_blocks_load CaptureSample.list_dir list_dir_laws CaptureSample.encode_block CaptureSample.decode_block
    "." CaptureSample.node "nile" ["8"; "7"] ∅
    (each (@capture_block CaptureSample.encode_block "." CaptureSample.node "nile") ["8"; "7"] ∅).2)
    with (arg := "7"%string) as (num & b0 & raw & names & b & Hp & Hb & Hr & Hn & _ & Hin & Hl & _).
  - intros num b. cbn. case_bool_decide as Hn; [|done]. intros [= <-]. by destruct Hn as [-> | ->].
  - apply injective_projections; [by vm_compute|done].
  - set_solver.
  - vm_compute in Hp. injection Hp as <-. vm_compute in Hb. injection Hb as <-. injection Hr as <-.
    exists names, b. split_and!; [done|exact Hin|exact Hl|].
    change (block_name "nile" _) with "nile-7" in Hl.
    assert (Ok b = Ok (E := CaptureError) (CaptureSample.block 7)) as [= ->]; [|done].
    rewrite <- Hl. by vm_compute.
Defined.
